(* ===== verification/_CoqProject ===== *)
-Q . S2P
Prelude.v
EventQueue.v
StdSet.v
TdApi.v
AppState.v
ChatList.v
Messages.v
QrSegment.v
QrSegmentFacts.v
QrEncode.v
QrEncodeFacts.v
ReedSolomon.v
ReedSolomonFacts.v
Grid.v
QrCode.v
QrDrawFacts.v
QrPlaceFacts.v
QrDataCells.v
QrMaskFacts.v
QrBlocks.v
QrPenaltyFacts.v
QrSymbolFacts.v
QrRoundTrip.v
QrProperties.v
QrDisplay.v
StdString.v
TgClient.v
TgClientFacts.v
LoginFacts.v
Curses.v
Layout.v
LayoutFacts.v
ProcessInput.v
MainLoop.v
InputFacts.v
Concurrency.v
Bytes.v
Utf8.v
Base64.v
TlParsers.v
TlParserFacts.v
TlHelpers.v
TdReceiver.v
ClientManager.v
Crc32.v
MessageId.v
OrderedMessages.v
OrderedMessagesFacts.v
OrderedMessagesSearch.v
OrderedHistory.v
Heap.v
HashNode.v
FlatHashTable.v
LinearProbing.v
FlatHashTableFacts.v
FlatHashTableErase.v
FlatHashTableOps.v
FlatHashTableIter.v
FlatHashTableRemove.v
FlatHashMap.v
OrderedEvents.v
BinlogEvent.v
BinlogEventsProcessor.v
FileSystem.v
BinlogState.v
Binlog.v
BinlogFormat.v
BinlogLoad.v
BinlogRun.v
BinlogReindex.v
BinlogOps.v
BinlogOpen.v
BinlogDecrypt.v
BinlogInit.v
BinlogCrash.v
BinlogKeyValue.v
BinlogKeyValueFacts.v
BinlogKeyValueBatch.v
ConcurrentBinlog.v
BinlogProperties.v
