(* ===== verification/Prelude.v ===== *)
(** * chatcurse: a verification library

    chatcurse is a terminal client for Telegram. Its own code is in [src/src]; it
    prints the QR code of a login link with [src/lib/qrcodegen], and talks to Telegram
    through TDLib, whose sources are vendored in [src/lib/td]. This library models
    the client and the encoder as a whole, and of TDLib the layers that the client's
    requests, responses and data pass through. The file paths below are relative to
    the directory that contains [src/].

    ** How the program works

    [main] ([src/src/chatcurse.cc]) reads the options, builds the five windows and
    starts a second thread. That thread runs [set_response_handlers]: it signs in
    ([init_auth]), then receives responses and updates of TDLib for ever and stores what
    they say in the shared application state. The first thread reads keys, changes
    what is displayed, sends requests, and draws what the events in the event queue ask
    for. The two share the application state, the event queue and the client object, each
    part (but for the findings) guarded by a mutex. A request travels through
    TDLib's [ClientManager] to a client instance and its answer comes back through a
    queue that one thread polls.

    ** The parts and where they are modelled

    This file: outcomes (a value, an exception, a failed check, undefined behaviour),
    vectors, loops, machine integers, maps read with [operator[]], tactics and hints.

    The client.
    - [EventQueue]: [event_queue] of [global.cc], [event_types.h]; [push] and
      [pop_and_get] as state transformers.
    - [StdSet]: [std::set] with a comparator, as the list of its elements in iteration
      order, with the abstract laws the clients use.
    - [TdApi]: the objects of [td_api.tl] that the client reads or sends.
    - [AppState]: [tl_app_state_struct] of [global.h]; [app_state] has a field
      per member.
    - [ChatList], [Messages]: the updates of [tg.cc] that fill the chat list and the
      message histories.
    - [TgClient]: the class [TgClient] of [tg.cc]: requests, stored handlers, dispatch of
      responses, authorization, the start-up and receiving loops. [TgClientFacts]
      and [LoginFacts] prove its properties.
    - [Curses]: the curses library as an interface (a class); [Layout]: [layout.cc];
      [ProcessInput]: [process_input.cc]; [MainLoop]: [chatcurse.cc]. [LayoutFacts] and
      [InputFacts] prove their properties.
    - [Concurrency]: both threads as sequences of lock operations and of accesses to
      shared variables, under all interleavings.
    - [StdString]: [std::string] operations with their exceptions.

    The QR encoder ([lib/qrcodegen/qrcodegen.cpp]).
    - [QrSegment], [QrEncode]: bit buffers, segments, [encodeText], [encodeSegments] up to
      the constructor; [QrSegmentFacts], [QrEncodeFacts].
    - [ReedSolomon], [ReedSolomonFacts]: the field and the error correction.
    - [Grid], [QrCode], [QrDisplay]: the symbol, its drawing, masks and penalties, the
      constructor, the printed picture. [QrDrawFacts], [QrPlaceFacts], [QrDataCells],
      [QrMaskFacts], [QrBlocks], [QrPenaltyFacts], [QrSymbolFacts], [QrRoundTrip] and
      [QrProperties] build up to the round trip from text to modules and back.

    TDLib ([lib/td]).
    - [TdReceiver]: [MpscPollableQueue.h] and [TdReceiver] of [Client.cpp].
    - [ClientManager]: [ClientManager::Impl] and what it is made of; the instances
      ([Td]) are an arbitrary environment.
    - [Bytes], [TlParsers], [TlParserFacts], [TlHelpers]: [tl_storers.h], [tl_parsers.h],
      [tl_parsers.cpp], [tl_helpers.h]: the binary format of TDLib's objects. The
      overloads of [store] and [parse] are instances of a class, and what a type promises
      is a second class whose instances compose. The types themselves are a universe
      of codes ([tl_type]), with the overloads, the values and the stored form each code
      stands for; the theorems hold for every code.
    - [Utf8], [Base64]: checking, coding and cutting of strings.
    - [MessageId]: the identifiers of messages; [OrderedMessages] with
      [OrderedMessagesFacts], [OrderedMessagesSearch] and [OrderedHistory]: the treap of the
      known messages of a chat and the [get_history] that answers the client's
      [getChatHistory], with a reference definition of it over the list of the messages.
    - [Heap]: the heap of the timeouts of TDLib's actors.
    - [HashNode], [FlatHashTable]: [HashTableUtils.h], [MapNode.h], [SetNode.h],
      [FlatHashTable.h]: the hash maps and sets of TDLib. What a table asks of its nodes
      is a class with four instances. [LinearProbing], [FlatHashTableFacts],
      [FlatHashTableErase], [FlatHashTableOps], [FlatHashTableIter],
      [FlatHashTableRemove] and [FlatHashMap] lead to the refinement of finite maps.
    - [OrderedEvents]: [OrderedEventsProcessor.h], [ChangesProcessor.h] and
      [PtsManager.h]: events put in order, changes reported as a finished prefix.
    - [BinlogEvent], [BinlogEventsProcessor], [FileSystem], [BinlogState], [Binlog]: the
      write-ahead log of TDLib's database ([tddb/td/db/binlog]): the bytes of an event, the
      events in force, the files of a log on a disk that can stop at any moment, the
      members of [class Binlog] and its operations: [init], [add_event], [flush], [sync],
      [do_reindex], [change_key] and what they call, with and without encryption.
      [BinlogFormat], [BinlogLoad], [BinlogRun], [BinlogReindex], [BinlogOps], [BinlogOpen],
      [BinlogDecrypt], [BinlogInit] and [BinlogCrash] prove what an open log is, that all
      operations keep it one, and that [init] recovers it from what a crash leaves.
    - [ConcurrentBinlog]: the log that several threads share ([ConcurrentBinlog.cpp],
      [BinlogInterface.h]): the counter that numbers events, and the actor that puts them in
      order with the processor of [OrderedEvents], passes them to the log and answers
      promises. A step relation on the state of the whole interleaves the requests of the
      threads, the arrival of messages in any order, flushes and the timer of the actor.
    - [BinlogKeyValue]: the key-value store kept in a log ([BinlogKeyValue.h]), which holds
      the options and the settings; [BinlogKeyValueFacts] and [BinlogKeyValueBatch] relate
      it to finite maps. [BinlogProperties] has the theorems of the log, the concurrent log
      and the store, at work on examples.
    - [Crc32]: the checksum of the schema compiler ([generate/tl-parser/crc32.c]), which
      gives the chat lists the numbers that [tg.cc] files them under.

    ** State and operations

    A class or struct of the source is a record with its members; a method is a
    function from the state to an [outcome] of the new state and the result. Side
    effects that leave the model (requests sent, curses calls, text printed) are lists
    in the state, in the order of the calls. What happens outside (keys, responses,
    what the environment holds) is an argument. Where threads interleave
    ([Concurrency], [TdReceiver], [ClientManager]) the states form a step relation and
    the properties hold in every reachable state. Integers are [Z] with the
    wrap-around of their type ([u8], [u32], [u64], [i32]) written where the
    code can reach it; signed overflow, null dereferences, iterators past the end and
    accesses outside memory are faults, so that a theorem that a function returns [Ok]
    also says that it has no undefined behaviour.

    ** What the theorems show

    - Invariants of the state: the shared state under all responses
      ([TgClientFacts]), the chat list and one update ([ChatList]), the histories
      ([Messages]), the interface under all keys of the chat list ([InputFacts]), the
      treap ([OrderedMessagesFacts]) and the heap ([Heap]).
    - Round trips: text to QR symbol and back ([QrProperties]), codewords through
      blocks and interleaving, objects through the binary format ([TlHelpers]), base64,
      UTF-8, the events of a log.
    - Refinements of an abstract specification: the hash table against finite maps, the
      manager of [pts] against the list of its changes, the key-value store against finite
      maps, the processor of a log against the replay of its events, the event queue against the list of
      pending events, the receiver against a first-in first-out list, the treap
      against the list of its messages, the searches against filters of that list.
    - Equivalence with a reference definition: the UTF-8 checker and lists of
      code points, the table-driven CRC and the bitwise one, the automatic mask and the
      minimum of the penalties, the version of a symbol and the smallest one that holds the
      bits the text needs, [get_history] over the treap and over the list.
    - Crashes: the log and the store, stopped at any moment, open again with what a
      prefix of the operations left, one that contains everything before the last [sync];
      with several threads, one that contains every event an answered promise waited for,
      and after closing it all that arrived in order;
      changing the key keeps the entries ([BinlogProperties]).
    - Safety of executions: the client manager never fails a check, a client closes
      once, the threads do not deadlock, the locked state is free of races, the
      parser stays inside the bytes it is given, whatever they are.
    - Termination and liveness: the start-up loop returns when TDLib reports the ready
      state; Ctrl-Q ends both loops; no promise of the concurrent log waits without a timer.
    - Errors: a wrong password leaves the files of a log alone, an event that is too long
      ends the log; [encodeText] throws exactly when no version holds the text; when the handler of
      a history is defined; what is undefined after choosing a shorter chat; which
      keys race with updates; when [utf8_utf16_truncate] fails to cut; which zeros at the
      end of an encrypted log make it lose later events.

    ** Fuel and bounds

    Recursion follows the data wherever the code's loop does. The loops that wait for
    TDLib recurse on the list of responses delivered, so the theorems speak of every
    finite run. The loops of [QrEncode], [QrCode], [Heap] and [FlatHashTable] that are not
    structural take fuel: the number of versions, of padding bytes, of columns, the
    place in the vector or its size, the number of buckets. Running out of it is a
    fault or a wrong result, and the theorems about what the operations return show
    that it never happens. Statements
    about the forty QR versions, the four levels and the eight masks are proved by
    computation over all of them.

    The loop that reads a log takes fuel: an event takes three turns at most and 32 bytes
    at least, so the length of the file is enough.

    ** Files and crashes

    [FileSystem] keeps the two files of a log and every state the disk was in. A crash can
    come in each of them, also inside an operation; a process that is killed is one that
    loses nothing. It leaves a prefix of each file, with at least the bytes that were
    there at the last [fsync]; creating, truncating, unlinking and renaming take effect at
    once and in order. Zeros or older data at the end of a file are outside this model
    but for the theorem about zeros. System calls succeed. zlib, PBKDF2, HMAC, AES and
    the random numbers are a class of functions whose laws are the sizes of their results.

    ** Not modelled

    - Of the client: the logger, terminal modes, signal handlers, the wait for a
      debugger and the join of the thread in [main]; [_from_container] of [utils.h], which
      nothing calls.
    - curses, the C++ library's allocation failures, the operating system.
    - TDLib beyond the files above: its managers, network stack, actors, and the tables it
      keeps in SQLite. What
      it answers is an arbitrary argument of the model, so the client's theorems hold for
      every behaviour of it that their hypotheses allow.
    - Within the files above: the variant of the client manager without threads and
      its static functions; nested storers and shared buffers; lower case and search
      words (generated tables), base32, [SecureString]; reading identifiers from objects
      of the server API, whose classes are generated; the parser and type checker of the
      schema compiler, a build tool.
    - Of the log: the lock on its file, failing system calls, the timed renewal of the
      buffers, log messages (but for the check whether what is dropped is zeros), the
      buffer of events, which [Binlog.cpp] turns off. Of the concurrent log: the framework
      of actors (messages arrive once, in any order; the timer expires at any time after it
      was set), and, in its theorems, steps that change the key.
    - SQLite and the build files.

    ** What could follow

    The step of the concurrent log that changes its key; the small self-contained
    containers [ChainScheduler.h] and [VectorQueue.h]; the dialog identifiers ([DialogId.cpp]); base32. *)
From stdpp Require Export prelude gmap strings list sorting.
From Stdlib Require Export ZArith Lia.

#[export] Set Default Proof Using "Type".
#[global] Open Scope Z_scope.

(** ** Outcomes of C++ code *)

(** The exception classes the modelled code throws. *)
Inductive exn :=
  | length_error
  | domain_error
  | invalid_argument
  | logic_error
  | out_of_range
  | data_too_long.

#[global] Instance exn_eq_dec : EqDecision exn.
Proof. solve_decision. Defined.

(** How an execution fails to deliver a value: a C++ exception, a failed
    [assert], or an operation whose behaviour the C++ standard leaves
    undefined (a null dereference, an iterator advanced past the end, a signed
    overflow). *)
Inductive fault :=
  | Throw (e : exn)
  | AssertFailure
  | UndefinedBehaviour.

#[global] Instance fault_eq_dec : EqDecision fault.
Proof. solve_decision. Defined.

Inductive outcome (A : Type) :=
  | Ok (a : A)
  | Fault (f : fault).
Arguments Ok {A} a.
Arguments Fault {A} f.

#[global] Instance outcome_ret : MRet outcome := @Ok.
#[global] Instance outcome_bind : MBind outcome := λ A B f m,
  match m with Ok a => f a | Fault e => Fault e end.
#[global] Instance outcome_fmap : FMap outcome := λ A B f m,
  match m with Ok a => Ok (f a) | Fault e => Fault e end.

Definition throw {A} (e : exn) : outcome A := Fault (Throw e).
Definition ub {A} : outcome A := Fault UndefinedBehaviour.

(** [assert(b)] of the C library (the build does not define NDEBUG). *)
Definition cassert (b : bool) : outcome unit :=
  if b then Ok () else Fault AssertFailure.

(** A value that is absent where the code dereferences it. *)
Definition deref {A} (o : option A) : outcome A :=
  match o with Some a => Ok a | None => ub end.

Section outcome_lemmas.
Context {A B : Type}.
Implicit Types (m : outcome A) (k : A → outcome B).

Lemma bind_Ok m k b : m ≫= k = Ok b ↔ ∃ a, m = Ok a ∧ k a = Ok b.
Proof. destruct m; simpl; naive_solver. Qed.

Lemma bind_Ok_l (a : A) k : (Ok a ≫= k) = k a.
Proof. done. Qed.

Lemma deref_Ok (o : option A) a : deref o = Ok a ↔ o = Some a.
Proof. destruct o; simpl; naive_solver. Qed.
End outcome_lemmas.

Lemma cassert_Ok b u : cassert b = Ok u ↔ b = true.
Proof. destruct b, u; simpl; naive_solver. Qed.

(** ** Sublists and sorted lists *)

Lemma sublist_sorted {A} (R : A → A → Prop) l l' : sublist l l' → StronglySorted R l' → StronglySorted R l.
Proof.
  induction 1 as [|x l l' Hl IH|x l l' Hl IH]; [done| |].
  - intros [Hs Hx]%StronglySorted_inv. constructor; [auto|]. clear -Hl Hx.
    induction Hl; decompose_Forall_hyps; auto.
  - intros [Hs Hx]%StronglySorted_inv. auto.
Qed.
Lemma Forall_sublist {A} (P : A → Prop) l l' : sublist l l' → Forall P l' → Forall P l.
Proof. induction 1; intros Hf; decompose_Forall_hyps; auto. Qed.
Lemma snoc_sorted {A} (R : A → A → Prop) l x : StronglySorted R l → Forall (λ y, R y x) l →
  StronglySorted R (l ++ [x]).
Proof.
  induction 1 as [|y l Hs IH Hy]; intros Hl; decompose_Forall_hyps.
  - by repeat constructor.
  - constructor; [auto|]. apply Forall_app. auto.
Qed.
Lemma StronglySorted_snoc_inv {A} (R : A → A → Prop) l x : StronglySorted R (l ++ [x]) →
  StronglySorted R l ∧ Forall (λ y, R y x) l.
Proof.
  induction l as [|y l IH]; cbn; [split; constructor|].
  intros [Hs Hy]%StronglySorted_inv. destruct (IH Hs) as [H1 H2]. apply Forall_app in Hy as [Hy1 Hy2].
  decompose_Forall_hyps. split; by constructor.
Qed.
(** ** Vectors accessed with a bounds check *)

(** [v.at(i)] *)
Definition vec_at {A} (v : list A) (i : nat) : outcome A :=
  match v !! i with Some x => Ok x | None => throw out_of_range end.
(** [v.at(i) = x] *)
Definition vec_set {A} (v : list A) (i : nat) (x : A) : outcome (list A) :=
  match v !! i with Some _ => Ok (<[i := x]> v) | None => throw out_of_range end.

Lemma vec_at_mid {A} (dn : list A) x rest : vec_at (dn ++ x :: rest) (length dn) = Ok x.
Proof. unfold vec_at. by rewrite list_lookup_middle. Qed.
Lemma vec_set_mid {A} (dn : list A) x y rest :
  vec_set (dn ++ x :: rest) (length dn) y = Ok (dn ++ y :: rest).
Proof.
  unfold vec_set. rewrite list_lookup_middle by done.
  rewrite insert_app_r_alt, Nat.sub_diag by done. done.
Qed.

(** ** Loops *)

(** A loop over the elements of a container whose body may fail. *)
Fixpoint ofold {A S} (body : S → A → outcome S) (s : S) (l : list A) : outcome S :=
  match l with
  | [] => Ok s
  | x :: l => s' ← body s x; ofold body s' l
  end.

Section ofold_lemmas.
Context {A S : Type} (body : S → A → outcome S).

Lemma ofold_app s l1 l2 :
  ofold body s (l1 ++ l2) = s' ← ofold body s l1; ofold body s' l2.
Proof.
  revert s. induction l1 as [|x l1 IH]; intros s; simpl; [done|].
  destruct (body s x); simpl; [apply IH|done].
Qed.

(** Total correctness of a loop: when every iteration keeps the invariant
    and does not fail, the loop ends and keeps it. *)
Lemma ofold_total (P : S → Prop) l s :
  P s →
  (∀ s x, x ∈ l → P s → ∃ s', body s x = Ok s' ∧ P s') →
  ∃ s', ofold body s l = Ok s' ∧ P s'.
Proof.
  revert s. induction l as [|x l IH]; intros s Hs Hstep; simpl; [eauto|].
  destruct (Hstep s x) as (s' & -> & Hs'); [set_solver|done|].
  simpl. apply IH; [done|]. intros; apply Hstep; [set_solver|done].
Qed.

Lemma ofold_inv (P : S → Prop) l s s' :
  ofold body s l = Ok s' → P s →
  (∀ s x s', x ∈ l → P s → body s x = Ok s' → P s') → P s'.
Proof.
  revert s. induction l as [|x l IH]; intros s Hl Hs Hstep; simpl in *.
  - by simplify_eq.
  - apply bind_Ok in Hl as (s1 & H1 & Hl).
    eapply IH; [done| |].
    + eapply Hstep; [|done|done]. set_solver.
    + intros; eapply Hstep; [|done|done]. set_solver.
Qed.

(** Loops whose bodies agree on the states that occur. *)
Lemma ofold_ext_inv (P : S → Prop) (body' : S → A → outcome S) l s :
  P s →
  (∀ s x, P s → x ∈ l → body s x = body' s x) →
  (∀ s x s', P s → x ∈ l → body s x = Ok s' → P s') →
  ofold body s l = ofold body' s l.
Proof.
  revert s. induction l as [|x l IH]; intros s Hs Heq Hp; simpl; [done|].
  rewrite <-Heq by (done || set_solver).
  destruct (body s x) as [s'|] eqn:E; simpl; [|done].
  apply IH; [eapply Hp; [done| |done]; set_solver| |].
  - intros; apply Heq; [done|set_solver].
  - intros s1 y s2 ???. eapply Hp; [done| |done]. set_solver.
Qed.

Lemma ofold_ext (body' : S → A → outcome S) l s :
  (∀ s x, x ∈ l → body s x = body' s x) → ofold body s l = ofold body' s l.
Proof. intros H. apply (ofold_ext_inv (λ _, True)); auto. Qed.
End ofold_lemmas.

Lemma forallb_Forall {A} (f : A → bool) l :
  forallb f l = true ↔ Forall (λ x, f x = true) l.
Proof.
  induction l as [|x l IH]; simpl; [by split|].
  by rewrite andb_true_iff, Forall_cons, IH.
Qed.

Lemma filter_all {A} (P : A → Prop) `{∀ x, Decision (P x)} l : Forall P l → filter P l = l.
Proof. induction 1; [done|]. rewrite filter_cons_True by done. congruence. Qed.
Lemma filter_none {A} (P : A → Prop) `{∀ x, Decision (P x)} l : Forall (λ x, ¬ P x) l → filter P l = [].
Proof. induction 1; [done|]. by rewrite filter_cons_False. Qed.

(** Induction on a list in steps of two, three and four elements. *)
Lemma list_ind2 {A} (P : list A → Prop) :
  P [] → (∀ a, P [a]) → (∀ a b l, P l → P (a :: b :: l)) → ∀ l, P l.
Proof. intros P0 P1 P2. fix IH 1. intros [|a [|b l]]; [done|done|]. apply P2, IH. Qed.
Lemma list_ind3 {A} (P : list A → Prop) :
  P [] → (∀ a, P [a]) → (∀ a b, P [a; b]) →
  (∀ a b c l, P l → P (a :: b :: c :: l)) → ∀ l, P l.
Proof.
  intros P0 P1 P2 P3. fix IH 1. intros [|a [|b [|c l]]]; [done|done|done|]. apply P3, IH.
Qed.
Lemma list_ind4 {A} (P : list A → Prop) :
  P [] → (∀ a, P [a]) → (∀ a b, P [a; b]) → (∀ a b c, P [a; b; c]) →
  (∀ a b c d l, P l → P (a :: b :: c :: d :: l)) → ∀ l, P l.
Proof.
  intros P0 P1 P2 P3 P4. fix IH 1.
  intros [|a [|b [|c [|d l]]]]; [done|done|done|done|]. apply P4, IH.
Qed.

(** Case analysis on a computation that returned. *)
Ltac outcome_inv :=
  repeat match goal with
  | H : _ ≫= _ = Ok _ |- _ =>
      let a := fresh "a" in let H1 := fresh "Hrun" in
      apply bind_Ok in H as (a & H1 & H)
  | H : Ok _ = Ok _ |- _ => apply (inj Ok) in H
  | H : Fault _ = Ok _ |- _ => discriminate H
  | H : deref _ = Ok _ |- _ => apply deref_Ok in H
  | H : cassert _ = Ok _ |- _ => apply cassert_Ok in H
  end.

#[global] Instance Ok_inj A : Inj (=) (=) (@Ok A).
Proof. by intros ?? [= ->]. Qed.

(** ** Machine integers *)

Definition two8 : Z := 256.
Definition two32 : Z := 4294967296.
Definition two64 : Z := 18446744073709551616.
Definition INT_MAX : Z := 2147483647.
Definition INT_MIN : Z := -2147483648.

(** Conversion to [uint8_t], [uint32_t], [uint64_t]/[size_t]. *)
Definition u8 (z : Z) : Z := z mod two8.
Definition u32 (z : Z) : Z := z mod two32.
Definition u64 (z : Z) : Z := z mod two64.
(** Conversion to [int32_t]/[int] (two's complement, as C++20 defines it). *)
Definition i32 (z : Z) : Z := (z + 2147483648) mod two32 - 2147483648.

Definition in_int (z : Z) : Prop := INT_MIN ≤ z ≤ INT_MAX.

(** [a + b] in [int]; a signed overflow is undefined. *)
Definition iadd (a b : Z) : outcome Z :=
  let s := a + b in if (s <? INT_MIN) || (INT_MAX <? s) then ub else Ok s.

Lemma iadd_Ok a b : in_int (a + b) → iadd a b = Ok (a + b).
Proof.
  unfold in_int, iadd. intros H.
  by rewrite (proj2 (Z.ltb_ge _ _)), (proj2 (Z.ltb_ge _ _)) by lia.
Qed.

Lemma u32_small z : 0 ≤ z < two32 → u32 z = z.
Proof. apply Z.mod_small. Qed.
Lemma u8_small z : 0 ≤ z < two8 → u8 z = z.
Proof. apply Z.mod_small. Qed.
Lemma u8_range z : 0 ≤ u8 z < two8.
Proof. apply Z.mod_pos_bound. done. Qed.
Lemma u64_small z : 0 ≤ z < two64 → u64 z = z.
Proof. apply Z.mod_small. Qed.
Lemma u64_range z : 0 ≤ u64 z < two64.
Proof. apply Z.mod_pos_bound. done. Qed.
Lemma i32_small z : in_int z → i32 z = z.
Proof.
  unfold in_int, INT_MIN, INT_MAX, i32, two32. intros H.
  rewrite Z.mod_small by lia. lia.
Qed.
Lemma i32_range z : in_int (i32 z).
Proof.
  unfold in_int, INT_MIN, INT_MAX, i32, two32.
  pose proof (Z.mod_pos_bound (z + 2147483648) 4294967296). lia.
Qed.

(** ** Maps read with [operator[]] *)

(** [m[k]] of a [std::map] or [std::unordered_map] whose missing entries read as
    the value-initialised [d]. The entry [operator[]] adds is that same value, so
    a map that the code only reads through [operator[]] does not change by being
    read. *)
Definition get_or {A} (d : A) (m : gmap Z A) (k : Z) : A := default d (m !! k).

Lemma get_or_insert {A} (d : A) m k x k' :
  get_or d (<[k := x]> m) k' = if decide (k = k') then x else get_or d m k'.
Proof. unfold get_or. rewrite lookup_insert. by case_decide. Qed.
Lemma get_or_insert_eq {A} (d : A) m k x : get_or d (<[k := x]> m) k = x.
Proof. rewrite get_or_insert. by rewrite decide_True. Qed.

Create HintDb cpp.
Create Rewrite HintDb cpp.
#[export] Hint Resolve u64_range i32_range : cpp.
#[export] Hint Rewrite @bind_Ok_l : cpp.
#[export] Hint Resolve u8_range : cpp.

(** Boolean comparisons of the code, as propositions. *)
Ltac zbool :=
  repeat match goal with
  | H : (_ || _)%bool = true |- _ => apply orb_true_iff in H
  | H : (_ || _)%bool = false |- _ => apply orb_false_iff in H as [? ?]
  | H : (_ && _)%bool = true |- _ => apply andb_true_iff in H as [? ?]
  | H : (_ && _)%bool = false |- _ => apply andb_false_iff in H
  | H : negb _ = true |- _ => apply negb_true_iff in H
  | H : negb _ = false |- _ => apply negb_false_iff in H
  | H : (_ <? _) = true |- _ => apply Z.ltb_lt in H
  | H : (_ <? _) = false |- _ => apply Z.ltb_ge in H
  | H : (_ <=? _) = true |- _ => apply Z.leb_le in H
  | H : (_ <=? _) = false |- _ => apply Z.leb_gt in H
  | H : (_ =? _) = true |- _ => apply Z.eqb_eq in H
  | H : (_ =? _) = false |- _ => apply Z.eqb_neq in H
  | H : bool_decide _ = true |- _ => apply bool_decide_eq_true in H
  | H : bool_decide _ = false |- _ => apply bool_decide_eq_false in H
  end.

(** Decide the [if] of the goal by [lia], for a test that is an integer
    comparison. *)
Ltac if_true := first
  [ rewrite (proj2 (Z.ltb_lt _ _)) by lia
  | rewrite (proj2 (Z.leb_le _ _)) by lia
  | rewrite (proj2 (Z.eqb_eq _ _)) by lia ].
Ltac if_false := first
  [ rewrite (proj2 (Z.ltb_ge _ _)) by lia
  | rewrite (proj2 (Z.leb_gt _ _)) by lia
  | rewrite (proj2 (Z.eqb_neq _ _)) by lia ].
