(* ===== verification/EventQueue.v ===== *)
(** * The UI event queue ([src/src/global.cc], [src/src/event_types.h]) *)
From S2P Require Import Prelude.

(** ** Events ([event_types.h]) *)
Definition ET_QUIT : Z := 0.
Definition ET_RESIZE : Z := 1.
Definition ET_CHATLIST : Z := 2.
Definition ET_CYCLE_PANEL : Z := 3.
Definition ET_MESSAGES : Z := 4.

(** The subclasses of [event_base]. *)
Inductive event :=
  | event_quit
  | event_cycle_panel
  | event_resize (side_w comp_h : Z)
  | event_chatlist
  | event_messages (chat_id_ : Z).

#[global] Instance event_eq_dec : EqDecision event.
Proof. solve_decision. Defined.

(** The [type] member every constructor passes to [event_base]. *)
Definition event_type (e : event) : Z :=
  match e with
  | event_quit => ET_QUIT
  | event_cycle_panel => ET_CYCLE_PANEL
  | event_resize _ _ => ET_RESIZE
  | event_chatlist => ET_CHATLIST
  | event_messages _ => ET_MESSAGES
  end.

(** ** [event_queue_struct] *)
Record event_queue_struct := {
  queue : list Z;
  event_map : gmap Z event;
}.

Definition empty_queue : event_queue_struct := {| queue := []; event_map := ∅ |}.

Definition push (e : event) (q : event_queue_struct) : event_queue_struct :=
  {| queue := match event_map q !! event_type e with
              | None => queue q ++ [event_type e]
              | Some _ => queue q
              end;
     event_map := <[event_type e := e]> (event_map q) |}.

(** [res] is null when the queue is empty; dereferencing [event_map.end()]
    is undefined. *)
Definition pop_and_get (q : event_queue_struct)
    : outcome (option event * event_queue_struct) :=
  match queue q with
  | [] => Ok (None, q)
  | t :: rest =>
      e ← deref (event_map q !! t);
      Ok (Some e, {| queue := rest; event_map := delete t (event_map q) |})
  end.

(** ** Well-formed queues *)
Record queue_wf (q : event_queue_struct) : Prop := {
  wf_nodup : NoDup (queue q);
  wf_dom : ∀ t, t ∈ queue q ↔ is_Some (event_map q !! t);
  wf_key : ∀ t e, event_map q !! t = Some e → event_type e = t;
}.

Lemma empty_queue_wf : queue_wf empty_queue.
Proof.
  split; simpl.
  - constructor.
  - intros t. rewrite lookup_empty. split; [set_solver|by intros [? ?]].
  - intros t e. by rewrite lookup_empty.
Qed.

Lemma push_wf e q : queue_wf q → queue_wf (push e q).
Proof.
  intros [Hnd Hdom Hkey]. unfold push. split; simpl.
  - destruct (event_map q !! event_type e) eqn:He; [done|].
    apply NoDup_app. split_and!; [done| |apply NoDup_singleton].
    intros t Ht ->%list_elem_of_singleton. apply Hdom in Ht as [? ?]. congruence.
  - intros t. rewrite lookup_insert.
    destruct (event_map q !! event_type e) eqn:He; case_decide; simplify_eq.
    + split; [eauto|]. intros _. apply Hdom; eauto.
    + apply Hdom.
    + split; [eauto|]. set_solver.
    + rewrite elem_of_app, Hdom. set_solver.
  - intros t e'. rewrite lookup_insert. case_decide; intros; simplify_eq; eauto.
Qed.

Lemma pop_wf q e q' : queue_wf q → pop_and_get q = Ok (e, q') → queue_wf q'.
Proof.
  intros [Hnd Hdom Hkey]. unfold pop_and_get.
  destruct (queue q) as [|t rest] eqn:Hq; intros Hpop; outcome_inv; simplify_eq.
  { by split; rewrite ?Hq. }
  apply NoDup_cons in Hnd as [Ht Hnd]. split; simpl; [done| |].
  - intros t'. rewrite lookup_delete. case_decide as Heq.
    + subst. split; [done|by intros [? ?]].
    + rewrite <-Hdom. set_solver.
  - intros t' e'. rewrite lookup_delete. case_decide; [done|]. eauto.
Qed.

#[export] Hint Resolve empty_queue_wf push_wf : cpp.

(** ** The queue as a list of pending events *)

(** What the queue promises: a list of events of distinct types, where a push
    replaces the pending event of the same type in place, and a pop takes the
    oldest. *)
Definition same_type (e e' : event) : bool := event_type e =? event_type e'.

Definition spec_push (e : event) (l : list event) : list event :=
  if existsb (same_type e) l
  then (λ e', if same_type e e' then e else e') <$> l
  else l ++ [e].

Definition spec_pop (l : list event) : option event * list event := (head l, tail l).

(** The pending events of a queue. *)
Definition pending (q : event_queue_struct) : list event :=
  omap (λ t, event_map q !! t) (queue q).

(** One use of the queue by a thread, and what a sequence of uses returns. *)
Inductive queue_op := OpPush (e : event) | OpPop.

Fixpoint run_ops (ops : list queue_op) (q : event_queue_struct)
    : outcome (list (option event) * event_queue_struct) :=
  match ops with
  | [] => Ok ([], q)
  | OpPush e :: ops => run_ops ops (push e q)
  | OpPop :: ops =>
      '(r, q) ← pop_and_get q;
      '(rs, q) ← run_ops ops q;
      Ok (r :: rs, q)
  end.

Fixpoint spec_run (ops : list queue_op) (l : list event)
    : list (option event) * list event :=
  match ops with
  | [] => ([], l)
  | OpPush e :: ops => spec_run ops (spec_push e l)
  | OpPop :: ops =>
      let '(r, l) := spec_pop l in
      let '(rs, l) := spec_run ops l in
      (r :: rs, l)
  end.

Lemma pending_mono (m m' : gmap Z event) (ts : list Z) :
  (∀ t, t ∈ ts → m !! t = m' !! t) → omap (λ t, m !! t) ts = omap (λ t, m' !! t) ts.
Proof.
  induction ts as [|t ts IH]; intros H; [done|]. csimpl.
  rewrite H, IH by set_solver. done.
Qed.

Lemma pending_cons q t ts :
  queue_wf q → queue q = t :: ts →
  ∃ e, event_map q !! t = Some e ∧ event_type e = t ∧
    pending q = e :: omap (λ t, event_map q !! t) ts.
Proof.
  intros [Hnd Hdom Hkey] Hq.
  destruct (proj1 (Hdom t)) as [e He]; [rewrite Hq; set_solver|].
  exists e. unfold pending. rewrite Hq. csimpl. rewrite He. eauto.
Qed.

Lemma pending_types q : queue_wf q → event_type <$> pending q = queue q.
Proof.
  intros [_ Hdom Hkey]. unfold pending.
  assert (H : ∀ t, t ∈ queue q → is_Some (event_map q !! t)) by (intros t; apply Hdom).
  clear Hdom. induction (queue q) as [|t ts IH]; [done|]. csimpl.
  destruct (H t) as [e He]; [set_solver|]. rewrite He. csimpl.
  rewrite (Hkey _ _ He), IH; [done|]. intros; apply H; set_solver.
Qed.

Lemma existsb_pending e q :
  queue_wf q → existsb (same_type e) (pending q) = bool_decide (event_type e ∈ queue q).
Proof.
  intros Hwf. rewrite <-(pending_types q Hwf). apply eq_true_iff_eq.
  rewrite existsb_exists, bool_decide_eq_true, list_elem_of_fmap.
  unfold same_type. split.
  - intros (x & Hx & Heq). zbool. exists x. by rewrite list_elem_of_In.
  - intros (x & -> & Hx). exists x. rewrite <-list_elem_of_In, Z.eqb_refl. done.
Qed.

(** [push] implements [spec_push]. *)
Lemma pending_push e q : queue_wf q → pending (push e q) = spec_push e (pending q).
Proof.
  intros Hwf. unfold spec_push. rewrite existsb_pending by done.
  destruct Hwf as [Hnd Hdom Hkey]. unfold push, pending. simpl.
  destruct (event_map q !! event_type e) as [e0|] eqn:He.
  - rewrite bool_decide_eq_true_2 by (apply Hdom; eauto).
    assert (H : ∀ t, t ∈ queue q → is_Some (event_map q !! t)) by (intros t; apply Hdom).
    clear Hdom. induction (queue q) as [|t ts IH]; [done|]. csimpl.
    destruct (H t) as [e1 He1]; [set_solver|]. rewrite He1. csimpl.
    rewrite <-IH; [|by apply NoDup_cons in Hnd as [_ ?]|intros; apply H; set_solver].
    unfold same_type. rewrite (Hkey _ _ He1), lookup_insert.
    destruct (decide (event_type e = t)) as [->|Hne].
    + by rewrite Z.eqb_refl.
    + rewrite (proj2 (Z.eqb_neq _ _)) by done. by rewrite He1.
  - assert (Hni : event_type e ∉ queue q) by (rewrite Hdom, He; by intros [? ?]).
    rewrite bool_decide_eq_false_2 by done.
    rewrite omap_app. csimpl. rewrite lookup_insert_eq. f_equal.
    apply pending_mono. intros t Ht. rewrite lookup_insert_ne; [done|]. congruence.
Qed.

(** [pop_and_get] implements [spec_pop]: in particular it never dereferences
    [event_map.end()]. *)
Lemma pop_pending q :
  queue_wf q →
  ∃ q', pop_and_get q = Ok (head (pending q), q') ∧ queue_wf q' ∧
    pending q' = tail (pending q).
Proof.
  intros Hwf. destruct (queue q) as [|t ts] eqn:Hq.
  { exists q. unfold pop_and_get, pending. by rewrite Hq. }
  destruct (pending_cons q t ts Hwf Hq) as (e & He & Ht & Hp).
  destruct (pop_and_get q) as [[r q']|f] eqn:Hpop;
    unfold pop_and_get in Hpop; rewrite Hq, He in Hpop; [|done].
  injection Hpop as <- <-. exists {| queue := ts; event_map := delete t (event_map q) |}.
  rewrite Hp. split; [done|]. split.
  { eapply (pop_wf q (Some e)); [done|]. unfold pop_and_get. by rewrite Hq, He. }
  simpl. unfold pending. simpl. apply pending_mono. intros t' Ht'.
  rewrite lookup_delete_ne; [done|]. intros <-.
  destruct Hwf as [Hnd _ _]. rewrite Hq in Hnd. by apply NoDup_cons in Hnd as [? _].
Qed.

Lemma run_ops_refines q ops :
  queue_wf q →
  ∃ q', run_ops ops q = Ok ((spec_run ops (pending q)).1, q') ∧ queue_wf q' ∧
    pending q' = (spec_run ops (pending q)).2.
Proof.
  revert q. induction ops as [|[e|] ops IH]; intros q Hwf; simpl; [eauto| |].
  - rewrite <-pending_push by done. apply IH, push_wf, Hwf.
  - destruct (pop_pending q Hwf) as (q1 & -> & Hwf1 & Hp1). rewrite bind_Ok_l.
    destruct (IH q1 Hwf1) as (q2 & -> & Hwf2 & Hp2). rewrite bind_Ok_l, <-Hp1.
    destruct (spec_run ops (pending q1)) as [rs l]. eauto.
Qed.

(** Every event type is one of five. *)
Lemma event_type_range e : 0 ≤ event_type e < 5.
Proof. destruct e; simpl; unfold ET_QUIT, ET_RESIZE, ET_CHATLIST, ET_CYCLE_PANEL, ET_MESSAGES; lia. Qed.

Lemma queue_bound q : queue_wf q → (length (queue q) ≤ 5)%nat.
Proof.
  intros Hwf. change 5%nat with (length (seqZ 0 5)).
  apply submseteq_length, NoDup_submseteq; [by apply Hwf|].
  intros t. rewrite <-(pending_types q Hwf), list_elem_of_fmap.
  intros (e & -> & _). apply elem_of_seqZ. pose proof (event_type_range e). lia.
Qed.

Lemma spec_pops l n :
  spec_run (replicate n OpPop) l =
  ((λ i, l !! i) <$> seq 0 n, drop n l).
Proof.
  revert l. induction n as [|n IH]; intros l; [done|].
  destruct l as [|e l]; simpl; rewrite IH; simpl; rewrite <-fmap_S_seq, <-list_fmap_compose;
    rewrite ?drop_nil; done.
Qed.

Lemma spec_push_elem e l : e ∈ spec_push e l.
Proof.
  unfold spec_push. destruct (existsb (same_type e) l) eqn:He; [|set_solver].
  apply existsb_exists in He as (x & Hx & Ht). apply list_elem_of_fmap.
  exists x. rewrite list_elem_of_In. by rewrite Ht.
Qed.

(** C10. Whatever sequence of pushes and pops the two threads make on the initial
    queue, no pop dereferences [event_map.end()], the results are those of the
    abstract list of pending events, and at most one event of each of the five
    types is pending. *)
Theorem queue_refines_pending_list ops :
  ∃ q, run_ops ops empty_queue = Ok ((spec_run ops []).1, q) ∧
    pending q = (spec_run ops []).2 ∧ (length (queue q) ≤ 5)%nat.
Proof.
  destruct (run_ops_refines empty_queue ops empty_queue_wf) as (q & Hrun & Hwf & Hp).
  exists q. split_and!; [exact Hrun|exact Hp|by apply queue_bound].
Qed.

(** After a push, the pushed event is delivered by one of the next five pops,
    whatever else was pending. *)
Theorem queue_delivers_pushed e q :
  queue_wf q →
  ∃ rs q', run_ops (replicate 5 OpPop) (push e q) = Ok (rs, q') ∧ Some e ∈ rs ∧
    queue q' = [].
Proof.
  intros Hwf. pose proof (push_wf e q Hwf) as Hwf'.
  destruct (run_ops_refines (push e q) (replicate 5 OpPop) Hwf') as (q' & Hrun & Hq' & Hp).
  rewrite spec_pops in *. simpl fst in *. simpl snd in *. eexists _, q'. split; [done|].
  pose proof (queue_bound _ Hwf') as Hb. rewrite <-(pending_types _ Hwf'), length_fmap in Hb.
  split.
  - pose proof (spec_push_elem e (pending q)) as He. rewrite <-pending_push in He by done.
    apply list_elem_of_lookup in He as [i Hi]. rewrite <-Hi.
    apply lookup_lt_Some in Hi. destruct i as [|[|[|[|[|]]]]]; (lia || set_solver).
  - rewrite <-(pending_types q' Hq'), Hp, drop_ge by lia. done.
Qed.

Lemma queue_delivers_pushed_witness :
  queue_wf empty_queue ∧
  ∃ rs q', run_ops (replicate 5 OpPop) (push event_quit empty_queue) = Ok (rs, q') ∧
    Some event_quit ∈ rs ∧ queue q' = [].
Proof. split; [exact empty_queue_wf|]. apply queue_delivers_pushed, empty_queue_wf. Defined.
