(* ===== verification/StdSet.v ===== *)
(** * [std::set] with a comparator, as a sorted list

    The containers of the chat list and of the messages are [std::set]s with a
    comparator of their own ([std::greater] of pairs, [cmp_msg_reverse_chrono]).
    A set is the list of its elements in iteration order; two elements neither
    of which precedes the other are the same key. *)
From S2P Require Import Prelude.

Class StrictWeakOrder {A} (lt : A → A → bool) : Prop := {
  swo_irrefl x : lt x x = false;
  swo_trans x y z : lt x y = true → lt y z = true → lt x z = true;
  swo_negtrans x y z : lt x y = false → lt y z = false → lt x z = false;
}.

(** Comparators for which equivalent elements are equal. *)
Class StrictTotalOrder {A} (lt : A → A → bool) : Prop := {
  sto_swo :: StrictWeakOrder lt;
  sto_eq x y : lt x y = false → lt y x = false → x = y;
}.

Section std_set.
Context {A : Type} (lt : A → A → bool).

(** [s.insert(x)] and [s.emplace(x)]: nothing when an equivalent element is there. *)
Fixpoint set_insert (x : A) (s : list A) : list A :=
  match s with
  | [] => [x]
  | y :: s' => if lt x y then x :: s
               else if lt y x then y :: set_insert x s'
               else s
  end.

(** [s.erase(x)]: removes the element equivalent to [x]. *)
Fixpoint set_erase (x : A) (s : list A) : list A :=
  match s with
  | [] => []
  | y :: s' => if lt y x then y :: set_erase x s'
               else if lt x y then s
               else s'
  end.

(** [std::advance(s.begin(), n)]: the elements from the iterator on; beyond
    [end()] it is undefined. *)
Definition advance (s : list A) (n : Z) : outcome (list A) :=
  if Z.of_nat (length s) <? n then ub else Ok (drop (Z.to_nat n) s).

Definition equiv_elem (x y : A) : bool := negb (lt x y) && negb (lt y x).

Definition set_sorted : list A → Prop := StronglySorted (λ x y, lt x y = true).
End std_set.

Section std_set_facts.
Context {A : Type} (lt : A → A → bool) `{!StrictWeakOrder lt}.
Implicit Types s : list A.
#[local] Set Default Proof Using "All".

Lemma swo_asym x y : lt x y = true → lt y x = false.
Proof.
  intros H. destruct (lt y x) eqn:E; [|done].
  by rewrite <-(swo_irrefl (lt := lt) x), <-(swo_trans (lt := lt) x y x).
Qed.

(** An element that precedes one of two equivalent elements precedes the
    other. *)
Lemma swo_lt_equiv x y z : lt x y = true → lt z y = false → lt x z = true.
Proof.
  intros Hxy Hzy. destruct (lt x z) eqn:E; [done|].
  by rewrite (swo_negtrans (lt := lt) x z y) in Hxy.
Qed.
Lemma swo_equiv_lt x y z : lt x y = true → lt x z = false → lt z y = true.
Proof.
  intros Hxy Hxz. destruct (lt z y) eqn:E; [done|].
  by rewrite (swo_negtrans (lt := lt) x z y) in Hxy.
Qed.

Lemma elem_of_set_insert_inv x y s : y ∈ set_insert lt x s → y = x ∨ y ∈ s.
Proof.
  induction s as [|z s IH]; simpl; [set_solver|].
  destruct (lt x z); [set_solver|]. destruct (lt z x); set_solver.
Qed.

Lemma set_insert_sorted x s : set_sorted lt s → set_sorted lt (set_insert lt x s).
Proof.
  induction 1 as [|y s Hs IH Hy]; simpl; [repeat constructor|].
  destruct (lt x y) eqn:Exy.
  { apply SSorted_cons; [by apply SSorted_cons|]. apply Forall_cons. split; [done|].
    eapply Forall_impl; [exact Hy|]. intros z Hz. by eapply swo_trans. }
  destruct (lt y x) eqn:Eyx; [|by apply SSorted_cons].
  apply SSorted_cons; [done|]. apply Forall_forall. intros z Hz.
  apply elem_of_set_insert_inv in Hz as [->|Hz]; [done|].
  by apply (proj1 (Forall_forall _ _) Hy).
Qed.

Lemma elem_of_set_insert x y s :
  set_sorted lt s →
  y ∈ set_insert lt x s ↔ y ∈ s ∨ (y = x ∧ ∀ z, z ∈ s → equiv_elem lt x z = false).
Proof.
  unfold equiv_elem. induction 1 as [|z s Hs IH Hz]; simpl; [set_solver|].
  rewrite Forall_forall in Hz. destruct (lt x z) eqn:Exz.
  { rewrite elem_of_cons. split; [|set_solver]. intros [->|?]; [right|by left].
    split; [done|]. intros w. rewrite elem_of_cons. intros [->|Hw]; [by rewrite Exz|].
    by rewrite (swo_trans (lt := lt) x z w) by auto. }
  destruct (lt z x) eqn:Ezx.
  - rewrite !elem_of_cons, IH. split.
    + intros [->|[?|[-> Hall]]]; [by left; left|by left; right|right].
      split; [done|]. intros w. rewrite elem_of_cons. intros [->|Hw]; [|auto].
      by rewrite Ezx, andb_false_r.
    + intros [[->|?]|[-> Hall]]; [by left|by right; left|].
      right; right. split; [done|]. intros w Hw. apply Hall. by right.
  - split; [by left|]. intros [?|[-> Hall]]; [done|]. exfalso.
    specialize (Hall z ltac:(by left)). rewrite Exz, Ezx in Hall. done.
Qed.

Lemma elem_of_set_erase x y s :
  set_sorted lt s →
  y ∈ set_erase lt x s ↔ y ∈ s ∧ equiv_elem lt x y = false.
Proof.
  unfold equiv_elem. induction 1 as [|z s Hs IH Hz]; simpl; [set_solver|].
  rewrite Forall_forall in Hz. destruct (lt z x) eqn:Ezx.
  - rewrite !elem_of_cons, IH. split; [|naive_solver].
    intros [->|?]; [|naive_solver]. split; [by left|]. by rewrite Ezx, andb_false_r.
  - destruct (lt x z) eqn:Exz.
    + rewrite elem_of_cons. split; [|tauto]. intros Hy. split; [done|].
      destruct Hy as [->|Hy]; [by rewrite Exz|].
      by rewrite (swo_trans (lt := lt) x z y) by auto.
    + rewrite elem_of_cons. split.
      * intros Hy. split; [by right|]. specialize (Hz _ Hy).
        by rewrite (swo_equiv_lt z y x Hz Ezx).
      * intros [[->|?] He]; [|done]. by rewrite Exz, Ezx in He.
Qed.

Lemma set_erase_sublist x s : set_erase lt x s `sublist_of` s.
Proof.
  induction s as [|y s IH]; simpl; [done|].
  destruct (lt y x); [by constructor|]. destruct (lt x y); [done|by constructor].
Qed.

Lemma set_erase_sorted x s : set_sorted lt s → set_sorted lt (set_erase lt x s).
Proof.
  induction 1 as [|y s Hs IH Hy]; simpl; [constructor|].
  destruct (lt y x); [|destruct (lt x y); [by apply SSorted_cons|done]].
  apply SSorted_cons; [done|]. rewrite Forall_forall in *. intros z Hz.
  apply Hy. eapply elem_of_sublist; [exact Hz|apply set_erase_sublist].
Qed.

Lemma set_sorted_nodup s : set_sorted lt s → NoDup s.
Proof.
  induction 1 as [|y s Hs IH Hy]; constructor; [|done].
  rewrite Forall_forall in Hy. intros Hin%Hy. by rewrite swo_irrefl in Hin.
Qed.

(** Inserting what is there already changes nothing. *)
Lemma set_insert_present x s :
  set_sorted lt s → (∃ z, z ∈ s ∧ equiv_elem lt x z = true) → set_insert lt x s = s.
Proof.
  unfold equiv_elem. induction 1 as [|y s Hs IH Hy]; intros (z & Hin & Hz); simpl;
    [set_solver|].
  rewrite Forall_forall in Hy. apply andb_true_iff in Hz as [Hxz Hzx].
  rewrite negb_true_iff in *. apply elem_of_cons in Hin as [->|Hin].
  { by rewrite Hxz, Hzx. }
  specialize (Hy _ Hin) as Hyz.
  rewrite (swo_lt_equiv y z x Hyz Hxz), (swo_asym _ _ (swo_lt_equiv y z x Hyz Hxz)).
  f_equal. apply IH. exists z. by rewrite Hxz, Hzx.
Qed.

(** The elements determine the iteration order. *)
Lemma set_sorted_unique s1 s2 :
  set_sorted lt s1 → set_sorted lt s2 → (∀ x, x ∈ s1 ↔ x ∈ s2) → s1 = s2.
Proof.
  intros H1 H2 Heq.
  assert (Hp : s1 ≡ₚ s2) by (apply NoDup_Permutation; auto using set_sorted_nodup).
  clear Heq. revert s2 H2 Hp. induction H1 as [|x s1 Hs1 IH Hx]; intros s2 H2 Hp.
  { by apply Permutation_nil in Hp. }
  destruct s2 as [|y s2]; [by apply Permutation_nil_r in Hp|].
  inversion_clear H2 as [|?? Hs2 Hy]. rewrite Forall_forall in *.
  assert (x = y) as ->.
  { assert (Hxy : x ∈ y :: s2) by (rewrite <-Hp; set_solver).
    assert (Hyx : y ∈ x :: s1) by (rewrite Hp; set_solver).
    apply elem_of_cons in Hxy as [->|Hxy]; [done|].
    apply elem_of_cons in Hyx as [->|Hyx]; [done|].
    specialize (Hy _ Hxy). specialize (Hx _ Hyx).
    by rewrite (swo_asym _ _ Hy) in Hx. }
  f_equal. apply IH; [done|]. by apply Permutation_cons_inv in Hp.
Qed.

Lemma advance_Ok s n :
  0 ≤ n ≤ Z.of_nat (length s) → advance s n = Ok (drop (Z.to_nat n) s).
Proof using. intros H. unfold advance. by rewrite (proj2 (Z.ltb_ge _ _)) by lia. Qed.
Lemma advance_beyond s n : Z.of_nat (length s) < n → advance s n = ub.
Proof using. intros H. unfold advance. by rewrite (proj2 (Z.ltb_lt _ _)) by done. Qed.
End std_set_facts.

(** ** [std::greater] on pairs of integers *)
Definition pair_greater (p q : Z * Z) : bool :=
  (q.1 <? p.1) || ((q.1 =? p.1) && (q.2 <? p.2)).

#[global] Instance pair_greater_total : StrictTotalOrder pair_greater.
Proof.
  unfold pair_greater. repeat split.
  - intros [a b]. simpl. by rewrite !Z.ltb_irrefl, andb_false_r.
  - intros [a b] [c d] [e f]. simpl. lia.
  - intros [a b] [c d] [e f]. simpl. lia.
  - intros [a b] [c d]. simpl. intros. f_equal; lia.
Qed.

Lemma pair_greater_equiv p q : equiv_elem pair_greater p q = bool_decide (p = q).
Proof.
  unfold equiv_elem. apply eq_true_iff_eq.
  rewrite andb_true_iff, !negb_true_iff, bool_decide_eq_true. split.
  - intros [? ?]. by apply (sto_eq (lt := pair_greater)).
  - intros ->. by rewrite swo_irrefl.
Qed.

(** Membership after an insertion or a removal, for a total order. *)
Section total.
Implicit Types s : list (Z * Z).

Lemma elem_of_insert_pair x y s :
  set_sorted pair_greater s →
  y ∈ set_insert pair_greater x s ↔ y = x ∨ y ∈ s.
Proof.
  intros Hs. rewrite elem_of_set_insert by (done || apply _). split; [naive_solver|].
  intros [->|?]; [|by left]. destruct (decide (x ∈ s)) as [?|Hx]; [by left|].
  right. split; [done|]. intros z Hz. rewrite pair_greater_equiv.
  apply bool_decide_eq_false. congruence.
Qed.

Lemma elem_of_erase_pair x y s :
  set_sorted pair_greater s →
  y ∈ set_erase pair_greater x s ↔ y ∈ s ∧ y ≠ x.
Proof.
  intros Hs. rewrite elem_of_set_erase by (done || apply _).
  rewrite pair_greater_equiv, bool_decide_eq_false. naive_solver.
Qed.
End total.

#[export] Hint Resolve set_insert_sorted set_erase_sorted : cpp.
