(* ===== verification/TdApi.v ===== *)
(** * The TDLib objects the client exchanges ([lib/td/td/generate/scheme/td_api.tl])

    The classes are generated from the scheme when the library is built; the
    types below follow the scheme's lines, with the fields [src/src] reads. The
    fields it never reads are kept as one opaque [string]. An [object_ptr] is an
    [option] where the scheme says "may be null". *)
From S2P Require Import Prelude.

(** ** Chat lists *)
Inductive ChatList :=
  | chatListMain
  | chatListArchive
  | chatListFolder (chat_folder_id : Z).

(** The [ID] constants of the generated classes; distinct for distinct
    classes. *)
Class ChatListIds := {
  chatListMain_ID : Z;
  chatListArchive_ID : Z;
  chatListFolder_ID : Z;
  ids_distinct : NoDup [chatListMain_ID; chatListArchive_ID; chatListFolder_ID];
}.

(** [list->get_id()]: the constructor's number, whatever its fields. *)
Definition list_get_id `{ChatListIds} (l : ChatList) : Z :=
  match l with
  | chatListMain => chatListMain_ID
  | chatListArchive => chatListArchive_ID
  | chatListFolder _ => chatListFolder_ID
  end.

(** The numbers the scheme gives. *)
#[refine] Definition scheme_ids : ChatListIds := {|
  chatListMain_ID := -400991316;
  chatListArchive_ID := 362770115;
  chatListFolder_ID := 385760856;
|}.
Proof. apply (bool_decide_unpack _). vm_compute. exact I. Defined.

(** ** Messages and chats *)
Inductive MessageContent :=
  | messageText (text_ : string)
  | messageOther (unread : string).

Record message := {
  m_id : Z;
  m_chat_id : Z;
  m_date : Z;
  content_ : MessageContent;
}.

#[global] Instance MessageContent_eq_dec : EqDecision MessageContent.
Proof. solve_decision. Defined.
#[global] Instance message_eq_dec : EqDecision message.
Proof. solve_decision. Defined.

Record chatPosition := { list_ : ChatList; order_ : Z }.

Record chat := {
  c_id : Z;
  title_ : string;
  last_message_ : option message;
  positions_ : list chatPosition;
  chat_lists_ : list ChatList;
}.

Record user := { u_id : Z; u_unread : string }.
Record basicGroup := { bg_id : Z; bg_unread : string }.
Record supergroup := { sg_id : Z; sg_unread : string }.

(** [messages], the answer to [getChatHistory]. *)
Record messages_object := {
  total_count_ : Z;
  messages_ : list (option message);
}.

(** ** Authorization *)
Inductive AuthorizationState :=
  | authorizationStateWaitTdlibParameters
  | authorizationStateWaitPhoneNumber
  | authorizationStateWaitCode
  | authorizationStateReady
  | authorizationStateWaitEmailAddress
  | authorizationStateWaitEmailCode
  | authorizationStateWaitRegistration
  | authorizationStateWaitOtherDeviceConfirmation (link_ : string)
  | authorizationStateWaitPassword
  | authorizationStateWaitPremiumPurchase
  | authorizationStateLoggingOut
  | authorizationStateClosing
  | authorizationStateClosed.

#[global] Instance AuthorizationState_eq_dec : EqDecision AuthorizationState.
Proof. solve_decision. Defined.

(** ** Incoming objects *)
Inductive Object :=
  | updateOption
  | updateAuthorizationState (authorization_state_ : AuthorizationState)
  | updateUser (user_ : user)
  | updateUserFullInfo (user_id_ : Z) (user_full_info_ : string)
  | updateNewChat (chat_ : chat)
  | updateBasicGroup (basic_group_ : basicGroup)
  | updateBasicGroupFullInfo (basic_group_id_ : Z) (basic_group_full_info_ : string)
  | updateSupergroup (supergroup_ : supergroup)
  | updateSupergroupFullInfo (supergroup_id_ : Z) (supergroup_full_info_ : string)
  | updateChatAddedToList (chat_id_ : Z) (chat_list_ : ChatList)
  | updateChatPosition (chat_id_ : Z) (position_ : chatPosition)
  | updateChatLastMessage (chat_id_ : Z) (last_message : option message)
      (positions : list chatPosition)
  | error (code_ : Z)
  | messages (m : messages_object)
  | otherObject (unread : string).

(** [td::ClientManager::Response]; the object is null when [receive] timed
    out. *)
Record Response := { request_id : Z; object : option Object }.

(** ** Outgoing requests *)
Inductive Function :=
  | setLogVerbosityLevel (new_verbosity_level_ : Z)
  | getOption (name_ : string)
  | loadChats (chat_list_ : ChatList) (limit_ : Z)
  | getChatHistory (chat_id_ from_message_id_ offset_ limit_ : Z) (only_local_ : bool)
  | setTdlibParameters (use_test_dc_ : bool) (database_directory_ : string)
      (use_message_database_ use_secret_chats_ : bool) (api_id_ : Z) (api_hash_ : string)
      (system_language_code_ device_model_ application_version_ : string)
  | setAuthenticationPhoneNumber (phone_number_ : string)
  | requestQrCodeAuthentication
  | checkAuthenticationCode (auth_code_ : string)
  | logOut
  | setAuthenticationEmailAddress (email_address_ : string)
  | checkAuthenticationEmailCode (email_code_ : string)
  | registerUser (first_name_ last_name_ : string) (disable_notification_ : bool).
