(* ===== verification/AppState.v ===== *)
(** * The application state ([src/src/global.h], [src/src/global.cc])

    [tl_app_state_struct], and with the event queue the state the two threads
    share. *)
From S2P Require Import Prelude EventQueue StdSet TdApi.

Definition _id_current_pane : Z := 1.
Definition _id_chatboxes : Z := 2.
Definition _id_terminating : Z := 3.
Definition _id_messages : Z := 4.

(** [cmp_msg_reverse_chrono] *)
Definition cmp_msg_reverse_chrono (m1 m2 : message) : bool := m_date m2 <? m_date m1.

#[global] Instance cmp_msg_swo : StrictWeakOrder cmp_msg_reverse_chrono.
Proof.
  unfold cmp_msg_reverse_chrono. split.
  - intros x. apply Z.ltb_irrefl.
  - intros x y z. rewrite !Z.ltb_lt. lia.
  - intros x y z. rewrite !Z.ltb_ge. lia.
Qed.

(** A missing entry of [id_to_chat] reads as the null pointer; the messages and
    the positions of a missing chat or list are empty. *)
Record tl_app_state_struct := {
  _current_pane : Z;
  _terminating : bool;
  id_to_user : gmap Z user;
  id_to_user_full_info : gmap Z string;
  id_to_chat : gmap Z chat;
  id_to_basicgroup : gmap Z basicGroup;
  id_to_basicgroup_full_info : gmap Z string;
  id_to_supergroup : gmap Z supergroup;
  id_to_supergroup_full_info : gmap Z string;
  position_sets : gmap Z (list (Z * Z));
  id_to_position : gmap Z (gmap Z Z);
  chosen_chat_id : Z;
  scroll_offset : gmap Z Z;
  current_chatlist : Z;
  chat_messages : gmap Z (list message);
}.

(** The constructor. [_current_pane] and [_terminating] have no initialiser: the
    new object holds whatever was in its memory. *)
Definition mk_app_state `{ChatListIds} (pane0 : Z) (terminating0 : bool)
    : tl_app_state_struct := {|
  _current_pane := pane0;
  _terminating := terminating0;
  id_to_user := ∅; id_to_user_full_info := ∅; id_to_chat := ∅;
  id_to_basicgroup := ∅; id_to_basicgroup_full_info := ∅;
  id_to_supergroup := ∅; id_to_supergroup_full_info := ∅;
  position_sets := ∅; id_to_position := ∅;
  chosen_chat_id := -1;
  scroll_offset := ∅;
  current_chatlist := chatListMain_ID;
  chat_messages := ∅;
|}.

(** ** Assignments to members *)
Section assignments.
  Implicit Types s : tl_app_state_struct.

Definition assign_current_pane v s :=
    Build_tl_app_state_struct v (_terminating s) (id_to_user s)
      (id_to_user_full_info s) (id_to_chat s) (id_to_basicgroup s)
      (id_to_basicgroup_full_info s) (id_to_supergroup s)
      (id_to_supergroup_full_info s) (position_sets s) (id_to_position s)
      (chosen_chat_id s) (scroll_offset s) (current_chatlist s) (chat_messages s).
Definition assign_terminating v s :=
    Build_tl_app_state_struct (_current_pane s) v (id_to_user s)
      (id_to_user_full_info s) (id_to_chat s) (id_to_basicgroup s)
      (id_to_basicgroup_full_info s) (id_to_supergroup s)
      (id_to_supergroup_full_info s) (position_sets s) (id_to_position s)
      (chosen_chat_id s) (scroll_offset s) (current_chatlist s) (chat_messages s).
Definition assign_id_to_user v s :=
    Build_tl_app_state_struct (_current_pane s) (_terminating s) v
      (id_to_user_full_info s) (id_to_chat s) (id_to_basicgroup s)
      (id_to_basicgroup_full_info s) (id_to_supergroup s)
      (id_to_supergroup_full_info s) (position_sets s) (id_to_position s)
      (chosen_chat_id s) (scroll_offset s) (current_chatlist s) (chat_messages s).
Definition assign_id_to_user_full_info v s :=
    Build_tl_app_state_struct (_current_pane s) (_terminating s) (id_to_user s) v
      (id_to_chat s) (id_to_basicgroup s) (id_to_basicgroup_full_info s)
      (id_to_supergroup s) (id_to_supergroup_full_info s) (position_sets s)
      (id_to_position s) (chosen_chat_id s) (scroll_offset s) (current_chatlist s)
      (chat_messages s).
Definition assign_id_to_chat v s :=
    Build_tl_app_state_struct (_current_pane s) (_terminating s) (id_to_user s)
      (id_to_user_full_info s) v (id_to_basicgroup s) (id_to_basicgroup_full_info s)
      (id_to_supergroup s) (id_to_supergroup_full_info s) (position_sets s)
      (id_to_position s) (chosen_chat_id s) (scroll_offset s) (current_chatlist s)
      (chat_messages s).
Definition assign_id_to_basicgroup v s :=
    Build_tl_app_state_struct (_current_pane s) (_terminating s) (id_to_user s)
      (id_to_user_full_info s) (id_to_chat s) v (id_to_basicgroup_full_info s)
      (id_to_supergroup s) (id_to_supergroup_full_info s) (position_sets s)
      (id_to_position s) (chosen_chat_id s) (scroll_offset s) (current_chatlist s)
      (chat_messages s).
Definition assign_id_to_basicgroup_full_info v s :=
    Build_tl_app_state_struct (_current_pane s) (_terminating s) (id_to_user s)
      (id_to_user_full_info s) (id_to_chat s) (id_to_basicgroup s) v
      (id_to_supergroup s) (id_to_supergroup_full_info s) (position_sets s)
      (id_to_position s) (chosen_chat_id s) (scroll_offset s) (current_chatlist s)
      (chat_messages s).
Definition assign_id_to_supergroup v s :=
    Build_tl_app_state_struct (_current_pane s) (_terminating s) (id_to_user s)
      (id_to_user_full_info s) (id_to_chat s) (id_to_basicgroup s)
      (id_to_basicgroup_full_info s) v (id_to_supergroup_full_info s) (position_sets
      s) (id_to_position s) (chosen_chat_id s) (scroll_offset s) (current_chatlist
      s) (chat_messages s).
Definition assign_id_to_supergroup_full_info v s :=
    Build_tl_app_state_struct (_current_pane s) (_terminating s) (id_to_user s)
      (id_to_user_full_info s) (id_to_chat s) (id_to_basicgroup s)
      (id_to_basicgroup_full_info s) (id_to_supergroup s) v (position_sets s)
      (id_to_position s) (chosen_chat_id s) (scroll_offset s) (current_chatlist s)
      (chat_messages s).
Definition assign_position_sets v s :=
    Build_tl_app_state_struct (_current_pane s) (_terminating s) (id_to_user s)
      (id_to_user_full_info s) (id_to_chat s) (id_to_basicgroup s)
      (id_to_basicgroup_full_info s) (id_to_supergroup s)
      (id_to_supergroup_full_info s) v (id_to_position s) (chosen_chat_id s)
      (scroll_offset s) (current_chatlist s) (chat_messages s).
Definition assign_id_to_position v s :=
    Build_tl_app_state_struct (_current_pane s) (_terminating s) (id_to_user s)
      (id_to_user_full_info s) (id_to_chat s) (id_to_basicgroup s)
      (id_to_basicgroup_full_info s) (id_to_supergroup s)
      (id_to_supergroup_full_info s) (position_sets s) v (chosen_chat_id s)
      (scroll_offset s) (current_chatlist s) (chat_messages s).
Definition assign_chosen_chat_id v s :=
    Build_tl_app_state_struct (_current_pane s) (_terminating s) (id_to_user s)
      (id_to_user_full_info s) (id_to_chat s) (id_to_basicgroup s)
      (id_to_basicgroup_full_info s) (id_to_supergroup s)
      (id_to_supergroup_full_info s) (position_sets s) (id_to_position s) v
      (scroll_offset s) (current_chatlist s) (chat_messages s).
Definition assign_scroll_offset v s :=
    Build_tl_app_state_struct (_current_pane s) (_terminating s) (id_to_user s)
      (id_to_user_full_info s) (id_to_chat s) (id_to_basicgroup s)
      (id_to_basicgroup_full_info s) (id_to_supergroup s)
      (id_to_supergroup_full_info s) (position_sets s) (id_to_position s)
      (chosen_chat_id s) v (current_chatlist s) (chat_messages s).
Definition assign_chat_messages v s :=
    Build_tl_app_state_struct (_current_pane s) (_terminating s) (id_to_user s)
      (id_to_user_full_info s) (id_to_chat s) (id_to_basicgroup s)
      (id_to_basicgroup_full_info s) (id_to_supergroup s)
      (id_to_supergroup_full_info s) (position_sets s) (id_to_position s)
      (chosen_chat_id s) (scroll_offset s) (current_chatlist s) v.
End assignments.

(** ** Accessors of [global.cc] *)
Definition current_pane (s : tl_app_state_struct) : Z := _current_pane s.
Definition set_current_pane (e : Z) (s : tl_app_state_struct) : tl_app_state_struct :=
  assign_current_pane e s.
Definition terminating (s : tl_app_state_struct) : bool := _terminating s.
Definition set_terminating (e : bool) (s : tl_app_state_struct) : tl_app_state_struct :=
  assign_terminating e s.

(** ** The state the two threads share *)
Record shared := {
  app_state : tl_app_state_struct;
  event_queue : event_queue_struct;
}.

Definition with_app (f : tl_app_state_struct → tl_app_state_struct) (sh : shared) : shared :=
  {| app_state := f (app_state sh); event_queue := event_queue sh |}.

(** [event_queue.push(std::make_shared<...>(...))] *)
Definition push_event (e : event) (sh : shared) : shared :=
  {| app_state := app_state sh; event_queue := push e (event_queue sh) |}.
