(* ===== verification/ChatList.v ===== *)
(** * The chat list ([src/src/tg.cc], position updates)

    The handlers of the updates that announce chats and move them in their
    lists, on the state the two threads share. Each runs with the mutex
    [_id_chatboxes] held (see Concurrency). *)
From S2P Require Import Prelude EventQueue StdSet TdApi AppState.

Section chat_list.
Context `{ChatListIds}.

(** ** Positions *)

(** The orders of the chats of a list, and the list as it is displayed. *)
Definition list_orders (s : tl_app_state_struct) (l : Z) : gmap Z Z :=
  get_or ∅ (id_to_position s) l.
Definition list_entries (s : tl_app_state_struct) (l : Z) : list (Z * Z) :=
  get_or [] (position_sets s) l.

Definition assign_positions (l : Z) (m : gmap Z Z) (e : list (Z * Z))
    (s : tl_app_state_struct) : tl_app_state_struct :=
  assign_id_to_position (<[l := m]> (id_to_position s))
    (assign_position_sets (<[l := e]> (position_sets s)) s).

Definition _update_position (chat_id : Z) (u : chatPosition) (s : tl_app_state_struct)
    : tl_app_state_struct :=
  let list_id := list_get_id (list_ u) in
  let pos_map := list_orders s list_id in
  let pos_set := list_entries s list_id in
  match pos_map !! chat_id with
  | Some old =>
      let pos_set := set_erase pair_greater (old, chat_id) pos_set in
      if negb (order_ u =? 0) then
        assign_positions list_id (<[chat_id := order_ u]> pos_map)
          (set_insert pair_greater (order_ u, chat_id) pos_set) s
      else assign_positions list_id (delete chat_id pos_map) pos_set s
  | None => assign_positions list_id pos_map pos_set s
  end.

(** [id_to_position[list][chat] = 0] and [position_sets[list].insert({0, chat})]. *)
Definition add_to_list (chat_id : Z) (l : ChatList) (s : tl_app_state_struct)
    : tl_app_state_struct :=
  let list_id := list_get_id l in
  assign_positions list_id (<[chat_id := 0]> (list_orders s list_id))
    (set_insert pair_greater (0, chat_id) (list_entries s list_id)) s.

(** ** The handlers *)
Definition process_update_new_chat (c : chat) (sh : shared) : shared :=
  let chat_id := c_id c in
  let sh := with_app (λ s, foldl (λ s l, add_to_list chat_id l s) s (chat_lists_ c)) sh in
  let sh := with_app (λ s, foldl (λ s p, _update_position chat_id p s) s (positions_ c)) sh in
  let sh := push_event event_chatlist sh in
  with_app (λ s, assign_id_to_chat (<[chat_id := c]> (id_to_chat s)) s) sh.

Definition process_update_chat_added_to_list (chat_id : Z) (l : ChatList) (sh : shared)
    : shared :=
  push_event event_chatlist (with_app (add_to_list chat_id l) sh).

Definition process_update_chat_position (chat_id : Z) (p : chatPosition) (sh : shared)
    : shared :=
  push_event event_chatlist (with_app (_update_position chat_id p) sh).

(** [id_to_chat[chat_id]->last_message_ = ...]: undefined for a chat that was
    never announced. *)
Definition assign_last_message (chat_id : Z) (m : option message) (s : tl_app_state_struct)
    : outcome tl_app_state_struct :=
  c ← deref (id_to_chat s !! chat_id);
  let c := {| c_id := c_id c; title_ := title_ c; last_message_ := m;
              positions_ := positions_ c; chat_lists_ := chat_lists_ c |} in
  Ok (assign_id_to_chat (<[chat_id := c]> (id_to_chat s)) s).

Definition process_update_chat_last_message (chat_id : Z) (m : option message)
    (ps : list chatPosition) (sh : shared) : outcome shared :=
  s ← assign_last_message chat_id m (app_state sh);
  let s := if bool_decide (ps = []) then s
           else foldl (λ s p, _update_position chat_id p s) s ps in
  Ok (push_event event_chatlist {| app_state := s; event_queue := event_queue sh |}).

(** ** Consistent positions *)

(** The displayed entries of list [l] are exactly the chats with an order, in
    strictly descending (order, id). *)
Definition list_consistent (s : tl_app_state_struct) (l : Z) : Prop :=
  set_sorted pair_greater (list_entries s l) ∧
  ∀ o id, (o, id) ∈ list_entries s l ↔ list_orders s l !! id = Some o.

Definition consistent (s : tl_app_state_struct) : Prop := ∀ l, list_consistent s l.

(** Every chat that has a position has been announced. *)
Definition positioned_known (s : tl_app_state_struct) : Prop :=
  ∀ l id, is_Some (list_orders s l !! id) → is_Some (id_to_chat s !! id).

Lemma list_orders_assign l m e s l' :
  list_orders (assign_positions l m e s) l' = if decide (l = l') then m else list_orders s l'.
Proof. apply get_or_insert. Qed.
Lemma list_entries_assign l m e s l' :
  list_entries (assign_positions l m e s) l' = if decide (l = l') then e else list_entries s l'.
Proof. apply get_or_insert. Qed.

(** It is enough to look at the list that changed. *)
Lemma consistent_assign l m e s :
  consistent s → set_sorted pair_greater e → (∀ o id, (o, id) ∈ e ↔ m !! id = Some o) →
  consistent (assign_positions l m e s).
Proof.
  intros Hc Hs He l'. unfold list_consistent.
  rewrite list_orders_assign, list_entries_assign. case_decide; [done|apply Hc].
Qed.

(** What a position update means for the order of one chat. *)
Definition new_order (old : option Z) (o : Z) : option Z :=
  if old then (if o =? 0 then None else Some o) else None.

Lemma update_position_orders chat_id u s l id :
  list_orders (_update_position chat_id u s) l !! id =
    if decide (list_get_id (list_ u) = l ∧ chat_id = id)
    then new_order (list_orders s l !! id) (order_ u)
    else list_orders s l !! id.
Proof.
  unfold _update_position, new_order.
  destruct (list_orders s _ !! chat_id) eqn:Hold; [destruct (order_ u =? 0)|];
    cbn [negb]; rewrite list_orders_assign;
    destruct (decide (list_get_id (list_ u) = l)) as [<-|Hl];
    rewrite ?decide_False by tauto; try done;
    (destruct (decide (chat_id = id)) as [<-|Hid];
      [rewrite decide_True by done|rewrite decide_False by tauto]).
  all: rewrite ?lookup_delete_eq, ?lookup_insert_eq, ?lookup_delete_ne,
    ?lookup_insert_ne, ?Hold by done; done.
Qed.

Lemma update_position_consistent chat_id u s :
  consistent s → consistent (_update_position chat_id u s).
Proof.
  intros Hc. unfold _update_position.
  destruct (Hc (list_get_id (list_ u))) as [Hs He].
  destruct (list_orders s _ !! chat_id) as [old|] eqn:Hold; [|by apply consistent_assign].
  assert (Hes : set_sorted pair_greater (set_erase pair_greater (old, chat_id)
                  (list_entries s (list_get_id (list_ u))))) by auto with cpp typeclass_instances.
  destruct (order_ u =? 0); cbn [negb]; apply consistent_assign; auto with cpp typeclass_instances;
    intros o id; rewrite ?elem_of_insert_pair, elem_of_erase_pair, He by done.
  - rewrite lookup_delete. case_decide; naive_solver congruence.
  - rewrite lookup_insert. case_decide; naive_solver congruence.
Qed.

Lemma add_to_list_orders chat_id l s l' id :
  list_orders (add_to_list chat_id l s) l' !! id =
    if decide (list_get_id l = l' ∧ chat_id = id) then Some 0 else list_orders s l' !! id.
Proof.
  unfold add_to_list. rewrite list_orders_assign.
  destruct (decide (list_get_id l = l')) as [<-|Hl]; [|by rewrite decide_False by tauto].
  rewrite lookup_insert. repeat case_decide; naive_solver.
Qed.

(** A chat can be added to a list in which it has no position yet. *)
Definition addable (s : tl_app_state_struct) (l : ChatList) (chat_id : Z) : Prop :=
  default 0 (list_orders s (list_get_id l) !! chat_id) = 0.
#[global] Instance addable_dec s l id : Decision (addable s l id).
Proof. unfold addable. apply _. Defined.

Lemma add_to_list_consistent chat_id l s :
  consistent s → addable s l chat_id → consistent (add_to_list chat_id l s).
Proof.
  unfold addable. intros Hc Ha. destruct (Hc (list_get_id l)) as [Hs He].
  apply consistent_assign; [done|by auto with cpp typeclass_instances|].
  intros o id. rewrite elem_of_insert_pair, He, lookup_insert by done.
  case_decide as Hid; [subst id|naive_solver].
  destruct (list_orders s (list_get_id l) !! chat_id); simpl in Ha; naive_solver.
Qed.

(** ** The invariant of the chat list *)
Definition chat_list_inv (s : tl_app_state_struct) : Prop :=
  consistent s ∧ positioned_known s.

Lemma chat_list_inv_initial pane0 terminating0 : chat_list_inv (mk_app_state pane0 terminating0).
Proof.
  split.
  - intros l. split; [constructor|]. intros o id. unfold list_orders, get_or. simpl.
    rewrite !lookup_empty. simpl. rewrite lookup_empty. unfold list_entries, get_or. simpl.
    rewrite lookup_empty. split; [set_solver|done].
  - intros l id. unfold list_orders, get_or. simpl. rewrite lookup_empty. simpl.
    rewrite lookup_empty. by intros [? ?].
Qed.

(** The displayed chats are announced: [draw_side] finds each one. *)
Lemma listed_known s l o id :
  chat_list_inv s → (o, id) ∈ list_entries s l → is_Some (id_to_chat s !! id).
Proof. intros [Hc Hk] Hin. apply (Hk l). apply (Hc l) in Hin. eauto. Qed.

Lemma update_position_chats chat_id u s :
  id_to_chat (_update_position chat_id u s) = id_to_chat s.
Proof. unfold _update_position. by repeat case_match. Qed.

Lemma update_positions_chats chat_id ps s :
  id_to_chat (foldl (λ s p, _update_position chat_id p s) s ps) = id_to_chat s.
Proof.
  revert s. induction ps as [|p ps IH]; intros s; simpl; [done|].
  by rewrite IH, update_position_chats.
Qed.

Lemma update_position_positioned chat_id u s l id :
  is_Some (list_orders (_update_position chat_id u s) l !! id) →
  is_Some (list_orders s l !! id).
Proof.
  rewrite update_position_orders. case_decide; [|done]. unfold new_order.
  destruct (list_orders s l !! id); [eauto|]. by intros [? ?].
Qed.

Lemma update_positions_positioned chat_id ps s l id :
  is_Some (list_orders (foldl (λ s p, _update_position chat_id p s) s ps) l !! id) →
  is_Some (list_orders s l !! id).
Proof.
  revert s. induction ps as [|p ps IH]; intros s; simpl; [done|].
  intros Hp%IH. by eapply update_position_positioned.
Qed.

Lemma update_positions_consistent chat_id ps s :
  consistent s → consistent (foldl (λ s p, _update_position chat_id p s) s ps).
Proof.
  revert s. induction ps as [|p ps IH]; intros s Hs; simpl; [done|].
  by apply IH, update_position_consistent.
Qed.

Lemma update_position_inv chat_id u s :
  chat_list_inv s → chat_list_inv (_update_position chat_id u s).
Proof.
  intros [Hc Hk]. split; [by apply update_position_consistent|].
  intros l id Hp. rewrite update_position_chats.
  eapply Hk, update_position_positioned, Hp.
Qed.

Lemma update_positions_inv chat_id ps s :
  chat_list_inv s → chat_list_inv (foldl (λ s p, _update_position chat_id p s) s ps).
Proof.
  intros [Hc Hk]. split; [by apply update_positions_consistent|].
  intros l id Hp. rewrite update_positions_chats.
  eapply Hk, update_positions_positioned, Hp.
Qed.

Lemma add_to_lists_spec chat_id ls s :
  consistent s → Forall (λ l, addable s l chat_id) ls →
  let s' := foldl (λ s l, add_to_list chat_id l s) s ls in
  consistent s' ∧ id_to_chat s' = id_to_chat s ∧
  ∀ l id, is_Some (list_orders s' l !! id) → id = chat_id ∨ is_Some (list_orders s l !! id).
Proof.
  revert s. induction ls as [|l ls IH]; intros s Hc Ha; simpl; [by auto|].
  apply Forall_cons in Ha as [Hl Hls].
  destruct (IH (add_to_list chat_id l s)) as (Hc' & Hchat & Hpos).
  - by apply add_to_list_consistent.
  - eapply Forall_impl; [exact Hls|]. intros l'. unfold addable.
    rewrite add_to_list_orders. by case_decide.
  - split_and!; [done|done|]. intros l' id [->|Hp]%Hpos; [by left|].
    rewrite add_to_list_orders in Hp. case_decide; naive_solver.
Qed.

Lemma chat_list_inv_eq a a' :
  id_to_chat a' = id_to_chat a → position_sets a' = position_sets a →
  id_to_position a' = id_to_position a → chat_list_inv a → chat_list_inv a'.
Proof.
  intros H1 H2 H3 [Hc Hk]. split.
  - intros l. unfold list_consistent, list_entries, list_orders. rewrite H2, H3. apply Hc.
  - intros l id. unfold list_orders. rewrite H1, H3. apply Hk.
Qed.

(** The updates TDLib may send in a state: a chat is announced before it is
    mentioned, and added only to lists it is not yet placed in. *)
Definition chat_update_ok (s : tl_app_state_struct) (o : Object) : Prop :=
  match o with
  | updateNewChat c => Forall (λ l, addable s l (c_id c)) (chat_lists_ c)
  | updateChatAddedToList id l => is_Some (id_to_chat s !! id) ∧ addable s l id
  | updateChatLastMessage id _ _ => is_Some (id_to_chat s !! id)
  | _ => True
  end.
#[global] Instance chat_update_ok_dec s o : Decision (chat_update_ok s o).
Proof. destruct o; simpl; apply _. Defined.

Lemma new_chat_inv c sh :
  chat_list_inv (app_state sh) → chat_update_ok (app_state sh) (updateNewChat c) →
  chat_list_inv (app_state (process_update_new_chat c sh)).
Proof.
  intros [Hc Hk] Ha. unfold process_update_new_chat. simpl.
  destruct (add_to_lists_spec (c_id c) (chat_lists_ c) (app_state sh) Hc Ha)
    as (Hc1 & Hchat & Hpos).
  set (s1 := foldl _ (app_state sh) _) in *. set (s2 := foldl _ s1 (positions_ c)).
  assert (Hc2 : consistent s2).
  { by apply update_positions_consistent. }
  split; [exact Hc2|]. intros l id Hp. simpl.
  rewrite lookup_insert. case_decide as Hid; [eauto|].
  unfold s2. rewrite update_positions_chats, Hchat.
  apply update_positions_positioned, Hpos in Hp as [->|Hp]; [done|]. by eapply Hk.
Qed.

Lemma added_to_list_inv id l sh :
  chat_list_inv (app_state sh) → chat_update_ok (app_state sh) (updateChatAddedToList id l) →
  chat_list_inv (app_state (process_update_chat_added_to_list id l sh)).
Proof.
  intros [Hc Hk] [Hid Ha]. split; simpl; [by apply add_to_list_consistent|].
  intros l' id' Hp. simpl. rewrite add_to_list_orders in Hp.
  case_decide as Hd; [by destruct Hd as [_ <-]|]. by eapply Hk.
Qed.

Lemma last_message_inv id m ps sh :
  chat_list_inv (app_state sh) → chat_update_ok (app_state sh) (updateChatLastMessage id m ps) →
  ∃ sh', process_update_chat_last_message id m ps sh = Ok sh' ∧
    chat_list_inv (app_state sh').
Proof.
  intros [Hc Hk] [c Hid]. unfold process_update_chat_last_message, assign_last_message.
  rewrite Hid. cbn [deref mbind outcome_bind].
  eexists. split; [done|]. simpl. set (s1 := assign_id_to_chat _ _).
  assert (Hs1 : chat_list_inv s1).
  { split; [exact Hc|]. intros l id' Hp. simpl. rewrite lookup_insert.
    case_decide; [eauto|]. by eapply Hk. }
  case_bool_decide; [done|]. by apply update_positions_inv.
Qed.

(** The order of the displayed list: descending, each chat once. *)
Lemma list_entries_ids_nodup s l : list_consistent s l → NoDup (list_entries s l).*2.
Proof.
  intros [Hs He]. apply NoDup_fmap_2_strong; [|by eapply set_sorted_nodup, Hs; apply _].
  intros [o1 i1] [o2 i2] H1%He H2%He. simpl. intros ->. congruence.
Qed.

(** ** Properties *)

(** C19. A position update keeps the displayed lists and the orders in agreement and
    moves that chat in that list only: the chat is displayed afterwards exactly
    when it was displayed before and its new order is not 0, and then once, at
    the new order. *)
Theorem update_position_moves_chat chat_id u s :
  consistent s →
  consistent (_update_position chat_id u s) ∧
  ∀ l id o,
    (o, id) ∈ list_entries (_update_position chat_id u s) l ↔
    if decide (list_get_id (list_ u) = l ∧ chat_id = id)
    then o = order_ u ∧ o ≠ 0 ∧ ∃ o0, (o0, id) ∈ list_entries s l
    else (o, id) ∈ list_entries s l.
Proof.
  intros Hc. pose proof (update_position_consistent chat_id u s Hc) as Hc'.
  split; [done|]. intros l id o. destruct (Hc' l) as [_ ->]. rewrite update_position_orders.
  destruct (Hc l) as [_ He]. case_decide; [|by rewrite He].
  setoid_rewrite He. unfold new_order. destruct (list_orders s l !! id).
  - destruct (order_ u =? 0) eqn:E; zbool; naive_solver.
  - naive_solver.
Qed.

(** When a chat that already has a nonzero order in a list is announced or added
    to it again, its displayed entry is left behind: the chat is then displayed
    twice, and still displayed after it has been removed from the list. *)
Theorem added_again_leaves_stale_entry chat_id l o s :
  consistent s → list_orders s (list_get_id l) !! chat_id = Some o → o ≠ 0 →
  let L := list_get_id l in
  let s1 := add_to_list chat_id l s in
  let s2 := _update_position chat_id {| list_ := l; order_ := 0 |} s1 in
  (o, chat_id) ∈ list_entries s1 L ∧ (0, chat_id) ∈ list_entries s1 L ∧
  (o, chat_id) ∈ list_entries s2 L ∧ list_orders s2 L !! chat_id = None ∧ ¬ consistent s2.
Proof.
  intros Hc Ho Hne L s1 s2. destruct (Hc L) as [Hs He].
  assert (Hin : (o, chat_id) ∈ list_entries s L) by by apply He.
  assert (Hs1 : set_sorted pair_greater (list_entries s1 L)).
  { unfold s1, add_to_list. rewrite list_entries_assign, decide_True by done.
    auto with cpp typeclass_instances. }
  assert (H1 : (o, chat_id) ∈ list_entries s1 L ∧ (0, chat_id) ∈ list_entries s1 L).
  { unfold s1, add_to_list. rewrite list_entries_assign, decide_True by done.
    rewrite !elem_of_insert_pair by done. auto. }
  assert (H2 : (o, chat_id) ∈ list_entries s2 L ∧ list_orders s2 L !! chat_id = None).
  { split.
    - unfold s2, _update_position. cbn [order_ list_].
      assert (Hl1 : list_orders s1 (list_get_id l) !! chat_id = Some 0).
      { unfold s1. rewrite add_to_list_orders. by rewrite decide_True. }
      rewrite Hl1. cbn [Z.eqb negb]. fold L.
      rewrite list_entries_assign, decide_True, elem_of_erase_pair by done.
      split; [by apply H1|]. congruence.
    - unfold s2. rewrite update_position_orders, decide_True by done. unfold new_order.
      by case_match. }
  split_and!; try apply H1; try apply H2.
  intros Hc2. destruct H2 as [H2 Hn]. apply (Hc2 L) in H2. congruence.
Qed.

End chat_list.

(** ** Examples *)
Section examples.
#[local] Existing Instance scheme_ids.

(** A state with chat 7 at order 5 in the main list. *)
Definition one_chat : tl_app_state_struct :=
  app_state (process_update_new_chat
    {| c_id := 7; title_ := "A"; last_message_ := None;
       positions_ := [{| list_ := chatListMain; order_ := 5 |}];
       chat_lists_ := [chatListMain] |}
    {| app_state := mk_app_state 0 false; event_queue := empty_queue |}).

Lemma one_chat_consistent : consistent one_chat.
Proof.
  apply new_chat_inv; [apply chat_list_inv_initial|].
  apply (bool_decide_unpack _). vm_compute. exact I.
Qed.

Lemma update_position_moves_chat_witness :
  consistent (_update_position 7 {| list_ := chatListMain; order_ := 9 |} one_chat) ∧
  (9, 7) ∈ list_entries (_update_position 7 {| list_ := chatListMain; order_ := 9 |} one_chat)
             chatListMain_ID.
Proof.
  destruct (update_position_moves_chat 7 {| list_ := chatListMain; order_ := 9 |} one_chat
              one_chat_consistent) as [Hc He].
  split; [exact Hc|]. apply He. rewrite decide_True by done. split; [done|].
  split; [done|]. exists 5. vm_compute. left.
Defined.

Lemma added_again_leaves_stale_entry_witness :
  list_entries (add_to_list 7 chatListMain one_chat) chatListMain_ID = [(5, 7); (0, 7)] ∧
  ¬ consistent (_update_position 7 {| list_ := chatListMain; order_ := 0 |}
                  (add_to_list 7 chatListMain one_chat)).
Proof.
  split; [vm_compute; reflexivity|].
  apply (added_again_leaves_stale_entry 7 chatListMain 5 one_chat one_chat_consistent);
    [vm_compute; reflexivity|done].
Defined.
End examples.
