(* ===== verification/Messages.v ===== *)
(** * The message history ([src/src/tg.cc], [process_get_chat_history])

    The messages of a chat, newest first, in a [std::set] ordered by
    [cmp_msg_reverse_chrono]. *)
From S2P Require Import Prelude EventQueue StdSet TdApi AppState.

Notation chrono := cmp_msg_reverse_chrono (only parsing).

Definition history (s : tl_app_state_struct) (chat_id : Z) : list message :=
  get_or [] (chat_messages s) chat_id.

(** [messages[chat_id].emplace(std::move(m))]. The set is not empty when the
    code gets to a null message, since the first message was dereferenced before:
    the comparator dereferences the null pointer. *)
Definition emplace_message (chat_id : Z) (s : tl_app_state_struct) (m : option message)
    : outcome tl_app_state_struct :=
  m ← deref m;
  Ok (assign_chat_messages
        (<[chat_id := set_insert chrono m (history s chat_id)]> (chat_messages s)) s).

Definition process_get_chat_history (received : messages_object) (sh : shared)
    : outcome shared :=
  if total_count_ received =? 0 then Ok sh
  else
    m0 ← deref (messages_ received !! 0%nat);
    m0 ← deref m0;
    let chat_id := m_chat_id m0 in
    s ← ofold (emplace_message chat_id) (app_state sh) (messages_ received);
    Ok (push_event (event_messages chat_id)
          {| app_state := s; event_queue := event_queue sh |}).

(** ** Invariant: strictly newest first, hence at most one message per second. *)
Definition chronological (s : tl_app_state_struct) : Prop :=
  ∀ chat_id, set_sorted chrono (history s chat_id).

(** The set after inserting [ms] in turn. *)
Definition insert_all (ms s : list message) : list message :=
  foldl (λ s m, set_insert chrono m s) s ms.

Lemma history_assign chat_id h s c :
  history (assign_chat_messages (<[chat_id := h]> (chat_messages s)) s) c =
    if decide (chat_id = c) then h else history s c.
Proof. apply get_or_insert. Qed.

Lemma insert_all_sorted ms s : set_sorted chrono s → set_sorted chrono (insert_all ms s).
Proof.
  revert s. induction ms as [|m ms IH]; intros s Hs; simpl; [done|].
  apply IH, set_insert_sorted; [apply _|done].
Qed.

Lemma date_equiv m1 m2 : equiv_elem chrono m1 m2 = (m_date m1 =? m_date m2).
Proof. unfold equiv_elem, cmp_msg_reverse_chrono. lia. Qed.

Lemma elem_of_insert_message m x s :
  set_sorted chrono s →
  x ∈ set_insert chrono m s ↔ x ∈ s ∨ (x = m ∧ m_date m ∉ m_date <$> s).
Proof.
  intros Hs. rewrite elem_of_set_insert by (done || apply _).
  assert (Heq : (∀ z, z ∈ s → equiv_elem chrono m z = false) ↔ m_date m ∉ m_date <$> s).
  { rewrite list_elem_of_fmap. split.
    - intros H (z & Hz & Hin). specialize (H z Hin). rewrite date_equiv in H. lia.
    - intros H z Hin. rewrite date_equiv. apply Z.eqb_neq. intros He. apply H. eauto. }
  naive_solver.
Qed.

(** Every second that occurs in the answer or before is represented, and what
    was there stays. *)
Lemma insert_all_spec ms : ∀ s,
  set_sorted chrono s →
  (∀ x, x ∈ s → x ∈ insert_all ms s) ∧
  (∀ x, x ∈ insert_all ms s → x ∈ s ∨ x ∈ ms) ∧
  (∀ d, d ∈ m_date <$> insert_all ms s ↔ d ∈ m_date <$> s ∨ d ∈ m_date <$> ms).
Proof.
  induction ms as [|m ms IH]; intros s Hs; cbn [insert_all foldl]; fold (insert_all).
  { split_and!; [done|by left|]. intros d. set_solver. }
  destruct (IH (set_insert chrono m s)) as (Hk & Hi & Hd).
  { apply set_insert_sorted; [apply _|done]. }
  unfold insert_all in *. split_and!.
  - intros x Hx. apply Hk, elem_of_insert_message; auto.
  - intros x Hx%Hi. rewrite elem_of_insert_message in Hx by done. set_solver.
  - intros d. rewrite Hd, fmap_cons, elem_of_cons.
    assert (Hm : d ∈ m_date <$> set_insert chrono m s ↔ d ∈ m_date <$> s ∨ d = m_date m).
    { rewrite !list_elem_of_fmap. split.
      - intros (x & -> & Hx). rewrite elem_of_insert_message in Hx by done. naive_solver.
      - intros [(x & -> & Hx)| -> ].
        + exists x. rewrite elem_of_insert_message by done. auto.
        + destruct (decide (m_date m ∈ m_date <$> s)) as [Hin|Hn].
          * apply list_elem_of_fmap in Hin as (x & ? & ?). exists x.
            rewrite elem_of_insert_message by done. auto.
          * exists m. rewrite elem_of_insert_message by done. auto. }
    rewrite Hm. tauto.
Qed.

Lemma insert_all_present ms s :
  set_sorted chrono s → (∀ m, m ∈ ms → m_date m ∈ m_date <$> s) → insert_all ms s = s.
Proof.
  unfold insert_all. intros Hs. induction ms as [|m ms IH]; intros H; simpl; [done|].
  rewrite set_insert_present; [|apply _|done|].
  - apply IH. intros; apply H; set_solver.
  - destruct (proj1 (list_elem_of_fmap _ _ _) (H m ltac:(set_solver))) as (z & Hz & Hin).
    exists z. split; [done|]. rewrite date_equiv. lia.
Qed.

Lemma emplace_some chat_id s m :
  emplace_message chat_id s (Some m) =
    Ok (assign_chat_messages
          (<[chat_id := set_insert chrono m (history s chat_id)]> (chat_messages s)) s).
Proof. done. Qed.

(** The loop, when no message is null. *)
Lemma emplace_loop chat_id ms s :
  ∃ s', ofold (emplace_message chat_id) s (Some <$> ms) = Ok s' ∧
    (∀ c, history s' c =
       if decide (chat_id = c) then insert_all ms (history s c) else history s c) ∧
    assign_chat_messages ∅ s' = assign_chat_messages ∅ s.
Proof.
  revert s. induction ms as [|m ms IH]; intros s; cbn [fmap list_fmap ofold].
  { exists s. split_and!; [done| |done]. intros c. by case_decide. }
  rewrite emplace_some, bind_Ok_l.
  set (s1 := assign_chat_messages _ s).
  destruct (IH s1) as (s' & Hrun & Hh & Hrest). exists s'.
  split_and!; [done| |by rewrite Hrest].
  intros c. rewrite Hh. unfold s1. rewrite history_assign. by repeat case_decide; subst.
Qed.

(** Processing an answer with at least one message and no null one. *)
Lemma process_history_Ok total m ms sh :
  total ≠ 0 →
  ∃ sh', process_get_chat_history
           {| total_count_ := total; messages_ := Some <$> (m :: ms) |} sh = Ok sh' ∧
    event_queue sh' = push (event_messages (m_chat_id m)) (event_queue sh) ∧
    assign_chat_messages ∅ (app_state sh') = assign_chat_messages ∅ (app_state sh) ∧
    ∀ c, history (app_state sh') c =
      if decide (m_chat_id m = c) then insert_all (m :: ms) (history (app_state sh) c)
      else history (app_state sh) c.
Proof.
  intros Ht. destruct (emplace_loop (m_chat_id m) (m :: ms) (app_state sh))
    as (s' & Hrun & Hh & Hrest).
  unfold process_get_chat_history. cbn [total_count_ messages_].
  rewrite (proj2 (Z.eqb_neq _ _)) by done. change (_ !! 0%nat) with (Some (Some m)).
  change (deref (Some (Some m))) with (Ok (Some m)). rewrite bind_Ok_l.
  change (deref (Some m)) with (Ok m). rewrite bind_Ok_l, Hrun, bind_Ok_l. eexists. split; [done|]. by simpl.
Qed.

Lemma messages_all_some (l : list (option message)) :
  None ∉ l → ∃ ms, l = Some <$> ms.
Proof.
  induction l as [|[m|] l IH]; intros Hn; [by exists []| |set_solver].
  destruct IH as [ms ->]; [set_solver|]. by exists (m :: ms).
Qed.

Lemma emplace_loop_null chat_id l s :
  None ∈ l → ofold (emplace_message chat_id) s l = ub.
Proof.
  revert s. induction l as [|[m|] l IH]; intros s Hin; [set_solver| |done].
  cbn [ofold]. rewrite emplace_some, bind_Ok_l. apply IH. set_solver.
Qed.

Lemma sorted_same_date s x y :
  set_sorted chrono s → x ∈ s → y ∈ s → m_date x = m_date y → x = y.
Proof.
  induction 1 as [|z s Hs IH Hz]; [set_solver|]. rewrite Forall_forall in Hz.
  unfold cmp_msg_reverse_chrono in Hz. rewrite !elem_of_cons.
  intros [->|Hx] [->|Hy] Hd; [done| | |by apply IH].
  - apply Hz in Hy. zbool. lia.
  - apply Hz in Hx. zbool. lia.
Qed.

Lemma chronological_process received sh sh' :
  chronological (app_state sh) → process_get_chat_history received sh = Ok sh' →
  chronological (app_state sh').
Proof.
  intros Hc Hrun. destruct received as [total l]. unfold process_get_chat_history in Hrun.
  cbn [total_count_ messages_] in Hrun.
  destruct (total =? 0) eqn:Ht; [by outcome_inv; subst|]. zbool.
  destruct l as [|[m|] l]; [done| |done].
  destruct (decide (None ∈ l)) as [Hn|Hn].
  { change (deref (_ !! 0%nat)) with (Ok (Some m)) in Hrun. rewrite bind_Ok_l in Hrun.
    change (deref (Some m)) with (Ok m) in Hrun. rewrite bind_Ok_l in Hrun.
    by rewrite emplace_loop_null in Hrun by set_solver. }
  apply messages_all_some in Hn as [ms ->].
  destruct (process_history_Ok total m ms sh Ht) as (sh1 & Hrun1 & _ & _ & Hh).
  unfold process_get_chat_history in Hrun1. cbn [total_count_ messages_] in Hrun1.
  rewrite (proj2 (Z.eqb_neq _ _)) in Hrun1 by done.
  change (Some <$> m :: ms) with (Some m :: (Some <$> ms)) in Hrun1.
  rewrite Hrun in Hrun1. simplify_eq. intros c. rewrite Hh.
  case_decide; [apply insert_all_sorted|]; apply Hc.
Qed.

(** ** Properties *)

Lemma process_history_Ok_iff received sh :
  (∃ sh', process_get_chat_history received sh = Ok sh') ↔
  total_count_ received = 0 ∨ (messages_ received ≠ [] ∧ None ∉ messages_ received).
Proof.
  destruct received as [total l]. cbn [total_count_ messages_]. split.
  - intros [sh' Hrun]. unfold process_get_chat_history in Hrun.
    cbn [total_count_ messages_] in Hrun.
    destruct (total =? 0) eqn:Ht; zbool; [by left|right].
    destruct l as [|[m|] l]; [done| |done]. split; [done|]. intros Hn.
    change (deref (_ !! 0%nat)) with (Ok (Some m)) in Hrun. rewrite bind_Ok_l in Hrun.
    change (deref (Some m)) with (Ok m) in Hrun. rewrite bind_Ok_l in Hrun.
    by rewrite emplace_loop_null in Hrun.
  - destruct (decide (total = 0)) as [->|Ht]; [by eexists|].
    intros [?|[Hne Hn]]; [done|]. apply messages_all_some in Hn as [[|m ms] ->]; [done|].
    destruct (process_history_Ok total m ms sh Ht) as (sh' & Hrun & _). by exists sh'.
Qed.

(** The handler of a [getChatHistory] answer ends without undefined behaviour
    exactly when the answer announces no messages, or has at least one and no
    null one. *)
Theorem process_get_chat_history_defined received sh :
  (∃ sh', process_get_chat_history received sh = Ok sh') ↔
  total_count_ received = 0 ∨ (messages_ received ≠ [] ∧ None ∉ messages_ received).
Proof. apply process_history_Ok_iff. Qed.

(** C25. Merging an answer keeps every chat's messages strictly newest first, loses
    no message that was there, adds only messages of the answer, all under the
    chat of its first message, and leaves no second of the answer without a
    message; it touches nothing but the messages and the event queue. *)
Theorem process_get_chat_history_merges total m ms sh :
  chronological (app_state sh) → total ≠ 0 →
  ∃ sh', process_get_chat_history
           {| total_count_ := total; messages_ := Some <$> (m :: ms) |} sh = Ok sh' ∧
    chronological (app_state sh') ∧
    (∀ c, c ≠ m_chat_id m → history (app_state sh') c = history (app_state sh) c) ∧
    (let old := history (app_state sh) (m_chat_id m) in
     let new := history (app_state sh') (m_chat_id m) in
     (∀ x, x ∈ old → x ∈ new) ∧ (∀ x, x ∈ new → x ∈ old ∨ x ∈ m :: ms) ∧
     ∀ d, d ∈ m_date <$> new ↔ d ∈ m_date <$> old ∨ d ∈ m_date <$> m :: ms) ∧
    event_queue sh' = push (event_messages (m_chat_id m)) (event_queue sh) ∧
    assign_chat_messages ∅ (app_state sh') = assign_chat_messages ∅ (app_state sh).
Proof.
  intros Hc Ht. destruct (process_history_Ok total m ms sh Ht) as (sh' & Hrun & Hq & Hr & Hh).
  exists sh'. split; [done|]. split; [by apply (chronological_process _ _ _ Hc Hrun)|].
  split; [by intros c Hne; rewrite Hh, decide_False by done|].
  split; [|split; [exact Hq|exact Hr]]. rewrite Hh, decide_True by done.
  apply (insert_all_spec (m :: ms)), Hc.
Qed.

(** Receiving the same answer again changes no history. *)
Theorem process_get_chat_history_idempotent received sh sh1 :
  chronological (app_state sh) →
  process_get_chat_history received sh = Ok sh1 →
  ∃ sh2, process_get_chat_history received sh1 = Ok sh2 ∧
    ∀ c, history (app_state sh2) c = history (app_state sh1) c.
Proof.
  intros Hc Hrun. pose proof (chronological_process _ _ _ Hc Hrun) as Hc1.
  destruct (proj1 (process_history_Ok_iff received sh)) as [Ht|[Hne Hn]]; [eauto| |].
  { exists sh1. destruct received as [total l]. cbn [total_count_] in Ht. by subst. }
  destruct received as [total l]. cbn [total_count_ messages_] in *.
  destruct (decide (total = 0)) as [->|Ht]; [by exists sh1|].
  apply messages_all_some in Hn as [[|m ms] ->]; [done|].
  destruct (process_history_Ok total m ms sh Ht) as (sh1' & Hrun1 & _ & _ & Hh1).
  rewrite Hrun in Hrun1. apply (inj Ok) in Hrun1 as <-.
  destruct (process_history_Ok total m ms sh1 Ht) as (sh2 & Hrun2 & _ & _ & Hh2).
  exists sh2. split; [exact Hrun2|]. intros c. rewrite Hh2. case_decide as Hd; [|done]. subst c.
  apply insert_all_present; [apply Hc1|]. intros x Hx.
  rewrite Hh1, decide_True by done.
  apply (insert_all_spec (m :: ms)); [apply Hc|]. right. by apply list_elem_of_fmap_2.
Qed.

(** Of two different messages of a chat sent in the same second only one is
    ever kept: after an answer that carries both, one of them is missing. *)
Theorem same_second_message_dropped total m ms m1 m2 sh sh' :
  chronological (app_state sh) →
  process_get_chat_history {| total_count_ := total; messages_ := Some <$> (m :: ms) |} sh
    = Ok sh' →
  m1 ≠ m2 → m_date m1 = m_date m2 →
  ∀ c, ¬ (m1 ∈ history (app_state sh') c ∧ m2 ∈ history (app_state sh') c).
Proof.
  intros Hc Hrun Hne Hd c [H1 H2]. apply Hne.
  eapply sorted_same_date; [|exact H1|exact H2|exact Hd].
  by apply (chronological_process _ _ _ Hc Hrun).
Qed.

(** ** Examples *)
Definition msg (id date : Z) : message :=
  {| m_id := id; m_chat_id := 7; m_date := date; content_ := messageText "hi" |}.

Section examples.
#[local] Existing Instance scheme_ids.

Definition start : shared :=
  {| app_state := mk_app_state 0 false; event_queue := empty_queue |}.

Definition answer : messages_object :=
  {| total_count_ := 2; messages_ := Some <$> [msg 2 20; msg 1 10] |}.

Lemma start_chronological : chronological (app_state start).
Proof. intros c. unfold history, get_or. simpl. rewrite lookup_empty. constructor. Qed.

Lemma process_get_chat_history_merges_witness :
  ∃ sh', process_get_chat_history answer start = Ok sh' ∧
    history (app_state sh') 7 = [msg 2 20; msg 1 10] ∧ chronological (app_state sh').
Proof.
  destruct (process_get_chat_history_merges 2 (msg 2 20) [msg 1 10] start
              start_chronological) as (sh' & Hrun & Hc & _); [done|].
  exists sh'. split; [exact Hrun|]. split; [|exact Hc].
  vm_compute in Hrun. injection Hrun as <-. vm_compute. reflexivity.
Defined.

Definition after_answer : shared :=
  match process_get_chat_history answer start with Ok sh => sh | Fault _ => start end.

Lemma process_get_chat_history_idempotent_witness :
  ∃ sh2, process_get_chat_history answer after_answer = Ok sh2 ∧
    ∀ c, history (app_state sh2) c = history (app_state after_answer) c.
Proof.
  apply (process_get_chat_history_idempotent answer start after_answer start_chronological).
  reflexivity.
Defined.

Lemma same_second_message_dropped_witness :
  ∃ sh', process_get_chat_history
           {| total_count_ := 2; messages_ := Some <$> [msg 2 10; msg 1 10] |} start = Ok sh' ∧
    ∀ c, ¬ (msg 2 10 ∈ history (app_state sh') c ∧ msg 1 10 ∈ history (app_state sh') c).
Proof.
  eexists. split; [reflexivity|].
  apply (same_second_message_dropped 2 (msg 2 10) [msg 1 10] (msg 2 10) (msg 1 10) start);
    [exact start_chronological|reflexivity|done|reflexivity].
Defined.
End examples.
