(* ===== verification/QrSegment.v ===== *)
(** * QR segments and bit buffers ([lib/qrcodegen/qrcodegen.cpp], classes
    [BitBuffer] and [QrSegment])

    A [BitBuffer] is a [std::vector<bool>], modelled as [list bool]; a C string
    is the list of its character codes before the terminating NUL. *)
From S2P Require Import Prelude.

(** ** Characters and C strings *)

Definition char_code (c : Ascii.ascii) : Z := Z.of_nat (Ascii.nat_of_ascii c).

Fixpoint string_codes (s : string) : list Z :=
  match s with
  | EmptyString => []
  | String c s => char_code c :: string_codes s
  end.

(** [std::string::c_str()] read as a NUL-terminated string. *)
Fixpoint until_nul (l : list Z) : list Z :=
  match l with
  | [] => []
  | c :: l => if c =? 0 then [] else c :: until_nul l
  end.

Definition c_str (s : string) : list Z := until_nul (string_codes s).

(** [std::strchr(charset, c) - charset] for a non-NUL [c]. *)
Fixpoint strchr (charset : list Z) (c : Z) : option Z :=
  match charset with
  | [] => None
  | d :: rest => if c =? d then Some 0 else Z.succ <$> strchr rest c
  end.

(** ** [BitBuffer::appendBits] *)

(** The low [len] bits of [val], most significant first. *)
Definition msb_bits (len : nat) (val : Z) : list bool :=
  (λ i : nat, Z.testbit val (Z.of_nat i)) <$> reverse (seq 0 len).

Definition appendBits (bb : list bool) (val len : Z) : outcome (list bool) :=
  if (len <? 0) || (31 <? len) || negb (Z.shiftr val len =? 0)
  then throw domain_error
  else Ok (bb ++ msb_bits (Z.to_nat len) val).

(** ** [QrSegment::Mode] *)
Record Mode := { modeBits : Z; numBitsCharCount : list Z }.

Definition NUMERIC : Mode := {| modeBits := 1; numBitsCharCount := [10; 12; 14] |}.
Definition ALPHANUMERIC : Mode := {| modeBits := 2; numBitsCharCount := [9; 11; 13] |}.
Definition BYTE : Mode := {| modeBits := 4; numBitsCharCount := [8; 16; 16] |}.
Definition KANJI : Mode := {| modeBits := 8; numBitsCharCount := [8; 10; 12] |}.
Definition ECI : Mode := {| modeBits := 7; numBitsCharCount := [0; 0; 0] |}.

#[global] Instance Mode_eq_dec : EqDecision Mode.
Proof. solve_decision. Defined.

(** An index outside the array of three would be undefined. *)
Definition numCharCountBits (m : Mode) (ver : Z) : outcome Z :=
  let i := Z.quot (ver + 7) 17 in
  if i <? 0 then ub else deref (numBitsCharCount m !! Z.to_nat i).

(** ** [QrSegment] *)
Record QrSegment := { seg_mode : Mode; numChars : Z; seg_data : list bool }.

(** The constructor rejects a negative character count. *)
Definition mkSegment (md : Mode) (numCh : Z) (dt : list bool) : outcome QrSegment :=
  if numCh <? 0 then throw domain_error
  else Ok {| seg_mode := md; numChars := numCh; seg_data := dt |}.

Definition makeBytes (data : list Z) : outcome QrSegment :=
  if INT_MAX <? Z.of_nat (length data) then throw length_error
  else
    bb ← ofold (λ bb b, appendBits bb b 8) [] data;
    mkSegment BYTE (i32 (Z.of_nat (length data))) bb.

Definition chr_0 : Z := 48.
Definition chr_9 : Z := 57.

(** The state of the loop of [makeNumeric]. *)
Record accum := { acc_bb : list bool; accumData : Z; accumCount : Z; charCount : Z }.

Definition numeric_step (st : accum) (c : Z) : outcome accum :=
  if (c <? chr_0) || (chr_9 <? c) then throw domain_error
  else
    let d := accumData st * 10 + (c - chr_0) in
    let n := accumCount st + 1 in
    if n =? 3 then
      bb ← appendBits (acc_bb st) (u32 d) 10;
      count ← iadd (charCount st) 1;
      Ok {| acc_bb := bb; accumData := 0; accumCount := 0; charCount := count |}
    else
      count ← iadd (charCount st) 1;
      Ok {| acc_bb := acc_bb st; accumData := d; accumCount := n;
            charCount := count |}.

Definition accum0 : accum :=
  {| acc_bb := []; accumData := 0; accumCount := 0; charCount := 0 |}.

Definition makeNumeric (digits : list Z) : outcome QrSegment :=
  st ← ofold numeric_step accum0 digits;
  bb ← (if 0 <? accumCount st
        then appendBits (acc_bb st) (u32 (accumData st)) (accumCount st * 3 + 1)
        else Ok (acc_bb st));
  mkSegment NUMERIC (charCount st) bb.

Definition ALPHANUMERIC_CHARSET : list Z :=
  string_codes "0123456789ABCDEFGHIJKLMNOPQRSTUVWXYZ $%*+-./:".

Definition alphanumeric_step (st : accum) (c : Z) : outcome accum :=
  match strchr ALPHANUMERIC_CHARSET c with
  | None => throw domain_error
  | Some i =>
      let d := accumData st * 45 + i in
      let n := accumCount st + 1 in
      if n =? 2 then
        bb ← appendBits (acc_bb st) (u32 d) 11;
        count ← iadd (charCount st) 1;
        Ok {| acc_bb := bb; accumData := 0; accumCount := 0; charCount := count |}
      else
        count ← iadd (charCount st) 1;
        Ok {| acc_bb := acc_bb st; accumData := d; accumCount := n;
              charCount := count |}
  end.

Definition makeAlphanumeric (text : list Z) : outcome QrSegment :=
  st ← ofold alphanumeric_step accum0 text;
  bb ← (if 0 <? accumCount st
        then appendBits (acc_bb st) (u32 (accumData st)) 6
        else Ok (acc_bb st));
  mkSegment ALPHANUMERIC (charCount st) bb.

Definition isNumeric (text : list Z) : bool :=
  forallb (λ c, negb ((c <? chr_0) || (chr_9 <? c))) text.

Definition isAlphanumeric (text : list Z) : bool :=
  forallb (λ c, bool_decide (is_Some (strchr ALPHANUMERIC_CHARSET c))) text.

(** The most compact mode that can represent the whole text. *)
Definition makeSegments (text : list Z) : outcome (list QrSegment) :=
  if decide (text = []) then Ok []
  else if isNumeric text then s ← makeNumeric text; Ok [s]
  else if isAlphanumeric text then s ← makeAlphanumeric text; Ok [s]
  else s ← makeBytes (u8 <$> text); Ok [s].

Definition makeEci (assignVal : Z) : outcome QrSegment :=
  if assignVal <? 0 then throw domain_error
  else if assignVal <? Z.shiftl 1 7 then
    bb ← appendBits [] (u32 assignVal) 8;
    mkSegment ECI 0 bb
  else if assignVal <? Z.shiftl 1 14 then
    bb ← appendBits [] 2 2;
    bb ← appendBits bb (u32 assignVal) 14;
    mkSegment ECI 0 bb
  else if assignVal <? 1000000 then
    bb ← appendBits [] 6 3;
    bb ← appendBits bb (u32 assignVal) 21;
    mkSegment ECI 0 bb
  else throw domain_error.

(** [QrSegment::getTotalBits]: [-1] when a segment does not fit its length
    field or the sum does not fit an [int]. *)
Fixpoint getTotalBits_from (result : Z) (segs : list QrSegment) (version : Z)
    : outcome Z :=
  match segs with
  | [] => Ok result
  | seg :: segs =>
      ccbits ← numCharCountBits (seg_mode seg) version;
      if Z.shiftl 1 ccbits <=? numChars seg then Ok (-1)
      else if INT_MAX - result <? 4 + ccbits then Ok (-1)
      else
        let result := result + (4 + ccbits) in
        let size := Z.of_nat (length (seg_data seg)) in
        if INT_MAX - result <? size then Ok (-1)
        else getTotalBits_from (result + size) segs version
  end.

Definition getTotalBits (segs : list QrSegment) (version : Z) : outcome Z :=
  getTotalBits_from 0 segs version.

Example numeric_ex :
  makeNumeric (string_codes "0123") =
  Ok {| seg_mode := NUMERIC; numChars := 4;
        seg_data := [false;false;false;false;false;false;true;true;false;false;
                     false;false;true;true] |}.
Proof. vm_compute. reflexivity. Qed.
