(* ===== verification/QrSegmentFacts.v ===== *)
(** * Correctness of the segment encoders

    Reference encodings in the terms of the QR standard, decoders that read
    them back, and the theorems that [makeNumeric], [makeAlphanumeric],
    [makeBytes] and [makeSegments] produce them. *)
From S2P Require Import Prelude QrSegment.

(** ** Bit strings as numbers *)
Definition bits_val (l : list bool) : Z :=
  foldl (λ acc b, 2 * acc + Z.b2z b) 0 l.

Lemma bits_val_snoc l b : bits_val (l ++ [b]) = 2 * bits_val l + Z.b2z b.
Proof. unfold bits_val. by rewrite foldl_app. Qed.

Lemma length_msb_bits n v : length (msb_bits n v) = n.
Proof. unfold msb_bits. by rewrite length_fmap, length_reverse, length_seq. Qed.

Lemma msb_bits_S n v :
  msb_bits (S n) v = msb_bits n (Z.shiftr v 1) ++ [Z.testbit v 0].
Proof.
  unfold msb_bits. simpl. rewrite reverse_cons, fmap_app. f_equal.
  rewrite <-seq_shift. change (map S (seq 0 n)) with (S <$> seq 0 n).
  rewrite <-fmap_reverse, <-list_fmap_compose. apply list_fmap_ext.
  intros i x _. cbn. rewrite Z.shiftr_spec by lia.
  by replace (Z.of_nat x + 1) with (Z.of_nat (S x)) by lia.
Qed.

Lemma bits_val_msb_bits n v :
  0 ≤ v < 2 ^ Z.of_nat n → bits_val (msb_bits n v) = v.
Proof.
  revert v. induction n as [|n IH]; intros v Hv.
  - simpl in Hv. unfold msb_bits; simpl. unfold bits_val; simpl. lia.
  - rewrite msb_bits_S, bits_val_snoc.
    rewrite Nat2Z.inj_succ, Z.pow_succ_r in Hv by lia.
    assert (Hs : Z.shiftr v 1 = v / 2) by (by rewrite Z.shiftr_div_pow2 by lia).
    rewrite Hs, IH by (split; [apply Z.div_pos; lia|apply Z.div_lt_upper_bound; lia]).
    rewrite Z.bit0_odd.
    pose proof (Zmod_odd v). pose proof (Z.div_mod v 2).
    destruct (Z.odd v); simpl; lia.
Qed.

Lemma appendBits_Ok bb v len :
  0 ≤ len ≤ 31 → 0 ≤ v < 2 ^ len →
  appendBits bb v len = Ok (bb ++ msb_bits (Z.to_nat len) v).
Proof.
  intros Hl Hv. unfold appendBits.
  rewrite Z.shiftr_div_pow2 by lia. rewrite Z.div_small by lia.
  by rewrite !(proj2 (Z.ltb_ge _ _)) by lia.
Qed.

#[local] Opaque msb_bits.

(** ** Numeric mode *)

(** The bits of a digit sequence: ten bits per group of three digits, seven
    for a last pair, four for a last digit. *)
Fixpoint numeric_bits (ds : list Z) : list bool :=
  match ds with
  | a :: b :: c :: rest => msb_bits 10 (100 * a + 10 * b + c) ++ numeric_bits rest
  | [a; b] => msb_bits 7 (10 * a + b)
  | [a] => msb_bits 4 a
  | [] => []
  end.

(** Reads [n] digits back, as a QR reader does. *)
Fixpoint read_numeric (n : nat) (bits : list bool) : list Z :=
  match n with
  | O => []
  | 1%nat => [bits_val (take 4 bits)]
  | 2%nat => let v := bits_val (take 7 bits) in [v / 10; v mod 10]
  | S (S (S n)) =>
      let v := bits_val (take 10 bits) in
      v / 100 :: v / 10 mod 10 :: v mod 10 :: read_numeric n (drop 10 bits)
  end.

Definition is_digit_val (d : Z) : Prop := 0 ≤ d ≤ 9.

Lemma take_msb n v rest : take n (msb_bits n v ++ rest) = msb_bits n v.
Proof. apply take_app_length'. by rewrite length_msb_bits. Qed.
Lemma drop_msb n v rest : drop n (msb_bits n v ++ rest) = rest.
Proof. apply drop_app_length'. by rewrite length_msb_bits. Qed.

Lemma read_numeric_bits ds rest :
  Forall is_digit_val ds →
  read_numeric (length ds) (numeric_bits ds ++ rest) = ds.
Proof.
  unfold is_digit_val.
  induction ds as [|a|a b|a b c ds IH] using list_ind3; intros H.
  - done.
  - apply Forall_cons in H as [Ha _]. simpl. rewrite take_msb.
    rewrite bits_val_msb_bits; [done|]. simpl; lia.
  - apply Forall_cons in H as [Ha [Hb _]%Forall_cons]. simpl.
    rewrite take_msb. rewrite bits_val_msb_bits by (simpl; lia).
    repeat f_equal; Z.to_euclidean_division_equations; lia.
  - apply Forall_cons in H as [Ha H]. apply Forall_cons in H as [Hb H].
    apply Forall_cons in H as [Hc H]. simpl.
    rewrite <-app_assoc, take_msb, drop_msb, IH by done.
    rewrite bits_val_msb_bits by (simpl; lia).
    repeat f_equal; Z.to_euclidean_division_equations; lia.
Qed.

(** A character of the text, as the loops test it. *)
Definition is_digit_char (c : Z) : Prop := chr_0 ≤ c ≤ chr_9.
Definition digit_val (c : Z) : Z := c - chr_0.

Lemma isNumeric_spec text : isNumeric text = true ↔ Forall is_digit_char text.
Proof.
  unfold isNumeric, is_digit_char. rewrite forallb_Forall, !Forall_forall.
  apply forall_proper; intros c.
  destruct (c <? chr_0) eqn:?, (chr_9 <? c) eqn:?; zbool; simpl; intuition (lia || done).
Qed.

(** The code that follows the loop, before the segment is built. *)
Definition numeric_finish (st : accum) : outcome (list bool) :=
  if 0 <? accumCount st
  then appendBits (acc_bb st) (u32 (accumData st)) (accumCount st * 3 + 1)
  else Ok (acc_bb st).

Lemma numeric_step_digit bb d k n c :
  is_digit_char c → 0 ≤ k → k ≠ 2 → in_int (n + 1) →
  numeric_step {| acc_bb := bb; accumData := d; accumCount := k; charCount := n |} c =
  Ok {| acc_bb := bb; accumData := d * 10 + digit_val c; accumCount := k + 1;
        charCount := n + 1 |}.
Proof.
  unfold is_digit_char, digit_val. intros Hc Hk Hk2 Hn. unfold numeric_step; cbn.
  rewrite !(proj2 (Z.ltb_ge _ _)) by lia. simpl. if_false.
  by rewrite iadd_Ok by done.
Qed.

Lemma numeric_step_third bb d n c :
  is_digit_char c → 0 ≤ d ≤ 99 → in_int (n + 1) →
  numeric_step {| acc_bb := bb; accumData := d; accumCount := 2; charCount := n |} c =
  Ok {| acc_bb := bb ++ msb_bits 10 (d * 10 + digit_val c); accumData := 0;
        accumCount := 0; charCount := n + 1 |}.
Proof.
  unfold is_digit_char, digit_val, chr_0, chr_9. intros Hc Hd Hn.
  unfold numeric_step, chr_0, chr_9; cbn.
  rewrite !(proj2 (Z.ltb_ge _ _)) by lia. simpl.
  rewrite u32_small by (unfold two32; lia).
  rewrite appendBits_Ok by lia. simpl. by rewrite iadd_Ok by done.
Qed.

(** The loop and the code after it emit the reference bits and count the
    characters. *)
Lemma numeric_loop cs : ∀ bb n,
  Forall is_digit_char cs → 0 ≤ n → n + Z.of_nat (length cs) ≤ INT_MAX →
  ∃ st,
    ofold numeric_step
      {| acc_bb := bb; accumData := 0; accumCount := 0; charCount := n |} cs = Ok st ∧
    numeric_finish st = Ok (bb ++ numeric_bits (digit_val <$> cs)) ∧
    charCount st = n + Z.of_nat (length cs).
Proof.
  induction cs as [|a|a b|a b c cs IH] using list_ind3; intros bb n H Hn Hmax;
    rewrite ?Forall_cons in H; destruct_and?; simpl length in Hmax;
    unfold INT_MAX in *; simpl ofold;
    repeat (rewrite numeric_step_digit by (done || unfold in_int, INT_MIN, INT_MAX; lia);
            simpl).
  - eexists. split_and!; [done| |simpl; lia]. unfold numeric_finish; simpl.
    by rewrite app_nil_r.
  - eexists. split_and!; [done| |simpl; lia]. unfold numeric_finish; simpl.
    unfold is_digit_char, digit_val, chr_0, chr_9 in *.
    rewrite u32_small, appendBits_Ok by (unfold two32; lia). done.
  - eexists. split_and!; [done| |simpl; lia]. unfold numeric_finish; simpl.
    unfold is_digit_char, digit_val, chr_0, chr_9 in *.
    rewrite u32_small, appendBits_Ok by (unfold two32; lia). simpl.
    do 3 f_equal. lia.
  - rewrite numeric_step_third by (done ||
      unfold is_digit_char, digit_val, chr_0, chr_9, in_int, INT_MIN, INT_MAX in *; lia).
    simpl. destruct (IH (bb ++ msb_bits 10 (((0 * 10 + digit_val a) * 10 + digit_val b) * 10
      + digit_val c)) (n + 1 + 1 + 1)) as (st & -> & Hf & Hc); [done|lia|lia|].
    exists st. split_and!; [done| |rewrite Hc; lia].
    rewrite Hf, <-app_assoc. do 4 f_equal. lia.
Qed.

Lemma makeNumeric_Ok text :
  Forall is_digit_char text → Z.of_nat (length text) ≤ INT_MAX →
  makeNumeric text =
  Ok {| seg_mode := NUMERIC; numChars := Z.of_nat (length text);
        seg_data := numeric_bits (digit_val <$> text) |}.
Proof.
  intros H Hmax. destruct (numeric_loop text [] 0) as (st & Hst & Hf & Hc); [done|lia|lia|].
  unfold makeNumeric, accum0. rewrite Hst. simpl.
  fold (numeric_finish st). rewrite Hf. simpl. unfold mkSegment. rewrite Hc.
  by if_false.
Qed.

(** ** Alphanumeric mode *)
Definition alnum_val (c : Z) : Z := default 0 (strchr ALPHANUMERIC_CHARSET c).
Definition alnum_chr (v : Z) : Z := default 0 (ALPHANUMERIC_CHARSET !! Z.to_nat v).
Definition is_alnum_char (c : Z) : Prop := is_Some (strchr ALPHANUMERIC_CHARSET c).

Lemma strchr_Some cs c i :
  strchr cs c = Some i → 0 ≤ i < Z.of_nat (length cs) ∧ cs !! Z.to_nat i = Some c.
Proof.
  revert i. induction cs as [|d cs IH]; intros i; simpl; [done|].
  destruct (c =? d) eqn:E; zbool.
  - intros [= <-]. subst. simpl. split; [lia|done].
  - intros (j & Hj & ->)%fmap_Some. destruct (IH _ Hj) as [Hr Hl].
    split; [lia|]. by rewrite Z2Nat.inj_succ by lia.
Qed.

Lemma alnum_val_spec c :
  is_alnum_char c →
  strchr ALPHANUMERIC_CHARSET c = Some (alnum_val c) ∧ 0 ≤ alnum_val c < 45 ∧
  alnum_chr (alnum_val c) = c.
Proof.
  intros [i Hi].
  assert (alnum_val c = i) as -> by (unfold alnum_val; by rewrite Hi).
  apply strchr_Some in Hi as Hs. destruct Hs as [Hr Hl].
  split; [done|]. split; [exact Hr|]. unfold alnum_chr. by rewrite Hl.
Qed.

Lemma isAlphanumeric_spec text : isAlphanumeric text = true ↔ Forall is_alnum_char text.
Proof.
  unfold isAlphanumeric. rewrite forallb_Forall, !Forall_forall.
  apply forall_proper; intros c. by rewrite bool_decide_eq_true.
Qed.

(** Eleven bits per pair of characters, six for a last one. *)
Fixpoint alnum_bits (vs : list Z) : list bool :=
  match vs with
  | a :: b :: rest => msb_bits 11 (45 * a + b) ++ alnum_bits rest
  | [a] => msb_bits 6 a
  | [] => []
  end.

Fixpoint read_alnum (n : nat) (bits : list bool) : list Z :=
  match n with
  | O => []
  | 1%nat => [bits_val (take 6 bits)]
  | S (S n) =>
      let v := bits_val (take 11 bits) in
      v / 45 :: v mod 45 :: read_alnum n (drop 11 bits)
  end.

Lemma read_alnum_bits vs rest :
  Forall (λ v, 0 ≤ v < 45) vs →
  read_alnum (length vs) (alnum_bits vs ++ rest) = vs.
Proof.
  induction vs as [|a|a b vs IH] using list_ind2; intros H; rewrite ?Forall_cons in H;
    destruct_and?; simpl; [done| |].
  - rewrite take_msb, bits_val_msb_bits by (simpl; lia). done.
  - rewrite <-app_assoc, take_msb, drop_msb, IH by done.
    rewrite bits_val_msb_bits by (simpl; lia).
    repeat f_equal; Z.to_euclidean_division_equations; lia.
Qed.

Definition alnum_finish (st : accum) : outcome (list bool) :=
  if 0 <? accumCount st
  then appendBits (acc_bb st) (u32 (accumData st)) 6 else Ok (acc_bb st).

Lemma alnum_step_first bb n c :
  is_alnum_char c → in_int (n + 1) →
  alphanumeric_step {| acc_bb := bb; accumData := 0; accumCount := 0; charCount := n |} c =
  Ok {| acc_bb := bb; accumData := alnum_val c; accumCount := 1; charCount := n + 1 |}.
Proof.
  intros (Hs & _ & _)%alnum_val_spec Hn. unfold alphanumeric_step. rewrite Hs.
  cbn -[iadd alnum_val]. by rewrite iadd_Ok.
Qed.

Lemma alnum_step_second bb d n c :
  is_alnum_char c → 0 ≤ d < 45 → in_int (n + 1) →
  alphanumeric_step {| acc_bb := bb; accumData := d; accumCount := 1; charCount := n |} c =
  Ok {| acc_bb := bb ++ msb_bits 11 (d * 45 + alnum_val c); accumData := 0;
        accumCount := 0; charCount := n + 1 |}.
Proof.
  intros (Hs & Hr & _)%alnum_val_spec Hd Hn. unfold alphanumeric_step. rewrite Hs.
  cbn -[iadd appendBits u32 alnum_val]. rewrite u32_small by (unfold two32; lia).
  rewrite appendBits_Ok by lia. cbn -[iadd alnum_val]. by rewrite iadd_Ok.
Qed.

Lemma alnum_loop cs : ∀ bb n,
  Forall is_alnum_char cs → 0 ≤ n → n + Z.of_nat (length cs) ≤ INT_MAX →
  ∃ st,
    ofold alphanumeric_step
      {| acc_bb := bb; accumData := 0; accumCount := 0; charCount := n |} cs = Ok st ∧
    alnum_finish st = Ok (bb ++ alnum_bits (alnum_val <$> cs)) ∧
    charCount st = n + Z.of_nat (length cs).
Proof.
  induction cs as [|a|a b cs IH] using list_ind2; intros bb n H Hn Hmax;
    rewrite ?Forall_cons in H; destruct_and?; simpl length in Hmax;
    unfold INT_MAX in *; cbn [ofold];
    try (rewrite alnum_step_first by (done || unfold in_int, INT_MIN, INT_MAX; lia);
         cbn [mbind outcome_bind ofold]).
  - eexists. split_and!; [done| |simpl; lia]. unfold alnum_finish; simpl.
    by rewrite app_nil_r.
  - eexists. split_and!; [done| |simpl; lia]. unfold alnum_finish; simpl.
    destruct (alnum_val_spec a) as (_ & ? & _); [done|].
    rewrite u32_small, appendBits_Ok by (unfold two32; lia). done.
  - destruct (alnum_val_spec a) as (_ & ? & _); [done|].
    rewrite alnum_step_second by (done || lia || unfold in_int, INT_MIN, INT_MAX; lia).
    cbn [mbind outcome_bind].
    destruct (IH (bb ++ msb_bits 11 (alnum_val a * 45 + alnum_val b)) (n + 1 + 1))
      as (st & -> & Hf & Hc); [done|lia|lia|].
    exists st. split_and!; [done| |rewrite Hc; simpl; lia].
    rewrite Hf, <-app_assoc. cbn [fmap list_fmap alnum_bits]. do 4 f_equal. lia.
Qed.

Lemma makeAlphanumeric_Ok text :
  Forall is_alnum_char text → Z.of_nat (length text) ≤ INT_MAX →
  makeAlphanumeric text =
  Ok {| seg_mode := ALPHANUMERIC; numChars := Z.of_nat (length text);
        seg_data := alnum_bits (alnum_val <$> text) |}.
Proof.
  intros H Hmax. destruct (alnum_loop text [] 0) as (st & Hst & Hf & Hc); [done|lia|lia|].
  unfold makeAlphanumeric, accum0. rewrite Hst. simpl.
  fold (alnum_finish st). rewrite Hf. simpl. unfold mkSegment. rewrite Hc.
  by if_false.
Qed.

(** ** Byte mode *)
Definition byte_bits (data : list Z) : list bool := data ≫= msb_bits 8.

Lemma byte_bits_cons b data : byte_bits (b :: data) = msb_bits 8 b ++ byte_bits data.
Proof. done. Qed.

Fixpoint read_bytes (n : nat) (bits : list bool) : list Z :=
  match n with
  | O => []
  | S n => bits_val (take 8 bits) :: read_bytes n (drop 8 bits)
  end.

Definition is_byte (b : Z) : Prop := 0 ≤ b < 256.

Lemma read_bytes_bits data rest :
  Forall is_byte data → read_bytes (length data) (byte_bits data ++ rest) = data.
Proof.
  unfold is_byte. induction data as [|b data IH]; intros H; [done|].
  apply Forall_cons in H as [Hb H]. rewrite byte_bits_cons. simpl.
  rewrite <-app_assoc, take_msb, drop_msb, IH by done.
  by rewrite bits_val_msb_bits by (simpl; lia).
Qed.

Lemma length_byte_bits data : length (byte_bits data) = (8 * length data)%nat.
Proof.
  induction data as [|b data IH]; [done|]. rewrite byte_bits_cons. simpl.
  rewrite length_app, length_msb_bits, IH. lia.
Qed.

Lemma byte_loop data bb :
  Forall is_byte data →
  ofold (λ bb b, appendBits bb b 8) bb data = Ok (bb ++ byte_bits data).
Proof.
  unfold is_byte. revert bb. induction data as [|b data IH]; intros bb H; cbn [ofold].
  - unfold byte_bits; simpl. by rewrite app_nil_r.
  - rewrite byte_bits_cons. apply Forall_cons in H as [Hb H]. rewrite appendBits_Ok by lia. simpl.
    rewrite IH by done. by rewrite <-app_assoc.
Qed.

Lemma makeBytes_Ok data :
  Forall is_byte data → Z.of_nat (length data) ≤ INT_MAX →
  makeBytes data =
  Ok {| seg_mode := BYTE; numChars := Z.of_nat (length data);
        seg_data := byte_bits data |}.
Proof.
  intros H Hmax. unfold makeBytes. if_false. rewrite byte_loop by done. simpl.
  unfold mkSegment. rewrite i32_small by (unfold in_int, INT_MIN; lia). by if_false.
Qed.

(** ** Reading a segment back *)

(** The characters a reader of the segment recovers, from its mode, its
    character count and its bits. *)
Definition read_segment (s : QrSegment) : list Z :=
  let n := Z.to_nat (numChars s) in
  if decide (seg_mode s = NUMERIC) then (λ d, d + chr_0) <$> read_numeric n (seg_data s)
  else if decide (seg_mode s = ALPHANUMERIC) then alnum_chr <$> read_alnum n (seg_data s)
  else read_bytes n (seg_data s).

(** A segment the encoders build: a mode with its three count widths, a count
    that fits [int]. *)
Record segment_wf (s : QrSegment) : Prop := {
  swf_mode : length (numBitsCharCount (seg_mode s)) = 3%nat;
  swf_bits : 0 ≤ modeBits (seg_mode s) < 16;
  swf_count : Forall (λ n, 0 ≤ n ≤ 16) (numBitsCharCount (seg_mode s));
  swf_chars : 0 ≤ numChars s;
}.

Lemma mk_segment_wf m n d :
  m ∈ [NUMERIC; ALPHANUMERIC; BYTE; KANJI; ECI] → 0 ≤ n →
  segment_wf {| seg_mode := m; numChars := n; seg_data := d |}.
Proof.
  intros Hm Hn. split; simpl; [..|done];
  repeat (apply elem_of_cons in Hm as [->|Hm]; [simpl; repeat constructor; lia|]);
  by apply elem_of_nil in Hm.
Qed.

Lemma read_numeric_segment text :
  Forall is_digit_char text →
  read_segment {| seg_mode := NUMERIC; numChars := Z.of_nat (length text);
    seg_data := numeric_bits (digit_val <$> text) |} = text.
Proof.
  intros H. unfold read_segment. cbn -[numeric_bits read_numeric]. rewrite Nat2Z.id.
  rewrite decide_True by done. rewrite <-(app_nil_r (numeric_bits _)).
  rewrite <-(length_fmap digit_val text), read_numeric_bits.
  - rewrite <-list_fmap_compose. rewrite <-(list_fmap_id text) at 2.
    apply list_fmap_ext. intros i x _. unfold digit_val; simpl. lia.
  - apply Forall_fmap. eapply Forall_impl; [done|].
    unfold is_digit_char, is_digit_val, digit_val, chr_0, chr_9; simpl; lia.
Qed.

Lemma read_alnum_segment text :
  Forall is_alnum_char text →
  read_segment {| seg_mode := ALPHANUMERIC; numChars := Z.of_nat (length text);
    seg_data := alnum_bits (alnum_val <$> text) |} = text.
Proof.
  intros H. unfold read_segment. cbn [seg_mode seg_data numChars]. rewrite Nat2Z.id.
  rewrite decide_False by done. rewrite decide_True by done.
  rewrite <-(app_nil_r (alnum_bits _)).
  rewrite <-(length_fmap alnum_val text), read_alnum_bits.
  - rewrite <-list_fmap_compose. rewrite <-(list_fmap_id text) at 2.
    apply list_fmap_ext. intros i x Hx. unfold compose.
    apply alnum_val_spec. eapply Forall_lookup_1; done.
  - apply Forall_fmap. eapply Forall_impl; [done|]. intros x Hx.
    unfold compose. by apply alnum_val_spec.
Qed.

Lemma read_byte_segment text :
  Forall is_byte text →
  read_segment {| seg_mode := BYTE; numChars := Z.of_nat (length text);
    seg_data := byte_bits text |} = text.
Proof.
  intros H. unfold read_segment. cbn [seg_mode seg_data numChars]. rewrite Nat2Z.id.
  rewrite !decide_False by done. rewrite <-(app_nil_r (byte_bits _)).
  by apply read_bytes_bits.
Qed.

(** [makeSegments] on any C string: it returns, the segment is well formed and
    reading it back gives the text. *)
Lemma makeSegments_read text :
  Forall is_byte text → Z.of_nat (length text) ≤ INT_MAX →
  ∃ segs, makeSegments text = Ok segs ∧ Forall segment_wf segs ∧
    segs ≫= read_segment = text.
Proof.
  intros Hb Hmax. unfold makeSegments. destruct (decide (text = [])) as [->|Hne].
  { by exists []. }
  destruct (isNumeric text) eqn:Hn; [|destruct (isAlphanumeric text) eqn:Ha].
  - apply isNumeric_spec in Hn. rewrite makeNumeric_Ok by done. simpl.
    eexists; split_and!; [done| |].
    + apply Forall_singleton, mk_segment_wf; [set_solver|lia].
    + cbn [mbind list_bind]. by rewrite read_numeric_segment, app_nil_r.
  - apply isAlphanumeric_spec in Ha. rewrite makeAlphanumeric_Ok by done. simpl.
    eexists; split_and!; [done| |].
    + apply Forall_singleton, mk_segment_wf; [set_solver|lia].
    + cbn [mbind list_bind]. by rewrite read_alnum_segment, app_nil_r.
  - assert (Hu : u8 <$> text = text).
    { rewrite <-(list_fmap_id text) at 2. apply list_fmap_ext. intros i x Hx.
      apply u8_small. by eapply Forall_lookup_1 in Hx; [|exact Hb]. }
    rewrite Hu, makeBytes_Ok by done. simpl. eexists; split_and!; [done| |].
    + apply Forall_singleton, mk_segment_wf; [set_solver|lia].
    + cbn [mbind list_bind]. by rewrite read_byte_segment, app_nil_r.
Qed.
