(* ===== verification/QrEncode.v ===== *)
(** * From segments to data codewords ([lib/qrcodegen/qrcodegen.cpp],
    [QrCode::encodeSegments] up to the constructor call, the capacity
    functions and the tables of constants) *)
From S2P Require Import Prelude QrSegment.

(** ** Error correction levels *)
Inductive Ecc := LOW | MEDIUM | QUARTILE | HIGH.

#[global] Instance Ecc_eq_dec : EqDecision Ecc.
Proof. solve_decision. Defined.

(** [static_cast<int>(ecl)] *)
Definition ecc_index (e : Ecc) : nat :=
  match e with LOW => 0 | MEDIUM => 1 | QUARTILE => 2 | HIGH => 3 end%nat.

(** The [default] case of the switch, a [logic_error], is unreachable: an
    [Ecc] is one of the four enumerators. *)
Definition getFormatBits (ecl : Ecc) : Z :=
  match ecl with LOW => 1 | MEDIUM => 0 | QUARTILE => 3 | HIGH => 2 end.

Definition MIN_VERSION : Z := 1.
Definition MAX_VERSION : Z := 40.

(** ** Tables *)
Definition ECC_CODEWORDS_PER_BLOCK : list (list Z) := [
  [-1; 7; 10; 15; 20; 26; 18; 20; 24; 30; 18; 20; 24; 26;
   30; 22; 24; 28; 30; 28; 28; 28; 28; 30; 30; 26; 28; 30;
   30; 30; 30; 30; 30; 30; 30; 30; 30; 30; 30; 30; 30];
  [-1; 10; 16; 26; 18; 24; 16; 18; 22; 22; 26; 30; 22; 22;
   24; 24; 28; 28; 26; 26; 26; 26; 28; 28; 28; 28; 28; 28;
   28; 28; 28; 28; 28; 28; 28; 28; 28; 28; 28; 28; 28];
  [-1; 13; 22; 18; 26; 18; 24; 18; 22; 20; 24; 28; 26; 24;
   20; 30; 24; 28; 28; 26; 30; 28; 30; 30; 30; 30; 28; 30;
   30; 30; 30; 30; 30; 30; 30; 30; 30; 30; 30; 30; 30];
  [-1; 17; 28; 22; 16; 22; 28; 26; 26; 24; 28; 24; 28; 22;
   24; 24; 30; 28; 28; 26; 28; 30; 24; 30; 30; 30; 30; 30;
   30; 30; 30; 30; 30; 30; 30; 30; 30; 30; 30; 30; 30]].

Definition NUM_ERROR_CORRECTION_BLOCKS : list (list Z) := [
  [-1; 1; 1; 1; 1; 1; 2; 2; 2; 2; 4; 4; 4; 4;
   4; 6; 6; 6; 6; 7; 8; 8; 9; 9; 10; 12; 12; 12;
   13; 14; 15; 16; 17; 18; 19; 19; 20; 21; 22; 24; 25];
  [-1; 1; 1; 1; 2; 2; 4; 4; 4; 5; 5; 5; 8; 9;
   9; 10; 10; 11; 13; 14; 16; 17; 17; 18; 20; 21; 23; 25;
   26; 28; 29; 31; 33; 35; 37; 38; 40; 43; 45; 47; 49];
  [-1; 1; 1; 2; 2; 4; 4; 6; 6; 8; 8; 8; 10; 12;
   16; 12; 17; 16; 18; 21; 20; 23; 23; 25; 27; 29; 34; 34;
   35; 38; 40; 43; 45; 48; 51; 53; 56; 59; 62; 65; 68];
  [-1; 1; 1; 2; 4; 4; 4; 5; 6; 8; 8; 11; 11; 16;
   16; 18; 16; 19; 21; 25; 25; 25; 34; 30; 32; 35; 37; 40;
   42; 45; 48; 51; 54; 57; 60; 63; 66; 70; 74; 77; 81]].

(** [T[ecl][ver]]; an index outside the C array is undefined. *)
Definition table_at (T : list (list Z)) (ecl : Ecc) (ver : Z) : outcome Z :=
  if ver <? 0 then ub
  else row ← deref (T !! ecc_index ecl); deref (row !! Z.to_nat ver).

(** ** Capacity *)
Definition getNumRawDataModules (ver : Z) : outcome Z :=
  if (ver <? MIN_VERSION) || (MAX_VERSION <? ver) then throw domain_error
  else
    let result := (16 * ver + 128) * ver + 64 in
    let result :=
      if 2 <=? ver then
        let numAlign := Z.quot ver 7 + 2 in
        let result := result - ((25 * numAlign - 10) * numAlign - 55) in
        if 7 <=? ver then result - 36 else result
      else result in
    _ ← cassert ((208 <=? result) && (result <=? 29648));
    Ok result.

Definition getNumDataCodewords (ver : Z) (ecl : Ecc) : outcome Z :=
  raw ← getNumRawDataModules ver;
  perBlock ← table_at ECC_CODEWORDS_PER_BLOCK ecl ver;
  blocks ← table_at NUM_ERROR_CORRECTION_BLOCKS ecl ver;
  Ok (Z.quot raw 8 - perBlock * blocks).

(** ** [QrCode::encodeSegments] *)

(** The loop that finds the minimal version; [fuel] bounds its iterations and
    is [maxVersion - minVersion] at the start, so it never runs out. *)
Fixpoint find_version (fuel : nat) (segs : list QrSegment) (ecl : Ecc)
    (version maxVersion : Z) : outcome (Z * Z) :=
  cap ← getNumDataCodewords version ecl;
  let dataCapacityBits := cap * 8 in
  dataUsedBits ← getTotalBits segs version;
  if negb (dataUsedBits =? -1) && (dataUsedBits <=? dataCapacityBits)
  then Ok (version, dataUsedBits)
  else if maxVersion <=? version then throw data_too_long
  else match fuel with
       | O => ub
       | S fuel => find_version fuel segs ecl (version + 1) maxVersion
       end.

(** Raises the level while the data still fits the chosen version. *)
Definition boost (boostEcl : bool) (version dataUsedBits : Z) (ecl : Ecc)
    : outcome Ecc :=
  ofold (λ ecl newEcl,
    if boostEcl then
      cap ← getNumDataCodewords version newEcl;
      Ok (if dataUsedBits <=? cap * 8 then newEcl else ecl)
    else Ok ecl) ecl [MEDIUM; QUARTILE; HIGH].

(** Mode indicator, character count and data of one segment. *)
Definition append_segment (version : Z) (bb : list bool) (seg : QrSegment)
    : outcome (list bool) :=
  bb ← appendBits bb (u32 (modeBits (seg_mode seg))) 4;
  cc ← numCharCountBits (seg_mode seg) version;
  bb ← appendBits bb (u32 (numChars seg)) cc;
  Ok (bb ++ seg_data seg).

(** The loop that appends [0xEC], [0x11], [0xEC], ... up to the capacity. *)
Fixpoint pad_loop (fuel : nat) (padByte cap : Z) (bb : list bool)
    : outcome (list bool) :=
  if Z.of_nat (length bb) <? cap then
    match fuel with
    | O => ub
    | S fuel =>
        bb ← appendBits bb padByte 8;
        pad_loop fuel (Z.lxor padByte (Z.lxor 0xEC 0x11)) cap bb
    end
  else Ok bb.

(** [v.at(i) |= x] *)
Definition or_at (v : list Z) (i : nat) (x : Z) : outcome (list Z) :=
  match v !! i with
  | Some y => Ok (<[i := Z.lor y x]> v)
  | None => throw out_of_range
  end.

(** Packs the bits into bytes, big endian. *)
Definition pack_bits (bb : list bool) : outcome (list Z) :=
  ofold (λ v '(i, b), or_at v (i / 8)%nat
           (Z.shiftl (Z.b2z b) (7 - Z.land (Z.of_nat i) 7)))
    (replicate (length bb / 8)%nat 0) (imap pair bb).

Definition encodeSegments_data (segs : list QrSegment) (ecl : Ecc)
    (minVersion maxVersion mask : Z) (boostEcl : bool)
    : outcome (Z * Ecc * list Z) :=
  if negb ((MIN_VERSION <=? minVersion) && (minVersion <=? maxVersion)
           && (maxVersion <=? MAX_VERSION)) || (mask <? -1) || (7 <? mask)
  then throw invalid_argument
  else
    '(version, dataUsedBits) ←
      find_version (Z.to_nat (maxVersion - minVersion)) segs ecl minVersion maxVersion;
    _ ← cassert (negb (dataUsedBits =? -1));
    ecl ← boost boostEcl version dataUsedBits ecl;
    bb ← ofold (append_segment version) [] segs;
    _ ← cassert (Z.of_nat (length bb) =? dataUsedBits);
    cap ← getNumDataCodewords version ecl;
    let dataCapacityBits := cap * 8 in
    _ ← cassert (Z.of_nat (length bb) <=? dataCapacityBits);
    bb ← appendBits bb 0 (Z.min 4 (dataCapacityBits - Z.of_nat (length bb)));
    bb ← appendBits bb 0 ((8 - Z.of_nat (length bb) mod 8) mod 8);
    _ ← cassert (Z.of_nat (length bb) mod 8 =? 0);
    bb ← pad_loop (Z.to_nat cap) 0xEC dataCapacityBits bb;
    dataCodewords ← pack_bits bb;
    Ok (version, ecl, dataCodewords).

Example encode_ex :
  (segs ← makeSegments (string_codes "01234567");
   encodeSegments_data segs QUARTILE 1 40 (-1) true) =
  Ok (1, HIGH, [16; 32; 12; 86; 97; 128; 236; 17; 236]).
Proof. vm_compute. reflexivity. Qed.
