(* ===== verification/QrEncodeFacts.v ===== *)
(** * Correctness of [encodeSegments]: capacity, version choice, level boost,
    and a reader that recovers the text from the data codewords. *)
From S2P Require Import Prelude QrSegment QrSegmentFacts QrEncode.

(** ** Checks over the forty versions *)
Definition versions : list Z := seqZ 1 40.
Definition levels : list Ecc := [LOW; MEDIUM; QUARTILE; HIGH].

Lemma elem_of_versions v : v ∈ versions ↔ 1 ≤ v ≤ 40.
Proof. unfold versions. rewrite elem_of_seqZ. lia. Qed.
Lemma elem_of_levels e : e ∈ levels.
Proof. destruct e; unfold levels; set_solver. Qed.

(** A property of every version and level, from one computation. *)
Lemma forall_versions_levels (P : Z → Ecc → bool) :
  forallb (λ v, forallb (P v) levels) versions = true →
  ∀ v e, 1 ≤ v ≤ 40 → P v e = true.
Proof.
  rewrite forallb_Forall, Forall_forall. intros H v e Hv%elem_of_versions.
  specialize (H v Hv). rewrite forallb_Forall, Forall_forall in H.
  apply H, elem_of_levels.
Qed.

Lemma forall_versions (P : Z → bool) :
  forallb P versions = true → ∀ v, 1 ≤ v ≤ 40 → P v = true.
Proof.
  rewrite forallb_Forall, Forall_forall. intros H v Hv%elem_of_versions. auto.
Qed.

(** ** Capacity *)
Definition from_outcome {A} (d : A) (m : outcome A) : A :=
  match m with Ok a => a | Fault _ => d end.
Definition is_Ok {A} (m : outcome A) : bool :=
  match m with Ok _ => true | Fault _ => false end.
Lemma is_Ok_from {A} (d : A) m : is_Ok m = true → m = Ok (from_outcome d m).
Proof. by destruct m. Qed.

(** The capacity in codewords as a plain number. *)
Definition capacity (v : Z) (e : Ecc) : Z := from_outcome 0 (getNumDataCodewords v e).
Definition rawModules (v : Z) : Z := from_outcome 0 (getNumRawDataModules v).

Definition capacity_check (v : Z) (e : Ecc) : bool :=
  is_Ok (getNumDataCodewords v e) && (0 <? capacity v e) && (capacity v e <=? 2956)
  && (capacity v HIGH <=? capacity v QUARTILE)
  && (capacity v QUARTILE <=? capacity v MEDIUM)
  && (capacity v MEDIUM <=? capacity v LOW).

Lemma capacity_checked v e : 1 ≤ v ≤ 40 → capacity_check v e = true.
Proof. apply forall_versions_levels. vm_compute. reflexivity. Qed.

Lemma getNumDataCodewords_Ok v e :
  1 ≤ v ≤ 40 → getNumDataCodewords v e = Ok (capacity v e) ∧ 0 < capacity v e ≤ 2956.
Proof.
  intros Hv. pose proof (capacity_checked v e Hv) as H. unfold capacity_check in H.
  zbool. split; [by apply is_Ok_from|lia].
Qed.

Lemma capacity_antitone v :
  1 ≤ v ≤ 40 →
  capacity v HIGH ≤ capacity v QUARTILE ≤ capacity v MEDIUM ∧
  capacity v MEDIUM ≤ capacity v LOW.
Proof.
  intros Hv. pose proof (capacity_checked v LOW Hv) as H. unfold capacity_check in H.
  zbool. lia.
Qed.

(** ** Bits used by a list of segments *)
Definition count_bits (m : Mode) (v : Z) : Z := from_outcome 0 (numCharCountBits m v).

Lemma numCharCountBits_Ok s v :
  segment_wf s → 1 ≤ v ≤ 40 →
  numCharCountBits (seg_mode s) v = Ok (count_bits (seg_mode s) v) ∧
  0 ≤ count_bits (seg_mode s) v ≤ 16.
Proof.
  intros [Hm _ Hc _] Hv. unfold count_bits, numCharCountBits.
  destruct (seg_mode s) as [mb cs]; simpl in *.
  rewrite Z.quot_div_nonneg by lia.
  assert (Hi : 0 ≤ (v + 7) / 17 ≤ 2) by (Z.to_euclidean_division_equations; lia).
  if_false.
  destruct (lookup_lt_is_Some_2 cs (Z.to_nat ((v + 7) / 17))) as [n Hn]; [lia|].
  rewrite Hn. simpl. split; [done|]. by eapply Forall_lookup_1 in Hc.
Qed.

Definition seg_fits (v : Z) (s : QrSegment) : Prop :=
  numChars s < 2 ^ count_bits (seg_mode s) v.
Definition seg_bits (v : Z) (s : QrSegment) : Z :=
  4 + count_bits (seg_mode s) v + Z.of_nat (length (seg_data s)).
Definition total_bits (v : Z) (segs : list QrSegment) : Z :=
  foldr (λ s n, seg_bits v s + n) 0 segs.

#[global] Instance seg_fits_dec v s : Decision (seg_fits v s).
Proof. unfold seg_fits. apply _. Defined.

Lemma total_bits_nonneg v segs :
  Forall segment_wf segs → 1 ≤ v ≤ 40 → 0 ≤ total_bits v segs.
Proof.
  intros H Hv. induction H as [|s segs Hs _ IH]; simpl; [lia|].
  destruct (numCharCountBits_Ok s v) as [_ ?]; [done..|]. unfold seg_bits. lia.
Qed.

Lemma getTotalBits_from_spec v segs r :
  Forall segment_wf segs → 1 ≤ v ≤ 40 → 0 ≤ r ≤ INT_MAX →
  getTotalBits_from r segs v =
  Ok (if decide (Forall (seg_fits v) segs ∧ r + total_bits v segs ≤ INT_MAX)
      then r + total_bits v segs else -1).
Proof.
  intros H Hv. revert r. induction H as [|s segs Hs Hsegs IH]; intros r Hr; simpl.
  { rewrite decide_True; [f_equal; lia|]. split; [constructor|lia]. }
  destruct (numCharCountBits_Ok s v) as [Hcc ?]; [done..|]. rewrite Hcc; simpl.
  pose proof (total_bits_nonneg v segs Hsegs Hv). fold (seg_bits v s).
  rewrite Z.shiftl_mul_pow2, Z.mul_1_l by lia.
  assert (Hsb : seg_bits v s = 4 + count_bits (seg_mode s) v
    + Z.of_nat (length (seg_data s))) by done.
  destruct (_ <=? _) eqn:E1; zbool.
  { rewrite decide_False; [done|]. rewrite Forall_cons. unfold seg_fits. lia. }
  destruct (_ <? _) eqn:E2; zbool; [rewrite decide_False by lia; done|].
  destruct (_ <? Z.of_nat _) eqn:E3; zbool; [rewrite decide_False by lia; done|].
  rewrite IH by lia. f_equal.
  replace (r + (4 + count_bits (seg_mode s) v) + Z.of_nat (length (seg_data s)))
    with (r + seg_bits v s) by lia.
  rewrite <-(Z.add_assoc r (seg_bits v s) (total_bits v segs)).
  apply decide_ext. rewrite Forall_cons. unfold seg_fits at 2. tauto.
Qed.

Lemma getTotalBits_spec v segs :
  Forall segment_wf segs → 1 ≤ v ≤ 40 →
  getTotalBits segs v =
  Ok (if decide (Forall (seg_fits v) segs ∧ total_bits v segs ≤ INT_MAX)
      then total_bits v segs else -1).
Proof.
  intros. unfold getTotalBits.
  by rewrite (getTotalBits_from_spec v segs 0), Z.add_0_l by done.
Qed.

(** ** The version search *)

(** The data fit version [v] at level [e]. *)
Definition fits (segs : list QrSegment) (e : Ecc) (v : Z) : Prop :=
  Forall (seg_fits v) segs ∧ total_bits v segs ≤ capacity v e * 8.

#[global] Instance fits_dec segs e v : Decision (fits segs e v).
Proof. unfold fits. apply _. Defined.

Lemma fits_test segs e v :
  Forall segment_wf segs → 1 ≤ v ≤ 40 →
  ∃ used, getTotalBits segs v = Ok used ∧
    (negb (used =? -1) && (used <=? capacity v e * 8) = bool_decide (fits segs e v)) ∧
    (fits segs e v → used = total_bits v segs).
Proof.
  intros Hs Hv. rewrite getTotalBits_spec by done. eexists. split; [done|].
  pose proof (total_bits_nonneg v segs Hs Hv).
  destruct (getNumDataCodewords_Ok v e Hv) as [_ Hcap]. unfold fits, INT_MAX.
  case_decide as Hd; simpl.
  - split; [|done]. rewrite (proj2 (Z.eqb_neq _ _)) by lia. simpl.
    apply eq_bool_prop_intro. rewrite Is_true_true, Z.leb_le, bool_decide_spec. naive_solver.
  - split; [|intros [? ?]; destruct Hd; split; [done|lia]].
    symmetry. apply bool_decide_eq_false. intros [? ?]. apply Hd. split; [done|lia].
Qed.

Lemma find_version_spec segs e fuel v maxV :
  Forall segment_wf segs → 1 ≤ v → v ≤ maxV ≤ 40 → fuel = Z.to_nat (maxV - v) →
  (∃ v', find_version fuel segs e v maxV = Ok (v', total_bits v' segs) ∧
     v ≤ v' ≤ maxV ∧ fits segs e v' ∧ ∀ w, v ≤ w < v' → ¬ fits segs e w) ∨
  (find_version fuel segs e v maxV = throw data_too_long ∧
     ∀ w, v ≤ w ≤ maxV → ¬ fits segs e w).
Proof.
  intros Hs. revert v. induction fuel as [|fuel IH]; intros v Hv1 Hv Hf.
  all: destruct (getNumDataCodewords_Ok v e) as [Hcap _]; [lia|].
  all: destruct (fits_test segs e v) as (used & Hused & Htest & Heq); [done|lia|].
  all: simpl; rewrite Hcap; simpl; rewrite Hused; simpl; rewrite Htest.
  all: destruct (bool_decide_reflect (fits segs e v)) as [Hfit|Hfit];
    [left; exists v; rewrite Heq by done; split; [done|]; split; [lia|]; split; [done|lia]|].
  - right. rewrite (proj2 (Z.leb_le _ _)) by lia. split; [done|].
    intros w Hw. by replace w with v by lia.
  - rewrite (proj2 (Z.leb_gt _ _)) by lia.
    destruct (IH (v + 1)) as [(v' & H1 & H2 & H3 & H4)|[H1 H2]]; [lia..| |].
    + left. exists v'. split_and!; [done|lia|lia|done|]. intros w Hw.
      destruct (decide (w = v)) as [->|]; [done|]. apply H4; lia.
    + right. split; [done|]. intros w Hw.
      destruct (decide (w = v)) as [->|]; [done|]. apply H2; lia.
Qed.

(** ** The level boost *)
Definition level_rank (e : Ecc) : Z := Z.of_nat (ecc_index e).

Lemma boost_spec b v used e :
  1 ≤ v ≤ 40 → used ≤ capacity v e * 8 →
  ∃ e', boost b v used e = Ok e' ∧ level_rank e ≤ level_rank e' ∧
    used ≤ capacity v e' * 8 ∧
    (b = true → ∀ e'', used ≤ capacity v e'' * 8 → level_rank e'' ≤ level_rank e').
Proof.
  intros Hv Hu. pose proof (capacity_antitone v Hv). unfold boost; simpl.
  destruct b; [|exists e; done].
  rewrite (proj1 (getNumDataCodewords_Ok v MEDIUM Hv)),
    (proj1 (getNumDataCodewords_Ok v QUARTILE Hv)),
    (proj1 (getNumDataCodewords_Ok v HIGH Hv)). simpl.
  destruct (_ <=? capacity v MEDIUM * 8) eqn:?, (_ <=? capacity v QUARTILE * 8) eqn:?,
    (_ <=? capacity v HIGH * 8) eqn:?; zbool; simpl; eexists; (split; [done|]);
    (split; [|split; [|intros _ e'' ?]]);
    try (destruct e''); destruct e; unfold level_rank in *; simpl in *; lia.
Qed.

(** ** Emission of the segments *)
Definition segment_stream (v : Z) (s : QrSegment) : list bool :=
  msb_bits 4 (modeBits (seg_mode s))
  ++ msb_bits (Z.to_nat (count_bits (seg_mode s) v)) (numChars s) ++ seg_data s.

Lemma append_segment_Ok v bb s :
  segment_wf s → 1 ≤ v ≤ 40 → seg_fits v s →
  append_segment v bb s = Ok (bb ++ segment_stream v s).
Proof.
  intros Hs Hv Hf. destruct (numCharCountBits_Ok s v) as [Hcc Hr]; [done..|].
  destruct Hs as [_ Hmb _ Hn]. unfold append_segment, seg_fits in *.
  rewrite (u32_small (modeBits _)) by (unfold two32; lia). rewrite appendBits_Ok by lia. simpl.
  rewrite Hcc. simpl.
  assert (numChars s < two32).
  { eapply Z.lt_le_trans; [done|]. transitivity (2 ^ 16); [|done].
    apply Z.pow_le_mono_r; lia. }
  rewrite u32_small by lia. rewrite appendBits_Ok by lia. simpl.
  by rewrite <-!app_assoc.
Qed.

Lemma append_segments_Ok v segs bb :
  Forall segment_wf segs → 1 ≤ v ≤ 40 → Forall (seg_fits v) segs →
  ofold (append_segment v) bb segs = Ok (bb ++ (segs ≫= segment_stream v)).
Proof.
  intros Hs Hv. revert bb. induction Hs as [|s segs Hs _ IH]; intros bb Hf; cbn [ofold].
  { by rewrite app_nil_r. }
  apply Forall_cons in Hf as [Hf1 Hf]. rewrite append_segment_Ok by done. simpl.
  rewrite IH by done. by rewrite <-app_assoc.
Qed.

Lemma length_segment_stream v s :
  segment_wf s → 1 ≤ v ≤ 40 → Z.of_nat (length (segment_stream v s)) = seg_bits v s.
Proof.
  intros Hs Hv. destruct (numCharCountBits_Ok s v) as [_ Hr]; [done..|].
  unfold segment_stream, seg_bits. rewrite !length_app, !length_msb_bits. lia.
Qed.

Lemma length_segments_stream v segs :
  Forall segment_wf segs → 1 ≤ v ≤ 40 →
  Z.of_nat (length (segs ≫= segment_stream v)) = total_bits v segs.
Proof.
  intros Hs Hv. induction Hs as [|s segs Hs _ IH]; [done|].
  rewrite bind_cons, length_app, Nat2Z.inj_add, IH, length_segment_stream by done. done.
Qed.

(** ** Padding *)

(** The alternating pad bytes [p], [p xor 0xFD], ... *)
Fixpoint pad_bytes (n : nat) (p : Z) : list Z :=
  match n with
  | O => []
  | S n => p :: pad_bytes n (Z.lxor p (Z.lxor 0xEC 0x11))
  end.

Lemma pad_loop_Ok fuel p bb n :
  p ∈ [0xEC; 0x11] → (n ≤ fuel)%nat →
  pad_loop fuel p (Z.of_nat (length bb) + 8 * Z.of_nat n) bb =
  Ok (bb ++ byte_bits (pad_bytes n p)).
Proof.
  revert p bb n. induction fuel as [|fuel IH]; intros p bb [|n] Hp Hf; try lia.
  1,2: simpl; if_false; by rewrite app_nil_r.
  cbn [pad_loop]. if_true.
  rewrite appendBits_Ok by (repeat (apply elem_of_cons in Hp as [->|Hp]; [lia|]);
    by apply elem_of_nil in Hp). cbn [mbind outcome_bind pad_bytes].
  rewrite byte_bits_cons, app_assoc. change (Z.to_nat 8) with 8%nat.
  rewrite <-(IH _ (bb ++ msb_bits 8 p) n) by
    (try lia; repeat (apply elem_of_cons in Hp as [->|Hp]; [set_solver|]);
     by apply elem_of_nil in Hp).
  f_equal. rewrite length_app, length_msb_bits. lia.
Qed.

Lemma length_pad_bytes n p : length (pad_bytes n p) = n.
Proof. revert p; induction n; intros; simpl; auto. Qed.

(** ** Packing *)
Definition pack_step (v : list Z) (ib : nat * bool) : outcome (list Z) :=
  let '(i, b) := ib in
  or_at v (i / 8)%nat (Z.shiftl (Z.b2z b) (7 - Z.land (Z.of_nat i) 7)).

Lemma pack_step_mid dn x rest k b :
  (k < 8)%nat →
  pack_step (dn ++ x :: rest) ((8 * length dn + k)%nat, b) =
  Ok (dn ++ Z.lor x (Z.shiftl (Z.b2z b) (7 - Z.of_nat k)) :: rest).
Proof.
  intros Hk. unfold pack_step, or_at.
  replace ((8 * length dn + k) / 8)%nat with (length dn)
    by (rewrite Nat.mul_comm, Nat.div_add_l, Nat.div_small by lia; lia).
  rewrite list_lookup_middle by done. f_equal.
  assert (Hk7 : Z.land (Z.of_nat (8 * length dn + k)) 7 = Z.of_nat k).
  { change 7 with (Z.ones 3). rewrite Z.land_ones by lia. change (2 ^ 3) with 8.
    symmetry. apply (Z.mod_unique _ _ (Z.of_nat (length dn))); lia. }
  by rewrite Hk7, insert_app_r_alt, Nat.sub_diag by done.
Qed.

(** The byte the eight steps build. *)
Definition or_bits (b : Z) : Z :=
  foldl (λ x k, Z.lor x (Z.shiftl (Z.b2z (Z.testbit b (7 - Z.of_nat k)))
                           (7 - Z.of_nat k))) 0 (seq 0 8).

Lemma or_bits_id b : is_byte b → or_bits b = b.
Proof.
  intros Hb.
  assert (H : forallb (λ b, or_bits b =? b) (seqZ 0 256) = true) by (vm_compute; done).
  rewrite forallb_Forall, Forall_forall in H. apply Z.eqb_eq, H.
  apply elem_of_seqZ. unfold is_byte in Hb. lia.
Qed.

Lemma pack_byte dn b rest l :
  is_byte b →
  ofold pack_step (dn ++ 0 :: rest)
    (imap (λ i b, ((8 * length dn + i)%nat, b)) (msb_bits 8 b) ++ l) =
  ofold pack_step ((dn ++ [b]) ++ rest) l.
Proof.
  intros Hb. rewrite ofold_app. rewrite <-(or_bits_id b Hb) at 2. unfold or_bits.
  change (msb_bits 8 b) with ((λ k : nat, Z.testbit b (7 - Z.of_nat k)) <$> seq 0 8).
  cbn [seq fmap list_fmap imap ofold]. unfold compose.
  do 8 (rewrite pack_step_mid by lia; cbn [mbind outcome_bind]).
  rewrite <-app_assoc. done.
Qed.

Lemma pack_loop bytes dn :
  Forall is_byte bytes →
  ofold pack_step (dn ++ replicate (length bytes) 0)
    (imap (λ i b, ((8 * length dn + i)%nat, b)) (byte_bits bytes)) = Ok (dn ++ bytes).
Proof.
  intros H. revert dn. induction H as [|b bytes Hb _ IH]; intros dn; [done|].
  rewrite byte_bits_cons, imap_app. cbn [length replicate]. rewrite pack_byte by done.
  replace (dn ++ b :: bytes) with ((dn ++ [b]) ++ bytes) by (by rewrite <-app_assoc).
  rewrite <-(IH (dn ++ [b])). f_equal. apply imap_ext. intros i x _.
  unfold compose. rewrite length_msb_bits, length_app. simpl. f_equal. lia.
Qed.

Lemma pack_bits_Ok bytes :
  Forall is_byte bytes → pack_bits (byte_bits bytes) = Ok bytes.
Proof.
  intros H. unfold pack_bits.
  replace (length (byte_bits bytes) / 8)%nat with (length bytes)
    by (rewrite length_byte_bits, Nat.mul_comm, Nat.div_mul by lia; lia).
  etrans; [|exact (pack_loop bytes [] H)]. simpl. f_equal.
Qed.

Lemma bits_val_range l : 0 ≤ bits_val l < 2 ^ Z.of_nat (length l).
Proof.
  induction l as [|b l IH] using rev_ind; [done|].
  rewrite bits_val_snoc, length_app, Nat2Z.inj_add, Z.pow_add_r by lia.
  simpl. change (2 ^ 1) with 2. destruct b; simpl; lia.
Qed.

Lemma msb_bits_val l : msb_bits (length l) (bits_val l) = l.
Proof.
  induction l as [|b l IH] using rev_ind; [done|].
  rewrite length_app, Nat.add_1_r, msb_bits_S, bits_val_snoc.
  rewrite Z.shiftr_div_pow2 by lia. change (2 ^ 1) with 2.
  rewrite Z.mul_comm, Z.div_add_l by lia.
  rewrite Z.div_small by (destruct b; simpl; lia). rewrite Z.add_0_r, IH.
  f_equal. rewrite Z.bit0_odd, Z.add_comm, Z.mul_comm, Z.odd_add_mul_2.
  by destruct b.
Qed.

(** Bits in groups of eight are the bits of bytes. *)
Lemma byte_bits_surj n l :
  length l = (8 * n)%nat →
  ∃ bytes, byte_bits bytes = l ∧ Forall is_byte bytes ∧ length bytes = n.
Proof.
  revert l. induction n as [|n IH]; intros l Hl.
  { exists []. destruct l; [done|simpl in Hl; lia]. }
  destruct (IH (drop 8 l)) as (bytes & Hb & Hf & Hn); [rewrite length_drop; lia|].
  exists (bits_val (take 8 l) :: bytes).
  assert (H8 : length (take 8 l) = 8%nat) by (rewrite length_take; lia).
  split_and!; [|constructor; [|done]|simpl; lia].
  - rewrite byte_bits_cons, Hb. rewrite <-(take_drop 8 l) at 3. f_equal.
    rewrite <-(msb_bits_val (take 8 l)) at 2. by rewrite H8.
  - pose proof (bits_val_range (take 8 l)). rewrite H8 in *. done.
Qed.

#[local] Opaque msb_bits.

(** ** Reading the data codewords *)

(** How a segment represents a text in one of the three modes the encoder
    chooses from. *)
Inductive encodes : QrSegment → list Z → Prop :=
  | encodes_numeric text :
      Forall is_digit_char text →
      encodes {| seg_mode := NUMERIC; numChars := Z.of_nat (length text);
                 seg_data := numeric_bits (digit_val <$> text) |} text
  | encodes_alnum text :
      Forall is_alnum_char text →
      encodes {| seg_mode := ALPHANUMERIC; numChars := Z.of_nat (length text);
                 seg_data := alnum_bits (alnum_val <$> text) |} text
  | encodes_bytes text :
      Forall is_byte text →
      encodes {| seg_mode := BYTE; numChars := Z.of_nat (length text);
                 seg_data := byte_bits text |} text.

Definition mode_of_bits (m : Z) : option Mode :=
  if m =? 1 then Some NUMERIC else if m =? 2 then Some ALPHANUMERIC
  else if m =? 4 then Some BYTE else None.

(** The number of data bits of [n] characters. *)
Definition data_length (md : Mode) (n : nat) : nat :=
  (if decide (md = NUMERIC) then 10 * (n / 3) + nth (n mod 3) [0; 4; 7] 0
  else if decide (md = ALPHANUMERIC) then 11 * (n / 2) + 6 * (n mod 2)
  else 8 * n)%nat.

(** The reader of the QR standard: mode indicator, character count, data, until
    a terminator or the end of the symbol's capacity. *)
Fixpoint read_stream (fuel : nat) (v : Z) (bits : list bool) : option (list Z) :=
  match fuel with
  | O => None
  | S fuel =>
      if decide (length bits < 4)%nat then Some []
      else
        let m := bits_val (take 4 bits) in
        let bits := drop 4 bits in
        if m =? 0 then Some []
        else
          md ← mode_of_bits m;
          let cc := Z.to_nat (count_bits md v) in
          let n := bits_val (take cc bits) in
          let bits := drop cc bits in
          let len := data_length md (Z.to_nat n) in
          let s := {| seg_mode := md; numChars := n; seg_data := take len bits |} in
          rest ← read_stream fuel v (drop len bits);
          Some (read_segment s ++ rest)
  end.

Definition read_codewords (fuel : nat) (v : Z) (codewords : list Z) : option (list Z) :=
  read_stream fuel v (byte_bits codewords).

Lemma length_numeric_bits ds :
  length (numeric_bits ds) = (10 * (length ds / 3) + nth (length ds mod 3) [0; 4; 7]%nat 0)%nat.
Proof.
  induction ds as [|a|a b|a b c ds IH] using list_ind3; [done| | |].
  1,2: simpl; by rewrite length_msb_bits.
  cbn [numeric_bits]. rewrite length_app, length_msb_bits, IH. cbn [length].
  replace (S (S (S (length ds)))) with (length ds + 1 * 3)%nat by lia.
  rewrite Nat.div_add, Nat.Div0.mod_add by lia. lia.
Qed.

Lemma length_alnum_bits vs :
  length (alnum_bits vs) = (11 * (length vs / 2) + 6 * (length vs mod 2))%nat.
Proof.
  induction vs as [|a|a b vs IH] using list_ind2; [done| |].
  1: simpl; by rewrite length_msb_bits.
  cbn [alnum_bits]. rewrite length_app, length_msb_bits, IH. cbn [length].
  replace (S (S (length vs))) with (length vs + 1 * 2)%nat by lia.
  rewrite Nat.div_add, Nat.Div0.mod_add by lia. lia.
Qed.

Lemma encodes_wf s text : encodes s text → segment_wf s.
Proof. destruct 1; apply mk_segment_wf; (set_solver || lia). Qed.

Lemma encodes_mode s text :
  encodes s text → mode_of_bits (modeBits (seg_mode s)) = Some (seg_mode s) ∧
  modeBits (seg_mode s) ≠ 0.
Proof. by destruct 1. Qed.

Lemma encodes_length s text :
  encodes s text →
  data_length (seg_mode s) (Z.to_nat (numChars s)) = length (seg_data s).
Proof.
  unfold data_length. destruct 1; cbn [seg_mode numChars seg_data]; rewrite Nat2Z.id.
  - by rewrite decide_True, length_numeric_bits, length_fmap by done.
  - by rewrite decide_False, decide_True, length_alnum_bits, length_fmap by done.
  - by rewrite !decide_False, length_byte_bits by done.
Qed.

Lemma encodes_read s text : encodes s text → read_segment s = text.
Proof.
  destruct 1;
  [by apply read_numeric_segment|by apply read_alnum_segment|by apply read_byte_segment].
Qed.

(** What may follow the last segment. *)
Definition stream_end (rest : list bool) : Prop :=
  (length rest < 4)%nat ∨ ∃ l, rest = replicate 4 false ++ l.

Lemma read_stream_segment fuel v s text rest :
  encodes s text → 1 ≤ v ≤ 40 → seg_fits v s →
  read_stream (S fuel) v (segment_stream v s ++ rest) =
  (λ l, text ++ l) <$> read_stream fuel v rest.
Proof.
  intros He Hv Hf. pose proof (encodes_wf _ _ He) as Hwf.
  destruct (encodes_mode _ _ He) as [Hmd Hnz].
  destruct (numCharCountBits_Ok s v Hwf Hv) as [_ Hcc].
  unfold segment_stream. rewrite <-!app_assoc. cbn [read_stream].
  rewrite decide_False by (rewrite length_app, length_msb_bits; lia).
  rewrite take_msb, drop_msb, bits_val_msb_bits by apply (swf_bits _ Hwf).
  rewrite (proj2 (Z.eqb_neq _ _)) by done. rewrite Hmd. cbn [mbind option_bind].
  rewrite take_msb, drop_msb, bits_val_msb_bits
    by (rewrite Z2Nat.id by lia; split; [apply (swf_chars _ Hwf)|apply Hf]).
  rewrite (encodes_length _ _ He), take_app_length, drop_app_length.
  destruct (read_stream fuel v rest); simpl; [|done].
  f_equal. f_equal. destruct s; apply encodes_read, He.
Qed.

Lemma read_stream_segments v segs texts rest :
  Forall2 encodes segs texts → 1 ≤ v ≤ 40 → Forall (seg_fits v) segs → stream_end rest →
  read_stream (S (length segs)) v ((segs ≫= segment_stream v) ++ rest) = Some (mjoin texts).
Proof.
  intros H Hv Hf Hend. induction H as [|s text segs texts He _ IH].
  - change (([] ≫= segment_stream v) ++ rest) with rest. cbn [read_stream]. destruct Hend as [Hs|[l ->]].
    + by rewrite decide_True.
    + rewrite decide_False by (rewrite length_app, length_replicate; lia).
      by rewrite take_app_length' by done.
  - apply Forall_cons in Hf as [Hf1 Hf]. rewrite bind_cons, <-app_assoc. cbn [length].
    rewrite (read_stream_segment _ _ _ text) by done. by rewrite IH by done.
Qed.

Lemma msb_bits_zero n : msb_bits n 0 = replicate n false.
Proof.
  induction n as [|n IH]; [done|]. by rewrite msb_bits_S, Z.shiftr_0_l, IH, replicate_S_end.
Qed.

Lemma appendBits_zero bb n :
  0 ≤ n ≤ 31 → appendBits bb 0 n = Ok (bb ++ replicate (Z.to_nat n) false).
Proof. intros Hn. rewrite appendBits_Ok by lia. by rewrite msb_bits_zero. Qed.

(** The terminator, the padding to a byte and the pad bytes fill the capacity
    exactly, and what follows the segments reads as the end of the stream. *)
Lemma padding_Ok bb cap :
  Z.of_nat (length bb) ≤ 8 * cap → 0 ≤ cap →
  ∃ rest codewords,
    (bb ← appendBits bb 0 (Z.min 4 (cap * 8 - Z.of_nat (length bb)));
     bb ← appendBits bb 0 ((8 - Z.of_nat (length bb) mod 8) mod 8);
     _ ← cassert (Z.of_nat (length bb) mod 8 =? 0);
     bb ← pad_loop (Z.to_nat cap) 0xEC (cap * 8) bb;
     pack_bits bb) = Ok codewords ∧
    byte_bits codewords = bb ++ rest ∧ Z.of_nat (length codewords) = cap ∧
    Forall is_byte codewords ∧ stream_end rest.
Proof.
  intros Hlen Hcap. set (u := Z.of_nat (length bb)) in *.
  set (t := Z.min 4 (cap * 8 - u)). rewrite appendBits_zero by lia. cbn [mbind outcome_bind].
  rewrite length_app, length_replicate, Nat2Z.inj_add, Z2Nat.id by lia. fold u.
  set (p := (8 - (u + t) mod 8) mod 8).
  assert (Hp : 0 ≤ p < 8) by (apply Z.mod_pos_bound; lia).
  rewrite appendBits_zero by lia. cbn [mbind outcome_bind].
  rewrite !length_app, !length_replicate, !Nat2Z.inj_add, !Z2Nat.id by lia. fold u.
  assert (Hdiv : ∃ k, u + t + p = 8 * k ∧ k ≤ cap).
  { exists ((u + t + p) / 8). unfold p, t. clear. subst u.
    Z.to_euclidean_division_equations. lia. }
  destruct Hdiv as (k & Hk & Hkc).
  rewrite Hk. replace ((8 * k) mod 8) with 0 by (rewrite Z.mul_comm, Z.mod_mul; lia).
  cbn [cassert Z.eqb mbind outcome_bind].
  set (bb2 := (bb ++ replicate (Z.to_nat t) false) ++ replicate (Z.to_nat p) false).
  assert (Hl2 : Z.of_nat (length bb2) = 8 * k).
  { unfold bb2. rewrite !length_app, !length_replicate. lia. }
  replace (cap * 8) with (Z.of_nat (length bb2) + 8 * Z.of_nat (Z.to_nat (cap - k))) by lia.
  rewrite pad_loop_Ok by (set_solver || lia). cbn [mbind outcome_bind].
  set (pads := byte_bits _).
  destruct (byte_bits_surj (Z.to_nat cap) (bb2 ++ pads)) as (cws & Hcws & Hby & Hn).
  { unfold pads. rewrite length_app, length_byte_bits, length_pad_bytes. lia. }
  exists (replicate (Z.to_nat t) false ++ replicate (Z.to_nat p) false ++ pads), cws.
  split_and!; [|by rewrite Hcws; unfold bb2; rewrite <-!app_assoc|lia|done|].
  - rewrite <-Hcws. by apply pack_bits_Ok.
  - unfold stream_end. destruct (decide (t = 4)) as [->|Ht].
    + right. eauto.
    + left. assert (p = 0 ∧ k = cap) as [Hp0 ->].
      { assert (u + t = 8 * cap) by lia. lia. }
      unfold pads. rewrite Hp0, Z.sub_diag. simpl. rewrite app_nil_r, length_replicate. lia.
Qed.

(** [encodeSegments] up to the constructor call, on segments that represent
    texts: no assertion fails; it either finds the minimal version that fits
    and delivers exactly the capacity of that version and of a level at least
    as high as asked for, in codewords from which the texts are read back, or
    it throws [data_too_long] because no allowed version fits. *)
Lemma encodeSegments_data_spec segs texts e minV maxV mask b :
  Forall2 encodes segs texts → 1 ≤ minV → minV ≤ maxV ≤ 40 → -1 ≤ mask ≤ 7 →
  (∃ v e' cws,
     encodeSegments_data segs e minV maxV mask b = Ok (v, e', cws) ∧
     minV ≤ v ≤ maxV ∧ fits segs e v ∧ (∀ w, minV ≤ w < v → ¬ fits segs e w) ∧
     level_rank e ≤ level_rank e' ∧ Z.of_nat (length cws) = capacity v e' ∧
     Forall is_byte cws ∧ read_codewords (S (length segs)) v cws = Some (mjoin texts)) ∨
  (encodeSegments_data segs e minV maxV mask b = throw data_too_long ∧
     ∀ w, minV ≤ w ≤ maxV → ¬ fits segs e w).
Proof.
  intros Henc H1 H2 Hm.
  assert (Hs : Forall segment_wf segs)
    by (eapply Forall2_Forall_l; [done|]; apply Forall_true; eauto using encodes_wf).
  unfold encodeSegments_data, MIN_VERSION, MAX_VERSION.
  rewrite !(proj2 (Z.leb_le _ _)), !(proj2 (Z.ltb_ge _ _)) by lia. cbn [negb andb orb].
  destruct (find_version_spec segs e (Z.to_nat (maxV - minV)) minV maxV)
    as [(v & Hfv & Hv & Hfit & Hmin)|[Hfv Hno]]; [done|lia..| |]; rewrite Hfv;
    cbn [mbind outcome_bind]; [left|by right].
  destruct Hfit as [Hseg Hcap]. pose proof (total_bits_nonneg v segs Hs ltac:(lia)).
  rewrite (proj2 (Z.eqb_neq _ _)) by lia. cbn [cassert negb mbind outcome_bind].
  destruct (boost_spec b v (total_bits v segs) e) as (e' & Hb & Hr & Hc' & _); [lia..|].
  rewrite Hb. cbn [mbind outcome_bind].
  rewrite append_segments_Ok by (done || lia). cbn [mbind outcome_bind].
  rewrite app_nil_l. set (bb := segs ≫= segment_stream v).
  assert (Hbb : Z.of_nat (length bb) = total_bits v segs)
    by (apply length_segments_stream; [done|lia]).
  rewrite Hbb, Z.eqb_refl. cbn [cassert mbind outcome_bind].
  destruct (getNumDataCodewords_Ok v e') as [-> Hcpos]; [lia|]. cbn [mbind outcome_bind].
  rewrite (proj2 (Z.leb_le _ _)) by lia. cbn [cassert mbind outcome_bind].
  rewrite <-Hbb.
  destruct (padding_Ok bb (capacity v e')) as (rest & cws & Hrun & Hcws & Hlen & Hby & Hend);
    [lia..|].
  exists v, e', cws.
  split; [|split; [lia|split; [by split|repeat (split; [done|])]]].
  - apply bind_Ok in Hrun as (bb1 & Hr1 & Hrun). rewrite Hr1. cbn [mbind outcome_bind].
    apply bind_Ok in Hrun as (bb2 & Hr2 & Hrun). rewrite Hr2. cbn [mbind outcome_bind].
    apply bind_Ok in Hrun as (u & Hr3 & Hrun). rewrite Hr3. cbn [mbind outcome_bind].
    apply bind_Ok in Hrun as (bb3 & Hr4 & Hrun). rewrite Hr4. cbn [mbind outcome_bind].
    by rewrite Hrun.
  - unfold read_codewords. rewrite Hcws. by apply read_stream_segments; [| lia| |].
Qed.
