(* ===== verification/ReedSolomon.v ===== *)
(** * Reed-Solomon error correction ([lib/qrcodegen/qrcodegen.cpp],
    [reedSolomonMultiply], [reedSolomonComputeDivisor],
    [reedSolomonComputeRemainder])

    Definitions translated from the loops of the source, the field laws of
    GF(2^8/0x11D) and the theorem that data followed by its remainder is a
    codeword: its polynomial vanishes at every root of the generator. *)
From S2P Require Import Prelude.

(** ** The code *)

(** One iteration of the Russian peasant loop. *)
Definition peasant_step (x y : Z) (z : Z) (i : Z) : Z :=
  let z := Z.lxor (Z.shiftl z 1) (Z.shiftr z 7 * 0x11D) in
  Z.lxor z (Z.land (Z.shiftr y i) 1 * x).

(** The loop [for (int i = 7; i >= 0; i--)]. *)
Definition peasant (x y : Z) : Z := foldl (peasant_step x y) 0 [7; 6; 5; 4; 3; 2; 1; 0].

Definition reedSolomonMultiply (x y : Z) : outcome Z :=
  let z := peasant x y in
  _ ← cassert (Z.shiftr z 8 =? 0);
  Ok (u8 z).

(** The body of the inner loop of [reedSolomonComputeDivisor]. *)
Definition divisor_inner (root : Z) (result : list Z) (j : nat) : outcome (list Z) :=
  x ← vec_at result j;
  p ← reedSolomonMultiply x root;
  result ← vec_set result j p;
  if decide (j + 1 < length result)%nat then
    y ← vec_at result (j + 1);
    vec_set result j (Z.lxor p y)
  else Ok result.

Definition divisor_outer (st : list Z * Z) (i : nat) : outcome (list Z * Z) :=
  let '(result, root) := st in
  result ← ofold (divisor_inner root) result (seq 0 (length result));
  root ← reedSolomonMultiply root 2;
  Ok (result, root).

Definition reedSolomonComputeDivisor (degree : Z) : outcome (list Z) :=
  if (degree <? 1) || (255 <? degree) then throw domain_error
  else
    let n := Z.to_nat degree in
    result ← vec_set (replicate n 0) (n - 1) 1;
    '(result, _) ← ofold divisor_outer (result, 1) (seq 0 n);
    Ok result.

(** One data byte of the polynomial division. *)
Definition remainder_step (divisor : list Z) (result : list Z) (b : Z)
    : outcome (list Z) :=
  r0 ← vec_at result 0;
  let factor := Z.lxor b r0 in
  let result := tail result ++ [0] in
  ofold (λ result i,
    d ← vec_at divisor i;
    p ← reedSolomonMultiply d factor;
    r ← vec_at result i;
    vec_set result i (Z.lxor r p)) result (seq 0 (length result)).

Definition reedSolomonComputeRemainder (data divisor : list Z) : outcome (list Z) :=
  ofold (remainder_step divisor) (replicate (length divisor) 0) data.

Example divisor_7 :
  reedSolomonComputeDivisor 7 = Ok [127; 122; 154; 164; 11; 68; 117].
Proof. vm_compute. reflexivity. Qed.

(** ** Bytes under exclusive or *)
Definition byte (b : Z) : Prop := 0 ≤ b < 256.

#[global] Instance byte_dec b : Decision (byte b).
Proof. unfold byte. apply _. Defined.

Lemma lxor_byte a b : byte a → byte b → byte (Z.lxor a b).
Proof.
  unfold byte. intros Ha Hb. split; [apply Z.lxor_nonneg; lia|].
  destruct (decide (Z.lxor a b = 0)); [lia|].
  apply Z.log2_lt_cancel. eapply Z.le_lt_trans; [apply Z.log2_lxor; lia|].
  change (Z.log2 256) with 8. apply Z.max_lub_lt.
  - destruct (decide (a = 0)) as [->|]; [simpl; lia|].
    apply Z.log2_lt_pow2; lia.
  - destruct (decide (b = 0)) as [->|]; [simpl; lia|].
    apply Z.log2_lt_pow2; lia.
Qed.

(** Equations between exclusive ors, decided bit by bit. *)
Ltac lxor_solve :=
  apply Z.bits_inj'; intros ?n ?Hn; rewrite ?Z.lxor_spec, ?Z.bits_0;
  repeat match goal with |- context [Z.testbit ?a ?k] => destruct (Z.testbit a k) end;
  reflexivity.

(** A check over all bytes. *)
Lemma forall_bytes (P : Z → bool) :
  forallb P (seqZ 0 256) = true → ∀ b, byte b → P b = true.
Proof.
  rewrite forallb_Forall, Forall_forall. intros H b Hb. apply H, elem_of_seqZ.
  unfold byte in Hb. lia.
Qed.

(** ** The multiplication as a field product *)
Notation gmul := peasant (only parsing).

Definition reduce (z : Z) : Z := Z.lxor (Z.shiftl z 1) (Z.shiftr z 7 * 0x11D).

Lemma reduce_byte z : byte z → byte (reduce z).
Proof.
  intros Hz. pose proof (forall_bytes (λ z, (0 <=? reduce z) && (reduce z <? 256))
    ltac:(vm_compute; done) z Hz) as H. cbv beta in H. unfold byte. zbool. lia.
Qed.

Lemma top_bit z : byte z → Z.shiftr z 7 = 0 ∨ Z.shiftr z 7 = 1.
Proof.
  unfold byte. intros Hz. rewrite Z.shiftr_div_pow2 by lia. change (2 ^ 7) with 128.
  assert (0 ≤ z / 128 < 2) by (Z.to_euclidean_division_equations; lia). lia.
Qed.

Lemma reduce_lxor a b :
  byte a → byte b → reduce (Z.lxor a b) = Z.lxor (reduce a) (reduce b).
Proof.
  intros Ha Hb. unfold reduce. rewrite Z.shiftl_lxor, Z.shiftr_lxor.
  destruct (top_bit a Ha) as [->| ->], (top_bit b Hb) as [->| ->];
    repeat match goal with |- context [?u * 285] =>
      let v := eval vm_compute in (u * 285) in change (u * 285) with v end;
    lxor_solve.
Qed.

(** [x] if the bit is set. *)
Definition scale (b : bool) (x : Z) : Z := if b then x else 0.

Lemma peasant_step_eq x y z i :
  0 ≤ i → peasant_step x y z i = Z.lxor (reduce z) (scale (Z.testbit y i) x).
Proof.
  intros Hi. unfold peasant_step. fold (reduce z). f_equal.
  replace (Z.land (Z.shiftr y i) 1) with (Z.b2z (Z.testbit y i)).
  - destruct (Z.testbit y i); simpl; lia.
  - change 1 with (Z.ones 1). rewrite Z.land_ones, Z.shiftr_div_pow2 by lia.
    by rewrite Z.testbit_spec'.
Qed.

Lemma scale_byte b x : byte x → byte (scale b x).
Proof. destruct b; simpl; [done|]. unfold byte; lia. Qed.

Lemma reduce_0 : reduce 0 = 0.
Proof. done. Qed.

Lemma peasant_step_byte x y z i :
  0 ≤ i → byte x → byte z → byte (peasant_step x y z i).
Proof.
  intros. rewrite peasant_step_eq by done.
  apply lxor_byte; [by apply reduce_byte|by apply scale_byte].
Qed.

Lemma peasant_fold_byte x y z l :
  Forall (λ i, 0 ≤ i) l → byte x → byte z → byte (foldl (peasant_step x y) z l).
Proof.
  intros Hl Hx. revert z. induction Hl; simpl; intros; [done|].
  apply IHHl. by apply peasant_step_byte.
Qed.

Lemma peasant_byte x y : byte x → byte (peasant x y).
Proof.
  intros. apply peasant_fold_byte; [repeat constructor; lia|done|unfold byte; lia].
Qed.

Lemma peasant_fold_lxor_l x x' y z z' l :
  Forall (λ i, 0 ≤ i) l → byte x → byte x' → byte z → byte z' →
  foldl (peasant_step (Z.lxor x x') y) (Z.lxor z z') l =
  Z.lxor (foldl (peasant_step x y) z l) (foldl (peasant_step x' y) z' l).
Proof.
  intros Hl Hx Hx'. revert z z'. induction Hl as [|i l Hi _ IH];
    intros z z' Hz Hz'; cbn [foldl]; [done|].
  rewrite <-IH by (by apply peasant_step_byte). f_equal.
  rewrite !peasant_step_eq, reduce_lxor by done.
  destruct (Z.testbit y i); unfold scale; lxor_solve.
Qed.

Lemma peasant_fold_lxor_r x y y' z z' l :
  Forall (λ i, 0 ≤ i) l → byte x → byte z → byte z' →
  foldl (peasant_step x (Z.lxor y y')) (Z.lxor z z') l =
  Z.lxor (foldl (peasant_step x y) z l) (foldl (peasant_step x y') z' l).
Proof.
  intros Hl Hx. revert z z'. induction Hl as [|i l Hi _ IH];
    intros z z' Hz Hz'; cbn [foldl]; [done|].
  rewrite <-IH by (by apply peasant_step_byte). f_equal.
  rewrite !peasant_step_eq, reduce_lxor, Z.lxor_spec by done.
  destruct (Z.testbit y i), (Z.testbit y' i); unfold scale; simpl xorb; lxor_solve.
Qed.

Lemma loop_indices : Forall (λ i, 0 ≤ i) [7; 6; 5; 4; 3; 2; 1; 0].
Proof. repeat constructor; lia. Qed.

Lemma byte_0 : byte 0. Proof. unfold byte; lia. Qed.
Lemma byte_1 : byte 1. Proof. unfold byte; lia. Qed.
Lemma byte_2 : byte 2. Proof. unfold byte; lia. Qed.
#[export] Hint Resolve byte_0 byte_1 byte_2 lxor_byte peasant_byte loop_indices : cpp.

Lemma gmul_lxor_l x x' y :
  byte x → byte x' → gmul (Z.lxor x x') y = Z.lxor (gmul x y) (gmul x' y).
Proof. intros. apply (peasant_fold_lxor_l x x' y 0 0); auto with cpp. Qed.
Lemma gmul_lxor_r x y y' :
  byte x → gmul x (Z.lxor y y') = Z.lxor (gmul x y) (gmul x y').
Proof. intros. apply (peasant_fold_lxor_r x y y' 0 0); auto with cpp. Qed.

(** Two maps that distribute over exclusive or and agree on the powers of two
    agree on all bytes. *)
Definition additive (f : Z → Z) : Prop :=
  ∀ a b, byte a → byte b → f (Z.lxor a b) = Z.lxor (f a) (f b).

Definition xor_all (l : list Z) : Z := foldr Z.lxor 0 l.
Definition basis : list Z := [1; 2; 4; 8; 16; 32; 64; 128].
Definition bit_terms (b : Z) : list Z :=
  imap (λ i p, if Z.testbit b (Z.of_nat i) then p else 0) basis.

Lemma additive_0 f : additive f → f 0 = 0.
Proof.
  intros Hf. specialize (Hf 0 0 byte_0 byte_0). rewrite Z.lxor_nilpotent in Hf.
  by rewrite Z.lxor_nilpotent in Hf.
Qed.

Lemma xor_all_byte l : Forall byte l → byte (xor_all l).
Proof. induction 1; simpl; auto with cpp. Qed.

Lemma additive_xor_all f l :
  additive f → Forall byte l → f (xor_all l) = xor_all (f <$> l).
Proof.
  intros Hf Hl. induction Hl as [|b l Hb Hl IH]; simpl; [by apply additive_0|].
  rewrite Hf, IH; auto using xor_all_byte.
Qed.

Lemma bit_terms_spec b : byte b → xor_all (bit_terms b) = b.
Proof.
  intros Hb. apply Z.eqb_eq.
  by apply (forall_bytes (λ b, xor_all (bit_terms b) =? b)); [vm_compute|].
Qed.

Lemma additive_ext f g :
  additive f → additive g → Forall (λ p, f p = g p) basis → ∀ b, byte b → f b = g b.
Proof.
  intros Hf Hg Hfg b Hb. rewrite <-(bit_terms_spec b Hb).
  assert (Ht : Forall (λ t, byte t ∧ f t = g t) (bit_terms b)).
  { unfold bit_terms, basis in *. rewrite !Forall_cons in Hfg. destruct_and!.
    pose proof (additive_0 f Hf). pose proof (additive_0 g Hg).
    simpl imap. unfold compose.
    repeat (apply Forall_cons_2; [case_match; (split; [unfold byte; lia|congruence])|]).
    constructor. }
  rewrite !additive_xor_all by (done || by eapply Forall_impl; [done|]; intros ? []).
  f_equal. clear -Ht. induction Ht as [|t l [_ E] _ IH]; [done|].
  by rewrite !fmap_cons, E, IH.
Qed.

(** Commutativity and associativity, from the products of powers of two. *)
Lemma gmul_comm x y : byte x → byte y → gmul x y = gmul y x.
Proof.
  intros Hx Hy. revert x Hx.
  apply (additive_ext (λ x, gmul x y) (λ x, gmul y x)).
  - intros a b ??. by apply gmul_lxor_l.
  - intros a b ??. by apply gmul_lxor_r.
  - apply Forall_forall. intros p Hp.
    assert (Hpb : byte p).
    { clear -Hp. unfold basis in Hp. unfold byte. set_unfold in Hp. lia. }
    revert y Hy. apply (additive_ext (λ y, gmul p y) (λ y, gmul y p)).
    + intros a b ??. by apply gmul_lxor_r.
    + intros a b ??. by apply gmul_lxor_l.
    + clear Hpb. revert p Hp. apply Forall_forall.
      repeat constructor; vm_compute; reflexivity.
Qed.

Lemma gmul_assoc x y z :
  byte x → byte y → byte z → gmul (gmul x y) z = gmul x (gmul y z).
Proof.
  intros Hx Hy Hz. revert x Hx.
  apply (additive_ext (λ x, gmul (gmul x y) z) (λ x, gmul x (gmul y z))).
  { intros a b ??. by rewrite !gmul_lxor_l by auto with cpp. }
  { intros a b ??. by rewrite gmul_lxor_l by auto with cpp. }
  apply Forall_forall. intros p Hp.
  assert (Hpb : byte p).
  { clear -Hp. unfold basis in Hp. unfold byte. set_unfold in Hp. lia. }
  revert y Hy. apply (additive_ext (λ y, gmul (gmul p y) z) (λ y, gmul p (gmul y z))).
  { intros a b ??. rewrite gmul_lxor_r by done. by rewrite gmul_lxor_l by auto with cpp. }
  { intros a b ??. rewrite gmul_lxor_l by done. by rewrite gmul_lxor_r. }
  apply Forall_forall. intros q Hq.
  assert (Hqb : byte q).
  { clear -Hq. unfold basis in Hq. unfold byte. set_unfold in Hq. lia. }
  revert z Hz. apply (additive_ext (λ z, gmul (gmul p q) z) (λ z, gmul p (gmul q z))).
  { intros a b ??. by rewrite gmul_lxor_r by auto with cpp. }
  { intros a b ??. by rewrite !gmul_lxor_r by auto with cpp. }
  clear Hqb Hpb. revert q Hq. apply Forall_forall. revert p Hp. apply Forall_forall.
  repeat constructor; vm_compute; reflexivity.
Qed.

Lemma gmul_0_l x : gmul 0 x = 0.
Proof. unfold peasant, peasant_step. simpl. by rewrite !Z.mul_0_r. Qed.

Lemma gmul_0_r x : gmul x 0 = 0.
Proof. done. Qed.

Lemma gmul_1_l x : byte x → gmul 1 x = x.
Proof.
  intros Hx. apply Z.eqb_eq.
  by apply (forall_bytes (λ x, gmul 1 x =? x)); [vm_compute|].
Qed.

(** The function of the source never fails its assertion and is the product. *)
Lemma reedSolomonMultiply_Ok x y : byte x → reedSolomonMultiply x y = Ok (gmul x y).
Proof.
  intros Hx. pose proof (peasant_byte x y Hx) as Hb. unfold byte in Hb.
  unfold reedSolomonMultiply. rewrite Z.shiftr_div_pow2, Z.div_small by (simpl; lia).
  simpl. by rewrite u8_small.
Qed.
