(* ===== verification/ReedSolomonFacts.v ===== *)
(** * The error correction codewords are those of a Reed-Solomon code

    A polynomial is its coefficient list, highest power first; the generator
    of degree [n] is the product of [(x - 2^i)], [i < n]. *)
From S2P Require Import Prelude ReedSolomon.

Notation gmul := peasant (only parsing).
#[local] Opaque peasant reedSolomonMultiply Z.lxor.

(** ** Polynomials *)
Definition horner (a acc : Z) (p : list Z) : Z :=
  foldl (λ acc c, Z.lxor (gmul acc a) c) acc p.
Definition eval (a : Z) (p : list Z) : Z := horner a 0 p.
Fixpoint gpow (a : Z) (n : nat) : Z :=
  match n with O => 1 | S n => gmul (gpow a n) a end.

(** The roots of the generator, and its value as a product. *)
Definition root (i : nat) : Z := gpow 2 i.
Fixpoint generator_at (a : Z) (n : nat) : Z :=
  match n with
  | O => 1
  | S n => gmul (generator_at a n) (Z.lxor a (root n))
  end.

Lemma gpow_byte a n : byte a → byte (gpow a n).
Proof. intros. induction n; simpl; auto with cpp. Qed.
Lemma root_byte n : byte (root n).
Proof. apply gpow_byte, byte_2. Qed.
Lemma horner_byte a acc p : byte acc → Forall byte p → byte (horner a acc p).
Proof.
  intros Hacc Hp. revert acc Hacc. induction Hp as [|c p Hc _ IH]; simpl; [done|].
  intros. apply IH. auto with cpp.
Qed.
Lemma eval_byte a p : Forall byte p → byte (eval a p).
Proof. intros. apply horner_byte; [apply byte_0|done]. Qed.
#[export] Hint Resolve gpow_byte root_byte horner_byte eval_byte : cpp.

Lemma generator_at_byte a n : byte a → byte (generator_at a n).
Proof. intros. induction n; simpl; auto with cpp. Qed.
#[export] Hint Resolve generator_at_byte : cpp.

Lemma horner_app a acc p q : horner a acc (p ++ q) = horner a (horner a acc p) q.
Proof. unfold horner. by rewrite foldl_app. Qed.

(** Splitting off the accumulator. *)
Lemma horner_acc a acc p :
  byte a → byte acc → Forall byte p →
  horner a acc p = Z.lxor (gmul acc (gpow a (length p))) (eval a p).
Proof.
  intros Ha Hacc Hp. revert acc Hacc. induction Hp as [|c p Hc Hp IH]; intros acc Hacc.
  - unfold eval; simpl. rewrite gmul_comm, gmul_1_l by auto with cpp. by rewrite Z.lxor_0_r.
  - unfold eval. cbn [horner foldl length gpow].
    fold (horner a (Z.lxor (gmul acc a) c) p). fold (horner a (Z.lxor (gmul 0 a) c) p).
    rewrite !IH by auto with cpp. rewrite gmul_0_l, Z.lxor_0_l.
    rewrite gmul_lxor_l, gmul_assoc by auto with cpp.
    rewrite (gmul_comm a (gpow a (length p))) by auto with cpp.
    by rewrite Z.lxor_assoc.
Qed.

Lemma eval_cons a c p :
  byte a → byte c → Forall byte p →
  eval a (c :: p) = Z.lxor (gmul c (gpow a (length p))) (eval a p).
Proof.
  intros. unfold eval at 1. cbn [horner foldl]. rewrite gmul_0_l, Z.lxor_0_l.
  by apply horner_acc.
Qed.

Lemma eval_snoc a p c : eval a (p ++ [c]) = Z.lxor (gmul (eval a p) a) c.
Proof. unfold eval. by rewrite horner_app. Qed.

Lemma eval_app a p q :
  byte a → Forall byte p → Forall byte q →
  eval a (p ++ q) = Z.lxor (gmul (eval a p) (gpow a (length q))) (eval a q).
Proof. intros. unfold eval at 1. rewrite horner_app. apply horner_acc; auto with cpp. Qed.

(** ** The divisor *)

(** The element the pass writes for [x], from [x] and the element after it. *)
Definition shift_head (r x : Z) (t : list Z) : Z :=
  match t with [] => gmul x r | y :: _ => Z.lxor (gmul x r) y end.

(** One pass of the inner loop, which reads each element before it is
    overwritten. *)
Fixpoint shift_mul (r : Z) (l : list Z) : list Z :=
  match l with
  | [] => []
  | x :: t =>
      shift_head r x t :: shift_mul r t
  end.

Lemma shift_head_byte r x t : byte x → Forall byte t → byte (shift_head r x t).
Proof. intros Hx Ht. unfold shift_head. destruct Ht; auto with cpp. Qed.
#[export] Hint Resolve shift_head_byte : cpp.

Lemma length_shift_mul r l : length (shift_mul r l) = length l.
Proof. induction l; simpl; auto. Qed.

Lemma shift_mul_byte r l : Forall byte l → Forall byte (shift_mul r l).
Proof.
  induction 1 as [|x t Hx Ht IH]; simpl; constructor; [|done].
  auto with cpp.
Qed.

Lemma divisor_store p dn x t :
  (result ← vec_set (dn ++ x :: t) (length dn) p;
   if decide (length dn + 1 < length result)%nat then
     y ← vec_at result (length dn + 1);
     vec_set result (length dn) (Z.lxor p y)
   else Ok result) =
  Ok (dn ++ (match t with [] => p | y :: _ => Z.lxor p y end) :: t).
Proof.
  rewrite vec_set_mid, bind_Ok_l, length_app. cbn [length]. destruct t as [|y t].
  - by rewrite decide_False by (simpl; lia).
  - rewrite decide_True by (simpl; lia).
    replace (vec_at (dn ++ p :: y :: t) (length dn + 1)) with (Ok y).
    + by rewrite bind_Ok_l, vec_set_mid.
    + rewrite <-(vec_at_mid (dn ++ [p]) y t). rewrite length_app, <-app_assoc. done.
Qed.

Lemma divisor_inner_mid r dn x t :
  byte x → divisor_inner r (dn ++ x :: t) (length dn) = Ok (dn ++ shift_head r x t :: t).
Proof.
  intros Hx. unfold divisor_inner. rewrite vec_at_mid, bind_Ok_l.
  rewrite reedSolomonMultiply_Ok, bind_Ok_l by done. apply divisor_store.
Qed.

Lemma divisor_inner_loop r dn l :
  Forall byte l →
  ofold (divisor_inner r) (dn ++ l) (seq (length dn) (length l)) = Ok (dn ++ shift_mul r l).
Proof.
  intros Hl. revert dn. induction Hl as [|x t Hx Ht IH]; intros dn; [done|].
  cbn [length seq ofold]. rewrite divisor_inner_mid by done. cbn [mbind outcome_bind].
  replace (dn ++ shift_head r x t :: t) with ((dn ++ [shift_head r x t]) ++ t)
    by (by rewrite <-app_assoc).
  replace (S (length dn)) with (length (dn ++ [shift_head r x t]))
    by (rewrite length_app; simpl; lia).
  rewrite IH. by rewrite <-app_assoc.
Qed.

(** In characteristic two, the pass multiplies by [(x + r)] and drops the
    leading coefficient. *)
Lemma eval_shift_mul a r x l :
  byte a → byte r → byte x → Forall byte l →
  Z.lxor (gmul x (gpow a (S (length l)))) (eval a (shift_mul r (x :: l))) =
  gmul (eval a (x :: l)) (Z.lxor a r).
Proof.
  intros Ha Hr Hx Hl. revert x Hx. induction Hl as [|y l Hy Hl IH]; intros x Hx.
  - unfold eval, horner. cbn [shift_mul shift_head length gpow foldl].
    rewrite gmul_0_l, !Z.lxor_0_l. rewrite gmul_lxor_r, (gmul_1_l a) by auto with cpp. done.
  - pose proof (shift_mul_byte r (y :: l) ltac:(auto)).
    change (shift_mul r (x :: y :: l)) with (Z.lxor (gmul x r) y :: shift_mul r (y :: l)).
    rewrite (eval_cons a (Z.lxor (gmul x r) y)), (eval_cons a x (y :: l)) by auto with cpp.
    rewrite length_shift_mul. change (length (y :: l)) with (S (length l)).
    rewrite (gmul_lxor_l (gmul x (gpow a (S (length l))))) by auto with cpp.
    rewrite <-IH by done. set (n := S (length l)).
    rewrite (gmul_lxor_l (gmul x r) y) by auto with cpp.
    change (gpow a (S n)) with (gmul (gpow a n) a).
    rewrite (gmul_lxor_r _ a r) by auto with cpp.
    rewrite !gmul_assoc by auto with cpp.
    rewrite (gmul_comm (gpow a n) r) by auto with cpp. lxor_solve.
Qed.

(** The coefficients, without the leading one, of the product of the first [i]
    factors. *)
Fixpoint gen_coeffs (i : nat) : list Z :=
  match i with
  | O => []
  | S i => shift_mul (root i) (1 :: gen_coeffs i)
  end.

Lemma length_gen_coeffs i : length (gen_coeffs i) = i.
Proof. induction i as [|i IH]; [done|]. simpl. by rewrite length_shift_mul, IH. Qed.

Lemma gen_coeffs_byte i : Forall byte (gen_coeffs i).
Proof.
  induction i; cbn [gen_coeffs]; [constructor|].
  apply shift_mul_byte. constructor; auto with cpp.
Qed.

Lemma eval_gen_coeffs a i :
  byte a → eval a (1 :: gen_coeffs i) = generator_at a i.
Proof.
  intros Ha. induction i as [|i IH].
  - unfold eval, horner. simpl. by rewrite gmul_0_l.
  - pose proof (gen_coeffs_byte i). pose proof (gen_coeffs_byte (S i)).
    rewrite eval_cons by auto with cpp. rewrite length_gen_coeffs.
    cbn [gen_coeffs generator_at]. rewrite <-IH.
    rewrite <-(eval_shift_mul a (root i) 1 (gen_coeffs i)) by auto with cpp.
    by rewrite length_gen_coeffs.
Qed.

(** The array of the source before iteration [i]: zeros, then the monic
    product so far; the leading one falls off after the last iteration. *)
Definition divisor_state (n i : nat) : list Z :=
  drop (S i) (replicate n 0 ++ 1 :: gen_coeffs i).

Lemma shift_mul_zeros r k q :
  shift_mul r (replicate (S k) 0 ++ 1 :: q) =
  replicate k 0 ++ 1 :: shift_mul r (1 :: q).
Proof.
  induction k as [|k IH].
  - simpl. by rewrite gmul_0_l.
  - change (replicate (S (S k)) 0 ++ 1 :: q) with (0 :: (replicate (S k) 0 ++ 1 :: q)).
    cbn [shift_mul]. rewrite IH. cbn [replicate app shift_head].
    by rewrite gmul_0_l, Z.lxor_0_l.
Qed.

Lemma divisor_state_lt n i :
  (i < n)%nat → divisor_state n i = replicate (n - S i) 0 ++ 1 :: gen_coeffs i.
Proof.
  intros Hi. unfold divisor_state. rewrite drop_app_le by (rewrite length_replicate; lia).
  by rewrite drop_replicate.
Qed.

Lemma divisor_state_end n : divisor_state n n = gen_coeffs n.
Proof.
  unfold divisor_state. rewrite drop_app_ge by (rewrite length_replicate; lia).
  rewrite length_replicate. by replace (S n - n)%nat with 1%nat by lia.
Qed.

Lemma divisor_state_step n i :
  (i < n)%nat → shift_mul (root i) (divisor_state n i) = divisor_state n (S i).
Proof.
  intros Hi. rewrite divisor_state_lt by done.
  destruct (decide (S i = n)) as [<-|].
  - rewrite Nat.sub_diag, divisor_state_end. done.
  - replace (n - S i)%nat with (S (n - S (S i)))%nat by lia.
    rewrite shift_mul_zeros, divisor_state_lt by lia. done.
Qed.

Lemma divisor_state_wf n i :
  (i ≤ n)%nat → Forall byte (divisor_state n i) ∧ length (divisor_state n i) = n.
Proof.
  intros Hi. split.
  - apply Forall_drop, Forall_app. split; [apply Forall_replicate, byte_0|].
    constructor; [apply byte_1|apply gen_coeffs_byte].
  - unfold divisor_state. rewrite length_drop, length_app, length_replicate. simpl.
    rewrite length_gen_coeffs. lia.
Qed.

Lemma divisor_outer_Ok n i :
  (i < n)%nat →
  divisor_outer (divisor_state n i, root i) i = Ok (divisor_state n (S i), root (S i)).
Proof.
  intros Hi. destruct (divisor_state_wf n i) as [Hb _]; [lia|]. unfold divisor_outer.
  pose proof (divisor_inner_loop (root i) [] (divisor_state n i) Hb) as Hloop.
  rewrite !app_nil_l in Hloop. change (length []) with 0%nat in Hloop. rewrite Hloop.
  rewrite bind_Ok_l, reedSolomonMultiply_Ok, bind_Ok_l by auto with cpp.
  rewrite divisor_state_step by done. done.
Qed.

Lemma divisor_loop n k i :
  (i + k ≤ n)%nat →
  ofold divisor_outer (divisor_state n i, root i) (seq i k) =
  Ok (divisor_state n (i + k), root (i + k)).
Proof.
  revert i. induction k as [|k IH]; intros i Hi; cbn [seq ofold].
  - by rewrite Nat.add_0_r.
  - rewrite divisor_outer_Ok, bind_Ok_l, IH by lia. by rewrite Nat.add_succ_comm.
Qed.

Lemma reedSolomonComputeDivisor_Ok degree :
  1 ≤ degree ≤ 255 →
  reedSolomonComputeDivisor degree = Ok (gen_coeffs (Z.to_nat degree)).
Proof.
  intros Hd. unfold reedSolomonComputeDivisor.
  rewrite !(proj2 (Z.ltb_ge _ _)) by lia. cbn [orb].
  set (n := Z.to_nat degree). assert (Hn : (0 < n)%nat) by lia.
  replace (vec_set (replicate n 0) (n - 1) 1) with (Ok (divisor_state n 0)).
  - rewrite bind_Ok_l. change 1 with (root 0). rewrite divisor_loop, bind_Ok_l by lia.
    by rewrite divisor_state_end.
  - rewrite divisor_state_lt by done. unfold vec_set.
    rewrite lookup_replicate_2 by lia. f_equal. symmetry.
    assert (replicate n 0 = replicate (n - 1) 0 ++ [0]) as ->
      by (rewrite <-replicate_S_end; f_equal; lia).
    rewrite insert_app_r_alt, length_replicate, Nat.sub_diag
      by (rewrite length_replicate; lia). done.
Qed.

(** ** The remainder *)
Definition xor_lists : list Z → list Z → list Z := zip_with Z.lxor.

Lemma remainder_loop factor divisor dn_r dn_d rs ds :
  length rs = length ds → length dn_r = length dn_d → divisor = dn_d ++ ds →
  Forall byte ds →
  ofold (λ result i,
    d ← vec_at divisor i;
    p ← reedSolomonMultiply d factor;
    r ← vec_at result i;
    vec_set result i (Z.lxor r p)) (dn_r ++ rs) (seq (length dn_r) (length rs)) =
  Ok (dn_r ++ xor_lists rs ((λ d, gmul d factor) <$> ds)).
Proof.
  intros Hl Hdn -> Hds. revert rs dn_r dn_d Hl Hdn.
  induction Hds as [|d ds Hd Hds IH]; intros [|r rs] dn_r dn_d Hl Hdn; try done.
  assert (Hat : vec_at (dn_d ++ d :: ds) (length dn_r) = Ok d)
    by (rewrite Hdn; apply vec_at_mid).
  cbn [length seq ofold]. rewrite Hat, bind_Ok_l.
  rewrite reedSolomonMultiply_Ok, bind_Ok_l by done.
  rewrite vec_at_mid, bind_Ok_l, vec_set_mid, bind_Ok_l.
  specialize (IH rs (dn_r ++ [Z.lxor r (gmul d factor)]) (dn_d ++ [d])).
  rewrite <-!app_assoc in IH. cbn [app] in IH.
  rewrite !length_app, !Nat.add_1_r in IH. rewrite IH.
  - done.
  - by injection Hl.
  - cbn [length]. lia.
Qed.

Lemma remainder_step_Ok divisor result b r rs :
  result = r :: rs → length divisor = length result → Forall byte divisor →
  remainder_step divisor result b =
  Ok (xor_lists (rs ++ [0]) ((λ d, gmul d (Z.lxor b r)) <$> divisor)).
Proof.
  intros -> Hl Hd. unfold remainder_step. cbn [vec_at lookup list_lookup tail].
  rewrite bind_Ok_l.
  pose proof (remainder_loop (Z.lxor b r) divisor [] [] (rs ++ [0]) divisor) as H.
  rewrite !app_nil_l in H. apply H; try done. rewrite length_app, Hl. simpl. lia.
Qed.

Lemma xor_lists_byte l k : Forall byte l → Forall byte k → Forall byte (xor_lists l k).
Proof.
  intros Hl. revert k. induction Hl as [|x l Hx Hl IH]; intros [|y k] Hk;
    simpl; try (by constructor).
  apply Forall_cons in Hk as [Hy Hk]. constructor; [auto with cpp|by apply IH].
Qed.

Lemma scaled_byte f l : Forall byte l → Forall byte ((λ d, gmul d f) <$> l).
Proof.
  intros H. apply Forall_fmap. eapply Forall_impl; [done|]. intros; simpl. auto with cpp.
Qed.

Lemma eval_xor_lists a l k :
  byte a → length l = length k → Forall byte l → Forall byte k →
  eval a (xor_lists l k) = Z.lxor (eval a l) (eval a k).
Proof.
  intros Ha Hlen Hl. revert k Hlen.
  induction Hl as [|x l Hx Hl IH]; intros [|y k] Hlen Hk; try done.
  apply Forall_cons in Hk as [Hy Hk]. injection Hlen as Hlen.
  change (xor_lists (x :: l) (y :: k)) with (Z.lxor x y :: xor_lists l k).
  pose proof (xor_lists_byte l k Hl Hk).
  rewrite !eval_cons by auto with cpp. rewrite IH by done.
  rewrite gmul_lxor_l by done. unfold xor_lists.
  rewrite length_zip_with, Hlen, Nat.min_id. lxor_solve.
Qed.

Lemma eval_scaled a f l :
  byte a → byte f → Forall byte l →
  eval a ((λ d, gmul d f) <$> l) = gmul (eval a l) f.
Proof.
  intros Ha Hf Hl. induction Hl as [|x l Hx Hl IH]; [by rewrite gmul_0_l|].
  rewrite fmap_cons. pose proof (scaled_byte f l Hl).
  rewrite !eval_cons by auto with cpp. rewrite IH, length_fmap.
  rewrite (gmul_lxor_l _ _ f) by auto with cpp. f_equal.
  rewrite !gmul_assoc by auto with cpp. f_equal. apply gmul_comm; auto with cpp.
Qed.

(** At a root of the generator the division step is Horner's rule scaled by
    the power of the degree. *)
Lemma remainder_step_eval a divisor result b :
  byte a → byte b → result ≠ [] → length divisor = length result →
  Forall byte divisor → Forall byte result → eval a (1 :: divisor) = 0 →
  ∃ result', remainder_step divisor result b = Ok result' ∧
    length result' = length result ∧ Forall byte result' ∧
    eval a result' =
      Z.lxor (gmul (eval a result) a) (gmul b (gpow a (length divisor))).
Proof.
  intros Ha Hb Hne Hl Hd Hr Hroot. destruct result as [|r rs]; [done|].
  apply Forall_cons in Hr as [Hr Hrs]. eexists. split; [by eapply remainder_step_Ok|].
  set (f := Z.lxor b r). assert (byte f) by (by apply lxor_byte).
  pose proof (scaled_byte f divisor Hd).
  assert (Forall byte (rs ++ [0])) by (apply Forall_app; split; [done|by repeat constructor]).
  assert (Hlen : length (rs ++ [0]) = length ((λ d, gmul d f) <$> divisor)).
  { rewrite length_fmap, length_app, Hl. simpl. lia. }
  split; [|split].
  - unfold xor_lists. rewrite length_zip_with, <-Hlen, Nat.min_id, length_app. simpl. lia.
  - by apply xor_lists_byte.
  - rewrite eval_xor_lists, eval_snoc, Z.lxor_0_r, eval_scaled by done.
    rewrite (eval_cons a r rs) by done. rewrite (gmul_lxor_l _ _ a) by auto with cpp.
    rewrite (eval_cons a 1 divisor), gmul_1_l in Hroot by auto with cpp.
    apply Z.lxor_eq in Hroot. rewrite <-Hroot, Hl.
    change (gpow a (length (r :: rs))) with (gmul (gpow a (length rs)) a).
    set (g := gpow a (length rs)). assert (byte g) by (by apply gpow_byte).
    rewrite (gmul_comm (gmul g a) f) by auto with cpp. unfold f.
    rewrite (gmul_lxor_l b r) by done. rewrite (gmul_assoc r g a) by done. lxor_solve.
Qed.

Lemma remainder_eval_loop a divisor data result :
  byte a → Forall byte data → result ≠ [] → length divisor = length result →
  Forall byte divisor → Forall byte result → eval a (1 :: divisor) = 0 →
  ∃ result', ofold (remainder_step divisor) result data = Ok result' ∧
    length result' = length result ∧ Forall byte result' ∧
    eval a result' = Z.lxor (gmul (eval a result) (gpow a (length data)))
                       (gmul (eval a data) (gpow a (length divisor))).
Proof.
  intros Ha Hdata. revert result. induction Hdata as [|b data Hb Hdata IH];
    intros result Hne Hl Hd Hr Hroot.
  - exists result. split_and!; try done. unfold eval at 3; simpl.
    rewrite gmul_0_l, Z.lxor_0_r, gmul_comm, gmul_1_l by auto with cpp. done.
  - destruct (remainder_step_eval a divisor result b) as (r1 & Hs & Hl1 & Hr1 & He1);
      [done..|].
    destruct (IH r1) as (r2 & Hs2 & Hl2 & Hr2 & He2);
      [destruct r1, result; done|congruence|done..|].
    exists r2. cbn [ofold]. rewrite Hs, bind_Ok_l. split_and!; [done|congruence|done|].
    rewrite He2, He1. rewrite (eval_cons a b data) by done.
    set (n := length divisor) in *. cbn [length gpow].
    rewrite !gmul_lxor_l by auto with cpp. rewrite !gmul_assoc by auto with cpp.
    rewrite (gmul_comm a (gpow a (length data))) by auto with cpp.
    rewrite (gmul_comm (gpow a n) (gpow a (length data))) by auto with cpp.
    lxor_solve.
Qed.

Lemma generator_at_root n i : (i < n)%nat → generator_at (root i) n = 0.
Proof.
  induction n as [|n IH]; intros Hi; [lia|]. cbn [generator_at].
  destruct (decide (i = n)) as [->|].
  - by rewrite Z.lxor_nilpotent, gmul_0_r.
  - by rewrite IH, gmul_0_l by lia.
Qed.

(** The two functions together: for a degree the code allows, the remainder has
    that many bytes, and data followed by remainder vanishes at every root. *)
Lemma remainder_codeword degree data :
  1 ≤ degree ≤ 255 → Forall byte data →
  ∃ divisor ecc,
    reedSolomonComputeDivisor degree = Ok divisor ∧
    reedSolomonComputeRemainder data divisor = Ok ecc ∧
    Z.of_nat (length ecc) = degree ∧ Forall byte ecc ∧
    ∀ i, (i < Z.to_nat degree)%nat → eval (root i) (data ++ ecc) = 0.
Proof.
  intros Hd Hdata. set (n := Z.to_nat degree).
  assert (Hrun : ∀ i, (i < n)%nat → ∃ ecc,
    reedSolomonComputeRemainder data (gen_coeffs n) = Ok ecc ∧ length ecc = n ∧
    Forall byte ecc ∧ eval (root i) (data ++ ecc) = 0).
  { intros i Hi.
    destruct (remainder_eval_loop (root i) (gen_coeffs n) data (replicate n 0))
      as (ecc & Hr & Hl & Hb & He);
      [apply root_byte|done| |by rewrite length_gen_coeffs, length_replicate
      |apply gen_coeffs_byte|apply Forall_replicate, byte_0| |].
    { destruct n; [lia|done]. }
    { rewrite eval_gen_coeffs by apply root_byte. by apply generator_at_root. }
    exists ecc. rewrite length_replicate in Hl. split_and!; [|done|done|].
    - unfold reedSolomonComputeRemainder. by rewrite length_gen_coeffs.
    - rewrite eval_app, Hl, He by auto with cpp. rewrite length_gen_coeffs.
      assert (Hz : eval (root i) (replicate n 0) = 0).
      { clear. unfold eval, horner. induction n as [|n IH]; [done|]. cbn [replicate foldl].
        by rewrite gmul_0_l, Z.lxor_0_l. }
      by rewrite Hz, gmul_0_l, Z.lxor_0_l, Z.lxor_nilpotent. }
  destruct (Hrun 0%nat) as (ecc & Hr & Hl & Hb & _); [lia|].
  exists (gen_coeffs n), ecc. split_and!; [by apply reedSolomonComputeDivisor_Ok|done|lia|done|].
  intros i Hi. destruct (Hrun i Hi) as (ecc' & Hr' & _ & _ & He). congruence.
Qed.
