(* ===== verification/Grid.v ===== *)
(** * Square grids of modules ([vector<vector<bool> >] with [at] accesses)

    The two grids of [QrCode], [modules] and [isFunction], are lists of rows;
    [at] throws [out_of_range], also for a negative [int] coordinate, whose
    conversion to [size_t] is out of range. *)
From S2P Require Import Prelude.

Notation grid := (list (list bool)).

Definition new_grid (n : nat) : grid := replicate n (replicate n false).

(** [g.at(y).at(x)] *)
Definition grid_get (g : grid) (x y : Z) : outcome bool :=
  if (x <? 0) || (y <? 0) then throw out_of_range
  else row ← vec_at g (Z.to_nat y); vec_at row (Z.to_nat x).

(** [g.at(y).at(x) = b] *)
Definition grid_set (g : grid) (x y : Z) (b : bool) : outcome grid :=
  if (x <? 0) || (y <? 0) then throw out_of_range
  else
    row ← vec_at g (Z.to_nat y);
    row ← vec_set row (Z.to_nat x) b;
    vec_set g (Z.to_nat y) row.

(** ** Well-formed grids and their values *)
Definition grid_wf (n : Z) (g : grid) : Prop :=
  Z.of_nat (length g) = n ∧ Forall (λ row, Z.of_nat (length row) = n) g.

Definition in_grid (n x y : Z) : Prop := 0 ≤ x < n ∧ 0 ≤ y < n.

#[global] Instance in_grid_dec n x y : Decision (in_grid n x y).
Proof. unfold in_grid. apply _. Defined.

(** The value at a position, [false] outside. *)
Definition gval (g : grid) (x y : Z) : bool :=
  match grid_get g x y with Ok b => b | Fault _ => false end.

Lemma new_grid_wf n : grid_wf (Z.of_nat n) (new_grid n).
Proof.
  unfold grid_wf, new_grid. rewrite length_replicate. split; [done|].
  apply Forall_replicate. by rewrite length_replicate.
Qed.

Lemma grid_rows n g x y :
  grid_wf n g → in_grid n x y →
  ∃ row b, g !! Z.to_nat y = Some row ∧ row !! Z.to_nat x = Some b ∧
    Z.of_nat (length row) = n.
Proof.
  intros [Hl Hr] [Hx Hy].
  destruct (lookup_lt_is_Some_2 g (Z.to_nat y)) as [row Hrow]; [lia|].
  pose proof (Forall_lookup_1 _ _ _ _ Hr Hrow) as Hlen. cbv beta in Hlen.
  destruct (lookup_lt_is_Some_2 row (Z.to_nat x)) as [b Hb]; [lia|].
  eauto.
Qed.

Lemma in_grid_test n x y : in_grid n x y → (x <? 0) || (y <? 0) = false.
Proof. intros [??]. apply orb_false_iff. rewrite !Z.ltb_ge. lia. Qed.

Lemma grid_get_Ok n g x y :
  grid_wf n g → in_grid n x y → grid_get g x y = Ok (gval g x y).
Proof.
  intros Hg Hxy. destruct (grid_rows n g x y) as (row & b & Hrow & Hb & _); [done..|].
  unfold gval, grid_get, vec_at. rewrite (in_grid_test n) by done.
  by rewrite Hrow, bind_Ok_l, Hb.
Qed.

Lemma gval_lookup g x y row b :
  0 ≤ x → 0 ≤ y → g !! Z.to_nat y = Some row → row !! Z.to_nat x = Some b →
  gval g x y = b.
Proof.
  intros Hx Hy Hrow Hb. unfold gval, grid_get, vec_at.
  rewrite !(proj2 (Z.ltb_ge _ _)) by lia. cbn [orb]. by rewrite Hrow, bind_Ok_l, Hb.
Qed.

(** A write in bounds returns, keeps the shape and changes that cell only. *)
Lemma grid_set_Ok n g x y b :
  grid_wf n g → in_grid n x y →
  ∃ g', grid_set g x y b = Ok g' ∧ grid_wf n g' ∧
    ∀ x' y', in_grid n x' y' →
      gval g' x' y' = if decide (x' = x ∧ y' = y) then b else gval g x' y'.
Proof.
  intros Hg Hxy. destruct (grid_rows n g x y) as (row & b0 & Hrow & Hb & Hlen); [done..|].
  unfold grid_set. rewrite (in_grid_test n) by done. unfold vec_at.
  rewrite Hrow, bind_Ok_l. unfold vec_set. rewrite Hb, bind_Ok_l, Hrow.
  eexists. split; [done|]. split.
  - destruct Hg as [Hl Hr]. split; [by rewrite length_insert|].
    apply Forall_insert; [done|]. by rewrite length_insert.
  - intros x' y' Hxy'.
    destruct (grid_rows n g x' y') as (row' & b' & Hrow' & Hb' & Hlen'); [done..|].
    unfold in_grid in *. pose proof (lookup_lt_Some _ _ _ Hrow).
    pose proof (lookup_lt_Some _ _ _ Hb).
    destruct (decide (y' = y)) as [->|Hy].
    + rewrite Hrow in Hrow'. injection Hrow' as <-.
      destruct (decide (x' = x)) as [->|Hx].
      * rewrite decide_True by done.
        apply (gval_lookup _ _ _ (<[Z.to_nat x:=b]> row));
          [lia|lia|by apply list_lookup_insert_eq|by apply list_lookup_insert_eq].
      * rewrite decide_False by naive_solver.
        rewrite (gval_lookup g x' y row b') by (done || lia).
        apply (gval_lookup _ _ _ (<[Z.to_nat x:=b]> row));
          [lia|lia|by apply list_lookup_insert_eq|].
        rewrite list_lookup_insert_ne by lia. done.
    + rewrite decide_False by naive_solver.
      rewrite (gval_lookup g x' y' row' b') by (done || lia).
      apply (gval_lookup _ _ _ row'); [lia|lia| |done].
      rewrite list_lookup_insert_ne by lia. done.
Qed.

(** Grids of one size with the same values are equal. *)
Lemma grid_ext n g1 g2 :
  grid_wf n g1 → grid_wf n g2 →
  (∀ x y, in_grid n x y → gval g1 x y = gval g2 x y) → g1 = g2.
Proof.
  intros H1 H2 Heq. pose proof H1 as [Hl1 Hr1]. pose proof H2 as [Hl2 Hr2].
  apply list_eq_same_length with (n := length g1); [lia|lia|].
  intros i r1 r2 Hi Hg1 Hg2.
  pose proof (Forall_lookup_1 _ _ _ _ Hr1 Hg1) as Hr1l.
  pose proof (Forall_lookup_1 _ _ _ _ Hr2 Hg2) as Hr2l. cbv beta in *.
  apply list_eq_same_length with (n := length r1); [lia|lia|].
  intros j b1 b2 Hj Hb1 Hb2.
  specialize (Heq (Z.of_nat j) (Z.of_nat i)).
  erewrite (gval_lookup g1), (gval_lookup g2) in Heq;
    rewrite ?Nat2Z.id; try done || lia. apply Heq. unfold in_grid. lia.
Qed.
