(* ===== verification/QrCode.v ===== *)
(** * The QR code matrix ([lib/qrcodegen/qrcodegen.cpp], class [QrCode])

    Function patterns, codeword placement, masking, the penalty score and the
    constructor. A grid access is [modules.at(y).at(x)] and throws when it is
    out of range. *)
From S2P Require Import Prelude QrSegment QrEncode ReedSolomon Grid.

Record QrCode := {
  version : Z;
  size : Z;
  errorCorrectionLevel : Ecc;
  mask : Z;
  modules : grid;
  isFunction : grid;
}.

Definition set_grids (qr : QrCode) (m f : grid) : QrCode :=
  {| version := version qr; size := size qr;
     errorCorrectionLevel := errorCorrectionLevel qr; mask := mask qr;
     modules := m; isFunction := f |}.

(** [for (int i = a; i < b; i++)] *)
Definition range (a b : Z) : list Z := seqZ a (b - a).

Definition getBit (x i : Z) : bool := negb (Z.land (Z.shiftr x i) 1 =? 0).

(** ** Accessors *)
Definition module (qr : QrCode) (x y : Z) : outcome bool := grid_get (modules qr) x y.

Definition getModule (qr : QrCode) (x y : Z) : outcome bool :=
  if (0 <=? x) && (x <? size qr) && (0 <=? y) && (y <? size qr)
  then module qr x y else Ok false.

(** ** Drawing function modules *)
Definition setFunctionModule (qr : QrCode) (x y : Z) (isDark : bool) : outcome QrCode :=
  m ← grid_set (modules qr) x y isDark;
  f ← grid_set (isFunction qr) x y true;
  Ok (set_grids qr m f).

Definition drawFinderPattern (qr : QrCode) (x y : Z) : outcome QrCode :=
  ofold (λ qr dy,
    ofold (λ qr dx,
      let dist := Z.max (Z.abs dx) (Z.abs dy) in
      let xx := x + dx in
      let yy := y + dy in
      if (0 <=? xx) && (xx <? size qr) && (0 <=? yy) && (yy <? size qr)
      then setFunctionModule qr xx yy (negb (dist =? 2) && negb (dist =? 4))
      else Ok qr) qr (range (-4) 5)) qr (range (-4) 5).

Definition drawAlignmentPattern (qr : QrCode) (x y : Z) : outcome QrCode :=
  ofold (λ qr dy,
    ofold (λ qr dx,
      setFunctionModule qr (x + dx) (y + dy) (negb (Z.max (Z.abs dx) (Z.abs dy) =? 1)))
      qr (range (-2) 3)) qr (range (-2) 3).

(** The positions, ascending; built back to front as in the source. *)
Definition getAlignmentPatternPositions (qr : QrCode) : list Z :=
  if version qr =? 1 then []
  else
    let numAlign := Z.quot (version qr) 7 + 2 in
    let step := Z.quot (version qr * 8 + numAlign * 3 + 5) (numAlign * 4 - 4) * 2 in
    let result :=
      foldl (λ result i, (size qr - 7 - i * step) :: result) [] (range 0 (numAlign - 1)) in
    6 :: result.

(** The fifteen format bits of a level and a mask: BCH remainder by [0x537],
    then the fixed exclusive or. *)
Definition format_bits (ecl : Ecc) (msk : Z) : outcome Z :=
  let data := Z.lor (Z.shiftl (getFormatBits ecl) 3) msk in
  let rem := foldl (λ rem _, Z.lxor (Z.shiftl rem 1) (Z.shiftr rem 9 * 0x537))
               data (range 0 10) in
  let bits := Z.lxor (Z.lor (Z.shiftl data 10) rem) 0x5412 in
  _ ← cassert (Z.shiftr bits 15 =? 0);
  Ok bits.

Definition drawFormatBits (qr : QrCode) (msk : Z) : outcome QrCode :=
  bits ← format_bits (errorCorrectionLevel qr) msk;
  (* first copy *)
  qr ← ofold (λ qr i, setFunctionModule qr 8 i (getBit bits i)) qr (range 0 6);
  qr ← setFunctionModule qr 8 7 (getBit bits 6);
  qr ← setFunctionModule qr 8 8 (getBit bits 7);
  qr ← setFunctionModule qr 7 8 (getBit bits 8);
  qr ← ofold (λ qr i, setFunctionModule qr (14 - i) 8 (getBit bits i)) qr (range 9 15);
  (* second copy *)
  qr ← ofold (λ qr i, setFunctionModule qr (size qr - 1 - i) 8 (getBit bits i)) qr (range 0 8);
  qr ← ofold (λ qr i, setFunctionModule qr 8 (size qr - 15 + i) (getBit bits i)) qr (range 8 15);
  setFunctionModule qr 8 (size qr - 8) true.

(** The eighteen version bits: BCH remainder by [0x1F25]. *)
Definition version_bits (version : Z) : outcome Z :=
  let rem := foldl (λ rem _, Z.lxor (Z.shiftl rem 1) (Z.shiftr rem 11 * 0x1F25))
               version (range 0 12) in
  let bits := Z.lor (Z.shiftl version 12) rem in
  _ ← cassert (Z.shiftr bits 18 =? 0);
  Ok bits.

Definition drawVersion (qr : QrCode) : outcome QrCode :=
  if version qr <? 7 then Ok qr
  else
    bits ← version_bits (version qr);
    ofold (λ qr i,
      let bit := getBit bits i in
      let a := size qr - 11 + Z.rem i 3 in
      let b := Z.quot i 3 in
      qr ← setFunctionModule qr a b bit;
      setFunctionModule qr b a bit) qr (range 0 18).

Definition drawTiming (qr : QrCode) : outcome QrCode :=
  ofold (λ qr i,
    qr ← setFunctionModule qr 6 i (Z.rem i 2 =? 0);
    setFunctionModule qr i 6 (Z.rem i 2 =? 0)) qr (range 0 (size qr)).

(** The alignment patterns, but not on the three finder corners. *)
Definition drawAlignments (qr : QrCode) : outcome QrCode :=
  let alignPatPos := getAlignmentPatternPositions qr in
  let numAlign := length alignPatPos in
  ofold (λ qr i,
    ofold (λ qr j,
      if negb (((i =? 0)%nat && (j =? 0)%nat) || ((i =? 0)%nat && (j =? numAlign - 1)%nat)
               || ((i =? numAlign - 1)%nat && (j =? 0)%nat)) then
        x ← vec_at alignPatPos i;
        y ← vec_at alignPatPos j;
        drawAlignmentPattern qr x y
      else Ok qr) qr (seq 0 numAlign)) qr (seq 0 numAlign).

Definition drawFunctionPatterns (qr : QrCode) : outcome QrCode :=
  qr ← drawTiming qr;
  qr ← drawFinderPattern qr 3 3;
  qr ← drawFinderPattern qr (size qr - 4) 3;
  qr ← drawFinderPattern qr 3 (size qr - 4);
  qr ← drawAlignments qr;
  qr ← drawFormatBits qr 0;
  drawVersion qr.

(** ** Error correction and interleaving *)

(** Splits the data into blocks and appends each block's remainder; a short
    block gets a padding zero in front of it. The state is the blocks so far and
    the offset [k]. *)
Definition split_block (data rsDiv : list Z) (shortBlockLen blockEccLen numShortBlocks : Z)
    (st : list (list Z) * Z) (i : Z) : outcome (list (list Z) * Z) :=
  let '(blocks, k) := st in
  let stop := k + shortBlockLen - blockEccLen + (if i <? numShortBlocks then 0 else 1) in
  (* an iterator past [cend()], or a range that ends before it begins, is
     undefined *)
  if (k <? 0) || (stop <? k) || (Z.of_nat (length data) <? stop) then ub
  else
    let dat := take (Z.to_nat (stop - k)) (drop (Z.to_nat k) data) in
    let k := k + Z.of_nat (length dat) in
    ecc ← reedSolomonComputeRemainder dat rsDiv;
    let dat := if i <? numShortBlocks then dat ++ [0] else dat in
    Ok (blocks ++ [dat ++ ecc], k).

Definition interleave (blocks : list (list Z)) (padIndex numShortBlocks : Z)
    : outcome (list Z) :=
  first ← vec_at blocks 0;
  ofold (λ result i,
    ofold (λ result j,
      if negb (Z.of_nat i =? padIndex) || (numShortBlocks <=? Z.of_nat j) then
        block ← vec_at blocks j;
        b ← vec_at block i;
        Ok (result ++ [b])
      else Ok result) result (seq 0 (length blocks)))
    [] (seq 0 (length first)).

Definition addEccAndInterleave (ver : Z) (ecl : Ecc) (data : list Z) : outcome (list Z) :=
  cap ← getNumDataCodewords ver ecl;
  if negb (Z.of_nat (length data) =? cap) then throw invalid_argument
  else
    numBlocks ← table_at NUM_ERROR_CORRECTION_BLOCKS ecl ver;
    blockEccLen ← table_at ECC_CODEWORDS_PER_BLOCK ecl ver;
    raw ← getNumRawDataModules ver;
    let rawCodewords := Z.quot raw 8 in
    let numShortBlocks := numBlocks - Z.rem rawCodewords numBlocks in
    let shortBlockLen := Z.quot rawCodewords numBlocks in
    rsDiv ← reedSolomonComputeDivisor blockEccLen;
    '(blocks, _) ← ofold (split_block data rsDiv shortBlockLen blockEccLen numShortBlocks)
                     ([], 0) (range 0 numBlocks);
    result ← interleave blocks (shortBlockLen - blockEccLen) numShortBlocks;
    _ ← cassert (Z.of_nat (length result) =? rawCodewords);
    Ok result.

(** ** Codeword placement *)

(** The right column of each column pair: [size - 1], [size - 3], ..., skipping
    the vertical timing column. [fuel] bounds the number of pairs. *)
Fixpoint right_columns (fuel : nat) (right : Z) : list Z :=
  match fuel with
  | O => []
  | S fuel =>
      if 1 <=? right then
        let right := if right =? 6 then 5 else right in
        right :: right_columns fuel (right - 2)
      else []
  end.

(** The funny zigzag scan, as the sequence of (x, y) it visits. *)
Definition zigzag (size : Z) : list (Z * Z) :=
  right ← right_columns (Z.to_nat size) (size - 1);
  vert ← range 0 size;
  j ← [0; 1];
  let upward := Z.land (right + 1) 2 =? 0 in
  [(right - j, if upward then size - 1 - vert else vert)].

Definition place_bit (data : list Z) (isFunc : grid) (st : grid * nat) (xy : Z * Z)
    : outcome (grid * nat) :=
  let '(m, i) := st in
  let '(x, y) := xy in
  f ← grid_get isFunc x y;
  if negb f && (i <? length data * 8)%nat then
    byte ← vec_at data (i / 8);
    m ← grid_set m x y (getBit byte (7 - Z.land (Z.of_nat i) 7));
    Ok (m, S i)
  else Ok (m, i).

Definition drawCodewords (qr : QrCode) (data : list Z) : outcome QrCode :=
  raw ← getNumRawDataModules (version qr);
  if negb (Z.of_nat (length data) =? Z.quot raw 8) then throw invalid_argument
  else
    '(m, i) ← ofold (place_bit data (isFunction qr)) (modules qr, 0%nat) (zigzag (size qr));
    _ ← cassert (i =? length data * 8)%nat;
    Ok (set_grids qr m (isFunction qr)).

(** ** Masking *)
Definition mask_invert (msk x y : Z) : outcome bool :=
  match msk with
  | 0 => Ok ((x + y) mod 2 =? 0)
  | 1 => Ok (y mod 2 =? 0)
  | 2 => Ok (x mod 3 =? 0)
  | 3 => Ok ((x + y) mod 3 =? 0)
  | 4 => Ok ((x / 3 + y / 2) mod 2 =? 0)
  | 5 => Ok (x * y mod 2 + x * y mod 3 =? 0)
  | 6 => Ok ((x * y mod 2 + x * y mod 3) mod 2 =? 0)
  | 7 => Ok (((x + y) mod 2 + x * y mod 3) mod 2 =? 0)
  | _ => throw logic_error
  end.

(** All positions, row by row. *)
Definition positions (size : Z) : list (Z * Z) :=
  y ← range 0 size; x ← range 0 size; [(x, y)].

Definition mask_cell (msk : Z) (isFunc : grid) (m : grid) (xy : Z * Z) : outcome grid :=
  let '(x, y) := xy in
  invert ← mask_invert msk x y;
  b ← grid_get m x y;
  f ← grid_get isFunc x y;
  grid_set m x y (xorb b (invert && negb f)).

Definition applyMask (qr : QrCode) (msk : Z) : outcome QrCode :=
  if (msk <? 0) || (7 <? msk) then throw domain_error
  else
    m ← ofold (mask_cell msk (isFunction qr)) (modules qr) (positions (size qr));
    Ok (set_grids qr m (isFunction qr)).

(** ** Penalty score *)
Definition PENALTY_N1 : Z := 3.
Definition PENALTY_N2 : Z := 3.
Definition PENALTY_N3 : Z := 40.
Definition PENALTY_N4 : Z := 10.

(** A [std::array<int, 7>]; [copy_backward] moves every entry but the last one
    place to the right. *)
Definition finderPenaltyAddHistory (size currentRunLength : Z) (runHistory : list Z)
    : outcome (list Z) :=
  h0 ← vec_at runHistory 0;
  let currentRunLength := if h0 =? 0 then currentRunLength + size else currentRunLength in
  Ok (currentRunLength :: take 6 runHistory).

Definition finderPenaltyCountPatterns (size : Z) (runHistory : list Z) : outcome Z :=
  n ← vec_at runHistory 1;
  _ ← cassert (n <=? size * 3);
  h0 ← vec_at runHistory 0;
  h2 ← vec_at runHistory 2;
  h3 ← vec_at runHistory 3;
  h4 ← vec_at runHistory 4;
  h5 ← vec_at runHistory 5;
  h6 ← vec_at runHistory 6;
  let core := (0 <? n) && (h2 =? n) && (h3 =? n * 3) && (h4 =? n) && (h5 =? n) in
  Ok ((if core && (n * 4 <=? h0) && (n <=? h6) then 1 else 0)
      + (if core && (n * 4 <=? h6) && (n <=? h0) then 1 else 0)).

Definition finderPenaltyTerminateAndCount (size : Z) (currentRunColor : bool)
    (currentRunLength : Z) (runHistory : list Z) : outcome Z :=
  '(len, runHistory) ←
    (if currentRunColor then
       h ← finderPenaltyAddHistory size currentRunLength runHistory; Ok (0, h)
     else Ok (currentRunLength, runHistory));
  runHistory ← finderPenaltyAddHistory size (len + size) runHistory;
  finderPenaltyCountPatterns size runHistory.

(** The state of the loop over one row or column. *)
Record run_state := { rs_result : Z; rs_color : bool; rs_run : Z; rs_history : list Z }.

Definition run_step (size : Z) (st : run_state) (c : bool) : outcome run_state :=
  if Bool.eqb c (rs_color st) then
    let run := rs_run st + 1 in
    Ok {| rs_result := if run =? 5 then rs_result st + PENALTY_N1
                       else if 5 <? run then rs_result st + 1 else rs_result st;
          rs_color := rs_color st; rs_run := run; rs_history := rs_history st |}
  else
    history ← finderPenaltyAddHistory size (rs_run st) (rs_history st);
    result ← (if negb (rs_color st) then
                n ← finderPenaltyCountPatterns size history;
                Ok (rs_result st + n * PENALTY_N3)
              else Ok (rs_result st));
    Ok {| rs_result := result; rs_color := c; rs_run := 1; rs_history := history |}.

(** One line of modules, added to [result]. *)
Definition line_penalty (size result : Z) (line : list bool) : outcome Z :=
  st ← ofold (run_step size)
         {| rs_result := result; rs_color := false; rs_run := 0;
            rs_history := replicate 7 0 |} line;
  n ← finderPenaltyTerminateAndCount size (rs_color st) (rs_run st) (rs_history st);
  Ok (rs_result st + n * PENALTY_N3).

Definition read_row (g : grid) (size y : Z) : outcome (list bool) :=
  ofold (λ l x, b ← grid_get g x y; Ok (l ++ [b])) [] (range 0 size).
Definition read_column (g : grid) (size x : Z) : outcome (list bool) :=
  ofold (λ l y, b ← grid_get g x y; Ok (l ++ [b])) [] (range 0 size).

Definition count_dark (g : grid) : Z :=
  foldl (λ dark row, foldl (λ dark (color : bool), if color then dark + 1 else dark) dark row)
    0 g.

(** The [k] of the balance rule. *)
Definition balance_k (dark total : Z) : Z :=
  Z.quot (Z.abs (dark * 20 - total * 10) + total - 1) total - 1.

Definition getPenaltyScore (qr : QrCode) : outcome Z :=
  let size := size qr in
  let g := modules qr in
  result ← ofold (λ result y, line ← read_row g size y; line_penalty size result line)
             0 (range 0 size);
  result ← ofold (λ result x, line ← read_column g size x; line_penalty size result line)
             result (range 0 size);
  result ← ofold (λ result y,
    ofold (λ result x,
      color ← grid_get g x y;
      c1 ← grid_get g (x + 1) y;
      c2 ← grid_get g x (y + 1);
      c3 ← grid_get g (x + 1) (y + 1);
      Ok (if Bool.eqb color c1 && Bool.eqb color c2 && Bool.eqb color c3
          then result + PENALTY_N2 else result)) result (range 0 (size - 1)))
    result (range 0 (size - 1));
  let k := balance_k (count_dark g) (size * size) in
  _ ← cassert ((0 <=? k) && (k <=? 9));
  let result := result + k * PENALTY_N4 in
  _ ← cassert ((0 <=? result) && (result <=? 2568888));
  Ok result.

(** ** The constructor *)
Definition LONG_MAX : Z := 9223372036854775807.

(** One iteration of the automatic mask choice. *)
Definition try_mask (st : QrCode * Z * Z) (i : Z) : outcome (QrCode * Z * Z) :=
  let '(qr, msk, minPenalty) := st in
  qr ← applyMask qr i;
  qr ← drawFormatBits qr i;
  penalty ← getPenaltyScore qr;
  let '(msk, minPenalty) :=
    if penalty <? minPenalty then (i, penalty) else (msk, minPenalty) in
  qr ← applyMask qr i;
  Ok (qr, msk, minPenalty).

Definition mkQrCode (ver : Z) (ecl : Ecc) (dataCodewords : list Z) (msk : Z)
    : outcome QrCode :=
  if (ver <? MIN_VERSION) || (MAX_VERSION <? ver) then throw domain_error
  else if (msk <? -1) || (7 <? msk) then throw domain_error
  else
    let size := ver * 4 + 17 in
    let qr := {| version := ver; size := size; errorCorrectionLevel := ecl; mask := 0;
                 modules := new_grid (Z.to_nat size);
                 isFunction := new_grid (Z.to_nat size) |} in
    qr ← drawFunctionPatterns qr;
    allCodewords ← addEccAndInterleave ver ecl dataCodewords;
    qr ← drawCodewords qr allCodewords;
    '(qr, msk, _) ←
      (if msk =? -1 then ofold try_mask (qr, msk, LONG_MAX) (range 0 8)
       else Ok (qr, msk, LONG_MAX));
    _ ← cassert ((0 <=? msk) && (msk <=? 7));
    let qr := {| version := version qr; size := QrCode.size qr;
                 errorCorrectionLevel := errorCorrectionLevel qr; mask := msk;
                 modules := modules qr; isFunction := isFunction qr |} in
    qr ← applyMask qr msk;
    qr ← drawFormatBits qr msk;
    Ok (set_grids qr (modules qr) []).

(** ** The factory functions *)
Definition encodeSegments (segs : list QrSegment) (ecl : Ecc)
    (minVersion maxVersion mask : Z) (boostEcl : bool) : outcome QrCode :=
  '(version, ecl, dataCodewords) ←
    encodeSegments_data segs ecl minVersion maxVersion mask boostEcl;
  mkQrCode version ecl dataCodewords mask.

(** The default arguments of the declaration: versions 1 to 40, automatic mask,
    boosted level. *)
Definition encodeText (text : list Z) (ecl : Ecc) : outcome QrCode :=
  segs ← makeSegments text;
  encodeSegments segs ecl MIN_VERSION MAX_VERSION (-1) true.

Definition encodeBinary (data : list Z) (ecl : Ecc) : outcome QrCode :=
  seg ← makeBytes data;
  encodeSegments [seg] ecl MIN_VERSION MAX_VERSION (-1) true.

(** ** [display] *)
Definition char_map : list string := ["█"; "▀"; "▄"; " "]%string.
Definition bsize : Z := 2.

(** [for (int i = a; i < b; i += 2)] *)
Definition range2 (a b : Z) : list Z := (λ k, a + 2 * k) <$> range 0 (Z.quot (b - a + 1) 2).

Definition display_cell (qr : QrCode) (i : Z) (os : string) (j : Z) : outcome string :=
  top ← getModule qr j i;
  bottom ← (if i + 1 <? size qr + bsize then getModule qr j (i + 1) else Ok true);
  let c := Z.shiftl (Z.b2z top) 1 + Z.b2z bottom in
  s ← deref (char_map !! Z.to_nat c);
  Ok (os +:+ s)%string.

Definition newline : string := String (Ascii.ascii_of_nat 10) EmptyString.

Definition display (os : string) (qr : QrCode) : outcome string :=
  os ← ofold (λ os i,
    os ← ofold (display_cell qr i) (os +:+ "  ")%string (range (- bsize) (size qr + bsize));
    Ok (os +:+ "  " +:+ newline)%string)
    (os +:+ newline)%string (range2 (- bsize) (size qr + bsize));
  Ok (os +:+ newline)%string.
