(* ===== verification/QrDrawFacts.v ===== *)
(** * Drawing operations: what they touch

    A drawing operation of [QrCode] writes function modules at a set of
    positions that depends only on the version: it returns, marks exactly these
    positions as function modules and changes no other module. *)
From S2P Require Import Prelude QrSegment QrEncode QrEncodeFacts ReedSolomon Grid QrCode.

(** ** Well-formed symbols *)
Record qr_wf (v : Z) (ecl : Ecc) (qr : QrCode) : Prop := {
  qw_version : version qr = v;
  qw_size : size qr = v * 4 + 17;
  qw_ecl : errorCorrectionLevel qr = ecl;
  qw_modules : grid_wf (v * 4 + 17) (modules qr);
  qw_function : grid_wf (v * 4 + 17) (isFunction qr);
}.

Definition fval (qr : QrCode) (x y : Z) : bool := gval (isFunction qr) x y.
Definition mval (qr : QrCode) (x y : Z) : bool := gval (modules qr) x y.

Section draws.
Context (v : Z) (ecl : Ecc).
Let n := v * 4 + 17.

(** [op] writes the positions [W] and no other, and the values it leaves there do
    not depend on the symbol it draws on. *)
Definition draws (W : list (Z * Z)) (op : QrCode → outcome QrCode) : Prop :=
  ∃ val : Z → Z → bool, ∀ qr, qr_wf v ecl qr →
  ∃ qr', op qr = Ok qr' ∧ qr_wf v ecl qr' ∧ mask qr' = mask qr ∧
    ∀ x y, in_grid n x y →
      fval qr' x y = fval qr x y || bool_decide ((x, y) ∈ W) ∧
      mval qr' x y = if bool_decide ((x, y) ∈ W) then val x y else mval qr x y.

Lemma draws_ret : draws [] Ok.
Proof.
  exists (λ _ _, false). intros qr Hqr. exists qr. split_and!; [done..|]. intros x y _.
  rewrite bool_decide_false by set_solver. by rewrite orb_false_r.
Qed.

Lemma draws_bind W1 W2 op1 op2 :
  draws W1 op1 → draws W2 op2 → draws (W1 ++ W2) (λ qr, qr ← op1 qr; op2 qr).
Proof.
  intros [val1 H1] [val2 H2].
  exists (λ x y, if bool_decide ((x, y) ∈ W2) then val2 x y else val1 x y).
  intros qr Hqr. destruct (H1 qr Hqr) as (q1 & -> & Hw1 & Hm1 & Hv1).
  destruct (H2 q1 Hw1) as (q2 & Hq2 & Hw2 & Hm2 & Hv2).
  exists q2. rewrite bind_Ok_l. split_and!; [done|done|congruence|]. intros x y Hxy.
  destruct (Hv1 x y Hxy) as [Hf1 Hg1], (Hv2 x y Hxy) as [Hf2 Hg2].
  assert (Happ : bool_decide ((x, y) ∈ W1 ++ W2) =
            bool_decide ((x, y) ∈ W1) || bool_decide ((x, y) ∈ W2)).
  { apply eq_bool_prop_intro. rewrite orb_True, !bool_decide_spec. by rewrite elem_of_app. }
  rewrite Hf2, Hf1, Hg2, Hg1, Happ. split; [by rewrite orb_assoc|].
  by destruct (bool_decide (_ ∈ W1)), (bool_decide (_ ∈ W2)).
Qed.

Lemma draws_ofold {A} (W : A → list (Z * Z)) (body : QrCode → A → outcome QrCode) l :
  (∀ a, a ∈ l → draws (W a) (λ qr, body qr a)) →
  draws (l ≫= W) (λ qr, ofold body qr l).
Proof.
  induction l as [|a l IH]; intros H; [exact draws_ret|]. rewrite bind_cons.
  apply (draws_bind (W a) (l ≫= W) (λ qr, body qr a) (λ qr, ofold body qr l)).
  - apply H. set_solver.
  - apply IH. intros b Hb. apply H. set_solver.
Qed.

Lemma draws_ext W op op' :
  (∀ qr, qr_wf v ecl qr → op qr = op' qr) → draws W op' → draws W op.
Proof.
  intros Heq [val H]. exists val. intros qr Hqr. rewrite Heq by done. by apply H.
Qed.

Lemma draws_if (b : bool) W op :
  (b = true → draws W op) → draws (if b then W else []) (λ qr, if b then op qr else Ok qr).
Proof. intros H. destruct b; [by apply H|exact draws_ret]. Qed.

Lemma draws_set x y b : in_grid n x y → draws [(x, y)] (λ qr, setFunctionModule qr x y b).
Proof.
  intros Hxy. exists (λ _ _, b). intros qr Hqr. unfold setFunctionModule.
  destruct (grid_set_Ok n (modules qr) x y b) as (m & Hm & Hmw & Hmv);
    [apply Hqr|done|].
  destruct (grid_set_Ok n (isFunction qr) x y true) as (f & Hf & Hfw & Hfv);
    [apply Hqr|done|].
  rewrite Hm, bind_Ok_l, Hf, bind_Ok_l. eexists. split; [done|].
  split; [destruct Hqr; by split|]. split; [done|]. intros x' y' Hxy'.
  unfold fval, mval; simpl. rewrite Hmv, Hfv by done.
  destruct (decide (x' = x ∧ y' = y)) as [[-> ->]|Hne].
  - rewrite bool_decide_true by set_solver. by rewrite orb_true_r.
  - rewrite bool_decide_false by (rewrite list_elem_of_singleton; naive_solver).
    by rewrite orb_false_r.
Qed.
End draws.

Create HintDb draws.
#[export] Hint Resolve draws_ret : draws.

Lemma elem_of_range a b x : x ∈ range a b ↔ a ≤ x < b.
Proof. unfold range. rewrite elem_of_seqZ. lia. Qed.

(** ** The drawing operations *)

(** Positions of each pattern in a symbol of size [n]. *)
Definition timing_cells (n : Z) : list (Z * Z) :=
  i ← range 0 n; [(6, i); (i, 6)].

Definition finder_cells (n x y : Z) : list (Z * Z) :=
  dy ← range (-4) 5; dx ← range (-4) 5;
  if (0 <=? x + dx) && (x + dx <? n) && (0 <=? y + dy) && (y + dy <? n)
  then [(x + dx, y + dy)] else [].

Definition alignment_cells (x y : Z) : list (Z * Z) :=
  dy ← range (-2) 3; dx ← range (-2) 3; [(x + dx, y + dy)].

Definition format_cells (n : Z) : list (Z * Z) :=
  (i ← range 0 6; [(8, i)]) ++ [(8, 7)] ++ [(8, 8)] ++ [(7, 8)] ++
  (i ← range 9 15; [(14 - i, 8)]) ++ (i ← range 0 8; [(n - 1 - i, 8)]) ++
  (i ← range 8 15; [(8, n - 15 + i)]) ++ [(8, n - 8)].

Definition version_cells (n : Z) : list (Z * Z) :=
  i ← range 0 18; [(n - 11 + Z.rem i 3, Z.quot i 3); (Z.quot i 3, n - 11 + Z.rem i 3)].

(** The assertions on the fifteen and eighteen bits hold. *)
Lemma format_bits_Ok ecl msk :
  0 ≤ msk ≤ 7 → ∃ bits, format_bits ecl msk = Ok bits ∧ 0 ≤ bits < 2 ^ 15.
Proof.
  intros Hm.
  assert (Hc : forallb (λ m, forallb (λ e, match format_bits e m with
    | Ok b => (0 <=? b) && (b <? 2 ^ 15) | Fault _ => false end) levels)
    (seqZ 0 8) = true) by (vm_compute; done).
  rewrite forallb_Forall, Forall_forall in Hc. specialize (Hc msk).
  rewrite forallb_Forall, Forall_forall in Hc.
  specialize (Hc ltac:(apply elem_of_seqZ; lia) ecl (elem_of_levels ecl)).
  destruct (format_bits ecl msk) as [b|]; [|done]. zbool. eauto.
Qed.

Lemma version_bits_Ok v :
  1 ≤ v ≤ 40 → ∃ bits, version_bits v = Ok bits ∧ 0 ≤ bits < 2 ^ 18.
Proof.
  intros Hv. pose proof (forall_versions (λ v, match version_bits v with
    | Ok b => (0 <=? b) && (b <? 2 ^ 18) | Fault _ => false end)
    ltac:(vm_compute; done) v Hv) as H. cbv beta in H.
  destruct (version_bits v) as [b|]; [|done]. zbool. eauto.
Qed.

Section patterns.
#[local] Set Default Proof Using "All".
Context (v : Z) (ecl : Ecc) (Hv : 1 ≤ v ≤ 40).
Let n := v * 4 + 17.

Lemma draws_timing : draws v ecl (timing_cells n) drawTiming.
Proof.
  apply (draws_ext _ _ _ _ (λ qr, ofold (λ qr i,
    qr ← setFunctionModule qr 6 i (Z.rem i 2 =? 0);
    setFunctionModule qr i 6 (Z.rem i 2 =? 0)) qr (range 0 n))).
  { intros qr Hqr. unfold drawTiming. by rewrite (qw_size _ _ _ Hqr). }
  apply draws_ofold. intros i Hi%elem_of_range.
  apply (draws_bind _ _ [(6, i)] [(i, 6)]); apply draws_set; unfold in_grid; lia.
Qed.

Lemma draws_finder x y : draws v ecl (finder_cells n x y) (λ qr, drawFinderPattern qr x y).
Proof.
  unfold drawFinderPattern, finder_cells. apply draws_ofold. intros dy _.
  apply draws_ofold. intros dx _.
  set (b := (0 <=? x + dx) && (x + dx <? n) && (0 <=? y + dy) && (y + dy <? n)).
  apply (draws_ext _ _ _ _ (λ qr, if b then setFunctionModule qr (x + dx) (y + dy)
    (negb (Z.max (Z.abs dx) (Z.abs dy) =? 2) && negb (Z.max (Z.abs dx) (Z.abs dy) =? 4))
    else Ok qr)).
  { intros qr Hqr. by rewrite (qw_size _ _ _ Hqr). }
  apply draws_if. intros Hb. apply draws_set. unfold b in Hb. zbool.
  unfold in_grid. lia.
Qed.

Lemma draws_alignment x y :
  2 ≤ x < n - 2 → 2 ≤ y < n - 2 →
  draws v ecl (alignment_cells x y) (λ qr, drawAlignmentPattern qr x y).
Proof.
  intros Hx Hy. unfold drawAlignmentPattern, alignment_cells.
  apply draws_ofold. intros dy Hdy%elem_of_range.
  apply draws_ofold. intros dx Hdx%elem_of_range.
  apply draws_set. unfold in_grid. lia.
Qed.

Lemma draws_format msk :
  0 ≤ msk ≤ 7 → draws v ecl (format_cells n) (λ qr, drawFormatBits qr msk).
Proof.
  intros Hm. destruct (format_bits_Ok ecl msk Hm) as (bits & Hbits & _).
  apply (draws_ext _ _ _ _ (λ qr,
    qr ← ofold (λ qr i, setFunctionModule qr 8 i (getBit bits i)) qr (range 0 6);
    qr ← setFunctionModule qr 8 7 (getBit bits 6);
    qr ← setFunctionModule qr 8 8 (getBit bits 7);
    qr ← setFunctionModule qr 7 8 (getBit bits 8);
    qr ← ofold (λ qr i, setFunctionModule qr (14 - i) 8 (getBit bits i)) qr (range 9 15);
    qr ← ofold (λ qr i, setFunctionModule qr (size qr - 1 - i) 8 (getBit bits i)) qr
           (range 0 8);
    qr ← ofold (λ qr i, setFunctionModule qr 8 (size qr - 15 + i) (getBit bits i)) qr
           (range 8 15);
    setFunctionModule qr 8 (size qr - 8) true)).
  { intros qr Hqr. unfold drawFormatBits. by rewrite (qw_ecl _ _ _ Hqr), Hbits, bind_Ok_l. }
  unfold format_cells.
  repeat match goal with
    | |- draws _ _ (_ ++ _) _ => apply draws_bind
    | |- draws _ _ (_ ≫= _) _ => apply draws_ofold; intros i Hi%elem_of_range
    end;
  try (apply draws_set; unfold in_grid; lia).
  - eapply draws_ext; [|apply (draws_set v ecl (n - 1 - i) 8 (getBit bits i));
      unfold in_grid; lia].
    intros qr Hqr. by rewrite (qw_size _ _ _ Hqr).
  - eapply draws_ext; [|apply (draws_set v ecl 8 (n - 15 + i) (getBit bits i));
      unfold in_grid; lia].
    intros qr Hqr. by rewrite (qw_size _ _ _ Hqr).
  - eapply draws_ext; [|apply (draws_set v ecl 8 (n - 8) true); unfold in_grid; lia].
    intros qr Hqr. by rewrite (qw_size _ _ _ Hqr).
Qed.
End patterns.

(** ** The whole function pattern *)

(** The object the constructor starts drawing on. *)
Definition blank (v : Z) (ecl : Ecc) : QrCode :=
  {| version := v; size := v * 4 + 17; errorCorrectionLevel := ecl; mask := 0;
     modules := new_grid (Z.to_nat (v * 4 + 17));
     isFunction := new_grid (Z.to_nat (v * 4 + 17)) |}.

Lemma blank_wf v ecl : 1 ≤ v → qr_wf v ecl (blank v ecl).
Proof.
  intros Hv. split; simpl; try done;
    rewrite <-(Z2Nat.id (v * 4 + 17)) at 1 by lia; apply new_grid_wf.
Qed.

Definition align_positions (v : Z) : list Z := getAlignmentPatternPositions (blank v LOW).

Lemma align_positions_wf v ecl qr :
  qr_wf v ecl qr → getAlignmentPatternPositions qr = align_positions v.
Proof.
  intros Hqr. unfold align_positions, getAlignmentPatternPositions.
  by rewrite (qw_version _ _ _ Hqr), (qw_size _ _ _ Hqr).
Qed.

Definition finder_corner (k i j : nat) : bool :=
  ((i =? 0)%nat && (j =? 0)%nat) || ((i =? 0)%nat && (j =? k - 1)%nat)
  || ((i =? k - 1)%nat && (j =? 0)%nat).

Definition align_cells (v : Z) : list (Z * Z) :=
  let ps := align_positions v in
  i ← seq 0 (length ps); j ← seq 0 (length ps);
  if negb (finder_corner (length ps) i j)
  then alignment_cells (nth i ps 0) (nth j ps 0) else [].

(** Every alignment position lies between the timing line and its mirror
    image, so that the 5x5 pattern is in bounds; the list ascends from 6 to
    [size - 7]. *)
Lemma align_positions_range v x :
  1 ≤ v ≤ 40 → x ∈ align_positions v → 6 ≤ x ≤ v * 4 + 17 - 7.
Proof.
  intros Hv Hx. pose proof (forall_versions (λ v, forallb (λ x,
    (6 <=? x) && (x <=? v * 4 + 17 - 7)) (align_positions v))
    ltac:(vm_compute; done) v Hv) as H. cbv beta in H.
  rewrite forallb_Forall, Forall_forall in H. specialize (H x Hx). zbool. lia.
Qed.

Lemma vec_at_nth {A} (l : list A) i d : (i < length l)%nat → vec_at l i = Ok (nth i l d).
Proof.
  intros Hi. unfold vec_at. destruct (lookup_lt_is_Some_2 l i Hi) as [x Hx].
  rewrite Hx. f_equal. symmetry. apply nth_lookup_Some with (1 := Hx).
Qed.

Definition function_cells (v : Z) : list (Z * Z) :=
  let n := v * 4 + 17 in
  timing_cells n ++ finder_cells n 3 3 ++ finder_cells n (n - 4) 3 ++
  finder_cells n 3 (n - 4) ++ align_cells v ++ format_cells n ++
  (if negb (v <? 7) then version_cells n else []).

Section function_patterns.
Context (v : Z) (ecl : Ecc) (Hv : 1 ≤ v ≤ 40).
#[local] Set Default Proof Using "All".
Let n := v * 4 + 17.

Lemma draws_alignments : draws v ecl (align_cells v) drawAlignments.
Proof.
  set (ps := align_positions v).
  apply (draws_ext _ _ _ _ (λ qr, ofold (λ qr i, ofold (λ qr j,
    if negb (finder_corner (length ps) i j) then
      drawAlignmentPattern qr (nth i ps 0) (nth j ps 0)
    else Ok qr) qr (seq 0 (length ps))) qr (seq 0 (length ps)))).
  { intros qr Hqr. unfold drawAlignments. rewrite (align_positions_wf v ecl) by done.
    fold ps. apply ofold_ext. intros q i Hi%elem_of_seq.
    apply ofold_ext. intros q' j Hj%elem_of_seq.
    unfold finder_corner. destruct (negb _); [|done].
    by rewrite !(vec_at_nth _ _ 0), !bind_Ok_l by lia. }
  unfold align_cells. fold ps.
  apply draws_ofold. intros i Hi%elem_of_seq.
  apply draws_ofold. intros j Hj%elem_of_seq.
  apply draws_if. intros _.
  assert (Hr : ∀ k, (k < length ps)%nat → 6 ≤ nth k ps 0 ≤ n - 7).
  { intros k Hk. apply align_positions_range; [done|]. fold ps.
    apply list_elem_of_In, nth_In, Hk. }
  pose proof (Hr i). pose proof (Hr j). apply draws_alignment; lia.
Qed.

Lemma draws_version :
  draws v ecl (if negb (v <? 7) then version_cells n else []) drawVersion.
Proof.
  destruct (version_bits_Ok v Hv) as (bits & Hbits & _).
  apply (draws_ext _ _ _ _ (λ qr, if negb (v <? 7) then
    ofold (λ qr i,
      qr ← setFunctionModule qr (n - 11 + Z.rem i 3) (Z.quot i 3) (getBit bits i);
      setFunctionModule qr (Z.quot i 3) (n - 11 + Z.rem i 3) (getBit bits i))
      qr (range 0 18) else Ok qr)).
  { intros qr Hqr. unfold drawVersion. rewrite (qw_version _ _ _ Hqr).
    destruct (v <? 7); cbn [negb]; [done|]. rewrite Hbits, bind_Ok_l.
    apply (ofold_ext_inv _ (qr_wf v ecl)); [done| |].
    - intros q i Hq Hi%elem_of_range. by rewrite (qw_size _ _ _ Hq).
    - intros q i q' Hq Hi%elem_of_range Hrun. rewrite (qw_size _ _ _ Hq) in Hrun.
      assert (Hr : 0 ≤ Z.rem i 3 < 3 ∧ 0 ≤ Z.quot i 3 < 6)
        by (Z.to_euclidean_division_equations; lia).
      destruct (draws_bind v ecl [(n - 11 + Z.rem i 3, Z.quot i 3)]
        [(Z.quot i 3, n - 11 + Z.rem i 3)] _ _
        (draws_set v ecl (n - 11 + Z.rem i 3) (Z.quot i 3) (getBit bits i)
           ltac:(unfold in_grid; lia))
        (draws_set v ecl (Z.quot i 3) (n - 11 + Z.rem i 3) (getBit bits i)
           ltac:(unfold in_grid; lia))) as [val Hd].
      destruct (Hd q Hq) as (q2 & Hq2 & Hw & _). fold n in Hrun.
      rewrite Hrun in Hq2. by injection Hq2 as ->. }
  apply draws_if. intros Hb. unfold version_cells.
  apply draws_ofold. intros i Hi%elem_of_range.
  assert (Hr : 0 ≤ Z.rem i 3 < 3 ∧ 0 ≤ Z.quot i 3 < 6)
    by (Z.to_euclidean_division_equations; lia).
  apply (draws_bind _ _ [_] [_]); apply draws_set; unfold in_grid; lia.
Qed.

Lemma draws_function_patterns : draws v ecl (function_cells v) drawFunctionPatterns.
Proof.
  unfold drawFunctionPatterns, function_cells. fold n.
  apply draws_bind; [by apply draws_timing|].
  apply draws_bind; [by apply draws_finder|].
  apply draws_bind.
  { eapply draws_ext; [|by apply (draws_finder v ecl Hv (n - 4) 3)].
    intros qr Hqr. by rewrite (qw_size _ _ _ Hqr). }
  apply draws_bind.
  { eapply draws_ext; [|by apply (draws_finder v ecl Hv 3 (n - 4))].
    intros qr Hqr. by rewrite (qw_size _ _ _ Hqr). }
  apply draws_bind; [exact draws_alignments|].
  apply draws_bind; [apply draws_format; lia|exact draws_version].
Qed.
End function_patterns.
