(* ===== verification/QrPlaceFacts.v ===== *)
(** * Codeword placement and masking

    The zigzag scan visits distinct positions; [drawCodewords] stores the bits
    of the codewords in the non-function positions it meets, and reading these
    positions in the same order returns them. Masking is an involution that
    leaves function modules alone. *)
From S2P Require Import Prelude QrSegment QrSegmentFacts QrEncode QrEncodeFacts.
From S2P Require Import ReedSolomon Grid QrCode QrDrawFacts.

(** ** The scan *)
Lemma right_columns_bounds fuel r x :
  x ∈ right_columns fuel r → 1 ≤ x ≤ r.
Proof.
  revert r. induction fuel as [|fuel IH]; intros r; simpl; [set_solver|].
  destruct (1 <=? r) eqn:E1; zbool; [|set_solver].
  destruct (r =? 6) eqn:E6; zbool; rewrite elem_of_cons; intros [->|Hx]; try lia;
    apply IH in Hx; lia.
Qed.

Lemma right_columns_spread fuel r :
  StronglySorted (λ a b, b ≤ a - 2) (right_columns fuel r).
Proof.
  revert r. induction fuel as [|fuel IH]; intros r; simpl; [constructor|].
  destruct (1 <=? r) eqn:E1; [|constructor].
  destruct (r =? 6); apply SSorted_cons; try apply IH; apply Forall_forall;
    intros x Hx; apply right_columns_bounds in Hx; lia.
Qed.

Lemma spread_unique l a b :
  StronglySorted (λ a b : Z, b ≤ a - 2) l → a ∈ l → b ∈ l → Z.abs (a - b) ≤ 1 → a = b.
Proof.
  induction 1 as [|c l Hs IH Hc]; [set_solver|].
  rewrite Forall_forall in Hc. rewrite !elem_of_cons.
  intros [->|Ha] [->|Hb] Hd; [done| | |by apply IH].
  - apply Hc in Hb. lia.
  - apply Hc in Ha. lia.
Qed.

Lemma spread_nodup l : StronglySorted (λ a b : Z, b ≤ a - 2) l → NoDup l.
Proof.
  induction 1 as [|c l Hs IH Hc]; constructor; [|done].
  rewrite Forall_forall in Hc. intros Hin%Hc. lia.
Qed.

Lemma elem_of_zigzag n x y :
  (x, y) ∈ zigzag n →
  ∃ r vert j, r ∈ right_columns (Z.to_nat n) (n - 1) ∧ vert ∈ range 0 n ∧
    (j = 0 ∨ j = 1) ∧ x = r - j ∧
    y = if Z.land (r + 1) 2 =? 0 then n - 1 - vert else vert.
Proof.
  unfold zigzag. rewrite list_elem_of_bind. intros (r & Hx & Hr).
  apply list_elem_of_bind in Hx as (vert & Hx & Hvert).
  apply list_elem_of_bind in Hx as (j & Hx & Hj).
  apply list_elem_of_singleton in Hx. injection Hx as -> ->.
  exists r, vert, j. split_and!; [done|done|set_solver|done|done].
Qed.

Lemma zigzag_in_grid n x y : (x, y) ∈ zigzag n → in_grid n x y.
Proof.
  intros (r & vert & j & Hr & Hv & Hj & -> & ->)%elem_of_zigzag.
  apply right_columns_bounds in Hr. apply elem_of_range in Hv.
  unfold in_grid. case_match; lia.
Qed.

Lemma zigzag_nodup n : NoDup (zigzag n).
Proof.
  unfold zigzag. apply NoDup_bind.
  - intros r1 r2 [x y] Hr1 Hr2 H1 H2.
    apply (spread_unique _ _ _ (right_columns_spread _ _) Hr1 Hr2).
    set_unfold in H1. set_unfold in H2. naive_solver lia.
  - intros r Hr. apply NoDup_bind.
    + intros v1 v2 [x y] Hv1 Hv2 H1 H2. set_unfold in H1. set_unfold in H2.
      destruct (Z.land (r + 1) 2 =? 0); naive_solver lia.
    + intros vert _. apply NoDup_bind; [|intros; apply NoDup_singleton|].
      * intros j1 j2 [x y] _ _ H1 H2. set_unfold in H1. set_unfold in H2.
        naive_solver lia.
      * apply NoDup_cons. split; [set_solver|]. apply NoDup_singleton.
    + apply NoDup_seqZ.
  - apply spread_nodup, right_columns_spread.
Qed.

(** ** Placement *)

(** The positions that receive data, in order. *)
Definition is_free (f : grid) (c : Z * Z) : Prop := gval f c.1 c.2 = false.
#[global] Instance is_free_dec f c : Decision (is_free f c).
Proof. unfold is_free. apply _. Defined.

Definition free_cells (f : grid) (l : list (Z * Z)) : list (Z * Z) := filter (is_free f) l.

Definition read_cells (m : grid) (l : list (Z * Z)) : list bool :=
  (λ c, gval m c.1 c.2) <$> l.

Lemma getBit_testbit x i : 0 ≤ i → getBit x i = Z.testbit x i.
Proof.
  intros Hi. unfold getBit. change 1 with (Z.ones 1).
  rewrite Z.land_ones, Z.shiftr_div_pow2 by lia.
  change (2 ^ 1) with 2. rewrite <-(Z.testbit_spec' x i) by lia.
  by destruct (Z.testbit x i).
Qed.

(** Bit [i] of the codewords, as the placement loop computes it. *)
Lemma byte_bits_lookup data i b :
  data !! (i / 8)%nat = Some b →
  byte_bits data !! i = Some (getBit b (7 - Z.land (Z.of_nat i) 7)).
Proof.
  assert (H7 : ∀ k : nat, Z.land (Z.of_nat k) 7 = Z.of_nat (k mod 8)).
  { intros k. change 7 with (Z.ones 3). rewrite Z.land_ones by lia.
    by rewrite Nat2Z.inj_mod. }
  rewrite H7. revert i. induction data as [|c data IH]; intros i; [done|].
  rewrite byte_bits_cons. destruct (decide (i < 8)%nat) as [Hi|Hi].
  - rewrite Nat.div_small, Nat.mod_small by done. intros [= ->].
    rewrite lookup_app_l by (by rewrite length_msb_bits).
    rewrite getBit_testbit by lia. unfold msb_bits.
    do 8 (destruct i as [|i]; [done|]). lia.
  - intros Hb. rewrite lookup_app_r, length_msb_bits by (rewrite length_msb_bits; lia).
    assert (Hd : (i / 8 = S ((i - 8) / 8))%nat).
    { replace i with ((i - 8) + 1 * 8)%nat at 1 by lia.
      rewrite Nat.div_add by lia. lia. }
    assert (Hm : (i mod 8 = (i - 8) mod 8)%nat).
    { replace i with ((i - 8) + 1 * 8)%nat at 1 by lia. apply Nat.Div0.mod_add. }
    rewrite Hd in Hb. rewrite Hm. exact (IH (i - 8)%nat Hb).
Qed.

Lemma place_bit_free data f n m i x y :
  grid_wf n f → grid_wf n m → in_grid n x y → gval f x y = false →
  (i < length data * 8)%nat →
  ∃ b m', byte_bits data !! i = Some b ∧
    place_bit data f (m, i) (x, y) = Ok (m', S i) ∧ grid_wf n m' ∧
    ∀ x' y', in_grid n x' y' →
      gval m' x' y' = if decide (x' = x ∧ y' = y) then b else gval m x' y'.
Proof.
  intros Hf Hm Hxy Hfree Hi.
  destruct (lookup_lt_is_Some_2 data (i / 8)) as [c Hc]; [apply Nat.Div0.div_lt_upper_bound; lia|].
  pose proof (byte_bits_lookup data i c Hc) as Hb.
  destruct (grid_set_Ok n m x y (getBit c (7 - Z.land (Z.of_nat i) 7)))
    as (m' & Hs & Hw & Hv); [done..|].
  exists (getBit c (7 - Z.land (Z.of_nat i) 7)), m'. split_and!; [done| |done|done].
  unfold place_bit. rewrite (grid_get_Ok n), bind_Ok_l, Hfree by done.
  rewrite (proj2 (Nat.ltb_lt _ _)) by done. cbn [negb andb].
  unfold vec_at at 1. by rewrite Hc, bind_Ok_l, Hs, bind_Ok_l.
Qed.

Lemma place_bit_skip data f n m i x y :
  grid_wf n f → in_grid n x y → gval f x y = true ∨ (length data * 8 ≤ i)%nat →
  place_bit data f (m, i) (x, y) = Ok (m, i).
Proof.
  intros Hf Hxy Hskip. unfold place_bit. rewrite (grid_get_Ok n), bind_Ok_l by done.
  destruct Hskip as [->|Hi]; [done|]. rewrite (proj2 (Nat.ltb_ge _ _)) by done.
  by rewrite andb_false_r.
Qed.

(** The loop: the bits from [i] on go to the first free cells; nothing else
    changes. *)
Lemma place_loop data f n l : ∀ m i,
  grid_wf n f → grid_wf n m → NoDup l → (∀ x y, (x, y) ∈ l → in_grid n x y) →
  (i ≤ length data * 8)%nat →
  ∃ m' i', ofold (place_bit data f) (m, i) l = Ok (m', i') ∧ grid_wf n m' ∧
    i' = Nat.min (length data * 8) (i + length (free_cells f l)) ∧
    read_cells m' (take (length data * 8 - i) (free_cells f l)) =
      take (length (free_cells f l)) (drop i (byte_bits data)) ∧
    ∀ x y, in_grid n x y → (x, y) ∉ l ∨ gval f x y = true → gval m' x y = gval m x y.
Proof.
  induction l as [|[x y] l IH]; intros m i Hf Hm Hnd Hin Hi.
  { exists m, i. change (free_cells f []) with (@nil (Z * Z)). rewrite take_nil.
    split_and!; [done|done|simpl; lia|done|done]. }
  apply NoDup_cons in Hnd as [Hnot Hnd].
  assert (Hxy : in_grid n x y) by (apply Hin; set_solver).
  assert (Hin' : ∀ x y, (x, y) ∈ l → in_grid n x y) by (intros; apply Hin; set_solver).
  unfold free_cells. cbn [ofold]. destruct (decide (is_free f (x, y))) as [Hfr|Hfr].
  - rewrite filter_cons_True by done. fold (free_cells f l).
    destruct (decide (i < length data * 8)%nat) as [Hlt|Hge].
    + destruct (place_bit_free data f n m i x y) as (b & m1 & Hb & -> & Hm1 & Hv1); [done..|].
      rewrite bind_Ok_l.
      destruct (IH m1 (S i)) as (m' & i' & Hrun & Hm' & Hi' & Hrd & Hout); [done..|].
      exists m', i'. split; [done|]. split; [done|]. split; [simpl; lia|]. split.
      * replace (length data * 8 - i)%nat with (S (length data * 8 - S i)) by lia.
        cbn [take length read_cells fmap list_fmap].
        rewrite (drop_S _ b) by done. cbn [take]. f_equal; [|exact Hrd].
        simpl. rewrite Hout by (done || by left). rewrite Hv1 by done.
        by rewrite decide_True.
      * intros x' y' Hxy' Hne. rewrite Hout by (done || set_solver).
        rewrite Hv1 by done. rewrite decide_False; [done|]. intros [-> ->].
        unfold is_free in Hfr. simpl in Hfr. destruct Hne; [set_solver|congruence].
    + rewrite (place_bit_skip data f n) by (done || right; lia). rewrite bind_Ok_l.
      destruct (IH m i) as (m' & i' & Hrun & Hm' & Hi' & Hrd & Hout); [done..|].
      exists m', i'. split; [done|]. split; [done|]. split; [simpl; lia|]. split.
      * replace (length data * 8 - i)%nat with 0%nat by lia. rewrite !take_0.
        rewrite drop_ge by (rewrite length_byte_bits; lia). by rewrite take_nil.
      * intros x' y' Hxy' Hne. apply Hout; [done|set_solver].
  - rewrite filter_cons_False by done. fold (free_cells f l).
    assert (gval f x y = true) by (unfold is_free in Hfr; by apply not_false_is_true).
    rewrite (place_bit_skip data f n) by auto. rewrite bind_Ok_l.
    destruct (IH m i) as (m' & i' & Hrun & Hm' & Hi' & Hrd & Hout); [done..|].
    exists m', i'. split_and!; [done..|]. intros x' y' Hxy' Hne. apply Hout; set_solver.
Qed.
