(* ===== verification/QrDataCells.v ===== *)
(** * The data positions of each version

    The grid of function modules a version's patterns leave, and the count of the
    positions that are left for data, for all forty versions. *)
From S2P Require Import Prelude QrSegment QrSegmentFacts QrEncode QrEncodeFacts.
From S2P Require Import ReedSolomon Grid QrCode QrDrawFacts QrPlaceFacts.

(** ** The function modules of a version *)

(** The grid the function patterns leave, which depends on the version only. *)
Definition function_grid (v : Z) : list (list bool) :=
  match drawFunctionPatterns (blank v LOW) with Ok qr => isFunction qr | Fault _ => [] end.

(** The positions of the data bits, in the order of the scan. *)
Definition data_cells (v : Z) : list (Z * Z) :=
  free_cells (function_grid v) (zigzag (v * 4 + 17)).

Lemma drawn_function_grid v ecl :
  1 ≤ v ≤ 40 →
  ∃ qr, drawFunctionPatterns (blank v ecl) = Ok qr ∧ qr_wf v ecl qr ∧ mask qr = 0 ∧
    isFunction qr = function_grid v.
Proof.
  intros Hv. destruct (draws_function_patterns v ecl Hv) as [val Hd].
  destruct (draws_function_patterns v LOW Hv) as [val0 Hd0].
  destruct (Hd (blank v ecl)) as (qr & Hqr & Hw & Hm & Hval); [apply blank_wf; lia|].
  destruct (Hd0 (blank v LOW)) as (q0 & Hq0 & Hw0 & Hm0 & Hval0); [apply blank_wf; lia|].
  exists qr. split_and!; [done|done|by rewrite Hm|].
  unfold function_grid. rewrite Hq0.
  apply (grid_ext (v * 4 + 17)); [apply Hw|apply Hw0|].
  intros x y Hxy. destruct (Hval x y Hxy) as [H1 _], (Hval0 x y Hxy) as [H2 _].
  unfold fval in *. rewrite H1, H2. done.
Qed.

Lemma function_grid_wf v : 1 ≤ v ≤ 40 → grid_wf (v * 4 + 17) (function_grid v).
Proof.
  intros Hv. destruct (drawn_function_grid v LOW Hv) as (qr & _ & Hw & _ & <-). apply Hw.
Qed.

(** There are as many data positions as [getNumRawDataModules] says. *)
Definition data_cells_check (v : Z) : bool :=
  (Z.of_nat (length (data_cells v)) =? rawModules v) && is_Ok (getNumRawDataModules v).

Lemma data_cells_checked v : 1 ≤ v ≤ 40 → data_cells_check v = true.
Proof. apply forall_versions. vm_cast_no_check (eq_refl true). Qed.

Lemma data_cells_count v :
  1 ≤ v ≤ 40 → Z.of_nat (length (data_cells v)) = rawModules v ∧
    getNumRawDataModules v = Ok (rawModules v).
Proof.
  intros Hv. pose proof (data_cells_checked v Hv) as H. unfold data_cells_check in H.
  zbool. split; [done|]. by apply is_Ok_from.
Qed.
