(* ===== verification/QrMaskFacts.v ===== *)
(** * Codewords and masks in a drawn symbol

    In a symbol whose function patterns have been drawn, [drawCodewords] places
    all bits of the codewords, and reading the data positions in the scan's
    order returns them; [applyMask] is an involution. *)
From S2P Require Import Prelude QrSegment QrSegmentFacts QrEncode QrEncodeFacts.
From S2P Require Import ReedSolomon Grid QrCode QrDrawFacts QrPlaceFacts QrDataCells.

(** ** Placement in a drawn symbol *)
Lemma drawCodewords_Ok v ecl qr data :
  1 ≤ v ≤ 40 → qr_wf v ecl qr → isFunction qr = function_grid v →
  Z.of_nat (length data) = Z.quot (rawModules v) 8 →
  ∃ qr', drawCodewords qr data = Ok qr' ∧ qr_wf v ecl qr' ∧ mask qr' = mask qr ∧
    isFunction qr' = function_grid v ∧
    read_cells (modules qr') (take (length data * 8) (data_cells v)) = byte_bits data ∧
    ∀ x y, in_grid (v * 4 + 17) x y → gval (function_grid v) x y = true →
      mval qr' x y = mval qr x y.
Proof.
  intros Hv Hw Hf Hlen. destruct (data_cells_count v Hv) as [Hcount Hraw].
  assert (Hle : (length data * 8 ≤ length (data_cells v))%nat).
  { pose proof (Z.quot_div_nonneg (rawModules v) 8). pose proof (Z.mul_div_le (rawModules v) 8). lia. }
  destruct (place_loop data (function_grid v) (v * 4 + 17) (zigzag (v * 4 + 17)) (modules qr) 0)
    as (m' & i' & Hrun & Hm' & Hi' & Hrd & Hout);
    [by apply function_grid_wf|apply Hw|apply zigzag_nodup|intros; by apply zigzag_in_grid|lia|].
  fold (data_cells v) in Hi', Hrd. simpl in Hi'.
  exists (set_grids qr m' (function_grid v)). split.
  - unfold drawCodewords. rewrite (qw_version _ _ _ Hw), Hraw, bind_Ok_l.
    rewrite Hlen, Z.eqb_refl. cbn [negb]. rewrite Hf, (qw_size _ _ _ Hw), Hrun, bind_Ok_l.
    replace (i' =? length data * 8)%nat with true by (symmetry; apply Nat.eqb_eq; lia). done.
  - split_and!; try done.
    + destruct Hw. by split; simpl; rewrite <-?Hf.
    + rewrite Nat.sub_0_r, drop_0 in Hrd. simpl. rewrite Hrd.
      apply take_ge. rewrite length_byte_bits. lia.
    + intros x y Hxy Hfx. simpl. apply Hout; [done|by right].
Qed.

(** ** Masking *)
Definition inverted (msk x y : Z) : bool := from_outcome false (mask_invert msk x y).

Lemma mask_invert_Ok msk x y : 0 ≤ msk ≤ 7 → mask_invert msk x y = Ok (inverted msk x y).
Proof.
  intros Hm. unfold inverted.
  assert (Hc : msk = 0 ∨ msk = 1 ∨ msk = 2 ∨ msk = 3 ∨ msk = 4 ∨ msk = 5 ∨ msk = 6 ∨ msk = 7)
    by lia.
  destruct_or! Hc; by subst.
Qed.

Lemma positions_spec n x y : (x, y) ∈ positions n ↔ in_grid n x y.
Proof.
  unfold positions. rewrite list_elem_of_bind. split.
  - intros (y' & Hx & Hy). apply list_elem_of_bind in Hx as (x' & Hx & Hx').
    apply list_elem_of_singleton in Hx as [= -> ->].
    apply elem_of_range in Hy, Hx'. unfold in_grid. lia.
  - intros [Hx Hy]. exists y. split; [|by apply elem_of_range].
    apply list_elem_of_bind. exists x. split; [by left|by apply elem_of_range].
Qed.

Lemma positions_nodup n : NoDup (positions n).
Proof.
  unfold positions. apply NoDup_bind; [| |apply NoDup_seqZ].
  - intros y1 y2 [x y] _ _ H1 H2. set_unfold in H1. set_unfold in H2. naive_solver.
  - intros y _. apply NoDup_bind; [|intros; apply NoDup_singleton|apply NoDup_seqZ].
    intros x1 x2 [x y'] _ _ H1 H2. set_unfold in H1. set_unfold in H2. naive_solver.
Qed.

Lemma mask_cell_Ok n msk f m x y :
  0 ≤ msk ≤ 7 → grid_wf n f → grid_wf n m → in_grid n x y →
  mask_cell msk f m (x, y) =
    grid_set m x y (xorb (gval m x y) (inverted msk x y && negb (gval f x y))).
Proof.
  intros Hmsk Hf Hm Hxy. unfold mask_cell.
  rewrite mask_invert_Ok, bind_Ok_l by done.
  rewrite (grid_get_Ok n m), bind_Ok_l by done. by rewrite (grid_get_Ok n f), bind_Ok_l by done.
Qed.

Lemma mask_loop msk f n l : ∀ m,
  0 ≤ msk ≤ 7 → grid_wf n f → grid_wf n m → NoDup l → (∀ x y, (x, y) ∈ l → in_grid n x y) →
  ∃ m', ofold (mask_cell msk f) m l = Ok m' ∧ grid_wf n m' ∧
    ∀ x y, in_grid n x y →
      gval m' x y = if decide ((x, y) ∈ l)
                    then xorb (gval m x y) (inverted msk x y && negb (gval f x y))
                    else gval m x y.
Proof.
  induction l as [|[x y] l IH]; intros m Hmsk Hf Hm Hnd Hin.
  { exists m. split_and!; [done|done|]. intros x y _. by rewrite decide_False by set_solver. }
  apply NoDup_cons in Hnd as [Hni Hnd].
  assert (Hxy : in_grid n x y) by (apply Hin; set_solver).
  destruct (grid_set_Ok n m x y (xorb (gval m x y) (inverted msk x y && negb (gval f x y))))
    as (m1 & Hs & Hm1 & Hv1); [done..|].
  destruct (IH m1) as (m' & Hrun & Hm' & Hv'); [done..|intros; apply Hin; set_solver|].
  exists m'. split_and!; [|done|].
  - cbn [ofold]. by rewrite (mask_cell_Ok n), Hs, bind_Ok_l by done.
  - intros x' y' Hxy'. rewrite Hv', Hv1 by done.
    destruct (decide (x' = x ∧ y' = y)) as [[-> ->]|Hne].
    + rewrite (decide_False (P := (x, y) ∈ l)) by done.
      by rewrite decide_True by (by left).
    + destruct (decide ((x', y') ∈ l)) as [Hl|Hl].
      * by rewrite decide_True by (by right).
      * rewrite decide_False; [done|]. rewrite elem_of_cons. naive_solver.
Qed.

Lemma applyMask_Ok v ecl qr msk :
  0 ≤ msk ≤ 7 → qr_wf v ecl qr →
  ∃ qr', applyMask qr msk = Ok qr' ∧ qr_wf v ecl qr' ∧ mask qr' = mask qr ∧
    isFunction qr' = isFunction qr ∧
    ∀ x y, in_grid (v * 4 + 17) x y →
      mval qr' x y = xorb (mval qr x y) (inverted msk x y && negb (fval qr x y)).
Proof.
  intros Hmsk Hw.
  destruct (mask_loop msk (isFunction qr) (v * 4 + 17) (positions (v * 4 + 17)) (modules qr))
    as (m & Hrun & Hm & Hval); [done|apply Hw|apply Hw|apply positions_nodup|
    intros; by apply positions_spec|].
  exists (set_grids qr m (isFunction qr)). split.
  - unfold applyMask. rewrite (proj2 (Z.ltb_ge msk 0)), (proj2 (Z.ltb_ge 7 msk)) by lia.
    cbn [orb]. by rewrite (qw_size _ _ _ Hw), Hrun, bind_Ok_l.
  - split_and!; [destruct Hw; by split|done|done|].
    intros x y Hxy. unfold mval, fval. simpl. rewrite Hval by done.
    by rewrite decide_True by (by apply positions_spec).
Qed.

(** Masking twice restores the symbol. *)
Lemma applyMask_involutive v ecl qr msk :
  0 ≤ msk ≤ 7 → qr_wf v ecl qr →
  (q ← applyMask qr msk; applyMask q msk) = Ok qr.
Proof.
  intros Hmsk Hw. destruct (applyMask_Ok v ecl qr msk Hmsk Hw) as (q1 & H1 & Hw1 & Hm1 & Hf1 & Hv1).
  destruct (applyMask_Ok v ecl q1 msk Hmsk Hw1) as (q2 & H2 & Hw2 & Hm2 & Hf2 & Hv2).
  rewrite H1, bind_Ok_l, H2. f_equal.
  assert (Hmod : modules q2 = modules qr).
  { apply (grid_ext (v * 4 + 17)); [apply Hw2|apply Hw|]. intros x y Hxy.
    specialize (Hv1 x y Hxy). specialize (Hv2 x y Hxy). unfold mval, fval in *.
    rewrite Hv2, Hv1, Hf1. by destruct (gval (modules qr) x y), (inverted msk x y), (gval (isFunction qr) x y). }
  destruct Hw, Hw2, q2, qr. simpl in *. congruence.
Qed.
