(* ===== verification/QrBlocks.v ===== *)
(** * Error correction blocks ([addEccAndInterleave])

    Splitting the data into blocks, appending each block's error correction and
    interleaving, against the reader that undoes it. *)
From S2P Require Import Prelude QrSegment QrSegmentFacts QrEncode QrEncodeFacts.
From S2P Require Import ReedSolomon ReedSolomonFacts Grid QrCode.

(** ** The block structure of a version and level *)
Definition num_blocks (v : Z) (e : Ecc) : Z :=
  from_outcome 0 (table_at NUM_ERROR_CORRECTION_BLOCKS e v).
Definition ecc_len (v : Z) (e : Ecc) : Z :=
  from_outcome 0 (table_at ECC_CODEWORDS_PER_BLOCK e v).
Definition raw_codewords (v : Z) : Z := Z.quot (rawModules v) 8.
Definition short_blocks (v : Z) (e : Ecc) : Z :=
  num_blocks v e - Z.rem (raw_codewords v) (num_blocks v e).
Definition short_len (v : Z) (e : Ecc) : Z := Z.quot (raw_codewords v) (num_blocks v e).

(** The number of data codewords of block [j]. *)
Definition data_len (v : Z) (e : Ecc) (j : nat) : nat :=
  Z.to_nat (short_len v e - ecc_len v e + (if Z.of_nat j <? short_blocks v e then 0 else 1)).

(** The order in which (index in block, block) pairs are sent: every index of
    every block in turn, without the padding of the short blocks. *)
Definition is_sent (pad short : Z) (ij : nat * nat) : bool :=
  negb (Z.of_nat ij.1 =? pad) || (short <=? Z.of_nat ij.2).
Definition order_of (pad short : Z) (len blocks : nat) : list (nat * nat) :=
  i ← seq 0 len; j ← seq 0 blocks; if is_sent pad short (i, j) then [(i, j)] else [].
Definition pad_index (v : Z) (e : Ecc) : Z := short_len v e - ecc_len v e.
Definition sent (v : Z) (e : Ecc) : nat * nat → bool :=
  is_sent (pad_index v e) (short_blocks v e).
Definition send_order (v : Z) (e : Ecc) : list (nat * nat) :=
  order_of (pad_index v e) (short_blocks v e) (S (Z.to_nat (short_len v e)))
    (Z.to_nat (num_blocks v e)).

Definition sum_nat (l : list nat) : nat := foldr Nat.add 0%nat l.

Definition block_check (v : Z) (e : Ecc) : bool :=
  is_Ok (table_at NUM_ERROR_CORRECTION_BLOCKS e v)
  && is_Ok (table_at ECC_CODEWORDS_PER_BLOCK e v) && is_Ok (getNumRawDataModules v)
  && (1 <=? num_blocks v e) && (1 <=? ecc_len v e) && (ecc_len v e <=? 255)
  && (ecc_len v e <? short_len v e) && (1 <=? short_blocks v e)
  && (short_blocks v e <=? num_blocks v e)
  && (Z.of_nat (length (send_order v e)) =? raw_codewords v)
  && (Z.of_nat (sum_nat (data_len v e <$> seq 0 (Z.to_nat (num_blocks v e)))) =? capacity v e).

Lemma block_checked v e : 1 ≤ v ≤ 40 → block_check v e = true.
Proof. apply forall_versions_levels. vm_compute. reflexivity. Qed.

Lemma send_order_nodup v e : NoDup (send_order v e).
Proof.
  unfold send_order, order_of. fold (sent v e). apply NoDup_bind; [| |apply NoDup_seq].
  - intros i1 i2 [i j] _ _ H1 H2. set_unfold in H1. set_unfold in H2.
    destruct H1 as (j1 & H1 & _), H2 as (j2 & H2 & _).
    destruct (sent v e (i1, j1)), (sent v e (i2, j2)); set_solver.
  - intros i _. apply NoDup_bind; [| |apply NoDup_seq].
    + intros j1 j2 [i' j] _ _ H1 H2.
      destruct (sent v e (i, j1)), (sent v e (i, j2)); set_solver.
    + intros j _. destruct (sent v e (i, j)); [apply NoDup_singleton|constructor].
Qed.

Lemma elem_of_send_order v e i j :
  (i, j) ∈ send_order v e ↔
    (i < S (Z.to_nat (short_len v e)))%nat ∧ (j < Z.to_nat (num_blocks v e))%nat ∧
    sent v e (i, j) = true.
Proof.
  unfold send_order, order_of. fold (sent v e). rewrite list_elem_of_bind. split.
  - intros (i' & Hx & Hi%elem_of_seq). apply list_elem_of_bind in Hx as (j' & Hx & Hj%elem_of_seq).
    destruct (sent v e (i', j')) eqn:E; [|set_solver].
    apply list_elem_of_singleton in Hx as [= -> ->]. split_and!; (done || lia).
  - intros (Hi & Hj & Hs). exists i. split; [|apply elem_of_seq; lia].
    apply list_elem_of_bind. exists j. rewrite Hs. split; [by left|apply elem_of_seq; lia].
Qed.

(** ** The reader *)

(** The codeword received for each (index, block). *)
Definition received (v : Z) (e : Ecc) (codewords : list Z) : gmap (nat * nat) Z :=
  list_to_map (zip (send_order v e) codewords).

Definition received_at (v : Z) (e : Ecc) (codewords : list Z) (j i : nat) : Z :=
  default 0 (received v e codewords !! (i, j)).

(** Block [j]: its data, then its error correction (which starts behind the
    padding position). *)
Definition received_data (v : Z) (e : Ecc) (codewords : list Z) (j : nat) : list Z :=
  received_at v e codewords j <$> seq 0 (data_len v e j).
Definition received_ecc (v : Z) (e : Ecc) (codewords : list Z) (j : nat) : list Z :=
  received_at v e codewords j <$>
    seq (S (Z.to_nat (short_len v e - ecc_len v e))) (Z.to_nat (ecc_len v e)).

Definition deinterleave (v : Z) (e : Ecc) (codewords : list Z) : list Z :=
  seq 0 (Z.to_nat (num_blocks v e)) ≫= received_data v e codewords.

(** ** Splitting *)

(** A block made of data [dat]: its data, the padding of a short block, its
    remainder. *)
Definition is_block (v : Z) (e : Ecc) (divisor : list Z) (j : nat) (dat block : list Z) : Prop :=
  length dat = data_len v e j ∧
  ∃ ecc, reedSolomonComputeRemainder dat divisor = Ok ecc ∧
    Z.of_nat (length ecc) = ecc_len v e ∧ Forall byte ecc ∧
    (∀ i, (i < Z.to_nat (ecc_len v e))%nat → eval (root i) (dat ++ ecc) = 0) ∧
    block = dat ++ (if Z.of_nat j <? short_blocks v e then [0] else []) ++ ecc.

Section blocks.
Context (v : Z) (e : Ecc) (Hv : 1 ≤ v ≤ 40).
#[local] Set Default Proof Using "All".
#[local] Opaque reedSolomonComputeRemainder reedSolomonComputeDivisor.

Lemma block_facts :
  table_at NUM_ERROR_CORRECTION_BLOCKS e v = Ok (num_blocks v e) ∧
  table_at ECC_CODEWORDS_PER_BLOCK e v = Ok (ecc_len v e) ∧
  getNumRawDataModules v = Ok (rawModules v) ∧
  1 ≤ num_blocks v e ∧ 1 ≤ ecc_len v e ≤ 255 ∧ ecc_len v e < short_len v e ∧
  1 ≤ short_blocks v e ≤ num_blocks v e ∧
  Z.of_nat (length (send_order v e)) = raw_codewords v ∧
  Z.of_nat (sum_nat (data_len v e <$> seq 0 (Z.to_nat (num_blocks v e)))) = capacity v e.
Proof.
  pose proof (block_checked v e Hv) as H. unfold block_check in H. zbool.
  split_and!; try lia; by apply is_Ok_from.
Qed.

Lemma split_block_Ok data divisor blocks k j :
  reedSolomonComputeDivisor (ecc_len v e) = Ok divisor →
  Forall byte data → (k + data_len v e j ≤ length data)%nat →
  ∃ block, split_block data divisor (short_len v e) (ecc_len v e) (short_blocks v e)
      (blocks, Z.of_nat k) (Z.of_nat j)
      = Ok (blocks ++ [block], Z.of_nat (k + data_len v e j)) ∧
    is_block v e divisor j (take (data_len v e j) (drop k data)) block.
Proof.
  intros Hdiv Hdata Hlen. destruct block_facts as (_ & _ & _ & _ & He & Hes & _).
  set (dat := take (data_len v e j) (drop k data)).
  assert (Hdl : length dat = data_len v e j).
  { unfold dat. rewrite length_take, length_drop. lia. }
  destruct (remainder_codeword (ecc_len v e) dat) as (divisor' & ecc & Hd' & Hecc & Hel & Heb & Heval);
    [lia|by apply Forall_take, Forall_drop|].
  rewrite Hdiv in Hd'. apply (inj Ok) in Hd' as <-.
  assert (Hstop : Z.of_nat k + short_len v e - ecc_len v e
            + (if Z.of_nat j <? short_blocks v e then 0 else 1) = Z.of_nat (k + data_len v e j)).
  { unfold data_len. destruct (Z.of_nat j <? short_blocks v e); lia. }
  eexists. split.
  - unfold split_block. rewrite Hstop.
    rewrite (proj2 (Z.ltb_ge _ _)), (proj2 (Z.ltb_ge _ _)), (proj2 (Z.ltb_ge _ _)) by lia.
    cbn [orb]. replace (Z.to_nat (Z.of_nat (k + data_len v e j) - Z.of_nat k))
      with (data_len v e j) by lia.
    rewrite Nat2Z.id. fold dat. rewrite Hecc, bind_Ok_l.
    replace (Z.of_nat k + Z.of_nat (length dat)) with (Z.of_nat (k + data_len v e j)) by lia.
    reflexivity.
  - split; [done|]. exists ecc. split_and!; try done.
    destruct (Z.of_nat j <? short_blocks v e); by rewrite <-?app_assoc.
Qed.

Lemma split_loop data divisor l : ∀ blocks k,
  reedSolomonComputeDivisor (ecc_len v e) = Ok divisor → Forall byte data →
  (k + sum_nat (data_len v e <$> l) ≤ length data)%nat →
  ∃ dats new,
    ofold (split_block data divisor (short_len v e) (ecc_len v e) (short_blocks v e))
      (blocks, Z.of_nat k) (Z.of_nat <$> l)
      = Ok (blocks ++ new, Z.of_nat (k + sum_nat (data_len v e <$> l))) ∧
    Forall3 (is_block v e divisor) l dats new ∧
    mjoin dats = take (sum_nat (data_len v e <$> l)) (drop k data).
Proof.
  induction l as [|j l IH]; intros blocks k Hdiv Hdata Hlen.
  { exists [], []. simpl. rewrite Nat.add_0_r, app_nil_r. split_and!; [done|constructor|done]. }
  cbn [fmap list_fmap sum_nat foldr] in *. fold (sum_nat (data_len v e <$> l)) in *.
  destruct (split_block_Ok data divisor blocks k j) as (block & Hb & Hblock); [done|done|lia|].
  destruct (IH (blocks ++ [block]) (k + data_len v e j)%nat) as (dats & new & Hrun & Hall & Hjoin);
    [done|done|lia|].
  exists (take (data_len v e j) (drop k data) :: dats), (block :: new). split_and!.
  - cbn [ofold]. rewrite Hb, bind_Ok_l, Hrun, <-app_assoc. simpl. by rewrite Nat.add_assoc.
  - by constructor.
  - simpl. rewrite Hjoin, <-drop_drop. by rewrite take_take_drop.
Qed.
End blocks.

(** ** Interleaving *)

Lemma vec_at_lookup {A} (l : list A) i x : l !! i = Some x → vec_at l i = Ok x.
Proof. intros H. unfold vec_at. by rewrite H. Qed.

Definition block_value (blocks : list (list Z)) (ij : nat * nat) : Z :=
  default 0 (blocks !! ij.2 ≫= (λ b, b !! ij.1)).

Section interleave.
Context (blocks : list (list Z)) (pad short : Z) (len : nat).
Context (Hlen : ∀ b, b ∈ blocks → length b = len).
#[local] Set Default Proof Using "All".

Lemma interleave_row i js : ∀ result,
  (i < len)%nat → (∀ j, j ∈ js → (j < length blocks)%nat) →
  ofold (λ result j,
      if negb (Z.of_nat i =? pad) || (short <=? Z.of_nat j) then
        block ← vec_at blocks j;
        b ← vec_at block i;
        Ok (result ++ [b])
      else Ok result) result js
  = Ok (result ++ (block_value blocks <$>
      (js ≫= λ j, if is_sent pad short (i, j) then [(i, j)] else []))).
Proof.
  induction js as [|j js IH]; intros result Hi Hj; [by rewrite app_nil_r|].
  cbn [ofold]. rewrite bind_cons, fmap_app.
  change (negb (Z.of_nat i =? pad) || (short <=? Z.of_nat j)) with (is_sent pad short (i, j)).
  destruct (is_sent pad short (i, j)).
  - destruct (lookup_lt_is_Some_2 blocks j) as [block Hblock]; [apply Hj; by left|].
    destruct (lookup_lt_is_Some_2 block i) as [b Hb].
    { rewrite (Hlen block); [done|]. by eapply list_elem_of_lookup_2. }
    rewrite (vec_at_lookup _ _ _ Hblock), bind_Ok_l, (vec_at_lookup _ _ _ Hb), !bind_Ok_l.
    rewrite IH by (done || intros; apply Hj; by right).
    assert (Hbv : block_value blocks (i, j) = b).
    { unfold block_value. cbn [fst snd]. rewrite Hblock. cbn. by rewrite Hb. }
    cbn [fmap list_fmap app]. by rewrite Hbv, <-app_assoc.
  - rewrite bind_Ok_l, IH by (done || intros; apply Hj; by right). done.
Qed.

Lemma interleave_Ok :
  blocks ≠ [] →
  interleave blocks pad short =
    Ok (block_value blocks <$> order_of pad short len (length blocks)).
Proof.
  intros Hne. destruct (lookup_lt_is_Some_2 blocks 0) as [b0 Hb0].
  { destruct blocks; [done|simpl; lia]. }
  unfold interleave. rewrite (vec_at_lookup _ _ _ Hb0), bind_Ok_l.
  rewrite (Hlen b0) by (by eapply list_elem_of_lookup_2).
  unfold order_of.
  assert (Hrows : ∀ ix result, (∀ i, i ∈ ix → (i < len)%nat) →
    ofold (λ result i,
      ofold (λ result j,
        if negb (Z.of_nat i =? pad) || (short <=? Z.of_nat j) then
          block ← vec_at blocks j;
          b ← vec_at block i;
          Ok (result ++ [b])
        else Ok result) result (seq 0 (length blocks))) result ix
    = Ok (result ++ (block_value blocks <$> (ix ≫= λ i, seq 0 (length blocks) ≫= λ j,
        if is_sent pad short (i, j) then [(i, j)] else [])))).
  { induction ix as [|i ix IH]; intros result Hi; [by rewrite app_nil_r|].
    cbn [ofold]. rewrite interleave_row, bind_Ok_l.
    - rewrite IH by (intros; apply Hi; by right). by rewrite bind_cons, fmap_app, app_assoc.
    - apply Hi. by left.
    - intros j Hj%elem_of_seq. lia. }
  rewrite Hrows; [done|]. intros i Hi%elem_of_seq. lia.
Qed.
End interleave.

(** ** Both together *)
Section addEcc.
Context (v : Z) (e : Ecc) (Hv : 1 ≤ v ≤ 40).
#[local] Set Default Proof Using "All".
#[local] Opaque reedSolomonComputeRemainder reedSolomonComputeDivisor.

Lemma received_lookup (f : nat * nat → Z) i j :
  (i, j) ∈ send_order v e → received_at v e (f <$> send_order v e) j i = f (i, j).
Proof.
  intros Hin. unfold received_at, received.
  assert (Hz : zip (send_order v e) (f <$> send_order v e) = (λ x, (x, f x)) <$> send_order v e).
  { clear Hin. induction (send_order v e) as [|x l IH]; [done|]. csimpl. by f_equal. }
  rewrite Hz. rewrite (elem_of_list_to_map_1 _ (i, j) (f (i, j))); [done| |].
  - rewrite <-list_fmap_compose. change (fst ∘ (λ x, (x, f x))) with (@id (nat * nat)%type).
    rewrite list_fmap_id. apply send_order_nodup.
  - apply list_elem_of_fmap. by exists (i, j).
Qed.

(** What the reader gets back of a block. *)
Lemma received_block divisor dats new j dat block :
  Forall3 (is_block v e divisor) (seq 0 (Z.to_nat (num_blocks v e))) dats new →
  dats !! j = Some dat → new !! j = Some block →
  let all := block_value new <$> send_order v e in
  received_data v e all j = dat ∧
  ∀ i, (i < Z.to_nat (ecc_len v e))%nat →
    eval (root i) (received_data v e all j ++ received_ecc v e all j) = 0.
Proof.
  intros Hall Hdat Hblock all.
  destruct (block_facts v e Hv) as (_ & _ & _ & Hn & He & Hes & Hs & _).
  pose proof Hdat as Hj. apply lookup_lt_Some in Hj.
  pose proof (Forall3_length_lm _ _ _ _ Hall) as Hlm. rewrite length_seq in Hlm.
  assert (Hseq : seq 0 (Z.to_nat (num_blocks v e)) !! j = Some j).
  { apply lookup_seq. lia. }
  destruct (Forall3_lookup_lmr _ _ _ _ _ _ _ _ Hall Hseq Hdat Hblock)
    as (Hdl & ecc & Hecc & Hel & Heb & Heval & ->).
  set (pad := if Z.of_nat j <? short_blocks v e then [0] else []) in *.
  assert (Hpl : length (dat ++ pad) = S (Z.to_nat (short_len v e - ecc_len v e))).
  { unfold pad, data_len in *. rewrite length_app, Hdl.
    destruct (Z.of_nat j <? short_blocks v e); simpl; lia. }
  assert (Hval : ∀ i, (i, j) ∈ send_order v e →
            received_at v e all j i = default 0 ((dat ++ pad ++ ecc) !! i)).
  { intros i Hi. unfold all. rewrite received_lookup by done.
    unfold block_value. cbn [fst snd]. by rewrite Hblock. }
  assert (Hd : received_data v e all j = dat).
  { unfold received_data. apply list_eq_same_length with (n := length dat);
      [done|by rewrite length_fmap, length_seq|].
    intros i x y Hi. rewrite list_lookup_fmap, lookup_seq_lt by lia. simpl.
    intros [= <-] Hy. rewrite Hval.
    - by rewrite (lookup_app_l_Some _ _ _ _ Hy).
    - apply elem_of_send_order. split; [|split].
      + unfold data_len in Hdl. destruct (Z.of_nat j <? _); lia.
      + lia.
      + unfold sent, is_sent, pad_index. cbn [fst snd]. unfold data_len in Hdl.
        destruct (Z.of_nat j <? short_blocks v e) eqn:E; zbool; lia. }
  split; [done|]. intros i Hi.
  assert (Hec : received_ecc v e all j = ecc).
  { unfold received_ecc. apply list_eq_same_length with (n := length ecc);
      [done|rewrite length_fmap, length_seq; lia|].
    intros k x y Hk. rewrite list_lookup_fmap, lookup_seq_lt by lia. simpl.
    intros [= <-] Hy. rewrite Hval.
    - rewrite (assoc_L (++) dat pad ecc), (lookup_app_r (dat ++ pad) ecc) by (rewrite Hpl; lia).
      rewrite Hpl, Nat.sub_succ, Nat.add_comm, Nat.add_sub. by rewrite Hy.
    - apply elem_of_send_order. split; [lia|]. split; [lia|].
      unfold sent, is_sent, pad_index. cbn [fst snd].
      rewrite (proj2 (Z.eqb_neq _ _)) by lia. done. }
  rewrite Hd, Hec. by apply Heval.
Qed.

Lemma block_length divisor j dat block :
  is_block v e divisor j dat block → length block = S (Z.to_nat (short_len v e)).
Proof.
  destruct (block_facts v e Hv) as (_ & _ & _ & Hn & He & Hes & Hs & _).
  intros (Hdl & ecc & _ & Hel & _ & _ & ->). rewrite !length_app. unfold data_len in Hdl.
  destruct (Z.of_nat j <? short_blocks v e); simpl; lia.
Qed.

Lemma block_bytes divisor j dat block :
  Forall byte dat → is_block v e divisor j dat block → Forall byte block.
Proof.
  intros Hd (_ & ecc & _ & _ & Heb & _ & ->). apply Forall_app. split; [done|].
  apply Forall_app. split; [|done]. destruct (_ <? _); repeat constructor; lia.
Qed.

(** What a reader needs of a sequence of codewords sent for [data]. *)
Definition codewords_for (data all : list Z) : Prop :=
  Z.of_nat (length all) = raw_codewords v ∧ Forall byte all ∧
  deinterleave v e all = data ∧
  ∀ i j, (i < Z.to_nat (ecc_len v e))%nat → (j < Z.to_nat (num_blocks v e))%nat →
    eval (root i) (received_data v e all j ++ received_ecc v e all j) = 0.

Lemma block_value_byte new i j :
  Forall (Forall byte) new → byte (block_value new (i, j)).
Proof.
  intros Hnew. unfold block_value. cbn [fst snd].
  destruct (new !! j) as [b|] eqn:Hb; [|simpl; unfold byte; lia]. cbn.
  destruct (b !! i) as [x|] eqn:Hx; [|simpl; unfold byte; lia]. simpl.
  eapply Forall_lookup_1 in Hb; [|done]. by eapply Forall_lookup_1 in Hx.
Qed.

Lemma blocks_bytes divisor l dats new :
  Forall3 (is_block v e divisor) l dats new → Forall byte (mjoin dats) → Forall (Forall byte) new.
Proof.
  induction 1 as [|j dat block l dats new Hb _ IH]; [constructor|].
  intros [Hd Hds]%Forall_app. constructor; [exact (block_bytes _ _ _ _ Hd Hb)|auto].
Qed.

Lemma blocks_deinterleave divisor dats new :
  Forall3 (is_block v e divisor) (seq 0 (Z.to_nat (num_blocks v e))) dats new →
  deinterleave v e (block_value new <$> send_order v e) = mjoin dats.
Proof.
  intros Hall. unfold deinterleave.
  set (all := block_value new <$> send_order v e).
  pose proof (Forall3_length_lm _ _ _ _ Hall) as Hlm.
  pose proof (Forall3_length_lr _ _ _ _ Hall) as Hlr. rewrite length_seq in *.
  assert (H : received_data v e all <$> seq 0 (Z.to_nat (num_blocks v e)) = dats).
  { apply list_eq_same_length with (n := length dats);
      [done|rewrite length_fmap, length_seq; lia|].
    intros j x y Hj. rewrite list_lookup_fmap, lookup_seq_lt by lia. simpl.
    intros [= <-] Hy. destruct (lookup_lt_is_Some_2 new j) as [block Hb]; [lia|].
    by apply (received_block divisor dats new j y block). }
  clearbody all. rewrite <-H. clear.
  induction (seq 0 _) as [|j l IH]; [done|]. simpl. by f_equal.
Qed.

Lemma addEccAndInterleave_codewords data :
  Z.of_nat (length data) = capacity v e → Forall byte data →
  ∃ all, addEccAndInterleave v e data = Ok all ∧ codewords_for data all.
Proof.
  intros Hlen Hdata.
  destruct (block_facts v e Hv) as (Ht1 & Ht2 & Hraw & Hn & He & Hes & Hs & Hord & Hcap).
  destruct (remainder_codeword (ecc_len v e) []) as (divisor & _ & Hdiv & _); [lia|constructor|].
  destruct (split_loop v e Hv data divisor (seq 0 (Z.to_nat (num_blocks v e))) [] 0)
    as (dats & new & Hrun & Hall & Hjoin); [done..|lia|].
  rewrite drop_0, take_ge in Hjoin by lia.
  pose proof (Forall3_length_lm _ _ _ _ Hall) as Hlm.
  pose proof (Forall3_length_lr _ _ _ _ Hall) as Hlr. rewrite length_seq in *.
  exists (block_value new <$> send_order v e). split.
  - unfold addEccAndInterleave. rewrite (proj1 (getNumDataCodewords_Ok v e Hv)), bind_Ok_l, Hlen, Z.eqb_refl.
    cbn [negb]. rewrite Ht1, bind_Ok_l, Ht2, bind_Ok_l, Hraw, bind_Ok_l.
    fold (raw_codewords v). fold (short_blocks v e). fold (short_len v e).
    rewrite Hdiv, bind_Ok_l.
    assert (Hr : range 0 (num_blocks v e) = Z.of_nat <$> seq 0 (Z.to_nat (num_blocks v e))).
    { unfold range, seqZ. rewrite Z.sub_0_r. apply list_fmap_ext. intros; lia. }
    rewrite Hr. change 0 with (Z.of_nat 0) at 1. rewrite Hrun, bind_Ok_l.
    rewrite (interleave_Ok _ _ _ (S (Z.to_nat (short_len v e)))).
    + cbn [app]. replace (length new) with (Z.to_nat (num_blocks v e)) by lia.
      change (order_of _ _ _ _) with (send_order v e). rewrite bind_Ok_l, length_fmap, Hord, Z.eqb_refl.
      done.
    + intros b (j & Hj)%list_elem_of_lookup.
      destruct (Forall3_lookup_r _ _ _ _ _ _ Hall Hj) as (j' & dat & _ & _ & Hb).
      by eapply block_length.
    + cbn [app]. intros ->. simpl in *. lia.
  - split_and!.
    + by rewrite length_fmap.
    + apply Forall_fmap, Forall_forall. intros [i j] _. apply block_value_byte.
      eapply blocks_bytes; [done|by rewrite Hjoin].
    + rewrite <-Hjoin. by eapply blocks_deinterleave.
    + intros i j Hi Hj. destruct (lookup_lt_is_Some_2 dats j) as [dat Hd]; [lia|].
      destruct (lookup_lt_is_Some_2 new j) as [block Hb]; [lia|].
      by eapply received_block.
Qed.
End addEcc.
