(* ===== verification/QrPenaltyFacts.v ===== *)
(** * The penalty score is total

    [getPenaltyScore] ends in two assertions about its own result. In a symbol
    of any version neither fails: the score of a line is bounded by charging
    every finder-like pattern to the runs that form it, and the balance rule's
    [k] is in range because the number of modules is odd. *)
From S2P Require Import Prelude QrSegment QrSegmentFacts QrEncode QrEncodeFacts.
From S2P Require Import ReedSolomon Grid QrCode QrDrawFacts.

(** ** The history of runs *)

(** Seven run lengths, none longer than a line with a border. *)
Definition history_wf (size : Z) (h : list Z) : Prop :=
  length h = 7%nat ∧ Forall (λ x, 0 ≤ x ≤ 2 * size) h.

Lemma history_cons size h : history_wf size h →
  ∃ h0 t, h = h0 :: t ∧ 0 ≤ h0 ≤ 2 * size ∧ length t = 6%nat ∧
    Forall (λ x, 0 ≤ x ≤ 2 * size) t.
Proof.
  intros [Hl Ha]. destruct h as [|h0 t]; [done|]. apply Forall_cons in Ha as [H0 Ht].
  exists h0, t. simpl in Hl. split_and!; [done|lia..|done].
Qed.

Lemma add_history_Ok size run h0 t :
  finderPenaltyAddHistory size run (h0 :: t) =
    Ok ((if h0 =? 0 then run + size else run) :: take 6 (h0 :: t)).
Proof. done. Qed.

(** The count of finder-like patterns, at most two, and at most one for every two
    modules of the last two runs. *)
Lemma count_patterns_Ok size r h0 t :
  0 ≤ r → history_wf size (h0 :: t) →
  ∃ n, finderPenaltyCountPatterns size (r :: take 6 (h0 :: t)) = Ok n ∧
    0 ≤ n ≤ 2 ∧ n * 40 ≤ 20 * (r + h0) ∧ (h0 = 0 → n = 0).
Proof.
  intros Hr [Hl Ha]. apply Forall_cons in Ha as [H0 _].
  do 7 (destruct t as [|? t]; try discriminate Hl). cbn [take].
  unfold finderPenaltyCountPatterns, vec_at. cbn [lookup list_lookup mbind outcome_bind].
  rewrite (proj2 (Z.leb_le h0 (size * 3))) by lia. cbn [cassert].
  eexists. split; [reflexivity|].
  destruct (0 <? h0) eqn:Hpos, (z =? h0), (z0 =? h0 * 3), (z1 =? h0), (z2 =? h0),
    (h0 * 4 <=? r) eqn:E1, (h0 <=? z3) eqn:E2, (h0 * 4 <=? z3) eqn:E3, (h0 <=? r) eqn:E4;
    zbool; cbn [andb]; lia.
Qed.

(** ** One line *)

(** What a run of that length has added to the score. *)
Definition run_score (run : Z) : Z := if run <? 5 then 0 else run - 2.

Lemma run_score_step run result :
  0 ≤ run →
  (if run + 1 =? 5 then result + PENALTY_N1 else if 5 <? run + 1 then result + 1 else result)
    = result + (run_score (run + 1) - run_score run).
Proof.
  intros Hr. unfold run_score, PENALTY_N1.
  destruct (run + 1 =? 5) eqn:E1, (5 <? run + 1) eqn:E2, (run + 1 <? 5) eqn:E3,
    (run <? 5) eqn:E4; zbool; lia.
Qed.

Lemma run_score_le run : 0 ≤ run → 0 ≤ run_score run ≤ run.
Proof. intros. unfold run_score. destruct (run <? 5) eqn:E; zbool; lia. Qed.

(** After [p] modules: the score is charged to the modules of completed runs, and
    those of the last dark run are kept for the pattern it may end. *)
Definition line_inv (size base p : Z) (st : run_state) : Prop :=
  ∃ h0 t, rs_history st = h0 :: t ∧ history_wf size (h0 :: t) ∧
    0 ≤ rs_run st ≤ p ∧ base ≤ rs_result st ∧
    let free := p - rs_run st in
    if rs_color st then
      0 < rs_run st ∧ 0 < h0 ∧
      rs_result st ≤ base + free + run_score (rs_run st) + 20 * free
    else
      rs_run st + h0 ≤ p ∧ (h0 = 0 ∨ 0 < rs_run st) ∧
      rs_result st ≤ base + free + run_score (rs_run st) + 20 * (free - h0).

Lemma history_wf_push size r h0 t :
  0 ≤ r ≤ 2 * size → history_wf size (h0 :: t) → history_wf size (r :: take 6 (h0 :: t)).
Proof.
  intros Hr [Hl Ha]. split.
  - simpl. rewrite firstn_length_le; [done|]. simpl in Hl. lia.
  - constructor; [done|]. by apply Forall_take.
Qed.

Lemma run_step_inv size base p st c :
  17 ≤ size → p < size → line_inv size base p st →
  ∃ st', run_step size st c = Ok st' ∧ line_inv size base (p + 1) st'.
Proof.
  intros Hsize Hp (h0 & t & Hh & Hwf & Hrun & Hbase & Hcol).
  pose proof (proj1 (Forall_cons _ _ _) (proj2 Hwf)) as [H0 _]. cbv beta in H0.
  pose proof (run_score_le (rs_run st)). unfold run_step.
  destruct (Bool.eqb c (rs_color st)) eqn:Hc.
  - eexists. split; [reflexivity|]. exists h0, t. cbn [rs_history rs_run rs_color rs_result].
    rewrite run_score_step by lia. pose proof (run_score_le (rs_run st + 1)).
    assert (run_score (rs_run st) ≤ run_score (rs_run st + 1) ≤ run_score (rs_run st) + 3)
      by (unfold run_score; destruct (rs_run st <? 5) eqn:E1, (rs_run st + 1 <? 5) eqn:E2;
          zbool; lia).
    replace (p + 1 - (rs_run st + 1)) with (p - rs_run st) by lia.
    cbv zeta in *. destruct (rs_color st); split_and!; done || lia.
  - rewrite Hh, add_history_Ok, bind_Ok_l.
    assert (Hlast : 0 ≤ (if h0 =? 0 then rs_run st + size else rs_run st) ≤ 2 * size)
      by (destruct (h0 =? 0); lia).
    destruct (rs_color st) eqn:Hcs; cbn [negb].
    + rewrite bind_Ok_l. eexists. split; [reflexivity|].
      destruct c; [done|]. destruct Hcol as (Hr0 & Hh0 & Hres).
      rewrite (proj2 (Z.eqb_neq h0 0)) in * by lia.
      eexists _, _. cbn [rs_history rs_run rs_color rs_result]. split; [reflexivity|].
      split; [by apply history_wf_push|]. change (run_score 1) with 0.
      split_and!; lia.
    + destruct (count_patterns_Ok size (if h0 =? 0 then rs_run st + size else rs_run st) h0 t)
        as (n & Hn & Hn2 & Hcost & Hz); [lia|done|].
      rewrite Hn, bind_Ok_l. eexists. split; [reflexivity|].
      destruct c; [|done]. destruct Hcol as (Hhead & Hpos & Hres).
      eexists _, _. cbn [rs_history rs_run rs_color rs_result]. split; [reflexivity|].
      split; [by apply history_wf_push|]. change (run_score 1) with 0. unfold PENALTY_N3.
      destruct (h0 =? 0) eqn:E; zbool; cbv zeta in *;
        [rewrite (Hz E)|]; split_and!; lia.
Qed.

Lemma line_loop size base line : ∀ p st,
  17 ≤ size → p + Z.of_nat (length line) = size → line_inv size base p st →
  ∃ st', ofold (run_step size) st line = Ok st' ∧ line_inv size base size st'.
Proof.
  induction line as [|c line IH]; intros p st Hs Hp Hst; simpl in Hp.
  { exists st. assert (p = size) as -> by lia. done. }
  destruct (run_step_inv size base p st c) as (st1 & H1 & Hst1); [lia|lia|done|].
  destruct (IH (p + 1) st1) as (st' & Hrun & Hst'); [lia|lia|done|].
  exists st'. split; [|done]. simpl. by rewrite H1, bind_Ok_l.
Qed.

Lemma terminate_Ok size color run h0 t :
  0 < size → 0 ≤ run ≤ size → history_wf size (h0 :: t) → (color = true → 0 < h0) →
  ∃ n, finderPenaltyTerminateAndCount size color run (h0 :: t) = Ok n ∧ 0 ≤ n ≤ 2.
Proof.
  intros Hs Hrun Hwf Hcol. unfold finderPenaltyTerminateAndCount.
  pose proof (proj1 (Forall_cons _ _ _) (proj2 Hwf)) as [H0 _]. cbv beta in H0.
  destruct color.
  - rewrite add_history_Ok, !bind_Ok_l, (proj2 (Z.eqb_neq h0 0)), add_history_Ok, bind_Ok_l
      by (specialize (Hcol eq_refl); lia).
    destruct (count_patterns_Ok size (if run =? 0 then 0 + size + size else 0 + size) run
      (take 6 (h0 :: t))) as (n & Hn & Hn2 & _).
    + destruct (run =? 0); lia.
    + apply history_wf_push; [lia|done].
    + by exists n.
  - rewrite bind_Ok_l, add_history_Ok, bind_Ok_l.
    destruct (count_patterns_Ok size (if h0 =? 0 then run + size + size else run + size) h0 t)
      as (n & Hn & Hn2 & _); [destruct (h0 =? 0); lia|done|]. by exists n.
Qed.

(** The score a line of [size] modules adds is between 0 and [21 * size + 80]. *)
Lemma line_penalty_Ok size base line :
  17 ≤ size → Z.of_nat (length line) = size →
  ∃ r, line_penalty size base line = Ok r ∧ base ≤ r ≤ base + 21 * size + 80.
Proof.
  intros Hs Hl. unfold line_penalty.
  destruct (line_loop size base line 0
    {| rs_result := base; rs_color := false; rs_run := 0; rs_history := replicate 7 0 |})
    as (st & -> & h0 & t & Hh & Hwf & Hrun & Hbase & Hcol); [done|lia| |].
  { exists 0, (replicate 6 0). simpl. change (run_score 0) with 0.
    split_and!; [done|split; [done|repeat constructor; lia]|lia..]. }
  rewrite bind_Ok_l, Hh.
  destruct (terminate_Ok size (rs_color st) (rs_run st) h0 t) as (n & -> & Hn);
    [lia|lia|done|intros Hc; rewrite Hc in Hcol; cbv zeta in Hcol; lia|].
  rewrite bind_Ok_l. eexists. split; [reflexivity|]. unfold PENALTY_N3.
  pose proof (run_score_le (rs_run st)).
  pose proof (proj1 (Forall_cons _ _ _) (proj2 Hwf)) as [H0 _]. cbv beta zeta in *.
  destruct (rs_color st); lia.
Qed.

(** ** The whole symbol *)
Lemma read_line_Ok (get : Z → outcome bool) n :
  (∀ i, 0 ≤ i < n → is_Ok (get i) = true) → 0 ≤ n →
  ∃ line, ofold (λ l x, b ← get x; Ok (l ++ [b])) [] (range 0 n) = Ok line ∧
    Z.of_nat (length line) = n.
Proof.
  intros Hget Hn.
  assert (H : ∀ xs l, (∀ i, i ∈ xs → is_Ok (get i) = true) →
    ∃ line, ofold (λ l x, b ← get x; Ok (l ++ [b])) l xs = Ok line ∧
      length line = (length l + length xs)%nat).
  { induction xs as [|x xs IH]; intros l Hxs; [exists l; simpl; split; [done|lia]|].
    pose proof (Hxs x (list_elem_of_here _ _)) as Hx. cbn [ofold].
    destruct (get x) as [b|]; [|done]. rewrite !bind_Ok_l.
    destruct (IH (l ++ [b])) as (line & Hrun & Hlen); [intros; apply Hxs; by right|].
    exists line. split; [done|]. rewrite Hlen, length_app. simpl. lia. }
  destruct (H (range 0 n) []) as (line & Hrun & Hlen); [intros i Hi%elem_of_range; auto|].
  exists line. split; [done|]. rewrite Hlen. unfold range. rewrite length_seqZ. simpl. lia.
Qed.

(** A loop whose every step adds between 0 and [c]. *)
Lemma bounded_loop {A} (body : Z → A → outcome Z) c l : ∀ base,
  0 ≤ c →
  (∀ r x, x ∈ l → ∃ r', body r x = Ok r' ∧ r ≤ r' ≤ r + c) →
  ∃ r, ofold body base l = Ok r ∧ base ≤ r ≤ base + c * Z.of_nat (length l).
Proof.
  induction l as [|x l IH]; intros base Hc Hstep; [exists base; simpl; split; [done|lia]|].
  destruct (Hstep base x) as (r1 & H1 & Hr1); [by left|].
  destruct (IH r1 Hc) as (r & Hrun & Hr); [intros; apply Hstep; by right|].
  exists r. cbn [ofold length]. rewrite H1, bind_Ok_l. split; [done|lia].
Qed.

Lemma length_range a b : a ≤ b → Z.of_nat (length (range a b)) = b - a.
Proof. intros. unfold range. rewrite length_seqZ. lia. Qed.

Lemma count_dark_range n g :
  grid_wf n g → 0 ≤ n → 0 ≤ count_dark g ≤ n * n.
Proof.
  intros [Hl Hr] Hn. unfold count_dark.
  assert (Hrow : ∀ (row : list bool) d, let r := foldl (λ dark (color : bool),
            if color then dark + 1 else dark) d row in d ≤ r ≤ d + Z.of_nat (length row)).
  { induction row as [|[] row IH]; intros d; simpl; [lia| |];
      [specialize (IH (d + 1))|specialize (IH d)]; cbv zeta in IH; lia. }
  assert (Hg : ∀ d, let r := foldl (λ dark row, foldl (λ dark (color : bool),
            if color then dark + 1 else dark) dark row) d g in
            d ≤ r ≤ d + n * Z.of_nat (length g)).
  { clear Hl. induction g as [|row g IH]; intros d; cbn [foldl length]; [lia|].
    apply Forall_cons in Hr as [Hlen Hr]. specialize (Hrow row d).
    specialize (IH Hr (foldl (λ dark (color : bool), if color then dark + 1 else dark) d row)).
    cbv zeta in *. lia. }
  specialize (Hg 0). cbv zeta in Hg. rewrite Hl in Hg. lia.
Qed.

(** Of an odd number of modules, the balance term is at most 9. *)
Lemma balance_k_range dark total :
  0 ≤ dark ≤ total → Z.odd total = true → 0 ≤ balance_k dark total ≤ 9.
Proof.
  intros Hd Hodd. unfold balance_k.
  assert (Hne : dark * 20 - total * 10 ≠ 0).
  { intros H. assert (total = 2 * dark) as -> by lia. by rewrite Z.odd_mul in Hodd. }
  assert (Hpos : 0 < total).
  { destruct (decide (total = 0)) as [->|]; [done|lia]. }
  rewrite Z.quot_div_nonneg by lia.
  assert (1 ≤ (Z.abs (dark * 20 - total * 10) + total - 1) / total ≤ 10); [|lia].
  split; [apply Z.div_le_lower_bound; lia|].
  apply Z.lt_succ_r, Z.div_lt_upper_bound; lia.
Qed.

Lemma getPenaltyScore_total v ecl qr :
  1 ≤ v ≤ 40 → qr_wf v ecl qr →
  ∃ r, getPenaltyScore qr = Ok r ∧ 0 ≤ r ≤ 2568888.
Proof.
  intros Hv Hw. pose proof (qw_size _ _ _ Hw) as Hs.
  set (n := v * 4 + 17) in *. assert (Hn : 21 ≤ n ≤ 177) by lia.
  assert (Hg : grid_wf n (modules qr)) by apply Hw.
  assert (Hget : ∀ x y, in_grid n x y → is_Ok (grid_get (modules qr) x y) = true).
  { intros x y Hxy. by rewrite (grid_get_Ok n). }
  unfold getPenaltyScore. rewrite Hs. set (c := 21 * n + 80).
  destruct (bounded_loop (λ result y, line ← read_row (modules qr) n y; line_penalty n result line)
    c (range 0 n) 0) as (r1 & -> & Hr1); [lia| |].
  { intros r y Hy%elem_of_range. unfold read_row.
    destruct (read_line_Ok (λ x, grid_get (modules qr) x y) n) as (line & -> & Hl);
      [intros; apply Hget; unfold in_grid; lia|lia|].
    rewrite bind_Ok_l. unfold c. destruct (line_penalty_Ok n r line) as (r' & ? & ?); [lia|done|].
    exists r'. split; [done|lia]. }
  rewrite bind_Ok_l.
  destruct (bounded_loop (λ result x, line ← read_column (modules qr) n x; line_penalty n result line)
    c (range 0 n) r1) as (r2 & -> & Hr2); [lia| |].
  { intros r x Hx%elem_of_range. unfold read_column.
    destruct (read_line_Ok (λ y, grid_get (modules qr) x y) n) as (line & -> & Hl);
      [intros; apply Hget; unfold in_grid; lia|lia|].
    rewrite bind_Ok_l. unfold c. destruct (line_penalty_Ok n r line) as (r' & ? & ?); [lia|done|].
    exists r'. split; [done|lia]. }
  rewrite bind_Ok_l.
  match goal with |- context [ofold ?body r2 ?l] =>
    destruct (bounded_loop body (3 * (n - 1)) l r2) as (r3 & -> & Hr3) end; [lia| |].
  { intros r y Hy%elem_of_range.
    match goal with |- context [ofold ?body r ?l] =>
      destruct (bounded_loop body 3 l r) as (r' & -> & Hr') end; [lia| |].
    - intros r' x Hx%elem_of_range.
      rewrite !(grid_get_Ok n) by (done || unfold in_grid; lia). rewrite !bind_Ok_l.
      eexists. split; [reflexivity|]. unfold PENALTY_N2. destruct (_ && _); lia.
    - rewrite length_range in Hr' by lia. exists r'. split; [done|lia]. }
  rewrite bind_Ok_l. rewrite !length_range in * by lia.
  pose proof (count_dark_range n (modules qr) Hg ltac:(lia)) as Hd.
  assert (Hodd : Z.odd (n * n) = true).
  { rewrite Z.odd_mul, andb_diag. unfold n. by rewrite Z.add_comm, Z.odd_add, Z.odd_mul, andb_false_r. }
  pose proof (balance_k_range _ _ Hd Hodd) as Hk. unfold PENALTY_N4.
  rewrite (proj2 (Z.leb_le 0 (balance_k _ _))), (proj2 (Z.leb_le (balance_k _ _) 9)) by lia.
  cbn [andb cassert]. rewrite bind_Ok_l.
  assert (Hc : c * n ≤ 3797 * 177) by (unfold c; nia).
  assert (Hb : 3 * (n - 1) * (n - 1) ≤ 92928) by nia.
  rewrite !(proj2 (Z.leb_le _ _)) by lia. cbn [andb cassert]. rewrite bind_Ok_l.
  eexists. split; [reflexivity|lia].
Qed.
