(* ===== verification/QrSymbolFacts.v ===== *)
(** * The constructor of [QrCode]

    The constructor succeeds on a full set of data codewords, for a given mask
    and for the automatic choice, and the finished symbol is readable: its format
    bits name the level and the mask, and its unmasked data positions hold the
    interleaved codewords. *)
From S2P Require Import Prelude QrSegment QrSegmentFacts QrEncode QrEncodeFacts.
From S2P Require Import ReedSolomon ReedSolomonFacts Grid QrCode QrDrawFacts QrPlaceFacts.
From S2P Require Import QrDataCells QrMaskFacts QrBlocks QrPenaltyFacts.

(** ** Reading the format bits *)

(** The first copy, least significant bit first. *)
Definition format_positions : list (Z * Z) :=
  [(8, 0); (8, 1); (8, 2); (8, 3); (8, 4); (8, 5); (8, 7); (8, 8); (7, 8);
   (5, 8); (4, 8); (3, 8); (2, 8); (1, 8); (0, 8)].

Definition level_of_bits (b : Z) : Ecc :=
  if b =? 0 then MEDIUM else if b =? 1 then LOW else if b =? 2 then HIGH else QUARTILE.

Definition read_format (g : grid) : Ecc * Z :=
  let bits := bits_val (reverse (read_cells g format_positions)) in
  let data := Z.shiftr (Z.lxor bits 21522) 10 in
  (level_of_bits (Z.shiftr data 3), Z.land data 7).

Definition format_check (v : Z) (e : Ecc) : bool :=
  let qr := blank v e in
  forallb (λ m, match drawFormatBits qr m with
    | Ok q => bool_decide (read_format (modules q) = (e, m))
    | Fault _ => false end) (seqZ 0 8)
  && forallb (λ c, bool_decide (c ∈ format_cells (v * 4 + 17)) &&
                   bool_decide (in_grid (v * 4 + 17) c.1 c.2)) format_positions.

Lemma format_checked v e : 1 ≤ v ≤ 40 → format_check v e = true.
Proof. apply forall_versions_levels. vm_cast_no_check (eq_refl true). Qed.

Lemma read_format_ext g1 g2 :
  (∀ c, c ∈ format_positions → gval g1 c.1 c.2 = gval g2 c.1 c.2) →
  read_format g1 = read_format g2.
Proof.
  intros H. unfold read_format.
  assert (read_cells g1 format_positions = read_cells g2 format_positions) as ->; [|done].
  unfold read_cells. apply list_fmap_ext. intros i c Hc.
  apply H. by eapply list_elem_of_lookup_2.
Qed.

(** ** Symbols that agree outside the format modules *)
Section symbol.
Context (v : Z) (ecl : Ecc) (Hv : 1 ≤ v ≤ 40).
#[local] Set Default Proof Using "All".
Let n := v * 4 + 17.

Record drawn (qr : QrCode) : Prop := {
  drawn_wf : qr_wf v ecl qr;
  drawn_function : isFunction qr = function_grid v;
}.

Definition agree (q1 q2 : QrCode) : Prop :=
  ∀ x y, in_grid n x y → (x, y) ∉ format_cells n → mval q1 x y = mval q2 x y.

#[global] Instance agree_equivalence : Equivalence agree.
Proof.
  split.
  - by intros q.
  - intros q1 q2 H x y ??. symmetry; auto.
  - intros q1 q2 q3 H1 H2 x y ??. rewrite H1; auto.
Qed.

Lemma drawn_modules_eq q1 q2 :
  drawn q1 → drawn q2 →
  (∀ x y, in_grid n x y → mval q1 x y = mval q2 x y) → modules q1 = modules q2.
Proof. intros [H1 _] [H2 _] Hval. eapply grid_ext; [apply H1|apply H2|done]. Qed.

Lemma penalty_modules q1 q2 :
  drawn q1 → drawn q2 → modules q1 = modules q2 → getPenaltyScore q1 = getPenaltyScore q2.
Proof.
  intros [H1 _] [H2 _] Hm. unfold getPenaltyScore.
  by rewrite Hm, (qw_size _ _ _ H1), (qw_size _ _ _ H2).
Qed.

Lemma format_is_function x y :
  in_grid n x y → (x, y) ∈ format_cells n → gval (function_grid v) x y = true.
Proof.
  intros Hxy Hin. destruct (draws_function_patterns v ecl Hv) as [val Hd].
  destruct (Hd (blank v ecl)) as (q & Hq & Hw & _ & Hval); [apply blank_wf; lia|].
  destruct (drawn_function_grid v ecl Hv) as (q' & Hq' & _ & _ & <-).
  rewrite Hq in Hq'. apply (inj Ok) in Hq' as <-.
  destruct (Hval x y Hxy) as [Hf _]. unfold fval in Hf. rewrite Hf.
  rewrite bool_decide_true; [by rewrite orb_true_r|].
  unfold function_cells. fold n. rewrite !elem_of_app. tauto.
Qed.

(** Drawing the format bits keeps a drawn symbol drawn, and leaves the same
    modules in agreeing symbols. *)
Lemma draw_format_drawn msk :
  0 ≤ msk ≤ 7 →
  (∀ q, drawn q → ∃ q', drawFormatBits q msk = Ok q' ∧ drawn q' ∧ agree q' q ∧ mask q' = mask q ∧
     read_format (modules q') = (ecl, msk)) ∧
  (∀ q1 q2, drawn q1 → drawn q2 → agree q1 q2 →
     modules <$> drawFormatBits q1 msk = modules <$> drawFormatBits q2 msk).
Proof.
  intros Hm. destruct (draws_format v ecl Hv msk Hm) as [val Hd]. fold n in Hd.
  assert (Hone : ∀ q, drawn q → ∃ q', drawFormatBits q msk = Ok q' ∧ drawn q' ∧
            mask q' = mask q ∧ ∀ x y, in_grid n x y → mval q' x y =
              if bool_decide ((x, y) ∈ format_cells n) then val x y else mval q x y).
  { intros q [Hw Hf]. destruct (Hd q Hw) as (q' & Hq' & Hw' & Hm' & Hval).
    exists q'. split_and!; [done| |done|intros x y Hxy; by apply Hval].
    split; [done|]. apply (grid_ext n); [apply Hw'|by apply function_grid_wf|].
    intros x y Hxy. destruct (Hval x y Hxy) as [Hfv _]. unfold fval in Hfv.
    rewrite Hfv, Hf. destruct (bool_decide _) eqn:E; [|by rewrite orb_false_r].
    apply bool_decide_eq_true in E. by rewrite (format_is_function x y Hxy E). }
  split.
  - intros q Hq. destruct (Hone q Hq) as (q' & Hq' & Hd' & Hm' & Hval).
    exists q'. split_and!; [done|done| |done|].
    { intros x y Hxy Hn. by rewrite Hval, bool_decide_false. }
    pose proof (format_checked v ecl Hv) as Hc. unfold format_check in Hc.
    apply andb_true_iff in Hc as [Hc Hpos]. 
    rewrite forallb_Forall, Forall_forall in Hc. rewrite forallb_Forall, Forall_forall in Hpos.
    specialize (Hc msk ltac:(apply elem_of_seqZ; lia)). cbv beta zeta in Hc.
    destruct (Hd (blank v ecl)) as (q0 & Hq0 & _ & _ & Hval0); [apply blank_wf; lia|].
    rewrite Hq0 in Hc. apply bool_decide_eq_true in Hc. rewrite <-Hc.
    apply read_format_ext. intros c Hin. specialize (Hpos c Hin).
    apply andb_true_iff in Hpos as [Hcell Hxy]. zbool. destruct c as [x y].
    fold n in Hcell, Hxy. change (mval q' x y = mval q0 x y).
    rewrite Hval by done. destruct (Hval0 x y) as [_ ->]; [done|].
    by rewrite !bool_decide_true.
  - intros q1 q2 H1 H2 Hag.
    destruct (Hone q1 H1) as (q1' & -> & Hd1 & Hm1 & Hv1).
    destruct (Hone q2 H2) as (q2' & -> & Hd2 & Hm2 & Hv2).
    cbn [fmap outcome_fmap]. f_equal. apply drawn_modules_eq; [done..|]. intros x y Hxy. rewrite Hv1, Hv2 by done.
    destruct (bool_decide _) eqn:E; [done|]. apply bool_decide_eq_false in E. auto.
Qed.

(** The same for a mask applied before. *)
Definition masked (qr : QrCode) (msk : Z) : outcome QrCode :=
  q ← applyMask qr msk; drawFormatBits q msk.

Lemma apply_mask_drawn q msk :
  0 ≤ msk ≤ 7 → drawn q →
  ∃ q', applyMask q msk = Ok q' ∧ drawn q' ∧ mask q' = mask q ∧
    ∀ x y, in_grid n x y →
      mval q' x y = xorb (mval q x y) (inverted msk x y && negb (gval (function_grid v) x y)).
Proof.
  intros Hm [Hw Hf]. destruct (applyMask_Ok v ecl q msk Hm Hw) as (q' & ? & ? & ? & Hf' & Hval).
  exists q'. split_and!; [done|split; [done|congruence]|done|].
  intros x y Hxy. rewrite Hval by done. unfold fval. by rewrite Hf.
Qed.

Lemma masked_agree q1 q2 msk :
  0 ≤ msk ≤ 7 → drawn q1 → drawn q2 → agree q1 q2 →
  modules <$> masked q1 msk = modules <$> masked q2 msk.
Proof.
  intros Hm H1 H2 Hag. unfold masked.
  destruct (apply_mask_drawn q1 msk Hm H1) as (q1' & -> & Hd1 & Hm1 & Hv1).
  destruct (apply_mask_drawn q2 msk Hm H2) as (q2' & -> & Hd2 & Hm2 & Hv2).
  rewrite !bind_Ok_l. apply (draw_format_drawn msk Hm); [done..|].
  intros x y Hxy Hni. by rewrite Hv1, Hv2, Hag.
Qed.

Lemma masked_Ok q msk :
  0 ≤ msk ≤ 7 → drawn q →
  ∃ q', masked q msk = Ok q' ∧ drawn q' ∧ mask q' = mask q ∧
    read_format (modules q') = (ecl, msk) ∧
    ∀ x y, in_grid n x y → (x, y) ∉ format_cells n →
      mval q' x y = xorb (mval q x y) (inverted msk x y && negb (gval (function_grid v) x y)).
Proof.
  intros Hm Hq. unfold masked.
  destruct (apply_mask_drawn q msk Hm Hq) as (q1 & -> & Hd1 & Hm1 & Hv1). rewrite bind_Ok_l.
  destruct (proj1 (draw_format_drawn msk Hm) q1 Hd1) as (q2 & Hq2 & Hd2 & Hv2 & Hm2 & Hfmt).
  exists q2. split_and!; [done|done|congruence|done|].
  intros x y Hxy Hni. by rewrite Hv2, Hv1.
Qed.

(** ** The automatic choice of the mask *)

(** The penalty of the symbol [base] under a mask. *)
Definition mask_penalty (base : QrCode) (msk : Z) : outcome Z :=
  q ← masked base msk; getPenaltyScore q.

Lemma mask_penalty_Ok base msk :
  0 ≤ msk ≤ 7 → drawn base →
  ∃ p, mask_penalty base msk = Ok p ∧ 0 ≤ p ≤ 2568888.
Proof.
  intros Hm Hb. unfold mask_penalty.
  destruct (masked_Ok base msk Hm Hb) as (q & -> & Hd & _). rewrite bind_Ok_l.
  by apply (getPenaltyScore_total v ecl); [|apply Hd].
Qed.

Lemma mask_penalty_agree q1 q2 msk :
  0 ≤ msk ≤ 7 → drawn q1 → drawn q2 → agree q1 q2 → mask_penalty q1 msk = mask_penalty q2 msk.
Proof.
  intros Hm H1 H2 Hag. pose proof (masked_agree q1 q2 msk Hm H1 H2 Hag) as Heq.
  unfold mask_penalty.
  destruct (masked_Ok q1 msk Hm H1) as (q1' & Hq1 & Hd1 & _).
  destruct (masked_Ok q2 msk Hm H2) as (q2' & Hq2 & Hd2 & _).
  rewrite Hq1, Hq2 in *. apply (inj Ok) in Heq. rewrite !bind_Ok_l. by apply penalty_modules.
Qed.

(** The state of the loop before mask [i]: the symbol is the base but for its
    format modules, and the best of the masks so far is recorded. *)
Definition choice_inv (base : QrCode) (i : Z) (st : QrCode * Z * Z) : Prop :=
  let '(q, msk, best) := st in
  drawn q ∧ agree q base ∧
  ((i = 0 ∧ msk = -1 ∧ best = LONG_MAX) ∨
   (0 ≤ msk < i ∧ mask_penalty base msk = Ok best ∧
    ∀ j p, 0 ≤ j < i → mask_penalty base j = Ok p → best ≤ p ∧ (j < msk → best < p))).

Lemma try_mask_inv base i st :
  0 ≤ i ≤ 7 → drawn base → choice_inv base i st →
  ∃ st', try_mask st i = Ok st' ∧ choice_inv base (i + 1) st'.
Proof.
  destruct st as [[q msk] best]. intros Hi Hb (Hq & Hag & Hbest). unfold try_mask.
  destruct (apply_mask_drawn q i Hi Hq) as (q1 & H1 & Hd1 & Hm1 & Hv1).
  destruct (proj1 (draw_format_drawn i Hi) q1 Hd1) as (q2 & H2 & Hd2 & Hv2 & Hm2 & _).
  destruct (mask_penalty_Ok base i Hi Hb) as (p & Hp & Hp0).
  assert (Hpq : getPenaltyScore q2 = Ok p).
  { rewrite <-(mask_penalty_agree q base i) in Hp by done. unfold mask_penalty, masked in Hp.
    by rewrite H1, bind_Ok_l, H2, bind_Ok_l in Hp. }
  rewrite H1, bind_Ok_l, H2, bind_Ok_l, Hpq, bind_Ok_l.
  destruct (apply_mask_drawn q2 i Hi Hd2) as (q3 & H3 & Hd3 & Hm3 & Hv3).
  assert (Hag3 : agree q3 base).
  { intros x y Hxy Hni. rewrite Hv3, Hv2, Hv1, <-Hag by done.
    by destruct (mval q x y), (inverted i x y && _). }
  destruct (p <? best) eqn:Hlt; zbool; rewrite H3, bind_Ok_l; eexists; (split; [reflexivity|]);
    (split; [done|split; [done|]]); right.
  - split_and!; [lia|lia|done|]. intros j p' Hj Hp'. destruct (decide (j = i)) as [->|Hne].
    { rewrite Hp in Hp'. apply (inj Ok) in Hp' as ->. lia. }
    destruct Hbest as [(-> & _)|(_ & _ & Hbest)]; [lia|].
    destruct (Hbest j p' ltac:(lia) Hp'). lia.
  - destruct Hbest as [(_ & _ & ->)|(Hmsk & Hbp & Hbest)]; [unfold LONG_MAX in *; lia|].
    split_and!; [lia|lia|done|]. intros j p' Hj Hp'. destruct (decide (j = i)) as [->|Hne].
    { rewrite Hp in Hp'. apply (inj Ok) in Hp' as ->. lia. }
    apply Hbest; [lia|done].
Qed.

Lemma choice_loop base k : ∀ i st,
  0 ≤ i → i + Z.of_nat k = 8 → drawn base → choice_inv base i st →
  ∃ st', ofold try_mask st (seqZ i (Z.of_nat k)) = Ok st' ∧ choice_inv base 8 st'.
Proof.
  induction k as [|k IH]; intros i st Hi Hk Hb Hst.
  { exists st. assert (i = 8) as -> by lia. done. }
  rewrite seqZ_cons by lia. cbn [ofold].
  destruct (try_mask_inv base i st) as (st1 & -> & Hst1); [lia|done|done|].
  rewrite bind_Ok_l. replace (Z.pred (Z.of_nat (S k))) with (Z.of_nat k) by lia.
  replace (Z.succ i) with (i + 1) by lia. apply IH; [lia|lia|done|done].
Qed.
End symbol.
