(* ===== verification/QrRoundTrip.v ===== *)
(** * What a scanner reads

    The whole way from a text to the modules of its symbol and back: a reader that
    is given nothing but the grid of modules recovers the text. *)
From S2P Require Import Prelude QrSegment QrSegmentFacts QrEncode QrEncodeFacts.
From S2P Require Import ReedSolomon ReedSolomonFacts Grid QrCode QrDrawFacts QrPlaceFacts.
From S2P Require Import QrDataCells QrMaskFacts QrBlocks QrPenaltyFacts QrSymbolFacts.

(** ** The reader *)

(** The codewords of a symbol: its data positions, unmasked, eight to a byte. *)
Definition read_symbol (g : grid) (v msk : Z) : list Z :=
  let bits := (λ c, xorb (gval g c.1 c.2) (inverted msk c.1 c.2)) <$> data_cells v in
  read_bytes (Z.to_nat (raw_codewords v)) bits.

Definition version_of (g : grid) : Z := Z.quot (Z.of_nat (length g) - 17) 4.

Definition decode (g : grid) : option (list Z) :=
  let v := version_of g in
  let '(ecl, msk) := read_format g in
  let data := deinterleave v ecl (read_symbol g v msk) in
  read_codewords (S (length data)) v data.

(** ** The constructor *)
Definition with_mask (q : QrCode) (msk : Z) : QrCode :=
  {| version := version q; size := size q; errorCorrectionLevel := errorCorrectionLevel q;
     mask := msk; modules := modules q; isFunction := isFunction q |}.

Section constructor.
Context (v : Z) (ecl : Ecc) (Hv : 1 ≤ v ≤ 40).
#[local] Set Default Proof Using "All".
Let n := v * 4 + 17.

(** The symbol before masking. *)
Definition unmasked (data all : list Z) (base : QrCode) : Prop :=
  drawn v ecl base ∧ mask base = 0 ∧ codewords_for v ecl data all ∧
  read_cells (modules base) (take (length all * 8) (data_cells v)) = byte_bits all.

Definition construct_base (data : list Z) : outcome QrCode :=
  qr ← drawFunctionPatterns (blank v ecl);
  allCodewords ← addEccAndInterleave v ecl data;
  drawCodewords qr allCodewords.

Lemma construct_base_Ok data :
  Z.of_nat (length data) = capacity v ecl → Forall byte data →
  ∃ all base, construct_base data = Ok base ∧ unmasked data all base.
Proof.
  intros Hlen Hdata. unfold construct_base.
  destruct (drawn_function_grid v ecl Hv) as (q & -> & Hw & Hm & Hf). rewrite bind_Ok_l.
  destruct (addEccAndInterleave_codewords v ecl Hv data Hlen Hdata) as (all & -> & Hall).
  rewrite bind_Ok_l.
  destruct (drawCodewords_Ok v ecl q all Hv Hw Hf) as (base & Hb & Hwb & Hmb & Hfb & Hrd & _).
  { by destruct Hall. }
  exists all, base. split; [done|]. split; [by split|]. split_and!; [congruence|done|done].
Qed.

(** The end of the constructor, from a symbol and the mask chosen for it. *)
Definition finish (q : QrCode) (msk : Z) : outcome QrCode :=
  q ← masked (with_mask q msk) msk; Ok (set_grids q (modules q) []).

Lemma with_mask_drawn q msk : drawn v ecl q → drawn v ecl (with_mask q msk).
Proof. intros [[] ?]. split; [by split|done]. Qed.

Lemma finish_agree q1 q2 msk :
  0 ≤ msk ≤ 7 → drawn v ecl q1 → drawn v ecl q2 → agree v q1 q2 → finish q1 msk = finish q2 msk.
Proof.
  intros Hm H1 H2 Hag. unfold finish.
  pose proof (with_mask_drawn q1 msk H1) as H1m. pose proof (with_mask_drawn q2 msk H2) as H2m.
  pose proof (masked_agree v ecl Hv _ _ msk Hm H1m H2m Hag) as Heq.
  destruct (masked_Ok v ecl Hv _ msk Hm H1m) as (q1' & E1 & Hd1 & Hm1 & _).
  destruct (masked_Ok v ecl Hv _ msk Hm H2m) as (q2' & E2 & Hd2 & Hm2 & _).
  rewrite E1, E2 in *. apply (inj Ok) in Heq. rewrite !bind_Ok_l. f_equal.
  destruct Hd1 as [[] _], Hd2 as [[] _], q1', q2'. unfold set_grids. simpl in *. congruence.
Qed.

Lemma mkQrCode_eq data base msk :
  construct_base data = Ok base → -1 ≤ msk ≤ 7 →
  mkQrCode v ecl data msk =
    '(qr, msk, _) ← (if msk =? -1 then ofold try_mask (base, msk, LONG_MAX) (range 0 8)
                     else Ok (base, msk, LONG_MAX));
    _ ← cassert ((0 <=? msk) && (msk <=? 7));
    finish qr msk.
Proof.
  intros Hb Hm. unfold mkQrCode, MIN_VERSION, MAX_VERSION.
  rewrite !(proj2 (Z.ltb_ge _ _)) by lia. cbn [orb]. fold (blank v ecl).
  unfold construct_base in Hb. apply bind_Ok in Hb as (q & -> & Hb). rewrite bind_Ok_l.
  apply bind_Ok in Hb as (all & -> & Hb). rewrite bind_Ok_l, Hb, bind_Ok_l.
  destruct (if _ =? _ then _ else _) as [[[q' m] b]|]; [|done]. cbn [mbind outcome_bind].
  destruct (cassert _); [|done]. cbn [mbind outcome_bind]. unfold finish, masked.
  destruct (applyMask _ _); [|done]. done.
Qed.

Lemma mkQrCode_given data base msk :
  construct_base data = Ok base → 0 ≤ msk ≤ 7 → mkQrCode v ecl data msk = finish base msk.
Proof.
  intros Hb Hm. rewrite (mkQrCode_eq data base) by (done || lia).
  rewrite (proj2 (Z.eqb_neq msk (-1))), bind_Ok_l by lia.
  by rewrite !(proj2 (Z.leb_le _ _)) by lia.
Qed.

Lemma finish_Ok base msk :
  0 ≤ msk ≤ 7 → drawn v ecl base →
  ∃ q, finish base msk = Ok (set_grids q (modules q) []) ∧ drawn v ecl q ∧ mask q = msk ∧
    masked (with_mask base msk) msk = Ok q ∧
    read_format (modules q) = (ecl, msk) ∧
    ∀ x y, in_grid n x y → (x, y) ∉ format_cells n →
      mval q x y = xorb (mval base x y) (inverted msk x y && negb (gval (function_grid v) x y)).
Proof.
  intros Hm Hb. unfold finish.
  destruct (masked_Ok v ecl Hv _ msk Hm (with_mask_drawn base msk Hb))
    as (q & Hq & Hd & Hmk & Hfmt & Hval).
  exists q. rewrite Hq, bind_Ok_l. by split_and!.
Qed.

(** The penalty of the finished symbol is the one the loop computed. *)
Lemma finish_penalty base msk :
  0 ≤ msk ≤ 7 → drawn v ecl base →
  (q ← finish base msk; getPenaltyScore q) = mask_penalty base msk.
Proof.
  intros Hm Hb. destruct (finish_Ok base msk Hm Hb) as (q & Hq & Hd & _ & Hmk & _).
  rewrite Hq, bind_Ok_l.
  rewrite <-(mask_penalty_agree v ecl Hv (with_mask base msk) base msk Hm);
    [|by apply with_mask_drawn|done|done].
  unfold mask_penalty. by rewrite Hmk, bind_Ok_l.
Qed.

(** The automatic choice is the smallest mask of minimal penalty. *)
Lemma mkQrCode_auto data base :
  construct_base data = Ok base → drawn v ecl base →
  ∃ msk best, 0 ≤ msk ≤ 7 ∧ mkQrCode v ecl data (-1) = finish base msk ∧
    mask_penalty base msk = Ok best ∧
    ∀ j p, 0 ≤ j ≤ 7 → mask_penalty base j = Ok p → best ≤ p ∧ (j < msk → best < p).
Proof.
  intros Hb Hd. rewrite (mkQrCode_eq data base) by (done || lia).
  destruct (choice_loop v ecl Hv base 8 0 (base, -1, LONG_MAX)) as ([[q msk] best] & Hrun & Hinv);
    [lia|lia|done|by split_and!; [done|done|left]|].
  destruct Hinv as (Hq & Hag & [(? & _)|(Hm & Hp & Hbest)]); [lia|].
  exists msk, best. split_and!; [lia|lia| |done|intros j p Hj; apply Hbest; lia].
  rewrite Z.eqb_refl. change (range 0 8) with (seqZ 0 (Z.of_nat 8)).
  rewrite Hrun, bind_Ok_l. rewrite !(proj2 (Z.leb_le _ _)) by lia. cbn [andb cassert].
  rewrite bind_Ok_l. by apply finish_agree; [lia|..].
Qed.
End constructor.

(** ** Reading a finished symbol *)
Section reading.
Context (v : Z) (ecl : Ecc) (Hv : 1 ≤ v ≤ 40).
#[local] Set Default Proof Using "All".
Let n := v * 4 + 17.

Lemma data_cell_spec x y :
  (x, y) ∈ data_cells v →
  in_grid n x y ∧ gval (function_grid v) x y = false ∧ (x, y) ∉ format_cells n.
Proof.
  unfold data_cells, free_cells. rewrite list_elem_of_filter. intros [Hf Hz].
  assert (Hxy : in_grid n x y) by (by apply zigzag_in_grid).
  unfold is_free in Hf. cbn [fst snd] in Hf. split_and!; [done|done|].
  intros Hin. rewrite (format_is_function v ecl Hv x y Hxy Hin) in Hf. done.
Qed.

Lemma read_symbol_finished data all base q msk :
  unmasked v ecl data all base →
  (∀ x y, in_grid n x y → (x, y) ∉ format_cells n →
    mval q x y = xorb (mval base x y) (inverted msk x y && negb (gval (function_grid v) x y))) →
  read_symbol (modules q) v msk = all.
Proof.
  intros (_ & _ & (Hlen & Hbytes & _) & Hrd) Hval. unfold read_symbol.
  assert (Hbits : (λ c, xorb (gval (modules q) c.1 c.2) (inverted msk c.1 c.2)) <$> data_cells v
            = read_cells (modules base) (data_cells v)).
  { unfold read_cells. apply list_fmap_ext. intros i [x y] Hc%list_elem_of_lookup_2.
    destruct (data_cell_spec x y Hc) as (Hxy & Hf & Hni). cbn [fst snd].
    change (gval (modules q) x y) with (mval q x y). rewrite Hval, Hf by done.
    unfold mval. by destruct (gval (modules base) x y), (inverted msk x y). }
  rewrite Hbits, <-(take_drop (length all * 8) (data_cells v)).
  unfold read_cells in *. rewrite fmap_app, Hrd, <-Hlen, Nat2Z.id. by apply read_bytes_bits.
Qed.

Lemma version_of_drawn q : drawn v ecl q → version_of (modules q) = v.
Proof.
  intros [Hw _]. unfold version_of. rewrite (proj1 (qw_modules _ _ _ Hw)).
  replace (v * 4 + 17 - 17) with (v * 4) by lia. apply Z.quot_mul. done.
Qed.

Lemma mkQrCode_decode data msk :
  -1 ≤ msk ≤ 7 → Z.of_nat (length data) = capacity v ecl → Forall byte data →
  ∃ qr, mkQrCode v ecl data msk = Ok qr ∧ version qr = v ∧ size qr = n ∧
    errorCorrectionLevel qr = ecl ∧ 0 ≤ mask qr ≤ 7 ∧ (0 ≤ msk → mask qr = msk) ∧
    grid_wf n (modules qr) ∧
    decode (modules qr) = read_codewords (S (length data)) v data.
Proof.
  intros Hm Hlen Hdata.
  destruct (construct_base_Ok v ecl Hv data Hlen Hdata) as (all & base & Hb & Hun).
  pose proof Hun as (Hd & _ & (_ & _ & Hde & _) & _).
  assert (Hmsk : ∃ m, 0 ≤ m ≤ 7 ∧ (0 ≤ msk → m = msk) ∧
            mkQrCode v ecl data msk = finish base m).
  { destruct (decide (msk = -1)) as [->|].
    - destruct (mkQrCode_auto v ecl Hv data base Hb Hd) as (m & _ & ? & ? & _).
      exists m. split_and!; [lia|lia|lia|done].
    - exists msk. split_and!; [lia|lia|done|]. apply mkQrCode_given; [done..|lia]. }
  destruct Hmsk as (m & Hm7 & Hmm & ->).
  destruct (finish_Ok v ecl Hv base m Hm7 Hd) as (q & -> & Hdq & Hmq & _ & Hfmt & Hval).
  eexists. split; [reflexivity|]. pose proof (drawn_wf _ _ _ Hdq) as Hw. simpl.
  split_and!; [apply Hw|apply Hw|apply Hw|lia|lia|intros; rewrite Hmq; auto|apply Hw|].
  unfold decode. rewrite Hfmt, (version_of_drawn q Hdq).
  by rewrite (read_symbol_finished data all base q m Hun Hval), Hde.
Qed.
End reading.

(** ** Texts *)

(** ** How many bits a text needs

    By the standard alone: four bits of mode, a length field that depends on the mode
    and the version, and ten bits for three digits, eleven for two characters of the
    alphanumeric set, or eight for a byte. *)
Definition is_digit (c : Z) : bool := (48 <=? c) && (c <=? 57).
(** Digits, capital letters and [space $ % * + - . / :]. *)
Definition is_alnum (c : Z) : bool :=
  is_digit c || (65 <=? c) && (c <=? 90) ||
  bool_decide (c ∈ [32; 36; 37; 42; 43; 45; 46; 47; 58]).

Definition length_field (small medium large v : Z) : Z :=
  if v <=? 9 then small else if v <=? 26 then medium else large.

Lemma length_field_nonneg a b c v : 0 ≤ a → 0 ≤ b → 0 ≤ c → 0 ≤ length_field a b c v.
Proof. unfold length_field. repeat case_match; lia. Qed.

Definition text_bits (v : Z) (text : list Z) : Z :=
  let n := Z.of_nat (length text) in
  if bool_decide (text = []) then 0
  else if forallb is_digit text then 4 + length_field 10 12 14 v + (10 * n + 2) / 3
  else if forallb is_alnum text then 4 + length_field 9 11 13 v + (11 * n + 1) / 2
  else 4 + length_field 8 16 16 v + 8 * n.

Lemma is_digit_spec c : is_digit c = negb ((c <? chr_0) || (chr_9 <? c)).
Proof.
  unfold is_digit. change chr_0 with 48. change chr_9 with 57.
  destruct (Z.leb_spec 48 c), (Z.leb_spec c 57), (Z.ltb_spec c 48), (Z.ltb_spec 57 c);
    simpl; lia || done.
Qed.

Lemma is_alnum_spec c : is_byte c →
  is_alnum c = bool_decide (is_Some (strchr ALPHANUMERIC_CHARSET c)).
Proof.
  intros Hc. apply eqb_prop.
  assert (Forall (λ c, Bool.eqb (is_alnum c) (bool_decide (is_Some (strchr ALPHANUMERIC_CHARSET c)))
                       = true) (seqZ 0 256)) as Hall.
  { apply forallb_Forall. vm_compute. reflexivity. }
  rewrite Forall_forall in Hall. apply Hall, elem_of_seqZ. unfold is_byte in Hc. lia.
Qed.

Lemma forallb_ext_Forall {A} (f g : A → bool) l :
  Forall (λ x, f x = g x) l → forallb f l = forallb g l.
Proof. induction 1 as [|x l H _ IH]; simpl; [done|]. by rewrite H, IH. Qed.

Lemma text_bits_isNumeric text : forallb is_digit text = isNumeric text.
Proof. apply forallb_ext_Forall, Forall_true. intros c. apply is_digit_spec. Qed.

Lemma text_bits_isAlphanumeric text :
  Forall is_byte text → forallb is_alnum text = isAlphanumeric text.
Proof. intros Hb. apply forallb_ext_Forall. eapply Forall_impl; [exact Hb|apply is_alnum_spec]. Qed.

(** The length fields and the capacities of the 40 versions. *)
Definition field_check (v : Z) (e : Ecc) : bool :=
  (count_bits NUMERIC v =? length_field 10 12 14 v) &&
  (count_bits ALPHANUMERIC v =? length_field 9 11 13 v) &&
  (count_bits BYTE v =? length_field 8 16 16 v) &&
  (3 * (capacity v e * 8) <? 10 * 2 ^ length_field 10 12 14 v) &&
  (2 * (capacity v e * 8) <? 11 * 2 ^ length_field 9 11 13 v) &&
  (capacity v e * 8 <? 8 * 2 ^ length_field 8 16 16 v).

Lemma field_checked v e : 1 ≤ v ≤ 40 → field_check v e = true.
Proof. apply forall_versions_levels. vm_compute. reflexivity. Qed.

Lemma field_spec v e : 1 ≤ v ≤ 40 →
  (count_bits NUMERIC v = length_field 10 12 14 v ∧
   count_bits ALPHANUMERIC v = length_field 9 11 13 v ∧
   count_bits BYTE v = length_field 8 16 16 v) ∧
  3 * (capacity v e * 8) < 10 * 2 ^ length_field 10 12 14 v ∧
  2 * (capacity v e * 8) < 11 * 2 ^ length_field 9 11 13 v ∧
  capacity v e * 8 < 8 * 2 ^ length_field 8 16 16 v.
Proof.
  intros Hv. pose proof (field_checked v e Hv) as H. unfold field_check in H. zbool. lia.
Qed.

(** The segment of a text fits exactly when the bits of the text do. *)
Lemma fits_alone s e v :
  fits [s] e v ↔ numChars s < 2 ^ count_bits (seg_mode s) v ∧
    4 + count_bits (seg_mode s) v + Z.of_nat (length (seg_data s)) ≤ capacity v e * 8.
Proof.
  unfold fits. rewrite Forall_singleton. unfold total_bits, seg_bits, seg_fits. simpl.
  by rewrite Z.add_0_r.
Qed.

Lemma digits_bits n : Z.of_nat (10 * (n / 3) + nth (n mod 3) [0; 4; 7] 0)%nat = (10 * Z.of_nat n + 2) / 3.
Proof.
  pose proof (Nat.div_mod_eq n 3). pose proof (Nat.mod_upper_bound n 3 ltac:(done)).
  destruct (n mod 3)%nat as [|[|[|]]]; [..|lia]; cbn [nth];
    Z.to_euclidean_division_equations; lia.
Qed.

Lemma pairs_bits n : Z.of_nat (11 * (n / 2) + 6 * (n mod 2))%nat = (11 * Z.of_nat n + 1) / 2.
Proof.
  pose proof (Nat.div_mod_eq n 2). pose proof (Nat.mod_upper_bound n 2 ltac:(done)).
  Z.to_euclidean_division_equations. lia.
Qed.

Lemma makeSegments_encodes text :
  Forall is_byte text → Z.of_nat (length text) ≤ INT_MAX →
  ∃ segs texts, makeSegments text = Ok segs ∧ Forall2 encodes segs texts ∧ mjoin texts = text ∧
    (length segs ≤ 1)%nat ∧
    ∀ v e, 1 ≤ v ≤ 40 → fits segs e v ↔ text_bits v text ≤ capacity v e * 8.
Proof.
  intros Hb Hmax. unfold makeSegments, text_bits.
  rewrite text_bits_isNumeric, text_bits_isAlphanumeric by done.
  destruct (decide (text = [])) as [->|Hne].
  { exists [], []. split_and!; [done|constructor|done|simpl; lia|]. intros v e Hv.
    unfold fits. simpl. rewrite Forall_nil. lia. }
  rewrite (bool_decide_false (text = [])) by done.
  assert (∀ s, encodes s text → Forall2 encodes [s] [text] ∧ mjoin [text] = text ∧ (length [s] ≤ 1)%nat)
    as Hone.
  { intros s Hs. simpl. rewrite app_nil_r. split_and!; [by repeat constructor|done|lia]. }
  destruct (isNumeric text) eqn:Hn; [|destruct (isAlphanumeric text) eqn:Ha].
  - apply isNumeric_spec in Hn. rewrite makeNumeric_Ok by done.
    eexists _, [text]. split; [reflexivity|].
    destruct (Hone _ (encodes_numeric text Hn)) as (? & ? & ?). split_and!; [done..|].
    intros v e Hv. rewrite fits_alone. cbn [seg_mode numChars seg_data].
    rewrite length_numeric_bits, length_fmap, digits_bits.
    destruct (field_spec v e Hv) as ((-> & _) & ? & _).
    pose proof (length_field_nonneg 10 12 14 v ltac:(lia) ltac:(lia) ltac:(lia)).
    Z.to_euclidean_division_equations. lia.
  - apply isAlphanumeric_spec in Ha. rewrite makeAlphanumeric_Ok by done.
    eexists _, [text]. split; [reflexivity|].
    destruct (Hone _ (encodes_alnum text Ha)) as (? & ? & ?). split_and!; [done..|].
    intros v e Hv. rewrite fits_alone. cbn [seg_mode numChars seg_data].
    rewrite length_alnum_bits, length_fmap, pairs_bits.
    destruct (field_spec v e Hv) as ((_ & -> & _) & _ & ? & _).
    pose proof (length_field_nonneg 9 11 13 v ltac:(lia) ltac:(lia) ltac:(lia)).
    Z.to_euclidean_division_equations. lia.
  - assert (Hu : u8 <$> text = text).
    { rewrite <-(list_fmap_id text) at 2. apply list_fmap_ext. intros i x Hx.
      apply u8_small. by eapply Forall_lookup_1 in Hx; [|exact Hb]. }
    rewrite Hu, makeBytes_Ok by done.
    eexists _, [text]. split; [reflexivity|].
    destruct (Hone _ (encodes_bytes text Hb)) as (? & ? & ?). split_and!; [done..|].
    intros v e Hv. rewrite fits_alone. cbn [seg_mode numChars seg_data].
    rewrite length_byte_bits. destruct (field_spec v e Hv) as ((_ & _ & ->) & _ & _ & ?).
    pose proof (length_field_nonneg 8 16 16 v ltac:(lia) ltac:(lia) ltac:(lia)). lia.
Qed.

Lemma read_stream_fuel f1 : ∀ f2 v bits text,
  (f1 ≤ f2)%nat → read_stream f1 v bits = Some text → read_stream f2 v bits = Some text.
Proof.
  induction f1 as [|f1 IH]; intros f2 v bits text Hle H; [done|].
  destruct f2 as [|f2]; [lia|]. cbn [read_stream] in *.
  destruct (decide _); [done|]. destruct (_ =? 0); [done|].
  destruct (mode_of_bits _) as [md|]; [|done]. cbn [mbind option_bind] in *.
  destruct (read_stream f1 _ _) as [rest|] eqn:E; [|done].
  by rewrite (IH f2 _ _ rest) by (done || lia).
Qed.

(** [encodeSegments] on segments that represent texts. *)
Lemma encodeSegments_decode segs texts ecl minV maxV msk b :
  Forall2 encodes segs texts → (length segs ≤ 1)%nat →
  1 ≤ minV → minV ≤ maxV ≤ 40 → -1 ≤ msk ≤ 7 →
  (∃ qr, encodeSegments segs ecl minV maxV msk b = Ok qr ∧ decode (modules qr) = Some (mjoin texts) ∧
     minV ≤ version qr ≤ maxV ∧ size qr = version qr * 4 + 17 ∧ 0 ≤ mask qr ≤ 7 ∧
     level_rank ecl ≤ level_rank (errorCorrectionLevel qr) ∧
     grid_wf (size qr) (modules qr) ∧
     fits segs ecl (version qr) ∧ (∀ w, minV ≤ w < version qr → ¬ fits segs ecl w)) ∨
  (encodeSegments segs ecl minV maxV msk b = throw data_too_long ∧
     ∀ w, minV ≤ w ≤ maxV → ¬ fits segs ecl w).
Proof.
  intros Henc Hsegs H1 H2 Hm. unfold encodeSegments.
  destruct (encodeSegments_data_spec segs texts ecl minV maxV msk b Henc H1 H2 Hm)
    as [(v & e & cws & -> & Hv & Hfit & Hmin & Hr & Hlen & Hby & Hread)|[-> Hno]]; [left|by right].
  cbn [mbind outcome_bind].
  destruct (mkQrCode_decode v e ltac:(lia) cws msk Hm Hlen Hby)
    as (qr & -> & Hver & Hs & He & Hmk & _ & Hg & Hdec).
  exists qr. rewrite Hver, Hs, He, Hdec. split_and!; try done || lia.
  apply (read_stream_fuel (S (length segs))); [|done].
  destruct (getNumDataCodewords_Ok v e) as [_ ?]; lia.
Qed.

(** A text that has no special form takes a byte per character. *)
Lemma text_bits_le text : text_bits 40 text ≤ 20 + 8 * Z.of_nat (length text).
Proof.
  unfold text_bits. change (length_field ?a ?b ?c 40) with c.
  destruct (bool_decide _), (forallb is_digit text), (forallb is_alnum text);
    Z.to_euclidean_division_equations; lia.
Qed.

(** A symbol of the text: a grid from which a reader recovers it. *)
Definition shows (text : list Z) (qr : QrCode) : Prop :=
  decode (modules qr) = Some text ∧
  MIN_VERSION ≤ version qr ≤ MAX_VERSION ∧ size qr = version qr * 4 + 17 ∧
  0 ≤ mask qr ≤ 7 ∧ grid_wf (size qr) (modules qr).

(** The symbol is of the smallest version that holds the text at the level, or none is. *)
Lemma encodeText_smallest text ecl :
  Forall is_byte text → Z.of_nat (length text) ≤ INT_MAX →
  (∃ qr, encodeText text ecl = Ok qr ∧ shows text qr ∧
     level_rank ecl ≤ level_rank (errorCorrectionLevel qr) ∧
     text_bits (version qr) text ≤ capacity (version qr) ecl * 8 ∧
     ∀ w, 1 ≤ w < version qr → capacity w ecl * 8 < text_bits w text) ∨
  (encodeText text ecl = throw data_too_long ∧
     ∀ w, 1 ≤ w ≤ 40 → capacity w ecl * 8 < text_bits w text).
Proof.
  intros Hb Hlen. unfold encodeText.
  destruct (makeSegments_encodes text Hb Hlen) as (segs & texts & -> & Henc & <- & Hone & Hfits).
  rewrite bind_Ok_l. unfold shows, MIN_VERSION, MAX_VERSION.
  destruct (encodeSegments_decode segs texts ecl 1 40 (-1) true)
    as [(qr & Hqr & Hdec & Hv & Hs & Hm & Hr & Hg & Hfit & Hmin)|[Hrun Hno]]; [done|done|lia..| |].
  - left. exists qr. split_and!; try done || lia.
    + by apply Hfits.
    + intros w Hw. apply Z.nle_gt. rewrite <-Hfits by lia. by apply Hmin.
  - right. split; [done|]. intros w Hw. apply Z.nle_gt. rewrite <-Hfits by lia. by apply Hno.
Qed.

Lemma encodeText_shows text ecl :
  Forall is_byte text → Z.of_nat (length text) ≤ INT_MAX →
  (∃ qr, encodeText text ecl = Ok qr ∧ shows text qr) ∨
  (encodeText text ecl = throw data_too_long ∧
   capacity 40 ecl * 8 < 20 + 8 * Z.of_nat (length text)).
Proof.
  intros Hb Hlen.
  destruct (encodeText_smallest text ecl Hb Hlen) as [(qr & Hqr & Hsh & _)|[Hrun Hno]].
  - left. by exists qr.
  - right. split; [done|]. specialize (Hno 40 ltac:(lia)). pose proof (text_bits_le text). lia.
Qed.
