(* ===== verification/QrProperties.v ===== *)
(** * The QR encoder: main properties

    The promises of [encodeText] and of the steps it is made of. *)
From S2P Require Import Prelude QrSegment QrSegmentFacts QrEncode QrEncodeFacts.
From S2P Require Import ReedSolomon ReedSolomonFacts Grid QrCode QrDrawFacts QrPlaceFacts.
From S2P Require Import QrDataCells QrMaskFacts QrBlocks QrPenaltyFacts QrSymbolFacts.
From S2P Require Import QrRoundTrip.

(** ** Distances of the two BCH codes *)

(** In how many of their low [n] bits two words differ. *)
Definition hamming (n : nat) (a b : Z) : nat :=
  length (filter (λ i, Z.testbit a i ≠ Z.testbit b i) (seqZ 0 (Z.of_nat n))).

Definition format_words : list (Ecc * Z) := e ← levels; m ← seqZ 0 8; [(e, m)].

Lemma elem_of_format_words e m : 0 ≤ m ≤ 7 → (e, m) ∈ format_words.
Proof.
  intros Hm. unfold format_words. apply list_elem_of_bind. exists e.
  split; [|apply elem_of_levels]. apply list_elem_of_bind. exists m.
  split; [by left|]. apply elem_of_seqZ. lia.
Qed.

(** The words of two codes are far apart when the table of all pairs says so. *)
Lemma table_distance {A} `{EqDecision A} (word : A → outcome Z) n d (l : list A) :
  forallb (λ x, forallb (λ y, bool_decide (x = y) ||
      match word x, word y with
      | Ok b, Ok b' => (d <=? hamming n b b')%nat
      | _, _ => false
      end) l) l = true →
  ∀ x y, x ∈ l → y ∈ l → x ≠ y →
    ∃ b b', word x = Ok b ∧ word y = Ok b' ∧ (d <= hamming n b b')%nat.
Proof.
  intros H x y Hx Hy Hne. rewrite forallb_Forall, Forall_forall in H. specialize (H x Hx).
  rewrite forallb_Forall, Forall_forall in H. specialize (H y Hy). cbv beta in H.
  rewrite bool_decide_false in H by done. cbn [orb] in H.
  destruct (word x) as [b|], (word y) as [b'|]; try done.
  exists b, b'. split_and!; [done|done|]. by apply Nat.leb_le.
Qed.

Lemma format_distance e m e' m' : 0 ≤ m ≤ 7 → 0 ≤ m' ≤ 7 → (e, m) ≠ (e', m') →
  ∃ b b', format_bits e m = Ok b ∧ format_bits e' m' = Ok b' ∧ (7 <= hamming 15 b b')%nat.
Proof.
  intros Hm Hm' Hne.
  apply (table_distance (λ em, format_bits em.1 em.2) 15 7 format_words) with
    (x := (e, m)) (y := (e', m')); [|by apply elem_of_format_words..|done].
  vm_cast_no_check (eq_refl true).
Qed.

Lemma version_distance v v' : 7 ≤ v ≤ 40 → 7 ≤ v' ≤ 40 → v ≠ v' →
  ∃ b b', version_bits v = Ok b ∧ version_bits v' = Ok b' ∧ (8 <= hamming 18 b b')%nat.
Proof.
  intros Hv Hv' Hne.
  apply (table_distance version_bits 18 8 (seqZ 7 34)) with (x := v) (y := v');
    [|apply elem_of_seqZ; lia..|done].
  vm_cast_no_check (eq_refl true).
Qed.

Lemma gval_new_grid v ecl x y :
  in_grid (v * 4 + 17) x y → gval (isFunction (blank v ecl)) x y = false.
Proof.
  intros [Hx Hy]. simpl. unfold new_grid.
  rewrite (gval_lookup _ x y (replicate (Z.to_nat (v * 4 + 17)) false) false);
    [done|lia|lia|apply lookup_replicate_2; lia..].
Qed.

(** ** The properties *)

(** C2. [encodeText] on any C string of at most [INT_MAX] bytes: either it returns the
    symbol of the smallest version, 1 to 40, whose data codewords at the requested
    level hold the bits the text needs by the standard ([text_bits]: mode, length field
    and ten bits for three digits, eleven for two alphanumeric characters or eight for a
    byte), and from whose modules alone a reader (size, format bits, unmasking, the scan
    order, the blocks, the segments) recovers the text; the level of the symbol is not
    lower than the requested one. Or it throws [data_too_long], and then the text needs
    more bits than the codewords of any version hold at the level. No assertion fails
    and no access is out of range. *)
Theorem encodeText_roundtrip text ecl :
  Forall is_byte text → Z.of_nat (length text) ≤ INT_MAX →
  (∃ qr, encodeText text ecl = Ok qr ∧ decode (modules qr) = Some text ∧
     1 ≤ version qr ≤ 40 ∧ size qr = version qr * 4 + 17 ∧ 0 ≤ mask qr ≤ 7 ∧
     grid_wf (size qr) (modules qr) ∧
     level_rank ecl ≤ level_rank (errorCorrectionLevel qr) ∧
     text_bits (version qr) text ≤ capacity (version qr) ecl * 8 ∧
     ∀ w, 1 ≤ w < version qr → capacity w ecl * 8 < text_bits w text) ∨
  (encodeText text ecl = throw data_too_long ∧
     ∀ w, 1 ≤ w ≤ 40 → capacity w ecl * 8 < text_bits w text).
Proof.
  intros Hb Hlen. destruct (encodeText_smallest text ecl Hb Hlen)
    as [(qr & Hqr & (?&?&?&?&?) & ? & ? & ?)|?]; [left; by exists qr|by right].
Qed.

Definition example_text : list Z := c_str "tg://login?token=QUJDREVG".

Lemma encodeText_roundtrip_witness :
  ∃ qr, encodeText example_text QUARTILE = Ok qr ∧ decode (modules qr) = Some example_text.
Proof.
  destruct (encodeText_roundtrip example_text QUARTILE)
    as [(qr & Hqr & Hdec & _)|[_ Hcap]].
  - repeat constructor; vm_compute; discriminate.
  - vm_compute. discriminate.
  - exists qr. split; [exact Hqr|exact Hdec].
  - exfalso. specialize (Hcap 40 ltac:(lia)). revert Hcap. vm_compute. discriminate.
Defined.

(** [encodeSegments] on segments that represent texts: in the allowed range it
    takes the smallest version whose capacity at the requested level holds them,
    never lowers the level, and builds a readable symbol; it throws
    [data_too_long] exactly when no allowed version holds them. *)
Theorem encodeSegments_picks_smallest_version segs texts ecl minV maxV msk boost :
  Forall2 encodes segs texts → (length segs ≤ 1)%nat →
  1 ≤ minV → minV ≤ maxV ≤ 40 → -1 ≤ msk ≤ 7 →
  (∃ qr, encodeSegments segs ecl minV maxV msk boost = Ok qr ∧
     minV ≤ version qr ≤ maxV ∧ fits segs ecl (version qr) ∧
     (∀ w, minV ≤ w < version qr → ¬ fits segs ecl w) ∧
     level_rank ecl ≤ level_rank (errorCorrectionLevel qr) ∧
     decode (modules qr) = Some (mjoin texts)) ∨
  (encodeSegments segs ecl minV maxV msk boost = throw data_too_long ∧
     ∀ w, minV ≤ w ≤ maxV → ¬ fits segs ecl w).
Proof.
  intros H1 H2 H3 H4 H5.
  destruct (encodeSegments_decode segs texts ecl minV maxV msk boost H1 H2 H3 H4 H5)
    as [(qr & ? & ? & ? & ? & ? & ? & ? & ? & ?)|?]; [left; by exists qr|by right].
Qed.

Definition example_segment : QrSegment :=
  {| seg_mode := BYTE; numChars := 2; seg_data := byte_bits [104; 105] |}.

Lemma encodeSegments_picks_smallest_version_witness :
  ∃ qr, encodeSegments [example_segment] LOW 1 10 3 false = Ok qr ∧
    decode (modules qr) = Some [104; 105].
Proof.
  destruct (encodeSegments_picks_smallest_version [example_segment] [[104; 105]] LOW 1 10 3 false)
    as [(qr & Hqr & _ & _ & _ & _ & Hdec)|[_ Hno]]; [|simpl; lia..| |].
  - constructor; [|constructor]. apply (encodes_bytes [104; 105]).
    repeat constructor; vm_compute; discriminate.
  - exists qr. split; [exact Hqr|exact Hdec].
  - exfalso. apply (Hno 1); [lia|]. apply (bool_decide_unpack _). vm_compute. exact I.
Defined.

(** C34. The automatic mask: the symbol is the one the smallest mask of minimal
    penalty gives, and the penalty of every mask is defined. *)
Theorem automatic_mask_is_best v ecl data :
  1 ≤ v ≤ 40 → Z.of_nat (length data) = capacity v ecl → Forall byte data →
  ∃ msk best, 0 ≤ msk ≤ 7 ∧ mkQrCode v ecl data (-1) = mkQrCode v ecl data msk ∧
    (q ← mkQrCode v ecl data msk; getPenaltyScore q) = Ok best ∧
    ∀ i, 0 ≤ i ≤ 7 → ∃ p, (q ← mkQrCode v ecl data i; getPenaltyScore q) = Ok p ∧
      0 ≤ p ≤ 2568888 ∧ best ≤ p ∧ (i < msk → best < p).
Proof.
  intros Hv Hlen Hdata.
  destruct (construct_base_Ok v ecl Hv data Hlen Hdata) as (all & base & Hb & Hd & _).
  destruct (mkQrCode_auto v ecl Hv data base Hb Hd) as (msk & best & Hm & Hauto & Hbest & Hmin).
  exists msk, best. split; [done|].
  rewrite (mkQrCode_given v ecl Hv data base msk) by done. split; [done|].
  rewrite (finish_penalty v ecl Hv) by done. split; [done|]. intros i Hi.
  destruct (mask_penalty_Ok v ecl Hv base i Hi Hd) as (p & Hp & Hr). exists p.
  rewrite (mkQrCode_given v ecl Hv data base i), (finish_penalty v ecl Hv) by done.
  destruct (Hmin i p Hi Hp). split_and!; done || lia.
Qed.

Lemma automatic_mask_is_best_witness :
  ∃ msk, 0 ≤ msk ≤ 7 ∧
    mkQrCode 1 LOW (replicate 19 17) (-1) = mkQrCode 1 LOW (replicate 19 17) msk.
Proof.
  destruct (automatic_mask_is_best 1 LOW (replicate 19 17)) as (msk & best & Hm & Heq & _).
  - lia.
  - vm_compute. reflexivity.
  - apply Forall_replicate. unfold byte. lia.
  - exists msk. split; [exact Hm|exact Heq].
Defined.

(** [addEccAndInterleave] on a full set of data codewords: it returns as many
    codewords as the version has, undoing the interleaving gives the data back,
    and every block, data followed by error correction, is a codeword of the
    Reed-Solomon code: it vanishes at all roots of the generator. *)
Theorem addEccAndInterleave_reads_back v ecl data :
  1 ≤ v ≤ 40 → Z.of_nat (length data) = capacity v ecl → Forall byte data →
  ∃ all, addEccAndInterleave v ecl data = Ok all ∧
    Z.of_nat (length all) = raw_codewords v ∧ Forall byte all ∧
    deinterleave v ecl all = data ∧
    ∀ i j, (i < Z.to_nat (ecc_len v ecl))%nat → (j < Z.to_nat (num_blocks v ecl))%nat →
      eval (root i) (received_data v ecl all j ++ received_ecc v ecl all j) = 0.
Proof. intros Hv. by apply addEccAndInterleave_codewords. Qed.

Lemma addEccAndInterleave_reads_back_witness :
  ∃ all, addEccAndInterleave 5 QUARTILE (seqZ 0 62) = Ok all ∧
    deinterleave 5 QUARTILE all = seqZ 0 62.
Proof.
  destruct (addEccAndInterleave_reads_back 5 QUARTILE (seqZ 0 62))
    as (all & Hall & _ & _ & Hde & _).
  - lia.
  - vm_compute. reflexivity.
  - apply Forall_forall. intros x Hx%elem_of_seqZ. unfold byte. lia.
  - exists all. split; [exact Hall|exact Hde].
Defined.

(** [drawCodewords] in a symbol with its function patterns: every bit of the
    codewords is placed, reading the data positions in the order of the scan gives
    the bits back, and no function module changes. *)
Theorem drawCodewords_reads_back v ecl qr data :
  1 ≤ v ≤ 40 → drawFunctionPatterns (blank v ecl) = Ok qr →
  Z.of_nat (length data) = raw_codewords v →
  ∃ qr', drawCodewords qr data = Ok qr' ∧
    read_cells (modules qr') (take (length data * 8) (data_cells v)) = byte_bits data ∧
    isFunction qr' = isFunction qr ∧
    ∀ x y, in_grid (v * 4 + 17) x y → gval (isFunction qr) x y = true →
      gval (modules qr') x y = gval (modules qr) x y.
Proof.
  intros Hv Hqr Hlen. destruct (drawn_function_grid v ecl Hv) as (q & Hq & Hw & _ & Hf).
  rewrite Hqr in Hq. apply (inj Ok) in Hq as <-.
  destruct (drawCodewords_Ok v ecl qr data Hv Hw Hf Hlen) as (qr' & ? & _ & _ & Hf' & ? & Hout).
  exists qr'. rewrite Hf, Hf'. split_and!; [done|done|done|]. by apply Hout.
Qed.

Lemma drawCodewords_reads_back_witness :
  ∃ qr qr', drawFunctionPatterns (blank 1 LOW) = Ok qr ∧
    drawCodewords qr (seqZ 100 26) = Ok qr' ∧
    read_cells (modules qr') (take 208 (data_cells 1)) = byte_bits (seqZ 100 26).
Proof.
  destruct (drawn_function_grid 1 LOW ltac:(lia)) as (qr & Hqr & _).
  destruct (drawCodewords_reads_back 1 LOW qr (seqZ 100 26)) as (qr' & Hqr' & Hrd & _);
    [lia|exact Hqr|vm_compute; reflexivity|].
  exists qr, qr'. split; [exact Hqr|]. split; [exact Hqr'|exact Hrd].
Defined.

(** A mask is undone by applying it again, and touches no function module. *)
Theorem applyMask_undone v ecl qr msk :
  0 ≤ msk ≤ 7 → qr_wf v ecl qr →
  ∃ qr', applyMask qr msk = Ok qr' ∧ applyMask qr' msk = Ok qr ∧
    ∀ x y, in_grid (v * 4 + 17) x y → gval (isFunction qr) x y = true →
      gval (modules qr') x y = gval (modules qr) x y.
Proof.
  intros Hm Hw. destruct (applyMask_Ok v ecl qr msk Hm Hw) as (qr' & Hqr' & _ & _ & _ & Hval).
  pose proof (applyMask_involutive v ecl qr msk Hm Hw) as Hinv. rewrite Hqr', bind_Ok_l in Hinv.
  exists qr'. split_and!; [done|done|]. intros x y Hxy Hf.
  specialize (Hval x y Hxy). unfold mval, fval in Hval.
  by rewrite Hval, Hf, andb_false_r, xorb_false_r.
Qed.

Lemma applyMask_undone_witness :
  ∃ qr', applyMask (blank 2 HIGH) 5 = Ok qr' ∧ applyMask qr' 5 = Ok (blank 2 HIGH).
Proof.
  destruct (applyMask_undone 2 HIGH (blank 2 HIGH) 5) as (qr' & H1 & H2 & _);
    [lia|apply blank_wf; lia|].
  exists qr'. split; [exact H1|exact H2].
Defined.

(** [drawFunctionPatterns] marks exactly the positions of the timing, finder,
    alignment, format and version patterns, without an access out of range, and
    leaves as many positions for data as [getNumRawDataModules] computes. *)
Theorem function_patterns_drawn v ecl :
  1 ≤ v ≤ 40 →
  ∃ qr, drawFunctionPatterns (blank v ecl) = Ok qr ∧
    (∀ x y, in_grid (v * 4 + 17) x y →
       gval (isFunction qr) x y = bool_decide ((x, y) ∈ function_cells v)) ∧
    getNumRawDataModules v =
      Ok (Z.of_nat (length (free_cells (isFunction qr) (zigzag (v * 4 + 17))))).
Proof.
  intros Hv. destruct (draws_function_patterns v ecl Hv) as [val Hd].
  destruct (Hd (blank v ecl)) as (qr & Hqr & _ & _ & Hval); [apply blank_wf; lia|].
  destruct (drawn_function_grid v ecl Hv) as (q & Hq & _ & _ & Hf).
  rewrite Hqr in Hq. apply (inj Ok) in Hq as <-. exists qr. split_and!; [done| |].
  - intros x y Hxy. destruct (Hval x y Hxy) as [Hfv _]. unfold fval in Hfv. rewrite Hfv.
    by rewrite (gval_new_grid v ecl x y Hxy).
  - rewrite Hf. destruct (data_cells_count v Hv) as [Hc Hr].
    unfold data_cells in Hc. by rewrite Hc.
Qed.

Lemma function_patterns_drawn_witness :
  ∃ qr, drawFunctionPatterns (blank 7 LOW) = Ok qr.
Proof.
  destruct (function_patterns_drawn 7 LOW) as (qr & Hqr & _); [lia|]. exists qr. exact Hqr.
Defined.

(** The format bits of two different (level, mask) pairs differ in at least
    seven of their fifteen bits, the version bits of two versions in at least
    eight of eighteen: a reader corrects three errors in either. *)
Theorem format_and_version_bits_distance :
  (∀ e m e' m', 0 ≤ m ≤ 7 → 0 ≤ m' ≤ 7 → (e, m) ≠ (e', m') →
     ∃ b b', format_bits e m = Ok b ∧ format_bits e' m' = Ok b' ∧
       (7 <= hamming 15 b b')%nat) ∧
  (∀ v v', 7 ≤ v ≤ 40 → 7 ≤ v' ≤ 40 → v ≠ v' →
     ∃ b b', version_bits v = Ok b ∧ version_bits v' = Ok b' ∧
       (8 <= hamming 18 b b')%nat).
Proof. split; [apply format_distance|apply version_distance]. Qed.
