(* ===== verification/QrDisplay.v ===== *)
(** * The printed symbol

    [display] prints two rows of modules per line of text with half-block
    characters, inside a border of two light modules. *)
From S2P Require Import Prelude QrSegment QrSegmentFacts QrEncode QrEncodeFacts.
From S2P Require Import ReedSolomon Grid QrCode QrDrawFacts QrRoundTrip.

(** ** The picture of a grid *)

(** A module, light outside the symbol. *)
Definition shade (g : grid) (n x y : Z) : bool :=
  bool_decide (in_grid n x y) && gval g x y.

Definition glyph (top bottom : bool) : string :=
  match top, bottom with
  | false, false => "█" | false, true => "▀" | true, false => "▄" | true, true => " "
  end%string.

Definition join (l : list string) : string := foldr String.append EmptyString l.

(** The line of text for the rows [i] and [i + 1]; the row below the border is
    printed dark, the colour of the terminal. *)
Definition picture_line (g : grid) (n i : Z) : string :=
  ("  "%string +:+ join ((λ j, glyph (shade g n j i)
                    (if i + 1 <? n + 2 then shade g n j (i + 1) else true))
                  <$> range (-2) (n + 2)) +:+ "  "%string +:+ newline).

Definition picture (g : grid) (n : Z) : string :=
  (newline +:+ join (picture_line g n <$> range2 (-2) (n + 2)) +:+ newline).

(** ** [display] prints it *)
Lemma string_app_assoc (s1 s2 s3 : string) : (s1 +:+ (s2 +:+ s3) = (s1 +:+ s2) +:+ s3).
Proof. induction s1 as [|c s1 IH]; [done|]. exact (f_equal (String c) IH). Qed.
Lemma string_app_nil_r (s : string) : (s +:+ EmptyString = s).
Proof. induction s as [|c s IH]; [done|]. exact (f_equal (String c) IH). Qed.

(** A loop that appends one string per iteration. *)
Lemma append_loop {A} (f : A → string) (body : string → A → outcome string) l : ∀ os,
  (∀ os x, x ∈ l → body os x = Ok (os +:+ f x)%string) →
  ofold body os l = Ok (os +:+ join (f <$> l)).
Proof.
  induction l as [|x l IH]; intros os H; cbn [ofold fmap list_fmap join foldr].
  - by rewrite string_app_nil_r.
  - rewrite H by (by left). rewrite bind_Ok_l, IH by (intros; apply H; by right).
    by rewrite <-string_app_assoc.
Qed.

Section display.
Context (qr : QrCode) (Hg : grid_wf (size qr) (modules qr)).
#[local] Set Default Proof Using "All".

Lemma getModule_Ok x y : getModule qr x y = Ok (shade (modules qr) (size qr) x y).
Proof.
  unfold getModule, shade, module. destruct (decide (in_grid (size qr) x y)) as [Hxy|Hxy].
  - rewrite bool_decide_true by done. unfold in_grid in Hxy.
    rewrite !(proj2 (Z.leb_le _ _)), !(proj2 (Z.ltb_lt _ _)) by lia. cbn [andb].
    by apply (grid_get_Ok (size qr)).
  - rewrite bool_decide_false by done. destruct (_ && _) eqn:E; [|done].
    zbool. unfold in_grid in Hxy. lia.
Qed.

Lemma display_cell_Ok i os j :
  display_cell qr i os j =
    Ok (os +:+ glyph (shade (modules qr) (size qr) j i)
          (if i + 1 <? size qr + 2 then shade (modules qr) (size qr) j (i + 1) else true)).
Proof.
  unfold display_cell, bsize. rewrite !getModule_Ok, bind_Ok_l.
  destruct (i + 1 <? size qr + 2); rewrite bind_Ok_l; by repeat destruct (shade _ _ _ _).
Qed.

Lemma display_Ok os : display os qr = Ok (os +:+ picture (modules qr) (size qr)).
Proof.
  unfold display, picture, bsize.
  rewrite (append_loop (picture_line (modules qr) (size qr))).
  - rewrite bind_Ok_l. by rewrite !string_app_assoc.
  - intros os' i _. unfold bsize.
    rewrite (append_loop (λ j, glyph (shade (modules qr) (size qr) j i)
      (if i + 1 <? size qr + 2 then shade (modules qr) (size qr) j (i + 1) else true)))
      by (intros; apply display_cell_Ok).
    rewrite bind_Ok_l. unfold picture_line. by rewrite !string_app_assoc.
Qed.
End display.
