(* ===== verification/StdString.v ===== *)
(** * [std::string] operations

    The operations of the C++ library the program uses on strings. Counts are
    [size_t]: a negative [int] passed for one arrives as a number above
    [max_size] and makes the operation throw [length_error]. *)
From S2P Require Import Prelude QrSegment.

(** [max_size()] of a [std::string]. *)
Definition string_max_size : Z := 9223372036854775807.

Fixpoint repeat_char (n : nat) (c : Ascii.ascii) : string :=
  match n with O => EmptyString | S n => String c (repeat_char n c) end.

Definition space : Ascii.ascii := Ascii.ascii_of_nat 32.
Definition NUL : Ascii.ascii := Ascii.ascii_of_nat 0.

Definition string_size (s : string) : Z := Z.of_nat (String.length s).

(** [s.append(n, c)] *)
Definition string_append (s : string) (n : Z) (c : Ascii.ascii) : outcome string :=
  if string_max_size <? string_size s + u64 n then throw length_error
  else Ok (s +:+ repeat_char (Z.to_nat (u64 n)) c)%string.

(** [std::string(n, c)] *)
Definition string_fill (n : Z) (c : Ascii.ascii) : outcome string :=
  string_append EmptyString n c.

(** [s.substr(0, n)] *)
Definition string_prefix (s : string) (n : Z) : string :=
  String.substring 0 (Z.to_nat (Z.min (u64 n) (string_size s))) s.

(** [s.resize(n)] *)
Definition string_resize (s : string) (n : Z) : outcome string :=
  if u64 n <=? string_size s then Ok (string_prefix s n)
  else string_append s (u64 n - string_size s) NUL.

(** The C string a function taking [s.c_str()] reads. *)
Fixpoint cut_nul (s : string) : string :=
  match s with
  | EmptyString => EmptyString
  | String c s => if char_code c =? 0 then EmptyString else String c (cut_nul s)
  end.

(** ** [std::stoi] *)
Definition isspace (c : Z) : bool := (c =? 32) || ((9 <=? c) && (c <=? 13)).
Definition isdigit (c : Z) : bool := (48 <=? c) && (c <=? 57).

Fixpoint skip_space (l : list Z) : list Z :=
  match l with
  | c :: l' => if isspace c then skip_space l' else l
  | [] => []
  end.

Fixpoint digits_value (acc : Z) (l : list Z) : Z :=
  match l with
  | c :: l => if isdigit c then digits_value (acc * 10 + (c - 48)) l else acc
  | [] => acc
  end.

Definition split_sign (l : list Z) : bool * list Z :=
  match l with
  | c :: l' => if c =? 45 then (true, l') else if c =? 43 then (false, l') else (false, l)
  | [] => (false, [])
  end.

(** White space, a sign, then the longest run of digits; what follows is
    ignored. *)
Definition stoi (s : string) : outcome Z :=
  let '(neg, l) := split_sign (skip_space (c_str s)) in
  match l with
  | c :: _ =>
      if isdigit c then
        let v := digits_value 0 l in
        let v := if neg then - v else v in
        if (v <? INT_MIN) || (INT_MAX <? v) then throw out_of_range else Ok v
      else throw invalid_argument
  | [] => throw invalid_argument
  end.

(** ** Lemmas *)
Lemma length_repeat_char n c : String.length (repeat_char n c) = n.
Proof. induction n as [|n IH]; simpl; congruence. Qed.

Lemma length_string_app s t : String.length (s +:+ t)%string = (String.length s + String.length t)%nat.
Proof. induction s as [|c s IH]; simpl; [done|]. by rewrite <-IH. Qed.

Lemma length_substring n s : (n ≤ String.length s)%nat → String.length (String.substring 0 n s) = n.
Proof.
  revert n. induction s as [|c s IH]; intros [|n]; simpl; try (done || lia).
  intros H. rewrite IH by lia. done.
Qed.

Lemma string_append_Ok s n c :
  0 ≤ n → string_size s + n ≤ string_max_size →
  string_append s n c = Ok (s +:+ repeat_char (Z.to_nat n) c)%string.
Proof.
  intros Hn Hs. unfold string_append.
  rewrite u64_small by (unfold two64, string_size, string_max_size in *; lia).
  by rewrite (proj2 (Z.ltb_ge _ _)) by done.
Qed.

Lemma string_append_neg s n c :
  - 4294967296 ≤ n < 0 → string_append s n c = throw length_error.
Proof.
  intros Hn. unfold string_append.
  assert (Hu : u64 n = n + two64).
  { unfold u64. rewrite <-(Z_mod_plus_full n 1). apply Z.mod_small. unfold two64. lia. }
  rewrite Hu. unfold string_size, string_max_size, two64.
  by rewrite (proj2 (Z.ltb_lt _ _)) by lia.
Qed.

Lemma string_size_append s n c :
  0 ≤ n → string_size (s +:+ repeat_char (Z.to_nat n) c)%string = string_size s + n.
Proof.
  intros Hn. unfold string_size. rewrite length_string_app, length_repeat_char. lia.
Qed.

Lemma string_size_prefix s n : 0 ≤ n < two64 → string_size (string_prefix s n) = Z.min n (string_size s).
Proof.
  intros Hn. unfold string_size, string_prefix. rewrite length_substring; rewrite u64_small by done;
    unfold string_size in *; lia.
Qed.

Lemma string_resize_shorter s n :
  0 ≤ n ≤ string_size s → n < two64 → string_resize s n = Ok (string_prefix s n).
Proof.
  intros Hn Hb. unfold string_resize. rewrite u64_small by lia.
  by rewrite (proj2 (Z.leb_le _ _)) by lia.
Qed.

Lemma stoi_range s n : stoi s = Ok n → in_int n.
Proof.
  unfold stoi. destruct (split_sign _) as [neg l].
  destruct l as [|c l]; [done|]. destruct (isdigit c); [|done].
  cbv zeta. destruct (_ || _) eqn:E; [done|]. intros [= <-]. apply orb_false_iff in E as [E1 E2]. zbool. done.
Qed.

Example stoi_ex : stoi " -42x" = Ok (-42) ∧ stoi "2147483648" = throw out_of_range
  ∧ stoi "id" = throw invalid_argument.
Proof. by vm_compute. Qed.
