(* ===== verification/TgClient.v ===== *)
(** * The Telegram client ([src/src/tg.h], [src/src/tg.cc])

    [TgClient], the dispatch of responses and updates, and the authorization
    dialogue. The handlers stored in [handlers_] are the two closures the program
    makes. *)
From S2P Require Import Prelude EventQueue StdSet TdApi AppState ChatList Messages.
From S2P Require Import QrSegment QrEncode QrCode StdString.

(** ** What the program gets from outside *)
Class Env := {
  getenv : string → option string;
  (** the identifier the n-th [create_client_id] returns *)
  new_client_id : nat → Z;
  (** what the memory of the n-th [tl_app_state_struct] held before:
      [_current_pane] and [_terminating] have no initialiser *)
  fresh_memory : nat → Z * bool;
}.

(** What the program does to the outside, in order. *)
Inductive io :=
  | IoExecute (f : Function)
  | IoCreateClient (client_id : Z)
  | IoSend (client_id query_id : Z) (f : Function)
  | IoCout (s : string).

(** ** State *)

(** The closures: [auth_query_handler()], with the value it captured, and the one
    of [get_chat_history]. *)
Inductive handler :=
  | auth_handler (id : Z)
  | history_handler.

#[global] Instance handler_eq_dec : EqDecision handler.
Proof. solve_decision. Defined.

Record TgClient := {
  client_id_ : Z;
  auth_state_ : option AuthorizationState;
  is_auth_ : bool;
  need_restart_ : bool;
  current_query_id_ : Z;
  auth_query_id_ : Z;
  handlers_ : gmap Z handler;
}.

(** The client with the state it shares with the UI thread, the options, what is
    left of the standard input (as the words [>>] reads), the number of clients
    made so far and the effects so far. *)
Record session := {
  tg : TgClient;
  sh : shared;
  use_test_dc : bool;
  logout_next : bool;
  cin : list string;
  n_clients : nat;
  out : list io;
}.

(** *** Assignments *)
Definition assign_tg (t : TgClient) (s : session) : session :=
  {| tg := t; sh := sh s; use_test_dc := use_test_dc s; logout_next := logout_next s;
     cin := cin s; n_clients := n_clients s; out := out s |}.
Definition assign_sh (h : shared) (s : session) : session :=
  {| tg := tg s; sh := h; use_test_dc := use_test_dc s; logout_next := logout_next s;
     cin := cin s; n_clients := n_clients s; out := out s |}.
Definition assign_logout_next (b : bool) (s : session) : session :=
  {| tg := tg s; sh := sh s; use_test_dc := use_test_dc s; logout_next := b;
     cin := cin s; n_clients := n_clients s; out := out s |}.
Definition emit (i : io) (s : session) : session :=
  {| tg := tg s; sh := sh s; use_test_dc := use_test_dc s; logout_next := logout_next s;
     cin := cin s; n_clients := n_clients s; out := out s ++ [i] |}.
Definition cout (str : string) : session → session := emit (IoCout str).

(** [std::cin >> word]: at the end of the input the word stays empty. *)
Definition read_word (s : session) : string * session :=
  (default EmptyString (head (cin s)),
   {| tg := tg s; sh := sh s; use_test_dc := use_test_dc s; logout_next := logout_next s;
      cin := tail (cin s); n_clients := n_clients s; out := out s |}).

Definition assign_auth_state (a : option AuthorizationState) (t : TgClient) : TgClient :=
  {| client_id_ := client_id_ t; auth_state_ := a; is_auth_ := is_auth_ t;
     need_restart_ := need_restart_ t; current_query_id_ := current_query_id_ t;
     auth_query_id_ := auth_query_id_ t; handlers_ := handlers_ t |}.
Definition assign_is_auth (b : bool) (t : TgClient) : TgClient :=
  {| client_id_ := client_id_ t; auth_state_ := auth_state_ t; is_auth_ := b;
     need_restart_ := need_restart_ t; current_query_id_ := current_query_id_ t;
     auth_query_id_ := auth_query_id_ t; handlers_ := handlers_ t |}.
Definition assign_need_restart (b : bool) (t : TgClient) : TgClient :=
  {| client_id_ := client_id_ t; auth_state_ := auth_state_ t; is_auth_ := is_auth_ t;
     need_restart_ := b; current_query_id_ := current_query_id_ t;
     auth_query_id_ := auth_query_id_ t; handlers_ := handlers_ t |}.
Definition assign_auth_query_id (n : Z) (t : TgClient) : TgClient :=
  {| client_id_ := client_id_ t; auth_state_ := auth_state_ t; is_auth_ := is_auth_ t;
     need_restart_ := need_restart_ t; current_query_id_ := current_query_id_ t;
     auth_query_id_ := n; handlers_ := handlers_ t |}.
Definition assign_handlers (h : gmap Z handler) (t : TgClient) : TgClient :=
  {| client_id_ := client_id_ t; auth_state_ := auth_state_ t; is_auth_ := is_auth_ t;
     need_restart_ := need_restart_ t; current_query_id_ := current_query_id_ t;
     auth_query_id_ := auth_query_id_ t; handlers_ := h |}.
Definition assign_query_id (n : Z) (t : TgClient) : TgClient :=
  {| client_id_ := client_id_ t; auth_state_ := auth_state_ t; is_auth_ := is_auth_ t;
     need_restart_ := need_restart_ t; current_query_id_ := n;
     auth_query_id_ := auth_query_id_ t; handlers_ := handlers_ t |}.
Definition on_tg (f : TgClient → TgClient) (s : session) : session := assign_tg (f (tg s)) s.

(** ** Sending *)

(** The counter has 64 bits, the identifier it returns 32. *)
Definition next_query_id (t : TgClient) : Z * TgClient :=
  let n := u64 (current_query_id_ t + 1) in (i32 n, assign_query_id n t).

(** [emplace] keeps a handler that is already there; the identifier is converted
    back to 64 bits for the map and for [send]. *)
Definition send_query (f : Function) (h : option handler) (s : session) : session :=
  let '(query_id, t) := next_query_id (tg s) in
  let t := match h with
           | Some h =>
               match handlers_ t !! u64 query_id with
               | None => assign_handlers (<[u64 query_id := h]> (handlers_ t)) t
               | Some _ => t
               end
           | None => t
           end in
  emit (IoSend (client_id_ t) (u64 query_id) f) (assign_tg t s).

Section client.
Context `{ChatListIds, Env}.

(** ** Construction and restart *)

(** A [TgClient()] made in a session: what the constructor does, and the session
    with the new object in place of the old (for the first one, [s] has no
    earlier client). *)
Definition new_TgClient (s : session) : session :=
  let id := new_client_id (n_clients s) in
  let '(pane0, terminating0) := fresh_memory (n_clients s) in
  let s := emit (IoExecute (setLogVerbosityLevel 1)) s in
  let s := emit (IoCreateClient id) s in
  let s := {| tg := {| client_id_ := id; auth_state_ := None; is_auth_ := false;
                       need_restart_ := false; current_query_id_ := 0; auth_query_id_ := 0;
                       handlers_ := ∅ |};
              sh := sh s; use_test_dc := use_test_dc s; logout_next := logout_next s;
              cin := cin s; n_clients := S (n_clients s); out := out s |} in
  let s := send_query (getOption "version") None s in
  assign_sh {| app_state := mk_app_state pane0 terminating0;
               event_queue := event_queue (sh s) |} s.

(** ** Authorization *)
Definition auth_query_handler (s : session) : option handler :=
  Some (auth_handler (auth_query_id_ (tg s))).

(** The parameters need [TG_API_ID] and [TG_API_HASH]; a missing variable is a
    null pointer a [std::string] is made from. *)
Definition wait_tdlib_parameters (s : session) : outcome session :=
  id_str ← deref (getenv "TG_API_ID");
  api_id ← stoi id_str;
  api_hash ← deref (getenv "TG_API_HASH");
  Ok (send_query (setTdlibParameters (use_test_dc s) "tmp/db" true true api_id api_hash
                    "en" "Desktop" "1.0") (auth_query_handler s) s).

Definition wait_phone_number (s : session) : session :=
  let s := assign_logout_next false s in
  let s := cout "phone number pls (put 0 for QR): " s in
  let '(phone_no, s) := read_word s in
  let s := cout ("got the phone number '" +:+ phone_no +:+ "'" +:+ newline)%string s in
  if negb (bool_decide (phone_no = "0"%string))
  then send_query (setAuthenticationPhoneNumber phone_no) (auth_query_handler s) s
  else send_query requestQrCodeAuthentication (auth_query_handler s) s.

Definition wait_other_device_confirmation (link : string) (s : session) : outcome session :=
  let s := assign_logout_next false s in
  let s := cout ("Scan QR with an active Telegram session " +:+ newline)%string s in
  qr ← encodeText (c_str link) QUARTILE;
  picture ← display EmptyString qr;
  let s := cout picture s in
  Ok (cout ("login link: " +:+ link +:+ newline)%string s).

(** The visitor of [process_auth]. *)
Definition visit_auth_state (a : AuthorizationState) (s : session) : outcome session :=
  match a with
  | authorizationStateWaitTdlibParameters => wait_tdlib_parameters s
  | authorizationStateWaitPhoneNumber => Ok (wait_phone_number s)
  | authorizationStateWaitCode =>
      let s := assign_logout_next false s in
      let '(code, s) := read_word (cout "code pls: " s) in
      Ok (send_query (checkAuthenticationCode code) (auth_query_handler s) s)
  | authorizationStateReady =>
      if logout_next s
      then Ok (send_query logOut None (assign_logout_next false s))
      else Ok (on_tg (assign_is_auth true) s)
  | authorizationStateWaitEmailAddress =>
      let s := assign_logout_next false s in
      let '(email, s) := read_word (cout "Email pls: " s) in
      Ok (send_query (setAuthenticationEmailAddress email) (auth_query_handler s) s)
  | authorizationStateWaitEmailCode =>
      let s := assign_logout_next false s in
      let '(code, s) := read_word (cout "code pls: " s) in
      Ok (send_query (checkAuthenticationEmailCode code) (auth_query_handler s) s)
  | authorizationStateWaitRegistration =>
      let s := assign_logout_next false s in
      let '(first_name, s) := read_word (cout "First name pls: " s) in
      let '(last_name, s) := read_word (cout "Last name pls:" s) in
      Ok (send_query (registerUser first_name last_name false) (auth_query_handler s) s)
  | authorizationStateWaitOtherDeviceConfirmation link =>
      wait_other_device_confirmation link s
  | authorizationStateLoggingOut => Ok (on_tg (assign_is_auth false) s)
  | authorizationStateClosing => Ok s
  | authorizationStateClosed =>
      Ok (on_tg (assign_need_restart true) (on_tg (assign_is_auth false) s))
  | authorizationStateWaitPassword | authorizationStateWaitPremiumPurchase => Ok s
  end.

Definition process_auth (s : session) : outcome session :=
  let s := on_tg (λ t, assign_auth_query_id (u64 (auth_query_id_ t + 1)) t) s in
  a ← deref (auth_state_ (tg s));
  visit_auth_state a s.

(** ** Updates *)
Definition process_update_user (u : user) : shared → shared :=
  with_app (λ a, assign_id_to_user (<[u_id u := u]> (id_to_user a)) a).
Definition process_update_user_full_info (id : Z) (i : string) : shared → shared :=
  with_app (λ a, assign_id_to_user_full_info (<[id := i]> (id_to_user_full_info a)) a).
Definition process_update_basicgroup (g : basicGroup) : shared → shared :=
  with_app (λ a, assign_id_to_basicgroup (<[bg_id g := g]> (id_to_basicgroup a)) a).
Definition process_update_basicgroup_full_info (id : Z) (i : string) : shared → shared :=
  with_app (λ a, assign_id_to_basicgroup_full_info
                   (<[id := i]> (id_to_basicgroup_full_info a)) a).
Definition process_update_supergroup (g : supergroup) : shared → shared :=
  with_app (λ a, assign_id_to_supergroup (<[sg_id g := g]> (id_to_supergroup a)) a).
Definition process_update_supergroup_full_info (id : Z) (i : string) : shared → shared :=
  with_app (λ a, assign_id_to_supergroup_full_info
                   (<[id := i]> (id_to_supergroup_full_info a)) a).

Definition on_sh (f : shared → shared) (s : session) : session := assign_sh (f (sh s)) s.

Definition process_update (o : Object) (s : session) : outcome session :=
  match o with
  | updateAuthorizationState a =>
      process_auth (on_tg (assign_auth_state (Some a)) s)
  | updateUser u => Ok (on_sh (process_update_user u) s)
  | updateUserFullInfo id i => Ok (on_sh (process_update_user_full_info id i) s)
  | updateNewChat c => Ok (on_sh (process_update_new_chat c) s)
  | updateBasicGroup g => Ok (on_sh (process_update_basicgroup g) s)
  | updateBasicGroupFullInfo id i => Ok (on_sh (process_update_basicgroup_full_info id i) s)
  | updateSupergroup g => Ok (on_sh (process_update_supergroup g) s)
  | updateSupergroupFullInfo id i => Ok (on_sh (process_update_supergroup_full_info id i) s)
  | updateChatAddedToList id l => Ok (on_sh (process_update_chat_added_to_list id l) s)
  | updateChatPosition id p => Ok (on_sh (process_update_chat_position id p) s)
  | updateChatLastMessage id m ps =>
      h ← process_update_chat_last_message id m ps (sh s);
      Ok (assign_sh h s)
  | updateOption | error _ | messages _ | otherObject _ => Ok s
  end.

(** ** Responses *)
Definition run_handler (h : handler) (o : Object) (s : session) : outcome session :=
  match h with
  | auth_handler id =>
      if id =? auth_query_id_ (tg s) then
        match o with error _ => process_auth s | _ => Ok s end
      else Ok s
  | history_handler =>
      match o with
      | messages m => x ← process_get_chat_history m (sh s); Ok (assign_sh x s)
      | _ => Ok s
      end
  end.

Definition is_updateOption (o : Object) : bool :=
  match o with updateOption => true | _ => false end.

Definition process_response (r : Response) (s : session) : outcome session :=
  match object r with
  | None => Ok s
  | Some o =>
      if is_updateOption o then Ok s
      else if request_id r =? 0 then process_update o s
      else
        match handlers_ (tg s) !! request_id r with
        | Some h =>
            s ← run_handler h o s;
            Ok (on_tg (λ t, assign_handlers (delete (request_id r) (handlers_ t)) t) s)
        | None => Ok s
        end
  end.

(** ** The loops over the responses *)

(** [init_auth] with the responses that [receive] returns in turn: the session
    and the responses left when it returns, or the session it waits in when the
    responses are used up. *)
Inductive init_result :=
  | Authorized (s : session) (rest : list Response)
  | Waiting (s : session).

Definition restart (s : session) : session := cout "restarted successfully" (new_TgClient s).

Fixpoint init_auth (rs : list Response) (s : session) : outcome init_result :=
  (* a restart clears [need_restart_], so that it happens once per receive *)
  let s := if need_restart_ (tg s) then restart s else s in
  if negb (is_auth_ (tg s)) then
    match rs with
    | [] => Ok (Waiting s)
    | r :: rs => s ← process_response r s; init_auth rs s
    end
  else Ok (Authorized s rs).

(** [set_response_handlers], with the responses [receive] returns in turn, in a
    run in which the UI thread does not change the state in between (Concurrency
    has the interleavings). *)
Fixpoint set_response_handlers (rs : list Response) (s : session) : outcome session :=
  if terminating (app_state (sh s)) then Ok s
  else
    match rs with
    | [] => Ok s
    | r :: rs => s ← process_response r s; set_response_handlers rs s
    end.

(** ** Requests of the UI thread *)
Definition init_data (chat_list_size : Z) (s : session) : session :=
  send_query (loadChats chatListMain chat_list_size) None s.

(** [earliest_msg] and [offset] are computed and not used in the request. *)
Definition get_chat_history (chat_id : Z) (s : session) : session :=
  let '(earliest_msg, offset) :=
    match last (history (app_state (sh s)) chat_id) with
    | Some last_msg => (m_id last_msg, 1)
    | None => (0, 0)
    end in
  send_query (getChatHistory chat_id 0 0 100 false) (Some history_handler) s.
End client.
