(* ===== verification/TgClientFacts.v ===== *)
(** * Properties of the Telegram client

    Request numbering, handlers, the authorization dialogue and the start-up
    loop; the chat list and the messages stay well formed under every
    response. *)
From S2P Require Import Prelude EventQueue StdSet TdApi AppState ChatList Messages.
From S2P Require Import QrSegment QrEncode QrCode StdString TgClient.

(** ** Requests of the current client *)

(** The requests sent since the last client was created, oldest first. *)
Definition request_step (acc : list (Z * Function)) (i : io) : list (Z * Function) :=
  match i with
  | IoCreateClient _ => []
  | IoSend _ q f => acc ++ [(q, f)]
  | IoExecute _ | IoCout _ => acc
  end.
Definition requests (l : list io) : list (Z * Function) := foldl request_step [] l.

Lemma requests_snoc l i : requests (l ++ [i]) = request_step (requests l) i.
Proof. unfold requests. by rewrite foldl_app. Qed.

(** ** Invariant of the client *)

(** The states in which the program answers TDLib and waits for an error. *)
Definition asks (a : AuthorizationState) : bool :=
  match a with
  | authorizationStateWaitTdlibParameters | authorizationStateWaitPhoneNumber
  | authorizationStateWaitCode | authorizationStateWaitEmailAddress
  | authorizationStateWaitEmailCode | authorizationStateWaitRegistration => true
  | _ => false
  end.

(** Requests are numbered 1, 2, ..., every handler belongs to one of them, and
    every authorization handler was made by the current or an earlier run of
    [process_auth]. *)
Record client_inv (s : session) : Prop := {
  inv_requests : (requests (out s)).*1 = seqZ 1 (current_query_id_ (tg s));
  inv_current : 0 ≤ current_query_id_ (tg s);
  inv_auth : 0 ≤ auth_query_id_ (tg s);
  inv_handlers k h : handlers_ (tg s) !! k = Some h → 1 ≤ k ≤ current_query_id_ (tg s);
  inv_auth_handlers k i :
    handlers_ (tg s) !! k = Some (auth_handler i) → 0 ≤ i ≤ auth_query_id_ (tg s);
}.

(** A handler of the latest [process_auth] exists only in a state that asks. *)
Definition live_inv (s : session) : Prop :=
  ∀ k, handlers_ (tg s) !! k = Some (auth_handler (auth_query_id_ (tg s))) →
    ∃ a, auth_state_ (tg s) = Some a ∧ asks a = true.

(** Room for [n] more requests before the 32-bit numbers are used up. *)
Definition room (n : Z) (s : session) : Prop :=
  current_query_id_ (tg s) + n ≤ INT_MAX ∧ auth_query_id_ (tg s) + n ≤ INT_MAX.

Lemma next_query_id_small t :
  0 ≤ current_query_id_ t → current_query_id_ t + 1 ≤ INT_MAX →
  next_query_id t = (current_query_id_ t + 1, assign_query_id (current_query_id_ t + 1) t).
Proof.
  unfold INT_MAX. intros. unfold next_query_id.
  by rewrite u64_small, i32_small by (unfold in_int, INT_MIN, INT_MAX, two64; lia).
Qed.

(** Room for one more request. *)
Definition can_send (s : session) : Prop := current_query_id_ (tg s) + 1 ≤ INT_MAX.

(** The request gets the next number, and its handler is stored under it. *)
Lemma send_query_eq f h s :
  client_inv s → can_send s →
  let id := current_query_id_ (tg s) + 1 in
  send_query f h s =
    emit (IoSend (client_id_ (tg s)) id f)
      (on_tg (λ t, assign_handlers
                     (match h with Some h => <[id := h]> (handlers_ t) | None => handlers_ t end)
                     (assign_query_id id t)) s).
Proof.
  intros [Hr Hc Ha Hh Hah] Hroom id. unfold can_send in Hroom. unfold send_query.
  rewrite next_query_id_small by done. fold id.
  assert (Hu : u64 id = id) by (apply u64_small; unfold id, two64, INT_MAX in *; lia).
  rewrite Hu. destruct h as [h|]; [|by destruct s as [[] ? ? ? ? ? ?]].
  cbn [assign_query_id handlers_].
  destruct (handlers_ (tg s) !! id) as [h'|] eqn:E; [apply Hh in E; unfold id in E; lia|].
  done.
Qed.

Lemma send_query_inv f h s :
  client_inv s → can_send s →
  (∀ i, h = Some (auth_handler i) → 0 ≤ i ≤ auth_query_id_ (tg s)) →
  client_inv (send_query f h s).
Proof.
  intros Hinv Hroom Hi. rewrite send_query_eq by done.
  destruct Hinv as [Hr Hc Ha Hh Hah]. split; simpl.
  - rewrite requests_snoc. simpl. rewrite fmap_app, Hr. simpl.
    rewrite seqZ_app by lia. f_equal. unfold seqZ. simpl. f_equal. lia.
  - lia.
  - done.
  - intros k h'. destruct h as [h|]; [|intros Hk%Hh; lia].
    rewrite lookup_insert. case_decide; [lia|]. intros Hk%Hh. lia.
  - intros k i. destruct h as [h|]; [|apply Hah].
    rewrite lookup_insert. case_decide; [|apply Hah]. intros [= ->]. by apply Hi.
Qed.

(** The parts of a session the invariants speak of. *)
Definition same_client (s s' : session) : Prop :=
  tg s = tg s' ∧ requests (out s) = requests (out s').

#[global] Instance same_client_equiv : Equivalence same_client.
Proof.
  unfold same_client. split.
  - by intros s.
  - intros s s' [-> ->]. done.
  - intros s1 s2 s3 [-> ->] [-> ->]. done.
Qed.

Lemma same_client_cout str s : same_client (cout str s) s.
Proof. split; [done|]. simpl. by rewrite requests_snoc. Qed.
Lemma same_client_logout b s : same_client (assign_logout_next b s) s.
Proof. done. Qed.
Lemma same_client_read s : same_client (read_word s).2 s.
Proof. done. Qed.
Lemma same_client_sh x s : same_client (assign_sh x s) s.
Proof. done. Qed.

Lemma same_client_inv s s' : same_client s s' → client_inv s' → client_inv s.
Proof. intros [Ht Hr] [? ? ? ? ?]. by split; rewrite ?Hr, ?Ht. Qed.
Lemma same_client_live s s' : same_client s s' → live_inv s' → live_inv s.
Proof. intros [Ht Hr] Hl. unfold live_inv. by rewrite Ht. Qed.
Lemma same_client_can_send s s' : same_client s s' → can_send s' → can_send s.
Proof. intros [Ht Hr] Hl. unfold can_send. by rewrite Ht. Qed.

#[export] Hint Resolve same_client_cout same_client_logout same_client_read
  same_client_sh : cpp.

(** ** One run of the authorization dialogue *)

(** No stored handler belongs to the latest [process_auth]. *)
Definition stale (s : session) : Prop :=
  ∀ k i, handlers_ (tg s) !! k = Some (auth_handler i) → i < auth_query_id_ (tg s).

Record auth_post (s s' : session) : Prop := {
  post_inv : client_inv s';
  post_live : live_inv s';
  post_sh : sh s' = sh s;
  post_clients : n_clients s' = n_clients s;
  post_client_id : client_id_ (tg s') = client_id_ (tg s);
  post_state : auth_state_ (tg s') = auth_state_ (tg s);
  post_auth_id : auth_query_id_ (tg s') = auth_query_id_ (tg s);
  post_restart : need_restart_ (tg s) = true → need_restart_ (tg s') = true;
  post_current : current_query_id_ (tg s) ≤ current_query_id_ (tg s')
                 ≤ current_query_id_ (tg s) + 1;
  post_handlers k : k ≤ current_query_id_ (tg s) →
    handlers_ (tg s') !! k = handlers_ (tg s) !! k;
}.

Lemma stale_live s : stale s → live_inv s.
Proof. intros Hs k Hk%Hs. lia. Qed.

Lemma auth_post_refl s s' :
  same_client s' s → sh s' = sh s → n_clients s' = n_clients s →
  client_inv s → stale s → auth_post s s'.
Proof.
  intros Hsame Hsh Hn Hinv Hst. pose proof Hsame as [Ht Hr].
  split; rewrite ?Ht; try done; try lia.
  - by eapply same_client_inv.
  - eapply same_client_live; [done|]. by apply stale_live.
Qed.

(** Sending one request from a session that differs by output and input only. *)
Lemma send_post f h s1 s :
  same_client s1 s → sh s1 = sh s → n_clients s1 = n_clients s →
  client_inv s → can_send s → stale s →
  h = None ∨ (h = auth_query_handler s1 ∧ ∃ a, auth_state_ (tg s) = Some a ∧ asks a = true) →
  auth_post s (send_query f h s1).
Proof.
  intros Hsame Hsh Hn Hinv Hroom Hst Hh. pose proof Hsame as [Ht Hr].
  assert (Hinv1 : client_inv s1) by by eapply same_client_inv.
  assert (Hroom1 : can_send s1) by by eapply same_client_can_send.
  assert (Hi : ∀ i, h = Some (auth_handler i) → i = auth_query_id_ (tg s)).
  { destruct Hh as [->|[-> _]]; [done|]. unfold auth_query_handler. rewrite Ht. naive_solver. }
  split.
  - apply send_query_inv; [done..|]. intros i ->%Hi. rewrite Ht.
    split; [apply Hinv|done].
  - rewrite send_query_eq by done. intros k. simpl. rewrite Ht.
    destruct Hh as [->|[-> Ha]]; simpl; [by intros Hk%Hst; lia|done].
  - by rewrite send_query_eq.
  - by rewrite send_query_eq.
  - rewrite send_query_eq by done. simpl. by rewrite Ht.
  - rewrite send_query_eq by done. simpl. by rewrite Ht.
  - rewrite send_query_eq by done. simpl. by rewrite Ht.
  - rewrite send_query_eq by done. simpl. by rewrite Ht.
  - rewrite send_query_eq by done. simpl. rewrite Ht. lia.
  - intros k Hk. rewrite send_query_eq by done. simpl. rewrite Ht.
    destruct h; [|done]. apply lookup_insert_ne. lia.
Qed.

Section facts.
Context `{ChatListIds, Env}.

Lemma on_tg_post f s :
  client_inv s → stale s →
  (∀ t, client_id_ (f t) = client_id_ t ∧ auth_state_ (f t) = auth_state_ t ∧
        auth_query_id_ (f t) = auth_query_id_ t ∧
        (need_restart_ t = true → need_restart_ (f t) = true) ∧
        current_query_id_ (f t) = current_query_id_ t ∧ handlers_ (f t) = handlers_ t) →
  auth_post s (on_tg f s).
Proof.
  intros [Hr Hc Ha Hh Hah] Hst Hf. destruct (Hf (tg s)) as (H1 & H2 & H3 & H4 & H5 & H6).
  split; simpl; rewrite ?H1, ?H2, ?H3, ?H5, ?H6; try done; try lia.
  - split; simpl; rewrite ?H3, ?H5, ?H6; done.
  - intros k. simpl. rewrite H3, H6. intros Hk%Hst. lia.
Qed.

(** Output and input leave the client alone. *)
Ltac same_client_tac :=
  split; [reflexivity|simpl; rewrite ?requests_snoc; reflexivity].

Lemma visit_auth_post a s s' :
  client_inv s → can_send s → stale s → auth_state_ (tg s) = Some a →
  visit_auth_state a s = Ok s' → auth_post s s'.
Proof.
  intros Hinv Hroom Hst Ha Hv.
  assert (Hask : asks a = true → ∃ a, auth_state_ (tg s) = Some a ∧ asks a = true) by eauto.
  destruct a; simpl in Hv; outcome_inv; subst;
    try (apply send_post; [same_client_tac|done|done|done|done|done|right; split; [done|auto]]);
    try (apply auth_post_refl; [done..]).
  - unfold wait_tdlib_parameters in Hv. outcome_inv. subst.
    apply send_post; [done..|right; auto].
  - unfold wait_phone_number. simpl. destruct (negb _);
      (apply send_post; [same_client_tac|done|done|done|done|done|right; split; [done|auto]]).
  - destruct (logout_next s); simplify_eq.
    + by apply send_post; [..|left].
    + by apply on_tg_post.
  - unfold wait_other_device_confirmation in Hv. outcome_inv. subst.
    apply auth_post_refl; [same_client_tac|done..].
  - by apply on_tg_post.
  - change (auth_post s (on_tg (λ t, assign_need_restart true (assign_is_auth false t)) s)).
    by apply on_tg_post.
Qed.

Definition bump_auth (s : session) : session :=
  on_tg (λ t, assign_auth_query_id (auth_query_id_ t + 1) t) s.

Lemma bump_auth_inv s : client_inv s → client_inv (bump_auth s) ∧ stale (bump_auth s).
Proof.
  intros [Hr Hc Ha Hh Hah]. split; [split; simpl|].
  - done.
  - done.
  - lia.
  - done.
  - intros k i Hk%Hah. lia.
  - intros k i Hk. simpl in *. apply Hah in Hk. lia.
Qed.

Lemma process_auth_eq s :
  client_inv s → room 1 s →
  process_auth s = a ← deref (auth_state_ (tg s)); visit_auth_state a (bump_auth s).
Proof.
  intros Hinv [_ Hroom]. pose proof (inv_auth _ Hinv). unfold process_auth, bump_auth, on_tg.
  rewrite u64_small by (unfold INT_MAX, two64 in *; lia). done.
Qed.

(** A run of [process_auth]: the handlers made before it become stale, at most
    one request is sent, and nothing shared with the UI changes. *)
Lemma process_auth_post s s' :
  client_inv s → room 1 s → process_auth s = Ok s' → auth_post (bump_auth s) s'.
Proof.
  intros Hinv Hroom Hrun. rewrite process_auth_eq in Hrun by done.
  outcome_inv. destruct (bump_auth_inv s Hinv) as [Hb Hst].
  eapply visit_auth_post; [done| |done|done|done]. by apply Hroom.
Qed.

(** ** One response *)
Record response_post (s s' : session) : Prop := {
  rpost_inv : client_inv s';
  rpost_live : live_inv s';
  rpost_current : current_query_id_ (tg s) ≤ current_query_id_ (tg s')
                  ≤ current_query_id_ (tg s) + 1;
  rpost_auth : auth_query_id_ (tg s) ≤ auth_query_id_ (tg s') ≤ auth_query_id_ (tg s) + 1;
  rpost_client_id : client_id_ (tg s') = client_id_ (tg s);
  rpost_handlers k : k ≤ current_query_id_ (tg s) →
    handlers_ (tg s') !! k = handlers_ (tg s) !! k ∨ handlers_ (tg s') !! k = None;
}.

Lemma response_post_refl s : client_inv s → live_inv s → response_post s s.
Proof. intros. split; try done; try lia. by left. Qed.

Lemma response_post_sh x s : client_inv s → live_inv s → response_post s (assign_sh x s).
Proof.
  intros Hi Hl. split; try done; simpl; try lia.
  - by eapply same_client_inv, Hi.
  - by left.
Qed.

Lemma process_auth_response s s' :
  client_inv s → room 1 s → process_auth s = Ok s' → response_post s s'.
Proof.
  intros Hinv Hroom Hrun. destruct (process_auth_post s s' Hinv Hroom Hrun).
  simpl in *. split; try done; try lia. intros k Hk. left. auto.
Qed.

Lemma state_update_inv a s : client_inv s → client_inv (on_tg (assign_auth_state a) s).
Proof. intros [? ? ? ? ?]. by split. Qed.

Lemma process_update_post o s s' :
  client_inv s → live_inv s → room 1 s → process_update o s = Ok s' → response_post s s'.
Proof.
  intros Hinv Hlive Hroom Hrun.
  destruct o; simpl in Hrun; outcome_inv; subst;
    try (by apply response_post_sh); try (by apply response_post_refl).
  apply process_auth_response in Hrun; [|by apply state_update_inv|done].
  destruct Hrun. by split.
Qed.

Lemma run_handler_post h o s s' :
  client_inv s → live_inv s → room 1 s → run_handler h o s = Ok s' → response_post s s'.
Proof.
  intros Hinv Hlive Hroom Hrun. destruct h as [id|]; simpl in Hrun.
  - destruct (id =? _); [|simplify_eq; by apply response_post_refl].
    destruct o; simplify_eq; try by apply response_post_refl.
    by apply process_auth_response.
  - destruct o; outcome_inv; subst; try (by apply response_post_refl).
    by apply response_post_sh.
Qed.

Lemma delete_handler_post k s s' :
  response_post s s' →
  response_post s (on_tg (λ t, assign_handlers (delete k (handlers_ t)) t) s').
Proof.
  intros [[Hr Hc Ha Hh Hah] Hl Hcur Hau Hid Hk]. split; simpl; try done.
  - split; simpl; try done.
    + intros k' h [_ Hk']%lookup_delete_Some. by eapply Hh.
    + intros k' i [_ Hk']%lookup_delete_Some. by eapply Hah.
  - intros k' Hk'. simpl in Hk'. apply lookup_delete_Some in Hk' as [_ Hk'].
    by eapply Hl.
  - intros k' Hle. rewrite lookup_delete. case_decide; [by right|auto].
Qed.

Lemma process_response_post r s s' :
  client_inv s → live_inv s → room 1 s → process_response r s = Ok s' → response_post s s'.
Proof.
  intros Hinv Hlive Hroom Hrun. unfold process_response in Hrun.
  destruct (object r) as [o|]; [|simplify_eq; by apply response_post_refl].
  destruct (is_updateOption o); [simplify_eq; by apply response_post_refl|].
  destruct (request_id r =? 0); [by apply process_update_post in Hrun|].
  destruct (handlers_ (tg s) !! request_id r) as [h|] eqn:Hh;
    [|simplify_eq; by apply response_post_refl].
  outcome_inv. subst. apply delete_handler_post. by eapply run_handler_post.
Qed.

(** ** A new client *)
Lemma new_client_inv s : client_inv (new_TgClient s) ∧ live_inv (new_TgClient s) ∧
  current_query_id_ (tg (new_TgClient s)) = 1 ∧ auth_query_id_ (tg (new_TgClient s)) = 0 ∧
  is_auth_ (tg (new_TgClient s)) = false ∧ need_restart_ (tg (new_TgClient s)) = false.
Proof.
  unfold new_TgClient. destruct (fresh_memory _) as [pane0 terminating0].
  split_and!; try done.
  - split; simpl; [by rewrite !requests_snoc|done|done| |];
      intros k h; by rewrite lookup_empty.
Qed.

Lemma restart_inv s : client_inv (restart s) ∧ live_inv (restart s) ∧
  current_query_id_ (tg (restart s)) = 1 ∧ auth_query_id_ (tg (restart s)) = 0 ∧
  is_auth_ (tg (restart s)) = false ∧ need_restart_ (tg (restart s)) = false.
Proof.
  destruct (new_client_inv s) as (Hi & Hl & ? & ? & ? & ?). unfold restart.
  split_and!; try done.
  eapply same_client_inv, Hi. apply same_client_cout.
Qed.

(** ** Who may set [is_auth_] *)
Lemma visit_is_auth a s s' :
  visit_auth_state a s = Ok s' → is_auth_ (tg s) = false → is_auth_ (tg s') = true →
  a = authorizationStateReady ∧ need_restart_ (tg s') = need_restart_ (tg s) ∧
  logout_next s' = false ∧ auth_state_ (tg s') = auth_state_ (tg s).
Proof.
  intros Hv Hno Hyes. destruct a; simpl in Hv; outcome_inv; subst;
    unfold wait_tdlib_parameters, wait_phone_number, wait_other_device_confirmation in *;
    simpl in *; outcome_inv; subst; simpl in *; try congruence;
    try (unfold send_query in Hyes; simpl in Hyes; repeat case_match; simpl in *; congruence).
  destruct (logout_next s) eqn:E; simplify_eq; simpl in *; [|done]. congruence.
Qed.

Definition is_ready (r : Response) : Prop :=
  object r = Some (updateAuthorizationState authorizationStateReady) ∧ request_id r = 0.

Lemma process_response_authorizes r s s' :
  client_inv s → live_inv s → room 1 s →
  process_response r s = Ok s' → is_auth_ (tg s) = false → is_auth_ (tg s') = true →
  is_ready r ∧ need_restart_ (tg s') = need_restart_ (tg s) ∧ logout_next s' = false ∧
  auth_state_ (tg s') = Some authorizationStateReady.
Proof.
  intros Hinv Hlive Hroom Hrun Hno Hyes. unfold process_response in Hrun. unfold is_ready.
  destruct (object r) as [o|] eqn:Ho; [|congruence].
  destruct (is_updateOption o); [congruence|].
  destruct (request_id r =? 0) eqn:Eid; zbool.
  - destruct o; simpl in Hrun; outcome_inv; subst; simpl in *; try congruence.
    rewrite process_auth_eq in Hrun by (by apply state_update_inv || done).
    cbn [auth_state_ on_tg tg assign_tg assign_auth_state] in Hrun.
    change (deref (Some ?x)) with (Ok x) in Hrun. rewrite bind_Ok_l in Hrun.
    destruct (visit_is_auth _ _ _ Hrun) as (-> & ? & ? & Hs); [done..|].
    by rewrite Hs.
  - destruct (handlers_ (tg s) !! request_id r) as [[id|]|] eqn:Hh; [| |congruence].
    + outcome_inv. subst. simpl in *.
      destruct (id =? auth_query_id_ (tg s)) eqn:Ei; [|congruence]. zbool. subst id.
      destruct (Hlive _ Hh) as (st & Hst & Hask).
      destruct o; try congruence. rewrite process_auth_eq, Hst in Hrun0 by done.
      destruct (visit_is_auth _ _ _ Hrun0) as (-> & _); done.
    + simpl in Hrun. outcome_inv. subst. destruct o; outcome_inv; subst; simpl in *; congruence.
Qed.

(** ** The start-up loop *)
Lemma init_auth_cons r rs s :
  need_restart_ (tg s) = false → is_auth_ (tg s) = false →
  init_auth (r :: rs) s = s' ← process_response r s; init_auth rs s'.
Proof. intros Hn Ha. simpl. by rewrite Hn, Ha. Qed.

Lemma init_auth_restart rs s :
  need_restart_ (tg s) = true → init_auth rs s = init_auth rs (restart s).
Proof.
  intros Hn. pose proof (restart_inv s) as (_ & _ & _ & _ & _ & Hr).
  destruct rs; cbn [init_auth]; by rewrite Hn, Hr.
Qed.

Lemma init_auth_app pre rs s s1 :
  init_auth pre s = Ok (Waiting s1) → init_auth (pre ++ rs) s = init_auth rs s1.
Proof.
  revert s. induction pre as [|r pre IH]; intros s Hrun.
  - simpl in Hrun. cbn [app].
    destruct (need_restart_ (tg s)) eqn:Hn.
    + rewrite init_auth_restart by done. destruct (negb _); by simplify_eq.
    + destruct (negb _); by simplify_eq.
  - destruct (need_restart_ (tg s)) eqn:Hn.
    + rewrite init_auth_restart by done. rewrite init_auth_restart in Hrun by done.
      pose proof (restart_inv s) as (_ & _ & _ & _ & Ha & Hr). cbn [app].
      rewrite init_auth_cons in * by done. outcome_inv. rewrite Hrun0, bind_Ok_l. by apply IH.
    + destruct (is_auth_ (tg s)) eqn:Ha; [simpl in Hrun; rewrite Hn, Ha in Hrun; done|].
      cbn [app]. rewrite init_auth_cons in * by done. outcome_inv.
      rewrite Hrun0, bind_Ok_l. by apply IH.
Qed.

Lemma run_responses_inv rs s s' :
  client_inv s → live_inv s → room (Z.of_nat (length rs)) s →
  ofold (λ s r, process_response r s) s rs = Ok s' →
  client_inv s' ∧ live_inv s' ∧
  current_query_id_ (tg s) ≤ current_query_id_ (tg s')
    ≤ current_query_id_ (tg s) + Z.of_nat (length rs).
Proof.
  revert s. induction rs as [|r rs IH]; intros s Hinv Hlive Hroom Hrun.
  { simpl in Hrun. simplify_eq. simpl. split_and!; [done|done|lia|lia]. }
  cbn [ofold] in Hrun. outcome_inv. cbn [length] in *.
  assert (Hroom1 : room 1 s) by (destruct Hroom; split; lia).
  destruct (process_response_post _ _ _ Hinv Hlive Hroom1 Hrun0) as [Hi Hl Hc Ha _ _].
  destruct (IH a) as (? & ? & ?); [done|done| |done|].
  { destruct Hroom. split; lia. }
  split_and!; [done|done|lia|lia].
Qed.

(** ** Properties *)

(** Whatever TDLib answers, the requests of a client are numbered 1, 2, 3, ...
    without gap or repetition, at most one per response after the first, and
    every stored handler belongs to one of them. *)
Theorem requests_numbered_consecutively rs s s' :
  Z.of_nat (length rs) < INT_MAX →
  ofold (λ s r, process_response r s) (new_TgClient s) rs = Ok s' →
  ∃ n, (requests (out s')).*1 = seqZ 1 n ∧ 1 ≤ n ≤ 1 + Z.of_nat (length rs) ∧
    ∀ k, is_Some (handlers_ (tg s') !! k) → 1 ≤ k ≤ n.
Proof.
  intros Hlen Hrun. destruct (new_client_inv s) as (Hi & Hl & Hc & Ha & _ & _).
  assert (Hroom : room (Z.of_nat (length rs)) (new_TgClient s)).
  { unfold room. rewrite Hc, Ha. lia. }
  destruct (run_responses_inv rs _ _ Hi Hl Hroom Hrun) as (Hi' & _ & Hge & Hle).
  exists (current_query_id_ (tg s')). split; [apply Hi'|].
  split; [lia|]. intros k [h Hk]. by eapply inv_handlers.
Qed.

(** A handler runs at most once: whatever is received later for the same
    request is ignored. *)
Theorem handler_runs_at_most_once r s s' :
  client_inv s → live_inv s → room 1 s →
  request_id r ≠ 0 → (∃ o, object r = Some o ∧ is_updateOption o = false) →
  process_response r s = Ok s' →
  ∀ r', request_id r' = request_id r → process_response r' s' = Ok s'.
Proof.
  intros Hinv Hlive Hroom Hid (o & Ho & Hopt) Hrun r' Hr'.
  assert (Hnone : handlers_ (tg s') !! request_id r = None).
  { unfold process_response in Hrun. rewrite Ho, Hopt in Hrun.
    rewrite (proj2 (Z.eqb_neq _ _)) in Hrun by done.
    destruct (handlers_ (tg s) !! request_id r) as [h|] eqn:Hh; outcome_inv; subst; [|done].
    simpl. apply lookup_delete_eq. }
  unfold process_response. rewrite Hr'. destruct (object r') as [o'|]; [|done].
  destruct (is_updateOption o'); [done|].
  rewrite (proj2 (Z.eqb_neq _ _)) by done. by rewrite Hnone.
Qed.

(** Each run of [process_auth] outdates the authorization handlers stored
    before it: when one of their answers arrives later, error or not, nothing
    happens. *)
Theorem process_auth_outdates_handlers s s' k id o :
  client_inv s → room 1 s → handlers_ (tg s) !! k = Some (auth_handler id) →
  process_auth s = Ok s' → run_handler (auth_handler id) o s' = Ok s'.
Proof.
  intros Hinv Hroom Hk Hrun. destruct (process_auth_post s s' Hinv Hroom Hrun).
  apply inv_auth_handlers in Hk; [|done]. simpl in *.
  rewrite (proj2 (Z.eqb_neq _ _)) by lia. done.
Qed.

(** C9. The start-up loop returns only after TDLib reported the ready state, and
    right after it: the responses it leaves are those behind that report; no
    logout is pending then. *)
Theorem init_auth_returns_only_when_ready rs s s' rest :
  client_inv s → live_inv s → is_auth_ (tg s) = false →
  room (Z.of_nat (length rs)) s → Z.of_nat (length rs) < INT_MAX →
  init_auth rs s = Ok (Authorized s' rest) →
  (∃ pre r, rs = pre ++ r :: rest ∧ is_ready r) ∧
  is_auth_ (tg s') = true ∧ auth_state_ (tg s') = Some authorizationStateReady ∧
  logout_next s' = false ∧ client_inv s'.
Proof.
  revert s. induction rs as [|r rs IH]; intros s Hinv Hlive Hauth Hroom Hlen Hrun.
  { destruct (need_restart_ (tg s)) eqn:Hn.
    - rewrite init_auth_restart in Hrun by done.
      destruct (restart_inv s) as (_ & _ & _ & _ & Ha & Hr). cbn [init_auth] in Hrun.
      by rewrite Hr, Ha in Hrun.
    - simpl in Hrun. by rewrite Hn, Hauth in Hrun. }
  assert (∃ s1, client_inv s1 ∧ live_inv s1 ∧ is_auth_ (tg s1) = false ∧
            room (Z.of_nat (length rs) + 1) s1 ∧ need_restart_ (tg s1) = false ∧
            init_auth (r :: rs) s1 = Ok (Authorized s' rest))
    as (s1 & Hi1 & Hl1 & Ha1 & [Hr1 Hr1'] & Hn1 & Hrun1).
  { cbn [length] in Hroom, Hlen. destruct (need_restart_ (tg s)) eqn:Hn.
    - exists (restart s). rewrite <-init_auth_restart by done.
      destruct (restart_inv s) as (? & ? & Hc & Ha & ? & ?). split_and!; try done.
      unfold room. rewrite Hc, Ha. lia.
    - exists s. destruct Hroom. unfold room. split_and!; (done || lia). }
  rewrite init_auth_cons in Hrun1 by done. apply bind_Ok in Hrun1 as (s2 & Hstep & Hrun2).
  assert (Hroom1 : room 1 s1) by (split; lia).
  pose proof (process_response_post _ _ _ Hi1 Hl1 Hroom1 Hstep) as [Hi2 Hl2 Hc2 Ha2 _ _].
  destruct (is_auth_ (tg s2)) eqn:Hauth2.
  - destruct (process_response_authorizes _ _ _ Hi1 Hl1 Hroom1 Hstep Ha1 Hauth2)
      as (Hready & Hn2 & Hlog & Hst). rewrite Hn1 in Hn2.
    assert (s2 = s' ∧ rs = rest) as [-> ->].
    { destruct rs; simpl in Hrun2; rewrite Hn2, Hauth2 in Hrun2; simpl in Hrun2;
        by simplify_eq. }
    split_and!; try done. by exists [], r.
  - destruct (IH s2) as ((pre & r' & -> & Hr') & ?);
      [done|done|done|split; lia|cbn [length] in Hlen; lia|done|].
    split; [|done]. exists (r :: pre), r'. done.
Qed.

Lemma process_ready r s :
  client_inv s → room 1 s → is_ready r → logout_next s = false →
  ∃ s', process_response r s = Ok s' ∧ is_auth_ (tg s') = true ∧
    need_restart_ (tg s') = need_restart_ (tg s).
Proof.
  intros Hinv Hroom [Ho Hid] Hlog. unfold process_response. rewrite Ho, Hid. simpl.
  rewrite process_auth_eq by (by apply state_update_inv || done).
  eexists. split; [simpl; by rewrite Hlog|]. done.
Qed.

Lemma waiting_not_restarting rs s s1 :
  init_auth rs s = Ok (Waiting s1) →
  need_restart_ (tg s1) = false ∧ is_auth_ (tg s1) = false.
Proof.
  revert s. induction rs as [|r rs IH]; intros s Hrun.
  - destruct (need_restart_ (tg s)) eqn:Hn.
    + rewrite init_auth_restart in Hrun by done.
      destruct (restart_inv s) as (_ & _ & _ & _ & Ha & Hr). cbn [init_auth] in Hrun.
      rewrite Hr, Ha in Hrun. simpl in Hrun. by simplify_eq.
    + cbn [init_auth] in Hrun. rewrite Hn in Hrun. destruct (is_auth_ (tg s)) eqn:Ha; [done|].
      simpl in Hrun. by simplify_eq.
  - cbn [init_auth] in Hrun. destruct (negb _); [|done]. outcome_inv. by eapply IH.
Qed.

(** C26. The start-up loop ends: when TDLib, after any responses during which the
    loop waited, reports the ready state and no logout was asked for, the loop
    returns at once with the client authorized. *)
Theorem init_auth_returns_when_ready pre r rest s s1 :
  init_auth pre s = Ok (Waiting s1) → client_inv s1 → room 1 s1 →
  is_ready r → logout_next s1 = false →
  ∃ s', init_auth (pre ++ r :: rest) s = Ok (Authorized s' rest) ∧ is_auth_ (tg s') = true.
Proof.
  intros Hrun Hinv Hroom Hr Hlog. rewrite (init_auth_app _ _ _ _ Hrun).
  destruct (waiting_not_restarting _ _ _ Hrun) as [Hn Ha].
  rewrite init_auth_cons by done.
  destruct (process_ready r s1 Hinv Hroom Hr Hlog) as (s' & -> & Ha' & Hn').
  rewrite bind_Ok_l. exists s'. split; [|done].
  destruct rest; simpl; by rewrite Hn', Hn, Ha'.
Qed.

(** ** The state shared with the UI *)
Definition shared_inv (h : shared) : Prop :=
  chat_list_inv (app_state h) ∧ chronological (app_state h) ∧ queue_wf (event_queue h).

(** A response that respects TDLib's order of announcements. *)
Definition response_ok (h : shared) (r : Response) : Prop :=
  match object r with Some o => chat_update_ok (app_state h) o | None => True end.

Lemma new_client_shared s :
  queue_wf (event_queue (sh s)) → shared_inv (sh (new_TgClient s)).
Proof.
  intros Hq. unfold new_TgClient. destruct (fresh_memory _) as [pane0 terminating0].
  split_and!; [apply chat_list_inv_initial| |done].
  intros c. unfold history, get_or. simpl. rewrite lookup_empty. constructor.
Qed.

Lemma positions_messages chat_id ps a :
  chat_messages (foldl (λ a p, _update_position chat_id p a) a ps) = chat_messages a.
Proof.
  revert a. induction ps as [|p ps IH]; intros a; simpl; [done|]. rewrite IH.
  unfold _update_position. by repeat case_match.
Qed.
Lemma lists_messages chat_id ls a :
  chat_messages (foldl (λ a l, add_to_list chat_id l a) a ls) = chat_messages a.
Proof. revert a. induction ls as [|l ls IH]; intros a; simpl; [done|]. by rewrite IH. Qed.

Lemma chronological_eq a a' :
  chat_messages a' = chat_messages a → chronological a → chronological a'.
Proof. intros He Hc c. unfold history. rewrite He. apply Hc. Qed.

Lemma history_shared m h h' :
  shared_inv h → process_get_chat_history m h = Ok h' → shared_inv h'.
Proof.
  intros (Hl & Hc & Hq) Hrun. pose proof (chronological_process _ _ _ Hc Hrun) as Hc'.
  split_and!; [|done|].
  - destruct m as [total l].
    destruct (proj1 (process_history_Ok_iff {| total_count_ := total; messages_ := l |} h))
      as [Ht|[Hne Hn]]; [eauto| |]; cbn [total_count_ messages_] in *.
    { subst. unfold process_get_chat_history in Hrun. simpl in Hrun. by simplify_eq. }
    apply messages_all_some in Hn as [[|m ms] ->]; [done|].
    destruct (decide (total = 0)) as [->|Ht].
    { unfold process_get_chat_history in Hrun. simpl in Hrun. by simplify_eq. }
    destruct (process_history_Ok total m ms h Ht) as (h1 & Hrun1 & _ & Hr & _).
    rewrite Hrun in Hrun1. apply (inj Ok) in Hrun1 as <-.
    eapply chat_list_inv_eq, Hl.
    + exact (f_equal id_to_chat Hr).
    + exact (f_equal position_sets Hr).
    + exact (f_equal id_to_position Hr).
  - destruct m as [total l].
    destruct (decide (total = 0)) as [->|Ht].
    { unfold process_get_chat_history in Hrun. simpl in Hrun. by simplify_eq. }
    unfold process_get_chat_history in Hrun. cbn [total_count_] in Hrun.
    rewrite (proj2 (Z.eqb_neq _ _)) in Hrun by done. outcome_inv. subst. simpl.
    by apply push_wf.
Qed.

(** An update that does not concern the authorization is handled without
    undefined behaviour and keeps the shared state well formed. *)
Lemma process_update_shared o s :
  shared_inv (sh s) → chat_update_ok (app_state (sh s)) o →
  (∀ a, o ≠ updateAuthorizationState a) →
  ∃ s', process_update o s = Ok s' ∧ shared_inv (sh s').
Proof.
  intros (Hl & Hc & Hq) Hok Hna. destruct o; simpl in Hna |- *;
    try (by eexists; split; [done|split_and!]); try (by destruct (Hna authorization_state_)).
  - eexists. split; [done|]. split_and!; [by apply new_chat_inv| |by apply push_wf].
    eapply chronological_eq, Hc. simpl. by rewrite positions_messages, lists_messages.
  - eexists. split; [done|]. split_and!; [by apply added_to_list_inv| |by apply push_wf].
    by eapply chronological_eq, Hc.
  - eexists. split; [done|]. split_and!; [by apply update_position_inv| |by apply push_wf].
    eapply chronological_eq, Hc. apply (positions_messages chat_id_ [position_]).
  - destruct (last_message_inv chat_id_ last_message positions (sh s) Hl Hok)
      as (h & Hrun & Hinv).
    rewrite Hrun, bind_Ok_l. eexists. split; [done|].
    unfold process_update_chat_last_message, assign_last_message in Hrun.
    outcome_inv. subst. simpl in *. split_and!; [done| |by apply push_wf].
    case_bool_decide; (eapply chronological_eq, Hc); [done|]. simpl.
    by rewrite positions_messages.
Qed.

Lemma send_query_sh f h s : sh (send_query f h s) = sh s.
Proof. unfold send_query. simpl. by repeat case_match. Qed.

Lemma visit_auth_sh a s s' : visit_auth_state a s = Ok s' → sh s' = sh s.
Proof.
  intros Hv. destruct a; simpl in Hv; outcome_inv; subst;
    unfold wait_tdlib_parameters, wait_phone_number, wait_other_device_confirmation in *;
    simpl in *; outcome_inv; subst; repeat case_match; simplify_eq;
    rewrite ?send_query_sh; done.
Qed.

Lemma process_auth_sh s s' : process_auth s = Ok s' → sh s' = sh s.
Proof. unfold process_auth. intros Hrun. outcome_inv. by apply visit_auth_sh in Hrun. Qed.

(** A sequence of responses TDLib may send, handled one after the other. *)
Inductive handles : session → list Response → session → Prop :=
  | handles_nil s : handles s [] s
  | handles_cons s r s1 rs s2 :
      response_ok (sh s) r → process_response r s = Ok s1 → handles s1 rs s2 →
      handles s (r :: rs) s2.

Lemma process_response_shared r s s' :
  shared_inv (sh s) → response_ok (sh s) r → process_response r s = Ok s' →
  shared_inv (sh s').
Proof.
  intros Hinv Hok Hrun. unfold process_response, response_ok in *.
  destruct (object r) as [o|]; [|by simplify_eq].
  destruct (is_updateOption o); [by simplify_eq|].
  destruct (request_id r =? 0).
  - assert (Ho : (∃ a, o = updateAuthorizationState a) ∨
                 ∀ a, o ≠ updateAuthorizationState a) by (destruct o; naive_solver).
    destruct Ho as [[a ->]|Ho].
    + simpl in Hrun. apply process_auth_sh in Hrun. by rewrite Hrun.
    + destruct (process_update_shared o s Hinv Hok Ho) as (s1 & Hrun1 & Hinv1).
      by rewrite Hrun in Hrun1; simplify_eq.
  - destruct (handlers_ (tg s) !! request_id r) as [h|]; [|by simplify_eq].
    outcome_inv. subst. simpl. destruct h as [id|]; simpl in Hrun0.
    + destruct (id =? _); [|by simplify_eq].
      destruct o; simplify_eq; try done. by rewrite (process_auth_sh _ _ Hrun0).
    + destruct o; outcome_inv; subst; try done. simpl. by eapply history_shared.
Qed.

Lemma handles_shared s rs s' :
  shared_inv (sh s) → handles s rs s' → shared_inv (sh s').
Proof.
  intros Hinv Hrun. revert Hinv.
  induction Hrun as [|s0 r s1 rs s2 Hok Hstep _ IH]; [done|]. intros Hinv.
  apply IH. by eapply process_response_shared.
Qed.

(** C1. Whatever TDLib sends to a new client with a consistent event queue, as long as it announces a chat before it
    mentions it (adds it to a list or sends its last message), and adds a chat to a list,
    or announces it as a member of one, only while it has no nonzero order in that list
    ([addable]; otherwise a stale entry stays, see [added_again_leaves_stale_entry]), and
    as long as no response makes the program fail: every chat list is displayed in strictly descending order
    of (order, id), each chat once and exactly when it has a position; every
    displayed chat is known; every history is strictly newest first. *)
Theorem responses_keep_shared_state s rs s' :
  queue_wf (event_queue (sh s)) → handles (new_TgClient s) rs s' →
  let a := app_state (sh s') in
  (∀ l, set_sorted pair_greater (list_entries a l) ∧ NoDup (list_entries a l).*2 ∧
        (∀ o id, (o, id) ∈ list_entries a l ↔ list_orders a l !! id = Some o) ∧
        ∀ o id, (o, id) ∈ list_entries a l → is_Some (id_to_chat a !! id)) ∧
  (∀ c, set_sorted chrono (history a c)) ∧
  queue_wf (event_queue (sh s')).
Proof.
  intros Hq Hrun.
  pose proof (handles_shared _ _ _ (new_client_shared s Hq) Hrun) as Hinv.
  destruct Hinv as (Hl & Hc & Hq'). split_and!; [|done|done].
  intros l. destruct (Hl) as [Hcons _]. destruct (Hcons l) as [Hs He].
  split_and!; [done|by apply list_entries_ids_nodup|done|]. intros o id. by apply listed_known.
Qed.

(** The two-step verification password is never asked for: in that state the
    program sends nothing, reads nothing and keeps waiting. *)
Theorem password_state_is_ignored s :
  client_inv s → room 1 s → is_auth_ (tg s) = false → need_restart_ (tg s) = false →
  ∃ s', init_auth [{| request_id := 0; object :=
          Some (updateAuthorizationState authorizationStateWaitPassword) |}] s = Ok (Waiting s') ∧
    out s' = out s ∧ cin s' = cin s ∧ stale s'.
Proof.
  intros Hinv Hroom Ha Hn. rewrite init_auth_cons by done. unfold process_response.
  cbn [object request_id is_updateOption Z.eqb process_update].
  rewrite process_auth_eq by (by apply state_update_inv || done).
  simpl. rewrite ?Hn. simpl. rewrite ?Ha. simpl. eexists. split; [done|].
  split_and!; [done|done|].
  apply (bump_auth_inv (on_tg (assign_auth_state (Some authorizationStateWaitPassword)) s)).
  by apply state_update_inv.
Qed.

Definition auth_update (a : AuthorizationState) : Response :=
  {| request_id := 0; object := Some (updateAuthorizationState a) |}.

(** The session [process_auth] shows its visitor when [a] arrives. *)
Definition entering (a : AuthorizationState) (s : session) : session :=
  on_tg (λ t, assign_auth_query_id (u64 (auth_query_id_ t + 1)) t)
    (on_tg (assign_auth_state (Some a)) s).

Lemma init_auth_update a rs s :
  need_restart_ (tg s) = false → is_auth_ (tg s) = false →
  init_auth (auth_update a :: rs) s =
    s' ← visit_auth_state a (entering a s); init_auth rs s'.
Proof. intros Hn Ha. by rewrite init_auth_cons. Qed.

(** With [--logout], the ready state does not end the start-up loop: one
    [logOut] request is sent, and when TDLib has closed the client a new one is
    made, with empty application state, whose requests are numbered from 1
    again. *)
Theorem logout_option_logs_out_then_restarts s :
  0 ≤ current_query_id_ (tg s) → current_query_id_ (tg s) + 1 ≤ INT_MAX →
  is_auth_ (tg s) = false → need_restart_ (tg s) = false → logout_next s = true →
  let id := new_client_id (n_clients s) in
  ∃ s', init_auth (auth_update <$> [authorizationStateReady; authorizationStateLoggingOut;
                                    authorizationStateClosing; authorizationStateClosed]) s
        = Ok (Waiting s') ∧
    logout_next s' = false ∧ is_auth_ (tg s') = false ∧ client_id_ (tg s') = id ∧
    current_query_id_ (tg s') = 1 ∧ handlers_ (tg s') = ∅ ∧
    id_to_chat (app_state (sh s')) = ∅ ∧ position_sets (app_state (sh s')) = ∅ ∧
    out s' = out s ++ [IoSend (client_id_ (tg s)) (current_query_id_ (tg s) + 1) logOut;
                       IoExecute (setLogVerbosityLevel 1); IoCreateClient id;
                       IoSend id 1 (getOption "version");
                       IoCout "restarted successfully"].
Proof.
  intros Hc Hroom Ha Hn Hl id.
  assert (Hu : u64 (i32 (u64 (current_query_id_ (tg s) + 1))) = current_query_id_ (tg s) + 1).
  { unfold INT_MAX in *. rewrite (u64_small (_ + 1)) by (unfold two64; lia).
    rewrite i32_small by (unfold in_int, INT_MIN, INT_MAX; lia).
    apply u64_small. unfold two64. lia. }
  cbn [fmap list_fmap]. rewrite init_auth_update by done.
  unfold visit_auth_state at 1. cbn [entering on_tg assign_tg logout_next]. rewrite Hl, bind_Ok_l.
  set (s1 := send_query logOut None _).
  assert (Hs1 : s1 = emit (IoSend (client_id_ (tg s)) (current_query_id_ (tg s) + 1) logOut)
            (on_tg (assign_query_id (u64 (current_query_id_ (tg s) + 1)))
               (assign_logout_next false (entering authorizationStateReady s)))).
  { unfold s1, send_query. cbn [next_query_id]. simpl. by rewrite Hu. }
  rewrite Hs1. clear s1 Hs1. do 2 (rewrite init_auth_update by done; simpl visit_auth_state at 1;
    rewrite bind_Ok_l). rewrite init_auth_update by done. simpl visit_auth_state at 1.
  rewrite bind_Ok_l, init_auth_restart by done.
  unfold restart, new_TgClient. simpl.
  destruct (fresh_memory (n_clients s)) as [pane0 terminating0].
  eexists. split; [done|]. simpl. split_and!; try done. by rewrite <-!app_assoc.
Qed.
End facts.

(** ** Examples *)
Section examples.
#[local] Existing Instance scheme_ids.

Definition example_env : Env := {|
  getenv v := if bool_decide (v = "TG_API_ID"%string) then Some "12345"%string
              else if bool_decide (v = "TG_API_HASH"%string) then Some "abc"%string
              else None;
  new_client_id n := Z.of_nat n + 1;
  fresh_memory _ := (0, false);
|}.
#[local] Existing Instance example_env.

(** The program before its first client, and with it. *)
Definition before_start (logout : bool) (words : list string) : session := {|
  tg := {| client_id_ := 0; auth_state_ := None; is_auth_ := false;
           need_restart_ := false; current_query_id_ := 0; auth_query_id_ := 0;
           handlers_ := ∅ |};
  sh := {| app_state := mk_app_state 0 false; event_queue := empty_queue |};
  use_test_dc := false; logout_next := logout; cin := words; n_clients := 0; out := [] |}.
Definition example_start (logout : bool) (words : list string) : session :=
  new_TgClient (before_start logout words).

Lemma example_inv b w : client_inv (example_start b w) ∧ live_inv (example_start b w).
Proof. destruct (new_client_inv (before_start b w)) as (? & ? & _). done. Qed.

Definition login : list Response :=
  auth_update <$> [authorizationStateWaitTdlibParameters; authorizationStateWaitPhoneNumber;
                   authorizationStateWaitCode].

Definition after_login : session :=
  match ofold (λ s r, process_response r s) (example_start false ["555"; "123"]%string) login with
  | Ok s => s
  | Fault _ => example_start false []
  end.

Lemma requests_numbered_consecutively_witness :
  ∃ n, (requests (out after_login)).*1 = seqZ 1 n ∧ 1 ≤ n ≤ 1 + 3 ∧
    ∀ k, is_Some (handlers_ (tg after_login) !! k) → 1 ≤ k ≤ n.
Proof.
  apply (requests_numbered_consecutively login (before_start false ["555"; "123"]%string));
    vm_compute; reflexivity.
Defined.

Lemma after_login_inv : client_inv after_login ∧ live_inv after_login.
Proof.
  destruct (example_inv false ["555"; "123"]%string) as [Hi Hl].
  destruct (run_responses_inv login _ after_login Hi Hl) as (? & ? & _);
    [split; vm_compute; discriminate|vm_compute; reflexivity|done].
Qed.

(** The third request, the phone number's, failed. *)
Definition code_error : Response := {| request_id := 4; object := Some (error 400) |}.
Definition after_error : session :=
  match process_response code_error after_login with Ok s => s | Fault _ => after_login end.

Lemma handler_runs_at_most_once_witness :
  (∃ h, handlers_ (tg after_login) !! 4 = Some h) ∧
  ∀ r', request_id r' = 4 → process_response r' after_error = Ok after_error.
Proof.
  split; [eexists; vm_compute; reflexivity|]. destruct after_login_inv as [Hi Hl].
  apply (handler_runs_at_most_once code_error after_login after_error Hi Hl);
    [split; vm_compute; discriminate|done|by eexists|vm_compute; reflexivity].
Defined.

Lemma process_auth_outdates_handlers_witness :
  ∃ s', process_auth after_login = Ok s' ∧
    run_handler (auth_handler 3) (error 400) s' = Ok s'.
Proof.
  destruct after_login_inv as [Hi Hl].
  eexists. split; [vm_compute; reflexivity|].
  apply (process_auth_outdates_handlers after_login _ 4 3 (error 400) Hi);
    [split; vm_compute; discriminate|vm_compute; reflexivity|vm_compute; reflexivity].
Defined.

Definition ready : Response := auth_update authorizationStateReady.

Lemma init_auth_returns_only_when_ready_witness :
  ∃ s', init_auth (login ++ [ready; code_error]) (example_start false ["555"; "123"]%string)
        = Ok (Authorized s' [code_error]) ∧ is_auth_ (tg s') = true ∧ client_inv s'.
Proof.
  destruct (example_inv false ["555"; "123"]%string) as [Hi Hl].
  eexists. split; [vm_compute; reflexivity|]. split; [reflexivity|].
  eapply (init_auth_returns_only_when_ready (login ++ [ready; code_error])
            (example_start false ["555"; "123"]%string));
    [exact Hi|exact Hl|reflexivity|split; vm_compute; discriminate
    |vm_compute; reflexivity|vm_compute; reflexivity].
Defined.

Lemma init_auth_returns_when_ready_witness :
  ∃ s', init_auth (login ++ ready :: [code_error]) (example_start false ["555"; "123"]%string)
        = Ok (Authorized s' [code_error]) ∧ is_auth_ (tg s') = true.
Proof.
  apply (init_auth_returns_when_ready login ready [code_error] _ after_login);
    [vm_compute; reflexivity|apply after_login_inv|split; vm_compute; discriminate
    |done|vm_compute; reflexivity].
Defined.

(** A chat is announced, then moved. *)
Definition announce : list Response := [
  {| request_id := 0; object := Some (updateNewChat
       {| c_id := 7; title_ := "A"; last_message_ := None; positions_ := [];
          chat_lists_ := [chatListMain] |}) |};
  {| request_id := 0; object := Some (updateChatPosition 7
       {| list_ := chatListMain; order_ := 5 |}) |} ].

Lemma responses_keep_shared_state_witness :
  ∃ s', handles (example_start false []) announce s' ∧
    list_entries (app_state (sh s')) chatListMain_ID = [(5, 7)] ∧
    is_Some (id_to_chat (app_state (sh s')) !! 7).
Proof.
  assert (Hrun : ∃ s', handles (example_start false []) announce s' ∧
            list_entries (app_state (sh s')) chatListMain_ID = [(5, 7)]).
  { eexists. split.
    - eapply handles_cons;
        [apply (bool_decide_unpack _); vm_compute; exact I|reflexivity|].
      eapply handles_cons; [exact I|reflexivity|apply handles_nil].
    - vm_compute. reflexivity. }
  destruct Hrun as (s' & Hrun & He). exists s'. split; [exact Hrun|]. split; [exact He|].
  destruct (responses_keep_shared_state (before_start false []) announce s' empty_queue_wf Hrun) as (Hl & _ & _).
  destruct (Hl chatListMain_ID) as (_ & _ & _ & Hk). apply (Hk 5 7). rewrite He. left.
Defined.

Lemma password_state_is_ignored_witness :
  ∃ s', init_auth [{| request_id := 0; object :=
          Some (updateAuthorizationState authorizationStateWaitPassword) |}] after_login
        = Ok (Waiting s') ∧ out s' = out after_login ∧ cin s' = cin after_login ∧ stale s'.
Proof.
  apply password_state_is_ignored; [apply after_login_inv|split; vm_compute; discriminate
    |reflexivity|reflexivity].
Defined.

Lemma logout_option_logs_out_then_restarts_witness :
  ∃ s', init_auth (auth_update <$> [authorizationStateReady; authorizationStateLoggingOut;
                     authorizationStateClosing; authorizationStateClosed])
          (example_start true []) = Ok (Waiting s') ∧ client_id_ (tg s') = 2.
Proof.
  destruct (logout_option_logs_out_then_restarts (example_start true []))
    as (s' & Hrun & _ & _ & Hid & _); [vm_compute; discriminate|vm_compute; discriminate
    |reflexivity|reflexivity|reflexivity|].
  exists s'. split; [exact Hrun|exact Hid].
Defined.
End examples.
