(* ===== verification/LoginFacts.v ===== *)
(** * Signing in

    What [process_auth] shows of a login link, and the only ways it fails. *)
From S2P Require Import Prelude EventQueue StdSet TdApi AppState ChatList Messages.
From S2P Require Import QrSegment QrSegmentFacts QrEncode QrEncodeFacts Grid QrCode.
From S2P Require Import QrDrawFacts QrRoundTrip QrDisplay StdString TgClient.
From S2P Require Import TgClientFacts.

(** ** Links as C strings *)
Lemma string_codes_bytes s : Forall is_byte (string_codes s).
Proof.
  induction s as [|c s IH]; simpl; constructor; [|done].
  unfold is_byte, char_code. pose proof (Ascii.nat_ascii_bounded c). lia.
Qed.

Lemma c_str_bytes s : Forall is_byte (c_str s).
Proof.
  unfold c_str. pose proof (string_codes_bytes s) as H. induction H as [|c l Hc _ IH]; simpl.
  - constructor.
  - destruct (c =? 0); by constructor.
Qed.

(** The longest link, in bytes, that a symbol of level QUARTILE is guaranteed to
    hold. *)
Definition LINK_MAX : Z := 1663.

Lemma quartile_capacity : capacity 40 QUARTILE * 8 = 13328.
Proof. vm_compute. reflexivity. Qed.

(** A link of that length is encoded and printed. *)
Lemma link_shown link :
  Z.of_nat (length (c_str link)) ≤ LINK_MAX →
  ∃ qr, encodeText (c_str link) QUARTILE = Ok qr ∧ shows (c_str link) qr ∧
    ∀ os, display os qr = Ok (os +:+ picture (modules qr) (size qr)).
Proof.
  unfold LINK_MAX. intros Hlen.
  destruct (encodeText_shows (c_str link) QUARTILE) as [(qr & Hqr & Hsh)|[_ Hcap]];
    [apply c_str_bytes|unfold INT_MAX; lia| |rewrite quartile_capacity in Hcap; lia].
  exists qr. split_and!; [done|done|]. intros os. apply display_Ok. apply Hsh.
Qed.

Section login.
Context `{ChatListIds, Env}.

(** C18. When TDLib asks for confirmation on another device, the program prints a
    QR code from whose modules a reader recovers exactly the login link, for
    every link of at most 1663 bytes. *)
Theorem login_link_is_scannable s link :
  auth_state_ (tg s) = Some (authorizationStateWaitOtherDeviceConfirmation link) →
  Z.of_nat (length (c_str link)) ≤ LINK_MAX →
  ∃ s' qr, process_auth s = Ok s' ∧ shows (c_str link) qr ∧
    out s' = out s ++ [IoCout ("Scan QR with an active Telegram session " +:+ newline);
                       IoCout (picture (modules qr) (size qr));
                       IoCout ("login link: " +:+ link +:+ newline)] ∧
    logout_next s' = false.
Proof.
  intros Ha Hlen. destruct (link_shown link Hlen) as (qr & Hqr & Hsh & Hd).
  eexists _, qr. split.
  - unfold process_auth. simpl. rewrite Ha. change (deref (Some ?a)) with (Ok a).
    rewrite bind_Ok_l. cbn [visit_auth_state]. unfold wait_other_device_confirmation.
    rewrite Hqr, bind_Ok_l, Hd, bind_Ok_l. reflexivity.
  - split; [done|]. simpl. by rewrite <-!app_assoc.
Qed.

(** [process_auth] fails only for want of usable API credentials in the
    environment, or on a login link too long for a QR code. *)
Theorem process_auth_fails_only_if s f :
  process_auth s = Fault f → is_Some (auth_state_ (tg s)) →
  (auth_state_ (tg s) = Some authorizationStateWaitTdlibParameters ∧
   (getenv "TG_API_ID" = None ∨ getenv "TG_API_HASH" = None ∨
    ∃ id, getenv "TG_API_ID" = Some id ∧ stoi id = Fault f)) ∨
  (∃ link, auth_state_ (tg s) = Some (authorizationStateWaitOtherDeviceConfirmation link) ∧
     LINK_MAX < Z.of_nat (length (c_str link))).
Proof.
  intros Hrun [a Ha]. unfold process_auth in Hrun. simpl in Hrun. rewrite Ha in Hrun.
  change (deref (Some a)) with (Ok a) in Hrun. rewrite bind_Ok_l in Hrun.
  destruct a; simpl in Hrun; try done.
  - left. split; [done|]. unfold wait_tdlib_parameters in Hrun.
    destruct (getenv "TG_API_ID") as [id|]; [|by left].
    change (deref (Some id)) with (Ok id) in Hrun. rewrite bind_Ok_l in Hrun.
    destruct (stoi id) as [n|f'] eqn:Es; [|right; right; simpl in Hrun; naive_solver].
    rewrite bind_Ok_l in Hrun. destruct (getenv "TG_API_HASH"); [done|]. by right; left.
  - by destruct (logout_next s).
  - right. eexists. split; [done|]. apply Z.nle_gt. intros Hlen.
    destruct (link_shown _ Hlen) as (qr & Hqr & _ & Hd).
    unfold wait_other_device_confirmation in Hrun.
    by rewrite Hqr, bind_Ok_l, Hd, bind_Ok_l in Hrun.
Qed.
End login.

(** ** Witnesses *)
Section witnesses.
#[local] Existing Instance scheme_ids.
#[local] Existing Instance example_env.

Definition waiting_for_scan : session :=
  on_tg (assign_auth_state (Some (authorizationStateWaitOtherDeviceConfirmation
    "tg://login?token=Zm9v"))) (example_start false []).

Lemma login_link_is_scannable_witness :
  ∃ s' qr, process_auth waiting_for_scan = Ok s' ∧
    shows (c_str "tg://login?token=Zm9v") qr ∧ logout_next s' = false.
Proof.
  destruct (login_link_is_scannable waiting_for_scan "tg://login?token=Zm9v")
    as (s' & qr & Hrun & Hsh & _ & Hl); [reflexivity|vm_compute; discriminate|].
  exists s', qr. split; [exact Hrun|]. split; [exact Hsh|exact Hl].
Defined.

Lemma process_auth_fails_only_if_witness :
  process_auth (on_tg (assign_auth_state (Some authorizationStateWaitPhoneNumber)) after_login)
    ≠ ub.
Proof.
  intros Hrun. destruct (process_auth_fails_only_if _ _ Hrun) as [[? _]|(link & ? & _)];
    [by eexists|discriminate|discriminate].
Defined.
End witnesses.
