(* ===== verification/Curses.v ===== *)
(** * The curses library, as the program uses it

    [curses.h] and [panel.h] are not part of the repository. What the UI code
    relies on is the class below: the macros, and the documented sizes of the
    windows [newwin] makes. The calls that draw are recorded in order; their
    effect on the terminal is not modelled. *)
From S2P Require Import Prelude.

Class Curses := {
  window : Type;
  (** [newwin(h, w, y, x)] on a screen of [lines] by [cols]; null on failure *)
  newwin (lines cols h w y x : Z) : option window;
  (** of a null window they return [ERR] *)
  getmaxy : option window → Z;
  getmaxx : option window → Z;
  newwin_inside lines cols h w y x :
    0 < h → 0 < w → 0 ≤ y → 0 ≤ x → y + h ≤ lines → x + w ≤ cols →
    ∃ win, newwin lines cols h w y x = Some win ∧
      getmaxy (Some win) = h ∧ getmaxx (Some win) = w;
  getmax_null : getmaxy None = -1 ∧ getmaxx None = -1;
  KEY_MOUSE : Z;
  KEY_RESIZE : Z;
  BUTTON1_PRESSED : Z;
  BUTTON1_RELEASED : Z;
  REPORT_MOUSE_POSITION : Z;
  (** function keys are not characters, and the mouse bits are distinct *)
  KEY_MOUSE_large : 255 < KEY_MOUSE;
  KEY_RESIZE_large : 255 < KEY_RESIZE;
  keys_distinct : KEY_MOUSE ≠ KEY_RESIZE;
  mouse_bits : Z.land BUTTON1_PRESSED BUTTON1_RELEASED = 0 ∧
    Z.land BUTTON1_PRESSED REPORT_MOUSE_POSITION = 0 ∧
    Z.land BUTTON1_RELEASED REPORT_MOUSE_POSITION = 0;
}.

Definition ERR : Z := -1.

(** The calls with an effect on the terminal. *)
Inductive curses_call `{Curses} :=
  | mvwaddstr (w : option window) (y x : Z) (s : string)
  | mvwvline (w : option window) (y x n : Z)
  | mvwhline (w : option window) (y x n : Z)
  | mvwaddch (w : option window) (y x : Z)
  | wattron (w : option window)
  | wattroff (w : option window)
  | wmove (w : option window) (y x : Z)
  | wnoutrefresh (w : option window)
  | delwin (w : option window)
  | curs_set (v : Z)
  | update_panels
  | doupdate.

(** A concrete library for the examples: windows are their geometry, and the
    key codes are those of ncurses. *)
Definition geometry_window (lines cols h w y x : Z) : option (Z * Z * Z * Z) :=
  if (h <? 0) || (w <? 0) || (y <? 0) || (x <? 0) then None
  else Some (if h =? 0 then lines - y else h, if w =? 0 then cols - x else w, y, x).

#[refine] Definition geometry_curses : Curses := {|
  window := Z * Z * Z * Z;
  newwin := geometry_window;
  getmaxy w := match w with Some (h, _, _, _) => h | None => -1 end;
  getmaxx w := match w with Some (_, c, _, _) => c | None => -1 end;
  KEY_MOUSE := 409;
  KEY_RESIZE := 410;
  BUTTON1_PRESSED := 2;
  BUTTON1_RELEASED := 1;
  REPORT_MOUSE_POSITION := 268435456;
|}.
Proof.
  - intros lines cols h w y x Hh Hw Hy Hx ? ?. unfold geometry_window.
    do 4 (rewrite (proj2 (Z.ltb_ge _ _)) by lia). cbn [orb].
    do 2 (rewrite (proj2 (Z.eqb_neq _ _)) by lia). by eexists.
  - done.
  - done.
  - done.
  - done.
  - done.
Defined.
