(* ===== verification/Layout.v ===== *)
(** * The panes on the screen ([src/src/layout.h], [src/src/layout.cc])

    The five windows, their drawing, and the state of the user interface. Screen
    coordinates are the mathematical integers of the code's [int]s: a terminal
    is far too small for them to overflow. *)
From S2P Require Import Prelude EventQueue StdSet TdApi AppState ChatList Messages.
From S2P Require Import StdString TgClient Curses.

(** ** Panes *)
Definition ID_SIDE : Z := 1.
Definition ID_MAIN : Z := 2.
Definition ID_COMP : Z := 4.
Definition ID_E_SIDE_MAIN : Z := 16.
Definition ID_E_COMP_TOP : Z := 32.
Definition ID_C_SIDE_MAIN_COMP : Z := Z.lor ID_E_SIDE_MAIN ID_E_COMP_TOP.

(** ** State *)

(** [input_state_str]; [S_NONE], [S_MOUSE_DRAG], [S_KEY_PREF] are 0, 1, 2. The
    object is global, so that the members without initialiser start at zero. *)
Record input_state_str := { state : Z; edge : bool; where_ : Z; pref_key : Z }.

Section layout.
Context `{Curses}.

(** The globals of the UI. [panels[id]] is null before [init_layout]; otherwise
    the map gives the window the panel shows. [LINES] and [COLS] are curses'
    variables, which change while the program reads a key. *)
Record ui := {
  LINES : Z;
  COLS : Z;
  side_w : Z;
  composer_h : Z;
  current_pan : Z;
  cursor_positions : gmap Z (Z * Z);
  panels : gmap Z (option window);
  input_state : input_state_str;
  calls : list curses_call;
}.

(** The program as the UI thread sees it. *)
Record world := { net : session; screen : ui }.

(** *** Assignments *)
Definition assign_sizes (sw ch : Z) (u : ui) : ui :=
  {| LINES := LINES u; COLS := COLS u; side_w := sw; composer_h := ch;
     current_pan := current_pan u; cursor_positions := cursor_positions u;
     panels := panels u; input_state := input_state u; calls := calls u |}.
Definition assign_current_pan (p : Z) (u : ui) : ui :=
  {| LINES := LINES u; COLS := COLS u; side_w := side_w u; composer_h := composer_h u;
     current_pan := p; cursor_positions := cursor_positions u;
     panels := panels u; input_state := input_state u; calls := calls u |}.
Definition assign_cursor (id : Z) (pos : Z * Z) (u : ui) : ui :=
  {| LINES := LINES u; COLS := COLS u; side_w := side_w u; composer_h := composer_h u;
     current_pan := current_pan u; cursor_positions := <[id := pos]> (cursor_positions u);
     panels := panels u; input_state := input_state u; calls := calls u |}.
Definition assign_panels (p : gmap Z (option window)) (u : ui) : ui :=
  {| LINES := LINES u; COLS := COLS u; side_w := side_w u; composer_h := composer_h u;
     current_pan := current_pan u; cursor_positions := cursor_positions u;
     panels := p; input_state := input_state u; calls := calls u |}.
Definition assign_input_state (i : input_state_str) (u : ui) : ui :=
  {| LINES := LINES u; COLS := COLS u; side_w := side_w u; composer_h := composer_h u;
     current_pan := current_pan u; cursor_positions := cursor_positions u;
     panels := panels u; input_state := i; calls := calls u |}.
Definition draw (l : list curses_call) (u : ui) : ui :=
  {| LINES := LINES u; COLS := COLS u; side_w := side_w u; composer_h := composer_h u;
     current_pan := current_pan u; cursor_positions := cursor_positions u;
     panels := panels u; input_state := input_state u; calls := calls u ++ l |}.
Definition on_screen (f : ui → ui) (w : world) : world :=
  {| net := net w; screen := f (screen w) |}.
Definition on_net (f : session → session) (w : world) : world :=
  {| net := f (net w); screen := screen w |}.
Definition on_app (f : tl_app_state_struct → tl_app_state_struct) : world → world :=
  on_net (on_sh (with_app f)).
Definition app (w : world) : tl_app_state_struct := app_state (sh (net w)).

(** [panel_window(panels[id])] and [cursor_positions[id]] *)
Definition pane_window (u : ui) (id : Z) : option window := get_or None (panels u) id.
Definition cursor (u : ui) (id : Z) : Z * Z := get_or (0, 0) (cursor_positions u) id.
Definition scroll (s : tl_app_state_struct) (id : Z) : Z := get_or 0 (scroll_offset s) id.

(** ** Geometry *)
Definition init_config (u : ui) : ui :=
  assign_sizes (Z.min 32 (Z.quot (COLS u) 4)) (Z.min 3 (Z.quot (LINES u) 5)) u.

(** The windows of [init_layout] and [resize]: pane, height, width, top, left. *)
Definition rectangles (u : ui) : list (Z * (Z * Z * Z * Z)) := [
  (ID_SIDE, (LINES u - composer_h u - 1, side_w u, 0, 0));
  (ID_MAIN, (LINES u - composer_h u - 1, COLS u - side_w u - 1, 0, side_w u + 1));
  (ID_COMP, (composer_h u, COLS u, LINES u - composer_h u, 0));
  (ID_E_SIDE_MAIN, (LINES u - composer_h u - 1, 1, 0, side_w u));
  (ID_C_SIDE_MAIN_COMP, (1, COLS u, LINES u - composer_h u - 1, 0)) ].

Definition open_window (u : ui) (r : Z * Z * Z * Z) : option window :=
  let '(h, w, y, x) := r in newwin (LINES u) (COLS u) h w y x.

(** The panels show new windows of these sizes. *)
Definition make_windows (u : ui) : ui :=
  assign_panels
    (foldl (λ p (r : Z * (Z * Z * Z * Z)), <[r.1 := open_window u r.2]> p) (panels u)
       (rectangles u)) u.

(** ** Drawing *)
Definition draw_border (u : ui) : ui :=
  let edge := pane_window u ID_E_SIDE_MAIN in
  let top := pane_window u ID_C_SIDE_MAIN_COMP in
  draw [mvwvline edge 0 0 (LINES u - composer_h u - 1); mvwhline top 0 0 (COLS u);
        mvwaddch top 0 (side_w u)] u.

Definition draw_cursor (u : ui) : ui :=
  let win := pane_window u (current_pan u) in
  let pos := cursor u (current_pan u) in
  draw [wmove win pos.1 pos.2; wnoutrefresh win] u.

(** *** [draw_side] *)

(** The text of a row, before it is cut to the width. *)
Definition side_name (title : string) (maxx : Z) : outcome string :=
  if string_size title =? 0 then Ok "deleted account"%string
  else if string_size title <? u64 maxx
  then string_append title (maxx - string_size title) space
  else Ok title.

Definition side_row (chats : gmap Z chat) (chosen : Z) (win : option window) (maxx i : Z)
    (chat_id : Z) : outcome (list curses_call) :=
  c ← deref (chats !! chat_id);
  name ← side_name (title_ c) maxx;
  let line := mvwaddstr win i 0 (cut_nul (string_prefix name maxx)) in
  Ok (if chosen =? c_id c then [wattron win; line; wattroff win] else [line]).

(** The loop over the rows: [n] rows from row [i] on, [pos] the iterator. *)
Fixpoint side_rows (chats : gmap Z chat) (chosen : Z) (win : option window) (maxx : Z)
    (n : nat) (i : Z) (pos : list (Z * Z)) : outcome (list curses_call) :=
  match n with
  | O => Ok []
  | S n =>
      match pos with
      | p :: pos =>
          row ← side_row chats chosen win maxx i p.2;
          rows ← side_rows chats chosen win maxx n (i + 1) pos;
          Ok (row ++ rows)
      | [] =>
          blank ← string_fill maxx space;
          rows ← side_rows chats chosen win maxx n (i + 1) [];
          Ok (mvwaddstr win i 0 blank :: rows)
      end
  end.

Definition draw_side (w : world) : outcome world :=
  let s := app w in
  let entries := list_entries s (current_chatlist s) in
  let win := pane_window (screen w) ID_SIDE in
  let maxy := getmaxy win in
  let maxx := getmaxx win in
  let list_size := Z.min (Z.of_nat (length entries)) (u64 maxy) in
  pos ← advance entries (scroll s ID_SIDE);
  rows ← side_rows (id_to_chat s) (chosen_chat_id s) win maxx (Z.to_nat list_size) 0 pos;
  Ok (on_screen (draw rows) w).

(** *** [draw_main] *)
Definition message_line (m : message) (width : Z) : outcome string :=
  match content_ m with
  | messageText text =>
      text ← string_append text (Z.max 0 (width - i32 (string_size text))) space;
      text ← string_resize text width;
      Ok (cut_nul text)
  | messageOther _ =>
      let text := "<empty>"%string in
      text ← string_append text (Z.max 0 (width - i32 (string_size text))) space;
      Ok (cut_nul text)
  end.

(** The loop [while (lines--)]: [n] rows upwards from [row], [it] the iterator. *)
Fixpoint main_rows (win : option window) (width : Z) (n : nat) (row : Z) (it : list message)
    : outcome (list curses_call) :=
  match n with
  | O => Ok []
  | S n =>
      match it with
      | m :: it =>
          line ← message_line m width;
          rows ← main_rows win width n (row - 1) it;
          Ok (mvwaddstr win row 0 line :: rows)
      | [] =>
          blank ← string_fill width space;
          rows ← main_rows win width n (row - 1) [];
          Ok (mvwaddstr win row 0 blank :: rows)
      end
  end.

(** Counting down from a negative number of lines ends in a signed overflow. *)
Definition draw_main (w : world) : outcome world :=
  let s := app w in
  if chosen_chat_id s =? -1 then Ok w
  else
    let displayed := history s (chosen_chat_id s) in
    it ← advance displayed (scroll s ID_MAIN);
    let win := pane_window (screen w) ID_MAIN in
    let lines := getmaxy win in
    let width := getmaxx win in
    rows ← main_rows win width (Z.to_nat (if lines <? 0 then lines - INT_MIN else lines))
             (lines - 1) it;
    if lines <? 0 then ub
    else Ok (on_screen (draw (rows ++ [wnoutrefresh win])) w).

Definition draw_composer (w : world) : world := w.

Definition fill (w : world) : outcome world :=
  w ← draw_main w;
  w ← draw_side w;
  Ok (draw_composer w).

Definition draw_pane (pane : Z) (w : world) : outcome world :=
  if pane =? ID_SIDE then draw_side w
  else if pane =? ID_COMP then Ok (draw_composer w)
  else if pane =? ID_MAIN then draw_main w
  else Ok w.

(** ** Setting up and resizing *)
Definition init_layout (w : world) : outcome world :=
  let w := on_screen make_windows w in
  let w := on_screen (assign_current_pan ID_SIDE) w in
  let w := on_screen draw_border w in
  w ← fill w;
  let w := on_screen draw_cursor w in
  Ok (on_screen (draw [update_panels; doupdate]) w).

(** The cursors stay inside their panes. *)
Definition clamp_cursor (u : ui) (id : Z) : ui :=
  let win := pane_window u id in
  let pos := cursor u id in
  assign_cursor id (Z.min pos.1 (getmaxy win - 1), Z.min pos.2 (getmaxx win - 1)) u.

Definition resize (new_side_w new_composer_h : Z) (w : world) : outcome world :=
  let u := screen w in
  if COLS u <=? new_side_w then Ok w
  else if LINES u <=? new_composer_h then Ok w
  else
    let old := pane_window u <$> [ID_SIDE; ID_MAIN; ID_COMP; ID_E_SIDE_MAIN;
                                  ID_C_SIDE_MAIN_COMP] in
    let u := make_windows (assign_sizes new_side_w new_composer_h u) in
    let u := draw (delwin <$> old) u in
    let u := foldl clamp_cursor u [ID_SIDE; ID_MAIN; ID_COMP] in
    let w := on_screen draw_border (on_screen (λ _, u) w) in
    w ← fill w;
    let w := on_screen draw_cursor w in
    Ok (on_screen (draw [update_panels]) w).
End layout.
