(* ===== verification/LayoutFacts.v ===== *)
(** * Properties of the screen layout and of the drawing functions *)
From S2P Require Import Prelude EventQueue StdSet TdApi AppState ChatList Messages.
From S2P Require Import QrSegment StdString TgClient Curses Layout.

Section facts.
Context `{Curses}.

(** ** Geometry *)

(** Sizes for which every window has at least one row and one column. *)
Definition proper (u : ui) : Prop :=
  0 < side_w u < COLS u - 1 ∧ 0 < composer_h u < LINES u - 1.
#[global] Instance proper_dec u : Decision (proper u).
Proof. unfold proper. apply _. Defined.

Definition covers (r : Z * Z * Z * Z) (y x : Z) : Prop :=
  let '(h, w, y0, x0) := r in y0 ≤ y < y0 + h ∧ x0 ≤ x < x0 + w.

Lemma elem_of_rectangles id r u :
  (id, r) ∈ rectangles u ↔
    (id = ID_SIDE ∧ r = (LINES u - composer_h u - 1, side_w u, 0, 0)) ∨
    (id = ID_MAIN ∧ r = (LINES u - composer_h u - 1, COLS u - side_w u - 1, 0, side_w u + 1)) ∨
    (id = ID_COMP ∧ r = (composer_h u, COLS u, LINES u - composer_h u, 0)) ∨
    (id = ID_E_SIDE_MAIN ∧ r = (LINES u - composer_h u - 1, 1, 0, side_w u)) ∨
    (id = ID_C_SIDE_MAIN_COMP ∧ r = (1, COLS u, LINES u - composer_h u - 1, 0)).
Proof. unfold rectangles. set_unfold. naive_solver. Qed.

Lemma rectangles_inside id h w y x u :
  proper u → (id, (h, w, y, x)) ∈ rectangles u →
  0 < h ∧ 0 < w ∧ 0 ≤ y ∧ 0 ≤ x ∧ y + h ≤ LINES u ∧ x + w ≤ COLS u.
Proof.
  intros [Hs Hc]. rewrite elem_of_rectangles. intros Hr.
  destruct_or! Hr; destruct Hr as [_ [= -> -> -> ->]]; lia.
Qed.

(** The sizes of the windows that [make_windows] puts in the panels. *)
Lemma make_windows_size id h w y x u :
  proper u → (id, (h, w, y, x)) ∈ rectangles u →
  ∃ win, pane_window (make_windows u) id = Some win ∧
    getmaxy (Some win) = h ∧ getmaxx (Some win) = w.
Proof.
  intros Hp Hr. destruct (rectangles_inside _ _ _ _ _ _ Hp Hr) as (? & ? & ? & ? & ? & ?).
  destruct (newwin_inside (LINES u) (COLS u) h w y x) as (win & Hw & Hs); [done..|].
  exists win. split; [|done]. unfold pane_window, make_windows. simpl.
  unfold get_or. rewrite <-Hw.
  rewrite elem_of_rectangles in Hr.
  destruct_or! Hr; destruct Hr as [-> [= -> -> -> ->]]; rewrite ?lookup_insert; simpl; done.
Qed.

Lemma init_config_proper u : 5 ≤ LINES u → 4 ≤ COLS u → proper (init_config u).
Proof.
  intros Hl Hc. unfold proper, init_config. simpl.
  rewrite !Z.quot_div_nonneg by lia.
  assert (1 ≤ COLS u / 4 ≤ COLS u - 2) by
    (split; [apply Z.div_le_lower_bound|apply Z.div_le_upper_bound]; lia).
  assert (1 ≤ LINES u / 5 ≤ LINES u - 2) by
    (split; [apply Z.div_le_lower_bound|apply Z.div_le_upper_bound]; lia).
  lia.
Qed.

(** On a terminal of at least five rows and four columns the initial sizes leave
    no window empty: [newwin] makes the five windows with the sizes asked for,
    and every screen cell belongs to exactly one of them. The same holds for any
    other proper sizes. *)
Theorem panes_tile_the_screen u :
  (5 ≤ LINES u ∧ 4 ≤ COLS u → proper (init_config u)) ∧
  (proper u →
   (∀ id h w y x, (id, (h, w, y, x)) ∈ rectangles u →
      ∃ win, pane_window (make_windows u) id = Some win ∧
        getmaxy (Some win) = h ∧ getmaxx (Some win) = w) ∧
   ∀ y x, 0 ≤ y < LINES u → 0 ≤ x < COLS u →
     ∃ id r, (id, r) ∈ rectangles u ∧ covers r y x ∧
       ∀ id' r', (id', r') ∈ rectangles u → covers r' y x → id' = id).
Proof.
  split; [intros [? ?]; by apply init_config_proper|]. intros Hp.
  split; [intros; by eapply make_windows_size|]. intros y x Hy Hx. destruct Hp as [Hs Hc].
  setoid_rewrite elem_of_rectangles. unfold covers.
  assert (Hcase : y < LINES u - composer_h u - 1 ∨ y = LINES u - composer_h u - 1 ∨
                  LINES u - composer_h u ≤ y) by lia.
  destruct Hcase as [Hy'|[Hy'|Hy']].
  - assert (Hcase : x < side_w u ∨ x = side_w u ∨ side_w u + 1 ≤ x) by lia.
    destruct Hcase as [Hx'|[Hx'|Hx']]; [exists ID_SIDE|exists ID_E_SIDE_MAIN|exists ID_MAIN];
      eexists; (split; [eauto 6|]); simpl; (split; [lia|]);
      intros id' [[[h w] t] l] Hr; destruct_or! Hr;
      destruct Hr as [-> [= -> -> -> ->]]; lia.
  - exists ID_C_SIDE_MAIN_COMP. eexists. split; [eauto 6|]. simpl. split; [lia|].
    intros id' [[[h w] t] l] Hr; destruct_or! Hr; destruct Hr as [-> [= -> -> -> ->]]; lia.
  - exists ID_COMP. eexists. split; [eauto 6|]. simpl. split; [lia|].
    intros id' [[[h w] t] l] Hr; destruct_or! Hr; destruct Hr as [-> [= -> -> -> ->]]; lia.
Qed.

(** ** What the drawing functions write *)

(** The rows written to window [win], in order. *)
Definition written_row (win : option window) (c : curses_call) : option (Z * string) :=
  match c with
  | mvwaddstr _ y _ str => Some (y, str)
  | _ => None
  end.
Definition written (win : option window) (l : list curses_call) : list (Z * string) :=
  omap (written_row win) l.

(** A title padded with spaces and cut to [width] bytes. *)
Definition padded (width : Z) (t : string) : string :=
  cut_nul (string_prefix
    (t +:+ repeat_char (Z.to_nat (Z.max 0 (width - string_size t))) space)%string width).
Definition side_text (width : Z) (title : string) : string :=
  if string_size title =? 0 then cut_nul (string_prefix "deleted account" width)
  else padded width title.
Definition blank_row (width : Z) : string := repeat_char (Z.to_nat width) space.

(** Strings of a size an [int] can hold, as Telegram's are. *)
Definition short (t : string) : Prop := string_size t ≤ INT_MAX.

Lemma append_empty t : (t +:+ "")%string = t.
Proof. induction t as [|c t IH]; [done|]. exact (f_equal (String c) IH). Qed.

Lemma side_name_Ok title width :
  0 ≤ width ≤ INT_MAX → short title →
  ∃ name, side_name title width = Ok name ∧
    cut_nul (string_prefix name width) = side_text width title.
Proof.
  unfold short, INT_MAX. intros Hw Hs. unfold side_name, side_text, padded.
  assert (Hp : 0 ≤ string_size title) by (unfold string_size; lia).
  rewrite (u64_small width) by (unfold two64; lia).
  destruct (string_size title =? 0); [by eauto|].
  destruct (string_size title <? width) eqn:E; zbool.
  - rewrite string_append_Ok by (unfold string_max_size; lia).
    eexists. split; [done|]. by rewrite Z.max_r by lia.
  - eexists. split; [done|]. rewrite Z.max_l by lia.
    change (repeat_char (Z.to_nat 0) space) with EmptyString. by rewrite append_empty.
Qed.

Lemma string_fill_Ok width :
  0 ≤ width ≤ INT_MAX → string_fill width space = Ok (blank_row width).
Proof.
  unfold INT_MAX. intros Hw. unfold string_fill.
  by rewrite string_append_Ok by (unfold string_size, string_max_size; simpl; lia).
Qed.

(** The row of the chat list that position [p] of the iterator gives. *)
Definition side_row_text (chats : gmap Z chat) (width : Z) (p : option (Z * Z)) : string :=
  match p with
  | Some (_, id) =>
      match chats !! id with Some c => side_text width (title_ c) | None => EmptyString end
  | None => blank_row width
  end.

Lemma side_rows_spec chats chosen win width n : ∀ i pos,
  0 ≤ width ≤ INT_MAX →
  (∀ p, p ∈ pos → ∃ c, chats !! p.2 = Some c ∧ short (title_ c)) →
  ∃ l, side_rows chats chosen win width n i pos = Ok l ∧
    written win l = (λ k : nat, (i + Z.of_nat k, side_row_text chats width (pos !! k))) <$> seq 0 n.
Proof.
  induction n as [|n IH]; intros i pos Hw Hpos; [by exists []|].
  assert (Hshift : ∀ f : nat → Z * string,
            f <$> seq 0 (S n) = f 0%nat :: ((f ∘ S) <$> seq 0 n)).
  { intros f. simpl. by rewrite list_fmap_compose, fmap_S_seq. }
  destruct pos as [|[o id] pos]; simpl side_rows.
  - rewrite string_fill_Ok, bind_Ok_l by done.
    destruct (IH (i + 1) [] Hw) as (l & -> & Hl); [done|]. rewrite bind_Ok_l.
    eexists. split; [done|]. rewrite Hshift. unfold written in *. csimpl. rewrite Hl.
    f_equal; [by rewrite Z.add_0_r|]. apply list_fmap_ext. intros k x _. simpl.
    f_equal. lia.
  - destruct (Hpos (o, id)) as (c & Hc & Ht); [by left|]. simpl in Hc.
    destruct (side_name_Ok (title_ c) width Hw Ht) as (name & Hn & Hcut).
    destruct (IH (i + 1) pos Hw) as (l & Hl1 & Hl); [by intros; apply Hpos; right|].
    unfold side_row. rewrite Hc. change (deref (Some c)) with (Ok c).
    rewrite bind_Ok_l, Hn, bind_Ok_l, bind_Ok_l, Hl1, bind_Ok_l.
    eexists. split; [done|]. rewrite Hshift. unfold written in *. rewrite omap_app, Hl.
    assert (Hrow : omap (written_row win)
              (if chosen =? c_id c
               then [wattron win; mvwaddstr win i 0 (cut_nul (string_prefix name width)); wattroff win]
               else [mvwaddstr win i 0 (cut_nul (string_prefix name width))])
              = [(i, cut_nul (string_prefix name width))]) by (by destruct (_ =? _)).
    rewrite Hrow, Hcut. simpl. rewrite Hc, Z.add_0_r. f_equal.
    apply list_fmap_ext. intros k x _. simpl. f_equal. lia.
Qed.

Lemma cut_nul_size t : string_size (cut_nul t) ≤ string_size t.
Proof.
  unfold string_size. induction t as [|c t IH]; simpl; [lia|].
  destruct (char_code c =? 0); simpl; lia.
Qed.

Lemma side_row_text_size chats width p :
  0 ≤ width ≤ INT_MAX → string_size (side_row_text chats width p) ≤ width.
Proof.
  unfold INT_MAX. intros Hw. unfold side_row_text, side_text, padded.
  destruct p as [[o id]|].
  - destruct (chats !! id); [|unfold string_size; simpl; lia].
    case_match; (etransitivity; [apply cut_nul_size|]);
      rewrite string_size_prefix by (unfold two64; lia); lia.
  - unfold blank_row, string_size. rewrite length_repeat_char. lia.
Qed.

Definition message_text (width : Z) (m : message) : string :=
  match content_ m with
  | messageText t => padded width t
  | messageOther _ =>
      cut_nul ("<empty>" +:+ repeat_char (Z.to_nat (Z.max 0 (width - 7))) space)%string
  end.
Definition short_message (m : message) : Prop :=
  match content_ m with messageText t => short t | messageOther _ => True end.

#[global] Instance short_message_dec m : Decision (short_message m).
Proof. unfold short_message, short. destruct (content_ m); apply _. Defined.

Lemma message_line_Ok m width :
  0 ≤ width ≤ INT_MAX → short_message m → message_line m width = Ok (message_text width m).
Proof.
  unfold short_message, short, message_line, message_text, INT_MAX. intros Hw Hs.
  destruct (content_ m) as [t|t].
  - assert (Hp : 0 ≤ string_size t) by (unfold string_size; lia).
    rewrite i32_small by (unfold in_int, INT_MIN, INT_MAX; lia).
    rewrite string_append_Ok, bind_Ok_l by (unfold string_max_size; lia).
    rewrite string_resize_shorter by (rewrite ?string_size_append by lia; unfold two64; lia).
    by rewrite bind_Ok_l.
  - change (i32 (string_size "<empty>")) with 7.
    rewrite string_append_Ok; [done|lia|]. change (string_size "<empty>") with 7.
    unfold string_max_size. lia.
Qed.

Definition main_row_text (width : Z) (m : option message) : string :=
  match m with Some m => message_text width m | None => blank_row width end.

Lemma main_rows_spec win width n : ∀ row it,
  0 ≤ width ≤ INT_MAX → (∀ m, m ∈ it → short_message m) →
  main_rows win width n row it =
    Ok ((λ k : nat, mvwaddstr win (row - Z.of_nat k) 0 (main_row_text width (it !! k))) <$> seq 0 n).
Proof.
  induction n as [|n IH]; intros row it Hw Hit; [done|].
  assert (Hshift : ∀ f : nat → curses_call,
            f <$> seq 0 (S n) = f 0%nat :: ((f ∘ S) <$> seq 0 n)).
  { intros f. simpl. by rewrite list_fmap_compose, fmap_S_seq. }
  rewrite Hshift. destruct it as [|m it]; simpl main_rows.
  - rewrite string_fill_Ok, bind_Ok_l, IH, bind_Ok_l by done. f_equal.
    f_equal; [by rewrite Z.sub_0_r|]. apply list_fmap_ext. intros k x _. simpl. f_equal. lia.
  - rewrite message_line_Ok, bind_Ok_l by (try done; apply Hit; left).
    rewrite IH, bind_Ok_l by (try done; intros; apply Hit; by right). f_equal.
    f_equal; [by rewrite Z.sub_0_r|]. apply list_fmap_ext. intros k x _. simpl. f_equal. lia.
Qed.

(** A pane with a window of a usable size. *)
Definition open_pane (u : ui) (id h w : Z) : Prop :=
  ∃ win, pane_window u id = Some win ∧ getmaxy (Some win) = h ∧ getmaxx (Some win) = w ∧
    0 ≤ h ≤ INT_MAX ∧ 0 ≤ w ≤ INT_MAX.

(** Once a scroll offset exceeds the length of what its pane shows, drawing the
    pane advances an iterator past the end. *)
Lemma drawing_beyond_ub wd :
  (Z.of_nat (length (list_entries (app wd) (current_chatlist (app wd)))) < scroll (app wd) ID_SIDE →
   draw_side wd = ub) ∧
  (chosen_chat_id (app wd) ≠ -1 →
   Z.of_nat (length (history (app wd) (chosen_chat_id (app wd)))) < scroll (app wd) ID_MAIN →
   draw_main wd = ub).
Proof.
  split.
  - intros Hlt. unfold draw_side. by rewrite advance_beyond.
  - intros Hc Hlt. unfold draw_main. rewrite (proj2 (Z.eqb_neq _ _)) by done.
    by rewrite advance_beyond.
Qed.

(** ** Properties of drawing *)

Lemma draw_side_Ok wd h w :
  open_pane (screen wd) ID_SIDE h w →
  chat_list_inv (app wd) →
  (∀ id c, id_to_chat (app wd) !! id = Some c → short (title_ c)) →
  let entries := list_entries (app wd) (current_chatlist (app wd)) in
  let offset := scroll (app wd) ID_SIDE in
  let text k := side_row_text (id_to_chat (app wd)) w (entries !! (Z.to_nat offset + k)%nat) in
  0 ≤ offset ≤ Z.of_nat (length entries) →
  ∃ rows, draw_side wd = Ok (on_screen (draw rows) wd) ∧
    written (pane_window (screen wd) ID_SIDE) rows =
      (λ k : nat, (Z.of_nat k, text k)) <$> seq 0 (length entries `min` Z.to_nat h) ∧
    ∀ k, string_size (text k) ≤ w.
Proof.
  intros (win & Hwin & Hh & Hw & Hh0 & Hw0) Hinv Hshort entries offset text Hoff.
  unfold draw_side. fold entries offset. rewrite Hwin, Hh, Hw.
  rewrite advance_Ok, bind_Ok_l by done.
  destruct (side_rows_spec (id_to_chat (app wd)) (chosen_chat_id (app wd)) (Some win) w
    (Z.to_nat (Z.min (Z.of_nat (length entries)) (u64 h))) 0 (drop (Z.to_nat offset) entries))
    as (rows & -> & Hrows); [done| |].
  { intros [o id] Hp. simpl.
    assert (Hin : (o, id) ∈ entries) by (by eapply elem_of_sublist, sublist_drop).
    destruct (listed_known _ _ _ _ Hinv Hin) as [c Hc]. eauto. }
  rewrite bind_Ok_l. exists rows. split; [done|]. split.
  - rewrite Hrows. rewrite u64_small by (unfold INT_MAX, two64 in *; lia).
    replace (Z.to_nat (Z.min (Z.of_nat (length entries)) h))
      with (length entries `min` Z.to_nat h)%nat by lia.
    apply list_fmap_ext. intros k x _. unfold text. by rewrite lookup_drop.
  - intros k. by apply side_row_text_size.
Qed.

(** Drawing the chat list of a well-formed state, scrolled by no more than its
    length, writes the rows 0, 1, ... up to the height of the pane or the length
    of the list, in this order: row [k] shows, in at most [w] bytes, the title of
    the [k]-th chat from the scroll position on, or blanks behind the last. It
    changes nothing but the screen. *)
Theorem draw_side_shows_list wd h w :
  open_pane (screen wd) ID_SIDE h w →
  chat_list_inv (app wd) →
  (∀ id c, id_to_chat (app wd) !! id = Some c → short (title_ c)) →
  let entries := list_entries (app wd) (current_chatlist (app wd)) in
  let offset := scroll (app wd) ID_SIDE in
  let text k := side_row_text (id_to_chat (app wd)) w (entries !! (Z.to_nat offset + k)%nat) in
  0 ≤ offset ≤ Z.of_nat (length entries) →
  ∃ rows, draw_side wd = Ok (on_screen (draw rows) wd) ∧
    written (pane_window (screen wd) ID_SIDE) rows =
      (λ k : nat, (Z.of_nat k, text k)) <$> seq 0 (length entries `min` Z.to_nat h) ∧
    ∀ k, string_size (text k) ≤ w.
Proof. apply draw_side_Ok. Qed.

Lemma draw_main_Ok wd h w :
  open_pane (screen wd) ID_MAIN h w → chosen_chat_id (app wd) ≠ -1 →
  let displayed := history (app wd) (chosen_chat_id (app wd)) in
  let offset := scroll (app wd) ID_MAIN in
  (∀ m, m ∈ displayed → short_message m) →
  0 ≤ offset ≤ Z.of_nat (length displayed) →
  let win := pane_window (screen wd) ID_MAIN in
  draw_main wd = Ok (on_screen (draw
    (((λ k : nat, mvwaddstr win (h - 1 - Z.of_nat k) 0
                    (main_row_text w (displayed !! (Z.to_nat offset + k)%nat)))
        <$> seq 0 (Z.to_nat h)) ++ [wnoutrefresh win])) wd).
Proof.
  intros (win & Hwin & Hh & Hw & Hh0 & Hw0) Hchosen displayed offset Hshort Hoff.
  unfold draw_main. fold displayed offset. rewrite Hwin, Hh, Hw.
  rewrite (proj2 (Z.eqb_neq _ _)) by done.
  rewrite advance_Ok, bind_Ok_l by done.
  rewrite (proj2 (Z.ltb_ge h 0)) by lia.
  rewrite main_rows_spec, bind_Ok_l; [|done|].
  - do 4 f_equal. apply list_fmap_ext. intros k x _.
    by rewrite lookup_drop.
  - intros m Hm. apply Hshort. by eapply elem_of_sublist, sublist_drop.
Qed.

(** A text is padded and cut to the width of the row, in bytes. *)
Lemma cut_nul_app a b : cut_nul a = a → cut_nul (a +:+ b) = (a +:+ cut_nul b)%string.
Proof.
  induction a as [|c a IH]; simpl; [done|]. destruct (char_code c =? 0); [done|].
  intros [= E]. exact (f_equal (String c) (IH E)).
Qed.

Lemma cut_nul_substring n t : cut_nul t = t → cut_nul (String.substring 0 n t) = String.substring 0 n t.
Proof.
  revert n. induction t as [|c t IH]; intros [|n]; simpl; try done.
  destruct (char_code c =? 0); [done|]. intros [= E]. f_equal. auto.
Qed.

Lemma cut_nul_spaces n : cut_nul (repeat_char n space) = repeat_char n space.
Proof. induction n as [|n IH]; simpl; [done|]. change (char_code space =? 0) with false. by rewrite IH. Qed.

(** A text without zero bytes, which would end it for curses. *)
Definition plain_message (m : message) : Prop :=
  match content_ m with messageText t => cut_nul t = t | messageOther _ => True end.

#[global] Instance plain_message_dec m : Decision (plain_message m).
Proof. unfold plain_message. destruct (content_ m); apply _. Defined.

Lemma main_row_text_size width m :
  7 ≤ width ≤ INT_MAX → (∀ x, m = Some x → plain_message x) →
  string_size (main_row_text width m) = width.
Proof.
  unfold INT_MAX. intros Hw Hm. destruct m as [m|]; simpl.
  2: { unfold blank_row, string_size. rewrite length_repeat_char. lia. }
  specialize (Hm m eq_refl). unfold plain_message, message_text in *. destruct (content_ m) as [t|t].
  - unfold padded. set (full := (t +:+ _)%string).
    assert (cut_nul full = full) as Hfull by (subst full; by rewrite cut_nul_app, cut_nul_spaces).
    assert (cut_nul (string_prefix full width) = string_prefix full width) as ->
      by (unfold string_prefix; by apply cut_nul_substring).
    rewrite string_size_prefix by (unfold two64; lia). subst full.
    unfold string_size. rewrite length_string_app, length_repeat_char. lia.
  - rewrite cut_nul_app, cut_nul_spaces by done. unfold string_size.
    rewrite length_string_app, length_repeat_char. simpl. lia.
Qed.

(** C39. Drawing the messages of the chosen chat, scrolled by no more than their number, in
    an open pane, where the texts have at most [INT_MAX] bytes: nothing fails, and the
    calls made are one [mvwaddstr] for each row, from the bottom up, and a refresh. For
    the row [k] lines above the bottom it writes the [k]-th newest message from the
    scroll position on, the text padded with spaces and cut to the width of the pane (a
    placeholder, padded but not cut, for other contents), or blanks when there is no
    such message. The string has exactly as many bytes as the row has columns if the
    pane has at least the seven columns of the placeholder and the texts have no zero
    bytes. What curses makes of the string is not part of this: a newline or a character
    of several bytes in a text does not take one column, and a placeholder that is
    longer than the row wraps. *)
Theorem draw_main_shows_messages wd h w :
  open_pane (screen wd) ID_MAIN h w → chosen_chat_id (app wd) ≠ -1 →
  let displayed := history (app wd) (chosen_chat_id (app wd)) in
  let offset := scroll (app wd) ID_MAIN in
  (∀ m, m ∈ displayed → short_message m) →
  0 ≤ offset ≤ Z.of_nat (length displayed) →
  let win := pane_window (screen wd) ID_MAIN in
  draw_main wd = Ok (on_screen (draw
    (((λ k : nat, mvwaddstr win (h - 1 - Z.of_nat k) 0
                    (main_row_text w (displayed !! (Z.to_nat offset + k)%nat)))
        <$> seq 0 (Z.to_nat h)) ++ [wnoutrefresh win])) wd) ∧
  (7 ≤ w → (∀ m, m ∈ displayed → plain_message m) →
   ∀ k : nat, string_size (main_row_text w (displayed !! k)) = w).
Proof.
  intros Hpane Hchosen displayed offset Hshort Hoff win. split; [by apply draw_main_Ok|].
  intros H7 Hplain k. destruct Hpane as (_ & _ & _ & _ & _ & Hw).
  apply main_row_text_size; [lia|]. intros x Hx. apply Hplain. by eapply list_elem_of_lookup_2.
Qed.

End facts.
