(* ===== verification/ProcessInput.v ===== *)
(** * Keys and the mouse ([src/src/process_input.h], [src/src/process_input.cc])

    [process_input] handles one key; the two panes that take keys share the code
    of [h], [l], [G], [g] and [o], which the source repeats. *)
From S2P Require Import Prelude EventQueue StdSet TdApi AppState ChatList Messages.
From S2P Require Import TgClient Curses Layout.

Definition S_NONE : Z := 0.
Definition S_MOUSE_DRAG : Z := 1.
Definition S_KEY_PREF : Z := 2.

(** [MEVENT] *)
Record MEVENT := { mouse_x : Z; mouse_y : Z; bstate : Z }.

(** What one [getch] delivers: the key, what [getmouse] would give ([None] unless
    it returns [OK]), and the size of the terminal from then on. *)
Record key_event := { key : Z; mouse : option MEVENT; terminal : Z * Z }.

(** Characters, and [CTRL(c)]. *)
Definition CTRL (c : Z) : Z := Z.land c 31.
Definition ch_G : Z := 71.
Definition ch_g : Z := 103.
Definition ch_h : Z := 104.
Definition ch_j : Z := 106.
Definition ch_k : Z := 107.
Definition ch_l : Z := 108.
Definition ch_o : Z := 111.
Definition ch_q : Z := 113.
Definition ch_tab : Z := 9.

Definition input_reset (i : input_state_str) : input_state_str :=
  {| state := S_NONE; edge := edge i; where_ := where_ i; pref_key := pref_key i |}.

Section input.
Context `{ChatListIds, Env, Curses}.

Definition set_input (f : input_state_str → input_state_str) (u : ui) : ui :=
  assign_input_state (f (input_state u)) u.

(** ** The mouse *)

(** Which pane or edge the pointer is on: edge, where. *)
Definition pointed_at (u : ui) (x y : Z) : bool * Z :=
  if y <? LINES u - composer_h u - 1 then
    if x <? side_w u then (false, ID_SIDE)
    else if side_w u <? x then (false, ID_MAIN)
    else (true, ID_E_SIDE_MAIN)
  else if LINES u - composer_h u - 1 <? y then (false, ID_COMP)
  else if x =? side_w u then (true, ID_C_SIDE_MAIN_COMP)
  else (true, ID_E_COMP_TOP).

Definition process_B1_pressed (ev : MEVENT) (u : ui) : ui :=
  let '(e, wh) := pointed_at u (mouse_x ev) (mouse_y ev) in
  let u := set_input (λ i, {| state := state i; edge := e; where_ := wh;
                              pref_key := pref_key i |}) u in
  if e then set_input (λ i, {| state := S_MOUSE_DRAG; edge := edge i; where_ := where_ i;
                               pref_key := pref_key i |}) u
  else set_input input_reset u.

(** The sizes a drag to the pointer asks for. *)
Definition dragged_sizes (ev : MEVENT) (u : ui) : Z * Z :=
  let wh := where_ (input_state u) in
  (if negb (Z.land wh ID_E_SIDE_MAIN =? 0) then mouse_x ev else side_w u,
   if negb (Z.land wh ID_E_COMP_TOP =? 0) then LINES u - mouse_y ev - 1 else composer_h u).

(** The redraw around [resize]. *)
Definition redraw_resized (new_side_w new_composer_h : Z) (w : world) : outcome world :=
  let w := on_screen (draw [curs_set 0]) w in
  w ← resize new_side_w new_composer_h w;
  let w := on_screen (draw [update_panels]) w in
  let w := on_screen draw_cursor w in
  Ok (on_screen (draw [doupdate; curs_set 1]) w).

Definition process_mouse (ev : MEVENT) (w : world) : outcome world :=
  if negb (Z.land (bstate ev) BUTTON1_PRESSED =? 0) then
    Ok (on_screen (process_B1_pressed ev) w)
  else if negb (Z.land (bstate ev) BUTTON1_RELEASED =? 0) then
    Ok (on_screen (set_input input_reset) w)
  else if negb (Z.land (bstate ev) REPORT_MOUSE_POSITION =? 0) then
    if state (input_state (screen w)) =? S_MOUSE_DRAG then
      let '(sw, ch) := dragged_sizes ev (screen w) in redraw_resized sw ch w
    else Ok w
  else Ok w.

(** ** Keys of the panes *)

(** [draw_cursor(); wnoutrefresh(...); doupdate();] *)
Definition finish_key (w : world) : world :=
  let w := on_screen draw_cursor w in
  on_screen (λ u, draw [wnoutrefresh (pane_window u (current_pan u)); doupdate] u) w.

Definition pane_rows (w : world) : Z := getmaxy (pane_window (screen w) (current_pan (screen w))).
Definition pane_cols (w : world) : Z := getmaxx (pane_window (screen w) (current_pan (screen w))).
Definition pane_cursor (w : world) : Z * Z := cursor (screen w) (current_pan (screen w)).
Definition set_pane_cursor (pos : Z * Z) : world → world :=
  on_screen (λ u, assign_cursor (current_pan u) pos u).
Definition pane_scroll (w : world) : Z := scroll (app w) (current_pan (screen w)).
Definition set_pane_scroll (n : Z) (w : world) : world :=
  on_app (λ s, assign_scroll_offset (<[current_pan (screen w) := n]> (scroll_offset s)) s) w.
(** [position_sets[current_chatlist].size()] *)
Definition list_size (w : world) : Z :=
  Z.of_nat (length (list_entries (app w) (current_chatlist (app w)))).

(** The largest scroll offset for [size] entries in [maxy] rows, in [size_t]. *)
Definition max_offset (maxy size : Z) : Z := u64 (Z.max (u64 maxy) size - u64 maxy).

Definition key_h (w : world) : outcome world :=
  let pos := pane_cursor w in
  Ok (finish_key (set_pane_cursor (pos.1, Z.max (pos.2 - 1) 0) w)).

Definition key_l (w : world) : outcome world :=
  let pos := pane_cursor w in
  Ok (finish_key (set_pane_cursor (pos.1, Z.min (pos.2 + 1) (pane_cols w - 1)) w)).

Definition side_j (w : world) : outcome world :=
  let pos := pane_cursor w in
  let maxy := pane_rows w in
  w ← (if maxy - 1 <=? pos.1 then
         let w := set_pane_cursor (maxy - 1, pos.2) w in
         draw_side (set_pane_scroll
           (Z.min (max_offset maxy (list_size w)) (u64 (pane_scroll w + 1))) w)
       else Ok (set_pane_cursor (pos.1 + 1, pos.2) w));
  Ok (finish_key w).

Definition side_k (w : world) : outcome world :=
  let pos := pane_cursor w in
  w ← (if pos.1 <=? 0 then
         let w := set_pane_cursor (0, pos.2) w in
         draw_side (set_pane_scroll (Z.max 1 (pane_scroll w) - 1) w)
       else Ok (set_pane_cursor (pos.1 - 1, pos.2) w));
  Ok (finish_key w).

Definition key_G (w : world) : outcome world :=
  let maxy := pane_rows w in
  let w := set_pane_cursor (maxy - 1, (pane_cursor w).2) w in
  w ← draw_side (set_pane_scroll (max_offset maxy (list_size w)) w);
  Ok (finish_key w).

Definition key_g (w : world) : outcome world :=
  let i := input_state (screen w) in
  if state i =? S_KEY_PREF then
    w ← (if pref_key i =? ch_g then
           let w := set_pane_scroll 0 w in
           let w := set_pane_cursor (0, (pane_cursor w).2) w in
           w ← draw_side w;
           Ok (finish_key w)
         else Ok w);
    Ok (on_screen (set_input input_reset) w)
  else
    Ok (on_screen (set_input (λ i, {| state := S_KEY_PREF; edge := edge i; where_ := where_ i;
                                      pref_key := ch_g |})) w).

(** The chat under the cursor becomes the chosen one and its history is
    requested. The case falls through to the next, which does nothing. *)
Definition key_o (w : world) : outcome world :=
  let index := u64 (pane_scroll w + (pane_cursor w).1) in
  if index <? list_size w then
    it ← advance (list_entries (app w) (current_chatlist (app w))) index;
    p ← deref (head it);
    let w := on_app (assign_chosen_chat_id p.2) w in
    w ← draw_side w;
    let w := on_net (get_chat_history (chosen_chat_id (app w))) w in
    Ok (finish_key w)
  else Ok w.

Definition main_j (w : world) : outcome world :=
  let pos := pane_cursor w in
  let maxy := pane_rows w in
  w ← (if maxy - 1 <=? pos.1 then
         let w := set_pane_cursor (maxy - 1, pos.2) w in
         draw_main (set_pane_scroll (Z.max 1 (pane_scroll w) - 1) w)
       else Ok (set_pane_cursor (pos.1 + 1, pos.2) w));
  Ok (finish_key w).

Definition main_k (w : world) : outcome world :=
  let pos := pane_cursor w in
  w ← (if pos.1 <=? 0 then
         let w := set_pane_cursor (0, pos.2) w in
         let maxy := pane_rows w in
         let size := Z.of_nat (length (history (app w) (chosen_chat_id (app w)))) in
         draw_main (set_pane_scroll
           (Z.min (max_offset maxy size) (u64 (pane_scroll w + 1))) w)
       else Ok (set_pane_cursor (pos.1 - 1, pos.2) w));
  Ok (finish_key w).

(** The second [switch] of [process_input]. *)
Definition side_key (c : Z) (w : world) : outcome world :=
  if c =? ch_h then key_h w
  else if c =? ch_j then side_j w
  else if c =? ch_k then side_k w
  else if c =? ch_l then key_l w
  else if c =? ch_G then key_G w
  else if c =? ch_g then key_g w
  else if c =? ch_o then key_o w
  else Ok w.

Definition main_key (c : Z) (w : world) : outcome world :=
  if c =? ch_h then key_h w
  else if c =? ch_j then main_j w
  else if c =? ch_k then main_k w
  else if c =? ch_l then key_l w
  else if c =? ch_G then key_G w
  else if c =? ch_g then key_g w
  else if c =? ch_o then key_o w
  else Ok w.

(** ** [process_input] *)

(** [current_pan <<= 1; if (current_pan > ID_COMP) current_pan = 1;] *)
Definition cycle_pane (u : ui) : ui :=
  let p := Z.shiftl (current_pan u) 1 in
  assign_current_pan (if ID_COMP <? p then 1 else p) u.

(** The first [switch]; also the new value of [cont]. *)
Definition global_key (ev : key_event) (w : world) (cont : bool) : outcome (world * bool) :=
  let c := key ev in
  if c =? KEY_MOUSE then
    match mouse ev with
    | Some m => w ← process_mouse m w; Ok (w, cont)
    | None => Ok (w, cont)
    end
  else if c =? KEY_RESIZE then
    w ← redraw_resized (side_w (screen w)) (composer_h (screen w)) w;
    Ok (w, cont)
  else if c =? CTRL ch_q then
    Ok (on_app (set_terminating true) w, false)
  else if c =? ch_tab then
    let w := on_screen cycle_pane w in
    let w := on_screen draw_cursor w in
    Ok (on_screen (draw [doupdate]) w, cont)
  else Ok (w, cont).

Definition assign_terminal (sz : Z * Z) (u : ui) : ui :=
  {| LINES := sz.1; COLS := sz.2; side_w := side_w u; composer_h := composer_h u;
     current_pan := current_pan u; cursor_positions := cursor_positions u;
     panels := panels u; input_state := input_state u; calls := calls u |}.

Definition process_input (ev : key_event) (w : world) (cont : bool) : outcome (world * bool) :=
  let w := on_screen (assign_terminal (terminal ev)) w in
  '(w, cont) ← global_key ev w cont;
  w ← (if current_pan (screen w) =? ID_SIDE then side_key (key ev) w
       else if current_pan (screen w) =? ID_MAIN then main_key (key ev) w
       else Ok w);
  Ok (w, cont).
End input.
