(* ===== verification/MainLoop.v ===== *)
(** * The program ([src/src/chatcurse.cc])

    The options, the start of the user interface, and the loop that handles one
    key and one event per round. *)
From S2P Require Import Prelude EventQueue StdSet TdApi AppState ChatList Messages.
From S2P Require Import TgClient Curses Layout ProcessInput.

(** ** Options *)
Record options := { opt_debug : bool; opt_attach : bool; opt_test_dc : bool; opt_logout : bool }.
Definition no_options : options :=
  {| opt_debug := false; opt_attach := false; opt_test_dc := false; opt_logout := false |}.

(** One argument; [None] when the program exits with "invalid options". *)
Definition parse_option (o : options) (arg : string) : option options :=
  if bool_decide (arg = "--debug"%string) then
    Some {| opt_debug := true; opt_attach := opt_attach o; opt_test_dc := opt_test_dc o;
            opt_logout := opt_logout o |}
  else if bool_decide (arg = "--attach"%string) then
    Some {| opt_debug := opt_debug o; opt_attach := true; opt_test_dc := opt_test_dc o;
            opt_logout := opt_logout o |}
  else if bool_decide (arg = "--use-test-dc"%string) then
    Some {| opt_debug := opt_debug o; opt_attach := opt_attach o; opt_test_dc := true;
            opt_logout := opt_logout o |}
  else if bool_decide (arg = "--logout"%string) then
    Some {| opt_debug := opt_debug o; opt_attach := opt_attach o; opt_test_dc := opt_test_dc o;
            opt_logout := true |}
  else None.

Fixpoint parse_options (o : options) (args : list string) : option options :=
  match args with
  | [] => Some o
  | a :: args => o ← parse_option o a; parse_options o args
  end.

Section main.
Context `{ChatListIds, Env, Curses}.

(** ** Start of the user interface, after [init_auth] *)
Definition start_ui (w : world) : outcome world :=
  let w := on_screen init_config w in
  w ← init_layout w;
  let chat_list_size := getmaxy (pane_window (screen w) ID_SIDE) in
  Ok (on_net (init_data chat_list_size) w).

(** ** Events *)
Definition redraw_side (w : world) : outcome world :=
  let w := on_screen (draw [curs_set 0]) w in
  w ← draw_side w;
  let w := on_screen (draw [update_panels]) w in
  let w := on_screen draw_cursor w in
  Ok (on_screen (draw [doupdate; curs_set 1]) w).

Definition handle_event (e : event) (w : world) (cont : bool) : outcome (world * bool) :=
  match e with
  | event_quit => Ok (on_app (set_terminating true) w, false)
  | event_resize sw ch => w1 ← redraw_resized sw ch w; Ok (w1, cont)
  | event_chatlist => w ← redraw_side w; Ok (w, cont)
  | event_cycle_panel =>
      let w := on_screen cycle_pane w in
      let w := on_screen draw_cursor w in
      Ok (on_screen (draw [doupdate]) w, cont)
  | event_messages _ =>
      w ← draw_main w;
      let w := on_screen draw_cursor w in
      Ok (on_screen (draw [doupdate]) w, cont)
  end.

(** [event_queue.pop_and_get()] *)
Definition pop_event (w : world) : outcome (option event * world) :=
  '(e, q) ← pop_and_get (event_queue (sh (net w)));
  Ok (e, on_net (on_sh (λ h, {| app_state := app_state h; event_queue := q |})) w).

(** ** One round, and the loop *)
Definition ui_round (ev : key_event) (w : world) : outcome (world * bool) :=
  '(w, cont) ← process_input ev w true;
  '(to_update, w) ← pop_event w;
  match to_update with
  | None => Ok (w, cont)
  | Some e => handle_event e w cont
  end.

(** The loop with the keys [getch] delivers in turn; [false] when it has ended,
    [true] when it waits for the next key. Between two rounds the other thread
    may change the shared state: [between]. *)
Fixpoint main_loop (between : nat → shared → shared) (n : nat) (evs : list key_event)
    (w : world) : outcome (world * bool) :=
  match evs with
  | [] => Ok (w, true)
  | ev :: evs =>
      r ← ui_round ev w;
      if r.2 : bool then main_loop between (S n) evs (on_net (on_sh (between n)) r.1)
      else Ok (r.1, false)
  end.
End main.
