(* ===== verification/InputFacts.v ===== *)
(** * Properties of the keys, the mouse and the main loop *)
From S2P Require Import Prelude EventQueue StdSet TdApi AppState ChatList Messages.
From S2P Require Import QrSegment StdString TgClient TgClientFacts Curses Layout.
From S2P Require Import LayoutFacts ProcessInput MainLoop.

Section facts.
Context `{ChatListIds, Env, Curses}.

(** ** The mouse and the layout *)

(** The border windows; the other three are panes. *)
Definition is_border (id : Z) : bool := (id =? ID_E_SIDE_MAIN) || (id =? ID_C_SIDE_MAIN_COMP).

(** A button press is attributed to the window that covers the pointer: to the
    pane itself, or, on a border, to the edge, the corner being both edges. *)
Theorem pointed_at_agrees_with_layout u x y id r :
  (id, r) ∈ rectangles u → covers r y x →
  0 < side_w u → 0 < composer_h u →
  pointed_at u x y =
    (is_border id,
     if id =? ID_C_SIDE_MAIN_COMP
     then if x =? side_w u then Z.lor ID_E_SIDE_MAIN ID_E_COMP_TOP else ID_E_COMP_TOP
     else id).
Proof.
  rewrite elem_of_rectangles. intros Hr Hcov Hs Hc. unfold pointed_at.
  destruct_or! Hr; destruct Hr as [-> ->]; simpl in Hcov;
    repeat (if_true || if_false); try done.
  by destruct (x =? side_w u).
Qed.

(** ** The invariant of the user interface *)

(** A pane with a usable window and the cursor inside it. *)
Definition pane_ok (u : ui) (id : Z) : Prop :=
  ∃ h w, open_pane u id h w ∧ 0 < h ∧ 0 < w ∧
    0 ≤ (cursor u id).1 < h ∧ 0 ≤ (cursor u id).2 < w.

Definition ui_inv (w : world) : Prop :=
  (∀ id, id ∈ [ID_SIDE; ID_MAIN; ID_COMP] → pane_ok (screen w) id) ∧
  current_pan (screen w) ∈ [ID_SIDE; ID_MAIN; ID_COMP] ∧
  chat_list_inv (app w) ∧
  (∀ id c, id_to_chat (app w) !! id = Some c → short (title_ c)) ∧
  0 ≤ scroll (app w) ID_SIDE ≤ list_size w ∧ list_size w ≤ INT_MAX.

(** Drawing and refreshing do not matter for the invariant. *)
Lemma ui_inv_draw l w : ui_inv w → ui_inv (on_screen (draw l) w).
Proof. intros Hinv. exact Hinv. Qed.
Lemma ui_inv_finish w : ui_inv w → ui_inv (finish_key w).
Proof. intros Hinv. exact Hinv. Qed.

Lemma ui_inv_draw_side w : ui_inv w → ∃ rows, draw_side w = Ok (on_screen (draw rows) w).
Proof.
  intros (Hp & _ & Hl & Hs & Hsc & _). destruct (Hp ID_SIDE) as (h & c & Ho & _); [set_solver|].
  destruct (draw_side_Ok w h c Ho Hl Hs Hsc) as (rows & Hrun & _). eauto.
Qed.

Lemma draw_side_inv w : ui_inv w → ∃ w', draw_side w = Ok w' ∧ ui_inv w' ∧ net w' = net w.
Proof.
  intros Hinv. destruct (ui_inv_draw_side w Hinv) as [rows Hrun].
  exists (on_screen (draw rows) w). by split_and!.
Qed.

Lemma cursor_assign u id pos id' :
  cursor (assign_cursor id pos u) id' = if decide (id = id') then pos else cursor u id'.
Proof. apply get_or_insert. Qed.

(** Moving the cursor of the current pane inside its window. *)
Lemma ui_inv_cursor pos w :
  ui_inv w → 0 ≤ pos.1 < pane_rows w → 0 ≤ pos.2 < pane_cols w →
  ui_inv (set_pane_cursor pos w).
Proof.
  intros (Hp & Hcur & Hrest) H1' H2'. split; [|split; [exact Hcur|exact Hrest]].
  intros id Hid. destruct (Hp id Hid) as (h & c & Ho & Hh & Hc & Hy & Hx).
  exists h, c. split; [exact Ho|]. simpl. rewrite cursor_assign.
  case_decide as Hd; [|done]. destruct Ho as (win & Hw & Hgh & Hgc & _).
  unfold pane_rows, pane_cols in *. rewrite Hd, Hw in *. split_and!; lia.
Qed.

Lemma scroll_assign w n id :
  scroll (app (set_pane_scroll n w)) id =
    if decide (current_pan (screen w) = id) then n else scroll (app w) id.
Proof. apply get_or_insert. Qed.

Lemma ui_inv_scroll n w :
  ui_inv w → (current_pan (screen w) = ID_SIDE → 0 ≤ n ≤ list_size w) →
  ui_inv (set_pane_scroll n w).
Proof.
  intros (Hp & Hcur & Hl & Hs & Hsc & Hsz) Hn.
  split; [exact Hp|]. split; [exact Hcur|]. split.
  { eapply chat_list_inv_eq; [..|exact Hl]; done. }
  split; [exact Hs|]. split; [|exact Hsz].
  rewrite scroll_assign. case_decide; [by apply Hn|exact Hsc].
Qed.

(** The current pane's window and cursor. *)
Lemma current_pane_ok w :
  ui_inv w → 0 < pane_rows w ≤ INT_MAX ∧ 0 < pane_cols w ≤ INT_MAX ∧
    0 ≤ (pane_cursor w).1 < pane_rows w ∧ 0 ≤ (pane_cursor w).2 < pane_cols w.
Proof.
  intros (Hp & Hcur & _). destruct (Hp _ Hcur) as (h & c & (win & Hw & Hgh & Hgc & ? & ?) & ? & ? & ? & ?).
  unfold pane_rows, pane_cols, pane_cursor. rewrite Hw, Hgh, Hgc. split_and!; lia.
Qed.

Lemma max_offset_small maxy size :
  0 ≤ maxy ≤ INT_MAX → 0 ≤ size ≤ INT_MAX → max_offset maxy size = Z.max 0 (size - maxy).
Proof.
  unfold max_offset, INT_MAX. intros Hm Hs.
  rewrite (u64_small maxy) by (unfold two64; lia).
  rewrite u64_small by (unfold two64; lia). lia.
Qed.

(** ** Keys in the chat list *)

(** The index in the list of the row under the cursor. *)
Definition selected (w : world) : Z := scroll (app w) ID_SIDE + (cursor (screen w) ID_SIDE).1.

Section side.
Context (w : world) (Hinv : ui_inv w) (Hside : current_pan (screen w) = ID_SIDE).
#[local] Set Default Proof Using "Hinv Hside".

Lemma side_facts :
  0 < pane_rows w ≤ INT_MAX ∧ 0 < pane_cols w ≤ INT_MAX ∧
  0 ≤ (pane_cursor w).1 < pane_rows w ∧ 0 ≤ (pane_cursor w).2 < pane_cols w ∧
  0 ≤ scroll (app w) ID_SIDE ≤ list_size w ∧ 0 ≤ list_size w ≤ INT_MAX.
Proof.
  destruct (current_pane_ok w Hinv) as (? & ? & ? & ?).
  destruct Hinv as (_ & _ & _ & _ & Hsc & Hsz).
  split_and!; try lia; unfold list_size; lia.
Qed.

Lemma side_scroll_step pos n :
  0 ≤ pos.1 < pane_rows w → 0 ≤ pos.2 < pane_cols w → 0 ≤ n ≤ list_size w →
  ∃ w', draw_side (set_pane_scroll n (set_pane_cursor pos w)) = Ok w' ∧ ui_inv (finish_key w') ∧
    scroll (app w') ID_SIDE = n ∧ cursor (screen w') ID_SIDE = pos.
Proof.
  intros H1' H2' Hn.
  assert (Hi : ui_inv (set_pane_scroll n (set_pane_cursor pos w))).
  { apply ui_inv_scroll; [by apply ui_inv_cursor|]. intros _. exact Hn. }
  destruct (ui_inv_draw_side _ Hi) as [rows ->].
  eexists. split; [done|]. split; [by apply ui_inv_finish|]. split.
  - etransitivity; [apply (scroll_assign (set_pane_cursor pos w))|].
    by rewrite decide_True.
  - etransitivity; [apply cursor_assign|]. by rewrite decide_True.
Qed.

Lemma side_move_step pos :
  0 ≤ pos.1 < pane_rows w → 0 ≤ pos.2 < pane_cols w →
  ui_inv (finish_key (set_pane_cursor pos w)) ∧
  scroll (app (finish_key (set_pane_cursor pos w))) ID_SIDE = scroll (app w) ID_SIDE ∧
  cursor (screen (finish_key (set_pane_cursor pos w))) ID_SIDE = pos.
Proof.
  intros H1' H2'. split; [by apply ui_inv_finish, ui_inv_cursor|]. split; [done|].
  etransitivity; [apply cursor_assign|]. by rewrite decide_True.
Qed.

Lemma pane_scroll_side : pane_scroll w = scroll (app w) ID_SIDE.
Proof. unfold pane_scroll. by rewrite Hside. Qed.
Lemma pane_cursor_side : pane_cursor w = cursor (screen w) ID_SIDE.
Proof. unfold pane_cursor. by rewrite Hside. Qed.

(** [j] and [k] keep the interface well formed and move the selection by one row,
    scrolling when the cursor is at the edge of the pane; [j] stops where the last
    page is shown, [k] at the first chat. *)
Lemma side_j_spec :
  ∃ w', side_j w = Ok w' ∧ ui_inv w' ∧
    (scroll (app w) ID_SIDE ≤ Z.max 0 (list_size w - pane_rows w) →
     selected w' = selected w + 1 ∨
     (selected w' = selected w ∧ list_size w - pane_rows w ≤ scroll (app w) ID_SIDE ∧
      (cursor (screen w) ID_SIDE).1 = pane_rows w - 1)).
Proof.
  destruct side_facts as (Hr & Hc & Hy & Hx & Hsc & Hsz).
  unfold side_j. cbv zeta. unfold selected. rewrite <-pane_cursor_side.
  destruct (pane_rows w - 1 <=? (pane_cursor w).1) eqn:E; zbool.
  - change (list_size (set_pane_cursor _ w)) with (list_size w).
    change (pane_scroll (set_pane_cursor _ w)) with (pane_scroll w).
    rewrite pane_scroll_side, max_offset_small by lia.
    rewrite (u64_small (scroll _ _ + 1)) by (unfold INT_MAX, two64 in *; lia).
    destruct (side_scroll_step (pane_rows w - 1, (pane_cursor w).2)
      (Z.min (Z.max 0 (list_size w - pane_rows w)) (scroll (app w) ID_SIDE + 1)))
      as (w' & Hrun & Hi & Hs' & Hc'); [simpl; lia|simpl; lia|lia|].
    rewrite Hrun, bind_Ok_l. exists (finish_key w'). split; [done|]. split; [done|].
    intros Hle. change (scroll (app (finish_key w')) ID_SIDE) with (scroll (app w') ID_SIDE).
    change (cursor (screen (finish_key w')) ID_SIDE) with (cursor (screen w') ID_SIDE).
    rewrite Hs', Hc'. simpl. lia.
  - rewrite bind_Ok_l.
    destruct (side_move_step ((pane_cursor w).1 + 1, (pane_cursor w).2)) as (Hi & Hs' & Hc');
      [simpl; lia|simpl; lia|].
    eexists. split; [done|]. split; [done|]. intros _. rewrite Hs', Hc'. simpl. lia.
Qed.

Lemma side_k_spec :
  ∃ w', side_k w = Ok w' ∧ ui_inv w' ∧
    (selected w' = selected w - 1 ∨ (selected w' = selected w ∧ selected w = 0)).
Proof.
  destruct side_facts as (Hr & Hc & Hy & Hx & Hsc & Hsz).
  unfold side_k. cbv zeta. unfold selected. rewrite <-pane_cursor_side.
  destruct ((pane_cursor w).1 <=? 0) eqn:E; zbool.
  - change (pane_scroll (set_pane_cursor _ w)) with (pane_scroll w).
    rewrite pane_scroll_side.
    destruct (side_scroll_step (0, (pane_cursor w).2) (Z.max 1 (scroll (app w) ID_SIDE) - 1))
      as (w' & Hrun & Hi & Hs' & Hc'); [simpl; lia|simpl; lia|lia|].
    rewrite Hrun, bind_Ok_l. exists (finish_key w'). split; [done|]. split; [done|].
    change (scroll (app (finish_key w')) ID_SIDE) with (scroll (app w') ID_SIDE).
    change (cursor (screen (finish_key w')) ID_SIDE) with (cursor (screen w') ID_SIDE).
    rewrite Hs', Hc'. simpl. lia.
  - rewrite bind_Ok_l.
    destruct (side_move_step ((pane_cursor w).1 - 1, (pane_cursor w).2)) as (Hi & Hs' & Hc');
      [simpl; lia|simpl; lia|].
    eexists. split; [done|]. split; [done|]. rewrite Hs', Hc'. simpl. lia.
Qed.

Lemma key_h_inv : ui_inv (finish_key (set_pane_cursor
  ((pane_cursor w).1, Z.max ((pane_cursor w).2 - 1) 0) w)).
Proof.
  destruct side_facts as (Hr & Hc & Hy & Hx & _).
  apply side_move_step; simpl; lia.
Qed.
Lemma key_l_inv : ui_inv (finish_key (set_pane_cursor
  ((pane_cursor w).1, Z.min ((pane_cursor w).2 + 1) (pane_cols w - 1)) w)).
Proof.
  destruct side_facts as (Hr & Hc & Hy & Hx & _).
  apply side_move_step; simpl; lia.
Qed.

Lemma key_G_spec :
  ∃ w', key_G w = Ok w' ∧ ui_inv w' ∧
    scroll (app w') ID_SIDE = Z.max 0 (list_size w - pane_rows w) ∧
    (cursor (screen w') ID_SIDE).1 = pane_rows w - 1.
Proof.
  destruct side_facts as (Hr & Hc & Hy & Hx & Hsc & Hsz).
  unfold key_G. cbv zeta. change (list_size (set_pane_cursor _ w)) with (list_size w).
  rewrite max_offset_small by lia.
  destruct (side_scroll_step (pane_rows w - 1, (pane_cursor w).2)
    (Z.max 0 (list_size w - pane_rows w))) as (w' & Hrun & Hi & Hs' & Hc');
    [simpl; lia|simpl; lia|lia|].
  rewrite Hrun, bind_Ok_l. exists (finish_key w'). split; [done|]. split; [done|].
  split; [exact Hs'|]. change (cursor (screen (finish_key w')) ID_SIDE) with (cursor (screen w') ID_SIDE).
  by rewrite Hc'.
Qed.

Lemma key_g_inv : ∃ w', key_g w = Ok w' ∧ ui_inv w'.
Proof.
  destruct side_facts as (Hr & Hc & Hy & Hx & Hsc & Hsz).
  unfold key_g. destruct (state _ =? S_KEY_PREF); [|by eexists].
  destruct (pref_key _ =? ch_g); [|by eexists].
  cbv zeta.
  assert (Hi : ui_inv (set_pane_cursor (0, (pane_cursor w).2) (set_pane_scroll 0 w))).
  { apply ui_inv_cursor; [apply ui_inv_scroll; [done|lia]| |];
      change (pane_rows (set_pane_scroll 0 w)) with (pane_rows w);
      change (pane_cols (set_pane_scroll 0 w)) with (pane_cols w); simpl; lia. }
  destruct (ui_inv_draw_side _ Hi) as [rows Hrows].
  change (pane_cursor (set_pane_scroll 0 w)) with (pane_cursor w).
  rewrite Hrows, !bind_Ok_l. eexists. split; [done|]. exact Hi.
Qed.
End side.

Lemma get_chat_history_out id s :
  ∃ q, out (get_chat_history id s) =
    out s ++ [IoSend (client_id_ (tg s)) q (getChatHistory id 0 0 100 false)].
Proof.
  unfold get_chat_history, send_query. simpl.
  destruct (last _); destruct (handlers_ (tg s) !! _); simpl; eauto.
Qed.

Lemma get_chat_history_sh id s : sh (get_chat_history id s) = sh s.
Proof.
  unfold get_chat_history, send_query. simpl.
  by destruct (last _); destruct (handlers_ (tg s) !! _).
Qed.

Lemma ui_inv_sh w1 w2 :
  screen w1 = screen w2 → sh (net w1) = sh (net w2) → ui_inv w2 → ui_inv w1.
Proof. unfold ui_inv, app, list_size. unfold app. intros -> ->. done. Qed.

Lemma ui_inv_chosen id w : ui_inv w → ui_inv (on_app (assign_chosen_chat_id id) w).
Proof.
  intros (Hp & Hcur & Hl & Hrest). split; [exact Hp|]. split; [exact Hcur|].
  split; [|exact Hrest]. eapply chat_list_inv_eq; [..|exact Hl]; done.
Qed.

Lemma key_o_spec w :
  ui_inv w → current_pan (screen w) = ID_SIDE →
  match list_entries (app w) (current_chatlist (app w)) !! Z.to_nat (selected w) with
  | Some (_, id) => ∃ w' q, key_o w = Ok w' ∧ ui_inv w' ∧ chosen_chat_id (app w') = id ∧
      app w' = assign_chosen_chat_id id (app w) ∧
      out (net w') = out (net w) ++
        [IoSend (client_id_ (tg (net w))) q (getChatHistory id 0 0 100 false)]
  | None => key_o w = Ok w
  end.
Proof.
  intros Hinv Hside. destruct (side_facts w Hinv Hside) as (Hr & Hc & Hy & Hx & Hsc & Hsz).
  unfold key_o, selected. cbv zeta. rewrite pane_scroll_side, pane_cursor_side in * by done.
  set (sel := scroll (app w) ID_SIDE + (cursor (screen w) ID_SIDE).1) in *.
  rewrite (u64_small sel) by (unfold sel, INT_MAX, two64 in *; lia).
  set (entries := list_entries (app w) (current_chatlist (app w))).
  assert (Hls : list_size w = Z.of_nat (length entries)) by done. rewrite Hls.
  destruct (entries !! Z.to_nat sel) as [[o id]|] eqn:Hlk.
  - apply lookup_lt_Some in Hlk as Hlt.
    rewrite (proj2 (Z.ltb_lt _ _)) by (unfold sel in *; lia).
    rewrite advance_Ok, bind_Ok_l by (unfold sel in *; lia).
    rewrite head_lookup, lookup_drop, Nat.add_0_r, Hlk.
    change (deref (Some (o, id))) with (Ok (o, id)). rewrite bind_Ok_l. cbn [snd].
    set (w1 := on_app (assign_chosen_chat_id id) w).
    assert (Hi1 : ui_inv w1) by by apply ui_inv_chosen.
    destruct (ui_inv_draw_side _ Hi1) as [rows ->]. rewrite bind_Ok_l.
    set (w2 := on_screen (draw rows) w1).
    destruct (get_chat_history_out id (net w2)) as [q Hq].
    eexists _, q. split; [done|].
    change (chosen_chat_id (app w2)) with id. split_and!.
    + apply ui_inv_finish. apply (ui_inv_sh _ w2); [done|apply get_chat_history_sh|exact Hi1].
    + unfold app. simpl. by rewrite get_chat_history_sh.
    + unfold app. simpl. by rewrite get_chat_history_sh.
    + exact Hq.
  - apply lookup_ge_None in Hlk. by rewrite (proj2 (Z.ltb_ge _ _)) by (unfold sel in *; lia).
Qed.

Lemma key_o_app w :
  ui_inv w → current_pan (screen w) = ID_SIDE →
  match list_entries (app w) (current_chatlist (app w)) !! Z.to_nat (selected w) with
  | Some (_, id) => ∃ w', key_o w = Ok w' ∧ app w' = assign_chosen_chat_id id (app w)
  | None => True
  end.
Proof.
  intros Hinv Hside. pose proof (key_o_spec w Hinv Hside) as Ho.
  destruct (_ !! _) as [[o id]|]; [|done].
  destruct Ho as (w' & q & Hrun & _ & _ & Happ & _). by exists w'.
Qed.

(** ** Properties *)

(** C38. Every key typed in the chat list is handled without undefined behaviour and
    keeps the interface well formed: windows usable, cursors inside their panes,
    the list scrolled by no more than its length. *)
Theorem side_keys_are_safe c w :
  ui_inv w → current_pan (screen w) = ID_SIDE →
  ∃ w', side_key c w = Ok w' ∧ ui_inv w'.
Proof.
  intros Hinv Hside. unfold side_key.
  destruct (c =? ch_h); [eexists; split; [done|by apply key_h_inv]|].
  destruct (c =? ch_j); [destruct (side_j_spec w Hinv Hside) as (w' & ? & ? & _); eauto|].
  destruct (c =? ch_k); [destruct (side_k_spec w Hinv Hside) as (w' & ? & ? & _); eauto|].
  destruct (c =? ch_l); [eexists; split; [done|by apply key_l_inv]|].
  destruct (c =? ch_G); [destruct (key_G_spec w Hinv Hside) as (w' & ? & ? & _); eauto|].
  destruct (c =? ch_g); [by apply key_g_inv|].
  destruct (c =? ch_o); [|by eexists].
  pose proof (key_o_spec w Hinv Hside) as Ho. destruct (_ !! _) as [[o id]|]; [|by eexists].
  destruct Ho as (w' & q & ? & ? & _). eauto.
Qed.

(** [j] and [k] move the selected row of the chat list by exactly one, scrolling
    when the cursor is at the edge of the pane; [j] stops on the last page, [k]
    at the first chat. *)
Theorem side_scrolling_moves_selection w :
  ui_inv w → current_pan (screen w) = ID_SIDE →
  (∃ w', side_key ch_j w = Ok w' ∧
     (scroll (app w) ID_SIDE ≤ Z.max 0 (list_size w - pane_rows w) →
      selected w' = selected w + 1 ∨
      (selected w' = selected w ∧ list_size w - pane_rows w ≤ scroll (app w) ID_SIDE))) ∧
  (∃ w', side_key ch_k w = Ok w' ∧
     (selected w' = selected w - 1 ∨ (selected w' = selected w ∧ selected w = 0))).
Proof.
  intros Hinv Hside.
  destruct (side_j_spec w Hinv Hside) as (w1 & Hj & _ & Hs1).
  destruct (side_k_spec w Hinv Hside) as (w2 & Hk & _ & Hs2).
  split; [exists w1|exists w2]; (split; [done|]); [|done].
  intros Hle. destruct (Hs1 Hle) as [?|(? & ? & _)]; [by left|by right].
Qed.

(** [o] chooses the chat displayed in the row under the cursor and asks for its
    newest messages; below the last chat it does nothing. *)
Theorem o_opens_the_chat_under_the_cursor w :
  ui_inv w → current_pan (screen w) = ID_SIDE →
  match list_entries (app w) (current_chatlist (app w)) !! Z.to_nat (selected w) with
  | Some (_, id) => ∃ w' q, side_key ch_o w = Ok w' ∧ chosen_chat_id (app w') = id ∧
      out (net w') = out (net w) ++
        [IoSend (client_id_ (tg (net w))) q (getChatHistory id 0 0 100 false)]
  | None => side_key ch_o w = Ok w
  end.
Proof.
  intros Hinv Hside. pose proof (key_o_spec w Hinv Hside) as Ho.
  change (side_key ch_o w) with (key_o w).
  destruct (_ !! _) as [[o id]|]; [|done]. destruct Ho as (w' & q & ? & _ & ? & _ & ?). eauto.
Qed.

(** C40. Ctrl-Q ends both loops: the UI loop is told to stop, and the thread that
    receives responses returns before it handles another one. *)
Theorem ctrl_q_stops_both_loops ev w :
  ui_inv w → key ev = CTRL ch_q →
  ∃ w', process_input ev w true = Ok (w', false) ∧
    ∀ rs, set_response_handlers rs (net w') = Ok (net w').
Proof.
  intros Hinv Hkey. unfold process_input, global_key. rewrite Hkey.
  change (CTRL ch_q) with 17.
  rewrite (proj2 (Z.eqb_neq 17 KEY_MOUSE)) by (pose proof KEY_MOUSE_large; lia).
  rewrite (proj2 (Z.eqb_neq 17 KEY_RESIZE)) by (pose proof KEY_RESIZE_large; lia).
  cbn [Z.eqb Pos.eqb]. rewrite bind_Ok_l.
  set (w1 := on_app _ _).
  assert (Ht : ∀ rs, set_response_handlers rs (net w1) = Ok (net w1)) by (intros []; done).
  change (side_key 17 w1) with (Ok w1). change (main_key 17 w1) with (Ok w1).
  exists w1. destruct (current_pan (screen w1) =? ID_SIDE); [done|].
  by destruct (current_pan (screen w1) =? ID_MAIN).
Qed.

(** In the message pane [G] scrolls by the number of chats, not of messages: with
    more chats beyond the rows of the pane than messages, the next drawing of the
    pane runs past the end of the messages. *)
Theorem main_G_scrolls_past_the_messages w w' :
  ui_inv w → current_pan (screen w) = ID_MAIN → chosen_chat_id (app w) ≠ -1 →
  Z.of_nat (length (history (app w) (chosen_chat_id (app w)))) < list_size w - pane_rows w →
  main_key ch_G w = Ok w' → draw_main w' = ub.
Proof.
  intros Hinv Hmain Hchosen Hlt Hrun.
  destruct (current_pane_ok w Hinv) as (Hr & _ & _ & _).
  destruct Hinv as (_ & _ & _ & _ & _ & Hsz).
  change (main_key ch_G w) with (key_G w) in Hrun. unfold key_G in Hrun. cbv zeta in Hrun.
  apply bind_Ok in Hrun as (w1 & Hdraw & Hfin). apply (inj Ok) in Hfin as <-.
  unfold draw_side in Hdraw. apply bind_Ok in Hdraw as (pos & _ & Hdraw).
  apply bind_Ok in Hdraw as (rows & _ & Hdraw). apply (inj Ok) in Hdraw as <-.
  apply drawing_beyond_ub; [exact Hchosen|].
  change (list_size (set_pane_cursor _ w)) with (list_size w).
  rewrite max_offset_small by (unfold list_size in *; lia).
  rewrite Z.max_r by (unfold list_size in *; lia).
  eapply Z.lt_le_trans; [exact Hlt|].
  apply Z.eq_le_incl. symmetry.
  etransitivity; [apply (scroll_assign (set_pane_cursor (pane_rows w - 1, (pane_cursor w).2) w))|].
  by rewrite decide_True.
Qed.

(** ** Resizing *)

(** The message pane can be drawn. *)
Definition main_ok (w : world) : Prop :=
  chosen_chat_id (app w) = -1 ∨
  (0 ≤ scroll (app w) ID_MAIN ≤ Z.of_nat (length (history (app w) (chosen_chat_id (app w)))) ∧
   ∀ m, m ∈ history (app w) (chosen_chat_id (app w)) → short_message m).

Lemma ui_inv_draw_main w :
  ui_inv w → main_ok w → ∃ l, draw_main w = Ok (on_screen (draw l) w).
Proof.
  intros (Hp & _) [Hc|[Hsc Hshort]].
  - exists []. unfold draw_main. rewrite Hc. simpl. f_equal.
    destruct w as [n [? ? ? ? ? ? ? ? l]]. unfold on_screen, draw. simpl. by rewrite app_nil_r.
  - destruct (decide (chosen_chat_id (app w) = -1)) as [Hc|Hc].
    { exists []. unfold draw_main. rewrite Hc. simpl. f_equal.
      destruct w as [n [? ? ? ? ? ? ? ? l]]. unfold on_screen, draw. simpl. by rewrite app_nil_r. }
    destruct (Hp ID_MAIN) as (h & c & Ho & _); [set_solver|].
    eexists. exact (draw_main_Ok w h c Ho Hc Hshort Hsc).
Qed.

Lemma ui_inv_fill w :
  ui_inv w → main_ok w → ∃ l, fill w = Ok (on_screen (draw l) w).
Proof.
  intros Hinv Hm. destruct (ui_inv_draw_main w Hinv Hm) as [l1 Hl1].
  unfold fill. rewrite Hl1, bind_Ok_l.
  destruct (ui_inv_draw_side _ (ui_inv_draw l1 w Hinv)) as [l2 ->]. rewrite bind_Ok_l.
  exists (l1 ++ l2). unfold draw_composer, on_screen, draw. simpl. by rewrite app_assoc.
Qed.

(** The geometry and the cursors a resize leaves. *)
Definition resized (sw ch : Z) (u : ui) : ui :=
  foldl clamp_cursor
    (draw (delwin <$> (pane_window u <$> [ID_SIDE; ID_MAIN; ID_COMP; ID_E_SIDE_MAIN;
                                          ID_C_SIDE_MAIN_COMP]))
       (make_windows (assign_sizes sw ch u)))
    [ID_SIDE; ID_MAIN; ID_COMP].

Lemma pane_window_clamp u id id' : pane_window (clamp_cursor u id) id' = pane_window u id'.
Proof. done. Qed.

Lemma cursor_clamp u id id' :
  cursor (clamp_cursor u id) id' =
    if decide (id = id')
    then (Z.min (cursor u id).1 (getmaxy (pane_window u id) - 1),
          Z.min (cursor u id).2 (getmaxx (pane_window u id) - 1))
    else cursor u id'.
Proof. unfold clamp_cursor. apply cursor_assign. Qed.

Lemma resized_pane sw ch u id h w y x :
  proper (assign_sizes sw ch u) → LINES u ≤ INT_MAX → COLS u ≤ INT_MAX →
  id ∈ [ID_SIDE; ID_MAIN; ID_COMP] →
  (id, (h, w, y, x)) ∈ rectangles (assign_sizes sw ch u) →
  0 ≤ (cursor u id).1 → 0 ≤ (cursor u id).2 →
  pane_ok (resized sw ch u) id.
Proof.
  intros Hp Hl Hc Hid Hr Hy Hx.
  destruct (rectangles_inside _ _ _ _ _ _ Hp Hr) as (? & ? & ? & ? & ? & ?). simpl in *.
  destruct (make_windows_size _ _ _ _ _ _ Hp Hr) as (win & Hw & Hgh & Hgc).
  exists h, w. split; [exists win; split_and!; (done || lia)|].
  split_and!; [done|done|..]; unfold resized; simpl;
    set (v := draw _ (make_windows _));
    assert (Hv : pane_window v id = Some win) by done;
    assert (Hcur : cursor v id = cursor u id) by done; clearbody v.
  all: rewrite !cursor_clamp, !pane_window_clamp.
  all: rewrite !elem_of_cons in Hid; destruct Hid as [->|[->|[->|Hid]]]; [..|set_solver].
  all: repeat (rewrite decide_True by done || rewrite decide_False by done).
  all: rewrite Hv, Hcur, ?Hgh, ?Hgc; simpl; lia.
Qed.

Lemma resized_sizes sw ch u :
  side_w (resized sw ch u) = sw ∧ composer_h (resized sw ch u) = ch ∧
  current_pan (resized sw ch u) = current_pan u.
Proof. done. Qed.

Lemma resize_accepted sw ch w :
  sw < COLS (screen w) → ch < LINES (screen w) →
  resize sw ch w =
    w ← fill (on_screen draw_border (on_screen (λ _, resized sw ch (screen w)) w));
    Ok (on_screen (draw [update_panels]) (on_screen draw_cursor w)).
Proof. intros Hs Hc. unfold resize. by do 2 if_false. Qed.
#[local] Opaque resized.

(** A resize to sizes that leave no window empty makes the windows anew, pulls
    the cursors inside them, and redraws; sizes not smaller than the terminal are
    ignored. *)
Theorem resize_keeps_panes_usable sw ch w :
  ui_inv w → main_ok w → LINES (screen w) ≤ INT_MAX → COLS (screen w) ≤ INT_MAX →
  (COLS (screen w) ≤ sw ∨ LINES (screen w) ≤ ch → resize sw ch w = Ok w) ∧
  (proper (assign_sizes sw ch (screen w)) →
   ∃ w', resize sw ch w = Ok w' ∧ ui_inv w' ∧ main_ok w' ∧
     side_w (screen w') = sw ∧ composer_h (screen w') = ch ∧ net w' = net w).
Proof.
  intros Hinv Hm Hl Hc. split.
  { intros [Hle|Hle]; unfold resize; [by if_true|].
    destruct (COLS (screen w) <=? sw); [done|by if_true]. }
  intros Hp. pose proof Hp as [[? ?] [? ?]]. simpl in *.
  rewrite resize_accepted by lia.
  assert (Hres : ∃ u, u = resized sw ch (screen w) ∧ side_w u = sw ∧ composer_h u = ch ∧
            current_pan u = current_pan (screen w) ∧
            ∀ id, id ∈ [ID_SIDE; ID_MAIN; ID_COMP] → pane_ok u id).
  { exists (resized sw ch (screen w)). split; [done|].
    destruct (resized_sizes sw ch (screen w)) as (Hsw & Hch & Hpan). split_and!; try done.
    intros id Hid. destruct Hinv as (Hpanes & _).
    destruct (Hpanes id Hid) as (h & c & _ & _ & _ & [Hy _] & [Hx _]).
    assert (∃ h1 w2 y1 x1 : Z, (id, (h1, w2, y1, x1)) ∈ rectangles (assign_sizes sw ch (screen w)))
      as (h' & w' & y' & x' & Hr).
    { setoid_rewrite elem_of_rectangles. rewrite !elem_of_cons in Hid.
      destruct Hid as [->|[->|[->|Hid]]]; [..|set_solver]; eauto 10. }
    by eapply resized_pane. }
  destruct Hres as (u & <- & Hsw & Hch & Hpan & Hpanes).
  set (w1 := on_screen draw_border _).
  assert (Hi1 : ui_inv w1).
  { destruct Hinv as (_ & Hcur & Hrest). split; [exact Hpanes|]. split; [|exact Hrest].
    simpl. by rewrite Hpan. }
  destruct (ui_inv_fill w1 Hi1 Hm) as [l ->]. rewrite bind_Ok_l.
  eexists. by split.
Qed.

(** The scroll offset of the message pane is kept when another chat is chosen:
    if that chat has fewer messages than the pane is scrolled by, the drawing its
    history triggers runs past the end of the messages. *)
Theorem choosing_a_shorter_chat_is_undefined o id w cont :
  ui_inv w → current_pan (screen w) = ID_SIDE → id ≠ -1 →
  list_entries (app w) (current_chatlist (app w)) !! Z.to_nat (selected w) = Some (o, id) →
  Z.of_nat (length (history (app w) id)) < scroll (app w) ID_MAIN →
  ∃ w', side_key ch_o w = Ok w' ∧ handle_event (event_messages id) w' cont = ub.
Proof.
  intros Hinv Hside Hne Hlk Hlt. pose proof (key_o_app w Hinv Hside) as Ho. rewrite Hlk in Ho.
  destruct Ho as (w' & Hrun & Happ). exists w'. split; [exact Hrun|].
  unfold handle_event. rewrite (proj2 (drawing_beyond_ub w')); [done|..]; rewrite Happ; done.
Qed.
End facts.

(** ** Examples *)
Section examples.
#[local] Existing Instance scheme_ids.
#[local] Existing Instance example_env.
#[local] Existing Instance geometry_curses.

(** Two chats in the main list, on a terminal of 8 rows and 40 columns. *)
Definition new_chat (id order : Z) (title : string) : Response :=
  {| request_id := 0; object := Some (updateNewChat
       {| c_id := id; title_ := title; last_message_ := None;
          positions_ := [{| list_ := chatListMain; order_ := order |}];
          chat_lists_ := [chatListMain] |}) |}.
Definition two_chats : list Response := [new_chat 7 5 "Alice"; new_chat 8 4 "Bob"].

Definition run_or (s : session) (rs : list Response) : session :=
  match ofold (λ s r, process_response r s) s rs with Ok s' => s' | Fault _ => s end.

Definition example_session : session := run_or (example_start false []) two_chats.

Lemma example_session_shared : shared_inv (sh example_session).
Proof.
  apply (handles_shared (example_start false []) two_chats).
  - apply new_client_shared, empty_queue_wf.
  - eapply handles_cons; [apply (bool_decide_unpack _); vm_compute; exact I|reflexivity|].
    eapply handles_cons; [apply (bool_decide_unpack _); vm_compute; exact I|reflexivity|].
    apply handles_nil.
Qed.

Definition blank_ui : ui :=
  {| LINES := 8; COLS := 40; side_w := 0; composer_h := 0; current_pan := 0;
     cursor_positions := ∅; panels := ∅;
     input_state := {| state := 0; edge := false; where_ := 0; pref_key := 0 |};
     calls := [] |}.

Definition example_world : world :=
  match start_ui {| net := example_session; screen := blank_ui |} with
  | Ok w => w
  | Fault _ => {| net := example_session; screen := blank_ui |}
  end.

(** The invariant, for a concrete screen over the session's state. *)
Lemma example_ui_inv w :
  chat_list_inv (app w) →
  bool_decide (map_Forall (λ _ c, string_size (title_ c) ≤ INT_MAX) (id_to_chat (app w))) = true →
  bool_decide (Forall (λ id,
    is_Some (pane_window (screen w) id) ∧
    0 < getmaxy (pane_window (screen w) id) ≤ INT_MAX ∧
    0 < getmaxx (pane_window (screen w) id) ≤ INT_MAX ∧
    0 ≤ (cursor (screen w) id).1 < getmaxy (pane_window (screen w) id) ∧
    0 ≤ (cursor (screen w) id).2 < getmaxx (pane_window (screen w) id))
    [ID_SIDE; ID_MAIN; ID_COMP]) = true →
  bool_decide (current_pan (screen w) ∈ [ID_SIDE; ID_MAIN; ID_COMP] ∧
    0 ≤ scroll (app w) ID_SIDE ≤ list_size w ∧ list_size w ≤ INT_MAX) = true →
  ui_inv w.
Proof.
  intros Hl Ht Hp Hs. apply bool_decide_eq_true in Ht, Hp, Hs.
  destruct Hs as (Hcur & Hs). rewrite Forall_forall in Hp.
  split; [|split; [exact Hcur|split; [exact Hl|split; [|exact Hs]]]].
  - intros id Hid. destruct (Hp id Hid) as ([win Hw] & ? & ? & ? & ?).
    rewrite Hw in *. eexists _, _. split; [exists win; split_and!; (done || lia)|].
    split_and!; lia.
  - intros id c Hc. by apply (Ht id c).
Qed.

Lemma example_world_inv : ui_inv example_world.
Proof.
  apply example_ui_inv; [|vm_compute; reflexivity..].
  eapply (chat_list_inv_eq (app_state (sh example_session)));
    [vm_compute; reflexivity..|apply example_session_shared].
Qed.

#[local] Opaque example_world.

Definition press (c : Z) : key_event := {| key := c; mouse := None; terminal := (8, 40) |}.

(** Pressing keys in turn. *)
Definition type_keys (cs : list Z) (w : world) : world :=
  match ofold (λ w c, '(w, _) ← process_input (press c) w true; Ok w) w cs with
  | Ok w' => w'
  | Fault _ => w
  end.

Lemma panes_tile_the_screen_witness :
  proper (init_config blank_ui) ∧
  ∃ win, pane_window (make_windows (init_config blank_ui)) ID_MAIN = Some win ∧
    getmaxy (Some win) = 6 ∧ getmaxx (Some win) = 29.
Proof.
  destruct (panes_tile_the_screen blank_ui) as [Hp _].
  assert (Hok : proper (init_config blank_ui)) by (apply Hp; vm_compute; split; discriminate).
  split; [exact Hok|].
  destruct (panes_tile_the_screen (init_config blank_ui)) as [_ Hw].
  destruct (Hw Hok) as [Hwin _]. apply (Hwin ID_MAIN 6 29 0 11). vm_compute. right. left.
Defined.

Lemma draw_side_shows_list_witness :
  ∃ rows, draw_side example_world = Ok (on_screen (draw rows) example_world) ∧
    snd <$> written (pane_window (screen example_world) ID_SIDE) rows =
      ["Alice     "; "Bob       "]%string.
Proof.
  destruct example_world_inv as (_ & _ & Hl & Hs & Hsc & _).
  assert (Ho : open_pane (screen example_world) ID_SIDE 6 10).
  { exists (6, 10, 0, 0). split; [vm_compute; reflexivity|]. vm_compute. repeat split; discriminate. }
  destruct (draw_side_shows_list example_world 6 10 Ho Hl Hs Hsc) as (rows & Hrun & Hrows & _).
  exists rows. split; [exact Hrun|]. rewrite Hrows. vm_compute. reflexivity.
Defined.

(** The first chat opened, with seven messages. *)
Definition seven : messages_object :=
  {| total_count_ := 7; messages_ := (λ i, Some (msg i i)) <$> [7; 6; 5; 4; 3; 2; 1] |}.
Definition with_history (w : world) : world :=
  on_net (on_sh (λ h, match process_get_chat_history seven h with Ok h' => h' | _ => h end)) w.
Definition opened : world := with_history (type_keys [ch_o] example_world).

Lemma draw_main_shows_messages_witness :
  (∃ calls, draw_main opened = Ok (on_screen (draw calls) opened) ∧
    calls !! 0%nat = Some (mvwaddstr (pane_window (screen opened) ID_MAIN) 5 0
                             "hi                           ")) ∧
  string_size (main_row_text 29 (history (app opened) (chosen_chat_id (app opened)) !! 2%nat)) = 29.
Proof.
  assert (Ho : open_pane (screen opened) ID_MAIN 6 29).
  { exists (6, 29, 0, 11). split; [vm_compute; reflexivity|]. vm_compute. repeat split; discriminate. }
  destruct (draw_main_shows_messages opened 6 29 Ho) as [Hdraw Hsize].
  - vm_compute. discriminate.
  - apply Forall_forall, (bool_decide_unpack _). vm_compute. exact I.
  - vm_compute. split; discriminate.
  - split.
    + eexists. split; [exact Hdraw|]. vm_compute. reflexivity.
    + apply Hsize; [lia|]. apply Forall_forall, (bool_decide_unpack _). vm_compute. exact I.
Defined.

Lemma pointed_at_agrees_with_layout_witness :
  pointed_at (screen example_world) 10 3 = (true, ID_E_SIDE_MAIN).
Proof.
  apply (pointed_at_agrees_with_layout (screen example_world) 10 3 ID_E_SIDE_MAIN (6, 1, 0, 10));
    [vm_compute; do 3 right; left|vm_compute; repeat split; discriminate
    |vm_compute; reflexivity|vm_compute; reflexivity].
Defined.

Lemma side_keys_are_safe_witness : ∃ w', side_key ch_G example_world = Ok w' ∧ ui_inv w'.
Proof. apply side_keys_are_safe; [apply example_world_inv|vm_compute; reflexivity]. Defined.

Lemma side_scrolling_moves_selection_witness :
  ∃ w', side_key ch_j example_world = Ok w' ∧ (selected w' = 1 ∨ selected w' = 0).
Proof.
  destruct (side_scrolling_moves_selection example_world) as [(w' & Hrun & Hs) _];
    [apply example_world_inv|vm_compute; reflexivity|].
  exists w'. split; [exact Hrun|].
  destruct Hs as [Hs|[Hs _]]; [vm_compute; discriminate|left|right];
    rewrite Hs; vm_compute; reflexivity.
Defined.

Lemma o_opens_the_chat_under_the_cursor_witness :
  ∃ w', side_key ch_o example_world = Ok w' ∧ chosen_chat_id (app w') = 7.
Proof.
  pose proof (o_opens_the_chat_under_the_cursor example_world example_world_inv) as Ho.
  specialize (Ho ltac:(vm_compute; reflexivity)).
  assert (Hlk : list_entries (app example_world) (current_chatlist (app example_world))
                  !! Z.to_nat (selected example_world) = Some (5, 7)) by (vm_compute; reflexivity).
  rewrite Hlk in Ho. destruct Ho as (w' & q & Hrun & Hc & _). eauto.
Defined.

Lemma ctrl_q_stops_both_loops_witness :
  ∃ w', process_input (press (CTRL ch_q)) example_world true = Ok (w', false) ∧
    ∀ rs, set_response_handlers rs (net w') = Ok (net w').
Proof. apply ctrl_q_stops_both_loops; [apply example_world_inv|reflexivity]. Defined.

Lemma resize_keeps_panes_usable_witness :
  ∃ w', resize 20 2 example_world = Ok w' ∧ ui_inv w'.
Proof.
  destruct (resize_keeps_panes_usable 20 2 example_world example_world_inv) as [_ Hr];
    [left; vm_compute; reflexivity|vm_compute; discriminate|vm_compute; discriminate|].
  destruct Hr as (w' & Hrun & Hi & _); [apply (bool_decide_unpack _); vm_compute; exact I|].
  exists w'. split; [exact Hrun|exact Hi].
Defined.

(** The first chat's messages scrolled up by one, the cursor back in the list on
    the second chat, which has no messages yet. *)
Definition scrolled : world :=
  type_keys [ch_tab; ch_k; ch_tab; ch_tab; ch_j] opened.

Lemma scrolled_inv : ui_inv scrolled.
Proof.
  apply example_ui_inv; [|vm_compute; reflexivity..].
  eapply (chat_list_inv_eq (app_state (sh example_session)));
    [vm_compute; reflexivity..|apply example_session_shared].
Qed.

Lemma choosing_a_shorter_chat_is_undefined_witness :
  ∃ w', side_key ch_o scrolled = Ok w' ∧ handle_event (event_messages 8) w' true = ub.
Proof.
  apply (choosing_a_shorter_chat_is_undefined 4 8 scrolled true scrolled_inv);
    [vm_compute; reflexivity|discriminate|vm_compute; reflexivity|vm_compute; reflexivity].
Defined.

(** The message pane with one message, next to a list longer than the pane: the
    two chats and five more. *)
Definition many_chats : list Response :=
  two_chats ++ ((λ i, new_chat i 1 "C") <$> [11; 12; 13; 14; 15]).
Definition many_session : session := run_or (example_start false []) many_chats.
Definition crowded : world :=
  match start_ui {| net := many_session; screen := blank_ui |} with
  | Ok w => type_keys [ch_o; ch_tab] w
  | Fault _ => example_world
  end.

Definition crowded_after_G : world :=
  match main_key ch_G crowded with Ok w => w | Fault _ => crowded end.

Lemma many_session_shared : shared_inv (sh many_session).
Proof.
  apply (handles_shared (example_start false []) many_chats).
  - apply new_client_shared, empty_queue_wf.
  - unfold many_session, run_or.
    repeat (eapply handles_cons;
      [apply (bool_decide_unpack _); vm_compute; exact I|reflexivity|]).
    apply handles_nil.
Qed.

Lemma main_G_scrolls_past_the_messages_witness :
  ∃ w', main_key ch_G crowded = Ok w' ∧ draw_main w' = ub.
Proof.
  assert (Hinv : ui_inv crowded).
  { apply example_ui_inv; [|vm_compute; reflexivity..].
    eapply (chat_list_inv_eq (app_state (sh many_session)));
      [vm_compute; reflexivity..|apply many_session_shared]. }
  assert (Hrun : main_key ch_G crowded = Ok crowded_after_G) by (vm_compute; reflexivity).
  exists crowded_after_G. split; [exact Hrun|].
  apply (main_G_scrolls_past_the_messages crowded crowded_after_G Hinv);
    [vm_compute; reflexivity|vm_compute; discriminate|vm_compute; reflexivity|exact Hrun].
Defined.
End examples.
