(* ===== verification/Concurrency.v ===== *)
(** * The two threads and their locks

    The UI thread runs [main]'s loop, the other [set_response_handlers]. Their
    operations are modelled as the sequences of lock operations and of accesses
    to shared variables that the source makes, in its order. A configuration
    interleaves the threads one action at a time. *)
From S2P Require Import Prelude AppState.

(** ** Actions *)

(** The mutexes of [tl_app_state_struct::mutexes] and [q_mutex]. *)
Definition q_mutex : Z := 5.

Inductive variable :=
  | v_position_sets
  | v_id_to_position
  | v_id_to_chat
  | v_messages
  | v_directory        (* the maps of users and groups *)
  | v_chosen_chat_id
  | v_handlers         (* [handlers_] and [current_query_id_] *)
  | v_event_queue
  | v_terminating.

#[global] Instance variable_eq_dec : EqDecision variable.
Proof. solve_decision. Defined.

Inductive action :=
  | Acquire (l : Z)
  | Release (l : Z)
  | Read (v : variable)
  | Write (v : variable).

(** [std::lock_guard] around a body. *)
Definition guarded_by (l : Z) (body : list action) : list action :=
  Acquire l :: body ++ [Release l].

(** ** Operations of the source *)

(** [event_queue_struct::push] and [pop_and_get] *)
Definition s_push : list action := guarded_by q_mutex [Read v_event_queue; Write v_event_queue].
Definition s_pop : list action := guarded_by q_mutex [Read v_event_queue; Write v_event_queue].
Definition s_terminating : list action := guarded_by _id_terminating [Read v_terminating].
Definition s_set_terminating : list action := guarded_by _id_terminating [Write v_terminating].

Definition s_update_position : list action :=
  [Read v_id_to_position; Write v_id_to_position; Write v_position_sets].

(** The handlers that the receiving thread runs. *)
Inductive tg_op :=
  | tg_update_directory
  | tg_new_chat
  | tg_added_to_list
  | tg_chat_position
  | tg_last_message
  | tg_chat_history
  | tg_auth.

Definition s_handler (o : tg_op) : list action :=
  match o with
  | tg_update_directory => [Write v_directory]
  | tg_new_chat =>
      guarded_by _id_chatboxes
        ([Write v_id_to_position; Write v_position_sets] ++ s_update_position ++ s_push ++
         [Write v_id_to_chat])
  | tg_added_to_list =>
      guarded_by _id_chatboxes ([Write v_id_to_position; Write v_position_sets] ++ s_push)
  | tg_chat_position => guarded_by _id_chatboxes (s_update_position ++ s_push)
  | tg_last_message =>
      guarded_by _id_chatboxes
        ([Read v_id_to_chat; Write v_id_to_chat] ++ s_update_position ++ s_push)
  | tg_chat_history =>
      [Read v_handlers] ++ guarded_by _id_messages ([Write v_messages] ++ s_push) ++
      [Write v_handlers]
  | tg_auth => [Write v_handlers]
  end.

(** One iteration of [set_response_handlers]. *)
Definition s_tg (o : tg_op) : list action := s_terminating ++ s_handler o.

(** What the UI thread does in a round of its loop. *)
Inductive ui_op :=
  | ui_move               (* keys that move the cursor: h, l *)
  | ui_draw_side          (* k, gg and [ET_CHATLIST] *)
  | ui_draw_main          (* j in the message pane and [ET_MESSAGES] *)
  | ui_list_scroll        (* j, G: the list's size is read first *)
  | ui_main_scroll        (* k in the message pane: the number of messages *)
  | ui_open               (* o *)
  | ui_resize
  | ui_pop
  | ui_quit.

Definition s_draw_side : list action :=
  guarded_by _id_chatboxes [Read v_position_sets; Read v_id_to_chat; Read v_chosen_chat_id].
Definition s_draw_main : list action :=
  guarded_by _id_messages [Read v_chosen_chat_id; Read v_messages].
Definition s_get_chat_history : list action :=
  guarded_by _id_messages [Read v_messages; Write v_handlers].

Definition s_ui (o : ui_op) : list action :=
  match o with
  | ui_move => []
  | ui_draw_side => s_draw_side
  | ui_draw_main => s_draw_main
  | ui_list_scroll => [Read v_position_sets] ++ s_draw_side
  | ui_main_scroll => [Read v_chosen_chat_id; Read v_messages] ++ s_draw_main
  | ui_open =>
      [Read v_position_sets; Write v_chosen_chat_id] ++ s_draw_side ++ s_get_chat_history
  | ui_resize => s_draw_main ++ s_draw_side
  | ui_pop => s_pop
  | ui_quit => s_set_terminating
  end.

(** ** Interleavings *)

(** A thread: the locks it holds and what it has left to do. *)
Record thread := { held : list Z; todo : list action }.

Definition run_action (a : action) (rest : list action) (t : thread) : thread :=
  match a with
  | Acquire l => {| held := l :: held t; todo := rest |}
  | Release l => {| held := filter (λ l', l' ≠ l) (held t); todo := rest |}
  | Read _ | Write _ => {| held := held t; todo := rest |}
  end.

(** A lock can be taken when no thread holds it; the other actions are always
    possible. *)
Definition enabled (c : list thread) (a : action) : Prop :=
  match a with Acquire l => ∀ t, t ∈ c → l ∉ held t | _ => True end.

Inductive step : list thread → list thread → Prop :=
  | step_thread c i t a rest :
      c !! i = Some t → todo t = a :: rest → enabled c a →
      step c (<[i := run_action a rest t]> c).

Definition start_thread (s : list action) : thread := {| held := []; todo := s |}.

(** ** The locking discipline *)

(** The order in which locks are taken: a queue operation may be nested in any
    of the others. *)
Definition rank (l : Z) : Z := if l =? q_mutex then 1 else 0.

(** Locks are taken in increasing rank, released by their holder, and none is
    held at the end. *)
Fixpoint disciplined (h : list Z) (s : list action) : Prop :=
  match s with
  | [] => h = []
  | Acquire l :: s => Forall (λ l', rank l' < rank l) h ∧ disciplined (l :: h) s
  | Release l :: s => l ∈ h ∧ disciplined (filter (λ l', l' ≠ l) h) s
  | (Read _ | Write _) :: s => disciplined h s
  end.

(** Variable [v] is accessed under lock [l] only. *)
Fixpoint accesses_under (v : variable) (l : Z) (h : list Z) (s : list action) : Prop :=
  match s with
  | [] => True
  | Acquire l' :: s => accesses_under v l (l' :: h) s
  | Release l' :: s => accesses_under v l (filter (λ x, x ≠ l') h) s
  | (Read v' | Write v') :: s => (v' = v → l ∈ h) ∧ accesses_under v l h s
  end.

Definition accesses (v : variable) (a : action) : bool :=
  match a with Read v' | Write v' => bool_decide (v' = v) | _ => false end.
Definition writes (v : variable) (a : action) : bool :=
  match a with Write v' => bool_decide (v' = v) | _ => false end.

(** Two threads are about to access [v], one of them to write it. *)
Definition race (v : variable) (c : list thread) : Prop :=
  ∃ i j ti tj ai aj ri rj, i ≠ j ∧ c !! i = Some ti ∧ c !! j = Some tj ∧
    todo ti = ai :: ri ∧ todo tj = aj :: rj ∧
    accesses v ai = true ∧ writes v aj = true.

(** ** Generic facts *)

(** Every thread keeps to the discipline, and no lock has two holders. *)
Definition config_ok (c : list thread) : Prop :=
  (∀ t, t ∈ c → disciplined (held t) (todo t)) ∧
  ∀ i j ti tj l, c !! i = Some ti → c !! j = Some tj → l ∈ held ti → l ∈ held tj → i = j.

Lemma start_ok ss :
  Forall (disciplined []) ss → config_ok (start_thread <$> ss).
Proof.
  intros Hd. split.
  - intros t (s & -> & Hs)%list_elem_of_fmap. by apply (proj1 (Forall_forall _ _) Hd).
  - intros i j ti tj l Hi _ Hl _. apply list_lookup_fmap_Some in Hi as (s & -> & _).
    set_solver.
Qed.

Lemma run_action_disciplined a rest t :
  todo t = a :: rest → disciplined (held t) (todo t) →
  disciplined (held (run_action a rest t)) rest ∧ todo (run_action a rest t) = rest.
Proof. intros Ht. rewrite Ht. destruct a; simpl; tauto. Qed.

Lemma run_action_held a rest t l :
  l ∈ held (run_action a rest t) → l ∈ held t ∨ a = Acquire l.
Proof.
  destruct a; simpl; rewrite ?elem_of_cons, ?list_elem_of_filter; naive_solver.
Qed.

Lemma step_ok c c' : config_ok c → step c c' → config_ok c'.
Proof.
  intros [Hd Hx] Hstep. destruct Hstep as [c i t a rest Hi Ht Hen].
  assert (Hin : t ∈ c) by by eapply list_elem_of_lookup_2. split.
  - intros t' (j & Hj)%list_elem_of_lookup. rewrite list_lookup_insert in Hj.
    case_decide as Hij; simplify_eq.
    + destruct (run_action_disciplined a rest t Ht (Hd t Hin)) as [? ->]. done.
    + eapply Hd, list_elem_of_lookup_2, Hj.
  - assert (Hnew : ∀ j tj l, c !! j = Some tj → l ∈ held tj →
              l ∈ held (run_action a rest t) → i = j).
    { intros j tj l Hj Hl [Hl'| ->]%run_action_held; [by eapply Hx|].
      exfalso. apply (Hen tj); [by eapply list_elem_of_lookup_2|done]. }
    intros j k tj tk l. rewrite !list_lookup_insert.
    destruct (decide (i = j ∧ _)) as [[<- _]|_], (decide (i = k ∧ _)) as [[<- _]|_];
      intros Ej Ek Hlj Hlk; simplify_eq; [done|by eapply Hnew| |by eapply Hx].
    symmetry. by eapply Hnew.
Qed.

Lemma steps_ok c c' : config_ok c → rtc step c c' → config_ok c'.
Proof. intros Hok Hs. induction Hs; eauto using step_ok. Qed.

(** Freedom from deadlock: as long as a thread has something left to do, some
    thread can go on. *)
Lemma ok_progress c : config_ok c → (∃ t, t ∈ c ∧ todo t ≠ []) → ∃ c', step c c'.
Proof.
  intros [Hd Hx] (t0 & Hin0 & Hne0).
  (* some thread can step, or every unfinished thread waits for a lock held by a
     thread that waits for a lock of higher rank *)
  assert (Hwait : ∀ t a rest, t ∈ c → todo t = a :: rest →
            (∃ c', step c c') ∨ ∃ l, a = Acquire l ∧ ∃ u, u ∈ c ∧ l ∈ held u).
  { intros t a rest (i & Hi)%list_elem_of_lookup Ht.
    destruct a as [l|l|v|v];
      [|left; eexists; eapply step_thread; [exact Hi|exact Ht|exact I]..].
    destruct (decide (Exists (λ u, l ∈ held u) c)) as [He|He].
    - apply Exists_exists in He as (u & Hu & Hl). right. eauto.
    - left. eexists. eapply step_thread; [exact Hi|exact Ht|].
      intros u Hu Hl. apply He, Exists_exists. eauto. }
  assert (Hmain : ∀ n : nat, ∀ t a rest, t ∈ c → todo t = a :: rest →
            (∀ l, a = Acquire l → 1 - rank l < Z.of_nat n) → ∃ c', step c c').
  { induction n as [|n IH]; intros t a rest Hin Ht Hr;
      destruct (Hwait t a rest Hin Ht) as [?|(l & -> & u & Hu & Hl)]; try done.
    - specialize (Hr l eq_refl). unfold rank in Hr. case_match; lia.
    - pose proof (Hd u Hu) as Hdu.
      destruct (todo u) as [|b rest'] eqn:Hb.
      { simpl in Hdu. rewrite Hdu in Hl. set_solver. }
      eapply (IH u b rest' Hu Hb). intros l' ->. simpl in Hdu. destruct Hdu as [Hrank _].
      rewrite Forall_forall in Hrank. specialize (Hrank l Hl).
      specialize (Hr l eq_refl). lia. }
  destruct (todo t0) as [|a rest] eqn:Ht0; [done|].
  eapply (Hmain 2%nat t0 a rest Hin0 Ht0). intros l _. unfold rank. case_match; lia.
Qed.

(** Races are impossible on a variable that every thread accesses under one
    lock. *)
Definition protected (v : variable) (l : Z) (c : list thread) : Prop :=
  ∀ t, t ∈ c → accesses_under v l (held t) (todo t).

Lemma step_protected v l c c' : protected v l c → step c c' → protected v l c'.
Proof.
  intros Hp Hstep. destruct Hstep as [c i t a rest Hi Ht Hen].
  intros t' (j & Hj)%list_elem_of_lookup. rewrite list_lookup_insert in Hj.
  destruct (decide (i = j ∧ _)) as [[<- _]|_]; simplify_eq/=.
  - pose proof (Hp t ltac:(by eapply list_elem_of_lookup_2)) as Ha. rewrite Ht in Ha.
    destruct a; simpl in *; tauto.
  - by eapply Hp, list_elem_of_lookup_2.
Qed.

Lemma steps_protected v l c c' : protected v l c → rtc step c c' → protected v l c'.
Proof. intros Hp Hs. induction Hs; eauto using step_protected. Qed.

Lemma accesses_holds v l h a rest :
  accesses_under v l h (a :: rest) → accesses v a = true → l ∈ h.
Proof. destruct a; simpl; try done; intros [Hl _] Ha; apply bool_decide_eq_true in Ha; auto. Qed.

Lemma writes_accesses v a : writes v a = true → accesses v a = true.
Proof. by destruct a. Qed.

Lemma protected_no_race v l c : config_ok c → protected v l c → ¬ race v c.
Proof.
  intros [_ Hx] Hp (i & j & ti & tj & ai & aj & ri & rj & Hne & Hi & Hj & Hti & Htj & Hai & Haj).
  apply Hne. apply (Hx i j ti tj l Hi Hj).
  - eapply accesses_holds; [rewrite <-Hti; by eapply Hp, list_elem_of_lookup_2|done].
  - eapply accesses_holds; [rewrite <-Htj; by eapply Hp, list_elem_of_lookup_2|].
    by apply writes_accesses.
Qed.

(** ** The program's two threads *)

Definition tg_script (l : list tg_op) : list action := l ≫= s_tg.
Definition ui_script (l : list ui_op) : list action := l ≫= s_ui.

(** The UI thread and the receiving thread, doing any sequences of operations. *)
Definition program (us : list ui_op) (ts : list tg_op) : list thread :=
  start_thread <$> [ui_script us; tg_script ts].

Lemma disciplined_app s1 s2 : ∀ h,
  disciplined h s1 → disciplined [] s2 → disciplined h (s1 ++ s2).
Proof.
  induction s1 as [|a s1 IH]; intros h; simpl; [by intros ->|].
  destruct a; simpl; naive_solver.
Qed.

Lemma disciplined_bind {A} (f : A → list action) l :
  (∀ x, disciplined [] (f x)) → disciplined [] (l ≫= f).
Proof. intros Hf. induction l as [|x l IH]; [done|]. by apply disciplined_app. Qed.

#[global] Instance disciplined_dec h s : Decision (disciplined h s).
Proof. revert h. induction s as [|[] s IH]; intros h; simpl; apply _. Defined.

Lemma program_ok us ts : config_ok (program us ts).
Proof.
  apply start_ok. repeat constructor; apply disciplined_bind; intros o;
    apply (bool_decide_unpack _); by destruct o.
Qed.

Lemma accesses_under_app v l s1 s2 : ∀ h,
  disciplined h s1 → accesses_under v l h s1 → accesses_under v l [] s2 →
  accesses_under v l h (s1 ++ s2).
Proof.
  induction s1 as [|a s1 IH]; intros h; simpl; [by intros ->|].
  destruct a; simpl; try naive_solver.
Qed.

Lemma accesses_under_bind {A} v l (f : A → list action) xs :
  (∀ x, disciplined [] (f x)) → (∀ x, x ∈ xs → accesses_under v l [] (f x)) →
  accesses_under v l [] (xs ≫= f).
Proof.
  intros Hd Hf. induction xs as [|x xs IH]; [done|]. apply accesses_under_app; [done|..].
  - apply Hf. by left.
  - apply IH. intros; apply Hf. by right.
Qed.

#[global] Instance accesses_under_dec v l h s : Decision (accesses_under v l h s).
Proof. revert h. induction s as [|[] s IH]; intros h; simpl; apply _. Defined.

(** *** Schedules *)
#[global] Instance enabled_dec c a : Decision (enabled c a).
Proof.
  destruct a as [l|l|v|v]; simpl; [|left; done..].
  refine (cast_if (decide (Forall (λ t, l ∉ held t) c))); by rewrite <-Forall_forall.
Defined.

(** The threads that move, in turn. *)
Fixpoint exec (schedule : list nat) (c : list thread) : option (list thread) :=
  match schedule with
  | [] => Some c
  | i :: schedule =>
      t ← c !! i;
      match todo t with
      | a :: rest =>
          if decide (enabled c a) then exec schedule (<[i := run_action a rest t]> c) else None
      | [] => None
      end
  end.

Lemma exec_steps schedule c c' : exec schedule c = Some c' → rtc step c c'.
Proof.
  revert c. induction schedule as [|i sch IH]; intros c; simpl.
  { by intros [= ->]. }
  intros Hrun. apply bind_Some in Hrun as (t & Hi & Hrun).
  destruct (todo t) as [|a rest] eqn:Ht; [done|]. case_decide as Hen; [|done].
  eapply rtc_l; [by eapply step_thread|by apply IH].
Qed.

(** ** Properties *)

(** C33. The threads never deadlock: in every reachable configuration in which one of
    them has not finished, one of them can take its next action. *)
Theorem threads_never_deadlock us ts c :
  rtc step (program us ts) c → (∃ t, t ∈ c ∧ todo t ≠ []) → ∃ c', step c c'.
Proof. intros Hs. apply ok_progress, (steps_ok _ _ (program_ok us ts) Hs). Qed.

(** Which of the UI's operations look at the size of the chat list, or at a
    history, before they take the lock. *)
Definition unlocked_read (v : variable) (o : ui_op) : bool :=
  match v, o with
  | v_position_sets, (ui_list_scroll | ui_open) => true
  | v_messages, ui_main_scroll => true
  | _, _ => false
  end.

Lemma program_protected v l us ts :
  (∀ o, o ∈ us → accesses_under v l [] (s_ui o)) →
  (∀ o, accesses_under v l [] (s_tg o)) →
  protected v l (program us ts).
Proof.
  intros Hu Ht t (s & -> & Hs)%list_elem_of_fmap. simpl.
  rewrite !elem_of_cons in Hs. destruct Hs as [->|[->|Hs]]; [| |set_solver];
    (apply accesses_under_bind; [intros o; apply (bool_decide_unpack _); by destruct o|]); auto.
Qed.

(** C32. The displayed list, the chats, the histories, the event queue and the
    termination flag are free of data races, as long as no key is used that reads
    a size before taking the lock. *)
Theorem locked_state_is_race_free v l us ts c :
  (v, l) ∈ [(v_position_sets, _id_chatboxes); (v_id_to_position, _id_chatboxes);
            (v_id_to_chat, _id_chatboxes); (v_messages, _id_messages);
            (v_event_queue, q_mutex); (v_terminating, _id_terminating)] →
  (∀ o, o ∈ us → unlocked_read v o = false) →
  rtc step (program us ts) c → ¬ race v c.
Proof.
  intros Hv Hu Hs. apply (protected_no_race v l); [by eapply steps_ok, Hs; apply program_ok|].
  eapply steps_protected, Hs. apply program_protected.
  - intros o Ho%Hu. rewrite !elem_of_cons in Hv.
    repeat (destruct Hv as [[= -> ->]|Hv]); [..|set_solver];
      destruct o; try done; apply (bool_decide_unpack _); vm_compute; exact I.
  - intros o. rewrite !elem_of_cons in Hv.
    repeat (destruct Hv as [[= -> ->]|Hv]); [..|set_solver];
      destruct o; apply (bool_decide_unpack _); vm_compute; exact I.
Qed.

(** The keys that scroll the list or open a chat race with the updates of the
    list: they read [position_sets] without its lock. Opening a chat also races on
    [handlers_] with the arrival of responses. *)
Theorem list_keys_race_with_updates :
  (∃ c, rtc step (program [ui_list_scroll] [tg_chat_position]) c ∧ race v_position_sets c) ∧
  (∃ c, rtc step (program [ui_open] [tg_chat_history]) c ∧ race v_handlers c).
Proof.
  split.
  - (* the receiving thread is about to insert the new position *)
    destruct (exec (repeat 1%nat 6) (program [ui_list_scroll] [tg_chat_position])) as [c|] eqn:Hc;
      [|by vm_compute in Hc].
    exists c. split; [by eapply exec_steps|]. vm_compute in Hc. injection Hc as <-.
    eexists 0%nat, 1%nat, _, _, _, _, _, _. by repeat split.
  - (* the UI thread has locked the messages, the other looks up the handler *)
    destruct (exec (repeat 0%nat 9 ++ repeat 1%nat 3) (program [ui_open] [tg_chat_history]))
      as [c|] eqn:Hc; [|by vm_compute in Hc].
    exists c. split; [by eapply exec_steps|]. vm_compute in Hc. injection Hc as <-.
    eexists 1%nat, 0%nat, _, _, _, _, _, _. by repeat split.
Qed.

(** ** Witnesses *)

(** The UI thread stands inside [draw_side], the other waits for its lock. *)
Lemma threads_never_deadlock_witness :
  ∃ c c', rtc step (program [ui_draw_side] [tg_chat_position]) c ∧ step c c'.
Proof.
  destruct (exec [0; 0; 1; 1; 1]%nat (program [ui_draw_side] [tg_chat_position]))
    as [c|] eqn:Hc; [|by vm_compute in Hc].
  destruct (threads_never_deadlock [ui_draw_side] [tg_chat_position] c) as [c' Hstep].
  - by eapply exec_steps.
  - vm_compute in Hc. injection Hc as <-. eexists. split; [by left|done].
  - exists c, c'. split; [by eapply exec_steps|exact Hstep].
Defined.

Lemma locked_state_is_race_free_witness :
  ∃ c, rtc step (program [ui_draw_side; ui_resize] [tg_new_chat]) c ∧ ¬ race v_position_sets c.
Proof.
  destruct (exec [0; 0; 1; 1; 1]%nat (program [ui_draw_side; ui_resize] [tg_new_chat]))
    as [c|] eqn:Hc; [|by vm_compute in Hc].
  exists c. split; [by eapply exec_steps|].
  apply (locked_state_is_race_free v_position_sets _id_chatboxes
           [ui_draw_side; ui_resize] [tg_new_chat]).
  - by left.
  - intros o Ho. rewrite !elem_of_cons in Ho.
    destruct Ho as [->|[->|Ho]]; [done|done|by apply elem_of_nil in Ho].
  - by eapply exec_steps.
Defined.
