(* ===== verification/Bytes.v ===== *)
(** * Bytes and bit fields

    Strings of TDLib's utilities are lists of bytes. Masks, shifts and bitwise or,
    as the code writes them, are related here to arithmetic, on which [lia]
    works. *)
From S2P Require Import Prelude.

Definition byte (b : Z) : Prop := 0 ≤ b < 256.
Definition bytes_ok (l : list Z) : Prop := Forall byte l.

(** [unsigned char] to the [char] of the platform, which is signed. *)
Definition schar (b : Z) : Z := (b + 128) mod 256 - 128.

#[global] Instance byte_dec b : Decision (byte b).
Proof. unfold byte. apply _. Defined.
#[global] Instance bytes_ok_dec l : Decision (bytes_ok l).
Proof. unfold bytes_ok. apply _. Defined.

Lemma bytes_ok_app l1 l2 : bytes_ok (l1 ++ l2) ↔ bytes_ok l1 ∧ bytes_ok l2.
Proof. apply Forall_app. Qed.
Lemma bytes_ok_cons b l : bytes_ok (b :: l) ↔ byte b ∧ bytes_ok l.
Proof. apply Forall_cons. Qed.
Lemma bytes_ok_take n l : bytes_ok l → bytes_ok (take n l).
Proof. apply Forall_take. Qed.
Lemma bytes_ok_drop n l : bytes_ok l → bytes_ok (drop n l).
Proof. apply Forall_drop. Qed.
Lemma bytes_ok_zeros n : bytes_ok (replicate n 0).
Proof. apply Forall_replicate. unfold byte. lia. Qed.

#[export] Hint Resolve bytes_ok_take bytes_ok_drop bytes_ok_zeros : cpp.

(** A fact about one byte, or about two, is checked on all of them. *)
Lemma all_bytes (f : Z → bool) :
  forallb f (seqZ 0 256) = true → ∀ b, byte b → f b = true.
Proof.
  intros Hf b Hb. rewrite forallb_forall in Hf. apply Hf.
  apply list_elem_of_In, elem_of_seqZ. unfold byte in Hb. lia.
Qed.

Lemma all_bytes2 (f : Z → Z → bool) :
  forallb (λ a, forallb (f a) (seqZ 0 256)) (seqZ 0 256) = true →
  ∀ a b, byte a → byte b → f a b = true.
Proof. intros Hf a b Ha Hb. apply (all_bytes (f a)); [|done]. by apply (all_bytes _ Hf). Qed.

(** Prove an equation about the byte [b] by evaluating it on all. *)
Ltac by_bytes b := lazymatch goal with
  | Hb : byte b |- @eq Z ?l ?r =>
      apply Z.eqb_eq; pattern b;
      match goal with |- ?P b =>
        let f := constr:(λ x : Z, ltac:(let t := eval cbv beta in (P x) in
          match t with ?e = true => exact e end)) in
        exact (all_bytes f eq_refl b Hb)
      end
  | Hb : byte b |- @eq bool ?l ?r =>
      apply Bool.eqb_prop; pattern b;
      match goal with |- ?P b =>
        let f := constr:(λ x : Z, ltac:(let t := eval cbv beta in (P x) in
          match t with ?e = true => exact e | Is_true ?e => exact e end)) in
        exact (all_bytes f eq_refl b Hb)
      end
  end.

(** ** Bitwise or of disjoint fields is addition *)
Lemma lor_add x y k : 0 ≤ k → 0 ≤ y < 2 ^ k → Z.lor (Z.shiftl x k) y = x * 2 ^ k + y.
Proof.
  intros Hk Hy. rewrite <-Z.shiftl_mul_pow2 by lia. rewrite Z.add_nocarry_lxor.
  - apply Z.bits_inj'. intros i Hi. rewrite Z.lor_spec, Z.lxor_spec, Z.shiftl_spec by lia.
    destruct (Z.lt_ge_cases i k).
    + rewrite (Z.testbit_neg_r x) by lia. by destruct (Z.testbit y i).
    + rewrite <-(Z.mod_small y (2 ^ k)) by done.
      rewrite (Z.mod_pow2_bits_high y k i) by lia. by destruct (Z.testbit x _).
  - apply Z.bits_inj'. intros i Hi. rewrite Z.land_spec, Z.shiftl_spec, Z.bits_0 by lia.
    destruct (Z.lt_ge_cases i k).
    + by rewrite (Z.testbit_neg_r x) by lia.
    + rewrite <-(Z.mod_small y (2 ^ k)) by done.
      rewrite (Z.mod_pow2_bits_high y k i) by lia. apply andb_false_r.
Qed.

Lemma land_mask x k : 0 ≤ k → Z.land x (2 ^ k - 1) = x mod 2 ^ k.
Proof. intros. rewrite Z.sub_1_r, <-Z.ones_equiv. by apply Z.land_ones. Qed.

Lemma land_lxor a b c : Z.land (Z.lxor a b) c = Z.lxor (Z.land a c) (Z.land b c).
Proof.
  apply Z.bits_inj'. intros i _. rewrite Z.land_spec, !Z.lxor_spec, !Z.land_spec.
  by repeat destruct (Z.testbit _ _).
Qed.

(** Clearing the two low bits rounds down to a multiple of four. *)
Lemma land_minus4 x : Z.land x (-4) = x / 4 * 4.
Proof.
  change (-4) with (Z.lnot (Z.ones 2)). rewrite <-Z.ldiff_land, Z.ldiff_ones_r by lia.
  by rewrite Z.shiftr_div_pow2, Z.shiftl_mul_pow2 by lia.
Qed.
Lemma shift_out2 x : Z.shiftl (Z.shiftr x 2) 2 = x / 4 * 4.
Proof. by rewrite Z.shiftr_div_pow2, Z.shiftl_mul_pow2 by lia. Qed.

(** ** Memory from a pointer on *)

(** [ptr[i]], undefined past the end of the memory. *)
Definition ptr_at {A} (ptr : list A) (i : nat) : outcome A := deref (ptr !! i).

(** ** Results ([Status.h]: [Status], [Result<T>]) *)
Inductive Result (A : Type) :=
  | ROk (value : A)
  | RError (message : string).
Arguments ROk {A} value.
Arguments RError {A} message.

#[global] Instance Result_eq_dec `{EqDecision A} : EqDecision (Result A).
Proof. solve_decision. Defined.

(** [TRY_RESULT]: run [m]; on an error, return it at once. *)
Definition try_result {A B} (m : outcome (Result A)) (k : A → outcome (Result B))
    : outcome (Result B) :=
  r ← m; match r with ROk a => k a | RError e => Ok (RError e) end.

(** Bytes written through a pointer into a buffer with [room] bytes left; a write
    beyond is undefined. *)
Record writer := { written : list Z; room : nat }.
Definition put (b : Z) (w : writer) : outcome writer :=
  match room w with
  | O => ub
  | S n => Ok {| written := written w ++ [b]; room := n |}
  end.
Definition put_all (l : list Z) (w : writer) : outcome writer :=
  if (length l <=? room w)%nat
  then Ok {| written := written w ++ l; room := room w - length l |} else ub.

Lemma put_Ok b w : (1 ≤ room w)%nat →
  put b w = Ok {| written := written w ++ [b]; room := room w - 1 |}.
Proof. destruct w as [l [|n]]; simpl; [lia|]. intros _. by rewrite Nat.sub_0_r. Qed.
Lemma put_all_Ok l w : (length l ≤ room w)%nat →
  put_all l w = Ok {| written := written w ++ l; room := room w - length l |}.
Proof. intros. unfold put_all. by rewrite (proj2 (Nat.leb_le _ _)). Qed.

(** The characters of a literal. *)
Definition string_bytes (s : string) : list Z :=
  (λ c, Z.of_N (Ascii.N_of_ascii c)) <$> String.list_ascii_of_string s.
