(* ===== verification/Utf8.v ===== *)
(** * UTF-8 strings ([td/tdutils/td/utils/utf8.h], [utf8.cpp])

    The checker, the decoder and encoder of characters, and the operations that
    count, cut and take substrings in characters or in UTF-16 code units, on
    strings as lists of bytes. Against them stand strings as lists of Unicode code
    points: the checker accepts exactly the encodings of such lists. *)
From S2P Require Import Prelude Bytes.

(** ** The code *)

(** [check_utf8]: the memory from [data] on, the terminating zero byte of the
    [CSlice] included. A read past it is undefined. *)
Fixpoint check_utf8_loop (m : list Z) : outcome bool :=
  match m with
  | [] => ub
  | a :: m =>
    if Z.land a 0x80 =? 0 then
      match m with [] => Ok true | _ => check_utf8_loop m end
    else if Z.land a 0x40 =? 0 then Ok false else
    match m with
    | [] => ub
    | b :: m =>
      if negb (Z.land b 0xc0 =? 0x80) then Ok false else
      if Z.land a 0x20 =? 0 then
        if Z.land a 0x1e >? 0 then check_utf8_loop m else Ok false else
      match m with
      | [] => ub
      | c :: m =>
        if negb (Z.land c 0xc0 =? 0x80) then Ok false else
        if Z.land a 0x10 =? 0 then
          let x := Z.lor (Z.shiftl (Z.land a 0x0f) 6) (Z.land b 0x20) in
          if negb (x =? 0) && negb (x =? 0x360) then check_utf8_loop m else Ok false else
        match m with
        | [] => ub
        | d :: m =>
          if negb (Z.land d 0xc0 =? 0x80) then Ok false else
          if Z.land a 0x08 =? 0 then
            let t := Z.lor (Z.shiftl (Z.land a 0x07) 6) (Z.land b 0x30) in
            if (0 <? t) && (t <? 0x110) then check_utf8_loop m else Ok false
          else Ok false
        end
      end
    end
  end.

Definition check_utf8 (str : list Z) : outcome bool := check_utf8_loop (str ++ [0]).

Definition is_utf8_character_first_code_unit (c : Z) : bool := negb (Z.land c 0xC0 =? 0x80).

(** The code and the advanced pointer. *)
Definition next_utf8_unsafe (ptr : list Z) : outcome (Z * list Z) :=
  a ← ptr_at ptr 0;
  if Z.land a 0x80 =? 0 then Ok (a, drop 1 ptr)
  else if Z.land a 0x20 =? 0 then
    p1 ← ptr_at ptr 1;
    Ok (Z.lor (Z.shiftl (Z.land a 0x1f) 6) (Z.land p1 0x3f), drop 2 ptr)
  else if Z.land a 0x10 =? 0 then
    p1 ← ptr_at ptr 1; p2 ← ptr_at ptr 2;
    Ok (Z.lor (Z.lor (Z.shiftl (Z.land a 0x0f) 12) (Z.shiftl (Z.land p1 0x3f) 6))
          (Z.land p2 0x3f), drop 3 ptr)
  else if Z.land a 0x08 =? 0 then
    p1 ← ptr_at ptr 1; p2 ← ptr_at ptr 2; p3 ← ptr_at ptr 3;
    Ok (Z.lor (Z.lor (Z.lor (Z.shiftl (Z.land a 0x07) 18) (Z.shiftl (Z.land p1 0x3f) 12))
          (Z.shiftl (Z.land p2 0x3f) 6)) (Z.land p3 0x3f), drop 4 ptr)
  else Fault AssertFailure.

(** [append_utf8_character] and [append_utf8_character_unsafe]: the bytes that are
    appended. *)
Definition append_utf8_character (str : list Z) (code : Z) : list Z :=
  if code <=? 0x7f then str ++ [u8 code]
  else if code <=? 0x7ff then
    str ++ [u8 (Z.lor 0xc0 (Z.shiftr code 6)); u8 (Z.lor 0x80 (Z.land code 0x3f))]
  else if code <=? 0xffff then
    str ++ [u8 (Z.lor 0xe0 (Z.shiftr code 12));
            u8 (Z.lor 0x80 (Z.land (Z.shiftr code 6) 0x3f));
            u8 (Z.lor 0x80 (Z.land code 0x3f))]
  else
    str ++ [u8 (Z.lor 0xf0 (Z.shiftr code 18));
            u8 (Z.lor 0x80 (Z.land (Z.shiftr code 12) 0x3f));
            u8 (Z.lor 0x80 (Z.land (Z.shiftr code 6) 0x3f));
            u8 (Z.lor 0x80 (Z.land code 0x3f))].

(** [prev_utf8_unsafe(ptr)], for the bytes before [ptr], the nearest first: how
    many bytes the pointer moves back. *)
Fixpoint prev_utf8_unsafe (before : list Z) : outcome nat :=
  match before with
  | [] => ub
  | c :: before =>
    if is_utf8_character_first_code_unit c then Ok 1%nat
    else S <$> prev_utf8_unsafe before
  end.

Definition utf8_length (str : list Z) : Z :=
  foldl (λ result c, u64 (result + Z.b2z (is_utf8_character_first_code_unit (u8 (schar c)))))
    0 str.

Definition utf8_utf16_length (str : list Z) : Z :=
  foldl (λ result c,
    u64 (result + (Z.b2z (is_utf8_character_first_code_unit (u8 (schar c)))
                   + Z.b2z (Z.land (schar c) 0xf8 =? 0xf0)))) 0 str.

(** The position at which the loop of [utf8_truncate] stops, from position [i]
    on; [None] when it runs to the end. *)
Fixpoint truncate_loop (str : list Z) (i : nat) (length : Z) : option nat :=
  match str with
  | [] => None
  | c :: str =>
    if is_utf8_character_first_code_unit c then
      if length =? 0 then Some i else truncate_loop str (S i) (length - 1)
    else truncate_loop str (S i) length
  end.

Definition utf8_truncate (str : list Z) (length : Z) : list Z :=
  if Z.of_nat (List.length str) >? length then
    match truncate_loop str 0 length with Some i => take i str | None => str end
  else str.

Definition utf8_substr (str : list Z) (offset : Z) : list Z :=
  if offset =? 0 then str else drop (List.length (utf8_truncate str offset)) str.

Definition utf8_substr_length (str : list Z) (offset length : Z) : list Z :=
  utf8_truncate (utf8_substr str offset) length.

(** The second decrement, of a [size_t], wraps around at zero. *)
Fixpoint utf16_truncate_loop (str : list Z) (i : nat) (length : Z) : option nat :=
  match str with
  | [] => None
  | c :: str =>
    if is_utf8_character_first_code_unit c then
      if length <=? 0 then Some i
      else
        let length := u64 (length - 1) in
        let length := if c >=? 0xf0 then u64 (length - 1) else length in
        utf16_truncate_loop str (S i) length
    else utf16_truncate_loop str (S i) length
  end.

Definition utf8_utf16_truncate (str : list Z) (length : Z) : list Z :=
  match utf16_truncate_loop str 0 length with Some i => take i str | None => str end.

Definition utf8_utf16_substr (str : list Z) (offset : Z) : list Z :=
  if offset =? 0 then str else drop (List.length (utf8_utf16_truncate str offset)) str.

Definition utf8_utf16_substr_length (str : list Z) (offset length : Z) : list Z :=
  utf8_utf16_truncate (utf8_utf16_substr str offset) length.

(** ** Strings of code points *)

(** A Unicode scalar value: a code point that is not a surrogate. *)
Definition scalar (c : Z) : Prop := 0 ≤ c < 0x110000 ∧ ¬ (0xd800 ≤ c < 0xe000).

Definition encode_utf8 (codes : list Z) : list Z := foldl append_utf8_character [] codes.

(** The bytes of one character, in arithmetic. *)
Definition encoding (c : Z) : list Z :=
  if c <=? 0x7f then [c]
  else if c <=? 0x7ff then [192 + c / 64; 128 + c mod 64]
  else if c <=? 0xffff then [224 + c / 4096; 128 + c / 64 mod 64; 128 + c mod 64]
  else [240 + c / 262144; 128 + c / 4096 mod 64; 128 + c / 64 mod 64; 128 + c mod 64].

(** The code units of a character in UTF-16. *)
Definition utf16_units (c : Z) : Z := if c <=? 0xffff then 1 else 2.

(** ** The tests of the checker, in arithmetic *)

Lemma test_ascii a : byte a → (Z.land a 0x80 =? 0) = (a <? 128).
Proof. intros Ha. by_bytes a. Qed.
Lemma test_continuation b : byte b → (Z.land b 0xc0 =? 0x80) = (128 <=? b) && (b <? 192).
Proof. intros Hb. by_bytes b. Qed.
Lemma test_first c : byte c →
  is_utf8_character_first_code_unit c = negb ((128 <=? c) && (c <? 192)).
Proof. intros Hc. unfold is_utf8_character_first_code_unit. by rewrite test_continuation. Qed.

(** Tests that are reached only for some bytes. *)
Lemma guarded_test (g t r : Z → bool) :
  forallb (λ a, implb (g a) (eqb (t a) (r a))) (seqZ 0 256) = true →
  ∀ a, byte a → g a = true → t a = r a.
Proof.
  intros Hall a Ha Hg. pose proof (all_bytes _ Hall a Ha) as Ht. simpl in Ht.
  rewrite Hg in Ht. by apply eqb_prop.
Qed.
Lemma guarded_test2 (g t r : Z → Z → bool) :
  forallb (λ a, forallb (λ b, implb (g a b) (eqb (t a b) (r a b))) (seqZ 0 256)) (seqZ 0 256)
    = true →
  ∀ a b, byte a → byte b → g a b = true → t a b = r a b.
Proof.
  intros Hall a b Ha Hb Hg. pose proof (all_bytes2 _ Hall a b Ha Hb) as Ht. simpl in Ht.
  rewrite Hg in Ht. by apply eqb_prop.
Qed.

Lemma test_two a : byte a → 128 ≤ a → (Z.land a 0x40 =? 0) = (a <? 192).
Proof.
  intros Ha H. apply (guarded_test (λ a, 128 <=? a) (λ a, Z.land a 0x40 =? 0) (λ a, a <? 192));
    [vm_compute; reflexivity|done|lia].
Qed.
Lemma test_three a : byte a → 192 ≤ a → (Z.land a 0x20 =? 0) = (a <? 224).
Proof.
  intros Ha H. apply (guarded_test (λ a, 192 <=? a) (λ a, Z.land a 0x20 =? 0) (λ a, a <? 224));
    [vm_compute; reflexivity|done|lia].
Qed.
Lemma test_four a : byte a → 224 ≤ a → (Z.land a 0x10 =? 0) = (a <? 240).
Proof.
  intros Ha H. apply (guarded_test (λ a, 224 <=? a) (λ a, Z.land a 0x10 =? 0) (λ a, a <? 240));
    [vm_compute; reflexivity|done|lia].
Qed.
Lemma test_five a : byte a → 240 ≤ a → (Z.land a 0x08 =? 0) = (a <? 248).
Proof.
  intros Ha H. apply (guarded_test (λ a, 240 <=? a) (λ a, Z.land a 0x08 =? 0) (λ a, a <? 248));
    [vm_compute; reflexivity|done|lia].
Qed.
Lemma test_overlong2 a : byte a → 192 ≤ a < 224 → (Z.land a 0x1e >? 0) = (194 <=? a).
Proof.
  intros Ha H. apply (guarded_test (λ a, (192 <=? a) && (a <? 224))
    (λ a, Z.land a 0x1e >? 0) (λ a, 194 <=? a)); [vm_compute; reflexivity|done|lia].
Qed.

Definition continuation (b : Z) : Prop := 128 ≤ b < 192.

Lemma test_range3 a b : 224 ≤ a < 240 → continuation b →
  negb (Z.lor (Z.shiftl (Z.land a 0x0f) 6) (Z.land b 0x20) =? 0)
    && negb (Z.lor (Z.shiftl (Z.land a 0x0f) 6) (Z.land b 0x20) =? 0x360)
  = negb ((a =? 224) && (b <? 160)) && negb ((a =? 237) && (160 <=? b)).
Proof.
  unfold continuation. intros Ha Hb.
  apply (guarded_test2 (λ a b, (224 <=? a) && (a <? 240) && (128 <=? b) && (b <? 192))
    (λ a b, let x := Z.lor (Z.shiftl (Z.land a 0x0f) 6) (Z.land b 0x20) in
            negb (x =? 0) && negb (x =? 0x360))
    (λ a b, negb ((a =? 224) && (b <? 160)) && negb ((a =? 237) && (160 <=? b))));
    unfold byte; [vm_compute; reflexivity|lia..].
Qed.

Lemma test_range4 a b : 240 ≤ a < 248 → continuation b →
  (0 <? Z.lor (Z.shiftl (Z.land a 0x07) 6) (Z.land b 0x30))
    && (Z.lor (Z.shiftl (Z.land a 0x07) 6) (Z.land b 0x30) <? 0x110)
  = negb ((a =? 240) && (b <? 144)) && ((a <? 244) || (a =? 244) && (b <? 144)).
Proof.
  unfold continuation. intros Ha Hb.
  apply (guarded_test2 (λ a b, (240 <=? a) && (a <? 248) && (128 <=? b) && (b <? 192))
    (λ a b, let t := Z.lor (Z.shiftl (Z.land a 0x07) 6) (Z.land b 0x30) in
            (0 <? t) && (t <? 0x110))
    (λ a b, negb ((a =? 240) && (b <? 144)) && ((a <? 244) || (a =? 244) && (b <? 144))));
    unfold byte; [vm_compute; reflexivity|lia..].
Qed.

(** ** Encoding and decoding one character *)

Ltac if_tests := repeat match goal with
  | |- context [if ?x <=? ?y then _ else _] => destruct (Z.leb_spec x y); try lia
  | |- context [if ?x <? ?y then _ else _] => destruct (Z.ltb_spec x y); try lia
  | |- context [if ?x =? ?y then _ else _] => destruct (Z.eqb_spec x y); try lia
  end.

Lemma lead_bits k x n : 0 ≤ n → 0 ≤ x < 2 ^ n → Z.lor (Z.shiftl k n) x = Z.shiftl k n + x.
Proof. intros Hn Hx. by rewrite lor_add, Z.shiftl_mul_pow2. Qed.

Lemma append_utf8_character_spec str c : 0 ≤ c < 0x200000 →
  append_utf8_character str c = str ++ encoding c.
Proof.
  intros Hc. unfold append_utf8_character, encoding.
  change 0x3f with (2 ^ 6 - 1). rewrite !land_mask, !Z.shiftr_div_pow2 by lia.
  change (2 ^ 6) with 64. change (2 ^ 12) with 4096. change (2 ^ 18) with 262144.
  assert (Hl : ∀ y, 0 ≤ y < 64 → u8 (Z.lor 0x80 y) = 128 + y).
  { intros y Hy. change 0x80 with (Z.shiftl 2 6) at 1. rewrite lead_bits by lia.
    apply u8_small. change (Z.shiftl 2 6) with 128. unfold two8. lia. }
  pose proof (Z.mod_pos_bound c 64 ltac:(lia)) as M0.
  pose proof (Z.mod_pos_bound (c / 64) 64 ltac:(lia)) as M1.
  pose proof (Z.mod_pos_bound (c / 4096) 64 ltac:(lia)) as M2.
  rewrite !Hl by done. if_tests.
  - by rewrite u8_small by (unfold two8; lia).
  - change 0xc0 with (Z.shiftl 6 5). assert (0 ≤ c / 64 < 32).
    { split; [apply Z.div_pos; lia|apply Z.div_lt_upper_bound; lia]. }
    rewrite lead_bits by lia. change (Z.shiftl 6 5) with 192.
    by rewrite u8_small by (unfold two8; lia).
  - change 0xe0 with (Z.shiftl 14 4). assert (0 ≤ c / 4096 < 16).
    { split; [apply Z.div_pos; lia|apply Z.div_lt_upper_bound; lia]. }
    rewrite lead_bits by lia. change (Z.shiftl 14 4) with 224.
    by rewrite u8_small by (unfold two8; lia).
  - change 0xf0 with (Z.shiftl 30 3). assert (0 ≤ c / 262144 < 8).
    { split; [apply Z.div_pos; lia|apply Z.div_lt_upper_bound; lia]. }
    rewrite lead_bits by lia. change (Z.shiftl 30 3) with 240.
    by rewrite u8_small by (unfold two8; lia).
Qed.

Lemma encode_utf8_concat codes :
  Forall scalar codes → encode_utf8 codes = concat (encoding <$> codes).
Proof.
  intros Hc. unfold encode_utf8.
  assert (∀ str, foldl append_utf8_character str codes = str ++ concat (encoding <$> codes)) as H.
  { induction Hc as [|c codes [Hs _] _ IH]; intros str; simpl; [by rewrite app_nil_r|].
    rewrite append_utf8_character_spec by lia. by rewrite IH, <-app_assoc. }
  apply H.
Qed.

(** The shape of an encoding, and the number it stands for. *)
Inductive char_bytes : list Z → Z → Prop :=
  | one_byte a : 0 ≤ a < 128 → char_bytes [a] a
  | two_bytes a b : 194 ≤ a < 224 → continuation b →
      char_bytes [a; b] ((a - 192) * 64 + (b - 128))
  | three_bytes a b c : 224 ≤ a < 240 → continuation b → continuation c →
      (a = 224 → 160 ≤ b) → (a = 237 → b < 160) →
      char_bytes [a; b; c] ((a - 224) * 4096 + (b - 128) * 64 + (c - 128))
  | four_bytes a b c d : 240 ≤ a < 245 → continuation b → continuation c → continuation d →
      (a = 240 → 144 ≤ b) → (a = 244 → b < 144) →
      char_bytes [a; b; c; d]
        ((a - 240) * 262144 + (b - 128) * 4096 + (c - 128) * 64 + (d - 128)).

Lemma char_bytes_encoding l c : char_bytes l c → scalar c ∧ encoding c = l.
Proof.
  unfold scalar, encoding, continuation. intros H. destruct H; unfold continuation in *;
    (split; [lia|]); if_tests.
  - done.
  - f_equal; [|f_equal]; Z.to_euclidean_division_equations; lia.
  - f_equal; [|f_equal; [|f_equal]]; Z.to_euclidean_division_equations; lia.
  - f_equal; [|f_equal; [|f_equal; [|f_equal]]]; Z.to_euclidean_division_equations; lia.
Qed.

Lemma encoding_char_bytes c : scalar c → char_bytes (encoding c) c.
Proof.
  unfold scalar, encoding. intros [Hr Hs]. if_tests.
  - by apply one_byte; lia.
  - assert (c = (192 + c / 64 - 192) * 64 + (128 + c mod 64 - 128)) as Hc
      by (Z.to_euclidean_division_equations; lia).
    rewrite Hc at 3. apply two_bytes; unfold continuation; Z.to_euclidean_division_equations; lia.
  - assert (c = (224 + c / 4096 - 224) * 4096 + (128 + c / 64 mod 64 - 128) * 64
                + (128 + c mod 64 - 128)) as Hc by (Z.to_euclidean_division_equations; lia).
    rewrite Hc at 4.
    apply three_bytes; unfold continuation; Z.to_euclidean_division_equations; lia.
  - assert (c = (240 + c / 262144 - 240) * 262144 + (128 + c / 4096 mod 64 - 128) * 4096
                + (128 + c / 64 mod 64 - 128) * 64 + (128 + c mod 64 - 128)) as Hc
      by (Z.to_euclidean_division_equations; lia).
    rewrite Hc at 5.
    apply four_bytes; unfold continuation; Z.to_euclidean_division_equations; lia.
Qed.

(** ** The checker accepts exactly the encodings *)

Lemma continuation_test b : continuation b → negb (Z.land b 0xc0 =? 0x80) = false.
Proof. unfold continuation. intros Hb. rewrite test_continuation by (unfold byte; lia). lia. Qed.

Lemma continuation_test_inv b :
  byte b → negb (Z.land b 0xc0 =? 0x80) = false → continuation b.
Proof. unfold continuation. intros Hb. rewrite test_continuation by done. lia. Qed.

Ltac ltb_tests := repeat match goal with
  | |- context [if ?x <? ?y then _ else _] => destruct (Z.ltb_spec x y); try lia
  end.

Ltac take_then := match goal with
  | |- (if ?b then _ else _) = _ => replace b with true by lia
  end.

Lemma check_utf8_loop_char l c m :
  char_bytes l c → m ≠ [] → check_utf8_loop (l ++ m) = check_utf8_loop m.
Proof.
  intros Hl Hm. destruct Hl; simpl;
    rewrite (test_ascii a) by (unfold byte; lia); ltb_tests.
  { by destruct m. }
  all: rewrite (test_two a), (test_three a), (continuation_test b)
         by (done || (unfold byte; lia)); ltb_tests.
  - rewrite (test_overlong2 a) by (unfold byte; lia). by take_then.
  - rewrite (test_four a), (continuation_test c) by (done || (unfold byte; lia)). ltb_tests.
    pose proof (test_range3 a b) as ->; [|lia|done].
    by take_then.
  - rewrite (test_four a), (test_five a), (continuation_test c), (continuation_test d)
      by (done || (unfold byte; lia)). ltb_tests.
    pose proof (test_range4 a b) as ->; [|lia|done].
    by take_then.
Qed.

(** On any bytes, the checker rejects or consumes one character. *)
Lemma check_utf8_loop_inv a s :
  bytes_ok (a :: s) →
  check_utf8_loop (a :: s ++ [0]) = Ok false ∨
  ∃ l c s', char_bytes l c ∧ a :: s = l ++ s'.
Proof.
  intros [Ha Hs]%bytes_ok_cons. simpl. rewrite test_ascii by done.
  destruct (Z.ltb_spec a 128).
  { right. exists [a], a, s. split; [|done]. constructor. unfold byte in Ha. lia. }
  rewrite test_two by done. destruct (Z.ltb_spec a 192); [by left|].
  destruct s as [|b s]; simpl; [by left|]. apply bytes_ok_cons in Hs as [Hb Hs].
  destruct (negb (Z.land b 0xc0 =? 0x80)) eqn:Cb; [by left|].
  apply continuation_test_inv in Cb; [|done].
  rewrite test_three by done. destruct (Z.ltb_spec a 224).
  { rewrite test_overlong2 by (done || lia). destruct (Z.leb_spec 194 a); [right|by left].
    eexists [a; b], _, s. split; [|done]. by apply two_bytes. }
  destruct s as [|c s]; simpl; [by left|]. apply bytes_ok_cons in Hs as [Hc Hs].
  destruct (negb (Z.land c 0xc0 =? 0x80)) eqn:Cc; [by left|].
  apply continuation_test_inv in Cc; [|done].
  rewrite test_four by done. destruct (Z.ltb_spec a 240).
  { pose proof (test_range3 a b) as ->; [|lia|done].
    destruct (negb ((a =? 224) && (b <? 160)) && negb ((a =? 237) && (160 <=? b))) eqn:R;
      [right|by left].
    eexists [a; b; c], _, s. split; [|done]. apply three_bytes; (done || lia). }
  destruct s as [|d s]; simpl; [by left|]. apply bytes_ok_cons in Hs as [Hd Hs].
  destruct (negb (Z.land d 0xc0 =? 0x80)) eqn:Cd; [by left|].
  apply continuation_test_inv in Cd; [|done].
  rewrite test_five by done. destruct (Z.ltb_spec a 248); [|by left].
  pose proof (test_range4 a b) as ->; [|lia|done].
  destruct (negb ((a =? 240) && (b <? 144)) && ((a <? 244) || (a =? 244) && (b <? 144))) eqn:R;
    [right|by left].
  eexists [a; b; c; d], _, s. split; [|done]. apply four_bytes; (done || lia).
Qed.

Lemma char_bytes_nonempty l c : char_bytes l c → (1 ≤ length l)%nat.
Proof. destruct 1; simpl; lia. Qed.

Lemma check_utf8_complete codes :
  Forall scalar codes → check_utf8 (encode_utf8 codes) = Ok true.
Proof.
  intros Hc. rewrite encode_utf8_concat by done. unfold check_utf8.
  induction Hc as [|c codes Hs _ IH]; [done|]. simpl. rewrite <-app_assoc.
  erewrite check_utf8_loop_char; [done|by apply encoding_char_bytes|].
  by destruct (concat _).
Qed.

Lemma check_utf8_sound str :
  bytes_ok str →
  check_utf8 str = Ok false ∨ ∃ codes, Forall scalar codes ∧ str = encode_utf8 codes.
Proof.
  remember (length str) as n eqn:Hn. revert str Hn.
  induction (lt_wf n) as [n _ IH]; intros [|a s] Hn Hok.
  { right. by exists []. }
  destruct (check_utf8_loop_inv a s Hok) as [?|(l & c & s' & Hl & Hs)]; [by left|].
  rewrite Hs in Hok |- *. apply bytes_ok_app in Hok as [_ Hok'].
  pose proof (char_bytes_nonempty _ _ Hl). apply (f_equal length) in Hs as Hlen.
  rewrite length_app in Hlen.
  destruct (IH (length s') ltac:(simpl in *; lia) s' eq_refl Hok') as [Hf|(codes & Hc & ->)].
  - left. unfold check_utf8 in *. rewrite <-app_assoc.
    erewrite check_utf8_loop_char; [done|done|]. by destruct s'.
  - right. apply char_bytes_encoding in Hl as [Hsc <-]. exists (c :: codes).
    split; [by constructor|]. rewrite !encode_utf8_concat by (done || by constructor). done.
Qed.

(** C15. The checker reads only the string and its terminating zero byte, and
    accepts exactly the strings that are the UTF-8 encoding of a list of Unicode
    scalar values: no overlong forms, no surrogates, nothing after U+10FFFF, no
    truncated characters. *)
Theorem check_utf8_accepts_encodings str :
  bytes_ok str →
  ∃ r, check_utf8 str = Ok r ∧
    (r = true ↔ ∃ codes, Forall scalar codes ∧ str = encode_utf8 codes).
Proof.
  intros Hok. destruct (check_utf8_sound str Hok) as [Hf|(codes & Hc & ->)].
  - exists false. split; [done|]. split; [done|]. intros (codes & Hc & ->).
    by rewrite check_utf8_complete in Hf.
  - exists true. split; [by apply check_utf8_complete|]. split; [eauto|done].
Qed.

Lemma check_utf8_accepts_encodings_witness :
  check_utf8 [0xe2; 0x82; 0xac; 0x41] = Ok true ∧
  ∃ codes, Forall scalar codes ∧ [0xe2; 0x82; 0xac; 0x41] = encode_utf8 codes.
Proof.
  destruct (check_utf8_accepts_encodings [0xe2; 0x82; 0xac; 0x41]) as (r & Hr & H).
  - apply (bool_decide_unpack _). vm_compute. exact I.
  - assert (r = true) as Ht by (vm_compute in Hr; congruence).
    split; [reflexivity|]. exact (proj1 H Ht).
Defined.

(** ** Decoding *)

Lemma next_utf8_unsafe_char l c rest :
  char_bytes l c → next_utf8_unsafe (l ++ rest) = Ok (c, rest).
Proof.
  assert (L3 : ∀ x y z, Z.lor (Z.lor (Z.shiftl x 12) (Z.shiftl y 6)) z
                 = Z.lor (Z.shiftl (Z.lor (Z.shiftl x 6) y) 6) z).
  { intros. rewrite Z.shiftl_lor, Z.shiftl_shiftl by lia. done. }
  assert (L4 : ∀ w x y, Z.lor (Z.lor (Z.shiftl w 18) (Z.shiftl x 12)) (Z.shiftl y 6)
                 = Z.shiftl (Z.lor (Z.lor (Z.shiftl w 12) (Z.shiftl x 6)) y) 6).
  { intros. rewrite !Z.shiftl_lor, !Z.shiftl_shiftl by lia. done. }
  assert (K : ∀ b, continuation b → Z.land b 0x3f = b - 128).
  { unfold continuation. intros b Hb. change 0x3f with (2 ^ 6 - 1). rewrite land_mask by lia.
    change (2 ^ 6) with 64. Z.to_euclidean_division_equations; lia. }
  unfold next_utf8_unsafe. intros Hl.
  destruct Hl; simpl; rewrite (test_ascii a) by (unfold byte; lia); ltb_tests; [done|..];
    rewrite (test_three a) by (unfold byte; lia); ltb_tests;
    rewrite ?(test_four a) by (unfold byte; lia); ltb_tests;
    rewrite ?(test_five a) by (unfold byte; lia); ltb_tests;
    rewrite ?L4, ?L3, ?K by done; unfold continuation in *.
  - change 0x1f with (2 ^ 5 - 1). rewrite land_mask, lor_add by lia.
    change (2 ^ 5) with 32. change (2 ^ 6) with 64. do 2 f_equal.
    Z.to_euclidean_division_equations; lia.
  - change 0x0f with (2 ^ 4 - 1). rewrite land_mask, !lor_add by lia.
    change (2 ^ 4) with 16. change (2 ^ 6) with 64. do 2 f_equal.
    Z.to_euclidean_division_equations; lia.
  - change 0x07 with (2 ^ 3 - 1). rewrite land_mask, !lor_add by lia.
    change (2 ^ 3) with 8. change (2 ^ 6) with 64. do 2 f_equal.
    Z.to_euclidean_division_equations; lia.
Qed.

(** The code points of a string, read by the decoder until the end. *)
Fixpoint decode_all (fuel : nat) (ptr : list Z) : outcome (list Z) :=
  match ptr, fuel with
  | [], _ => Ok []
  | _, O => ub
  | _, S fuel =>
      '(code, ptr) ← next_utf8_unsafe ptr;
      codes ← decode_all fuel ptr;
      Ok (code :: codes)
  end.

Lemma encoding_length c : (1 ≤ length (encoding c) ≤ 4)%nat.
Proof. unfold encoding. if_tests; simpl; lia. Qed.

Lemma decode_all_spec codes fuel :
  Forall scalar codes → (length codes ≤ fuel)%nat →
  decode_all fuel (concat (encoding <$> codes)) = Ok codes.
Proof.
  intros Hc. revert fuel. induction Hc as [|c codes Hs _ IH]; intros fuel Hf.
  { by destruct fuel. }
  destruct fuel as [|fuel]; simpl in Hf; [lia|]. rewrite fmap_cons. simpl concat.
  pose proof (encoding_length c) as Hne.
  simpl decode_all. rewrite next_utf8_unsafe_char with (c := c) by by apply encoding_char_bytes.
  destruct (encoding c ++ _) eqn:E.
  { apply (f_equal length) in E. rewrite length_app in E. simpl in E. lia. }
  simpl. rewrite IH by lia. done.
Qed.

(** Decoding the encoding of a list of scalar values gives the list back, and the
    decoder stays inside every string the checker accepts. *)
Theorem utf8_decode_encode codes :
  Forall scalar codes →
  decode_all (length (encode_utf8 codes)) (encode_utf8 codes) = Ok codes.
Proof.
  intros Hc. rewrite encode_utf8_concat by done. apply decode_all_spec; [done|].
  clear Hc. induction codes as [|c codes IH]; [simpl; lia|].
  rewrite fmap_cons. simpl concat. simpl length at 1. rewrite length_app. pose proof (encoding_length c). lia.
Qed.

Lemma utf8_decode_encode_witness :
  decode_all (length (encode_utf8 [0x48; 0x20ac; 0x1f600])) (encode_utf8 [0x48; 0x20ac; 0x1f600])
  = Ok [0x48; 0x20ac; 0x1f600].
Proof.
  apply (utf8_decode_encode [0x48; 0x20ac; 0x1f600]).
  repeat (apply Forall_cons; split; [unfold scalar; lia|]). apply Forall_nil. exact I.
Defined.

(** ** Counting and cutting *)

(** The first byte of a character and the others. *)
Lemma char_bytes_first l c :
  char_bytes l c → ∃ h t, l = h :: t ∧ byte h ∧
    is_utf8_character_first_code_unit h = true ∧ Forall continuation t ∧
    (240 ≤ h ↔ 0xffff < c) ∧ h < 248.
Proof.
  intros Hl. destruct Hl; eexists _, _; (split; [done|]); unfold byte, continuation in *;
    rewrite test_first by (unfold byte; lia); (split; [lia|]); (split; [lia|]);
    rewrite ?Forall_cons, Forall_nil; lia.
Qed.

(** A sum of small numbers over the bytes of a string, as the code accumulates it. *)
Definition sum_over (f : Z → Z) (str : list Z) : Z := foldr (λ c n, f c + n) 0 str.

Lemma sum_over_app f s1 s2 : sum_over f (s1 ++ s2) = sum_over f s1 + sum_over f s2.
Proof. induction s1 as [|c s1 IH]; simpl; [done|]. rewrite IH. lia. Qed.

Lemma sum_over_ext f g str : (∀ c, c ∈ str → f c = g c) → sum_over f str = sum_over g str.
Proof.
  induction str as [|c str IH]; intros Heq; [done|]. simpl.
  rewrite Heq, IH; [done| |]; intros; try apply Heq; set_solver.
Qed.

Lemma foldl_u64_sum f n str : 0 ≤ n < two64 →
  foldl (λ result c, u64 (result + f c)) n str = u64 (n + sum_over f str).
Proof.
  revert n. induction str as [|c str IH]; intros n Hn; simpl.
  { by rewrite Z.add_0_r, u64_small. }
  rewrite IH by apply u64_range. unfold u64. rewrite Zplus_mod_idemp_l. f_equal. lia.
Qed.

Lemma u8_schar c : byte c → u8 (schar c) = c.
Proof. unfold byte, u8, schar, two8. intros. Z.to_euclidean_division_equations. lia. Qed.

Lemma test_surrogate c : byte c → (Z.land (schar c) 0xf8 =? 0xf0) = (240 <=? c) && (c <? 248).
Proof. intros Hc. by_bytes c. Qed.

(** What [utf8_length] and [utf8_utf16_length] add for a byte. *)
Definition first_weight (c : Z) : Z := Z.b2z (is_utf8_character_first_code_unit (u8 (schar c))).
Definition utf16_weight (c : Z) : Z := first_weight c + Z.b2z (Z.land (schar c) 0xf8 =? 0xf0).

Lemma continuation_weight l :
  Forall continuation l → sum_over first_weight l = 0 ∧ sum_over utf16_weight l = 0.
Proof.
  induction 1 as [|b l Hb _ [IH1 IH2]]; simpl; [done|]. rewrite IH1, IH2.
  unfold utf16_weight, first_weight, continuation in *.
  rewrite u8_schar, test_first, test_surrogate by (unfold byte; lia).
  replace ((128 <=? b) && (b <? 192)) with true by lia.
  by replace ((240 <=? b) && (b <? 248)) with false by lia.
Qed.

Lemma char_weight l c : char_bytes l c →
  sum_over first_weight l = 1 ∧ sum_over utf16_weight l = utf16_units c.
Proof.
  intros (h & t & -> & Hb & Hf & [E1 E2]%continuation_weight & Hc & Hh)%char_bytes_first.
  simpl. rewrite E1, E2. unfold utf16_weight, first_weight, utf16_units.
  rewrite u8_schar, Hf, test_surrogate by done. simpl.
  split; [done|]. destruct (Z.leb_spec c 0xffff).
  - by replace ((240 <=? h) && (h <? 248)) with false by lia.
  - by replace ((240 <=? h) && (h <? 248)) with true by lia.
Qed.

Definition utf16_length (codes : list Z) : Z := sum_over utf16_units codes.

Lemma encode_weight codes : Forall scalar codes →
  sum_over first_weight (concat (encoding <$> codes)) = Z.of_nat (length codes) ∧
  sum_over utf16_weight (concat (encoding <$> codes)) = utf16_length codes.
Proof.
  induction 1 as [|c codes Hs _ [IH1 IH2]]; [done|].
  destruct (char_weight _ _ (encoding_char_bytes c Hs)) as [W1 W2].
  rewrite fmap_cons. simpl concat. rewrite !sum_over_app, IH1, IH2, W1, W2. simpl length.
  split; [lia|done].
Qed.

(** The two lengths of an encoded string are the number of its characters and the
    number of its UTF-16 code units. *)
Theorem utf8_lengths_count codes :
  Forall scalar codes →
  utf8_length (encode_utf8 codes) = u64 (Z.of_nat (length codes)) ∧
  utf8_utf16_length (encode_utf8 codes) = u64 (utf16_length codes).
Proof.
  intros Hc. rewrite encode_utf8_concat by done.
  destruct (encode_weight codes Hc) as [W1 W2].
  unfold utf8_length, utf8_utf16_length.
  pose proof (foldl_u64_sum first_weight 0 (concat (encoding <$> codes))) as F1.
  pose proof (foldl_u64_sum utf16_weight 0 (concat (encoding <$> codes))) as F2.
  rewrite W1 in F1. rewrite W2 in F2.
  split; [apply F1|apply F2]; unfold two64; lia.
Qed.

Lemma utf8_lengths_count_witness :
  utf8_length (encode_utf8 [0x48; 0x1f600]) = 2 ∧
  utf8_utf16_length (encode_utf8 [0x48; 0x1f600]) = 3.
Proof.
  apply (utf8_lengths_count [0x48; 0x1f600]).
  repeat (apply Forall_cons; split; [unfold scalar; lia|]). apply Forall_nil. exact I.
Defined.

Definition enc (codes : list Z) : list Z := concat (encoding <$> codes).

Lemma enc_cons c codes : enc (c :: codes) = encoding c ++ enc codes.
Proof. done. Qed.
Lemma enc_app c1 c2 : enc (c1 ++ c2) = enc c1 ++ enc c2.
Proof. unfold enc. by rewrite fmap_app, concat_app. Qed.

Lemma continuation_not_first b : continuation b → is_utf8_character_first_code_unit b = false.
Proof. unfold continuation. intros Hb. rewrite test_first by (unfold byte; lia). lia. Qed.

Lemma truncate_loop_skip t s i n :
  Forall continuation t → truncate_loop (t ++ s) i n = truncate_loop s (i + length t) n.
Proof.
  intros Ht. revert i. induction Ht as [|b t Hb _ IH]; intros i; simpl; [f_equal; lia|].
  rewrite continuation_not_first by done. rewrite IH. f_equal. lia.
Qed.

Lemma truncate_loop_enc codes i n :
  Forall scalar codes →
  truncate_loop (enc codes) i (Z.of_nat n)
  = if decide (n < length codes)%nat then Some (i + length (enc (take n codes)))%nat else None.
Proof.
  intros Hc. revert i n. induction Hc as [|c codes Hs _ IH]; intros i n.
  { rewrite decide_False by (simpl; lia). done. }
  destruct (char_bytes_first _ _ (encoding_char_bytes c Hs)) as (h & t & E & _ & Hf & Ht & _).
  rewrite enc_cons, E. simpl. rewrite Hf. destruct n as [|n].
  { case_decide; simpl in *; [f_equal; lia|lia]. }
  rewrite (proj2 (Z.eqb_neq _ _)) by lia.
  replace (Z.of_nat (S n) - 1) with (Z.of_nat n) by lia.
  rewrite truncate_loop_skip, IH by done. simpl take. rewrite enc_cons, E, length_app. simpl.
  repeat case_decide; try lia; [|done]. f_equal. lia.
Qed.

Lemma length_enc_ge codes : (length codes ≤ length (enc codes))%nat.
Proof.
  induction codes as [|c codes IH]; [simpl; lia|].
  rewrite enc_cons, length_app. pose proof (encoding_length c). simpl. lia.
Qed.

Lemma utf8_truncate_enc codes n :
  Forall scalar codes → utf8_truncate (enc codes) (Z.of_nat n) = enc (take n codes).
Proof.
  intros Hc. unfold utf8_truncate. pose proof (length_enc_ge codes).
  rewrite truncate_loop_enc by done.
  destruct (decide (n < length codes)%nat).
  - replace (Z.of_nat (length (enc codes)) >? Z.of_nat n) with true by lia. simpl.
    rewrite <-(take_drop n codes) at 2. rewrite enc_app, take_app_length. done.
  - rewrite take_ge by lia. by destruct (_ >? _).
Qed.

(** Cutting and taking substrings by characters: on an encoded string, [utf8_truncate]
    keeps the first characters, and [utf8_substr] the given range of them; no
    character is ever split. *)
Theorem utf8_substr_takes_characters codes offset len :
  Forall scalar codes →
  utf8_substr_length (enc codes) (Z.of_nat offset) (Z.of_nat len)
  = enc (take len (drop offset codes)).
Proof.
  intros Hc. unfold utf8_substr_length, utf8_substr.
  assert ((if Z.of_nat offset =? 0 then enc codes
           else drop (length (utf8_truncate (enc codes) (Z.of_nat offset))) (enc codes))
          = enc (drop offset codes)) as ->.
  { destruct (Z.eqb_spec (Z.of_nat offset) 0).
    { by replace offset with 0%nat by lia. }
    rewrite utf8_truncate_enc by done. rewrite <-(take_drop offset codes) at 2.
    by rewrite enc_app, drop_app_length. }
  apply utf8_truncate_enc. by apply Forall_drop.
Qed.

Lemma utf8_substr_takes_characters_witness :
  utf8_substr_length (enc [0x48; 0x20ac; 0x1f600]) 1 1 = enc [0x20ac].
Proof.
  apply (utf8_substr_takes_characters [0x48; 0x20ac; 0x1f600] 1 1).
  repeat (apply Forall_cons; split; [unfold scalar; lia|]). apply Forall_nil. exact I.
Defined.

(** ** Cutting by UTF-16 code units *)

Lemma utf16_truncate_skip t s i n :
  Forall continuation t → utf16_truncate_loop (t ++ s) i n = utf16_truncate_loop s (i + length t) n.
Proof.
  intros Ht. revert i. induction Ht as [|b t Hb _ IH]; intros i; simpl; [f_equal; lia|].
  rewrite continuation_not_first by done. rewrite IH. f_equal. lia.
Qed.

(** One character: the budget goes down by its code units, modulo 2^64. *)
Lemma utf16_truncate_char c s i n :
  scalar c → 0 < n < two64 →
  utf16_truncate_loop (encoding c ++ s) i n
  = utf16_truncate_loop s (i + length (encoding c)) (u64 (n - utf16_units c)).
Proof.
  intros Hs Hn.
  destruct (char_bytes_first _ _ (encoding_char_bytes c Hs)) as (h & t & E & _ & Hf & Ht & Hc & _).
  rewrite E. simpl. rewrite Hf, (proj2 (Z.leb_gt _ _)) by lia.
  rewrite utf16_truncate_skip by done. f_equal; [lia|].
  unfold utf16_units. destruct (Z.leb_spec c 0xffff).
  - by replace (h >=? 0xf0) with false by lia.
  - replace (h >=? 0xf0) with true by lia. unfold u64.
    rewrite Zminus_mod_idemp_l. f_equal. lia.
Qed.

Lemma utf16_length_cons c codes : utf16_length (c :: codes) = utf16_units c + utf16_length codes.
Proof. done. Qed.
Lemma utf16_units_pos c : 1 ≤ utf16_units c ≤ 2.
Proof. unfold utf16_units. if_tests; lia. Qed.
Lemma utf16_length_nonneg codes : 0 ≤ utf16_length codes.
Proof.
  induction codes as [|c codes IH]; [done|]. rewrite utf16_length_cons.
  pose proof (utf16_units_pos c). lia.
Qed.

(** A budget that ends between two characters, or is larger than the string. *)
Lemma utf16_truncate_prefix c1 s i n :
  Forall scalar c1 → utf16_length c1 ≤ n < two64 →
  utf16_truncate_loop (enc c1 ++ s) i n
  = utf16_truncate_loop s (i + length (enc c1)) (n - utf16_length c1).
Proof.
  intros Hc. revert i n. induction Hc as [|c codes Hs _ IH]; intros i n Hn.
  { simpl. f_equal; unfold utf16_length; simpl; lia. }
  rewrite utf16_length_cons in *. pose proof (utf16_units_pos c).
  pose proof (utf16_length_nonneg codes).
  rewrite enc_cons, <-app_assoc, utf16_truncate_char, u64_small by (done || lia).
  rewrite IH by lia. rewrite length_app. f_equal; lia.
Qed.

(** [utf8_utf16_truncate] keeps exactly the first characters when their code units
    add up to the given length. *)
Theorem utf16_truncate_between_characters c1 c2 :
  Forall scalar (c1 ++ c2) → utf16_length c1 < two64 →
  utf8_utf16_truncate (enc (c1 ++ c2)) (utf16_length c1) = enc c1.
Proof.
  intros [H1 H2]%Forall_app Hl. unfold utf8_utf16_truncate.
  rewrite enc_app, utf16_truncate_prefix, Z.sub_diag by (done || lia).
  destruct c2 as [|c c2]; simpl; [by rewrite app_nil_r|].
  apply Forall_cons in H2 as [Hs _].
  destruct (char_bytes_first _ _ (encoding_char_bytes c Hs)) as (h & t & E & _ & Hf & _).
  rewrite enc_cons, E. simpl. rewrite Hf. simpl. by rewrite take_app_length.
Qed.

Lemma utf16_truncate_between_characters_witness :
  utf8_utf16_truncate (enc ([0x1f600] ++ [0x48; 0x49])) 2 = enc [0x1f600].
Proof.
  apply (utf16_truncate_between_characters [0x1f600] [0x48; 0x49]); [|reflexivity].
  repeat (apply Forall_cons; split; [unfold scalar; lia|]). apply Forall_nil. exact I.
Defined.

(** When the length ends inside a surrogate pair, the second decrement of the
    unsigned [length] wraps around from zero, and nothing is cut at all: the whole
    string is returned, however long. *)
Theorem utf16_truncate_inside_pair_keeps_all c1 c c2 :
  Forall scalar (c1 ++ c :: c2) → 0xffff < c →
  utf16_length c1 + utf16_length c2 < two64 - 2 →
  utf8_utf16_truncate (enc (c1 ++ c :: c2)) (utf16_length c1 + 1) = enc (c1 ++ c :: c2).
Proof.
  intros [H1 [Hs H2]%Forall_cons]%Forall_app Hc Hl. unfold utf8_utf16_truncate.
  pose proof (utf16_length_nonneg c1). pose proof (utf16_length_nonneg c2).
  assert (utf16_units c = 2) as Hu by (unfold utf16_units; if_tests; lia).
  rewrite enc_app, enc_cons, utf16_truncate_prefix, utf16_truncate_char, Hu
    by (done || unfold two64 in *; lia).
  replace (u64 _) with (two64 - 1).
  2: { replace (utf16_length c1 + 1 - utf16_length c1 - 2) with (-1) by lia. done. }
  rewrite <-(app_nil_r (enc c2)) at 1. rewrite utf16_truncate_prefix by (done || lia). done.
Qed.

Lemma utf16_truncate_inside_pair_keeps_all_witness :
  utf8_utf16_truncate (enc ([0x48] ++ 0x1f600 :: [0x49; 0x4a])) 2
  = enc [0x48; 0x1f600; 0x49; 0x4a].
Proof.
  apply (utf16_truncate_inside_pair_keeps_all [0x48] 0x1f600 [0x49; 0x4a]);
    [|reflexivity|reflexivity].
  repeat (apply Forall_cons; split; [unfold scalar; lia|]). apply Forall_nil. exact I.
Defined.
