(* ===== verification/Base64.v ===== *)
(** * Base64 ([td/tdutils/td/utils/base64.h], [base64.cpp])

    Encoding and decoding in the standard and in the URL alphabet. The decoder is
    proved to accept exactly the strings the encoder produces (in the URL variant:
    with or without their padding), and the recogniser to agree with it. *)
From S2P Require Import Prelude Bytes.

(** ** The code *)

Definition get_characters (is_url : bool) : list Z :=
  string_bytes
    (if is_url
     then "ABCDEFGHIJKLMNOPQRSTUVWXYZabcdefghijklmnopqrstuvwxyz0123456789-_"
     else "ABCDEFGHIJKLMNOPQRSTUVWXYZabcdefghijklmnopqrstuvwxyz0123456789+/").

Definition get_character_table (is_url : bool) : list Z :=
  let characters := get_characters is_url in
  foldl (λ table i, <[Z.to_nat (nth i characters 0) := Z.of_nat i]> table)
    (replicate 256 64) (seq 0 64).

Definition char_at (characters : list Z) (i : Z) : Z := nth (Z.to_nat i) characters 0.

(** One round of the loop of [base64_encode_impl], for the next [left] bytes. *)
Definition encode_group (is_url : bool) (g : list Z) : list Z :=
  let characters := get_characters is_url in
  let left := length g in
  let c := Z.shiftl (nth 0 g 0) 16 in
  let base64 := [char_at characters (Z.shiftr c 18)] in
  let c := if (left =? 1)%nat then c else Z.lor c (Z.shiftl (nth 1 g 0) 8) in
  let base64 := base64 ++ [char_at characters (Z.land (Z.shiftr c 12) 63)] in
  let c := if (left =? 3)%nat then Z.lor c (nth 2 g 0) else c in
  let base64 :=
    if negb (left =? 1)%nat
    then base64 ++ [char_at characters (Z.land (Z.shiftr c 6) 63)]
    else if negb is_url then base64 ++ [61] else base64 in
  if (left =? 3)%nat
  then base64 ++ [char_at characters (Z.land c 63)]
  else if negb is_url then base64 ++ [61] else base64.

Fixpoint base64_encode_impl (is_url : bool) (input : list Z) : list Z :=
  match input with
  | [] => []
  | b0 :: b1 :: b2 :: rest =>
      encode_group is_url [b0; b1; b2] ++ base64_encode_impl is_url rest
  | g => encode_group is_url g
  end.

Definition base64_encode (input : list Z) : list Z := base64_encode_impl false input.
Definition base64url_encode (input : list Z) : list Z := base64_encode_impl true input.

(** [while (!base64.empty() && base64.back() == '=')], on the reversed string:
    what is left of it, and the padding length. *)
Fixpoint strip_padding (reversed : list Z) (padding_length : nat) : list Z * nat :=
  match reversed with
  | c :: r => if c =? 61 then strip_padding r (S padding_length) else (reversed, padding_length)
  | [] => ([], padding_length)
  end.

Definition base64_drop_padding (is_url : bool) (base64 : list Z) : Result (list Z) :=
  let (r, padding_length) := strip_padding (reverse base64) 0 in
  let base64 := reverse r in
  if (3 <=? padding_length)%nat then RError "Wrong string padding"
  else if (negb is_url || (0 <? padding_length)%nat)
          && negb (Z.land (Z.of_nat (length base64 + padding_length)) 3 =? 0)
  then RError "Wrong padding length"
  else if is_url && (Z.land (Z.of_nat (length base64)) 3 =? 1)
  then RError "Wrong string length"
  else ROk base64.

(** The inner loop [for (t = 0; t < left; t++)]. *)
Fixpoint group_value (table : list Z) (t : nat) (g : list Z) (c : Z) : Result Z :=
  match g with
  | [] => ROk c
  | b :: g =>
      let value := char_at table b in
      if value =? 64 then RError "Wrong character in the string"
      else group_value table (S t) g (Z.lor c (Z.shiftl value (Z.of_nat (3 - t) * 6)))
  end.

Definition decode_group (table : list Z) (g : list Z) (ptr : writer)
    : outcome (Result writer) :=
  let left := length g in
  try_result (Ok (group_value table 0 g 0)) (λ c,
  ptr ← put (u8 (Z.shiftr c 16)) ptr;
  if (left =? 2)%nat then
    if negb (Z.land c (Z.shiftl 1 16 - 1) =? 0)
    then Ok (RError "Wrong padding in the string") else Ok (ROk ptr)
  else
    ptr ← put (u8 (Z.shiftr c 8)) ptr;
    if (left =? 3)%nat then
      if negb (Z.land c (Z.shiftl 1 8 - 1) =? 0)
      then Ok (RError "Wrong padding in the string") else Ok (ROk ptr)
    else
      ptr ← put (u8 c) ptr; Ok (ROk ptr)).

Fixpoint do_base64_decode_impl (base64 table : list Z) (ptr : writer)
    : outcome (Result writer) :=
  match base64 with
  | [] => Ok (ROk ptr)
  | b0 :: b1 :: b2 :: b3 :: rest =>
      try_result (decode_group table [b0; b1; b2; b3] ptr)
        (do_base64_decode_impl rest table)
  | g => decode_group table g ptr
  end.

(** The result string has its full size, filled with zero bytes, before the
    decoder writes into it. *)
Definition base64_decode_impl (is_url : bool) (base64 : list Z) : outcome (Result (list Z)) :=
  try_result (Ok (base64_drop_padding is_url base64)) (λ base64,
  let size := (length base64 / 4 * 3
               + Z.to_nat ((Z.land (Z.of_nat (length base64)) 3 + 1) / 2))%nat in
  try_result
    (do_base64_decode_impl base64 (get_character_table is_url) {| written := []; room := size |})
    (λ ptr, Ok (ROk (written ptr ++ replicate (room ptr) 0)))).

Definition base64_decode (base64 : list Z) := base64_decode_impl false base64.
Definition base64url_decode (base64 : list Z) := base64_decode_impl true base64.

Definition is_base64_characters_impl (is_url : bool) (input : list Z) : bool :=
  forallb (λ c, negb (char_at (get_character_table is_url) c =? 64)) input.

Definition is_base64_impl (is_url : bool) (input : list Z) : bool :=
  let (r, padding_length) := strip_padding (reverse input) 0 in
  let input := reverse r in
  if (3 <=? padding_length)%nat then false
  else if (negb is_url || (0 <? padding_length)%nat)
          && negb (Z.land (Z.of_nat (length input + padding_length)) 3 =? 0) then false
  else if is_url && (Z.land (Z.of_nat (length input)) 3 =? 1) then false
  else
    let table := get_character_table is_url in
    if negb (is_base64_characters_impl is_url input) then false
    else
      let value := char_at table (default 0 (last input)) in
      if (Z.land (Z.of_nat (length input)) 3 =? 2) && negb (Z.land value 15 =? 0) then false
      else if (Z.land (Z.of_nat (length input)) 3 =? 3) && negb (Z.land value 3 =? 0) then false
      else true.

Definition is_base64 (input : list Z) : bool := is_base64_impl false input.
Definition is_base64url (input : list Z) : bool := is_base64_impl true input.

Definition base64_filter (input : list Z) : list Z :=
  filter (λ c, negb (char_at (get_character_table false) c =? 64) || (c =? 61) = true) input.

Example base64_examples :
  base64_encode (string_bytes "Man!!") = string_bytes "TWFuISE=" ∧
  base64_decode (string_bytes "TWFuISE=") = Ok (ROk (string_bytes "Man!!")) ∧
  base64url_decode (string_bytes "TWFuISE") = Ok (ROk (string_bytes "Man!!")) ∧
  base64_decode (string_bytes "TWFuISF=") = Ok (RError "Wrong padding in the string").
Proof. vm_compute. done. Qed.

(** ** The alphabet and its table are inverse *)

Definition ch (u : bool) (i : Z) : Z := char_at (get_characters u) i.
Definition val (u : bool) (c : Z) : Z := char_at (get_character_table u) c.

Lemma ch_facts u i : 0 ≤ i < 64 → val u (ch u i) = i ∧ byte (ch u i) ∧ ch u i ≠ 61.
Proof.
  assert (Hall : forallb (λ i, (val u (ch u i) =? i) && bool_decide (byte (ch u i))
                         && negb (ch u i =? 61)) (seqZ 0 64) = true)
    by (destruct u; vm_compute; reflexivity).
  intros Hi. rewrite forallb_forall in Hall. specialize (Hall i).
  rewrite !andb_true_iff, Z.eqb_eq, bool_decide_eq_true, negb_true_iff, Z.eqb_neq in Hall.
  destruct Hall as [[? ?] ?]; [|done]. apply list_elem_of_In, elem_of_seqZ. lia.
Qed.

Lemma val_facts u c : byte c → val u c = 64 ∨ 0 ≤ val u c < 64 ∧ ch u (val u c) = c.
Proof.
  intros Hc.
  assert (Hall : forallb (λ c, (val u c =? 64)
                 || (0 <=? val u c) && (val u c <? 64) && (ch u (val u c) =? c)) (seqZ 0 256) = true)
    by (destruct u; vm_compute; reflexivity).
  apply (all_bytes _ Hall) in Hc. cbv beta in Hc.
  rewrite orb_true_iff, !andb_true_iff, !Z.eqb_eq, Z.leb_le, Z.ltb_lt in Hc. tauto.
Qed.

Lemma val_pad u : val u 61 = 64.
Proof. by destruct u. Qed.

(** ** The encoding as a list of six-bit numbers *)

Fixpoint sextets (x : list Z) : list Z :=
  match x with
  | [] => []
  | [a] => [a / 4; a mod 4 * 16]
  | [a; b] => [a / 4; a mod 4 * 16 + b / 16; b mod 16 * 4]
  | a :: b :: c :: x =>
      [a / 4; a mod 4 * 16 + b / 16; b mod 16 * 4 + c / 64; c mod 64] ++ sextets x
  end.

(** How many [=] complete the last group. *)
Fixpoint padding (x : list Z) : nat :=
  match x with
  | [] => 0
  | [_] => 2
  | [_; _] => 1
  | _ :: _ :: _ :: x => padding x
  end%nat.

(** The number a group of bytes, or of six-bit values, makes. *)
Lemma pack_bytes a b c : byte a → byte b → byte c →
  Z.lor (Z.lor (Z.shiftl a 16) (Z.shiftl b 8)) c = a * 65536 + b * 256 + c ∧
  Z.lor (Z.shiftl a 16) (Z.shiftl b 8) = a * 65536 + b * 256 ∧
  Z.shiftl a 16 = a * 65536.
Proof.
  unfold byte. intros Ha Hb Hc.
  assert (Z.lor (Z.shiftl a 16) (Z.shiftl b 8) = Z.shiftl (a * 256 + b) 8) as ->.
  { change 16 with (8 + 8). rewrite <-Z.shiftl_shiftl, <-Z.shiftl_lor, lor_add by lia. done. }
  rewrite lor_add, !Z.shiftl_mul_pow2 by lia. lia.
Qed.

Lemma six_bits n k : 0 ≤ k → Z.land (Z.shiftr n k) 63 = n / 2 ^ k mod 64.
Proof. intros. change 63 with (2 ^ 6 - 1). by rewrite land_mask, Z.shiftr_div_pow2 by lia. Qed.

(** Equal lists of characters, number by number. *)
Ltac same_chars :=
  repeat match goal with |- _ :: _ = _ :: _ => apply (f_equal2 cons) end; try reflexivity;
  apply (f_equal (char_at _));
  change (2 ^ 18) with 262144; change (2 ^ 12) with 4096; change (2 ^ 6) with 64;
  Z.to_euclidean_division_equations; lia.

Lemma encode_group3 u a b c : byte a → byte b → byte c →
  encode_group u [a; b; c] = ch u <$> sextets [a; b; c].
Proof.
  intros Ha Hb Hc. destruct (pack_bytes a b c Ha Hb Hc) as (E3 & E2 & E1).
  unfold byte in *. unfold encode_group. cbn [length Nat.eqb nth negb].
  rewrite E3, E2, E1. change (Z.land (a * 65536 + b * 256 + c) 63)
    with (Z.land (a * 65536 + b * 256 + c) (2 ^ 6 - 1)). rewrite land_mask, !six_bits by lia.
  rewrite Z.shiftr_div_pow2 by lia. simpl app. unfold ch. cbn [sextets app].
  rewrite !fmap_cons, fmap_nil. same_chars.
Qed.

Lemma encode_group2 u a b : byte a → byte b →
  encode_group u [a; b] = (ch u <$> sextets [a; b]) ++ if u then [] else [61].
Proof.
  intros Ha Hb. destruct (pack_bytes a b 0 Ha Hb ltac:(done)) as (_ & E2 & E1).
  unfold byte in *. unfold encode_group. cbn [length Nat.eqb nth negb].
  rewrite E2, E1, !six_bits by lia.
  rewrite Z.shiftr_div_pow2 by lia. simpl app. unfold ch. cbn [sextets].
  rewrite ?fmap_cons, ?fmap_nil. destruct u; cbn [app negb]; same_chars.
Qed.

Lemma encode_group1 u a : byte a →
  encode_group u [a] = (ch u <$> sextets [a]) ++ if u then [] else [61; 61].
Proof.
  intros Ha. destruct (pack_bytes a 0 0 Ha ltac:(done) ltac:(done)) as (_ & _ & E1).
  unfold byte in *. unfold encode_group. cbn [length Nat.eqb nth negb].
  rewrite E1, !six_bits by lia.
  rewrite Z.shiftr_div_pow2 by lia. simpl app. unfold ch. cbn [sextets].
  rewrite ?fmap_cons, ?fmap_nil. destruct u; cbn [app negb]; same_chars.
Qed.

Lemma base64_encode_sextets u x : bytes_ok x →
  base64_encode_impl u x = (ch u <$> sextets x) ++ if u then [] else replicate (padding x) 61.
Proof.
  induction x as [| | |a b c x IH] using list_ind3; intros Hx;
    rewrite ?bytes_ok_cons in Hx.
  - by destruct u.
  - simpl base64_encode_impl. by rewrite encode_group1 by tauto.
  - simpl base64_encode_impl. by rewrite encode_group2 by tauto.
  - cbn [base64_encode_impl]. rewrite encode_group3, IH by tauto. by rewrite app_assoc, <-fmap_app.
Qed.

(** The lengths of a string, of its encoding and of the padding. *)
Lemma sextets_length x : ∃ k,
  (length x = 3 * k ∧ length (sextets x) = 4 * k ∧ padding x = 0)%nat ∨
  (length x = 3 * k + 1 ∧ length (sextets x) = 4 * k + 2 ∧ padding x = 2)%nat ∨
  (length x = 3 * k + 2 ∧ length (sextets x) = 4 * k + 3 ∧ padding x = 1)%nat.
Proof.
  induction x as [| | |a b c x [k IH]] using list_ind3.
  - exists 0%nat. by left.
  - exists 0%nat. by right; left.
  - exists 0%nat. by right; right.
  - exists (S k). cbn [sextets padding]. rewrite length_app. simpl length. lia.
Qed.

Lemma sextets_range x : bytes_ok x → Forall (λ i, 0 ≤ i < 64) (sextets x).
Proof.
  induction x as [| | |a b c x IH] using list_ind3; intros Hx;
    rewrite ?bytes_ok_cons in Hx; unfold byte in Hx; cbn [sextets app];
    rewrite ?Forall_cons, ?Forall_nil.
  1-3: repeat split; Z.to_euclidean_division_equations; lia.
  split_and!; [Z.to_euclidean_division_equations; lia..|]. apply IH; tauto.
Qed.

(** ** Decoding the groups *)

(** A character of the alphabet. *)
Definition valid_char (u : bool) (c : Z) : Prop := 0 ≤ val u c < 64 ∧ ch u (val u c) = c.

Definition values (u : bool) (n : Z) (g : list Z) : Z := foldl (λ n c, n * 64 + val u c) n g.

(** One more value below the ones packed so far. *)
Lemma pack_value n v k : 0 ≤ k → 0 ≤ v < 64 →
  Z.lor (n * 2 ^ (k + 6)) (Z.shiftl v k) = (n * 64 + v) * 2 ^ k.
Proof.
  intros Hk Hv. replace (n * 2 ^ (k + 6)) with (Z.shiftl (Z.shiftl n 6) k).
  - by rewrite <-Z.shiftl_lor, lor_add, Z.shiftl_mul_pow2 by lia.
  - rewrite Z.shiftl_shiftl, Z.shiftl_mul_pow2 by lia. f_equal. f_equal. lia.
Qed.

Lemma group_value_loop u g t n :
  bytes_ok g → (t + length g ≤ 4)%nat →
  (Forall (valid_char u) g ∧
   group_value (get_character_table u) t g (n * 2 ^ (Z.of_nat (4 - t) * 6))
   = ROk (values u n g * 2 ^ (Z.of_nat (4 - t - length g) * 6))) ∨
  (¬ Forall (valid_char u) g ∧
   group_value (get_character_table u) t g (n * 2 ^ (Z.of_nat (4 - t) * 6))
   = RError "Wrong character in the string").
Proof.
  intros Hg. revert t n. induction Hg as [|c g Hc Hg IH]; intros t n Ht; simpl in Ht.
  { left. split; [done|]. simpl. by rewrite Nat.sub_0_r. }
  cbn [group_value]. fold (val u c). destruct (val_facts u c Hc) as [Hv|[Hr He]].
  - right. split; [|by rewrite Hv].
    intros [[Hv' _] _]%Forall_cons. rewrite Hv in Hv'. lia.
  - rewrite (proj2 (Z.eqb_neq _ _)) by lia.
    replace (Z.of_nat (4 - t) * 6) with (Z.of_nat (3 - t) * 6 + 6) by lia.
    rewrite pack_value by lia. replace (3 - t)%nat with (4 - S t)%nat by lia.
    destruct (IH (S t) (n * 64 + val u c)) as [[Hf ->]|[Hf ->]]; [lia|left|right].
    + split; [by constructor|]. simpl length.
      by replace (4 - S t - length g)%nat with (4 - t - S (length g))%nat by lia.
    + split; [|done]. by intros [_ ?]%Forall_cons.
Qed.

Lemma group_value_spec u g : bytes_ok g → (length g ≤ 4)%nat →
  (Forall (valid_char u) g ∧
   group_value (get_character_table u) 0 g 0
   = ROk (values u 0 g * 2 ^ (Z.of_nat (4 - length g) * 6))) ∨
  (¬ Forall (valid_char u) g ∧
   group_value (get_character_table u) 0 g 0 = RError "Wrong character in the string").
Proof. intros Hg Hl. exact (group_value_loop u g 0 0 Hg Hl). Qed.

(** The characters of [x], and the ones the decoder may meet. *)
Definition chars (u : bool) (x : list Z) : list Z := ch u <$> sextets x.

(** What decoding a group means: the characters are those of some bytes, which are
    written; or there are no such bytes, and an error is reported. *)
Definition group_decodes (u : bool) (g : list Z) : Prop :=
  ∀ ptr, (length g * 3 / 4 ≤ room ptr)%nat →
  (∃ x, bytes_ok x ∧ g = chars u x ∧ length x = (length g * 3 / 4)%nat ∧
     decode_group (get_character_table u) g ptr
     = Ok (ROk {| written := written ptr ++ x; room := room ptr - length x |})) ∨
  (∃ e, decode_group (get_character_table u) g ptr = Ok (RError e) ∧
     ∀ x, bytes_ok x → g ≠ chars u x).

Lemma chars_valid u x : bytes_ok x → Forall (valid_char u) (chars u x).
Proof.
  intros Hx. unfold chars. apply Forall_fmap. eapply Forall_impl; [by apply sextets_range|].
  intros i Hi. destruct (ch_facts u i Hi) as (Hv & _). unfold valid_char. simpl. by rewrite Hv.
Qed.

Lemma low_bits n k : 0 ≤ k → Z.land n (Z.shiftl 1 k - 1) = n mod 2 ^ k.
Proof. intros. by rewrite Z.shiftl_1_l, land_mask. Qed.

Lemma u8_shift n k : 0 ≤ k → u8 (Z.shiftr n k) = n / 2 ^ k mod 256.
Proof. intros. by rewrite Z.shiftr_div_pow2. Qed.

Ltac byte_arith := unfold byte in *;
  change (2 ^ 18) with 262144 in *; change (2 ^ 12) with 4096 in *; change (2 ^ 6) with 64 in *;
  change (2 ^ 16) with 65536 in *; change (2 ^ 8) with 256 in *;
  Z.to_euclidean_division_equations; lia.

Ltac puts := repeat (rewrite put_Ok by (simpl; lia); cbn [mbind outcome_bind written room]).

(** The bytes written, one by one. *)
Ltac same_writer :=
  do 2 apply f_equal; apply (f_equal2 Build_writer); [apply (f_equal (app _))|simpl; lia];
  cbn [app]; unfold u8, two8;
  repeat match goal with |- _ :: _ = _ :: _ => apply (f_equal2 cons) end; try reflexivity.

Lemma decode_group4 u c0 c1 c2 c3 :
  bytes_ok [c0; c1; c2; c3] → group_decodes u [c0; c1; c2; c3].
Proof.
  intros Hg ptr Hroom. simpl in Hroom. unfold decode_group. cbn [length Nat.eqb].
  destruct (group_value_spec u [c0; c1; c2; c3] Hg) as [[Hv ->]|[Hv ->]]; [simpl; lia| |].
  2: { right. eexists. split; [done|]. intros x Hx Hx'. apply Hv. rewrite Hx'. by apply chars_valid. }
  left. rewrite !Forall_cons in Hv.
  destruct Hv as ([R0 E0] & [R1 E1] & [R2 E2] & [R3 E3] & _).
  cbn [values foldl length Nat.sub Z.of_nat Z.mul]. rewrite Z.pow_0_r, Z.mul_1_r.
  set (n := (((0 * 64 + val u c0) * 64 + val u c1) * 64 + val u c2) * 64 + val u c3).
  exists [n / 65536; n / 256 mod 256; n mod 256]. split_and!.
  - rewrite !bytes_ok_cons. unfold bytes_ok. rewrite Forall_nil. subst n.
    split_and!; [byte_arith..|done].
  - unfold chars. cbn [sextets app]. rewrite !fmap_cons, fmap_nil.
    rewrite <-E0 at 1. rewrite <-E1 at 1. rewrite <-E2 at 1. rewrite <-E3 at 1.
    repeat match goal with |- _ :: _ = _ :: _ => apply (f_equal2 cons) end; try reflexivity;
      apply (f_equal (ch u)); subst n; byte_arith.
  - done.
  - unfold try_result. cbn [mbind outcome_bind]. rewrite !u8_shift by lia.
    puts. rewrite <-!app_assoc. same_writer. subst n. byte_arith.
Qed.

Lemma decode_group3 u c0 c1 c2 :
  bytes_ok [c0; c1; c2] → group_decodes u [c0; c1; c2].
Proof.
  intros Hg ptr Hroom. simpl in Hroom. unfold decode_group. cbn [length Nat.eqb].
  destruct (group_value_spec u [c0; c1; c2] Hg) as [[Hv ->]|[Hv ->]]; [simpl; lia| |].
  2: { right. eexists. split; [done|]. intros x Hx Hx'. apply Hv. rewrite Hx'. by apply chars_valid. }
  rewrite !Forall_cons in Hv. destruct Hv as ([R0 E0] & [R1 E1] & [R2 E2] & _).
  cbn [values foldl length Nat.sub]. change (2 ^ (Z.of_nat 1 * 6)) with 64.
  set (n := ((0 * 64 + val u c0) * 64 + val u c1) * 64 + val u c2).
  unfold try_result. cbn [mbind outcome_bind]. rewrite !u8_shift, low_bits by lia. puts.
  destruct (Z.eqb_spec ((n * 64) mod 2 ^ 8) 0) as [Hz|Hz]; [left|right].
  - exists [n / 1024; n / 4 mod 256]. split_and!.
    + rewrite !bytes_ok_cons. unfold bytes_ok. rewrite Forall_nil. subst n.
      split_and!; [byte_arith..|done].
    + unfold chars. cbn [sextets app]. rewrite !fmap_cons, fmap_nil.
      rewrite <-E0 at 1. rewrite <-E1 at 1. rewrite <-E2 at 1.
      repeat match goal with |- _ :: _ = _ :: _ => apply (f_equal2 cons) end; try reflexivity;
        apply (f_equal (ch u)); subst n; byte_arith.
    + done.
    + cbn [negb]. rewrite <-!app_assoc. same_writer; subst n; byte_arith.
  - eexists. split; [done|]. intros x Hx Hx'. apply Hz.
    destruct x as [|a [|b [|]]]; try done.
    unfold chars in Hx'. cbn [sextets] in Hx'. rewrite !fmap_cons, fmap_nil in Hx'.
    rewrite !bytes_ok_cons in Hx. destruct Hx as (Ha & Hb & _).
    assert (val u c2 = b mod 16 * 4) as H2.
    { simplify_eq. apply ch_facts. byte_arith. }
    subst n. rewrite H2. byte_arith.
Qed.

Lemma decode_group2 u c0 c1 : bytes_ok [c0; c1] → group_decodes u [c0; c1].
Proof.
  intros Hg ptr Hroom. simpl in Hroom. unfold decode_group. cbn [length Nat.eqb].
  destruct (group_value_spec u [c0; c1] Hg) as [[Hv ->]|[Hv ->]]; [simpl; lia| |].
  2: { right. eexists. split; [done|]. intros x Hx Hx'. apply Hv. rewrite Hx'. by apply chars_valid. }
  rewrite !Forall_cons in Hv. destruct Hv as ([R0 E0] & [R1 E1] & _).
  cbn [values foldl length Nat.sub]. change (2 ^ (Z.of_nat 2 * 6)) with 4096.
  set (n := (0 * 64 + val u c0) * 64 + val u c1).
  unfold try_result. cbn [mbind outcome_bind]. rewrite !u8_shift, low_bits by lia. puts.
  destruct (Z.eqb_spec ((n * 4096) mod 2 ^ 16) 0) as [Hz|Hz]; [left|right].
  - exists [n / 16]. split_and!.
    + rewrite !bytes_ok_cons. unfold bytes_ok. rewrite Forall_nil. subst n.
      split; [byte_arith|done].
    + unfold chars. cbn [sextets app]. rewrite !fmap_cons, fmap_nil.
      rewrite <-E0 at 1. rewrite <-E1 at 1.
      repeat match goal with |- _ :: _ = _ :: _ => apply (f_equal2 cons) end; try reflexivity;
        apply (f_equal (ch u)); subst n; byte_arith.
    + done.
    + cbn [negb]. same_writer; subst n; byte_arith.
  - eexists. split; [done|]. intros x Hx Hx'. apply Hz.
    destruct x as [|a [|b [|]]]; try done.
    unfold chars in Hx'. cbn [sextets] in Hx'. rewrite !fmap_cons, fmap_nil in Hx'.
    rewrite !bytes_ok_cons in Hx. destruct Hx as (Ha & _).
    assert (val u c1 = a mod 4 * 16) as H1.
    { simplify_eq. apply ch_facts. byte_arith. }
    subst n. rewrite H1. byte_arith.
Qed.

Lemma chars_app3 u a b c x : chars u (a :: b :: c :: x) = chars u [a; b; c] ++ chars u x.
Proof. unfold chars. cbn [sextets]. by rewrite !fmap_app, app_nil_r. Qed.

Lemma chars_length u x : length (chars u x) = length (sextets x).
Proof. unfold chars. apply length_fmap. Qed.

(** An encoding of at least four characters starts with that of three bytes. *)
Lemma chars_inv4 u c0 c1 c2 c3 s x :
  c0 :: c1 :: c2 :: c3 :: s = chars u x →
  ∃ a b c x', x = a :: b :: c :: x' ∧ [c0; c1; c2; c3] = chars u [a; b; c] ∧ s = chars u x'.
Proof.
  intros Hs. destruct x as [|a [|b [|c x]]]; try (apply (f_equal length) in Hs; done).
  exists a, b, c, x. split; [done|]. rewrite chars_app3 in Hs.
  change (c0 :: c1 :: c2 :: c3 :: s) with ([c0; c1; c2; c3] ++ s) in Hs.
  by apply app_inj_1 in Hs.
Qed.

(** The decoder writes the bytes a string encodes, or reports an error on a string
    that encodes none. *)
Lemma decode_loop_spec u s :
  bytes_ok s → (length s mod 4 ≠ 1)%nat → ∀ ptr, (length s * 3 / 4 ≤ room ptr)%nat →
  (∃ x, bytes_ok x ∧ s = chars u x ∧ length x = (length s * 3 / 4)%nat ∧
     do_base64_decode_impl s (get_character_table u) ptr
     = Ok (ROk {| written := written ptr ++ x; room := room ptr - length x |})) ∨
  (∃ e, do_base64_decode_impl s (get_character_table u) ptr = Ok (RError e) ∧
     ∀ x, bytes_ok x → s ≠ chars u x).
Proof.
  induction s as [| | | |c0 c1 c2 c3 s IH] using list_ind4; intros Hs Hm ptr Hr.
  - left. exists []. split_and!; [constructor|done|done|]. simpl.
    rewrite app_nil_r, Nat.sub_0_r. by destruct ptr.
  - done.
  - exact (decode_group2 u _ _ Hs ptr Hr).
  - exact (decode_group3 u _ _ _ Hs ptr Hr).
  - change (c0 :: c1 :: c2 :: c3 :: s) with ([c0; c1; c2; c3] ++ s) in Hs, Hr, Hm.
    apply bytes_ok_app in Hs as [Hg Hs]. rewrite length_app in Hr, Hm.
    change (length [c0; c1; c2; c3]) with 4%nat in Hr, Hm.
    assert (Hd : ((4 + length s) * 3 / 4 = 3 + length s * 3 / 4)%nat).
    { replace ((4 + length s) * 3)%nat with (3 * 4 + length s * 3)%nat by lia.
      by rewrite Nat.div_add_l by lia. }
    cbn [do_base64_decode_impl].
    destruct (decode_group4 u _ _ _ _ Hg ptr) as [(y & Hy & Ey & Ly & ->)|(e & -> & Hno)].
    { rewrite Hd in Hr. change (length [c0; c1; c2; c3] * 3 / 4)%nat with 3%nat. lia. }
    2: { right. exists e. split; [done|]. intros x Hx Hc.
         apply chars_inv4 in Hc as (a & b & c & x' & -> & Hc & _).
         eapply Hno; [|exact Hc]. rewrite !bytes_ok_cons in *. unfold bytes_ok.
         rewrite Forall_nil. tauto. }
    unfold try_result. cbn [mbind outcome_bind].
    assert (length y = 3%nat) as Hy3 by (simpl in Ly; lia).
    destruct y as [|a [|b [|c [|]]]]; try done.
    destruct (IH Hs) with (ptr := {| written := written ptr ++ [a; b; c];
      room := room ptr - length [a; b; c] |}) as [(x & Hx & Ex & Lx & ->)|(e & -> & Hno)].
    { replace (4 + length s)%nat with (length s + 1 * 4)%nat in Hm by lia.
      by rewrite Nat.Div0.mod_add in Hm. }
    { rewrite Hd in Hr. cbn [room length]. lia. }
    + left. exists (a :: b :: c :: x). split_and!.
      * change (a :: b :: c :: x) with ([a; b; c] ++ x). by apply bytes_ok_app.
      * rewrite chars_app3, <-Ey, <-Ex. done.
      * change (length (c0 :: c1 :: c2 :: c3 :: s)) with (4 + length s)%nat. rewrite Hd, <-Lx. done.
      * do 2 apply f_equal. apply (f_equal2 Build_writer); simpl; [by rewrite <-app_assoc|lia].
    + right. exists e. split; [done|]. intros x Hx Hc.
      apply chars_inv4 in Hc as (a' & b' & c' & x' & -> & _ & Hc).
      eapply Hno; [|exact Hc]. rewrite !bytes_ok_cons in Hx. tauto.
Qed.

(** ** Padding *)

Lemma strip_padding_spec r n :
  ∃ k r', strip_padding r n = (r', n + k)%nat ∧ r = replicate k 61 ++ r' ∧ head r' ≠ Some 61.
Proof.
  revert n. induction r as [|c r IH]; intros n; simpl.
  { exists 0%nat, []. by rewrite Nat.add_0_r. }
  destruct (Z.eqb_spec c 61) as [->|Hc].
  - destruct (IH (S n)) as (k & r' & -> & -> & Hh). exists (S k), r'.
    split; [f_equal; lia|]. done.
  - exists 0%nat, (c :: r). split; [f_equal; lia|]. split; [done|]. simpl. congruence.
Qed.

Lemma strip_padding_reverse s k :
  last s ≠ Some 61 → strip_padding (reverse (s ++ replicate k 61)) 0 = (reverse s, k).
Proof.
  intros Hl. rewrite reverse_app, reverse_replicate.
  assert (∀ k n r, head r ≠ Some 61 → strip_padding (replicate k 61 ++ r) n = (r, n + k)%nat) as H.
  { clear. intros k. induction k as [|k IH]; intros n r Hr; simpl.
    - destruct r as [|c r]; simpl in *; [by rewrite Nat.add_0_r|].
      rewrite (proj2 (Z.eqb_neq _ _)) by congruence. by rewrite Nat.add_0_r.
    - rewrite IH by done. f_equal. lia. }
  rewrite H; [done|]. by rewrite head_reverse.
Qed.

Lemma chars_no_pad u x : bytes_ok x → 61 ∉ chars u x.
Proof.
  intros Hx (i & Heq & Hi)%list_elem_of_fmap.
  pose proof (sextets_range x Hx) as Hr. rewrite Forall_forall in Hr. specialize (Hr i Hi).
  destruct (ch_facts u i Hr) as (_ & _ & Hne). congruence.
Qed.

Lemma chars_last u x : bytes_ok x → last (chars u x) ≠ Some 61.
Proof. intros Hx Hl. apply (chars_no_pad u x Hx). by apply last_Some_elem_of. Qed.

Lemma land_3 n : Z.land (Z.of_nat n) 3 = Z.of_nat (n mod 4).
Proof. change 3 with (2 ^ 2 - 1). rewrite land_mask by lia. by rewrite Nat2Z.inj_mod. Qed.

(** The strings the decoder is to accept for [x]: the padding is required in
    the standard alphabet, and may be left out in the URL alphabet. *)
Definition encodes (u : bool) (s x : list Z) : Prop :=
  s = chars u x ++ replicate (padding x) 61 ∨ u = true ∧ s = chars u x.

Lemma strip_unique b b' k k' :
  last b ≠ Some 61 → last b' ≠ Some 61 → b ++ replicate k 61 = b' ++ replicate k' 61 →
  b = b' ∧ k = k'.
Proof.
  intros Hb Hb' Heq. pose proof (strip_padding_reverse b k Hb) as H1.
  rewrite Heq, strip_padding_reverse in H1 by done. simplify_eq.
  split; [|done]. by apply (inj reverse).
Qed.

(** A string without its padding, and what it encodes. *)
Lemma encodes_stripped u b k x :
  bytes_ok x → last b ≠ Some 61 →
  encodes u (b ++ replicate k 61) x ↔ b = chars u x ∧ (k = padding x ∨ u = true ∧ k = 0%nat).
Proof.
  intros Hx Hb. unfold encodes. split.
  - intros [Heq|[-> Heq]].
    + apply strip_unique in Heq as [-> ->]; auto using chars_last.
    + rewrite <-(app_nil_r (chars _ _)) in Heq.
      apply (strip_unique _ _ _ 0) in Heq as [-> ->]; auto using chars_last.
  - intros [-> [->|[-> ->]]]; [by left|right]. by rewrite app_nil_r.
Qed.

(** The tests on the lengths, shared by the decoder and the recogniser. *)
Lemma padding_tests u b k :
  (3 <=? k)%nat = false →
  (negb u || (0 <? k)%nat) && negb (Z.land (Z.of_nat (length b + k)) 3 =? 0) = false →
  u && (Z.land (Z.of_nat (length b)) 3 =? 1) = false →
  (length b mod 4 ≠ 1)%nat ∧
  ∀ x, b = chars u x → k = padding x ∨ u = true ∧ k = 0%nat.
Proof.
  rewrite !land_3, Nat.leb_gt. intros Hk H1 H2.
  pose proof (Nat.div_mod (length b) 4 ltac:(lia)) as Db.
  pose proof (Nat.mod_upper_bound (length b) 4 ltac:(lia)) as Mb.
  pose proof (Nat.div_mod (length b + k) 4 ltac:(lia)) as Dk.
  pose proof (Nat.mod_upper_bound (length b + k) 4 ltac:(lia)) as Mk.
  assert (u = true ∧ k = 0%nat ∨ ((length b + k) mod 4 = 0)%nat) as Hc.
  { destruct u; cbn [negb orb andb] in H1; [|right; lia].
    destruct (Nat.ltb_spec 0 k); cbn [orb andb] in H1; [right; lia|left; split; [done|lia]]. }
  split.
  - destruct Hc as [[-> ->]|Hc]; [cbn [andb] in H2|]; lia.
  - intros x Hx. destruct Hc as [Hc|Hc]; [by right|left].
    destruct (sextets_length x) as [n Hn]. rewrite <-(chars_length u), <-Hx in Hn. lia.
Qed.

Lemma padding_tests_pass u x k :
  k = padding x ∨ u = true ∧ k = 0%nat →
  (3 <=? k)%nat = false ∧
  (negb u || (0 <? k)%nat) && negb (Z.land (Z.of_nat (length (chars u x) + k)) 3 =? 0) = false ∧
  u && (Z.land (Z.of_nat (length (chars u x))) 3 =? 1) = false.
Proof.
  intros Hk. rewrite !land_3, chars_length. destruct (sextets_length x) as [n Hn].
  pose proof (Nat.div_mod (length (sextets x)) 4 ltac:(lia)) as Db.
  pose proof (Nat.mod_upper_bound (length (sextets x)) 4 ltac:(lia)) as Mb.
  pose proof (Nat.div_mod (length (sextets x) + k) 4 ltac:(lia)) as Dk.
  pose proof (Nat.mod_upper_bound (length (sextets x) + k) 4 ltac:(lia)) as Mk.
  split_and!.
  - apply Nat.leb_gt. destruct Hk as [->|[_ ->]]; lia.
  - destruct Hk as [->|[-> ->]]; [|done]. replace (_ mod 4)%nat with 0%nat by lia.
    apply andb_false_r.
  - destruct u; [|done]. cbn [andb]. apply Z.eqb_neq. lia.
Qed.

Lemma stripped s : ∃ b k,
  strip_padding (reverse s) 0 = (reverse b, k) ∧ s = b ++ replicate k 61 ∧ last b ≠ Some 61.
Proof.
  destruct (strip_padding_spec (reverse s) 0) as (k & r' & E & Hr & Hh).
  exists (reverse r'), k. rewrite reverse_involutive. split; [done|]. split.
  - apply (inj reverse). by rewrite reverse_app, reverse_replicate, reverse_involutive.
  - by rewrite <-head_reverse, reverse_involutive.
Qed.

(** The decoder decides what a string encodes. *)
Lemma base64_decode_decides u s : bytes_ok s →
  (∃ x, bytes_ok x ∧ encodes u s x ∧ base64_decode_impl u s = Ok (ROk x)) ∨
  (∃ e, base64_decode_impl u s = Ok (RError e) ∧ ∀ x, bytes_ok x → ¬ encodes u s x).
Proof.
  intros Hs. destruct (stripped s) as (b & k & Hst & -> & Hl).
  apply bytes_ok_app in Hs as [Hb _].
  assert (Hno : (∀ x, bytes_ok x → b = chars u x → k = padding x ∨ u = true ∧ k = 0%nat → False) →
    ∀ x, bytes_ok x → ¬ encodes u (b ++ replicate k 61) x).
  { intros H x Hx He. apply encodes_stripped in He as [Hb' Hk]; [|done|done]. eauto. }
  assert (Herr : ∀ x, b = chars u x → k = padding x ∨ u = true ∧ k = 0%nat →
    ∀ t, (3 <=? k)%nat = true ∨
      (negb u || (0 <? k)%nat) && negb (Z.land (Z.of_nat (length b + k)) 3 =? 0) = true ∨
      u && (Z.land (Z.of_nat (length b)) 3 =? 1) = true → t).
  { intros x -> Hk t Hc. destruct (padding_tests_pass u x k Hk) as (P1 & P2 & P3).
    exfalso. destruct Hc as [Hc|[Hc|Hc]]; congruence. }
  unfold base64_decode_impl, base64_drop_padding. rewrite Hst, reverse_involutive.
  destruct (3 <=? k)%nat eqn:T1.
  { right. eexists. split; [done|]. apply Hno. intros x _ Hx Hk. eapply Herr; eauto. }
  destruct ((negb u || _) && _) eqn:T2.
  { right. eexists. split; [done|]. apply Hno. intros x _ Hx Hk. eapply Herr; eauto. }
  destruct (u && _) eqn:T3.
  { right. eexists. split; [done|]. apply Hno. intros x _ Hx Hk. eapply Herr; eauto. }
  destruct (padding_tests u b k T1 T2 T3) as [Hm Hpad].
  unfold try_result. cbn [mbind outcome_bind].
  set (size := (length b / 4 * 3 + _)%nat).
  assert (size = (length b * 3 / 4)%nat) as Hsize.
  { subst size. rewrite land_3. clear -Hm.
    pose proof (Nat.div_mod (length b) 4 ltac:(lia)) as Db.
    pose proof (Nat.mod_upper_bound (length b) 4 ltac:(lia)) as Mb.
    assert (length b * 3 = length b mod 4 * 3 + (length b / 4 * 3) * 4)%nat as -> by lia.
    rewrite Nat.div_add by lia.
    assert (length b mod 4 = 0 ∨ length b mod 4 = 2 ∨ length b mod 4 = 3)%nat as [->|[->| ->]]
      by lia.
    - change (Z.to_nat ((Z.of_nat 0 + 1) / 2)) with 0%nat. change (0 * 3 / 4)%nat with 0%nat. lia.
    - change (Z.to_nat ((Z.of_nat 2 + 1) / 2)) with 1%nat. change (2 * 3 / 4)%nat with 1%nat. lia.
    - change (Z.to_nat ((Z.of_nat 3 + 1) / 2)) with 2%nat. change (3 * 3 / 4)%nat with 2%nat. lia. }
  destruct (decode_loop_spec u b Hb Hm {| written := []; room := size |})
    as [(x & Hx & Ex & Lx & ->)|(e & -> & Hnone)]; [cbn [room]; lia|left|right].
  - exists x. split; [done|]. split; [by apply encodes_stripped; eauto|].
    cbn [mbind outcome_bind written room].
    replace (size - length x)%nat with 0%nat by lia. simpl. by rewrite app_nil_r.
  - exists e. split; [done|]. apply Hno. intros x Hx Hbx _. exact (Hnone x Hx Hbx).
Qed.

Lemma sextets_injective x y : bytes_ok x → bytes_ok y → sextets x = sextets y → x = y.
Proof.
  revert y. induction x as [| | |a b c x IH] using list_ind3;
    intros [|a' [|b' [|c' y]]] Hx Hy Heq; rewrite ?bytes_ok_cons in Hx, Hy; unfold byte in Hx, Hy;
    cbn [sextets app] in Heq; simplify_eq; try done.
  all: try (apply (f_equal length) in Heq; by destruct x || by destruct y).
  - f_equal. Z.to_euclidean_division_equations; lia.
  - f_equal; [|f_equal]; Z.to_euclidean_division_equations; lia.
  - f_equal; [|f_equal; [|f_equal; [|apply IH; tauto]]]; Z.to_euclidean_division_equations; lia.
Qed.

Lemma chars_injective u x y : bytes_ok x → bytes_ok y → chars u x = chars u y → x = y.
Proof.
  intros Hx Hy Heq. apply sextets_injective; [done..|].
  apply (f_equal (fmap (val u))) in Heq. unfold chars in Heq.
  rewrite <-!list_fmap_compose in Heq.
  assert (∀ x, bytes_ok x → (val u ∘ ch u) <$> sextets x = sextets x) as H.
  { clear. intros x Hx. pose proof (sextets_range x Hx) as Hr.
    induction Hr as [|i l Hi _ IH]; [done|]. rewrite fmap_cons, IH. simpl.
    by rewrite (proj1 (ch_facts u i Hi)). }
  by rewrite !H in Heq.
Qed.

Lemma encodes_injective u s x y :
  bytes_ok x → bytes_ok y → encodes u s x → encodes u s y → x = y.
Proof.
  intros Hx Hy Ex Ey. destruct (stripped s) as (b & k & _ & -> & Hl).
  apply encodes_stripped in Ex as [-> _]; [|done|done].
  apply encodes_stripped in Ey as [Ey _]; [|done|done]. by eapply chars_injective.
Qed.

Lemma base64_decode_encodes u s x : bytes_ok s → bytes_ok x →
  base64_decode_impl u s = Ok (ROk x) ↔ encodes u s x.
Proof.
  intros Hs Hx. destruct (base64_decode_decides u s Hs) as [(y & Hy & Ey & ->)|(e & -> & Hno)].
  - split.
    + by intros [= ->].
    + intros Ex. by rewrite (encodes_injective u s x y).
  - split; [done|]. intros Ex. by apply Hno in Ex.
Qed.

(** ** The properties *)

(** C29. Decoding inverts encoding, and nothing else decodes: a string decodes to [x] if
    and only if it is the encoding of [x]. *)
Theorem base64_decode_iff_encode s x :
  bytes_ok s → bytes_ok x →
  base64_decode s = Ok (ROk x) ↔ s = base64_encode x.
Proof.
  intros Hs Hx. unfold base64_decode. rewrite base64_decode_encodes by done.
  unfold base64_encode. rewrite base64_encode_sextets by done.
  split; [|by left]. by intros [?|[? _]].
Qed.

Lemma base64_decode_iff_encode_witness :
  base64_decode (string_bytes "TWFuISE=") = Ok (ROk (string_bytes "Man!!")).
Proof.
  apply (base64_decode_iff_encode (string_bytes "TWFuISE=") (string_bytes "Man!!"));
    [apply (bool_decide_unpack _); vm_compute; exact I..|reflexivity].
Defined.

(** In the URL alphabet the padding may be present or left out, and nothing else
    decodes. *)
Theorem base64url_decode_iff s x :
  bytes_ok s → bytes_ok x →
  base64url_decode s = Ok (ROk x) ↔
  s = base64url_encode x ∨ s = base64url_encode x ++ replicate (padding x) 61.
Proof.
  intros Hs Hx. unfold base64url_decode. rewrite base64_decode_encodes by done.
  unfold base64url_encode. rewrite base64_encode_sextets, app_nil_r by done.
  unfold encodes. fold (chars true x). tauto.
Qed.

Lemma base64url_decode_iff_witness :
  base64url_decode (string_bytes "TWFuISE") = Ok (ROk (string_bytes "Man!!")).
Proof.
  apply (base64url_decode_iff (string_bytes "TWFuISE") (string_bytes "Man!!"));
    [apply (bool_decide_unpack _); vm_compute; exact I..|left; reflexivity].
Defined.

(** ** The recogniser *)

Definition recognised (u : bool) (s : list Z) : bool :=
  is_base64_characters_impl u s &&
  (let value := char_at (get_character_table u) (default 0 (last s)) in
   negb ((Z.land (Z.of_nat (length s)) 3 =? 2) && negb (Z.land value 15 =? 0)) &&
   negb ((Z.land (Z.of_nat (length s)) 3 =? 3) && negb (Z.land value 3 =? 0))).

Lemma is_base64_characters_valid u s :
  bytes_ok s → is_base64_characters_impl u s = true ↔ Forall (valid_char u) s.
Proof.
  intros Hs. unfold is_base64_characters_impl. rewrite forallb_Forall.
  unfold bytes_ok in Hs. rewrite Forall_forall in Hs. rewrite !Forall_forall.
  split; intros H c Hc; specialize (H c Hc); fold (val u c) in *.
  - apply negb_true_iff, Z.eqb_neq in H. destruct (val_facts u c (Hs c Hc)); done.
  - apply negb_true_iff, Z.eqb_neq. destruct H as [H _]. lia.
Qed.

(** The tests on the last character look at the group it is in. *)
Lemma recognised_app4 u c0 c1 c2 c3 s :
  s ≠ [] → recognised u (c0 :: c1 :: c2 :: c3 :: s)
  = is_base64_characters_impl u [c0; c1; c2; c3] && recognised u s.
Proof.
  intros Hs. unfold recognised. rewrite !land_3.
  replace (length (c0 :: c1 :: c2 :: c3 :: s) mod 4)%nat with (length s mod 4)%nat.
  2: { simpl length. replace (S (S (S (S (length s))))) with (length s + 1 * 4)%nat by lia.
       by rewrite Nat.Div0.mod_add. }
  replace (last (c0 :: c1 :: c2 :: c3 :: s)) with (last s) by by destruct s.
  rewrite (andb_assoc (is_base64_characters_impl u [c0; c1; c2; c3])). f_equal.
  unfold is_base64_characters_impl. cbn [forallb]. by rewrite andb_true_r, !andb_assoc.
Qed.

Lemma low_bits_15 v : Z.land v 15 = v mod 16.
Proof. change 15 with (2 ^ 4 - 1). by rewrite land_mask. Qed.
Lemma low_bits_3 v : Z.land v 3 = v mod 4.
Proof. change 3 with (2 ^ 2 - 1). by rewrite land_mask. Qed.

Definition is_encoding (u : bool) (s : list Z) : Prop := ∃ x, bytes_ok x ∧ s = chars u x.

Ltac same_values :=
  unfold chars; cbn [sextets app]; rewrite ?fmap_cons, ?fmap_nil;
  repeat match goal with |- _ :: _ = _ :: _ => apply (f_equal2 cons) end; try reflexivity.

Lemma recognised4 u c0 c1 c2 c3 : bytes_ok [c0; c1; c2; c3] →
  is_base64_characters_impl u [c0; c1; c2; c3] = true ↔ is_encoding u [c0; c1; c2; c3].
Proof.
  intros Hg. rewrite is_base64_characters_valid by done. split.
  - rewrite !Forall_cons. intros ([R0 E0] & [R1 E1] & [R2 E2] & [R3 E3] & _).
    exists [val u c0 * 4 + val u c1 / 16; val u c1 mod 16 * 16 + val u c2 / 4;
            val u c2 mod 4 * 64 + val u c3].
    rewrite !bytes_ok_cons. unfold bytes_ok. rewrite Forall_nil.
    split; [split_and!; [byte_arith..|done]|]. same_values;
      [rewrite <-E0 at 1|rewrite <-E1 at 1|rewrite <-E2 at 1|rewrite <-E3 at 1];
      apply (f_equal (ch u)); byte_arith.
  - intros (x & Hx & ->). by apply chars_valid.
Qed.

Lemma recognised3 u c0 c1 c2 : bytes_ok [c0; c1; c2] →
  recognised u [c0; c1; c2] = true ↔ is_encoding u [c0; c1; c2].
Proof.
  intros Hg. unfold recognised. rewrite andb_true_iff, is_base64_characters_valid by done.
  rewrite low_bits_15, land_3, low_bits_3. fold (val u (default 0 (last [c0; c1; c2]))).
  change (Z.of_nat (length [c0; c1; c2] mod 4)) with 3. change (default 0 (last [c0; c1; c2])) with c2.
  change (3 =? 2) with false. change (3 =? 3) with true. cbn [andb negb].
  rewrite negb_involutive, Z.eqb_eq. split.
  - rewrite !Forall_cons. intros [([R0 E0] & [R1 E1] & [R2 E2] & _) Hl].
    exists [val u c0 * 4 + val u c1 / 16; val u c1 mod 16 * 16 + val u c2 / 4].
    rewrite !bytes_ok_cons. unfold bytes_ok. rewrite Forall_nil.
    split; [split_and!; [byte_arith..|done]|]. same_values;
      [rewrite <-E0 at 1|rewrite <-E1 at 1|rewrite <-E2 at 1];
      apply (f_equal (ch u)); byte_arith.
  - intros (x & Hx & Ex). split; [rewrite Ex; by apply chars_valid|].
    destruct x as [|a [|b [|]]]; try done.
    unfold chars in Ex. cbn [sextets] in Ex. rewrite !fmap_cons, fmap_nil in Ex.
    rewrite !bytes_ok_cons in Hx. destruct Hx as (Ha & Hb & _).
    assert (val u c2 = b mod 16 * 4) as -> by (simplify_eq; apply ch_facts; byte_arith).
    byte_arith.
Qed.

Lemma recognised2 u c0 c1 : bytes_ok [c0; c1] →
  recognised u [c0; c1] = true ↔ is_encoding u [c0; c1].
Proof.
  intros Hg. unfold recognised. rewrite andb_true_iff, is_base64_characters_valid by done.
  rewrite low_bits_15, land_3, low_bits_3. fold (val u (default 0 (last [c0; c1]))).
  change (Z.of_nat (length [c0; c1] mod 4)) with 2. change (default 0 (last [c0; c1])) with c1.
  change (2 =? 2) with true. change (2 =? 3) with false. cbn [andb negb].
  rewrite andb_true_r, negb_involutive, Z.eqb_eq. split.
  - rewrite !Forall_cons. intros [([R0 E0] & [R1 E1] & _) Hl].
    exists [val u c0 * 4 + val u c1 / 16].
    rewrite !bytes_ok_cons. unfold bytes_ok. rewrite Forall_nil.
    split; [split_and!; [byte_arith..|done]|]. same_values;
      [rewrite <-E0 at 1|rewrite <-E1 at 1]; apply (f_equal (ch u)); byte_arith.
  - intros (x & Hx & Ex). split; [rewrite Ex; by apply chars_valid|].
    destruct x as [|a [|b [|]]]; try done.
    unfold chars in Ex. cbn [sextets] in Ex. rewrite !fmap_cons, fmap_nil in Ex.
    rewrite !bytes_ok_cons in Hx. destruct Hx as (Ha & _).
    assert (val u c1 = a mod 4 * 16) as -> by (simplify_eq; apply ch_facts; byte_arith).
    byte_arith.
Qed.

Lemma is_encoding_app4 u c0 c1 c2 c3 s :
  is_encoding u (c0 :: c1 :: c2 :: c3 :: s) ↔ is_encoding u [c0; c1; c2; c3] ∧ is_encoding u s.
Proof.
  split.
  - intros (x & Hx & Ex). apply chars_inv4 in Ex as (a & b & c & x' & -> & Eg & Es).
    change (a :: b :: c :: x') with ([a; b; c] ++ x') in Hx. apply bytes_ok_app in Hx as [Hg Hx].
    split; [by exists [a; b; c]|by exists x'].
  - intros [(g & Hg & Eg) (x & Hx & Ex)].
    assert (length g = 3%nat) as Hl.
    { destruct (sextets_length g) as [n Hn]. rewrite <-(chars_length u), <-Eg in Hn.
      simpl in Hn. lia. }
    destruct g as [|a [|b [|c [|]]]]; try done. exists (a :: b :: c :: x).
    split; [change (a :: b :: c :: x) with ([a; b; c] ++ x); by apply bytes_ok_app|].
    by rewrite chars_app3, <-Eg, <-Ex.
Qed.

Lemma recognised_iff u s :
  bytes_ok s → (length s mod 4 ≠ 1)%nat → recognised u s = true ↔ is_encoding u s.
Proof.
  induction s as [| | | |c0 c1 c2 c3 s IH] using list_ind4; intros Hs Hm.
  - split; [|done]. intros _. by exists [].
  - done.
  - by apply recognised2.
  - by apply recognised3.
  - change (c0 :: c1 :: c2 :: c3 :: s) with ([c0; c1; c2; c3] ++ s) in Hs, Hm.
    apply bytes_ok_app in Hs as [Hg Hs]. rewrite is_encoding_app4, <-recognised4 by done.
    destruct (decide (s = [])) as [->|Hne].
    + unfold recognised. rewrite land_3. change (Z.of_nat (length [c0; c1; c2; c3] mod 4)) with 0.
      rewrite andb_true_iff. split.
      * intros [H _]. split; [done|]. by exists [].
      * intros [H _]. by split.
    + rewrite length_app in Hm. change (length [c0; c1; c2; c3]) with 4%nat in Hm.
      replace (4 + length s)%nat with (length s + 1 * 4)%nat in Hm by lia.
      rewrite Nat.Div0.mod_add in Hm.
      by rewrite recognised_app4, andb_true_iff, IH by done.
Qed.

(** The recogniser accepts exactly the strings that the decoder decodes. *)
Theorem is_base64_iff_decodes u s :
  bytes_ok s →
  is_base64_impl u s = true ↔ ∃ x, bytes_ok x ∧ base64_decode_impl u s = Ok (ROk x).
Proof.
  intros Hs.
  assert (is_base64_impl u s = true ↔ ∃ x, bytes_ok x ∧ encodes u s x) as ->.
  { destruct (stripped s) as (b & k & Hst & -> & Hl). apply bytes_ok_app in Hs as [Hb _].
    assert (is_base64_impl u (b ++ replicate k 61) =
      negb (3 <=? k)%nat &&
      negb ((negb u || (0 <? k)%nat) && negb (Z.land (Z.of_nat (length b + k)) 3 =? 0)) &&
      negb (u && (Z.land (Z.of_nat (length b)) 3 =? 1)) && recognised u b) as ->.
    { unfold is_base64_impl, recognised. rewrite Hst, reverse_involutive.
      destruct (3 <=? k)%nat; [done|]. destruct ((negb u || _) && _); [done|].
      destruct (u && _); [done|]. destruct (is_base64_characters_impl u b); [|done].
      cbn [negb andb]. generalize (char_at (get_character_table u) (default 0 (last b))).
      intros v. destruct (Z.land (Z.of_nat (length b)) 3 =? 2), (Z.land v 15 =? 0); cbn [andb negb];
        destruct (Z.land (Z.of_nat (length b)) 3 =? 3), (Z.land v 3 =? 0); done. }
    rewrite !andb_true_iff, !negb_true_iff. split.
    - intros [[[T1 T2] T3] Hr]. destruct (padding_tests u b k T1 T2 T3) as [Hm Hpad].
      apply recognised_iff in Hr as (x & Hx & Ex); [|done|done].
      exists x. split; [done|]. apply encodes_stripped; auto.
    - intros (x & Hx & Ex). apply encodes_stripped in Ex as [-> Hk]; [|done|done].
      destruct (padding_tests_pass u x k Hk) as (P1 & P2 & P3). split_and!; [done..|].
      destruct (padding_tests u _ k P1 P2 P3) as [Hm _].
      apply recognised_iff; [done|done|]. by exists x. }
  split; intros (x & Hx & H); exists x; (split; [done|]); by apply base64_decode_encodes.
Qed.

Lemma is_base64_iff_decodes_witness :
  ∃ x, bytes_ok x ∧ base64_decode_impl false (string_bytes "TWFuISE=") = Ok (ROk x).
Proof.
  apply (is_base64_iff_decodes false (string_bytes "TWFuISE=")).
  - apply (bool_decide_unpack _). vm_compute. exact I.
  - vm_compute. reflexivity.
Defined.
