(* ===== verification/TlParsers.v ===== *)
(** * Storing and parsing TL data
    ([td/tdutils/td/utils/tl_storers.h], [tl_parsers.h], [tl_parsers.cpp])

    The two storers (one writes through a raw pointer, the other counts the bytes),
    and the parser, which reads through a raw pointer into the received bytes.
    Memory is modelled by the bytes from the pointer on, so that a read or a write
    outside it is a fault; the parser is proved never to have one. *)
From S2P Require Import Prelude Bytes Utf8.

(** ** Little-endian numbers in memory ([std::memcpy]) *)
Fixpoint le_split (n : nat) (z : Z) : list Z :=
  match n with
  | O => []
  | S n => z mod 256 :: le_split n (z / 256)
  end.
Fixpoint le_combine (l : list Z) : Z :=
  match l with
  | [] => 0
  | b :: l => b + 256 * le_combine l
  end.

(** Conversion to [int64_t]. *)
Definition i64 (z : Z) : Z := (z + 2 ^ 63) mod two64 - 2 ^ 63.

(** ** The storers *)

(** What the [store] functions of objects use of a storer. *)
Class TlStorer (St : Type) := {
  store_binary : list Z → St → outcome St;
  store_slice : list Z → St → outcome St;
  store_string : list Z → St → outcome St;
}.

Definition store_int `{TlStorer St} (x : Z) : St → outcome St := store_binary (le_split 4 (u32 x)).
Definition store_long `{TlStorer St} (x : Z) : St → outcome St := store_binary (le_split 8 (u64 x)).

(** [TlStorerUnsafe]: the pointer [buf_] as what is written and the room left. *)
Definition unsafe_store_string (str : list Z) (buf : writer) : outcome writer :=
  let len := Z.of_nat (length str) in
  '(len, buf) ←
    (if len <? 254 then
       buf ← put (u8 len) buf;
       Ok (len + 1, buf)
     else if len <? Z.shiftl 1 24 then
       buf ← put (u8 254) buf;
       buf ← put (u8 (Z.land len 255)) buf;
       buf ← put (u8 (Z.land (Z.shiftr len 8) 255)) buf;
       buf ← put (u8 (Z.shiftr len 16)) buf;
       Ok (len, buf)
     else if len <? Z.shiftl 1 32 then
       buf ← put (u8 255) buf;
       buf ← put (u8 (Z.land len 255)) buf;
       buf ← put (u8 (Z.land (Z.shiftr len 8) 255)) buf;
       buf ← put (u8 (Z.land (Z.shiftr len 16) 255)) buf;
       buf ← put (u8 (Z.land (Z.shiftr len 24) 255)) buf;
       buf ← put (u8 0) buf;
       buf ← put (u8 0) buf;
       buf ← put (u8 0) buf;
       Ok (len, buf)
     else Fault AssertFailure);
  buf ← put_all str buf;
  match Z.land len 3 with
  | 1 => buf ← put 0 buf; buf ← put 0 buf; put 0 buf
  | 2 => buf ← put 0 buf; put 0 buf
  | 3 => put 0 buf
  | _ => Ok buf
  end.

#[export] Instance TlStorerUnsafe : TlStorer writer := {|
  store_binary := put_all;
  store_slice := put_all;
  store_string := unsafe_store_string;
|}.

(** [TlStorerCalcLength]: the number of bytes, a [size_t]. *)
Definition calc_store_string (str : list Z) (length : Z) : outcome Z :=
  let add := Z.of_nat (List.length str) in
  let add :=
    if add <? 254 then add + 1
    else if add <? Z.shiftl 1 24 then add + 4
    else add + 8 in
  let add := u64 (Z.land (add + 3) (-4)) in
  Ok (u64 (length + add)).

#[export] Instance TlStorerCalcLength : TlStorer Z := {|
  store_binary x length := Ok (u64 (length + Z.of_nat (List.length x)));
  store_slice x length := Ok (u64 (length + Z.of_nat (List.length x)));
  store_string := calc_store_string;
|}.

(** ** The parser *)

Definition SIZE_MAX : Z := two64 - 1.

(** [data] is the memory readable from the pointer; [error] is empty when there is
    none. *)
Record TlParser := {
  data : list Z;
  data_len : Z;
  left_len : Z;
  error_pos : Z;
  error : string;
}.

(** [alignas(4) const unsigned char TlParser::empty_data[sizeof(UInt512)] = {}] *)
Definition empty_data : list Z := replicate 64 0.

(** The constructor: a slice that is not aligned is copied into a buffer that is; the
    bytes the parser reads are the same. *)
Definition mk_TlParser (slice : list Z) : TlParser := {|
  data := slice;
  data_len := Z.of_nat (length slice);
  left_len := Z.of_nat (length slice);
  error_pos := SIZE_MAX;
  error := "";
|}.

Definition has_error (p : TlParser) : bool := negb (bool_decide (error p = ""%string)).

Definition set_error (error_message : string) (p : TlParser) : outcome TlParser :=
  if negb (has_error p) then
    _ ← cassert (negb (bool_decide (error_message = ""%string)));
    Ok {| error := error_message;
          error_pos := data_len p - left_len p;
          data := empty_data; left_len := 0; data_len := 0 |}
  else
    _ ← cassert (negb (error_pos p =? SIZE_MAX) && (data_len p =? 0) && (left_len p =? 0));
    Ok {| error := error p; error_pos := error_pos p; data := empty_data;
          left_len := left_len p; data_len := data_len p |}.

(** [get_status()] *)
Definition get_status (p : TlParser) : option (string * Z) :=
  if has_error p then Some (error p, error_pos p) else None.

Definition get_left_len (p : TlParser) : Z := left_len p.

Definition check_len (len : Z) (p : TlParser) : outcome TlParser :=
  if left_len p <? len then set_error "Not enough data to read" p
  else Ok {| data := data p; data_len := data_len p; left_len := left_len p - len;
             error_pos := error_pos p; error := error p |}.

Definition can_prefetch_int (p : TlParser) : bool := get_left_len p >=? 4.

(** [memcpy(&result, data, n)]: the [n] bytes at the pointer. *)
Definition peek (n : nat) (p : TlParser) : outcome (list Z) :=
  if (n <=? length (data p))%nat then Ok (take n (data p)) else ub.

(** [data += n]: to the end of the memory at most. *)
Definition advance_data (n : Z) (p : TlParser) : outcome TlParser :=
  if n <=? Z.of_nat (length (data p))
  then Ok {| data := drop (Z.to_nat n) (data p); data_len := data_len p;
             left_len := left_len p; error_pos := error_pos p; error := error p |}
  else ub.

Definition prefetch_int_unsafe (p : TlParser) : outcome Z :=
  r ← peek 4 p; Ok (i32 (le_combine r)).

(** [fetch_binary_unsafe<T>] for a type of [n] bytes. *)
Definition fetch_binary_unsafe (n : nat) (p : TlParser) : outcome (list Z * TlParser) :=
  result ← peek n p;
  p ← advance_data (Z.of_nat n) p;
  Ok (result, p).

Definition fetch_int_unsafe (p : TlParser) : outcome (Z * TlParser) :=
  '(r, p) ← fetch_binary_unsafe 4 p; Ok (i32 (le_combine r), p).
Definition fetch_long_unsafe (p : TlParser) : outcome (Z * TlParser) :=
  '(r, p) ← fetch_binary_unsafe 8 p; Ok (i64 (le_combine r), p).
Definition fetch_double_unsafe (p : TlParser) : outcome (list Z * TlParser) :=
  fetch_binary_unsafe 8 p.

Definition fetch_int (p : TlParser) : outcome (Z * TlParser) :=
  p ← check_len 4 p; fetch_int_unsafe p.
Definition fetch_long (p : TlParser) : outcome (Z * TlParser) :=
  p ← check_len 8 p; fetch_long_unsafe p.
(** The eight bytes of the [double]. *)
Definition fetch_double (p : TlParser) : outcome (list Z * TlParser) :=
  p ← check_len 8 p; fetch_double_unsafe p.

(** The code's [static_assert(sizeof(T) <= sizeof(empty_data))] is a condition on
    [n]. *)
Definition fetch_binary (n : nat) (p : TlParser) : outcome (list Z * TlParser) :=
  p ← check_len (Z.of_nat n) p; fetch_binary_unsafe n p.

(** [T(begin, len)]: a string of the [len] bytes at [begin]. *)
Definition string_at (begin_ : list Z) (len : Z) : outcome (list Z) :=
  if len <=? Z.of_nat (length begin_) then Ok (take (Z.to_nat len) begin_) else ub.

(** The end of [fetch_string], common to the three forms of the length. *)
Definition fetch_string_body (result_begin : list Z) (result_len result_aligned_len : Z)
    (p : TlParser) : outcome (list Z * TlParser) :=
  p ← check_len result_aligned_len p;
  if has_error p then Ok ([], p)
  else
    p ← advance_data result_aligned_len p;
    result ← string_at result_begin result_len;
    Ok (result, p).

Definition fetch_string (p : TlParser) : outcome (list Z * TlParser) :=
  p ← check_len 4 p;
  result_len ← ptr_at (data p) 0;
  if result_len <? 254 then
    let result_begin := drop 1 (data p) in
    let result_aligned_len := Z.shiftl (Z.shiftr result_len 2) 2 in
    p ← advance_data 4 p;
    fetch_string_body result_begin result_len result_aligned_len p
  else if result_len =? 254 then
    d1 ← ptr_at (data p) 1; d2 ← ptr_at (data p) 2; d3 ← ptr_at (data p) 3;
    let result_len := d1 + Z.shiftl d2 8 + Z.shiftl d3 16 in
    let result_begin := drop 4 (data p) in
    let result_aligned_len := Z.shiftl (Z.shiftr (result_len + 3) 2) 2 in
    p ← advance_data 4 p;
    fetch_string_body result_begin result_len result_aligned_len p
  else
    p ← check_len 4 p;
    d1 ← ptr_at (data p) 1; d2 ← ptr_at (data p) 2; d3 ← ptr_at (data p) 3;
    d4 ← ptr_at (data p) 4; d5 ← ptr_at (data p) 5; d6 ← ptr_at (data p) 6;
    d7 ← ptr_at (data p) 7;
    let result_len_uint64 :=
      u64 (d1 + Z.shiftl d2 8 + Z.shiftl d3 16 + Z.shiftl d4 24 + Z.shiftl d5 32
           + Z.shiftl d6 40 + Z.shiftl d7 48) in
    if result_len_uint64 >? SIZE_MAX - 3 then
      p ← set_error "Too big string found" p; Ok ([], p)
    else
      let result_len := result_len_uint64 in
      let result_begin := drop 8 (data p) in
      let result_aligned_len := Z.shiftl (Z.shiftr (result_len + 3) 2) 2 in
      p ← advance_data 8 p;
      fetch_string_body result_begin result_len result_aligned_len p.

Definition fetch_string_raw (size : Z) (p : TlParser) : outcome (list Z * TlParser) :=
  p ← check_len size p;
  if has_error p then Ok ([], p)
  else
    let result := data p in
    p ← advance_data size p;
    r ← string_at result size;
    Ok (r, p).

Definition fetch_end (p : TlParser) : outcome TlParser :=
  if negb (left_len p =? 0) then set_error "Too much data to fetch" p else Ok p.

(** ** [TlBufferParser] *)

(** The loop of [last_utf8_character_position], for the bytes up to [position], the
    last first. *)
Fixpoint last_position_loop (reversed : list Z) : nat :=
  match reversed with
  | c :: (_ :: _) as r =>
      if negb (is_utf8_character_first_code_unit c) then last_position_loop r else length r
  | _ => 0
  end.

Definition last_utf8_character_position (str : list Z) : outcome Z :=
  _ ← cassert (negb (bool_decide (str = [])));
  Ok (Z.of_nat (last_position_loop (reverse str))).

(** [TlBufferParser::fetch_string<string>]: zero bytes become spaces, and a string that
    is not valid UTF-8 loses its last character or, if it still is not, everything. *)
Definition buffer_fetch_string (p : TlParser) : outcome (list Z * TlParser) :=
  '(result, p) ← fetch_string p;
  let result := (λ c, if c =? 0 then 32 else c) <$> result in
  valid ← check_utf8 result;
  if (valid : bool) then Ok (result, p)
  else
    n ← last_utf8_character_position result;
    let result := take (Z.to_nat n) result in
    valid ← check_utf8 result;
    if (valid : bool) then Ok (result, p) else Ok ([], p).

(** ** Numbers in memory *)

Lemma le_split_length n z : length (le_split n z) = n.
Proof. revert z. induction n; intros; simpl; auto. Qed.

Lemma le_split_ok n z : bytes_ok (le_split n z).
Proof.
  revert z. induction n as [|n IH]; intros z; simpl; [constructor|].
  constructor; [|apply IH]. unfold byte. apply Z.mod_pos_bound. lia.
Qed.

Lemma le_combine_split n z : le_combine (le_split n z) = z mod 2 ^ (8 * Z.of_nat n).
Proof.
  revert z. induction n as [|n IH]; intros z; simpl le_combine.
  { by rewrite Z.mod_1_r. }
  rewrite IH. replace (8 * Z.of_nat (S n)) with (8 + 8 * Z.of_nat n) by lia.
  rewrite Z.pow_add_r by lia. change (2 ^ 8) with 256.
  rewrite Z.rem_mul_r by lia. done.
Qed.

Lemma le_combine_range l : bytes_ok l → 0 ≤ le_combine l < 2 ^ (8 * Z.of_nat (length l)).
Proof.
  induction 1 as [|b l Hb _ IH]; simpl; [lia|].
  replace (8 * Z.of_nat (S (length l))) with (8 + 8 * Z.of_nat (length l)) by lia.
  rewrite Z.pow_add_r by lia. change (2 ^ 8) with 256. unfold byte in Hb. lia.
Qed.

Lemma le_combine_zeros n : le_combine (replicate n 0) = 0.
Proof. induction n as [|n IH]; simpl; [done|]. by rewrite IH. Qed.

#[export] Hint Resolve le_split_ok : cpp.

Lemma i32_of_u32 z : in_int z → i32 (le_combine (le_split 4 (u32 z))) = z.
Proof.
  intros Hz. rewrite le_combine_split. change (2 ^ (8 * Z.of_nat 4)) with two32.
  rewrite (Z.mod_small (u32 z)) by apply Z.mod_pos_bound, eq_refl.
  unfold in_int, INT_MIN, INT_MAX, i32, u32, two32 in *.
  Z.to_euclidean_division_equations. lia.
Qed.

Definition in_int64 (z : Z) : Prop := - 2 ^ 63 ≤ z < 2 ^ 63.
Lemma i64_of_u64 z : in_int64 z → i64 (le_combine (le_split 8 (u64 z))) = z.
Proof.
  intros Hz. rewrite le_combine_split. change (2 ^ (8 * Z.of_nat 8)) with two64.
  rewrite (Z.mod_small (u64 z)) by apply Z.mod_pos_bound, eq_refl.
  unfold in_int64, i64, u64, two64 in *. change (2 ^ 63) with 9223372036854775808 in *.
  Z.to_euclidean_division_equations. lia.
Qed.

(** ** The parser stays inside its memory *)

(** The state between a [check_len] that granted [n] bytes and the pointer moving
    over them; [reserved 0] is the state between two calls. Without an error, the
    pointer has the bytes that are left before it; after an error, it points into
    the 64 zero bytes, at their start if bytes were granted since. *)
Record reserved (n : Z) (p : TlParser) : Prop := {
  res_bytes : bytes_ok (data p);
  res_len : data_len p < SIZE_MAX;
  res_ok : has_error p = false →
    Z.of_nat (length (data p)) = left_len p + n ∧ 0 ≤ left_len p ≤ data_len p;
  res_err : has_error p = true →
    left_len p = 0 ∧ data_len p = 0 ∧ error_pos p ≠ SIZE_MAX ∧
    (∃ k, data p = replicate k 0) ∧ (0 < n → data p = empty_data);
}.

(** What a later state keeps: the first error, and the order of positions. *)
Record later (p p' : TlParser) : Prop := {
  later_error : has_error p = true → error p' = error p ∧ error_pos p' = error_pos p;
  later_left : left_len p' ≤ left_len p;
}.

Lemma has_error_eq p p' : error p' = error p → has_error p' = has_error p.
Proof. unfold has_error. by intros ->. Qed.

#[export] Instance later_preorder : PreOrder later.
Proof.
  split.
  - intros p. split; [done|lia].
  - intros p1 p2 p3 [E1 L1] [E2 L2]. split; [|lia]. intros H.
    destruct (E1 H) as [H1 H1']. rewrite <-(has_error_eq _ _ H1) in H.
    destruct (E2 H) as [H2 H2']. split; congruence.
Qed.

Lemma later_has_error p p' : later p p' → has_error p = true → has_error p' = true.
Proof. intros [E _] H. destruct (E H) as [H' _]. by rewrite (has_error_eq _ _ H'). Qed.

Lemma mk_TlParser_reserved slice :
  bytes_ok slice → Z.of_nat (length slice) < SIZE_MAX → reserved 0 (mk_TlParser slice).
Proof. intros Hb Hl. split; simpl; [done|lia|lia|done]. Qed.

Lemma set_error_spec n m p message :
  reserved n p → message ≠ ""%string →
  ∃ p', set_error message p = Ok p' ∧ reserved m p' ∧ later p p' ∧
    has_error p' = true ∧ data p' = empty_data.
Proof.
  intros [Hb Hl Hok Herr] Hm. unfold set_error.
  assert (∀ e, e ≠ ""%string → ∀ p, error p = e → has_error p = true) as He.
  { intros e Hne q <-. unfold has_error. by rewrite bool_decide_false. }
  destruct (has_error p) eqn:E; cbn [negb].
  - destruct (Herr eq_refl) as (L0 & D0 & Hp & _).
    rewrite L0, D0, (proj2 (Z.eqb_neq _ _)) by done. simpl.
    eexists. split; [done|]. assert (error p ≠ ""%string) as Hne.
    { unfold has_error in E. apply negb_true_iff, bool_decide_eq_false in E. done. }
    split_and!; [split| | |done]; simpl; try done.
    + apply bytes_ok_zeros.
    + intros H. by rewrite (He (error p)) in H.
    + intros _. split_and!; [done..| |done]. by exists 64%nat.
    + split; simpl; [done|lia].
  - rewrite bool_decide_false by done. simpl. destruct (Hok eq_refl) as [_ Hr].
    eexists. split; [done|]. split_and!; [split| | |done]; simpl; try done.
    + apply bytes_ok_zeros.
    + intros H. by rewrite (He message) in H.
    + intros _. split_and!; [done..|lia| |done]. by exists 64%nat.
    + split; simpl; [by rewrite E|lia].
    + by apply (He message).
Qed.

Lemma check_len_spec n m p :
  reserved m p → 0 ≤ m → 0 ≤ n →
  ∃ p', check_len n p = Ok p' ∧ reserved (m + n) p' ∧ later p p' ∧
    (has_error p' = false → has_error p = false ∧ data p' = data p ∧
       left_len p' = left_len p - n ∧ 0 ≤ left_len p').
Proof.
  intros Hp Hm Hn. unfold check_len. destruct (Z.ltb_spec (left_len p) n) as [Hlt|Hge].
  - destruct (set_error_spec m (m + n) p "Not enough data to read" Hp)
      as (p' & -> & Hr & Hl & He & _); [done|].
    exists p'. split; [done|]. split; [done|]. split; [done|]. by rewrite He.
  - destruct Hp as [Hb Hl Hok Herr]. eexists. split; [done|]. unfold has_error in *. simpl.
    split_and!.
    + split; simpl; [done|done| |].
      * intros H. destruct (Hok H). lia.
      * intros H. destruct (Herr H) as (L0 & D0 & Hp & Hz & He).
        split_and!; [lia|done..|]. intros Hmn. apply He. lia.
    + split; simpl; [done|lia].
    + intros H. destruct (Hok H). split_and!; [done..|lia].
Qed.

(** Moving over the granted bytes. *)
Lemma advance_data_spec n p :
  reserved n p → 0 ≤ n → has_error p = false ∨ n ≤ 64 →
  ∃ p', advance_data n p = Ok p' ∧ reserved 0 p' ∧ later p p' ∧ n ≤ Z.of_nat (length (data p)) ∧
    has_error p' = has_error p ∧ data p' = drop (Z.to_nat n) (data p) ∧ left_len p' = left_len p.
Proof.
  intros [Hb Hl Hok Herr] Hn Hs. unfold advance_data.
  assert (n ≤ Z.of_nat (length (data p))) as Hle.
  { destruct (has_error p) eqn:E.
    - destruct (Herr eq_refl) as (_ & _ & _ & _ & He). destruct Hs as [Hs|Hs]; [done|].
      destruct (Z.eq_dec n 0) as [->|]; [lia|]. rewrite He by lia. simpl. lia.
    - destruct (Hok eq_refl). lia. }
  rewrite (proj2 (Z.leb_le _ _)) by done. eexists. split; [done|].
  unfold has_error in *. simpl. split_and!; [|split; simpl; [done|lia]|done..].
  split; simpl; [by apply bytes_ok_drop|done| |].
  - intros H. destruct (Hok H). rewrite length_drop. lia.
  - intros H. destruct (Herr H) as (L0 & D0 & Hp & (k & Hz) & He).
    split_and!; [done..| |lia]. rewrite Hz. exists (k - Z.to_nat n)%nat. apply drop_replicate.
Qed.

(** A fetching function that never faults, keeps the first error, and delivers
    [zero] when there is an error. *)
Definition safe_fetch {A} (zero : A) (good : A → Prop) (f : TlParser → outcome (A * TlParser))
    : Prop :=
  ∀ p, reserved 0 p → ∃ r p', f p = Ok (r, p') ∧ reserved 0 p' ∧ later p p' ∧ good r ∧
    (has_error p' = true → r = zero).

Lemma reserved_error_data n p :
  reserved n p → has_error p = true → 0 < n → data p = empty_data.
Proof. intros [_ _ _ He] H Hn. destruct (He H) as (_ & _ & _ & _ & Hd). by apply Hd. Qed.

Lemma safe_fetch_binary n : (n ≤ 64)%nat →
  safe_fetch (replicate n 0) (λ r, bytes_ok r ∧ length r = n) (fetch_binary n).
Proof.
  intros Hn p Hp. unfold fetch_binary.
  destruct (check_len_spec (Z.of_nat n) 0 p Hp) as (p1 & -> & H1 & L1 & _); [lia..|].
  rewrite Z.add_0_l in H1. unfold fetch_binary_unsafe, peek. cbn [mbind outcome_bind].
  destruct (advance_data_spec (Z.of_nat n) p1 H1) as (p2 & Ha & H2 & L2 & Hle & He & _);
    [lia|right; lia|].
  rewrite (proj2 (Nat.leb_le _ _)) by lia. cbn [mbind outcome_bind]. rewrite Ha.
  cbn [mbind outcome_bind]. eexists _, _. split; [done|]. split; [done|].
  split; [by etrans|]. split.
  - split; [apply bytes_ok_take, H1|]. rewrite length_take. lia.
  - rewrite He. intros Herr. destruct n as [|n]; [done|].
    rewrite (reserved_error_data _ _ H1 Herr) by lia.
    unfold empty_data. rewrite take_replicate. f_equal. lia.
Qed.

Lemma safe_fetch_map {A B} (f : A → B) zero good good' g :
  safe_fetch zero good g → (∀ a, good a → good' (f a)) →
  safe_fetch (f zero) good' (λ p, '(r, p) ← g p; Ok (f r, p)).
Proof.
  intros Hg Hf p Hp. destruct (Hg p Hp) as (r & p' & -> & Hr & Hl & Hgood & Hz).
  eexists _, _. split; [done|]. split; [done|]. split; [done|]. split; [auto|].
  intros H. by rewrite Hz.
Qed.

Lemma safe_fetch_ext {A} (zero : A) good f g :
  (∀ p, f p = g p) → safe_fetch zero good f → safe_fetch zero good g.
Proof. intros He Hf p Hp. rewrite <-He. by apply Hf. Qed.

Lemma safe_fetch_int : safe_fetch 0 in_int fetch_int.
Proof.
  apply (safe_fetch_ext _ _ (λ p, '(r, p) ← fetch_binary 4 p; Ok (i32 (le_combine r), p))).
  { intros p. unfold fetch_int, fetch_binary, fetch_int_unsafe.
    change (Z.of_nat 4) with 4. by destruct (check_len 4 p). }
  apply (safe_fetch_map (λ r, i32 (le_combine r)) (replicate 4 0) _ in_int _
    (safe_fetch_binary 4 ltac:(lia))).
  intros r _. apply i32_range.
Qed.

Lemma i64_range z : in_int64 (i64 z).
Proof.
  unfold in_int64, i64. pose proof (Z.mod_pos_bound (z + 2 ^ 63) two64 eq_refl) as H.
  unfold two64 in *. change (2 ^ 63) with 9223372036854775808 in *. lia.
Qed.

Lemma safe_fetch_long : safe_fetch 0 in_int64 fetch_long.
Proof.
  apply (safe_fetch_ext _ _ (λ p, '(r, p) ← fetch_binary 8 p; Ok (i64 (le_combine r), p))).
  { intros p. unfold fetch_long, fetch_binary, fetch_long_unsafe.
    change (Z.of_nat 8) with 8. by destruct (check_len 8 p). }
  apply (safe_fetch_map (λ r, i64 (le_combine r)) (replicate 8 0) _ in_int64 _
    (safe_fetch_binary 8 ltac:(lia))).
  intros r _. apply i64_range.
Qed.

(** [result_begin] is [k] bytes after a pointer that has moved [m] bytes since. *)
Lemma fetch_string_body_spec p d k m len aligned :
  reserved 0 p → bytes_ok d → 0 ≤ len → 0 ≤ aligned → (k ≤ m ≤ length d)%nat →
  (has_error p = false → data p = drop m d) → Z.of_nat k + len ≤ Z.of_nat m + aligned →
  ∃ r p', fetch_string_body (drop k d) len aligned p = Ok (r, p') ∧ reserved 0 p' ∧
    later p p' ∧ bytes_ok r ∧ (has_error p' = true → r = []).
Proof.
  intros Hp Hd Hlen Hal Hkm Hdata Hfit. unfold fetch_string_body.
  destruct (check_len_spec aligned 0 p Hp) as (p1 & -> & H1 & L1 & Hok); [lia..|].
  rewrite Z.add_0_l in H1. cbn [mbind outcome_bind]. destruct (has_error p1) eqn:E.
  - exists [], p1. split; [done|].
    assert (reserved 0 p1) by (destruct H1 as [B D O R]; split;
      [done|done|congruence|intros _; destruct (R E) as (?&?&?&?&?); split_and!; [done..|lia]]).
    split; [done|]. split; [done|]. split; [constructor|done].
  - destruct (Hok eq_refl) as (E0 & D1 & _).
    destruct (advance_data_spec aligned p1 H1) as (p2 & -> & H2 & L2 & Hle & He & _);
      [done|by left|].
    cbn [mbind outcome_bind]. unfold string_at. rewrite D1, Hdata, length_drop in Hle by done.
    rewrite length_drop, (proj2 (Z.leb_le _ _)) by lia. cbn [mbind outcome_bind].
    eexists _, _. split; [done|]. split; [done|]. split; [by etrans|].
    split; [by apply bytes_ok_take, bytes_ok_drop|]. rewrite He, E. done.
Qed.

Lemma shift_byte b k : byte b → 0 ≤ k → 0 ≤ Z.shiftl b k ≤ 255 * 2 ^ k.
Proof. unfold byte. intros Hb Hk. rewrite Z.shiftl_mul_pow2 by done. nia. Qed.

Lemma data_at n p i : reserved n p → (i < 64)%nat → Z.of_nat i < n →
  ∃ b, ptr_at (data p) i = Ok b ∧ byte b.
Proof.
  intros Hp Hi Hn. assert (i < length (data p))%nat as Hl.
  { destruct (has_error p) eqn:E.
    - rewrite (reserved_error_data _ _ Hp E) by lia. unfold empty_data. by rewrite length_replicate.
    - destruct (res_ok _ _ Hp E). lia. }
  apply lookup_lt_is_Some in Hl as [b Hb]. exists b. unfold ptr_at. rewrite Hb.
  split; [done|]. pose proof (res_bytes _ _ Hp) as Hok. unfold bytes_ok in Hok.
  rewrite Forall_forall in Hok. apply Hok. by eapply list_elem_of_lookup_2.
Qed.

Lemma safe_fetch_string : safe_fetch [] bytes_ok fetch_string.
Proof.
  intros p Hp. unfold fetch_string.
  destruct (check_len_spec 4 0 p Hp) as (p1 & -> & H1 & L1 & _); [lia..|].
  rewrite Z.add_0_l in H1. cbn [mbind outcome_bind].
  destruct (data_at _ _ 0 H1) as (b0 & -> & B0); [lia..|]. cbn [mbind outcome_bind].
  pose proof (res_bytes _ _ H1) as Hd.
  destruct (Z.ltb_spec b0 254) as [Hb0|Hb0]; [|destruct (Z.eqb_spec b0 254) as [Hb1|Hb1]].
  - destruct (advance_data_spec 4 p1 H1) as (p2 & -> & H2 & L2 & Hle & He & D2 & _); [lia|right; lia|].
    cbn [mbind outcome_bind]. rewrite shift_out2. unfold byte in B0.
    destruct (fetch_string_body_spec p2 (data p1) 1 4 b0 (b0 / 4 * 4) H2)
      as (r & p3 & -> & H3 & L3 & Hr & Hz); try done; try lia.
    { Z.to_euclidean_division_equations; lia. }
    { Z.to_euclidean_division_equations; lia. }
    exists r, p3. split; [done|]. split; [done|]. split; [by do 2 etrans|done].
  - destruct (data_at _ _ 1 H1) as (b1 & -> & B1); [lia..|]. cbn [mbind outcome_bind].
    destruct (data_at _ _ 2 H1) as (b2 & -> & B2); [lia..|]. cbn [mbind outcome_bind].
    destruct (data_at _ _ 3 H1) as (b3 & -> & B3); [lia..|]. cbn [mbind outcome_bind].
    destruct (advance_data_spec 4 p1 H1) as (p2 & -> & H2 & L2 & Hle & He & D2 & _); [lia|right; lia|].
    cbn [mbind outcome_bind]. rewrite shift_out2.
    pose proof (shift_byte b2 8 B2 ltac:(lia)) as S2.
    pose proof (shift_byte b3 16 B3 ltac:(lia)) as S3.
    unfold byte in *. set (len := b1 + Z.shiftl b2 8 + Z.shiftl b3 16) in *.
    assert (0 ≤ len) as Hlen by lia. clearbody len.
    destruct (fetch_string_body_spec p2 (data p1) 4 4 len ((len + 3) / 4 * 4) H2)
      as (r & p3 & -> & H3 & L3 & Hr & Hz); try done; try lia.
    { Z.to_euclidean_division_equations; lia. }
    { Z.to_euclidean_division_equations; lia. }
    exists r, p3. split; [done|]. split; [done|]. split; [by do 2 etrans|done].
  - destruct (check_len_spec 4 4 p1 H1) as (p2 & -> & H2 & L2 & _); [lia..|].
    cbn [mbind outcome_bind]. change (4 + 4) with 8 in H2.
    destruct (data_at _ _ 1 H2) as (b1 & -> & B1); [lia..|]. cbn [mbind outcome_bind].
    destruct (data_at _ _ 2 H2) as (b2 & -> & B2); [lia..|]. cbn [mbind outcome_bind].
    destruct (data_at _ _ 3 H2) as (b3 & -> & B3); [lia..|]. cbn [mbind outcome_bind].
    destruct (data_at _ _ 4 H2) as (b4 & -> & B4); [lia..|]. cbn [mbind outcome_bind].
    destruct (data_at _ _ 5 H2) as (b5 & -> & B5); [lia..|]. cbn [mbind outcome_bind].
    destruct (data_at _ _ 6 H2) as (b6 & -> & B6); [lia..|]. cbn [mbind outcome_bind].
    destruct (data_at _ _ 7 H2) as (b7 & -> & B7); [lia..|]. cbn [mbind outcome_bind].
    set (sum := u64 _). pose proof (u64_range
      (b1 + Z.shiftl b2 8 + Z.shiftl b3 16 + Z.shiftl b4 24 + Z.shiftl b5 32
       + Z.shiftl b6 40 + Z.shiftl b7 48)) as Hs.
    change (0 ≤ sum < two64) in Hs. clearbody sum.
    destruct (sum >? SIZE_MAX - 3).
    + destruct (set_error_spec 8 0 p2 "Too big string found" H2)
        as (p3 & -> & H3 & L3 & He & _); [done|]. exists [], p3. split; [done|].
      split; [done|]. split; [by do 2 etrans|]. split; [constructor|done].
    + destruct (advance_data_spec 8 p2 H2) as (p3 & -> & H3 & L3 & Hle & He & D3 & _); [lia|right; lia|].
      cbn [mbind outcome_bind]. rewrite shift_out2.
      destruct (fetch_string_body_spec p3 (data p2) 8 8 sum ((sum + 3) / 4 * 4) H3)
        as (r & p4 & -> & H4 & L4 & Hr & Hz); try done; try lia.
      { apply H2. }
      { Z.to_euclidean_division_equations; lia. }
      { Z.to_euclidean_division_equations; lia. }
      exists r, p4. split; [done|]. split; [done|]. split; [by do 3 etrans|done].
Qed.

Lemma safe_fetch_string_raw size : 0 ≤ size → safe_fetch [] bytes_ok (fetch_string_raw size).
Proof.
  intros Hsize p Hp. unfold fetch_string_raw.
  destruct (check_len_spec size 0 p Hp) as (p1 & -> & H1 & L1 & Hok); [lia..|].
  rewrite Z.add_0_l in H1. cbn [mbind outcome_bind]. destruct (has_error p1) eqn:E.
  - exists [], p1. split; [done|].
    assert (reserved 0 p1) by (destruct H1 as [B D O R]; split;
      [done|done|congruence|intros _; destruct (R E) as (?&?&?&?&?); split_and!; [done..|lia]]).
    split; [done|]. split; [done|]. split; [constructor|done].
  - destruct (advance_data_spec size p1 H1) as (p2 & -> & H2 & L2 & Hle & He & _); [done|by left|].
    cbn [mbind outcome_bind]. unfold string_at. rewrite (proj2 (Z.leb_le _ _)) by done.
    cbn [mbind outcome_bind]. eexists _, _. split; [done|]. split; [done|]. split; [by etrans|].
    split; [apply bytes_ok_take, H1|]. rewrite He, E. done.
Qed.

Lemma fetch_end_spec p : reserved 0 p →
  ∃ p', fetch_end p = Ok p' ∧ reserved 0 p' ∧ later p p' ∧
    (has_error p' = false → has_error p = false ∧ left_len p = 0).
Proof.
  intros Hp. unfold fetch_end. destruct (Z.eqb_spec (left_len p) 0) as [H0|H0]; cbn [negb].
  - exists p. split; [done|]. split; [done|]. by split.
  - destruct (set_error_spec 0 0 p "Too much data to fetch" Hp) as (p' & -> & Hr & Hl & He & _);
      [done|].
    exists p'. split; [done|]. split; [done|]. split; [done|]. by rewrite He.
Qed.

Lemma space_zeros_ok l : bytes_ok l → bytes_ok ((λ c, if c =? 0 then 32 else c) <$> l).
Proof.
  intros Hl. apply Forall_fmap. eapply Forall_impl; [exact Hl|]. intros c Hc. simpl.
  by destruct (c =? 0).
Qed.

Definition valid_utf8 (s : list Z) : Prop := ∃ codes, Forall scalar codes ∧ s = encode_utf8 codes.

Lemma check_utf8_decides s : bytes_ok s →
  check_utf8 s = Ok true ∧ valid_utf8 s ∨ check_utf8 s = Ok false ∧ ¬ valid_utf8 s.
Proof.
  intros Hs. destruct (check_utf8_sound s Hs) as [Hf|(codes & Hc & ->)].
  - right. split; [done|]. intros (codes & Hc & ->). by rewrite check_utf8_complete in Hf.
  - left. split; [by apply check_utf8_complete|]. by exists codes.
Qed.

Lemma safe_buffer_fetch_string : safe_fetch [] (λ s, bytes_ok s ∧ valid_utf8 s) buffer_fetch_string.
Proof.
  assert (valid_utf8 []) as Hnil by by exists [].
  intros p Hp. unfold buffer_fetch_string.
  destruct (safe_fetch_string p Hp) as (r & p' & -> & Hr & Hl & Hb & Hz).
  cbn [mbind outcome_bind]. apply space_zeros_ok in Hb as Hb'.
  set (s := _ <$> r) in *.
  destruct (check_utf8_decides s Hb') as [[-> Hv]|[-> Hv]]; cbn [mbind outcome_bind].
  { exists s, p'. do 4 (split; [done|]). intros H. subst s. by rewrite Hz. }
  unfold last_utf8_character_position. rewrite bool_decide_false.
  2: { intros E. by rewrite E in Hv. }
  cbn [negb cassert mbind outcome_bind].
  set (s' := take _ s). assert (bytes_ok s') as Hs' by by apply bytes_ok_take.
  destruct (check_utf8_decides s' Hs') as [[-> Hv']|[-> Hv']]; cbn [mbind outcome_bind].
  - exists s', p'. do 4 (split; [done|]). intros H. subst s' s. rewrite Hz by done. apply take_nil.
  - exists [], p'. do 3 (split; [done|]). split; [|done]. split; [constructor|done].
Qed.

Lemma safe_fetch_double : safe_fetch (replicate 8 0) (λ r, bytes_ok r ∧ length r = 8%nat) fetch_double.
Proof.
  apply (safe_fetch_ext _ _ (fetch_binary 8)); [done|]. apply safe_fetch_binary. lia.
Qed.

(** The look-ahead, in the only way that is allowed: after [can_prefetch_int]. *)
Definition prefetch_int_checked (p : TlParser) : outcome TlParser :=
  if can_prefetch_int p then _ ← prefetch_int_unsafe p; Ok p else Ok p.

Lemma prefetch_int_checked_spec p : reserved 0 p → prefetch_int_checked p = Ok p.
Proof.
  intros Hp. unfold prefetch_int_checked, can_prefetch_int, get_left_len.
  destruct (Z.geb_spec (left_len p) 4) as [Hlt|]; [|done].
  unfold prefetch_int_unsafe, peek. destruct (has_error p) eqn:E.
  - destruct (res_err _ _ Hp E). lia.
  - destruct (res_ok _ _ Hp E). by rewrite (proj2 (Nat.leb_le _ _)) by lia.
Qed.

(** The calls a user of the parser makes. *)
Inductive fetch_op :=
  | PrefetchInt
  | FetchInt
  | FetchLong
  | FetchDouble
  | FetchBinary (size : nat)
  | FetchString
  | FetchStringRaw (size : nat)
  | BufferFetchString
  | FetchEnd
  | SetError (message : string).

Definition run_op (p : TlParser) (op : fetch_op) : outcome TlParser :=
  match op with
  | PrefetchInt => prefetch_int_checked p
  | FetchInt => snd <$> fetch_int p
  | FetchLong => snd <$> fetch_long p
  | FetchDouble => snd <$> fetch_double p
  | FetchBinary n => snd <$> fetch_binary n p
  | FetchString => snd <$> fetch_string p
  | FetchStringRaw n => snd <$> fetch_string_raw (Z.of_nat n) p
  | BufferFetchString => snd <$> buffer_fetch_string p
  | FetchEnd => fetch_end p
  | SetError message => set_error message p
  end.

(** The sizes the [static_assert] allows, and an error has a text. *)
Definition op_ok (op : fetch_op) : Prop :=
  match op with
  | FetchBinary n => (n ≤ 64)%nat
  | SetError message => message ≠ ""%string
  | _ => True
  end.

Lemma safe_fetch_step {A} (zero : A) good f p :
  safe_fetch zero good f → reserved 0 p →
  ∃ p', snd <$> f p = Ok p' ∧ reserved 0 p' ∧ later p p'.
Proof.
  intros Hf Hp. destruct (Hf p Hp) as (r & p' & -> & Hr & Hl & _). by exists p'.
Qed.

Lemma run_op_spec p op : reserved 0 p → op_ok op →
  ∃ p', run_op p op = Ok p' ∧ reserved 0 p' ∧ later p p'.
Proof.
  intros Hp Hop. destruct op; simpl.
  - exists p. by rewrite prefetch_int_checked_spec.
  - by eapply safe_fetch_step; [apply safe_fetch_int|].
  - by eapply safe_fetch_step; [apply safe_fetch_long|].
  - by eapply safe_fetch_step; [apply safe_fetch_double|].
  - by eapply safe_fetch_step; [apply safe_fetch_binary|].
  - by eapply safe_fetch_step; [apply safe_fetch_string|].
  - by eapply safe_fetch_step; [apply safe_fetch_string_raw; lia|].
  - by eapply safe_fetch_step; [apply safe_buffer_fetch_string|].
  - destruct (fetch_end_spec p Hp) as (p' & H & Hr & Hl & _). by exists p'.
  - destruct (set_error_spec 0 0 p message Hp Hop) as (p' & H & Hr & Hl & _). by exists p'.
Qed.

Lemma run_ops_spec p ops : reserved 0 p → Forall op_ok ops →
  ∃ p', ofold run_op p ops = Ok p' ∧ reserved 0 p' ∧ later p p'.
Proof.
  intros Hp Hops. apply (ofold_total run_op (λ q, reserved 0 q ∧ later p q)).
  { split; [done|reflexivity]. }
  intros q op Hin [Hq Hlq]. rewrite Forall_forall in Hops.
  destruct (run_op_spec q op Hq (Hops op Hin)) as (q' & Hrun & Hq' & Hl).
  exists q'. split; [done|]. split; [done|]. by etrans.
Qed.

(** C23. On any received bytes, shorter than [SIZE_MAX], and with any sequence of the
    calls of [fetch_op] ([fetch_int], [fetch_long], [fetch_double], [fetch_binary] of a
    size the [static_assert] allows, [fetch_string] of both parsers, [fetch_string_raw]
    of any size, [fetch_end], [set_error] with a text, and [prefetch_int_unsafe] after
    [can_prefetch_int]), the parser reads only inside the bytes it was given (or inside
    its own zero bytes), no check of it fails, and the first error is the one reported,
    whatever is called after it. *)
Theorem parser_stays_in_bounds slice ops ops' :
  bytes_ok slice → Z.of_nat (length slice) < SIZE_MAX →
  Forall op_ok ops → Forall op_ok ops' →
  ∃ p p', ofold run_op (mk_TlParser slice) ops = Ok p ∧
    ofold run_op (mk_TlParser slice) (ops ++ ops') = Ok p' ∧
    (has_error p = true → get_status p' = get_status p).
Proof.
  intros Hs Hl Hops Hops'.
  destruct (run_ops_spec _ ops (mk_TlParser_reserved slice Hs Hl) Hops) as (p & Hp & Hr & _).
  destruct (run_ops_spec p ops' Hr Hops') as (p' & Hp' & _ & [He _]).
  exists p, p'. split; [done|]. split; [by rewrite ofold_app, Hp|].
  intros Herr. destruct (He Herr) as [E1 E2]. unfold get_status.
  by rewrite (has_error_eq _ _ E1), E1, E2.
Qed.

Lemma parser_stays_in_bounds_witness :
  ∃ p p', ofold run_op (mk_TlParser [5; 65; 66]) [FetchString] = Ok p ∧
    ofold run_op (mk_TlParser [5; 65; 66]) ([FetchString] ++ [FetchBinary 64; FetchDouble; FetchEnd]) = Ok p' ∧
    (has_error p = true → get_status p' = get_status p).
Proof.
  apply (parser_stays_in_bounds [5; 65; 66] [FetchString] [FetchBinary 64; FetchDouble; FetchEnd]).
  - apply (bool_decide_unpack _). vm_compute. exact I.
  - reflexivity.
  - repeat constructor.
  - repeat constructor.
Defined.
