(* ===== verification/TlParserFacts.v ===== *)
(** * What is stored is what is fetched

    The bytes the storers write for a number or a string, and the parser that reads
    them back. *)
From S2P Require Import Prelude Bytes TlParsers.

(** A parser without error, before the bytes [l]. *)
Definition parser_at (l : list Z) (dl : Z) : TlParser := {|
  data := l; data_len := dl; left_len := Z.of_nat (length l);
  error_pos := SIZE_MAX; error := "" |}.

(** The stored form of a string. *)
Definition string_header (n : Z) : list Z :=
  if n <? 254 then [n]
  else if n <? 2 ^ 24 then [254; n mod 256; n / 256 mod 256; n / 65536]
  else [255; n mod 256; n / 256 mod 256; n / 65536 mod 256; n / 16777216; 0; 0; 0].
Definition string_padding (n : Z) : nat := Z.to_nat ((if n <? 254 then - (n + 1) else - n) mod 4).
Definition stored_string (str : list Z) : list Z :=
  let n := Z.of_nat (length str) in string_header n ++ str ++ replicate (string_padding n) 0.

Definition string_ok (str : list Z) : Prop := bytes_ok str ∧ Z.of_nat (length str) < 2 ^ 32.

Lemma low_byte n : Z.land n 255 = n mod 256.
Proof. change 255 with (2 ^ 8 - 1). by rewrite land_mask. Qed.

Lemma put_list_Ok l w : (length l ≤ room w)%nat →
  ofold (λ w b, put b w) w l = Ok {| written := written w ++ l; room := room w - length l |}.
Proof.
  revert w. induction l as [|b l IH]; intros w Hl; simpl.
  { rewrite app_nil_r, Nat.sub_0_r. by destruct w. }
  simpl in Hl. rewrite put_Ok by lia. simpl. rewrite IH by (simpl; lia). simpl.
  rewrite <-app_assoc. do 2 f_equal. lia.
Qed.

Ltac puts := repeat (rewrite put_Ok by (simpl; lia); cbn [mbind outcome_bind written room]).

Lemma stored_string_length str :
  let n := Z.of_nat (length str) in
  Z.of_nat (length (stored_string str))
  = (n + (if n <? 254 then 1 else if n <? 2 ^ 24 then 4 else 8) + 3) / 4 * 4.
Proof.
  intros n. unfold stored_string, string_header, string_padding.
  rewrite !length_app, length_replicate. fold n.
  change (2 ^ 24) with 16777216.
  destruct (Z.ltb_spec n 254); [|destruct (Z.ltb_spec n 16777216)]; cbn [length];
    Z.to_euclidean_division_equations; lia.
Qed.

Lemma store_padding len n w :
  Z.land len 3 = len mod 4 → n = Z.to_nat ((- len) mod 4) → (n ≤ room w)%nat →
  match Z.land len 3 with
  | 1 => buf ← put 0 w; buf ← put 0 buf; put 0 buf
  | 2 => buf ← put 0 w; put 0 buf
  | 3 => put 0 w
  | _ => Ok w
  end = Ok {| written := written w ++ replicate n 0; room := room w - n |}.
Proof.
  intros -> -> Hr. pose proof (Z.mod_pos_bound len 4 ltac:(lia)) as Hm.
  assert (Hn : Z.to_nat ((- len) mod 4) = if len mod 4 =? 0 then 0%nat else Z.to_nat (4 - len mod 4)).
  { destruct (Z.eqb_spec (len mod 4) 0); Z.to_euclidean_division_equations; lia. }
  rewrite Hn in *. clear Hn.
  assert (len mod 4 = 0 ∨ len mod 4 = 1 ∨ len mod 4 = 2 ∨ len mod 4 = 3) as [E|[E|[E|E]]] by lia;
    rewrite E in *; cbn [Z.eqb Pos.eqb Z.to_nat Z.sub Z.add Z.opp Z.pos_sub] in *.
  - cbn. rewrite app_nil_r, Nat.sub_0_r. by destruct w.
  - change (Z.to_nat (4 - 1)) with 3%nat in *. puts. rewrite <-!app_assoc. f_equal. f_equal. lia.
  - change (Z.to_nat (4 - 2)) with 2%nat in *. puts. rewrite <-!app_assoc. f_equal. f_equal. lia.
  - change (Z.to_nat (4 - 3)) with 1%nat in *. rewrite put_Ok by (simpl; lia). done.
Qed.

Lemma unsafe_store_string_Ok str w :
  string_ok str → (length (stored_string str) ≤ room w)%nat →
  unsafe_store_string str w
  = Ok {| written := written w ++ stored_string str; room := room w - length (stored_string str) |}.
Proof.
  intros [_ Hlen] Hroom. unfold unsafe_store_string, stored_string, string_header, string_padding in *.
  set (n := Z.of_nat (length str)) in *. assert (0 ≤ n) by lia.
  rewrite !length_app, length_replicate in *.
  change (Z.shiftl 1 24) with (2 ^ 24). change (Z.shiftl 1 32) with (2 ^ 32).
  rewrite !low_byte, !Z.shiftr_div_pow2 by lia. change (2 ^ 8) with 256.
  change (2 ^ 16) with 65536. change (2 ^ 24) with 16777216 in *.
  change (2 ^ 32) with 4294967296 in *.
  assert (Hl3 : ∀ m, Z.land m 3 = m mod 4).
  { intros m. change 3 with (2 ^ 2 - 1). by rewrite land_mask. }
  assert (Hu : ∀ m, 0 ≤ m < 256 → u8 m = m) by (intros; by apply u8_small).
  pose proof (Z.mod_pos_bound n 256 ltac:(lia)). pose proof (Z.mod_pos_bound (n / 256) 256 ltac:(lia)).
  pose proof (Z.mod_pos_bound (n / 65536) 256 ltac:(lia)).
  destruct (Z.ltb_spec n 254); [|destruct (Z.ltb_spec n 16777216);
    [|rewrite (proj2 (Z.ltb_lt n 4294967296)) by lia]]; cbn [length] in Hroom.
  - puts. rewrite put_all_Ok by (simpl; lia). cbn [mbind outcome_bind].
    rewrite store_padding with (n := Z.to_nat ((- (n + 1)) mod 4)) by (done || (cbn [room]; lia)).
    cbn [written room]. rewrite Hu, <-!app_assoc by lia. f_equal. f_equal. simpl; lia.
  - puts. rewrite put_all_Ok by (simpl; lia). cbn [mbind outcome_bind].
    rewrite store_padding with (n := Z.to_nat ((- n) mod 4)) by (done || (cbn [room]; lia)).
    cbn [written room]. rewrite !Hu, <-!app_assoc by (Z.to_euclidean_division_equations; lia).
    f_equal. f_equal. simpl; lia.
  - puts. rewrite put_all_Ok by (simpl; lia). cbn [mbind outcome_bind].
    rewrite store_padding with (n := Z.to_nat ((- n) mod 4)) by (done || (cbn [room]; lia)).
    cbn [written room].
    replace (n / 16777216 mod 256) with (n / 16777216) by (Z.to_euclidean_division_equations; lia).
    rewrite !Hu, <-!app_assoc by (Z.to_euclidean_division_equations; lia).
    f_equal. f_equal. simpl; lia.
Qed.

Lemma calc_store_string_Ok str length :
  string_ok str → 0 ≤ length < two64 →
  calc_store_string str length = Ok (u64 (length + Z.of_nat (List.length (stored_string str)))).
Proof.
  intros [_ Hlen] Hl. unfold calc_store_string. rewrite stored_string_length.
  change (Z.shiftl 1 24) with (2 ^ 24). change (2 ^ 24) with 16777216.
  change (2 ^ 32) with 4294967296 in *.
  set (n := Z.of_nat (List.length str)) in *. assert (0 ≤ n) by lia.
  do 3 f_equal. rewrite land_minus4.
  destruct (Z.ltb_spec n 254); [|destruct (Z.ltb_spec n 16777216)];
    apply u64_small; unfold two64; Z.to_euclidean_division_equations; lia.
Qed.

(** A parser whose [left_len] the granted [n] bytes are already taken from. *)
Definition granted (n : Z) (l : list Z) (dl : Z) : TlParser := {|
  data := l; data_len := dl; left_len := Z.of_nat (length l) - n;
  error_pos := SIZE_MAX; error := "" |}.

Lemma granted_0 l dl : granted 0 l dl = parser_at l dl.
Proof. unfold granted, parser_at. by rewrite Z.sub_0_r. Qed.

Lemma check_len_granted n m l dl : m + n ≤ Z.of_nat (length l) →
  check_len n (granted m l dl) = Ok (granted (m + n) l dl).
Proof.
  intros Hn. unfold check_len, granted. cbn [left_len data data_len error_pos error].
  rewrite (proj2 (Z.ltb_ge _ _)) by lia. do 2 f_equal. lia.
Qed.

Lemma advance_granted n l dl : 0 ≤ n ≤ Z.of_nat (length l) →
  advance_data n (granted n l dl) = Ok (parser_at (drop (Z.to_nat n) l) dl).
Proof.
  intros Hn. unfold advance_data, granted, parser_at. cbn [left_len data data_len error_pos error].
  rewrite (proj2 (Z.leb_le _ _)) by lia. do 2 f_equal. rewrite length_drop. lia.
Qed.

Lemma fetch_binary_at n bs r dl : length bs = n →
  fetch_binary n (parser_at (bs ++ r) dl) = Ok (bs, parser_at r dl).
Proof.
  intros <-. unfold fetch_binary. rewrite <-granted_0, check_len_granted
    by (rewrite length_app; lia).
  rewrite Z.add_0_l. unfold fetch_binary_unsafe, peek. cbn [mbind outcome_bind granted data].
  rewrite length_app, (proj2 (Nat.leb_le _ _)) by lia. cbn [mbind outcome_bind].
  rewrite advance_granted by (rewrite length_app; lia). cbn [mbind outcome_bind].
  by rewrite Nat2Z.id, take_app_length, drop_app_length.
Qed.

Lemma fetch_int_at x r dl : in_int x →
  fetch_int (parser_at (le_split 4 (u32 x) ++ r) dl) = Ok (x, parser_at r dl).
Proof.
  intros Hx. pose proof (fetch_binary_at 4 (le_split 4 (u32 x)) r dl (le_split_length _ _)) as H.
  unfold fetch_binary in H. change (Z.of_nat 4) with 4 in H. unfold fetch_int, fetch_int_unsafe.
  destruct (check_len 4 _); cbn [mbind outcome_bind] in *; [|done].
  rewrite H. cbn [mbind outcome_bind]. by rewrite i32_of_u32.
Qed.

Lemma fetch_long_at x r dl : in_int64 x →
  fetch_long (parser_at (le_split 8 (u64 x) ++ r) dl) = Ok (x, parser_at r dl).
Proof.
  intros Hx. pose proof (fetch_binary_at 8 (le_split 8 (u64 x)) r dl (le_split_length _ _)) as H.
  unfold fetch_binary in H. change (Z.of_nat 8) with 8 in H. unfold fetch_long, fetch_long_unsafe.
  destruct (check_len 8 _); cbn [mbind outcome_bind] in *; [|done].
  rewrite H. cbn [mbind outcome_bind]. by rewrite i64_of_u64.
Qed.

Lemma fetch_string_body_at (str pad r : list Z) dl aligned :
  aligned = Z.of_nat (length str + length pad) →
  fetch_string_body (str ++ pad ++ r) (Z.of_nat (length str)) aligned
    (parser_at (str ++ pad ++ r) dl) = Ok (str, parser_at r dl).
Proof.
  intros ->. unfold fetch_string_body. rewrite <-granted_0, check_len_granted
    by (rewrite !length_app; lia).
  cbn [mbind outcome_bind]. change (has_error _) with false. cbv iota.
  rewrite Z.add_0_l, advance_granted by (rewrite !length_app; lia). cbn [mbind outcome_bind].
  unfold string_at. rewrite length_app, (proj2 (Z.leb_le _ _)) by lia. cbn [mbind outcome_bind].
  rewrite !Nat2Z.id, take_app_length. do 3 f_equal.
  rewrite app_assoc, <-length_app. apply drop_app_length.
Qed.

(** In the short form, the first three bytes of the string and its padding come with
    the length byte. *)
Lemma fetch_string_body_short (b : Z) (str pad r : list Z) dl aligned :
  4 + aligned = Z.of_nat (1 + length str + length pad) → 0 ≤ aligned →
  fetch_string_body (str ++ pad ++ r) (Z.of_nat (length str)) aligned
    (parser_at (drop 4 (b :: str ++ pad ++ r)) dl) = Ok (str, parser_at r dl).
Proof.
  intros Ha Ha0. unfold fetch_string_body.
  assert (Hl : Z.of_nat (length (drop 4 (b :: str ++ pad ++ r)))
               = aligned + Z.of_nat (length r)).
  { rewrite length_drop. simpl. rewrite !length_app. lia. }
  rewrite <-granted_0, check_len_granted by lia.
  cbn [mbind outcome_bind]. change (has_error _) with false. cbv iota.
  rewrite Z.add_0_l, advance_granted by lia. cbn [mbind outcome_bind].
  unfold string_at. rewrite length_app, (proj2 (Z.leb_le _ _)) by lia. cbn [mbind outcome_bind].
  rewrite Nat2Z.id, take_app_length. do 3 f_equal.
  rewrite drop_drop, app_assoc.
  replace (4 + Z.to_nat aligned)%nat with (S (length (str ++ pad)))
    by (rewrite length_app; lia).
  simpl. apply drop_app_length.
Qed.

Lemma fetch_string_at str r dl : string_ok str →
  fetch_string (parser_at (stored_string str ++ r) dl) = Ok (str, parser_at r dl).
Proof.
  intros [Hb Hlen]. pose proof (stored_string_length str) as Hsl. cbv zeta in Hsl.
  unfold fetch_string. rewrite <-granted_0.
  assert (4 ≤ Z.of_nat (length (stored_string str))) as H4.
  { rewrite Hsl. destruct (_ <? 254); [|destruct (_ <? 2 ^ 24)];
      Z.to_euclidean_division_equations; lia. }
  rewrite check_len_granted by (rewrite length_app; lia).
  unfold stored_string, string_header, string_padding in *.
  set (n := Z.of_nat (length str)) in *. assert (0 ≤ n) by lia.
  change (2 ^ 24) with 16777216 in *. change (2 ^ 32) with 4294967296 in *.
  rewrite !length_app, length_replicate in *.
  destruct (Z.ltb_spec n 254) as [Hn|Hn]; [|destruct (Z.ltb_spec n 16777216) as [Hn2|Hn2]];
    cbn [length] in *; rewrite <-!app_assoc; cbn [app].
  - cbn [mbind outcome_bind granted data ptr_at lookup list_lookup deref].
    rewrite (proj2 (Z.ltb_lt _ _)) by done. rewrite advance_granted
      by (simpl; rewrite !length_app, length_replicate; lia).
    cbn [mbind outcome_bind]. change (Z.to_nat 4) with 4%nat. change (drop 1 (n :: ?x)) with x.
    rewrite shift_out2. apply fetch_string_body_short; [|Z.to_euclidean_division_equations; lia].
    rewrite length_replicate. Z.to_euclidean_division_equations; lia.
  - cbn [mbind outcome_bind granted data ptr_at lookup list_lookup deref].
    change (254 <? 254) with false. change (254 =? 254) with true. cbv iota.
    rewrite advance_granted by (simpl; rewrite !length_app, length_replicate; lia).
    cbn [mbind outcome_bind]. change (Z.to_nat 4) with 4%nat. cbn [drop].
    rewrite shift_out2, !Z.shiftl_mul_pow2 by lia. change (2 ^ 8) with 256. change (2 ^ 16) with 65536.
    replace (n mod 256 + n / 256 mod 256 * 256 + n / 65536 * 65536) with n
      by (Z.to_euclidean_division_equations; lia).
    apply fetch_string_body_at. rewrite length_replicate.
    Z.to_euclidean_division_equations; lia.
  - cbn [mbind outcome_bind granted data ptr_at lookup list_lookup deref].
    change (255 <? 254) with false. change (255 =? 254) with false. cbv iota.
    rewrite check_len_granted by (simpl; rewrite !length_app, length_replicate; lia).
    cbn [mbind outcome_bind granted data ptr_at lookup list_lookup deref].
    replace (u64 _) with n.
    2: { rewrite !Z.shiftl_mul_pow2 by lia. rewrite u64_small.
         all: change (2 ^ 8) with 256; change (2 ^ 16) with 65536; change (2 ^ 24) with 16777216;
           unfold two64; Z.to_euclidean_division_equations; lia. }
    replace (n >? SIZE_MAX - 3) with false by (unfold SIZE_MAX, two64; lia).
    change (0 + 4 + 4) with 8.
    rewrite advance_granted by (simpl; rewrite !length_app, length_replicate; lia).
    cbn [mbind outcome_bind]. change (Z.to_nat 8) with 8%nat. cbn [drop]. rewrite shift_out2.
    apply fetch_string_body_at. rewrite length_replicate.
    Z.to_euclidean_division_equations; lia.
Qed.
