(* ===== verification/TlHelpers.v ===== *)
(** * Serialization of objects ([td/tdutils/td/utils/tl_helpers.h])

    [store] and [parse] for the types TDLib's structures are built from, and
    [serialize] and [unserialize]. The overloads of the code are instances of a
    class; a second class states what every type promises, and the instances for
    vectors, pairs and pointers are proved against the promise of their parts. *)
From S2P Require Import Prelude Bytes TlParsers TlParserFacts.

(** ** The interface *)

Class TlObject (T : Type) := {
  (** [T()] *)
  tl_default : T;
  tl_store : ∀ St, TlStorer St → T → St → outcome St;
  (** [parse(x, parser)], given the old value of [x]. *)
  tl_parse : T → TlParser → outcome (T * TlParser);
}.
Definition store `{TlObject T, TlStorer St} (x : T) (storer : St) : outcome St :=
  tl_store St _ x storer.
Definition parse `{TlObject T} (x : T) (parser : TlParser) : outcome (T * TlParser) :=
  tl_parse x parser.

(** What a type promises: its valid values have one stored form, which the storers
    write and count and from which [parse] recovers the value; and [parse], into an
    object that is fresh, never faults, whatever it reads. *)
Class TlLaws (T : Type) `{TlObject T} := {
  tl_valid : T → Prop;
  tl_fresh : T → Prop;
  tl_bytes : T → list Z;
  default_fresh : tl_fresh tl_default;
  stored_ok : ∀ x, tl_valid x → bytes_ok (tl_bytes x) ∧ (1 ≤ length (tl_bytes x))%nat;
  store_writes : ∀ x w, tl_valid x → (length (tl_bytes x) ≤ room w)%nat →
    store x w = Ok {| written := written w ++ tl_bytes x; room := room w - length (tl_bytes x) |};
  store_counts : ∀ x (n : Z), tl_valid x → 0 ≤ n < two64 →
    store x n = Ok (u64 (n + Z.of_nat (length (tl_bytes x))));
  parse_stored : ∀ x old r dl, tl_valid x → tl_fresh old →
    parse old (parser_at (tl_bytes x ++ r) dl) = Ok (x, parser_at r dl);
  parse_safe : ∀ old p, tl_fresh old → reserved 0 p →
    ∃ x p', parse old p = Ok (x, p') ∧ reserved 0 p' ∧ later p p';
}.

(** ** Numbers and strings *)

Record int32 := Int32 { get_int32 : Z }.
Record uint32 := UInt32 { get_uint32 : Z }.
Record int64 := Int64 { get_int64 : Z }.
Record uint64 := UInt64 { get_uint64 : Z }.
(** Numbers of 32 and 64 bytes, and doubles of 8, as their bytes. *)
Record raw (n : nat) := Raw { get_raw : list Z }.
Arguments Raw {n} get_raw.
Arguments get_raw {n} r.
Notation UInt256 := (raw 32).
Notation UInt512 := (raw 64).
Record tl_string := Str { get_str : list Z }.

#[export] Instance tl_bool : TlObject bool := {|
  tl_default := false;
  tl_store St _ x := store_binary (le_split 4 (Z.b2z x));
  tl_parse _ p := '(r, p) ← fetch_int p; Ok (negb (r =? 0), p);
|}.
#[export] Instance tl_int32 : TlObject int32 := {|
  tl_default := Int32 0;
  tl_store St _ x := store_binary (le_split 4 (u32 (get_int32 x)));
  tl_parse _ p := '(r, p) ← fetch_int p; Ok (Int32 r, p);
|}.
#[export] Instance tl_uint32 : TlObject uint32 := {|
  tl_default := UInt32 0;
  tl_store St _ x := store_binary (le_split 4 (get_uint32 x));
  tl_parse _ p := '(r, p) ← fetch_int p; Ok (UInt32 (u32 r), p);
|}.
#[export] Instance tl_int64 : TlObject int64 := {|
  tl_default := Int64 0;
  tl_store St _ x := store_binary (le_split 8 (u64 (get_int64 x)));
  tl_parse _ p := '(r, p) ← fetch_long p; Ok (Int64 r, p);
|}.
#[export] Instance tl_uint64 : TlObject uint64 := {|
  tl_default := UInt64 0;
  tl_store St _ x := store_binary (le_split 8 (get_uint64 x));
  tl_parse _ p := '(r, p) ← fetch_long p; Ok (UInt64 (u64 r), p);
|}.
#[export] Instance tl_raw n : TlObject (raw n) := {|
  tl_default := Raw (replicate n 0);
  tl_store St _ x := store_binary (get_raw x);
  tl_parse _ p := '(r, p) ← fetch_binary n p; Ok (Raw r, p);
|}.
#[export] Instance tl_str : TlObject tl_string := {|
  tl_default := Str [];
  tl_store St _ x := store_string (get_str x);
  tl_parse _ p := '(r, p) ← fetch_string p; Ok (Str r, p);
|}.

(** ** Containers *)

(** The loops over the elements. *)
Fixpoint store_each `{TlObject T, TlStorer St} (vec : list T) (storer : St) : outcome St :=
  match vec with
  | [] => Ok storer
  | val :: vec => storer ← store val storer; store_each vec storer
  end.
Fixpoint parse_each `{TlObject T} (vec : list T) (parser : TlParser)
    : outcome (list T * TlParser) :=
  match vec with
  | [] => Ok ([], parser)
  | val :: vec =>
      '(val, parser) ← parse val parser;
      '(vec, parser) ← parse_each vec parser;
      Ok (val :: vec, parser)
  end.

(** [narrow_cast<int32>(size)]: checked. *)
Definition narrow_cast_int32 (size : Z) : outcome Z :=
  _ ← cassert (u64 (i32 size) =? size);
  _ ← cassert (Bool.eqb (i32 size <? 0) (size <? 0));
  Ok (i32 size).

#[export] Instance tl_vector `{TlObject T} : TlObject (list T) := {|
  tl_default := [];
  tl_store St _ vec storer :=
    size ← narrow_cast_int32 (Z.of_nat (length vec));
    storer ← store_binary (le_split 4 (u32 size)) storer;
    store_each vec storer;
  tl_parse vec parser :=
    '(r, parser) ← fetch_int parser;
    let size := u32 r in
    if get_left_len parser <? size then
      parser ← set_error "Wrong vector length" parser; Ok (vec, parser)
    else parse_each (replicate (Z.to_nat size) tl_default) parser;
|}.

(** [unique_ptr<T>]: null as [None]. *)
#[export] Instance tl_unique_ptr `{TlObject T} : TlObject (option T) := {|
  tl_default := None;
  tl_store St _ ptr storer :=
    match ptr with None => Fault AssertFailure | Some x => store x storer end;
  tl_parse ptr parser :=
    match ptr with
    | Some _ => Fault AssertFailure
    | None => '(x, parser) ← parse tl_default parser; Ok (Some x, parser)
    end;
|}.

#[export] Instance tl_pair `{TlObject U, TlObject V} : TlObject (U * V) := {|
  tl_default := (tl_default, tl_default);
  tl_store St _ pair storer := storer ← store pair.1 storer; store pair.2 storer;
  tl_parse pair parser :=
    '(first, parser) ← parse pair.1 parser;
    '(second, parser) ← parse pair.2 parser;
    Ok ((first, second), parser);
|}.

(** ** Flags: up to 31 booleans in one number *)

(** [STORE_FLAG] for each flag, between [BEGIN_STORE_FLAGS] and [END_STORE_FLAGS]. *)
Fixpoint STORE_FLAGS (flags : list bool) (flags_store bit_offset_store : Z) : Z * Z :=
  match flags with
  | [] => (flags_store, bit_offset_store)
  | flag :: flags =>
      STORE_FLAGS flags (u32 (Z.lor flags_store (Z.shiftl (Z.b2z flag) bit_offset_store)))
        (bit_offset_store + 1)
  end.
Definition store_flags `{TlStorer St} (flags : list bool) (storer : St) : outcome St :=
  let (flags_store, bit_offset_store) := STORE_FLAGS flags 0 0 in
  _ ← cassert (bit_offset_store <? 31);
  store (UInt32 flags_store) storer.

Fixpoint PARSE_FLAGS (n : nat) (flags_parse bit_offset_parse : Z) : list bool * Z :=
  match n with
  | O => ([], bit_offset_parse)
  | S n =>
      let flag := negb (Z.land (Z.shiftr flags_parse bit_offset_parse) 1 =? 0) in
      let (flags, bit_offset_parse) := PARSE_FLAGS n flags_parse (bit_offset_parse + 1) in
      (flag :: flags, bit_offset_parse)
  end.
(** The text of the error lists the flags that are left over. *)
Definition parse_flags (n : nat) (parser : TlParser) : outcome (list bool * TlParser) :=
  '(f, parser) ← parse (UInt32 0) parser;
  let flags_parse := get_uint32 f in
  let (flags, bit_offset_parse) := PARSE_FLAGS n flags_parse 0 in
  _ ← cassert (bit_offset_parse <? 31);
  parser ←
    (if negb (Z.land flags_parse (u32 (Z.lnot (Z.shiftl 1 bit_offset_parse - 1))) =? 0)
     then set_error "Invalid flags" parser else Ok parser);
  Ok (flags, parser).

(** A structure that consists of [n] flags. *)
Record flag_set (n : nat) := Flags { get_flags : list bool }.
Arguments Flags {n} get_flags.
Arguments get_flags {n} f.

#[export] Instance tl_flags n : TlObject (flag_set n) := {|
  tl_default := Flags (replicate n false);
  tl_store St _ x := store_flags (get_flags x);
  tl_parse _ p := '(l, p) ← parse_flags n p; Ok (Flags l, p);
|}.

(** ** [serialize] and [unserialize] *)

Definition serialize `{TlObject T} (object : T) : outcome (list Z) :=
  length ← store object (0 : Z);
  storer ← store object {| written := []; room := Z.to_nat length |};
  _ ← cassert (room storer =? 0)%nat;
  Ok (written storer).

Definition unserialize `{TlObject T} (object : T) (data : list Z)
    : outcome (T * option (string * Z)) :=
  let parser := mk_TlParser data in
  '(object, parser) ← parse object parser;
  parser ← fetch_end parser;
  Ok (object, get_status parser).

(** ** The promises hold *)

Lemma u64_add_assoc n a b : u64 (u64 (n + a) + b) = u64 (n + (a + b)).
Proof. unfold u64. rewrite Zplus_mod_idemp_l. f_equal. lia. Qed.

(** A type stored by [store_binary] in [k] bytes and fetched by a safe function. *)
Section fixed_size.
Context {T : Type} `{TlObject T} (k : nat) (valid : T → Prop) (bytes : T → list Z).
Hypothesis Hk : (1 ≤ k)%nat.
Hypothesis Hbytes : ∀ x, valid x → bytes_ok (bytes x) ∧ length (bytes x) = k.
Hypothesis Hstore : ∀ St (HSt : TlStorer St) x s, store x s = store_binary (bytes x) s.
Hypothesis Hparse : ∀ x old r dl, valid x →
  parse old (parser_at (bytes x ++ r) dl) = Ok (x, parser_at r dl).
Hypothesis Hsafe : ∀ old p, reserved 0 p →
  ∃ x p', parse old p = Ok (x, p') ∧ reserved 0 p' ∧ later p p'.

Program Definition fixed_size_laws : TlLaws T :=
  {| tl_valid := valid; tl_fresh := λ _, True; tl_bytes := bytes |}.
Next Obligation. done. Qed.
Next Obligation. intros x Hx. destruct (Hbytes x Hx) as [? ->]. done. Qed.
Next Obligation. intros x w Hx Hr. rewrite Hstore. by apply put_all_Ok. Qed.
Next Obligation. intros x n Hx Hn. by rewrite Hstore. Qed.
Next Obligation. intros x old r dl Hx _. by apply Hparse. Qed.
Next Obligation. intros old p _ Hp. by apply Hsafe. Qed.
End fixed_size.

Lemma safe_fetch_parse {A B} (zero : A) good f (g : A → B) p :
  safe_fetch zero good f → reserved 0 p →
  ∃ x p', ('(r, p) ← f p; Ok (g r, p)) = Ok (x, p') ∧ reserved 0 p' ∧ later p p'.
Proof.
  intros Hf Hp. destruct (Hf p Hp) as (r & p' & -> & Hr & Hl & _). by exists (g r), p'.
Qed.

Definition uint32_ok (x : Z) : Prop := 0 ≤ x < two32.

Lemma u32_of_fetched x : uint32_ok x → u32 (i32 x) = x.
Proof.
  unfold uint32_ok, u32, i32, two32. intros Hx. Z.to_euclidean_division_equations. lia.
Qed.
Lemma u64_of_fetched x : 0 ≤ x < two64 → u64 (i64 x) = x.
Proof.
  unfold u64, i64, two64. change (2 ^ 63) with 9223372036854775808. intros Hx.
  Z.to_euclidean_division_equations. lia.
Qed.

Lemma fetch_int_raw x r dl : uint32_ok x →
  fetch_int (parser_at (le_split 4 x ++ r) dl) = Ok (i32 x, parser_at r dl).
Proof.
  intros Hx. assert (le_split 4 x = le_split 4 (u32 (i32 x))) as -> by by rewrite u32_of_fetched.
  apply fetch_int_at, i32_range.
Qed.
Lemma fetch_long_raw x r dl : 0 ≤ x < two64 →
  fetch_long (parser_at (le_split 8 x ++ r) dl) = Ok (i64 x, parser_at r dl).
Proof.
  intros Hx. assert (le_split 8 x = le_split 8 (u64 (i64 x))) as -> by by rewrite u64_of_fetched.
  apply fetch_long_at, i64_range.
Qed.

#[export] Instance laws_bool : TlLaws bool.
Proof.
  refine (fixed_size_laws 4 (λ _, True) (λ x, le_split 4 (Z.b2z x)) _ _ _ _ _); [lia|..].
  - intros x _. split; [apply le_split_ok|apply le_split_length].
  - done.
  - intros x old r dl _. unfold parse. cbn [tl_parse tl_bool tl_int32 tl_uint32 tl_int64 tl_uint64 tl_raw tl_str].
    rewrite fetch_int_raw by (destruct x; unfold uint32_ok, two32; simpl; lia). by destruct x.
  - intros old p Hp. by apply (safe_fetch_parse _ _ _ _ _ safe_fetch_int).
Defined.
#[export] Instance laws_int32 : TlLaws int32.
Proof.
  refine (fixed_size_laws 4 (λ x, in_int (get_int32 x)) (λ x, le_split 4 (u32 (get_int32 x)))
    _ _ _ _ _); [lia|..].
  - intros x _. split; [apply le_split_ok|apply le_split_length].
  - done.
  - intros x old r dl Hx. unfold parse. cbn [tl_parse tl_bool tl_int32 tl_uint32 tl_int64 tl_uint64 tl_raw tl_str]. rewrite fetch_int_at by done. by destruct x.
  - intros old p Hp. by apply (safe_fetch_parse _ _ _ _ _ safe_fetch_int).
Defined.
#[export] Instance laws_uint32 : TlLaws uint32.
Proof.
  refine (fixed_size_laws 4 (λ x, uint32_ok (get_uint32 x)) (λ x, le_split 4 (get_uint32 x))
    _ _ _ _ _); [lia|..].
  - intros x _. split; [apply le_split_ok|apply le_split_length].
  - done.
  - intros x old r dl Hx. unfold parse. cbn [tl_parse tl_bool tl_int32 tl_uint32 tl_int64 tl_uint64 tl_raw tl_str]. rewrite fetch_int_raw by done. cbn [mbind outcome_bind].
    rewrite u32_of_fetched by done. by destruct x.
  - intros old p Hp. by apply (safe_fetch_parse _ _ _ _ _ safe_fetch_int).
Defined.
#[export] Instance laws_int64 : TlLaws int64.
Proof.
  refine (fixed_size_laws 8 (λ x, in_int64 (get_int64 x)) (λ x, le_split 8 (u64 (get_int64 x)))
    _ _ _ _ _); [lia|..].
  - intros x _. split; [apply le_split_ok|apply le_split_length].
  - done.
  - intros x old r dl Hx. unfold parse. cbn [tl_parse tl_bool tl_int32 tl_uint32 tl_int64 tl_uint64 tl_raw tl_str]. rewrite fetch_long_at by done. by destruct x.
  - intros old p Hp. by apply (safe_fetch_parse _ _ _ _ _ safe_fetch_long).
Defined.
#[export] Instance laws_uint64 : TlLaws uint64.
Proof.
  refine (fixed_size_laws 8 (λ x, 0 ≤ get_uint64 x < two64) (λ x, le_split 8 (get_uint64 x))
    _ _ _ _ _); [lia|..].
  - intros x _. split; [apply le_split_ok|apply le_split_length].
  - done.
  - intros x old r dl Hx. unfold parse. cbn [tl_parse tl_bool tl_int32 tl_uint32 tl_int64 tl_uint64 tl_raw tl_str]. rewrite fetch_long_raw by done. cbn [mbind outcome_bind].
    rewrite u64_of_fetched by done. by destruct x.
  - intros old p Hp. by apply (safe_fetch_parse _ _ _ _ _ safe_fetch_long).
Defined.

(** The size of a type fetched by [fetch_binary], within its [static_assert]. *)
Class BinarySize (n : nat) := binary_size : (1 ≤ n ≤ 64)%nat.
#[export] Instance size_8 : BinarySize 8. Proof. unfold BinarySize. lia. Qed.
#[export] Instance size_32 : BinarySize 32. Proof. unfold BinarySize. lia. Qed.
#[export] Instance size_64 : BinarySize 64. Proof. unfold BinarySize. lia. Qed.

#[export] Instance laws_raw n `{Hn : BinarySize n} : TlLaws (raw n).
Proof.
  refine (fixed_size_laws n (λ x, bytes_ok (get_raw x) ∧ length (get_raw x) = n) get_raw
    _ _ _ _ _).
  - apply Hn.
  - done.
  - done.
  - intros x old r dl [_ Hx]. unfold parse. cbn [tl_parse tl_bool tl_int32 tl_uint32 tl_int64 tl_uint64 tl_raw tl_str]. rewrite fetch_binary_at by done.
    by destruct x.
  - intros old p Hp. eapply safe_fetch_parse; [|done]. apply safe_fetch_binary, Hn.
Defined.

Lemma stored_string_ok str : string_ok str → bytes_ok (stored_string str).
Proof.
  intros [Hb Hl]. unfold stored_string, string_header. set (n := Z.of_nat (length str)) in *.
  assert (0 ≤ n) by lia. change (2 ^ 24) with 16777216. change (2 ^ 32) with 4294967296 in *.
  rewrite !bytes_ok_app. split_and!; [|done|apply bytes_ok_zeros].
  destruct (Z.ltb_spec n 254); [|destruct (Z.ltb_spec n 16777216)];
    rewrite ?bytes_ok_cons; unfold byte; split_and!; try constructor;
    Z.to_euclidean_division_equations; lia.
Qed.

Program Definition laws_string_def : TlLaws tl_string := {|
  tl_valid x := string_ok (get_str x);
  tl_fresh _ := True;
  tl_bytes x := stored_string (get_str x);
|}.
Next Obligation. done. Qed.
Next Obligation.
  intros x Hx. split; [by apply stored_string_ok|]. unfold stored_string, string_header.
  rewrite length_app. destruct (_ <? 254); [|destruct (_ <? _)]; simpl; lia.
Qed.
Next Obligation. intros x w Hx Hr. by apply unsafe_store_string_Ok. Qed.
Next Obligation. intros x n Hx Hn. by apply calc_store_string_Ok. Qed.
Next Obligation.
  intros x old r dl Hx _. unfold parse. cbn [tl_parse tl_bool tl_int32 tl_uint32 tl_int64 tl_uint64 tl_raw tl_str]. rewrite fetch_string_at by done. by destruct x.
Qed.
Next Obligation.
  intros old p _ Hp. by apply (safe_fetch_parse _ _ _ _ _ safe_fetch_string).
Qed.
#[export] Instance laws_string : TlLaws tl_string := laws_string_def.

(** ** Containers keep the promise of their parts *)

Section containers.
Context {T : Type} `{TlLaws T}.
Implicit Types (vec : list T) (w : writer) (p : TlParser).

Definition each_bytes vec : list Z := concat (tl_bytes <$> vec).

Lemma each_bytes_cons x vec : each_bytes (x :: vec) = tl_bytes x ++ each_bytes vec.
Proof. done. Qed.

Lemma each_bytes_ok vec : Forall tl_valid vec →
  bytes_ok (each_bytes vec) ∧ (length vec ≤ length (each_bytes vec))%nat.
Proof.
  induction 1 as [|x vec Hx _ [IHb IHl]]; [split; [constructor|done]|].
  rewrite each_bytes_cons, bytes_ok_app, length_app. destruct (stored_ok x Hx). simpl.
  split; [done|lia].
Qed.

Lemma store_each_writes vec w : Forall tl_valid vec → (length (each_bytes vec) ≤ room w)%nat →
  store_each vec w
  = Ok {| written := written w ++ each_bytes vec; room := room w - length (each_bytes vec) |}.
Proof.
  intros Hv. revert w. induction Hv as [|x vec Hx _ IH]; intros w Hr.
  { unfold each_bytes. simpl. rewrite app_nil_r, Nat.sub_0_r. by destruct w. }
  rewrite each_bytes_cons, length_app in *. cbn [store_each].
  rewrite store_writes by (done || lia). cbn [mbind outcome_bind].
  rewrite IH by (cbn [room]; lia). cbn [written room]. rewrite <-app_assoc. do 2 f_equal. lia.
Qed.

Lemma store_each_counts vec (n : Z) : Forall tl_valid vec → 0 ≤ n < two64 →
  store_each vec n = Ok (u64 (n + Z.of_nat (length (each_bytes vec)))).
Proof.
  intros Hv. revert n. induction Hv as [|x vec Hx _ IH]; intros n Hn.
  { unfold each_bytes. simpl. by rewrite Z.add_0_r, u64_small. }
  rewrite each_bytes_cons, length_app. cbn [store_each].
  rewrite store_counts by done. cbn [mbind outcome_bind].
  rewrite IH by apply u64_range. rewrite u64_add_assoc. do 3 f_equal. lia.
Qed.

Lemma parse_each_stored vec r dl : Forall tl_valid vec →
  parse_each (replicate (length vec) tl_default) (parser_at (each_bytes vec ++ r) dl)
  = Ok (vec, parser_at r dl).
Proof.
  induction 1 as [|x vec Hx _ IH]; [done|].
  rewrite each_bytes_cons, <-app_assoc. cbn [length replicate parse_each].
  rewrite parse_stored by (done || apply default_fresh). cbn [mbind outcome_bind].
  rewrite IH. done.
Qed.

Lemma parse_each_safe vec p : Forall tl_fresh vec → reserved 0 p →
  ∃ vec' p', parse_each vec p = Ok (vec', p') ∧ reserved 0 p' ∧ later p p'.
Proof.
  intros Hv. revert p. induction Hv as [|x vec Hx _ IH]; intros p Hp.
  { exists [], p. split; [done|]. split; [done|reflexivity]. }
  cbn [parse_each]. destruct (parse_safe x p Hx Hp) as (x' & p1 & -> & H1 & L1).
  cbn [mbind outcome_bind]. destruct (IH p1 H1) as (vec' & p2 & -> & H2 & L2).
  exists (x' :: vec'), p2. split; [done|]. split; [done|]. by etrans.
Qed.

Lemma narrow_cast_Ok n : 0 ≤ n ≤ INT_MAX → narrow_cast_int32 n = Ok n.
Proof.
  unfold INT_MAX. intros Hn. unfold narrow_cast_int32.
  rewrite i32_small by (unfold in_int, INT_MIN, INT_MAX; lia).
  rewrite u64_small, Z.eqb_refl by (unfold two64; lia). by rewrite Bool.eqb_reflx.
Qed.

Program Definition vector_laws : TlLaws (list T) := {|
  tl_valid vec := Forall tl_valid vec ∧ Z.of_nat (length vec) ≤ INT_MAX;
  tl_fresh _ := True;
  tl_bytes vec := le_split 4 (u32 (Z.of_nat (length vec))) ++ each_bytes vec;
|}.
Next Obligation. done. Qed.
Next Obligation.
  intros vec [Hv _]. rewrite bytes_ok_app, length_app, le_split_length.
  destruct (each_bytes_ok vec Hv). split; [|lia]. split; [apply le_split_ok|done].
Qed.
Next Obligation.
  intros vec w [Hv Hl] Hr. rewrite length_app, le_split_length in *.
  unfold store. cbn [tl_store tl_vector]. rewrite narrow_cast_Ok by lia. cbn [mbind outcome_bind].
  cbn [store_binary TlStorerUnsafe]. rewrite put_all_Ok by (rewrite le_split_length; lia).
  cbn [mbind outcome_bind]. rewrite store_each_writes by (done || (rewrite ?le_split_length; cbn [room]; lia)).
  cbn [written room]. rewrite <-app_assoc, le_split_length. do 2 f_equal. lia.
Qed.
Next Obligation.
  intros vec n [Hv Hl] Hn. rewrite length_app, le_split_length.
  unfold store. cbn [tl_store tl_vector]. rewrite narrow_cast_Ok by lia. cbn [mbind outcome_bind].
  cbn [store_binary TlStorerCalcLength]. cbn [mbind outcome_bind]. rewrite le_split_length.
  rewrite store_each_counts by (done || apply u64_range). rewrite u64_add_assoc. do 3 f_equal. lia.
Qed.
Next Obligation.
  intros vec old r dl [Hv Hl] _. unfold parse. cbn [tl_parse tl_vector]. rewrite <-app_assoc.
  assert (uint32_ok (Z.of_nat (length vec))) as Hu.
  { unfold uint32_ok, INT_MAX, two32 in *. lia. }
  rewrite u32_small, fetch_int_raw by done. cbn [mbind outcome_bind].
  rewrite u32_of_fetched by done. unfold get_left_len. cbn [parser_at left_len].
  destruct (each_bytes_ok vec Hv) as [_ Hge].
  rewrite (proj2 (Z.ltb_ge _ _)) by (rewrite length_app; lia).
  rewrite Nat2Z.id. by apply parse_each_stored.
Qed.
Next Obligation.
  intros vec p _ Hp. unfold parse. cbn [tl_parse tl_vector].
  destruct (safe_fetch_int p Hp) as (r & p1 & -> & H1 & L1 & _). cbn [mbind outcome_bind].
  destruct (get_left_len p1 <? u32 r).
  - destruct (set_error_spec 0 0 p1 "Wrong vector length" H1) as (p2 & -> & H2 & L2 & _); [done|].
    exists vec, p2. split; [done|]. split; [done|]. by etrans.
  - destruct (parse_each_safe (replicate (Z.to_nat (u32 r)) tl_default) p1)
      as (vec' & p2 & -> & H2 & L2); [apply Forall_replicate, default_fresh|done|].
    exists vec', p2. split; [done|]. split; [done|]. by etrans.
Qed.

Program Definition unique_ptr_laws : TlLaws (option T) := {|
  tl_valid ptr := match ptr with Some x => tl_valid x | None => False end;
  tl_fresh ptr := ptr = None;
  tl_bytes ptr := match ptr with Some x => tl_bytes x | None => [] end;
|}.
Next Obligation. done. Qed.
Next Obligation. intros [x|] Hx; [|done]. by apply stored_ok. Qed.
Next Obligation. intros [x|] w Hx Hr; [|done]. by apply (store_writes x). Qed.
Next Obligation. intros [x|] n Hx Hn; [|done]. by apply (store_counts x). Qed.
Next Obligation.
  intros [x|] old r dl Hx ->; [|done]. unfold parse. cbn [tl_parse tl_unique_ptr].
  by rewrite parse_stored by (done || apply default_fresh).
Qed.
Next Obligation.
  intros old p -> Hp. unfold parse. cbn [tl_parse tl_unique_ptr].
  destruct (parse_safe tl_default p) as (x & p' & -> & Hp' & Hl); [apply default_fresh|done|].
  by exists (Some x), p'.
Qed.
End containers.

#[export] Instance laws_vector `{TlLaws T} : TlLaws (list T) := vector_laws.
#[export] Instance laws_unique_ptr `{TlLaws T} : TlLaws (option T) := unique_ptr_laws.

Section pairs.
Context {U V : Type} `{TlLaws U} `{TlLaws V}.

Program Definition pair_laws : TlLaws (U * V) := {|
  tl_valid x := tl_valid x.1 ∧ tl_valid x.2;
  tl_fresh x := tl_fresh x.1 ∧ tl_fresh x.2;
  tl_bytes x := tl_bytes x.1 ++ tl_bytes x.2;
|}.
Next Obligation. split; apply default_fresh. Qed.
Next Obligation.
  intros [x y] [Hx Hy]. simpl in *. rewrite bytes_ok_app, length_app.
  destruct (stored_ok x Hx), (stored_ok y Hy). split; [done|lia].
Qed.
Next Obligation.
  intros [x y] w [Hx Hy] Hr. cbn [fst snd] in *. rewrite length_app in *.
  unfold store. cbn [tl_store tl_pair fst snd]. rewrite store_writes by (done || lia).
  cbn [mbind outcome_bind]. rewrite store_writes by (done || (cbn [room]; lia)).
  cbn [written room]. rewrite <-app_assoc. do 2 f_equal. lia.
Qed.
Next Obligation.
  intros [x y] n [Hx Hy] Hn. cbn [fst snd] in *. rewrite length_app.
  unfold store. cbn [tl_store tl_pair fst snd]. rewrite store_counts by done.
  cbn [mbind outcome_bind]. rewrite store_counts by (done || apply u64_range).
  rewrite u64_add_assoc. do 3 f_equal. lia.
Qed.
Next Obligation.
  intros [x y] [x0 y0] r dl [Hx Hy] [Fx Fy]. cbn [fst snd] in *. rewrite <-app_assoc.
  unfold parse. cbn [tl_parse tl_pair fst snd]. rewrite parse_stored by done.
  cbn [mbind outcome_bind]. by rewrite parse_stored by done.
Qed.
Next Obligation.
  intros [x0 y0] p [Fx Fy] Hp. cbn [fst snd] in *. unfold parse. cbn [tl_parse tl_pair fst snd].
  destruct (parse_safe x0 p Fx Hp) as (x & p1 & -> & R1 & L1). cbn [mbind outcome_bind].
  destruct (parse_safe y0 p1 Fy R1) as (y & p2 & -> & R2 & L2).
  exists (x, y), p2. split; [done|]. split; [done|]. by etrans.
Qed.
End pairs.
#[export] Instance laws_pair `{TlLaws U, TlLaws V} : TlLaws (U * V) := pair_laws.

(** ** Flags *)

(** The number whose bits are the flags, the first lowest. *)
Fixpoint flags_value (flags : list bool) : Z :=
  match flags with
  | [] => 0
  | flag :: flags => Z.b2z flag + 2 * flags_value flags
  end.

Lemma flags_value_range flags : 0 ≤ flags_value flags < 2 ^ Z.of_nat (length flags).
Proof.
  induction flags as [|b flags IH]; cbn [flags_value length]; [done|].
  rewrite Nat2Z.inj_succ, Z.pow_succ_r by lia. destruct b; simpl Z.b2z; lia.
Qed.

Lemma STORE_FLAGS_value flags acc off : 0 ≤ off → 0 ≤ acc < 2 ^ off →
  off + Z.of_nat (length flags) ≤ 32 →
  STORE_FLAGS flags acc off
  = (acc + flags_value flags * 2 ^ off, off + Z.of_nat (length flags)).
Proof.
  revert acc off. induction flags as [|b flags IH]; intros acc off Ho Ha Hl;
    cbn [STORE_FLAGS flags_value length] in *; [f_equal; lia|].
  rewrite Z.lor_comm, lor_add by lia.
  assert (2 ^ (off + 1) = 2 * 2 ^ off) as Hp by (rewrite Z.pow_add_r by lia; lia).
  assert (2 ^ (off + 1) ≤ two32) by (change two32 with (2 ^ 32); apply Z.pow_le_mono_r; lia).
  assert (0 ≤ Z.b2z b ≤ 1) by (destruct b; simpl; lia).
  rewrite u32_small by nia. rewrite IH by nia. rewrite Hp. f_equal; lia.
Qed.

Lemma PARSE_FLAGS_value flags acc off : 0 ≤ off → 0 ≤ acc < 2 ^ off →
  PARSE_FLAGS (length flags) (acc + flags_value flags * 2 ^ off) off
  = (flags, off + Z.of_nat (length flags)).
Proof.
  revert acc off. induction flags as [|b flags IH]; intros acc off Ho Ha;
    cbn [PARSE_FLAGS flags_value length]; [f_equal; lia|].
  assert (2 ^ (off + 1) = 2 * 2 ^ off) as Hp by (rewrite Z.pow_add_r by lia; lia).
  assert (Z.b2z b = 0 ∨ Z.b2z b = 1) as Hb by (destruct b; simpl; lia).
  assert (acc + (Z.b2z b + 2 * flags_value flags) * 2 ^ off
          = (acc + Z.b2z b * 2 ^ off) + flags_value flags * 2 ^ (off + 1)) as E by lia.
  pose proof (IH (acc + Z.b2z b * 2 ^ off) (off + 1)) as Hi. rewrite <-E in Hi. rewrite Hi by nia.
  f_equal; [|lia]. f_equal.
  change (Z.land ?x 1) with (Z.land x (2 ^ 1 - 1)). rewrite land_mask, Z.shiftr_div_pow2 by lia.
  replace ((acc + (Z.b2z b + 2 * flags_value flags) * 2 ^ off) / 2 ^ off)
    with (Z.b2z b + flags_value flags * 2).
  2: { rewrite Z.div_add, (Z.div_small acc) by lia. lia. }
  change (2 ^ 1) with 2. rewrite Z.mod_add by lia. by destruct b.
Qed.

Lemma PARSE_FLAGS_length n v off :
  length (PARSE_FLAGS n v off).1 = n ∧ (PARSE_FLAGS n v off).2 = off + Z.of_nat n.
Proof.
  revert off. induction n as [|n IH]; intros off; cbn [PARSE_FLAGS]; [simpl; lia|].
  specialize (IH (off + 1)). destruct (PARSE_FLAGS n v (off + 1)). simpl in *. lia.
Qed.

Lemma no_flags_left v n : 0 ≤ n < 32 → 0 ≤ v < 2 ^ n →
  Z.land v (u32 (Z.lnot (Z.shiftl 1 n - 1))) = 0.
Proof.
  intros Hn Hv. apply Z.bits_inj'. intros i Hi. rewrite Z.land_spec, Z.bits_0.
  rewrite Z.shiftl_1_l, Z.sub_1_r, <-Z.ones_equiv.
  destruct (Z.lt_ge_cases i n).
  - change (u32 ?x) with (x mod 2 ^ 32). rewrite Z.mod_pow2_bits_low, Z.lnot_spec by lia.
    rewrite Z.ones_spec_low by lia. apply andb_false_r.
  - rewrite <-(Z.mod_small v (2 ^ n)) by done. by rewrite Z.mod_pow2_bits_high by lia.
Qed.

(** The number of flags a structure may have: the code checks it when it runs. *)
Class FlagCount (n : nat) := flag_count : (n < 31)%nat.

Lemma store_flags_spec `{TlStorer St} (flags : list bool) (s : St) :
  (length flags < 31)%nat →
  store_flags flags s = store (UInt32 (flags_value flags)) s.
Proof.
  intros Hl. unfold store_flags. rewrite STORE_FLAGS_value by lia.
  rewrite Z.add_0_l, Z.pow_0_r, Z.mul_1_r, (proj2 (Z.ltb_lt _ _)) by lia. done.
Qed.

Lemma flags_value_ok flags : (length flags < 31)%nat → uint32_ok (flags_value flags).
Proof.
  intros Hl. pose proof (flags_value_range flags). unfold uint32_ok.
  assert (2 ^ Z.of_nat (length flags) ≤ two32); [|lia].
  change two32 with (2 ^ 32). apply Z.pow_le_mono_r; lia.
Qed.

#[export] Instance laws_flags n `{Hn : FlagCount n} : TlLaws (flag_set n).
Proof.
  refine {| tl_valid x := length (get_flags x) = n; tl_fresh _ := True;
            tl_bytes x := tl_bytes (UInt32 (flags_value (get_flags x))) |}; unfold FlagCount in Hn.
  - done.
  - intros x Hx. apply stored_ok. apply flags_value_ok. lia.
  - intros x w Hx Hr. change (store x w) with (store_flags (get_flags x) w).
    rewrite store_flags_spec by lia. apply store_writes; [|done]. apply flags_value_ok. lia.
  - intros x m Hx Hr. change (store x m) with (store_flags (get_flags x) m).
    rewrite store_flags_spec by lia. apply store_counts; [|done]. apply flags_value_ok. lia.
  - intros x old r dl Hx _. unfold parse at 1. cbn [tl_parse tl_flags]. unfold parse_flags.
    rewrite parse_stored by (done || (apply flags_value_ok; lia)). cbn [mbind outcome_bind get_uint32].
    pose proof (PARSE_FLAGS_value (get_flags x) 0 0 ltac:(lia) ltac:(done)) as Hp.
    rewrite Z.pow_0_r, Z.mul_1_r, !Z.add_0_l, Hx in Hp. rewrite Hp.
    rewrite (proj2 (Z.ltb_lt _ _)) by lia. cbn [cassert mbind outcome_bind].
    pose proof (flags_value_range (get_flags x)) as Hv. rewrite Hx in Hv.
    rewrite no_flags_left by lia.
    simpl. by destruct x.
  - intros old p _ Hp. unfold parse. cbn [tl_parse tl_flags]. unfold parse_flags.
    destruct (parse_safe (UInt32 0) p) as (v & p1 & -> & R1 & L1); [exact default_fresh|done|].
    cbn [mbind outcome_bind].
    pose proof (PARSE_FLAGS_length n (get_uint32 v) 0) as [_ Hs].
    destruct (PARSE_FLAGS n (get_uint32 v) 0) as [l off]. simpl in Hs. subst off.
    rewrite (proj2 (Z.ltb_lt _ _)) by lia. cbn [cassert mbind outcome_bind].
    destruct (negb _).
    + destruct (set_error_spec 0 0 p1 "Invalid flags" R1) as (p2 & -> & R2 & L2 & _); [done|].
      exists (Flags l), p2. split; [done|]. split; [done|]. by etrans.
    + exists (Flags l), p1. done.
Defined.

(** ** The properties *)

(** The two passes of [serialize] agree for every type and value: the bytes the
    second pass writes fill the buffer the first pass measured, exactly, so that no
    write is outside it and the final [CHECK] holds. *)
Lemma serialize_spec `{TlLaws T} (x : T) :
  tl_valid x → Z.of_nat (length (tl_bytes x)) < two64 → serialize x = Ok (tl_bytes x).
Proof.
  intros Hx Hl. unfold serialize. rewrite store_counts by done. cbn [mbind outcome_bind].
  rewrite Z.add_0_l, u64_small, Nat2Z.id by lia.
  rewrite store_writes by done. cbn [mbind outcome_bind room]. by rewrite Nat.sub_diag.
Qed.

(** A type that keeps the promise survives the round trip, and parsing it is safe. *)
Lemma unserialize_stored `{TlLaws T} (x old : T) :
  tl_valid x → tl_fresh old → unserialize old (tl_bytes x) = Ok (x, None).
Proof.
  intros Hx Hold. unfold unserialize.
  pose proof (parse_stored x old [] (Z.of_nat (length (tl_bytes x))) Hx Hold) as Hp.
  rewrite app_nil_r in Hp. change (mk_TlParser _) with
    (parser_at (tl_bytes x) (Z.of_nat (length (tl_bytes x)))). by rewrite Hp.
Qed.

Lemma unserialize_safe `{TlLaws T} (old : T) (bytes : list Z) :
  tl_fresh old → bytes_ok bytes → Z.of_nat (length bytes) < SIZE_MAX →
  ∃ x p status, parse old (mk_TlParser bytes) = Ok (x, p) ∧
    unserialize old bytes = Ok (x, status) ∧
    (status = None → has_error p = false ∧ left_len p = 0).
Proof.
  intros Hold Hb Hl. unfold unserialize.
  destruct (parse_safe old _ Hold (mk_TlParser_reserved bytes Hb Hl)) as (x & p & -> & R & _).
  cbn [mbind outcome_bind]. destruct (fetch_end_spec p R) as (p' & -> & _ & _ & He).
  exists x, p, (get_status p'). split; [done|]. split; [done|]. intros Hs. apply He.
  unfold get_status in Hs. by destruct (has_error p').
Qed.

(** ** The types by name

    The types an object can be built from, as a universe: a code for each, and the
    type, the overloads, the valid values, the state of an object that can be parsed
    into and the stored form it stands for. *)

Inductive tl_type :=
  | Ty_bool | Ty_int32 | Ty_uint32 | Ty_int64 | Ty_uint64
  | Ty_raw (size : nat)
  | Ty_string
  | Ty_flags (count : nat)
  | Ty_vector (t : tl_type)
  | Ty_unique_ptr (t : tl_type)
  | Ty_pair (t u : tl_type).

(** The types the code compiles and runs for: the [static_assert] of [fetch_binary]
    and the [CHECK] of the flag macros. *)
Fixpoint type_ok (t : tl_type) : Prop :=
  match t with
  | Ty_raw n => (1 ≤ n ≤ 64)%nat
  | Ty_flags n => (n < 31)%nat
  | Ty_vector t | Ty_unique_ptr t => type_ok t
  | Ty_pair t u => type_ok t ∧ type_ok u
  | _ => True
  end.

Fixpoint denote (t : tl_type) : Type :=
  match t with
  | Ty_bool => bool
  | Ty_int32 => int32
  | Ty_uint32 => uint32
  | Ty_int64 => int64
  | Ty_uint64 => uint64
  | Ty_raw n => raw n
  | Ty_string => tl_string
  | Ty_flags n => flag_set n
  | Ty_vector t => list (denote t)
  | Ty_unique_ptr t => option (denote t)
  | Ty_pair t u => denote t * denote u
  end.

#[export] Instance tl_denote : ∀ t, TlObject (denote t) :=
  fix tl_denote t :=
    match t with
    | Ty_bool => tl_bool
    | Ty_int32 => tl_int32
    | Ty_uint32 => tl_uint32
    | Ty_int64 => tl_int64
    | Ty_uint64 => tl_uint64
    | Ty_raw n => tl_raw n
    | Ty_string => tl_str
    | Ty_flags n => tl_flags n
    | Ty_vector t => @tl_vector _ (tl_denote t)
    | Ty_unique_ptr t => @tl_unique_ptr _ (tl_denote t)
    | Ty_pair t u => @tl_pair _ (tl_denote t) _ (tl_denote u)
    end.

(** A value the C++ type has: numbers in their range, strings below the [2^32] bytes
    that [store_string] can write, vectors whose size is an [int32], no null pointer. *)
Fixpoint value_ok (t : tl_type) : denote t → Prop :=
  match t with
  | Ty_bool => λ _, True
  | Ty_int32 => λ x, in_int (get_int32 x)
  | Ty_uint32 => λ x, 0 ≤ get_uint32 x < two32
  | Ty_int64 => λ x, in_int64 (get_int64 x)
  | Ty_uint64 => λ x, 0 ≤ get_uint64 x < two64
  | Ty_raw n => λ x, bytes_ok (get_raw x) ∧ length (get_raw x) = n
  | Ty_string => λ x, bytes_ok (get_str x) ∧ Z.of_nat (length (get_str x)) < 2 ^ 32
  | Ty_flags n => λ x, length (get_flags x) = n
  | Ty_vector t => λ vec, Forall (value_ok t) vec ∧ Z.of_nat (length vec) ≤ INT_MAX
  | Ty_unique_ptr t => λ ptr, match ptr with Some x => value_ok t x | None => False end
  | Ty_pair t u => λ x, value_ok t x.1 ∧ value_ok u x.2
  end.

(** What [parse] can be given: a pointer must still be null. *)
Fixpoint fresh (t : tl_type) : denote t → Prop :=
  match t with
  | Ty_unique_ptr _ => λ ptr, ptr = None
  | Ty_pair t u => λ x, fresh t x.1 ∧ fresh u x.2
  | _ => λ _, True
  end.

(** The stored form: numbers little-endian, a string with its length and its padding,
    the flags as the bits of one number, a vector with its size in front. *)
Fixpoint stored_form (t : tl_type) : denote t → list Z :=
  match t with
  | Ty_bool => λ x, le_split 4 (Z.b2z x)
  | Ty_int32 => λ x, le_split 4 (get_int32 x mod two32)
  | Ty_uint32 => λ x, le_split 4 (get_uint32 x)
  | Ty_int64 => λ x, le_split 8 (get_int64 x mod two64)
  | Ty_uint64 => λ x, le_split 8 (get_uint64 x)
  | Ty_raw _ => get_raw
  | Ty_string => λ x, stored_string (get_str x)
  | Ty_flags _ => λ x, le_split 4 (flags_value (get_flags x))
  | Ty_vector t => λ vec,
      le_split 4 (Z.of_nat (length vec) mod two32) ++ concat (stored_form t <$> vec)
  | Ty_unique_ptr t => λ ptr, match ptr with Some x => stored_form t x | None => [] end
  | Ty_pair t u => λ x, stored_form t x.1 ++ stored_form u x.2
  end.

(** Every type of the universe keeps the promise, for these values and this form. *)
Lemma denote_laws t : type_ok t →
  ∃ L : TlLaws (denote t),
    (∀ x, value_ok t x → tl_valid x ∧ tl_bytes x = stored_form t x) ∧
    (∀ x, fresh t x → tl_fresh x).
Proof.
  induction t as [| | | | |n| |n|t IH|t IH|t IHt u IHu]; cbn [type_ok]; intros Ht.
  - by exists laws_bool.
  - by exists laws_int32.
  - by exists laws_uint32.
  - by exists laws_int64.
  - by exists laws_uint64.
  - by exists (@laws_raw n Ht).
  - by exists laws_string.
  - by exists (@laws_flags n Ht).
  - destruct (IH Ht) as (L & Hv & _). exists (@laws_vector _ _ L). split; [|done].
    intros vec [Hvec Hl]. cbn [stored_form].
    change (tl_valid vec) with (Forall (tl_valid (TlLaws := L)) vec ∧ Z.of_nat (length vec) ≤ INT_MAX).
    split; [split; [|done]|].
    + eapply Forall_impl; [exact Hvec|]. intros x Hx. by apply Hv.
    + change (tl_bytes vec) with (le_split 4 (u32 (Z.of_nat (length vec))) ++ each_bytes vec).
      f_equal. unfold each_bytes. f_equal. apply list_fmap_ext. intros i x Hx. apply Hv.
      rewrite Forall_forall in Hvec. apply Hvec. by eapply list_elem_of_lookup_2.
  - destruct (IH Ht) as (L & Hv & _). exists (@laws_unique_ptr _ _ L). split; [|done].
    intros [x|] Hx; [|done]. by apply Hv.
  - destruct Ht as [Ht Hu]. destruct (IHt Ht) as (L & Hv & Hf), (IHu Hu) as (L' & Hv' & Hf').
    exists (@laws_pair _ _ L _ _ L'). split.
    + intros [x y] [Hx Hy]. destruct (Hv x Hx) as [V E], (Hv' y Hy) as [V' E'].
      split; [done|]. cbn [stored_form fst snd]. rewrite <-E, <-E'. done.
    + intros [x y] [Hx Hy]. split; [by apply Hf|by apply Hf'].
Qed.

(** C3. For every type built from [bool], numbers of 32 and 64 bits, byte arrays that
    [fetch_binary] takes (1 to 64 bytes), strings, at most 30 flags, vectors, non-null
    pointers and pairs, and every value of it (strings below [2^32] bytes, vectors of at
    most [INT_MAX] elements, less than [2^64] bytes in all): [serialize] returns exactly
    the stored form of the value (so that the space computed first is exactly filled by
    the second pass), and [unserialize] of it, into an object whose pointers are null,
    gives the value back without error. *)
Theorem unserialize_serialize t (x old : denote t) :
  type_ok t → value_ok t x → fresh t old → Z.of_nat (length (stored_form t x)) < two64 →
  serialize x = Ok (stored_form t x) ∧ unserialize old (stored_form t x) = Ok (x, None).
Proof.
  intros Ht Hx Hold Hl. destruct (denote_laws t Ht) as (L & Hv & Hf).
  destruct (Hv x Hx) as [Hvalid Heq]. rewrite <-Heq in *.
  split; [exact (serialize_spec x Hvalid Hl)|exact (unserialize_stored x old Hvalid (Hf old Hold))].
Qed.

(** A vector of pairs of a number and a string. *)
Definition example_type : tl_type := Ty_vector (Ty_pair Ty_int32 Ty_string).
Definition example_value : denote example_type :=
  [(Int32 (-5), Str [104; 105]); (Int32 7, Str [])].

Lemma unserialize_serialize_witness :
  let bytes := [2; 0; 0; 0; 251; 255; 255; 255; 2; 104; 105; 0; 7; 0; 0; 0; 0; 0; 0; 0] in
  serialize example_value = Ok bytes ∧ unserialize ([] : denote example_type) bytes = Ok (example_value, None).
Proof.
  apply (unserialize_serialize example_type example_value []).
  - exact (conj I I).
  - split; [|apply Z.leb_le; reflexivity].
    repeat constructor; try (apply Z.leb_le; reflexivity); apply Z.ltb_lt; reflexivity.
  - exact I.
  - reflexivity.
Defined.

(** C37. For every type built from [bool], numbers of 32 and 64 bits, byte arrays of 1 to 64
    bytes, strings, at most 30 flags, vectors, pointers and pairs, [unserialize] of arbitrary bytes (fewer than
    [SIZE_MAX]), into an object whose pointers are null, never faults: no read outside
    the bytes and no failing check. It returns an object and a status, and the status is
    OK only when nothing [parse] read was reported as malformed and all bytes are read. *)
Theorem unserialize_total t (old : denote t) (bytes : list Z) :
  type_ok t → fresh t old → bytes_ok bytes → Z.of_nat (length bytes) < SIZE_MAX →
  ∃ x p status, parse old (mk_TlParser bytes) = Ok (x, p) ∧
    unserialize old bytes = Ok (x, status) ∧
    (status = None → has_error p = false ∧ left_len p = 0).
Proof.
  intros Ht Hold Hb Hl. destruct (denote_laws t Ht) as (L & _ & Hf).
  by apply unserialize_safe; [apply Hf| |].
Qed.

Definition example_bytes : list Z := [255; 255; 255; 127; 1].

Lemma unserialize_total_witness :
  ∃ x status, unserialize ([] : denote (Ty_vector (Ty_pair Ty_int64 (Ty_unique_ptr Ty_string)))) example_bytes
              = Ok (x, status).
Proof.
  destruct (unserialize_total (Ty_vector (Ty_pair Ty_int64 (Ty_unique_ptr Ty_string))) [] example_bytes)
    as (x & p & status & _ & H & _).
  - exact (conj I I).
  - exact I.
  - apply (bool_decide_unpack _). vm_compute. exact I.
  - reflexivity.
  - exists x, status. exact H.
Defined.
