(* ===== verification/TdReceiver.v ===== *)
(** * The queue of responses
    ([td/tdutils/td/utils/MpscPollableQueue.h], [TdReceiver] of [td/telegram/Client.cpp])

    Threads put responses under a lock; one thread takes them, a batch at a time.
    Against it stands a plain list: what is put first is received first, once. *)
From S2P Require Import Prelude.

(** ** [MpscPollableQueue] *)

Record MpscPollableQueue (A : Type) := {
  wait_event_fd_ : bool;
  event_fd_ : bool;          (** signalled *)
  writer_vector_ : list A;
  reader_vector_ : list A;
  reader_pos_ : nat;
}.
Arguments wait_event_fd_ {A} m.
Arguments event_fd_ {A} m.
Arguments writer_vector_ {A} m.
Arguments reader_vector_ {A} m.
Arguments reader_pos_ {A} m.

Section mpsc.
Context {A : Type}.
Implicit Types (q : MpscPollableQueue A) (value : A).

Definition mk_MpscPollableQueue : MpscPollableQueue A := {|
  wait_event_fd_ := false; event_fd_ := false;
  writer_vector_ := []; reader_vector_ := []; reader_pos_ := 0;
|}.

Definition writer_put value q : MpscPollableQueue A := {|
  wait_event_fd_ := false;
  event_fd_ := event_fd_ q || wait_event_fd_ q;
  writer_vector_ := writer_vector_ q ++ [value];
  reader_vector_ := reader_vector_ q;
  reader_pos_ := reader_pos_ q;
|}.

(** One round of the loop of [reader_wait_nonblock], a critical section: what it
    returns, if it returns. *)
Definition reader_wait_round (i : nat) q : option nat * MpscPollableQueue A :=
  match writer_vector_ q with
  | [] =>
      if (i =? 1)%nat then
        (Some 0%nat,
         {| wait_event_fd_ := true; event_fd_ := event_fd_ q; writer_vector_ := [];
            reader_vector_ := []; reader_pos_ := 0 |})
      else
        (None,
         {| wait_event_fd_ := wait_event_fd_ q; event_fd_ := false;
            writer_vector_ := writer_vector_ q; reader_vector_ := reader_vector_ q;
            reader_pos_ := reader_pos_ q |})
  | l =>
      (Some (length l),
       {| wait_event_fd_ := wait_event_fd_ q; event_fd_ := event_fd_ q; writer_vector_ := [];
          reader_vector_ := l; reader_pos_ := 0 |})
  end.

(** [between] is what other threads put between the two rounds. After the second
    comes [UNREACHABLE()]. *)
Definition reader_wait_nonblock (between : list A) q : outcome (nat * MpscPollableQueue A) :=
  let ready := (length (reader_vector_ q) - reader_pos_ q)%nat in
  if negb (ready =? 0)%nat then Ok (ready, q)
  else
    let (r, q) := reader_wait_round 0 q in
    match r with
    | Some n => Ok (n, q)
    | None =>
        let (r, q) := reader_wait_round 1 (foldl (flip writer_put) q between) in
        match r with Some n => Ok (n, q) | None => Fault AssertFailure end
    end.

Definition reader_get_unsafe q : outcome (A * MpscPollableQueue A) :=
  value ← deref (reader_vector_ q !! reader_pos_ q);
  Ok (value, {| wait_event_fd_ := wait_event_fd_ q; event_fd_ := event_fd_ q;
                writer_vector_ := writer_vector_ q; reader_vector_ := reader_vector_ q;
                reader_pos_ := S (reader_pos_ q) |}).

(** What is put and not yet taken, the oldest first. *)
Definition queued q : list A := drop (reader_pos_ q) (reader_vector_ q) ++ writer_vector_ q.

Lemma queued_put value q : queued (writer_put value q) = queued q ++ [value].
Proof. unfold queued. simpl. by rewrite app_assoc. Qed.

Lemma queued_put_all l q : queued (foldl (flip writer_put) q l) = queued q ++ l.
Proof.
  revert q. induction l as [|x l IH]; intros q; simpl; [by rewrite app_nil_r|].
  rewrite IH. unfold flip. rewrite queued_put, <-app_assoc. done.
Qed.

Lemma foldl_put_writer l q :
  writer_vector_ (foldl (flip writer_put) q l) = writer_vector_ q ++ l.
Proof.
  revert q. induction l as [|x l IH]; intros q; [by rewrite app_nil_r|].
  etrans; [apply (IH (writer_put x q))|]. simpl. by rewrite <-app_assoc.
Qed.

Lemma foldl_put_frame l q :
  reader_vector_ (foldl (flip writer_put) q l) = reader_vector_ q ∧
  reader_pos_ (foldl (flip writer_put) q l) = reader_pos_ q.
Proof. revert q. induction l as [|x l IH]; intros q; [done|]. apply (IH (writer_put x q)). Qed.

End mpsc.

(** ** [TdReceiver] *)

Section receiver.
Context {A : Type}.

Record TdReceiver := {
  output_queue_ : MpscPollableQueue A;
  output_queue_ready_cnt_ : nat;
  receive_lock_ : bool;
}.

Definition mk_TdReceiver : TdReceiver :=
  {| output_queue_ := mk_MpscPollableQueue; output_queue_ready_cnt_ := 0;
     receive_lock_ := false |}.

(** [add_response], and what the callbacks of a client do. *)
Definition add_response (value : A) (r : TdReceiver) : TdReceiver := {|
  output_queue_ := writer_put value (output_queue_ r);
  output_queue_ready_cnt_ := output_queue_ready_cnt_ r;
  receive_lock_ := receive_lock_ r;
|}.

(** The two first conditionals of [receive_unlocked]. *)
Definition receive_ready (between : list A) (r : TdReceiver) : outcome (option A * TdReceiver) :=
  r ←
    (if (output_queue_ready_cnt_ r =? 0)%nat then
       '(n, q) ← reader_wait_nonblock between (output_queue_ r);
       Ok {| output_queue_ := q; output_queue_ready_cnt_ := n; receive_lock_ := receive_lock_ r |}
     else Ok r);
  if (0 <? output_queue_ready_cnt_ r)%nat then
    '(value, q) ← reader_get_unsafe (output_queue_ r);
    Ok (Some value,
        {| output_queue_ := q; output_queue_ready_cnt_ := output_queue_ready_cnt_ r - 1;
           receive_lock_ := receive_lock_ r |})
  else Ok (None, r).

(** What other threads put during a call: between the rounds of the first look,
    during the wait, and between the rounds of the second look. *)
Record arrivals := { first_look : list A; while_waiting : list A; second_look : list A }.

(** [None] is the response [{0, 0, nullptr}]. Of the timeout only matters whether it
    is zero. *)
Definition receive_unlocked (timeout : bool) (arr : arrivals) (r : TdReceiver)
    : outcome (option A * TdReceiver) :=
  '(o, r) ← receive_ready (first_look arr) r;
  match o with
  | Some value => Ok (Some value, r)
  | None =>
      if timeout
      then receive_ready (second_look arr) (foldl (flip add_response) r (while_waiting arr))
      else Ok (None, r)
  end.

(** A second call at the same time is fatal. *)
Definition receive (timeout : bool) (arr : arrivals) (r : TdReceiver)
    : outcome (option A * TdReceiver) :=
  _ ← cassert (negb (receive_lock_ r));
  '(response, r) ← receive_unlocked timeout arr
     {| output_queue_ := output_queue_ r; output_queue_ready_cnt_ := output_queue_ready_cnt_ r;
        receive_lock_ := true |};
  _ ← cassert (receive_lock_ r);
  Ok (response,
      {| output_queue_ := output_queue_ r; output_queue_ready_cnt_ := output_queue_ready_cnt_ r;
         receive_lock_ := false |}).

(** ** It delivers in order, each response once *)

Definition pending_responses (r : TdReceiver) : list A := queued (output_queue_ r).

(** The counter is the number of responses the reader has not taken from its batch. *)
Record receiver_wf (r : TdReceiver) : Prop := {
  wf_count : output_queue_ready_cnt_ r
    = (length (reader_vector_ (output_queue_ r)) - reader_pos_ (output_queue_ r))%nat;
  wf_wait : wait_event_fd_ (output_queue_ r) = true → writer_vector_ (output_queue_ r) = [];
}.

Lemma mk_TdReceiver_wf : receiver_wf mk_TdReceiver.
Proof. by split. Qed.

Lemma add_response_wf x r : receiver_wf r → receiver_wf (add_response x r).
Proof. intros [Hc Hw]. by split. Qed.

Lemma add_all_wf l r : receiver_wf r → receiver_wf (foldl (flip add_response) r l).
Proof. revert r. induction l; intros r Hr; simpl; [done|]. by apply IHl, add_response_wf. Qed.

Lemma pending_add x r : pending_responses (add_response x r) = pending_responses r ++ [x].
Proof. apply queued_put. Qed.

Lemma pending_add_all l r :
  pending_responses (foldl (flip add_response) r l) = pending_responses r ++ l.
Proof.
  revert r. induction l as [|x l IH]; intros r; simpl; [by rewrite app_nil_r|].
  rewrite IH. unfold flip. rewrite pending_add, <-app_assoc. done.
Qed.

Lemma lock_add_all l r : receive_lock_ (foldl (flip add_response) r l) = receive_lock_ r.
Proof. revert r. induction l; intros r; simpl; [done|]. by rewrite IHl. Qed.

(** One look at the queue takes its head; arrivals between its rounds count when it
    was empty. *)
Lemma receive_ready_spec between r :
  receiver_wf r →
  ∃ o r', receive_ready between r = Ok (o, r') ∧ receiver_wf r' ∧
    receive_lock_ r' = receive_lock_ r ∧
    (o = None → wait_event_fd_ (output_queue_ r') = true) ∧
    (o, pending_responses r') =
      match pending_responses r with
      | x :: l => (Some x, l)
      | [] => (head between, tail between)
      end.
Proof.
  intros [Hc Hw]. unfold receive_ready, pending_responses, queued.
  destruct r as [[wait ev wv rv pos] cnt lock]. simpl in *.
  destruct (Nat.eqb_spec cnt 0) as [H0|H0].
  - unfold reader_wait_nonblock. simpl. rewrite <-Hc, (proj2 (Nat.eqb_eq _ _) H0). simpl.
    rewrite (drop_ge rv pos) by lia. simpl. unfold reader_wait_round at 1. simpl.
    destruct wv as [|x wv]; simpl.
    + unfold reader_wait_round. rewrite foldl_put_writer. simpl.
      destruct between as [|x l]; simpl.
      * eexists _, _. split; [done|]. by split.
      * eexists _, _. split; [done|]. split; [split; simpl; [lia|done]|].
        by rewrite app_nil_r.
    + eexists _, _. split; [done|]. split; [split; simpl; [lia|done]|].
      by rewrite app_nil_r.
  - destruct cnt as [|cnt]; [done|]. unfold reader_get_unsafe. simpl.
    destruct (lookup_lt_is_Some_2 rv pos) as [x Hx]; [lia|]. rewrite Hx. simpl.
    eexists _, _. split; [done|]. split; [split; simpl; [lia|done]|]. split; [done|]. split; [done|].
    by rewrite (drop_S rv x pos).
Qed.

(** What had arrived when a call returned. *)
Definition arrived (timeout : bool) (arr : arrivals) (r : TdReceiver) : list A :=
  match pending_responses r with
  | _ :: _ => []
  | [] =>
      match first_look arr with
      | _ :: _ => first_look arr
      | [] =>
          if timeout then
            match while_waiting arr with _ :: _ => while_waiting arr | [] => second_look arr end
          else []
      end
  end.

Lemma receive_spec timeout arr r :
  receiver_wf r → receive_lock_ r = false →
  ∃ o r', receive timeout arr r = Ok (o, r') ∧ receiver_wf r' ∧ receive_lock_ r' = false ∧
    (o = None → wait_event_fd_ (output_queue_ r') = true) ∧
    o = head (pending_responses r ++ arrived timeout arr r) ∧
    pending_responses r' = tail (pending_responses r ++ arrived timeout arr r).
Proof.
  intros Hr Hlock. unfold receive. rewrite Hlock. cbn [negb cassert mbind outcome_bind].
  set (r0 := {| output_queue_ := _ |}).
  assert (receiver_wf r0) as H0 by (destruct Hr; by split).
  assert (pending_responses r0 = pending_responses r) as P0 by done.
  unfold receive_unlocked, arrived. rewrite <-P0. clear P0.
  destruct (receive_ready_spec (first_look arr) r0 H0) as (o & r1 & -> & H1 & L1 & W1 & E1).
  cbn [mbind outcome_bind].
  destruct (pending_responses r0) as [|x l]; [destruct (first_look arr) as [|x l]|];
    simpl in E1; injection E1 as -> P1.
  2: { cbn [mbind outcome_bind]. rewrite L1. simpl. eexists _, _. split; [done|]. split; [by destruct H1|]. done. }
  2: { cbn [mbind outcome_bind]. rewrite L1. simpl. eexists _, _. split; [done|]. split; [by destruct H1|].
       rewrite app_nil_r. done. }
  destruct timeout.
  2: { cbn [mbind outcome_bind]. rewrite L1. simpl. eexists _, _. split; [done|]. split; [by destruct H1|]. auto. }
  set (r2 := foldl (flip add_response) r1 (while_waiting arr)).
  assert (receiver_wf r2) as H2 by by apply add_all_wf.
  destruct (receive_ready_spec (second_look arr) r2 H2) as (o & r3 & -> & H3 & L3 & W3 & E3).
  cbn [mbind outcome_bind]. rewrite L3. subst r2. rewrite lock_add_all, L1. simpl.
  rewrite pending_add_all, P1 in E3. simpl in E3.
  destruct (while_waiting arr) as [|x l]; injection E3 as -> P3;
    (eexists _, _; split; [done|]; split; [by destruct H3|auto]).
Qed.

(** One use of the receiver by some thread. *)
Inductive receiver_op :=
  | OpPut (x : A)
  | OpReceive (timeout : bool) (arr : arrivals).

(** The responses put and the responses delivered by a sequence of uses. *)
Fixpoint run_receiver (ops : list receiver_op) (r : TdReceiver)
    : outcome (list A * list A * TdReceiver) :=
  match ops with
  | [] => Ok ([], [], r)
  | OpPut x :: ops =>
      '(puts, got, r) ← run_receiver ops (add_response x r);
      Ok (x :: puts, got, r)
  | OpReceive timeout arr :: ops =>
      let new := arrived timeout arr r in
      '(o, r) ← receive timeout arr r;
      '(puts, got, r) ← run_receiver ops r;
      Ok (new ++ puts, option_list o ++ got, r)
  end.

(** However puts and receives follow each other, and whatever is put while a receive
    looks or waits: no call fails, the responses delivered, followed by those still
    queued, are the responses put, in order; and a receive that came back empty leaves
    the next writer to wake it. *)
Lemma run_receiver_spec ops r :
  receiver_wf r → receive_lock_ r = false →
  ∃ puts got r', run_receiver ops r = Ok (puts, got, r') ∧ receiver_wf r' ∧
    pending_responses r ++ puts = got ++ pending_responses r'.
Proof.
  revert r. induction ops as [|[x|timeout arr] ops IH]; intros r Hr Hl; cbn [run_receiver].
  - exists [], [], r. rewrite app_nil_r. done.
  - destruct (IH (add_response x r)) as (puts & got & r' & -> & Hr' & Hp); [by apply add_response_wf|done|].
    exists (x :: puts), got, r'. split; [done|]. split; [done|].
    rewrite pending_add, <-app_assoc in Hp. done.
  - destruct (receive_spec timeout arr r Hr Hl) as (o & r1 & -> & H1 & L1 & _ & Ho & P1).
    cbn [mbind outcome_bind].
    destruct (IH r1 H1 L1) as (puts & got & r' & -> & Hr' & Hp). cbn [mbind outcome_bind].
    eexists _, _, _. split; [done|]. split; [done|].
    rewrite app_assoc, <-(app_assoc (option_list o)), <-Hp, P1, Ho.
    by destruct (pending_responses r ++ arrived timeout arr r).
Qed.

(** C31. The receiver refines a first-in first-out list: however puts and receives follow
    each other, and whatever other threads put while a receive looks or waits, no call
    fails, and the responses delivered are, in order and each once, those that were
    put. *)
Theorem receiver_delivers_in_order ops :
  ∃ puts got r', run_receiver ops mk_TdReceiver = Ok (puts, got, r') ∧
    puts = got ++ pending_responses r'.
Proof.
  destruct (run_receiver_spec ops mk_TdReceiver) as (puts & got & r' & Hrun & _ & Hp);
    [apply mk_TdReceiver_wf|done|]. by exists puts, got, r'.
Qed.

(** A receive that returned nothing is not followed by a lost response: the next put
    signals the event a later receive waits for. *)
Theorem empty_receive_is_woken timeout arr r r' x :
  receiver_wf r → receive_lock_ r = false → receive timeout arr r = Ok (None, r') →
  event_fd_ (output_queue_ (add_response x r')) = true.
Proof.
  intros Hr Hl Hrun. destruct (receive_spec timeout arr r Hr Hl) as (o & r1 & Hrun' & _ & _ & W & _).
  rewrite Hrun in Hrun'. injection Hrun' as <- <-. simpl. rewrite W by done. apply orb_true_r.
Qed.
End receiver.
Arguments TdReceiver : clear implicits.
Arguments arrivals : clear implicits.
Arguments receiver_op : clear implicits.

Lemma empty_receive_is_woken_witness :
  event_fd_ (output_queue_ (add_response 5
    {| output_queue_ := {| wait_event_fd_ := true; event_fd_ := false; writer_vector_ := [];
                           reader_vector_ := []; reader_pos_ := 0 |};
       output_queue_ready_cnt_ := 0; receive_lock_ := false |})) = true.
Proof.
  apply (empty_receive_is_woken true
    {| first_look := []; while_waiting := []; second_look := [] |} mk_TdReceiver _ 5).
  - apply mk_TdReceiver_wf.
  - reflexivity.
  - reflexivity.
Defined.
