(* ===== verification/ClientManager.v ===== *)
(** * Client instances ([td/telegram/Client.cpp], [ClientManager::Impl])

    The manager through which [tg.cc] reaches TDLib: it numbers client instances,
    starts one on its first request, routes requests and responses, and releases an
    instance after it has closed. The instances themselves ([Td]) are not modelled:
    they accept requests and emit any responses. Actors process the closures sent to
    them in order; every interleaving of callers, actors and instances is a sequence of
    steps. *)
From stdpp Require Import fin_maps gmap.
From S2P Require Import Prelude TdApi TdReceiver.

(** [ClientManager::Response] *)
Record ManagerResponse := {
  mr_client_id : Z;
  mr_request_id : Z;
  mr_object : option Object;
}.

(** ** State *)

(** The closures sent to a [MultiTd] actor. *)
Inductive closure :=
  | MultiTd_create (td_id : Z)
  | MultiTd_send (client_id request_id : Z) (request : Function)
  | MultiTd_close (td_id : Z).

(** A [MultiImpl]: the closures its [MultiTd] has not processed, and the instances
    the [MultiTd] owns. *)
Record MultiImpl := { mailbox : list closure; tds_ : gset Z }.
Definition mk_MultiImpl : MultiImpl := {| mailbox := []; tds_ := ∅ |}.

Record MultiImplInfo := { impl : option nat; is_closed : bool }.

Record manager := {
  current_id_ : Z;                    (** static, shared by all managers *)
  impls_ : gmap Z MultiImplInfo;
  pool_ : nat → MultiImpl;            (** by slot of [MultiImplPool::impls_] *)
  receiver_ : TdReceiver ManagerResponse;
  alive : gset Z;                     (** instances that exist, with their callback *)
  requested : list (Z * Z * Function); (** requests the instances were given *)
  destroyed : bool;                   (** the destructor has begun *)
}.

Definition mk_manager : manager := {|
  current_id_ := 1; impls_ := ∅; pool_ := λ _, mk_MultiImpl;
  receiver_ := mk_TdReceiver; alive := ∅; requested := []; destroyed := false;
|}.

Definition set_impls (m : gmap Z MultiImplInfo) (st : manager) : manager :=
  {| current_id_ := current_id_ st; impls_ := m; pool_ := pool_ st; receiver_ := receiver_ st;
     alive := alive st; requested := requested st; destroyed := destroyed st |}.
Definition set_slot (i : nat) (x : MultiImpl) (st : manager) : manager :=
  {| current_id_ := current_id_ st; impls_ := impls_ st;
     pool_ := λ j, if (j =? i)%nat then x else pool_ st j;
     receiver_ := receiver_ st; alive := alive st; requested := requested st; destroyed := destroyed st |}.
Definition set_receiver (r : TdReceiver ManagerResponse) (st : manager) : manager :=
  {| current_id_ := current_id_ st; impls_ := impls_ st; pool_ := pool_ st; receiver_ := r;
     alive := alive st; requested := requested st; destroyed := destroyed st |}.
Definition set_alive (a : gset Z) (st : manager) : manager :=
  {| current_id_ := current_id_ st; impls_ := impls_ st; pool_ := pool_ st;
     receiver_ := receiver_ st; alive := a; requested := requested st; destroyed := destroyed st |}.

(** [receiver_.add_response] and the callback of an instance. *)
Definition respond (client_id id : Z) (o : option Object) (st : manager) : manager :=
  set_receiver
    (add_response {| mr_client_id := client_id; mr_request_id := id; mr_object := o |}
       (receiver_ st)) st.

(** [send_closure(multi_td_, ...)] *)
Definition send_closure (i : nat) (c : closure) (st : manager) : manager :=
  set_slot i {| mailbox := mailbox (pool_ st i) ++ [c]; tds_ := tds_ (pool_ st i) |} st.

(** ** The pool of threads *)

(** [clamp(thread::hardware_concurrency(), 8u, 20u) * 5 / 4] *)
Definition max_client_threads (hardware_concurrency : Z) : nat :=
  Z.to_nat (Z.max 8 (Z.min 20 hardware_concurrency) * 5 / 4).

(** How many clients hold the [MultiImpl] of slot [i]. *)
Definition use_count (i : nat) (st : manager) : nat :=
  size (filter (λ p : Z * MultiImplInfo, impl p.2 = Some i) (impls_ st)).

(** [std::min_element]: the first of the smallest. *)
Fixpoint min_element (count : nat → nat) (best : nat) (slots : list nat) : nat :=
  match slots with
  | [] => best
  | i :: slots =>
      min_element count (if (count i <? count best)%nat then i else best) slots
  end.

(** [MultiImplPool::get]: an expired slot gets a new [MultiImpl]. *)
Definition pool_get (hardware_concurrency : Z) (st : manager) : nat * manager :=
  let i := min_element (λ i, use_count i st) 0
             (seq 1 (max_client_threads hardware_concurrency - 1)) in
  if (use_count i st =? 0)%nat then (i, set_slot i mk_MultiImpl st) else (i, st).

(** ** The operations *)

Definition create_id (st : manager) : outcome (Z * manager) :=
  let result := current_id_ st in
  _ ← cassert (result <=? INT_MAX);
  Ok (i32 result,
      {| current_id_ := u32 (current_id_ st + 1); impls_ := impls_ st; pool_ := pool_ st;
         receiver_ := receiver_ st; alive := alive st; requested := requested st; destroyed := destroyed st |}).

Definition is_valid_client_id (client_id : Z) (st : manager) : bool :=
  (0 <? client_id) && (u32 client_id <? current_id_ st).

(** [impls_[client_id]] adds an empty entry where there is none. *)
Definition create_client_id (st : manager) : outcome (Z * manager) :=
  '(client_id, st) ← create_id st;
  Ok (client_id,
      match impls_ st !! client_id with
      | Some _ => st
      | None => set_impls (<[client_id := {| impl := None; is_closed := false |}]> (impls_ st)) st
      end).

(** Start the instance of a client that has none. *)
Definition start_client (hw : Z) (client_id : Z) (info : MultiImplInfo) (st : manager) : manager :=
  let (i, st) := pool_get hw st in
  send_closure i (MultiTd_create client_id)
    (set_impls (<[client_id := {| impl := Some i; is_closed := is_closed info |}]> (impls_ st)) st).

Definition send (hw : Z) (client_id request_id : Z) (request : Function) (st : manager)
    : outcome manager :=
  if negb (is_valid_client_id client_id st) then
    Ok (respond client_id request_id (Some (error 400)) st)
  else
    let st :=
      match impls_ st !! client_id with
      | Some info => if impl info then st else start_client hw client_id info st
      | None => st
      end in
    match impls_ st !! client_id with
    | None => Ok (respond client_id request_id (Some (error 500)) st)
    | Some info =>
        if is_closed info then Ok (respond client_id request_id (Some (error 500)) st)
        else
          i ← deref (impl info);
          Ok (send_closure i (MultiTd_send client_id request_id request) st)
    end.

Definition close_impl (client_id : Z) (st : manager) : outcome manager :=
  match impls_ st !! client_id with
  | None => Fault AssertFailure
  | Some info =>
      if negb (is_closed info) then
        let st := set_impls (<[client_id := {| impl := impl info; is_closed := true |}]> (impls_ st)) st in
        match impl info with
        | None => Ok (respond client_id 0 None st)
        | Some i => Ok (send_closure i (MultiTd_close client_id) st)
        end
      else Ok st
  end.

Definition is_closed_update (o : option Object) : bool :=
  match o with
  | Some (updateAuthorizationState authorizationStateClosed) => true
  | _ => false
  end.

Definition no_arrivals : arrivals ManagerResponse :=
  {| first_look := []; while_waiting := []; second_look := [] |}.

(** [ClientManager::Impl::receive]. What arrives while it waits, other steps put
    there before this one. *)
Definition manager_receive (timeout : bool) (st : manager) : outcome (ManagerResponse * manager) :=
  '(o, r) ← receive timeout no_arrivals (receiver_ st);
  let st := set_receiver r st in
  let response :=
    default {| mr_client_id := 0; mr_request_id := 0; mr_object := None |} o in
  '(response, st) ←
    (if (mr_request_id response =? 0) && is_closed_update (mr_object response) then
       st ← close_impl (mr_client_id response) st;
       Ok ({| mr_client_id := 0; mr_request_id := mr_request_id response; mr_object := None |}, st)
     else Ok (response, st));
  if negb (if mr_object response then true else false)
     && negb (mr_client_id response =? 0) && (mr_request_id response =? 0) then
    match impls_ st !! mr_client_id response with
    | None => Fault AssertFailure
    | Some info =>
        _ ← cassert (is_closed info);
        Ok ({| mr_client_id := mr_client_id response; mr_request_id := mr_request_id response;
               mr_object := Some (updateAuthorizationState authorizationStateClosed) |},
            set_impls (delete (mr_client_id response) (impls_ st)) st)
    end
  else Ok (response, st).

(** The first part of [~Impl]: every client is closed; then responses are received
    until none is left. *)
Definition destroy (st : manager) : outcome manager :=
  ofold (λ st c, close_impl c st)
    {| current_id_ := current_id_ st; impls_ := impls_ st; pool_ := pool_ st;
       receiver_ := receiver_ st; alive := alive st; requested := requested st;
       destroyed := true |} (map_to_list (impls_ st)).*1.

(** ** The actors *)

(** [MultiTd] runs a closure. *)
Definition run_closure (i : nat) (c : closure) (st : manager) : outcome manager :=
  let x := pool_ st i in
  match c with
  | MultiTd_create td_id =>
      _ ← cassert (negb (bool_decide (td_id ∈ tds_ x)));
      Ok (set_alive ({[td_id]} ∪ alive st)
            (set_slot i {| mailbox := mailbox x; tds_ := {[td_id]} ∪ tds_ x |} st))
  | MultiTd_send client_id request_id request =>
      _ ← cassert (bool_decide (client_id ∈ tds_ x));
      Ok {| current_id_ := current_id_ st; impls_ := impls_ st; pool_ := pool_ st;
            receiver_ := receiver_ st; alive := alive st;
            requested := requested st ++ [(client_id, request_id, request)];
            destroyed := destroyed st |}
  | MultiTd_close td_id =>
      _ ← cassert (bool_decide (td_id ∈ tds_ x));
      Ok (set_slot i {| mailbox := mailbox x; tds_ := tds_ x ∖ {[td_id]} |} st)
  end.

Definition owned (c : Z) (st : manager) : Prop := ∃ i, c ∈ tds_ (pool_ st i).

(** What can happen next. *)
Inductive label :=
  | LCreate
  | LSend (client_id request_id : Z) (request : Function)
  | LReceive (timeout : bool)
  | LDestroy
  | LActor (slot : nat)                            (** an actor runs its next closure *)
  | LResult (client_id id : Z) (result : Object)   (** [on_result], [on_error] *)
  | LGone (client_id : Z).                         (** an instance is destroyed *)

(** Clients are created and used before the destructor begins. An instance responds
    while it exists; it is destroyed after its owner dropped it. *)
Definition enabled (l : label) (st : manager) : Prop :=
  match l with
  | LCreate => destroyed st = false ∧ current_id_ st ≤ INT_MAX
  | LSend _ _ _ | LDestroy => destroyed st = false
  | LActor i => mailbox (pool_ st i) ≠ []
  | LResult c _ _ => c ∈ alive st
  | LGone c => c ∈ alive st ∧ ¬ owned c st
  | _ => True
  end.

(** The step, and the response a [receive] delivers. *)
Definition step (hw : Z) (l : label) (st : manager) : outcome (option ManagerResponse * manager) :=
  match l with
  | LCreate => '(_, st) ← create_client_id st; Ok (None, st)
  | LSend c id f => st ← send hw c id f st; Ok (None, st)
  | LReceive timeout => '(r, st) ← manager_receive timeout st; Ok (Some r, st)
  | LDestroy => st ← destroy st; Ok (None, st)
  | LActor i =>
      match mailbox (pool_ st i) with
      | [] => Ok (None, st)
      | c :: rest =>
          st ← run_closure i c (set_slot i {| mailbox := rest; tds_ := tds_ (pool_ st i) |} st);
          Ok (None, st)
      end
  | LResult c id o => Ok (None, respond c id (Some o) st)
  | LGone c => Ok (None, respond c 0 None (set_alive (alive st ∖ {[c]}) st))
  end.

(** ** The life of a client, as the manager sees it *)

Definition closure_client (x : closure) : Z :=
  match x with MultiTd_create c | MultiTd_send c _ _ | MultiTd_close c => c end.
Definition is_send (x : closure) : Prop :=
  match x with MultiTd_send _ _ _ => True | _ => False end.

(** The closures of client [c] in the mailbox of slot [i]. *)
Definition box (c : Z) (st : manager) (i : nat) : list closure :=
  filter (λ x, closure_client x = c) (mailbox (pool_ st i)).
Definition own (c : Z) (st : manager) (i : nat) : bool := bool_decide (c ∈ tds_ (pool_ st i)).

(** The responses that matter for the life of [c]: [false] for its update that it is
    closed, [true] for the null response of its destruction. *)
Definition mark (c : Z) (r : ManagerResponse) : option bool :=
  if decide (mr_client_id r = c ∧ mr_request_id r = 0) then
    match mr_object r with
    | None => Some true
    | o => if is_closed_update o then Some false else None
    end
  else None.
Definition marks (c : Z) (st : manager) : list bool :=
  omap (mark c) (pending_responses (receiver_ st)).

Definition close_if (closed : bool) (c : Z) : list closure :=
  if closed then [MultiTd_close c] else [].

(** The phases: unknown or released; created, but never used; its start on the way to
    the actor; running; dropped by its owner; destroyed, with its last response on the
    way. *)
Inductive phase (c : Z) :
    option MultiImplInfo → (nat → list closure) → (nat → bool) → bool → list bool → Prop :=
  | ph_absent b o :
      (∀ i, b i = []) → (∀ i, o i = false) → phase c None b o false []
  | ph_fresh closed b o :
      (∀ i, b i = []) → (∀ i, o i = false) →
      phase c (Some {| impl := None; is_closed := closed |}) b o false
        (if closed then [true] else [])
  | ph_starting i closed b o sends :
      (∀ j, j ≠ i → b j = []) → (∀ j, o j = false) → Forall is_send sends →
      b i = MultiTd_create c :: sends ++ close_if closed c →
      phase c (Some {| impl := Some i; is_closed := closed |}) b o false []
  | ph_running i closed b o sends ms :
      (∀ j, j ≠ i → b j = []) → (∀ j, o j = (j =? i)%nat) → Forall is_send sends →
      b i = sends ++ close_if closed c → Forall (eq false) ms →
      phase c (Some {| impl := Some i; is_closed := closed |}) b o true ms
  | ph_dropped i b o ms :
      (∀ j, b j = []) → (∀ j, o j = false) → Forall (eq false) ms →
      phase c (Some {| impl := Some i; is_closed := true |}) b o true ms
  | ph_gone i b o ms :
      (∀ j, b j = []) → (∀ j, o j = false) → Forall (eq false) ms →
      phase c (Some {| impl := Some i; is_closed := true |}) b o false (ms ++ [true]).

Definition client_phase (c : Z) (st : manager) : Prop :=
  phase c (impls_ st !! c) (box c st) (own c st) (bool_decide (c ∈ alive st)) (marks c st).

Record phases_inv (st : manager) : Prop := {
  inv_receiver : receiver_wf (receiver_ st) ∧ receive_lock_ (receiver_ st) = false;
  inv_ids : 1 ≤ current_id_ st ≤ INT_MAX + 1;
  inv_known : ∀ c, is_Some (impls_ st !! c) → 1 ≤ c < current_id_ st;
  inv_phase : ∀ c, client_phase c st;
}.

(** Until the destructor begins, only started clients are closed. *)
Definition fresh_open (st : manager) : Prop :=
  destroyed st = false → ∀ c info,
    impls_ st !! c = Some info → impl info = None → is_closed info = false.

Definition manager_inv (st : manager) : Prop := phases_inv st ∧ fresh_open st.

(** A phase depends on the mailboxes and owners slot by slot. *)
Lemma phase_ext c info b o al ms info' b' o' al' ms' :
  phase c info b o al ms → info' = info → (∀ i, b' i = b i) → (∀ i, o' i = o i) →
  al' = al → ms' = ms → phase c info' b' o' al' ms'.
Proof.
  intros H -> Hb Ho -> ->. destruct H.
  - constructor; intros i; [rewrite Hb|rewrite Ho]; auto.
  - constructor; intros i; [rewrite Hb|rewrite Ho]; auto.
  - econstructor; try done; [intros j Hj; rewrite Hb; auto|intros j; rewrite Ho; auto|by rewrite Hb].
  - econstructor; try done; [intros j Hj; rewrite Hb; auto|intros j; rewrite Ho; auto|by rewrite Hb].
  - econstructor; try done; intros j; [rewrite Hb|rewrite Ho]; auto.
  - econstructor; try done; intros j; [rewrite Hb|rewrite Ho]; auto.
Qed.

(** A step that leaves everything about [c] as it is. *)
Lemma client_phase_frame c st st' :
  client_phase c st → impls_ st' !! c = impls_ st !! c →
  (∀ i, box c st' i = box c st i) → (∀ i, own c st' i = own c st i) →
  (c ∈ alive st' ↔ c ∈ alive st) → marks c st' = marks c st → client_phase c st'.
Proof.
  intros H Hi Hb Ho Ha Hm. eapply phase_ext; [exact H|done..| |done]. by apply bool_decide_ext.
Qed.

Lemma mark_other c c' id o :
  c ≠ c' → mark c {| mr_client_id := c'; mr_request_id := id; mr_object := o |} = None.
Proof. intros Hne. unfold mark. simpl. rewrite decide_False; [done|]. naive_solver. Qed.

Lemma marks_respond c c' id o st :
  marks c (respond c' id o st)
  = marks c st ++ option_list
      (mark c {| mr_client_id := c'; mr_request_id := id; mr_object := o |}).
Proof.
  unfold marks, respond. simpl. by rewrite pending_add, omap_app.
Qed.

Lemma respond_frame c c' id o st :
  client_phase c st →
  mark c {| mr_client_id := c'; mr_request_id := id; mr_object := o |} = None →
  client_phase c (respond c' id o st).
Proof.
  intros H Hm. apply (client_phase_frame c st); [done..|]. rewrite marks_respond, Hm. apply app_nil_r.
Qed.

Lemma box_send_closure c i x st j :
  box c (send_closure i x st) j
  = box c st j ++ (if decide (j = i ∧ closure_client x = c) then [x] else []).
Proof.
  unfold box, send_closure. simpl. destruct (Nat.eqb_spec j i) as [->|Hne]; simpl.
  - rewrite filter_app. f_equal. destruct (decide (closure_client x = c)) as [E|E].
    + rewrite filter_cons_True, decide_True by done. done.
    + rewrite filter_cons_False, decide_False by naive_solver. done.
  - rewrite decide_False by naive_solver. by rewrite app_nil_r.
Qed.

Lemma own_send_closure c i x st j : own c (send_closure i x st) j = own c st j.
Proof. unfold own, send_closure. simpl. by destruct (Nat.eqb_spec j i) as [->|]. Qed.

(** ** What moves a client from one phase to the next *)

Definition add_at (i : nat) (x : closure) (b : nat → list closure) (j : nat) : list closure :=
  b j ++ (if decide (j = i) then [x] else []).

Lemma phase_result c info b o ms :
  phase c info b o true ms → phase c info b o true (ms ++ [false]).
Proof.
  intros H. inversion H; subst.
  - eapply ph_running; try done. apply Forall_app. split; [done|]. by constructor.
  - eapply ph_dropped; try done. apply Forall_app. split; [done|]. by constructor.
Qed.

Lemma phase_destroyed c info b o ms :
  phase c info b o true ms → (∀ i, o i = false) → phase c info b o false (ms ++ [true]).
Proof.
  intros H Ho. inversion H as [| | |i closed b' o' sends ms' _ Ho'| |]; subst.
  - specialize (Ho i). rewrite Ho', Nat.eqb_refl in Ho. done.
  - by eapply ph_gone.
Qed.

Lemma phase_start c b o al ms i :
  phase c (Some {| impl := None; is_closed := false |}) b o al ms →
  phase c (Some {| impl := Some i; is_closed := false |}) (add_at i (MultiTd_create c) b) o al ms.
Proof.
  intros H. inversion H as [|cl b' o' Hb Ho| | | |]; subst.
  eapply (ph_starting _ _ _ _ _ []); unfold add_at; try done.
  - intros j Hj. rewrite decide_False by done. rewrite app_nil_r. auto.
  - rewrite decide_True by done. by rewrite Hb.
Qed.

Lemma phase_send c b o al ms i id f :
  phase c (Some {| impl := Some i; is_closed := false |}) b o al ms →
  phase c (Some {| impl := Some i; is_closed := false |}) (add_at i (MultiTd_send c id f) b) o al ms.
Proof.
  assert (∀ j, j ≠ i → add_at i (MultiTd_send c id f) b j = b j) as Hne.
  { intros j Hj. unfold add_at. rewrite decide_False by done. apply app_nil_r. }
  assert (add_at i (MultiTd_send c id f) b i = b i ++ [MultiTd_send c id f]) as He.
  { unfold add_at. by rewrite decide_True. }
  intros H. inversion H as [| |i' cl b' o' sends Hb Ho Hs Hbi|i' cl b' o' sends ms' Hb Ho Hs Hbi Hm| |];
    subst; cbn [close_if] in Hbi; rewrite app_nil_r in Hbi.
  - eapply (ph_starting _ _ _ _ _ (sends ++ [MultiTd_send c id f])); try done.
    + intros j Hj. rewrite Hne by done. auto.
    + apply Forall_app. split; [done|]. by constructor.
    + rewrite He, Hbi. simpl. by rewrite app_nil_r.
  - eapply (ph_running _ _ _ _ _ (sends ++ [MultiTd_send c id f])); try done.
    + intros j Hj. rewrite Hne by done. auto.
    + apply Forall_app. split; [done|]. by constructor.
    + rewrite He, Hbi. simpl. by rewrite app_nil_r.
Qed.

Lemma phase_close c b o al ms i :
  phase c (Some {| impl := Some i; is_closed := false |}) b o al ms →
  phase c (Some {| impl := Some i; is_closed := true |}) (add_at i (MultiTd_close c) b) o al ms.
Proof.
  assert (∀ j, j ≠ i → add_at i (MultiTd_close c) b j = b j) as Hne.
  { intros j Hj. unfold add_at. rewrite decide_False by done. apply app_nil_r. }
  assert (add_at i (MultiTd_close c) b i = b i ++ [MultiTd_close c]) as He.
  { unfold add_at. by rewrite decide_True. }
  intros H. inversion H as [| |i' cl b' o' sends Hb Ho Hs Hbi|i' cl b' o' sends ms' Hb Ho Hs Hbi Hm| |];
    subst; cbn [close_if] in Hbi; rewrite app_nil_r in Hbi.
  - eapply (ph_starting _ _ _ _ _ sends); try done.
    + intros j Hj. rewrite Hne by done. auto.
    + by rewrite He, Hbi.
  - eapply (ph_running _ _ _ _ _ sends); try done.
    + intros j Hj. rewrite Hne by done. auto.
    + by rewrite He, Hbi.
Qed.

Lemma phase_close_fresh c b o al ms :
  phase c (Some {| impl := None; is_closed := false |}) b o al ms →
  phase c (Some {| impl := None; is_closed := true |}) b o al (ms ++ [true]).
Proof. intros H. inversion H; subst. by apply (ph_fresh _ true). Qed.

(** The update that the client is closed is taken from the queue. *)
Lemma phase_take_update c info b o al ms :
  phase c info b o al (false :: ms) →
  (∃ i cl, info = Some {| impl := Some i; is_closed := cl |}) ∧ phase c info b o al ms.
Proof.
  intros H. inversion H as [|cl b' o' Hb Ho E1 E2 E3 E4 E5| |i cl b' o' sends ms' Hb Ho Hs Hbi Hm|
    i b' o' ms' Hb Ho Hm|i b' o' ms' Hb Ho Hm E1 E2 E3 E4 E5]; subst.
  - by destruct cl.
  - apply Forall_cons in Hm as [_ Hm]. split; [by eexists _, _|]. by eapply ph_running.
  - apply Forall_cons in Hm as [_ Hm]. split; [by eexists _, _|]. by eapply ph_dropped.
  - destruct ms' as [|m ms']; simpl in E5; simplify_eq. apply Forall_cons in Hm as [_ Hm].
    split; [by eexists _, _|]. by eapply ph_gone.
Qed.

(** The null response is taken: it is the last trace of a closed client. *)
Lemma phase_take_null c info b o al ms :
  phase c info b o al (true :: ms) →
  (∃ im, info = Some {| impl := im; is_closed := true |}) ∧ phase c None b o al ms ∧ ms = [].
Proof.
  intros H. inversion H as [|cl b' o' Hb Ho E1 E2 E3 E4 E5| |i cl b' o' sends ms' Hb Ho Hs Hbi Hm|
    i b' o' ms' Hb Ho Hm|i b' o' ms' Hb Ho Hm E1 E2 E3 E4 E5]; subst.
  - destruct cl; simplify_eq. split; [by eexists|]. split; [by constructor|done].
  - by apply Forall_cons in Hm as [? _].
  - by apply Forall_cons in Hm as [? _].
  - destruct ms' as [|m ms']; simpl in E5; simplify_eq.
    + split; [by eexists|]. split; [by constructor|done].
    + by apply Forall_cons in Hm as [? _].
Qed.

(** An actor takes a closure of the client. *)
Definition take_at (i : nat) (rest : list closure) (b : nat → list closure) (j : nat)
    : list closure := if decide (j = i) then rest else b j.

Lemma phase_actor_create c info b o al ms i rest :
  phase c info b o al ms → b i = MultiTd_create c :: rest →
  al = false ∧ o i = false ∧
  phase c info (take_at i rest b) (λ j, (j =? i)%nat || o j) true ms.
Proof.
  intros H Hi. inversion H as [b' o' Hb Ho|cl b' o' Hb Ho|i' cl b' o' sends Hb Ho Hs Hbi|
    i' cl b' o' sends ms' Hb Ho Hs Hbi Hm|i' b' o' ms' Hb Ho Hm|i' b' o' ms' Hb Ho Hm]; subst;
    try (rewrite Hb in Hi; done).
  - destruct (decide (i = i')) as [<-|Hne]; [|rewrite Hb in Hi by done; discriminate Hi]. rewrite Hbi in Hi. simplify_eq.
    split; [done|]. split; [done|]. eapply (ph_running _ _ _ _ _ sends); unfold take_at; try done.
    + intros j Hj. rewrite decide_False by done. auto.
    + intros j. rewrite Ho. apply orb_false_r.
    + by rewrite decide_True.
  - destruct (decide (i = i')) as [<-|Hne]; [|rewrite Hb in Hi by done; discriminate Hi].
    rewrite Hbi in Hi. destruct sends as [|s sends].
    + destruct cl; simplify_eq.
    + simpl in Hi. simplify_eq. apply Forall_cons in Hs as [Hx _]. destruct Hx.
Qed.

Lemma phase_actor_send c info b o al ms i id f rest :
  phase c info b o al ms → b i = MultiTd_send c id f :: rest →
  o i = true ∧ phase c info (take_at i rest b) o al ms.
Proof.
  intros H Hi. inversion H as [b' o' Hb Ho|cl b' o' Hb Ho|i' cl b' o' sends Hb Ho Hs Hbi|
    i' cl b' o' sends ms' Hb Ho Hs Hbi Hm|i' b' o' ms' Hb Ho Hm|i' b' o' ms' Hb Ho Hm]; subst;
    try (rewrite Hb in Hi; done).
  - destruct (decide (i = i')) as [<-|Hne]; [|rewrite Hb in Hi by done; discriminate Hi]. rewrite Hbi in Hi. simplify_eq.
  - destruct (decide (i = i')) as [<-|Hne]; [|rewrite Hb in Hi by done; discriminate Hi].
    rewrite Hbi in Hi. destruct sends as [|s sends]; [destruct cl; simplify_eq|]. simpl in Hi. simplify_eq.
    apply Forall_cons in Hs as [_ Hs]. split; [by rewrite Ho, Nat.eqb_refl|].
    eapply (ph_running _ _ _ _ _ sends); unfold take_at; try done.
    + intros j Hj. rewrite decide_False by done. auto.
    + by rewrite decide_True.
Qed.

Lemma phase_actor_close c info b o al ms i rest :
  phase c info b o al ms → b i = MultiTd_close c :: rest →
  o i = true ∧ phase c info (take_at i rest b) (λ j, negb (j =? i)%nat && o j) al ms.
Proof.
  intros H Hi. inversion H as [b' o' Hb Ho|cl b' o' Hb Ho|i' cl b' o' sends Hb Ho Hs Hbi|
    i' cl b' o' sends ms' Hb Ho Hs Hbi Hm|i' b' o' ms' Hb Ho Hm|i' b' o' ms' Hb Ho Hm]; subst;
    try (rewrite Hb in Hi; done).
  - destruct (decide (i = i')) as [<-|Hne]; [|rewrite Hb in Hi by done; discriminate Hi]. rewrite Hbi in Hi. simplify_eq.
  - destruct (decide (i = i')) as [<-|Hne]; [|rewrite Hb in Hi by done; discriminate Hi].
    rewrite Hbi in Hi. destruct sends as [|s sends];
      [|simpl in Hi; simplify_eq; apply Forall_cons in Hs as [Hx _]; destruct Hx].
    destruct cl; simpl in Hi; simplify_eq. split; [by rewrite Ho, Nat.eqb_refl|].
    eapply ph_dropped; [| |done]; intros j; unfold take_at.
    + case_decide; [done|auto].
    + rewrite Ho. by destruct (j =? i)%nat.
Qed.

(** ** The invariant is preserved *)

Lemma mk_manager_inv : manager_inv mk_manager.
Proof.
  split; [split|]; simpl.
  - split; [apply mk_TdReceiver_wf|done].
  - unfold INT_MAX. lia.
  - intros c [? Hc]. by rewrite lookup_empty in Hc.
  - intros c. by constructor.
  - intros _ c info Hc. simpl in Hc. by rewrite lookup_empty in Hc.
Qed.

Lemma respond_inv c id o st :
  phases_inv st → client_phase c (respond c id o st) → phases_inv (respond c id o st).
Proof.
  intros [[Hr Hl] Hi Hk Hp] Hc. split; simpl; [|done|done|].
  - split; [by apply add_response_wf|done].
  - intros c'. destruct (decide (c' = c)) as [->|Hne]; [done|].
    apply respond_frame; [done|]. by apply mark_other.
Qed.

(** The error answers do not concern the life of a client. *)
Lemma respond_error_inv c id code st :
  phases_inv st → phases_inv (respond c id (Some (error code)) st).
Proof.
  intros Hst. apply respond_inv; [done|]. apply respond_frame; [apply Hst|].
  unfold mark. by case_decide.
Qed.

Lemma result_inv c id o st :
  phases_inv st → c ∈ alive st → phases_inv (respond c id (Some o) st).
Proof.
  intros Hst Ha. apply respond_inv; [done|].
  destruct (mark c {| mr_client_id := c; mr_request_id := id; mr_object := Some o |}) as [b|] eqn:Hm;
    [|by apply respond_frame; [apply Hst|]].
  assert (b = false) as ->.
  { unfold mark in Hm. case_decide; [|done]. cbn [mr_object] in Hm.
    by destruct (is_closed_update (Some o)); simplify_eq. }
  pose proof (inv_phase _ Hst c) as Hp. unfold client_phase in *.
  rewrite bool_decide_true in Hp by done. rewrite marks_respond, Hm. simpl.
  rewrite bool_decide_true by done. by apply phase_result.
Qed.

Lemma gone_inv c st :
  phases_inv st → c ∈ alive st → ¬ owned c st →
  phases_inv (respond c 0 None (set_alive (alive st ∖ {[c]}) st)).
Proof.
  intros [[Hr Hl] Hi Hk Hp] Ha Ho. split; simpl; [|done|done|].
  - split; [by apply add_response_wf|done].
  - intros c'. specialize (Hp c'). unfold client_phase in *. rewrite marks_respond.
    destruct (decide (c' = c)) as [->|Hne].
    + rewrite bool_decide_true in Hp by done.
      rewrite (bool_decide_false (c ∈ _)) by (simpl; set_solver).
      unfold mark. rewrite decide_True by done. simpl.
      apply phase_destroyed; [done|]. intros i. unfold own. apply bool_decide_false.
      intros Hin. apply Ho. by exists i.
    + rewrite mark_other by done. simpl. rewrite app_nil_r.
      erewrite (bool_decide_ext (c' ∈ _)); [exact Hp|]. set_solver.
Qed.

Lemma phase_lookup c st info :
  phases_inv st → impls_ st !! c = Some info →
  phase c (Some info) (box c st) (own c st) (bool_decide (c ∈ alive st)) (marks c st).
Proof. intros Hst <-. apply (inv_phase _ Hst). Qed.

(** Closing a client the manager knows. *)
Lemma close_impl_inv c info st :
  phases_inv st → impls_ st !! c = Some info →
  ∃ st', close_impl c st = Ok st' ∧ phases_inv st' ∧
    current_id_ st' = current_id_ st ∧ destroyed st' = destroyed st ∧ alive st' = alive st ∧
    impls_ st' = <[c := {| impl := impl info; is_closed := true |}]> (impls_ st) ∧
    (is_Some (impl info) → receiver_ st' = receiver_ st).
Proof.
  intros Hst Hc. unfold close_impl. rewrite Hc. pose proof (phase_lookup c st info Hst Hc) as Hph.
  destruct info as [im cl]. simpl. destruct cl; simpl.
  { exists st. do 5 (split; [done|]). split; [by rewrite insert_id|done]. }
  destruct Hst as [[Hr Hl] Hi Hk Hp]. destruct im as [i|].
  - eexists. split; [done|]. split; [|done]. split; simpl; [done|done| |].
    + intros c' Hc'. apply Hk. rewrite lookup_insert_is_Some' in Hc'. destruct Hc' as [->|]; eauto.
    + intros c'. destruct (decide (c' = c)) as [->|Hne].
      * unfold client_phase. simpl. rewrite lookup_insert_eq.
        eapply phase_ext; [exact (phase_close _ _ _ _ _ _ Hph)|done| | |done|done].
        -- intros j. rewrite box_send_closure. unfold add_at. f_equal.
           repeat case_decide; try done; exfalso; naive_solver.
        -- intros j. by rewrite own_send_closure.
      * apply (client_phase_frame c' st); [done|simpl; by rewrite lookup_insert_ne by done| | |done|done].
        -- intros j. rewrite box_send_closure, decide_False by naive_solver. by rewrite app_nil_r.
        -- intros j. by rewrite own_send_closure.
  - eexists. split; [done|]. split; [|split_and!; try done; by intros [? ?]].
    split; simpl; [split; [by apply add_response_wf|done]|done| |].
    + intros c' Hc'. apply Hk. rewrite lookup_insert_is_Some' in Hc'. destruct Hc' as [->|]; eauto.
    + intros c'. destruct (decide (c' = c)) as [->|Hne].
      * unfold client_phase. simpl. rewrite lookup_insert_eq, marks_respond.
        unfold mark. rewrite decide_True by done. simpl.
        exact (phase_close_fresh _ _ _ _ _ Hph).
      * apply (client_phase_frame c' st); [done|simpl; by rewrite lookup_insert_ne by done|done|done|done|].
        rewrite marks_respond, mark_other by done. apply app_nil_r.
Qed.

(** Only the slot a client was given holds something of it. *)
Lemma phase_slot c info b o al ms i :
  phase c info b o al ms → b i ≠ [] ∨ o i = true → ∃ cl, info = Some {| impl := Some i; is_closed := cl |}.
Proof.
  intros H Hi. inversion H as [b' o' Hb Ho|cl b' o' Hb Ho|i' cl b' o' sends Hb Ho Hs Hbi|
    i' cl b' o' sends ms' Hb Ho Hs Hbi Hm|i' b' o' ms' Hb Ho Hm|i' b' o' ms' Hb Ho Hm]; subst;
    try (rewrite Hb, Ho in Hi; naive_solver).
  - destruct (decide (i = i')) as [->|Hne]; [eauto|]. rewrite Hb, Ho in Hi by done. naive_solver.
  - destruct (decide (i = i')) as [->|Hne]; [eauto|]. rewrite Hb, Ho in Hi by done.
    rewrite (proj2 (Nat.eqb_neq _ _)) in Hi by done. naive_solver.
Qed.

Lemma use_count_zero i st c info :
  use_count i st = 0%nat → impls_ st !! c = Some info → impl info ≠ Some i.
Proof.
  unfold use_count. intros H0 Hc Hi. apply map_size_empty_iff in H0.
  assert (filter (λ p : Z * MultiImplInfo, impl p.2 = Some i) (impls_ st) !! c = Some info) as Hf
    by by apply map_lookup_filter_Some.
  by rewrite H0, lookup_empty in Hf.
Qed.

Lemma pool_get_inv hw st i st' :
  phases_inv st → pool_get hw st = (i, st') →
  phases_inv st' ∧ impls_ st' = impls_ st ∧ current_id_ st' = current_id_ st ∧
  destroyed st' = destroyed st.
Proof.
  intros Hst. unfold pool_get. set (i0 := min_element _ _ _).
  destruct (Nat.eqb_spec (use_count i0 st) 0) as [H0|H0]; intros [= <- <-]; [|done].
  split; [|done]. destruct Hst as [Hr Hi Hk Hp]. split; simpl; [done..|].
  intros c. assert (box c st i0 = [] ∧ own c st i0 = false) as [Hb Ho].
  { destruct (decide (box c st i0 = [] ∧ own c st i0 = false)) as [|Hn]; [done|exfalso].
    destruct (phase_slot _ _ _ _ _ _ i0 (Hp c)) as [cl Hc].
    - destruct (own c st i0); [by right|left]. naive_solver.
    - by apply (use_count_zero i0 st c _ H0 Hc). }
  apply (client_phase_frame c st); try done; intros j; unfold box, own; simpl;
    destruct (Nat.eqb_spec j i0) as [->|]; try done.
Qed.

Lemma send_closure_other_inv c i x st :
  phases_inv st → closure_client x ≠ c → client_phase c st → client_phase c (send_closure i x st).
Proof.
  intros Hst Hne Hc. apply (client_phase_frame c st); try done; intros j.
  - rewrite box_send_closure, decide_False by naive_solver. by rewrite app_nil_r.
  - apply own_send_closure.
Qed.

Lemma box_add_at c i x st j :
  closure_client x = c → box c (send_closure i x st) j = add_at i x (box c st) j.
Proof.
  intros Hx. rewrite box_send_closure. unfold add_at. f_equal.
  repeat case_decide; try done; exfalso; naive_solver.
Qed.

Lemma start_client_inv hw c st :
  phases_inv st → impls_ st !! c = Some {| impl := None; is_closed := false |} →
  ∃ i, let st' := start_client hw c {| impl := None; is_closed := false |} st in
    phases_inv st' ∧ current_id_ st' = current_id_ st ∧ destroyed st' = destroyed st ∧
    impls_ st' = <[c := {| impl := Some i; is_closed := false |}]> (impls_ st).
Proof.
  intros Hst Hc. unfold start_client. destruct (pool_get hw st) as [i st1] eqn:Hg.
  destruct (pool_get_inv hw st i st1 Hst Hg) as (H1 & Ei & Ec & Ed). exists i. simpl.
  rewrite Ei. split; [|done]. rewrite <-Ei in Hc.
  pose proof (phase_lookup c st1 _ H1 Hc) as Hph.
  destruct H1 as [Hr Hi Hk Hp]. split; simpl; [done|done| |].
  - intros c' Hc'. apply Hk. rewrite Ei. rewrite lookup_insert_is_Some' in Hc'.
    destruct Hc' as [->|]; [|done]. rewrite <-Ei. eauto.
  - intros c'. rewrite <-Ei. destruct (decide (c' = c)) as [->|Hne].
    + unfold client_phase. simpl. rewrite lookup_insert_eq.
      eapply phase_ext; [exact (phase_start _ _ _ _ _ i Hph)|done| | |done|done].
      * intros j. etrans; [by apply box_add_at|done].
      * intros j. etrans; [apply own_send_closure|done].
    + apply (client_phase_frame c' st1);
        [done|simpl; by rewrite lookup_insert_ne by done| | |done|done].
      * intros j. etrans; [apply box_send_closure|]. rewrite decide_False by naive_solver.
        by rewrite app_nil_r.
      * intros j. etrans; [apply own_send_closure|done].
Qed.

Lemma send_inv hw c id f st :
  manager_inv st → destroyed st = false →
  ∃ st', send hw c id f st = Ok st' ∧ manager_inv st' ∧ current_id_ st' = current_id_ st.
Proof.
  intros [Hst Hfr] Hd. unfold send.
  assert (∀ code st, manager_inv st → manager_inv (respond c id (Some (error code)) st)) as Herr.
  { intros code s [Hs Hf]. split; [by apply respond_error_inv|done]. }
  destruct (is_valid_client_id c st); simpl; [|eexists; split; [done|]; split; [by apply Herr|done]].
  assert (∀ st i, manager_inv st → impls_ st !! c = Some {| impl := Some i; is_closed := false |} →
    manager_inv (send_closure i (MultiTd_send c id f) st)) as Hsend.
  { clear. intros st i [Hst Hfr] Hc. split; [|done].
    pose proof (phase_lookup c st _ Hst Hc) as Hph.
    split; simpl; [apply Hst..|]. intros c'. destruct (decide (c' = c)) as [->|Hne].
    - unfold client_phase. simpl. rewrite Hc.
      eapply phase_ext; [exact (phase_send _ _ _ _ _ i id f Hph)|done| | |done|done].
      + intros j. by apply (box_add_at c).
      + intros j. apply own_send_closure.
    - apply send_closure_other_inv; [done|simpl; done|apply Hst]. }
  destruct (impls_ st !! c) as [[[i|] cl]|] eqn:Hc.
  - simpl. rewrite Hc. simpl. destruct cl.
    + eexists. split; [done|]. split; [by apply Herr|done].
    + eexists. split; [done|]. split; [by apply Hsend|done].
  - assert (cl = false) as -> by by apply (Hfr Hd c _ Hc).
    destruct (start_client_inv hw c st Hst Hc) as (i & H1 & Ec & Ed & Ei). simpl.
    rewrite Ei, lookup_insert_eq. simpl.
    assert (impls_ (start_client hw c {| impl := None; is_closed := false |} st) !! c
            = Some {| impl := Some i; is_closed := false |}) as Hc1.
    { by rewrite Ei, lookup_insert_eq. }
    eexists. split; [done|]. split; [|done]. apply Hsend; [|done]. split; [done|].
    intros Hd' c' info Hc' Him. rewrite Ei in Hc'. apply lookup_insert_Some in Hc' as [[<- <-]|[_ Hc']];
      [done|]. rewrite Ed in Hd'. by apply (Hfr Hd' c').
  - simpl. rewrite Hc. eexists. split; [done|]. split; [by apply Herr|done].
Qed.

Lemma create_inv st :
  manager_inv st → current_id_ st ≤ INT_MAX →
  ∃ st', create_client_id st = Ok (current_id_ st, st') ∧ manager_inv st' ∧
    current_id_ st' = current_id_ st + 1.
Proof.
  intros [Hst Hfr] Hid. pose proof (inv_ids _ Hst) as Hids. unfold INT_MAX in *.
  unfold create_client_id, create_id. rewrite (proj2 (Z.leb_le _ _)) by (unfold INT_MAX; lia).
  cbn [cassert mbind outcome_bind impls_].
  rewrite i32_small by (unfold in_int, INT_MIN, INT_MAX; lia).
  rewrite u32_small by (unfold two32; lia).
  destruct (impls_ st !! current_id_ st) as [info|] eqn:Hc.
  { pose proof (inv_known _ Hst _ (mk_is_Some _ _ Hc)). lia. }
  eexists. split; [done|]. split; [|done]. split.
  - destruct Hst as [Hr Hi Hk Hp]. split; simpl; [done|unfold INT_MAX; lia| |].
    + intros c Hc'. rewrite lookup_insert_is_Some' in Hc'. destruct Hc' as [<-|Hc']; [lia|].
      specialize (Hk c Hc'). lia.
    + intros c. destruct (decide (c = current_id_ st)) as [->|Hne].
      * unfold client_phase. simpl. rewrite lookup_insert_eq.
        specialize (Hp (current_id_ st)). unfold client_phase in Hp. rewrite Hc in Hp.
        inversion Hp as [b o Hb Ho E1 E2 E3 E4 E5| | | | |]; subst.
        eapply phase_ext; [exact (ph_fresh _ false _ _ Hb Ho)|done|done|done|..]; [done|by symmetry].
      * apply (client_phase_frame c st); try done. simpl. by rewrite lookup_insert_ne by done.
  - intros Hd c info Hc' Him. simpl in *.
    apply lookup_insert_Some in Hc' as [[<- <-]|[_ Hc']]; [done|]. by apply (Hfr Hd c).
Qed.

Lemma arrived_none timeout (r : TdReceiver ManagerResponse) : arrived timeout no_arrivals r = [].
Proof. unfold arrived. destruct (pending_responses r); [|done]. by destruct timeout. Qed.

(** Taking a response that is no mark of any client. *)
Lemma take_plain_inv r st x :
  phases_inv st → receiver_wf r → receive_lock_ r = false →
  pending_responses (receiver_ st) = x :: pending_responses r → (∀ c, mark c x = None) →
  phases_inv (set_receiver r st).
Proof.
  intros [_ Hi Hk Hp] Hr Hl Hq Hm. split; simpl; [done..|]. intros c.
  apply (client_phase_frame c st); try done.
  unfold marks. simpl. rewrite Hq. simpl. by rewrite Hm.
Qed.

(** What is known when a response of client [c] is taken that does concern its life. *)
Lemma take_mark_phase r st x c b :
  phases_inv st → pending_responses (receiver_ st) = x :: pending_responses r →
  mark c x = Some b →
  phase c (impls_ st !! c) (box c st) (own c st) (bool_decide (c ∈ alive st))
    (b :: marks c (set_receiver r st)).
Proof.
  intros Hst Hq Hm. pose proof (inv_phase _ Hst c) as Hp. unfold client_phase, marks in *.
  rewrite Hq in Hp. simpl in Hp. by rewrite Hm in Hp.
Qed.

Lemma mark_of_other c c' x b : mark c x = Some b → c' ≠ c → mark c' x = None.
Proof.
  unfold mark. repeat case_decide; try done. destruct H as [<- _], H0 as [<- _]. done.
Qed.

Lemma take_update_inv r st x c :
  phases_inv st → receiver_wf r → receive_lock_ r = false →
  pending_responses (receiver_ st) = x :: pending_responses r → mark c x = Some false →
  phases_inv (set_receiver r st) ∧
  ∃ i cl, impls_ st !! c = Some {| impl := Some i; is_closed := cl |}.
Proof.
  intros Hst Hr Hl Hq Hm. pose proof (take_mark_phase r st x c false Hst Hq Hm) as Hc.
  apply phase_take_update in Hc as [He Hc]. split; [|done].
  destruct Hst as [_ Hi Hk Hp]. split; simpl; [done..|]. intros c'.
  destruct (decide (c' = c)) as [->|Hne]; [exact Hc|].
  apply (client_phase_frame c' st); try done. unfold marks. simpl. rewrite Hq. simpl.
  by rewrite (mark_of_other c c' x false).
Qed.

Lemma take_null_inv r st x c :
  phases_inv st → receiver_wf r → receive_lock_ r = false →
  pending_responses (receiver_ st) = x :: pending_responses r → mark c x = Some true →
  (∃ im, impls_ st !! c = Some {| impl := im; is_closed := true |}) ∧
  phases_inv (set_impls (delete c (impls_ st)) (set_receiver r st)).
Proof.
  intros Hst Hr Hl Hq Hm. pose proof (take_mark_phase r st x c true Hst Hq Hm) as Hc.
  apply phase_take_null in Hc as (He & Hc & _). split; [done|].
  destruct Hst as [_ Hi Hk Hp]. split; simpl; [done..| |].
  - intros c' Hc'. apply Hk. destruct Hc' as [i Hi']. apply lookup_delete_Some in Hi' as [_ Hi']. eauto.
  - intros c'. destruct (decide (c' = c)) as [->|Hne].
    + unfold client_phase. simpl. rewrite lookup_delete_eq. exact Hc.
    + apply (client_phase_frame c' st); try done.
      * simpl. by rewrite lookup_delete_ne by done.
      * unfold marks. simpl. rewrite Hq. simpl. by rewrite (mark_of_other c c' x true).
Qed.

(** A response delivered as the last of client [c]. *)
Definition final_response (c : Z) (r : ManagerResponse) : Prop :=
  c ≠ 0 ∧ r = {| mr_client_id := c; mr_request_id := 0;
                 mr_object := Some (updateAuthorizationState authorizationStateClosed) |}.

Lemma receive_inv timeout st :
  manager_inv st →
  ∃ r st', manager_receive timeout st = Ok (r, st') ∧ manager_inv st' ∧
    current_id_ st' = current_id_ st ∧
    (∀ c, final_response c r → is_Some (impls_ st !! c) ∧ impls_ st' !! c = None).
Proof.
  intros [Hst Hfr]. unfold manager_receive.
  destruct (receive_spec timeout no_arrivals (receiver_ st)) as (o & r & -> & Hr & Hl & _ & Ho & Hq);
    [apply Hst..|].
  rewrite arrived_none, app_nil_r in Ho, Hq. cbn [mbind outcome_bind].
  destruct (pending_responses (receiver_ st)) as [|x l] eqn:Hp; simpl in Ho, Hq; subst o; simpl.
  { eexists _, _. split; [done|]. split; [split; [|done]|split; [done|by intros c [Hc [=]]]].
    destruct Hst as [_ Hi Hk Hph]. split; simpl; [done..|]. intros c.
    apply (client_phase_frame c st); try done. unfold marks. simpl. by rewrite Hp, Hq. }
  rewrite <-Hq in Hp. destruct x as [c id ob]. simpl.
  destruct (Z.eqb_spec id 0) as [->|Hid]; simpl.
  2: { rewrite (proj2 (Z.eqb_neq id 0)), andb_false_r by done. eexists _, _. split; [done|]. split; [split; [|done]|].
       - eapply take_plain_inv; try done. intros c'. unfold mark. simpl.
         by rewrite decide_False by naive_solver.
       - split; [done|]. by intros c' [Hc' [=]]. }
  destruct (is_closed_update ob) eqn:Hcl.
  - destruct (take_update_inv r st _ c Hst Hr Hl Hp) as (H1 & i & cl & Hc).
    { unfold mark. rewrite decide_True by done. cbn [mr_object]. destruct ob; [|done].
      by rewrite Hcl. }
    destruct (close_impl_inv c _ (set_receiver r st) H1 Hc) as (st' & -> & H2 & E1 & E2 & _ & E3 & _).
    simpl. eexists _, _. split; [done|]. split; [split; [done|]|split; [done|by intros c' [Hc' [=]]]].
    intros Hd c' info Hc' Him. rewrite E3 in Hc'. rewrite E2 in Hd.
    apply lookup_insert_Some in Hc' as [[<- <-]|[_ Hc']]; [done|]. by apply (Hfr Hd c').
  - destruct ob as [ob|]; simpl.
    + eexists _, _. split; [done|]. split; [split; [|done]|split; [done|]].
      * eapply take_plain_inv; try done. intros c'. unfold mark. cbn [mr_object].
        rewrite Hcl. by case_decide.
      * intros c' [_ Heq]. injection Heq as _ ->. done.
    + destruct (take_null_inv r st _ c Hst Hr Hl Hp) as ((im & Hc) & H1).
      { unfold mark. by rewrite decide_True. }
      assert (c ≠ 0) as Hc0.
      { intros ->. pose proof (inv_known _ Hst 0 (mk_is_Some _ _ Hc)). lia. }
      rewrite (proj2 (Z.eqb_neq _ _)) by done. simpl. rewrite Hc. simpl.
      eexists _, _. split; [done|]. split; [split; [done|]|split; [done|]].
      * intros Hd c' info Hc' Him. simpl in *. apply lookup_delete_Some in Hc' as [_ Hc'].
        by apply (Hfr Hd c').
      * intros c' [_ Heq]. injection Heq as <-. simpl. rewrite lookup_delete_eq. eauto.
Qed.

(** An actor runs the closure at the head of its mailbox. *)
Lemma box_head c i x rest st :
  mailbox (pool_ st i) = x :: rest →
  box c st i = (if decide (closure_client x = c) then [x] else [])
               ++ filter (λ y, closure_client y = c) rest.
Proof.
  intros Hm. unfold box. rewrite Hm. case_decide.
  - by rewrite filter_cons_True.
  - by rewrite filter_cons_False.
Qed.

(** The state after an actor took a closure off the mailbox of slot [i]. *)
Definition took (i : nat) (rest : list closure) (tds al : gset Z) (rq : list (Z * Z * Function))
    (st : manager) : manager := {|
  current_id_ := current_id_ st; impls_ := impls_ st;
  pool_ := λ j, if (j =? i)%nat then {| mailbox := rest; tds_ := tds |} else pool_ st j;
  receiver_ := receiver_ st; alive := al; requested := rq; destroyed := destroyed st |}.

Lemma took_other i x rest tds al rq st c :
  client_phase c st → mailbox (pool_ st i) = x :: rest → c ≠ closure_client x →
  (c ∈ tds ↔ c ∈ tds_ (pool_ st i)) → (c ∈ al ↔ c ∈ alive st) →
  client_phase c (took i rest tds al rq st).
Proof.
  intros Hp Hm Hne Ht Ha. apply (client_phase_frame c st); [done|done| | |done|done];
    intros j; unfold own, took; simpl; destruct (Nat.eqb_spec j i) as [->|Hj].
  - rewrite (box_head c i x rest st Hm), decide_False by done. unfold box. simpl.
    by rewrite Nat.eqb_refl.
  - unfold box. simpl. by rewrite (proj2 (Nat.eqb_neq _ _)) by done.
  - simpl. by apply bool_decide_ext.
  - done.
Qed.

Lemma took_box i rest tds al rq st c j :
  box c (took i rest tds al rq st) j
  = take_at i (filter (λ y, closure_client y = c) rest) (box c st) j.
Proof.
  unfold box, take_at, took. simpl.
  destruct (Nat.eqb_spec j i) as [->|Hj]; [by rewrite decide_True|by rewrite decide_False].
Qed.

Lemma took_inv i x rest tds al rq st :
  phases_inv st → mailbox (pool_ st i) = x :: rest →
  (∀ c, c ≠ closure_client x → (c ∈ tds ↔ c ∈ tds_ (pool_ st i)) ∧ (c ∈ al ↔ c ∈ alive st)) →
  client_phase (closure_client x) (took i rest tds al rq st) → phases_inv (took i rest tds al rq st).
Proof.
  intros Hst Hm Ho Hc. split; simpl; [apply Hst..|]. intros c.
  destruct (decide (c = closure_client x)) as [->|Hne]; [done|]. destruct (Ho c Hne).
  eapply took_other; try done. apply Hst.
Qed.

(** States that differ in no observable way. *)
Lemma phases_inv_ext st1 st2 :
  phases_inv st1 → (∀ i, pool_ st2 i = pool_ st1 i) → current_id_ st2 = current_id_ st1 →
  impls_ st2 = impls_ st1 → receiver_ st2 = receiver_ st1 → alive st2 = alive st1 →
  phases_inv st2.
Proof.
  intros [Hr Hi Hk Hp] Ep Ec Ei Er Ea. split; rewrite ?Er, ?Ec, ?Ei; try done.
  intros c. apply (client_phase_frame c st1); [done|by rewrite Ei| | |by rewrite Ea|].
  - intros j. unfold box. by rewrite Ep.
  - intros j. unfold own. by rewrite Ep.
  - unfold marks. by rewrite Er.
Qed.

Lemma actor_inv i x rest st :
  manager_inv st → mailbox (pool_ st i) = x :: rest →
  ∃ st', run_closure i x (set_slot i {| mailbox := rest; tds_ := tds_ (pool_ st i) |} st) = Ok st' ∧
    manager_inv st' ∧ impls_ st' = impls_ st ∧ current_id_ st' = current_id_ st.
Proof.
  intros [Hst Hfr] Hm. pose proof (box_head (closure_client x) i x rest st Hm) as Hb.
  rewrite decide_True in Hb by done. simpl in Hb.
  pose proof (inv_phase _ Hst (closure_client x)) as Hph. unfold client_phase, own in Hph.
  destruct x as [c|c id f|c]; cbn [closure_client] in *; unfold run_closure, set_slot;
    cbn [pool_ tds_ mailbox current_id_ impls_ receiver_ alive requested destroyed set_alive];
    rewrite Nat.eqb_refl; cbn [tds_ mailbox].
  - destruct (phase_actor_create _ _ _ _ _ _ i _ Hph Hb) as (Ha & Ho & Hnew).
    rewrite Ho. cbn [negb cassert mbind outcome_bind]. eexists. split; [done|].
    split; [split; [|done]|done].
    apply (phases_inv_ext (took i rest ({[c]} ∪ tds_ (pool_ st i)) ({[c]} ∪ alive st) (requested st) st));
      try done; [|intros j; simpl; by destruct (j =? i)%nat].
    eapply took_inv; [done|done|set_solver|].
    eapply phase_ext; [exact Hnew|done| | | |done].
    + intros j. apply took_box.
    + intros j. unfold own. simpl. destruct (Nat.eqb_spec j i) as [->|]; [|done].
      simpl. apply bool_decide_true. set_solver.
    + simpl. apply bool_decide_true. set_solver.
  - destruct (phase_actor_send _ _ _ _ _ _ i id f _ Hph Hb) as (Ho & Hnew).
    rewrite Ho. cbn [cassert mbind outcome_bind]. eexists. split; [done|].
    split; [split; [|done]|done].
    apply (took_inv i (MultiTd_send c id f)); [done|done|done|].
    eapply phase_ext; [exact Hnew|done| | |done|done].
    + intros j. apply took_box.
    + intros j. unfold own. simpl. by destruct (Nat.eqb_spec j i) as [->|].
  - destruct (phase_actor_close _ _ _ _ _ _ i _ Hph Hb) as (Ho & Hnew).
    rewrite Ho. cbn [cassert mbind outcome_bind]. eexists. split; [done|].
    split; [split; [|done]|done].
    apply (phases_inv_ext (took i rest (tds_ (pool_ st i) ∖ {[c]}) (alive st) (requested st) st));
      try done; [|intros j; simpl; by destruct (j =? i)%nat].
    eapply took_inv; [done|done|set_solver|].
    eapply phase_ext; [exact Hnew|done| | |done|done].
    + intros j. apply took_box.
    + intros j. unfold own. simpl. destruct (Nat.eqb_spec j i) as [->|]; [|done].
      simpl. apply bool_decide_false. set_solver.
Qed.

(** The destructor closes every client the manager knows. *)
Lemma destroy_inv st :
  manager_inv st →
  ∃ st', destroy st = Ok st' ∧ manager_inv st' ∧ current_id_ st' = current_id_ st ∧
    (∀ c, is_Some (impls_ st' !! c) ↔ is_Some (impls_ st !! c)).
Proof.
  intros [Hst Hfr]. unfold destroy.
  destruct (ofold_total (λ st c, close_impl c st) (λ s, phases_inv s ∧ destroyed s = true ∧
    current_id_ s = current_id_ st ∧ ∀ c, is_Some (impls_ s !! c) ↔ is_Some (impls_ st !! c))
    (map_to_list (impls_ st)).*1
    {| current_id_ := current_id_ st; impls_ := impls_ st; pool_ := pool_ st;
       receiver_ := receiver_ st; alive := alive st; requested := requested st;
       destroyed := true |}) as (st' & Hrun & Hp & Hd & Hc & Hi).
  - split; [|done]. by apply (phases_inv_ext st).
  - intros s c Hin (Hs & Hd & Hc & Hi).
    apply list_elem_of_fmap in Hin as ((c' & info) & -> & Hin). simpl.
    apply elem_of_map_to_list in Hin.
    destruct (proj2 (Hi c') (mk_is_Some _ _ Hin)) as [info' Hinfo].
    destruct (close_impl_inv c' info' s Hs Hinfo) as (s' & -> & H1 & E1 & E2 & _ & E3 & _).
    exists s'. split; [done|]. split; [done|]. split; [congruence|]. split; [congruence|].
    intros c0. rewrite E3, lookup_insert_is_Some', <-Hi. split; [|auto].
    intros [<-|]; [eauto|done].
  - exists st'. split; [exact Hrun|]. split; [|done]. split; [done|].
    intros Hf. by rewrite Hf in Hd.
Qed.

Lemma step_inv hw l st :
  manager_inv st → enabled l st →
  ∃ r st', step hw l st = Ok (r, st') ∧ manager_inv st'.
Proof.
  intros Hst He. destruct l as [|c id f|timeout| |i|c id o|c]; simpl in *.
  - destruct (create_inv st Hst) as (st' & -> & H & _); [apply He|]. by eexists _, _.
  - destruct (send_inv hw c id f st Hst He) as (st' & -> & H & _). by eexists _, _.
  - destruct (receive_inv timeout st Hst) as (r & st' & -> & H & _). by eexists _, _.
  - destruct (destroy_inv st Hst) as (st' & -> & H & _). by eexists _, _.
  - destruct (mailbox (pool_ st i)) as [|x rest] eqn:Hm; [done|].
    destruct (actor_inv i x rest st Hst Hm) as (st' & -> & H & _). by eexists _, _.
  - eexists _, _. split; [done|]. split; [apply result_inv; [apply Hst|done]|apply Hst].
  - eexists _, _. split; [done|]. split; [apply gone_inv; [apply Hst|apply He..]|apply Hst].
Qed.

(** ** Executions *)

(** A sequence of steps, and the responses delivered on the way. *)
Inductive steps (hw : Z) : manager → list label → list ManagerResponse → manager → Prop :=
  | steps_nil st : steps hw st [] [] st
  | steps_cons st l r st1 ls rs st2 :
      enabled l st → step hw l st = Ok (r, st1) → steps hw st1 ls rs st2 →
      steps hw st (l :: ls) (option_list r ++ rs) st2.

Lemma steps_inv hw st ls rs st' : steps hw st ls rs st' → manager_inv st → manager_inv st'.
Proof.
  induction 1 as [|st l r st1 ls rs st2 He Hs _ IH]; [done|]. intros Hst.
  destruct (step_inv hw l st Hst He) as (r' & st1' & Hs' & H1). rewrite Hs in Hs'.
  simplify_eq. by apply IH.
Qed.

(** An execution: a client is created and used, closes, is destroyed and reported. *)
Definition example_labels : list label :=
  [LCreate; LSend 1 1 (getChatHistory 0 0 0 0 false); LActor 0; LActor 0;
   LResult 1 0 (updateAuthorizationState authorizationStateClosed); LReceive false;
   LActor 0; LGone 1; LReceive false].
Definition no_response : ManagerResponse :=
  {| mr_client_id := 0; mr_request_id := 0; mr_object := None |}.

(** Run the next step; [rs] are the responses of the rest. *)
Ltac run_step rs :=
  match goal with
  | |- steps ?hw ?st (?l :: ?ls) _ _ =>
      let x := eval vm_compute in (step hw l st) in
      match x with
      | Ok (?r, ?st1) => apply (steps_cons hw st l r st1 ls rs); [|vm_compute; reflexivity|]
      end
  end.

Definition closed_response : ManagerResponse :=
  {| mr_client_id := 1; mr_request_id := 0;
     mr_object := Some (updateAuthorizationState authorizationStateClosed) |}.

Lemma example_run :
  ∃ st, steps 8 mk_manager example_labels ([no_response] ++ closed_response :: []) st.
Proof.
  eexists. unfold example_labels, app. do 5 (run_step [no_response; closed_response]; [by vm_compute|]).
  run_step [closed_response]; [done|]. run_step [closed_response]; [done|].
  run_step [closed_response].
  { split; [by vm_compute|]. intros [i Hi]. destruct i; vm_compute in Hi; done. }
  run_step (@nil ManagerResponse); [done|apply steps_nil].
Qed.

(** C7. No step of any execution fails: whatever the callers send and in whatever order
    callers, actors and instances run, the client a response or closure names is in the
    state the code's checks expect, for every number of threads. *)
Theorem manager_never_fails hw ls rs st l :
  steps hw mk_manager ls rs st → enabled l st → ∃ r st', step hw l st = Ok (r, st').
Proof.
  intros Hs He. destruct (step_inv hw l st) as (r & st' & H & _); [|done|by eexists _, _].
  eapply steps_inv; [exact Hs|]. apply mk_manager_inv.
Qed.

Lemma manager_never_fails_witness :
  ∃ st r st', steps 8 mk_manager example_labels ([no_response] ++ closed_response :: []) st ∧
    step 8 (LReceive true) st = Ok (r, st').
Proof.
  destruct example_run as [st H].
  destruct (manager_never_fails 8 _ _ st (LReceive true) H I) as (r & st' & Hs).
  exists st, r, st'. by split.
Defined.

(** Identifiers only grow, and a step makes no client known but a new one. *)
Definition known_le (st st' : manager) : Prop :=
  current_id_ st ≤ current_id_ st' ∧
  ∀ c, is_Some (impls_ st' !! c) → is_Some (impls_ st !! c) ∨ current_id_ st ≤ c.

Lemma known_same st st' :
  current_id_ st' = current_id_ st → impls_ st' = impls_ st → known_le st st'.
Proof. intros Ec Ei. split; [lia|]. intros c. rewrite Ei. by left. Qed.

Lemma close_impl_known c st st' : close_impl c st = Ok st' → known_le st st'.
Proof.
  unfold close_impl. destruct (impls_ st !! c) as [[im cl]|] eqn:Hc; [|done]. simpl.
  destruct cl; simpl; [intros [= <-]; by apply known_same|].
  assert (∀ c', is_Some (<[c := {| impl := im; is_closed := true |}]> (impls_ st) !! c') →
    is_Some (impls_ st !! c')) as Hk.
  { intros c'. rewrite lookup_insert_is_Some'. intros [<-|]; eauto. }
  destruct im; intros [= <-]; (split; [simpl; lia|]); intros c' Hc'; left; by apply Hk.
Qed.

Lemma send_known hw c id f st st' : send hw c id f st = Ok st' → known_le st st'.
Proof.
  unfold send. destruct (is_valid_client_id c st); simpl; [|intros [= <-]; by apply known_same].
  set (st1 := match impls_ st !! c with Some _ => _ | None => _ end).
  assert (known_le st st1) as H1.
  { subst st1. destruct (impls_ st !! c) as [info|] eqn:Hc; [|by apply known_same].
    destruct (impl info); [by apply known_same|]. unfold start_client, pool_get.
    set (i := min_element _ _ _).
    destruct (use_count i st =? 0)%nat; (split; [simpl; lia|]); intros c'; simpl;
      rewrite lookup_insert_is_Some'; intros [<-|]; left; eauto. }
  destruct (impls_ st1 !! c) as [info|]; [destruct (is_closed info)|].
  - by intros [= <-].
  - intros H. outcome_inv. by subst st'.
  - by intros [= <-].
Qed.

Lemma receive_known timeout st r st' : manager_receive timeout st = Ok (r, st') → known_le st st'.
Proof.
  unfold manager_receive. intros H. apply bind_Ok in H as ([o rc] & _ & H).
  apply bind_Ok in H as ([x st1] & H1 & H).
  assert (known_le st st1) as Hle.
  { destruct (_ && is_closed_update _).
    - apply bind_Ok in H1 as (st2 & H2 & H1). injection H1 as _ <-.
      by apply close_impl_known in H2.
    - injection H1 as _ <-. by apply known_same. }
  destruct (_ && _ && _); [|by injection H as _ <-].
  destruct (impls_ st1 !! _) as [info|]; [|done]. apply bind_Ok in H as (u & _ & H).
  injection H as _ <-. destruct Hle as [Hc Hk]. split; [done|]. intros c Hc'. apply Hk. simpl in Hc'.
  destruct Hc' as [i Hi]. apply lookup_delete_Some in Hi as [_ Hi]. eauto.
Qed.

Lemma step_known hw l st r st' :
  manager_inv st → enabled l st → step hw l st = Ok (r, st') → known_le st st'.
Proof.
  intros Hst He Hs. destruct l as [|c id f|timeout| |i|c id o|c]; simpl in Hs, He.
  - destruct (create_inv st Hst) as (st1 & Hc & _ & Ec); [apply He|]. rewrite Hc in Hs.
    injection Hs as _ <-. split; [lia|]. intros c Hc'.
    assert (impls_ st1 = impls_ st ∨ impls_ st1 =
      <[current_id_ st := {| impl := None; is_closed := false |}]> (impls_ st)) as [E|E].
    { revert Hc. unfold create_client_id, create_id. intros Hc. outcome_inv. simplify_eq. simpl.
      pose proof (inv_ids _ (proj1 Hst)). rewrite i32_small by (unfold in_int, INT_MIN; lia).
      destruct (impls_ st !! current_id_ st); [by left|by right]. }
    + rewrite E in Hc'. by left.
    + rewrite E in Hc'. apply lookup_insert_is_Some' in Hc' as [<-|]; [right; lia|by left].
  - apply bind_Ok in Hs as (st1 & Hc & Hs). injection Hs as _ <-. by eapply send_known.
  - apply bind_Ok in Hs as ([r1 st1] & Hc & Hs). injection Hs as _ <-. by eapply receive_known.
  - destruct (destroy_inv st Hst) as (st1 & Hc & _ & Ec & Hk). rewrite Hc in Hs.
    injection Hs as _ <-. split; [lia|]. intros c Hc'. left. by apply Hk.
  - destruct (mailbox (pool_ st i)) as [|x rest] eqn:Hm; [injection Hs as _ <-; by apply known_same|].
    destruct (actor_inv i x rest st Hst Hm) as (st1 & Hc & _ & Ei & Ec). rewrite Hc in Hs.
    injection Hs as _ <-. by apply known_same.
  - injection Hs as _ <-. by apply known_same.
  - injection Hs as _ <-. by apply known_same.
Qed.

(** A client that was closed and released. *)
Definition released (c : Z) (st : manager) : Prop := c < current_id_ st ∧ impls_ st !! c = None.

Lemma released_step c st st' : known_le st st' → released c st → released c st'.
Proof.
  intros [Hc Hk] [Hlt Hn]. split; [lia|]. apply eq_None_not_Some. intros Hs.
  destruct (Hk c Hs) as [[i Hi]|]; [congruence|lia].
Qed.

(** Only a known client is reported closed, and the report releases it. *)
Lemma step_final hw l st r st' c :
  manager_inv st → step hw l st = Ok (Some r, st') → final_response c r →
  is_Some (impls_ st !! c) ∧ released c st'.
Proof.
  intros Hst Hs Hf. destruct l as [|c' id f|timeout| |i|c' id o|c']; simpl in Hs;
    try done.
  - apply bind_Ok in Hs as ([? ?] & _ & Hs). done.
  - apply bind_Ok in Hs as (? & _ & Hs). done.
  - apply bind_Ok in Hs as ([r1 st1] & Hrun & Hs). injection Hs as -> ->.
    destruct (receive_inv timeout st Hst) as (r' & st1 & Hrun' & H1 & Ec & Hfin).
    rewrite Hrun in Hrun'. injection Hrun' as <- <-. destruct (Hfin c Hf) as [Hk Hn].
    split; [done|]. split; [|done]. rewrite Ec. by apply (inv_known _ (proj1 Hst)).
  - apply bind_Ok in Hs as (? & _ & Hs). done.
  - destruct (mailbox _); [done|]. apply bind_Ok in Hs as (? & _ & Hs). done.
Qed.

Lemma released_no_final hw st ls rs st' c :
  steps hw st ls rs st' → manager_inv st → released c st →
  Forall (λ r, ¬ final_response c r) rs ∧ released c st'.
Proof.
  induction 1 as [|st l r st1 ls rs st2 He Hs _ IH]; intros Hst Hr; [by split; [constructor|]|].
  destruct (step_inv hw l st Hst He) as (r' & st1' & Hs' & H1). rewrite Hs in Hs'.
  injection Hs' as <- <-.
  pose proof (step_known hw l st r st1 Hst He Hs) as Hle.
  destruct (IH H1 (released_step c st st1 Hle Hr)) as [Hrs Hr2].
  split; [|done]. apply Forall_app. split; [|done]. destruct r as [r|]; [|constructor].
  constructor; [|constructor]. intros Hf.
  destruct (step_final hw l st r st1 c Hst Hs Hf) as [[i Hi] _]. destruct Hr as [_ Hr]. congruence.
Qed.

(** A client is reported closed at most once, and by then nothing of it is left: no
    closure for it is under way, no instance owns or runs it, none of its last
    responses is queued, and it stays unknown to the manager. *)
Lemma closed_once_helper hw st rs1 r rs2 ls st' c :
  steps hw st ls (rs1 ++ r :: rs2) st' → manager_inv st → final_response c r →
  Forall (λ r', ¬ final_response c r') rs2 ∧ released c st' ∧ c ∉ alive st' ∧ ¬ owned c st' ∧
  marks c st' = [].
Proof.
  intros H Hst Hf.
  assert (Forall (λ r', ¬ final_response c r') rs2 ∧ released c st') as [H1 H2].
  { remember (rs1 ++ r :: rs2) as rs eqn:Hrs. revert rs1 Hrs.
    induction H as [|st l r0 st1 ls rs st2 He Hs Hss IH]; intros rs1 Hrs; [by destruct rs1|].
    destruct (step_inv hw l st Hst He) as (r' & st1' & Hs' & Hinv). rewrite Hs in Hs'.
    injection Hs' as <- <-. destruct r0 as [r0|]; simpl in Hrs; [|by eapply IH].
    destruct rs1 as [|r1 rs1]; simplify_eq/=; [|by eapply IH].
    apply (released_no_final hw st1 ls rs2 st2 c Hss Hinv).
    by apply (step_final hw l st r st1 c Hst Hs Hf). }
  split; [done|]. split; [done|]. pose proof (steps_inv hw st ls _ st' H Hst) as Hst'.
  pose proof (inv_phase _ (proj1 Hst') c) as Hp. unfold client_phase in Hp.
  destruct H2 as [_ Hn]. rewrite Hn in Hp. inversion Hp as [b o Hb Ho E1 E2 E3 E4 E5| | | | |]; subst.
  split; [by apply (bool_decide_eq_false_1 (c ∈ alive st'))|]. split; [|done].
  intros [i Hi]. specialize (Ho i). unfold own in Ho. by apply bool_decide_eq_false in Ho.
Qed.

(** C28. A client is reported closed at most once, and by then nothing of it is left: no
    instance of it exists or is owned, and no later execution reports it again. *)
Theorem client_closes_once hw ls rs1 r rs2 st c :
  steps hw mk_manager ls (rs1 ++ r :: rs2) st → final_response c r →
  Forall (λ r', ¬ final_response c r') rs2 ∧ impls_ st !! c = None ∧ c ∉ alive st ∧ ¬ owned c st.
Proof.
  intros H Hf. destruct (closed_once_helper hw _ rs1 r rs2 ls st c H mk_manager_inv Hf)
    as (H1 & [_ H2] & H3 & H4 & _). done.
Qed.

Lemma client_closes_once_witness :
  ∃ st, steps 8 mk_manager example_labels ([no_response] ++ closed_response :: []) st ∧
    impls_ st !! 1 = None ∧ 1 ∉ alive st ∧ ¬ owned 1 st.
Proof.
  destruct example_run as [st H]. exists st. split; [exact H|].
  assert (final_response 1 closed_response) as Hf by (unfold final_response; done).
  exact (proj2 (client_closes_once 8 _ _ _ _ st 1 H Hf)).
Defined.
