(* ===== verification/Crc32.v ===== *)
(** * The checksum that numbers constructors
    ([td/generate/tl-parser/crc32.c])

    The schema compiler of TDLib numbers a constructor by the CRC-32 of its
    line in the scheme. The code reads four bytes per step through four tables;
    here it is proved equal to the bit-by-bit definition. The [ChatList]
    numbers under which [tg.cc] files its chat lists are recomputed with it. *)
From S2P Require Import Prelude TdApi Bytes.

(** ** The tables *)

(** The effect of one byte. *)
Definition crc32_table : list Z := [
  0x00000000; 0x77073096; 0xee0e612c; 0x990951ba;
  0x076dc419; 0x706af48f; 0xe963a535; 0x9e6495a3;
  0x0edb8832; 0x79dcb8a4; 0xe0d5e91e; 0x97d2d988;
  0x09b64c2b; 0x7eb17cbd; 0xe7b82d07; 0x90bf1d91;
  0x1db71064; 0x6ab020f2; 0xf3b97148; 0x84be41de;
  0x1adad47d; 0x6ddde4eb; 0xf4d4b551; 0x83d385c7;
  0x136c9856; 0x646ba8c0; 0xfd62f97a; 0x8a65c9ec;
  0x14015c4f; 0x63066cd9; 0xfa0f3d63; 0x8d080df5;
  0x3b6e20c8; 0x4c69105e; 0xd56041e4; 0xa2677172;
  0x3c03e4d1; 0x4b04d447; 0xd20d85fd; 0xa50ab56b;
  0x35b5a8fa; 0x42b2986c; 0xdbbbc9d6; 0xacbcf940;
  0x32d86ce3; 0x45df5c75; 0xdcd60dcf; 0xabd13d59;
  0x26d930ac; 0x51de003a; 0xc8d75180; 0xbfd06116;
  0x21b4f4b5; 0x56b3c423; 0xcfba9599; 0xb8bda50f;
  0x2802b89e; 0x5f058808; 0xc60cd9b2; 0xb10be924;
  0x2f6f7c87; 0x58684c11; 0xc1611dab; 0xb6662d3d;
  0x76dc4190; 0x01db7106; 0x98d220bc; 0xefd5102a;
  0x71b18589; 0x06b6b51f; 0x9fbfe4a5; 0xe8b8d433;
  0x7807c9a2; 0x0f00f934; 0x9609a88e; 0xe10e9818;
  0x7f6a0dbb; 0x086d3d2d; 0x91646c97; 0xe6635c01;
  0x6b6b51f4; 0x1c6c6162; 0x856530d8; 0xf262004e;
  0x6c0695ed; 0x1b01a57b; 0x8208f4c1; 0xf50fc457;
  0x65b0d9c6; 0x12b7e950; 0x8bbeb8ea; 0xfcb9887c;
  0x62dd1ddf; 0x15da2d49; 0x8cd37cf3; 0xfbd44c65;
  0x4db26158; 0x3ab551ce; 0xa3bc0074; 0xd4bb30e2;
  0x4adfa541; 0x3dd895d7; 0xa4d1c46d; 0xd3d6f4fb;
  0x4369e96a; 0x346ed9fc; 0xad678846; 0xda60b8d0;
  0x44042d73; 0x33031de5; 0xaa0a4c5f; 0xdd0d7cc9;
  0x5005713c; 0x270241aa; 0xbe0b1010; 0xc90c2086;
  0x5768b525; 0x206f85b3; 0xb966d409; 0xce61e49f;
  0x5edef90e; 0x29d9c998; 0xb0d09822; 0xc7d7a8b4;
  0x59b33d17; 0x2eb40d81; 0xb7bd5c3b; 0xc0ba6cad;
  0xedb88320; 0x9abfb3b6; 0x03b6e20c; 0x74b1d29a;
  0xead54739; 0x9dd277af; 0x04db2615; 0x73dc1683;
  0xe3630b12; 0x94643b84; 0x0d6d6a3e; 0x7a6a5aa8;
  0xe40ecf0b; 0x9309ff9d; 0x0a00ae27; 0x7d079eb1;
  0xf00f9344; 0x8708a3d2; 0x1e01f268; 0x6906c2fe;
  0xf762575d; 0x806567cb; 0x196c3671; 0x6e6b06e7;
  0xfed41b76; 0x89d32be0; 0x10da7a5a; 0x67dd4acc;
  0xf9b9df6f; 0x8ebeeff9; 0x17b7be43; 0x60b08ed5;
  0xd6d6a3e8; 0xa1d1937e; 0x38d8c2c4; 0x4fdff252;
  0xd1bb67f1; 0xa6bc5767; 0x3fb506dd; 0x48b2364b;
  0xd80d2bda; 0xaf0a1b4c; 0x36034af6; 0x41047a60;
  0xdf60efc3; 0xa867df55; 0x316e8eef; 0x4669be79;
  0xcb61b38c; 0xbc66831a; 0x256fd2a0; 0x5268e236;
  0xcc0c7795; 0xbb0b4703; 0x220216b9; 0x5505262f;
  0xc5ba3bbe; 0xb2bd0b28; 0x2bb45a92; 0x5cb36a04;
  0xc2d7ffa7; 0xb5d0cf31; 0x2cd99e8b; 0x5bdeae1d;
  0x9b64c2b0; 0xec63f226; 0x756aa39c; 0x026d930a;
  0x9c0906a9; 0xeb0e363f; 0x72076785; 0x05005713;
  0x95bf4a82; 0xe2b87a14; 0x7bb12bae; 0x0cb61b38;
  0x92d28e9b; 0xe5d5be0d; 0x7cdcefb7; 0x0bdbdf21;
  0x86d3d2d4; 0xf1d4e242; 0x68ddb3f8; 0x1fda836e;
  0x81be16cd; 0xf6b9265b; 0x6fb077e1; 0x18b74777;
  0x88085ae6; 0xff0f6a70; 0x66063bca; 0x11010b5c;
  0x8f659eff; 0xf862ae69; 0x616bffd3; 0x166ccf45;
  0xa00ae278; 0xd70dd2ee; 0x4e048354; 0x3903b3c2;
  0xa7672661; 0xd06016f7; 0x4969474d; 0x3e6e77db;
  0xaed16a4a; 0xd9d65adc; 0x40df0b66; 0x37d83bf0;
  0xa9bcae53; 0xdebb9ec5; 0x47b2cf7f; 0x30b5ffe9;
  0xbdbdf21c; 0xcabac28a; 0x53b39330; 0x24b4a3a6;
  0xbad03605; 0xcdd70693; 0x54de5729; 0x23d967bf;
  0xb3667a2e; 0xc4614ab8; 0x5d681b02; 0x2a6f2b94;
  0xb40bbe37; 0xc30c8ea1; 0x5a05df1b; 0x2d02ef8d
].

(** The effect of a byte followed by one zero byte. *)
Definition crc32_table2 : list Z := [
  0x00000000; 0x191b3141; 0x32366282; 0x2b2d53c3;
  0x646cc504; 0x7d77f445; 0x565aa786; 0x4f4196c7;
  0xc8d98a08; 0xd1c2bb49; 0xfaefe88a; 0xe3f4d9cb;
  0xacb54f0c; 0xb5ae7e4d; 0x9e832d8e; 0x87981ccf;
  0x4ac21251; 0x53d92310; 0x78f470d3; 0x61ef4192;
  0x2eaed755; 0x37b5e614; 0x1c98b5d7; 0x05838496;
  0x821b9859; 0x9b00a918; 0xb02dfadb; 0xa936cb9a;
  0xe6775d5d; 0xff6c6c1c; 0xd4413fdf; 0xcd5a0e9e;
  0x958424a2; 0x8c9f15e3; 0xa7b24620; 0xbea97761;
  0xf1e8e1a6; 0xe8f3d0e7; 0xc3de8324; 0xdac5b265;
  0x5d5daeaa; 0x44469feb; 0x6f6bcc28; 0x7670fd69;
  0x39316bae; 0x202a5aef; 0x0b07092c; 0x121c386d;
  0xdf4636f3; 0xc65d07b2; 0xed705471; 0xf46b6530;
  0xbb2af3f7; 0xa231c2b6; 0x891c9175; 0x9007a034;
  0x179fbcfb; 0x0e848dba; 0x25a9de79; 0x3cb2ef38;
  0x73f379ff; 0x6ae848be; 0x41c51b7d; 0x58de2a3c;
  0xf0794f05; 0xe9627e44; 0xc24f2d87; 0xdb541cc6;
  0x94158a01; 0x8d0ebb40; 0xa623e883; 0xbf38d9c2;
  0x38a0c50d; 0x21bbf44c; 0x0a96a78f; 0x138d96ce;
  0x5ccc0009; 0x45d73148; 0x6efa628b; 0x77e153ca;
  0xbabb5d54; 0xa3a06c15; 0x888d3fd6; 0x91960e97;
  0xded79850; 0xc7cca911; 0xece1fad2; 0xf5facb93;
  0x7262d75c; 0x6b79e61d; 0x4054b5de; 0x594f849f;
  0x160e1258; 0x0f152319; 0x243870da; 0x3d23419b;
  0x65fd6ba7; 0x7ce65ae6; 0x57cb0925; 0x4ed03864;
  0x0191aea3; 0x188a9fe2; 0x33a7cc21; 0x2abcfd60;
  0xad24e1af; 0xb43fd0ee; 0x9f12832d; 0x8609b26c;
  0xc94824ab; 0xd05315ea; 0xfb7e4629; 0xe2657768;
  0x2f3f79f6; 0x362448b7; 0x1d091b74; 0x04122a35;
  0x4b53bcf2; 0x52488db3; 0x7965de70; 0x607eef31;
  0xe7e6f3fe; 0xfefdc2bf; 0xd5d0917c; 0xcccba03d;
  0x838a36fa; 0x9a9107bb; 0xb1bc5478; 0xa8a76539;
  0x3b83984b; 0x2298a90a; 0x09b5fac9; 0x10aecb88;
  0x5fef5d4f; 0x46f46c0e; 0x6dd93fcd; 0x74c20e8c;
  0xf35a1243; 0xea412302; 0xc16c70c1; 0xd8774180;
  0x9736d747; 0x8e2de606; 0xa500b5c5; 0xbc1b8484;
  0x71418a1a; 0x685abb5b; 0x4377e898; 0x5a6cd9d9;
  0x152d4f1e; 0x0c367e5f; 0x271b2d9c; 0x3e001cdd;
  0xb9980012; 0xa0833153; 0x8bae6290; 0x92b553d1;
  0xddf4c516; 0xc4eff457; 0xefc2a794; 0xf6d996d5;
  0xae07bce9; 0xb71c8da8; 0x9c31de6b; 0x852aef2a;
  0xca6b79ed; 0xd37048ac; 0xf85d1b6f; 0xe1462a2e;
  0x66de36e1; 0x7fc507a0; 0x54e85463; 0x4df36522;
  0x02b2f3e5; 0x1ba9c2a4; 0x30849167; 0x299fa026;
  0xe4c5aeb8; 0xfdde9ff9; 0xd6f3cc3a; 0xcfe8fd7b;
  0x80a96bbc; 0x99b25afd; 0xb29f093e; 0xab84387f;
  0x2c1c24b0; 0x350715f1; 0x1e2a4632; 0x07317773;
  0x4870e1b4; 0x516bd0f5; 0x7a468336; 0x635db277;
  0xcbfad74e; 0xd2e1e60f; 0xf9ccb5cc; 0xe0d7848d;
  0xaf96124a; 0xb68d230b; 0x9da070c8; 0x84bb4189;
  0x03235d46; 0x1a386c07; 0x31153fc4; 0x280e0e85;
  0x674f9842; 0x7e54a903; 0x5579fac0; 0x4c62cb81;
  0x8138c51f; 0x9823f45e; 0xb30ea79d; 0xaa1596dc;
  0xe554001b; 0xfc4f315a; 0xd7626299; 0xce7953d8;
  0x49e14f17; 0x50fa7e56; 0x7bd72d95; 0x62cc1cd4;
  0x2d8d8a13; 0x3496bb52; 0x1fbbe891; 0x06a0d9d0;
  0x5e7ef3ec; 0x4765c2ad; 0x6c48916e; 0x7553a02f;
  0x3a1236e8; 0x230907a9; 0x0824546a; 0x113f652b;
  0x96a779e4; 0x8fbc48a5; 0xa4911b66; 0xbd8a2a27;
  0xf2cbbce0; 0xebd08da1; 0xc0fdde62; 0xd9e6ef23;
  0x14bce1bd; 0x0da7d0fc; 0x268a833f; 0x3f91b27e;
  0x70d024b9; 0x69cb15f8; 0x42e6463b; 0x5bfd777a;
  0xdc656bb5; 0xc57e5af4; 0xee530937; 0xf7483876;
  0xb809aeb1; 0xa1129ff0; 0x8a3fcc33; 0x9324fd72
].

(** The effect of a byte followed by two zero bytes. *)
Definition crc32_table1 : list Z := [
  0x00000000; 0x01c26a37; 0x0384d46e; 0x0246be59;
  0x0709a8dc; 0x06cbc2eb; 0x048d7cb2; 0x054f1685;
  0x0e1351b8; 0x0fd13b8f; 0x0d9785d6; 0x0c55efe1;
  0x091af964; 0x08d89353; 0x0a9e2d0a; 0x0b5c473d;
  0x1c26a370; 0x1de4c947; 0x1fa2771e; 0x1e601d29;
  0x1b2f0bac; 0x1aed619b; 0x18abdfc2; 0x1969b5f5;
  0x1235f2c8; 0x13f798ff; 0x11b126a6; 0x10734c91;
  0x153c5a14; 0x14fe3023; 0x16b88e7a; 0x177ae44d;
  0x384d46e0; 0x398f2cd7; 0x3bc9928e; 0x3a0bf8b9;
  0x3f44ee3c; 0x3e86840b; 0x3cc03a52; 0x3d025065;
  0x365e1758; 0x379c7d6f; 0x35dac336; 0x3418a901;
  0x3157bf84; 0x3095d5b3; 0x32d36bea; 0x331101dd;
  0x246be590; 0x25a98fa7; 0x27ef31fe; 0x262d5bc9;
  0x23624d4c; 0x22a0277b; 0x20e69922; 0x2124f315;
  0x2a78b428; 0x2bbade1f; 0x29fc6046; 0x283e0a71;
  0x2d711cf4; 0x2cb376c3; 0x2ef5c89a; 0x2f37a2ad;
  0x709a8dc0; 0x7158e7f7; 0x731e59ae; 0x72dc3399;
  0x7793251c; 0x76514f2b; 0x7417f172; 0x75d59b45;
  0x7e89dc78; 0x7f4bb64f; 0x7d0d0816; 0x7ccf6221;
  0x798074a4; 0x78421e93; 0x7a04a0ca; 0x7bc6cafd;
  0x6cbc2eb0; 0x6d7e4487; 0x6f38fade; 0x6efa90e9;
  0x6bb5866c; 0x6a77ec5b; 0x68315202; 0x69f33835;
  0x62af7f08; 0x636d153f; 0x612bab66; 0x60e9c151;
  0x65a6d7d4; 0x6464bde3; 0x662203ba; 0x67e0698d;
  0x48d7cb20; 0x4915a117; 0x4b531f4e; 0x4a917579;
  0x4fde63fc; 0x4e1c09cb; 0x4c5ab792; 0x4d98dda5;
  0x46c49a98; 0x4706f0af; 0x45404ef6; 0x448224c1;
  0x41cd3244; 0x400f5873; 0x4249e62a; 0x438b8c1d;
  0x54f16850; 0x55330267; 0x5775bc3e; 0x56b7d609;
  0x53f8c08c; 0x523aaabb; 0x507c14e2; 0x51be7ed5;
  0x5ae239e8; 0x5b2053df; 0x5966ed86; 0x58a487b1;
  0x5deb9134; 0x5c29fb03; 0x5e6f455a; 0x5fad2f6d;
  0xe1351b80; 0xe0f771b7; 0xe2b1cfee; 0xe373a5d9;
  0xe63cb35c; 0xe7fed96b; 0xe5b86732; 0xe47a0d05;
  0xef264a38; 0xeee4200f; 0xeca29e56; 0xed60f461;
  0xe82fe2e4; 0xe9ed88d3; 0xebab368a; 0xea695cbd;
  0xfd13b8f0; 0xfcd1d2c7; 0xfe976c9e; 0xff5506a9;
  0xfa1a102c; 0xfbd87a1b; 0xf99ec442; 0xf85cae75;
  0xf300e948; 0xf2c2837f; 0xf0843d26; 0xf1465711;
  0xf4094194; 0xf5cb2ba3; 0xf78d95fa; 0xf64fffcd;
  0xd9785d60; 0xd8ba3757; 0xdafc890e; 0xdb3ee339;
  0xde71f5bc; 0xdfb39f8b; 0xddf521d2; 0xdc374be5;
  0xd76b0cd8; 0xd6a966ef; 0xd4efd8b6; 0xd52db281;
  0xd062a404; 0xd1a0ce33; 0xd3e6706a; 0xd2241a5d;
  0xc55efe10; 0xc49c9427; 0xc6da2a7e; 0xc7184049;
  0xc25756cc; 0xc3953cfb; 0xc1d382a2; 0xc011e895;
  0xcb4dafa8; 0xca8fc59f; 0xc8c97bc6; 0xc90b11f1;
  0xcc440774; 0xcd866d43; 0xcfc0d31a; 0xce02b92d;
  0x91af9640; 0x906dfc77; 0x922b422e; 0x93e92819;
  0x96a63e9c; 0x976454ab; 0x9522eaf2; 0x94e080c5;
  0x9fbcc7f8; 0x9e7eadcf; 0x9c381396; 0x9dfa79a1;
  0x98b56f24; 0x99770513; 0x9b31bb4a; 0x9af3d17d;
  0x8d893530; 0x8c4b5f07; 0x8e0de15e; 0x8fcf8b69;
  0x8a809dec; 0x8b42f7db; 0x89044982; 0x88c623b5;
  0x839a6488; 0x82580ebf; 0x801eb0e6; 0x81dcdad1;
  0x8493cc54; 0x8551a663; 0x8717183a; 0x86d5720d;
  0xa9e2d0a0; 0xa820ba97; 0xaa6604ce; 0xaba46ef9;
  0xaeeb787c; 0xaf29124b; 0xad6fac12; 0xacadc625;
  0xa7f18118; 0xa633eb2f; 0xa4755576; 0xa5b73f41;
  0xa0f829c4; 0xa13a43f3; 0xa37cfdaa; 0xa2be979d;
  0xb5c473d0; 0xb40619e7; 0xb640a7be; 0xb782cd89;
  0xb2cddb0c; 0xb30fb13b; 0xb1490f62; 0xb08b6555;
  0xbbd72268; 0xba15485f; 0xb853f606; 0xb9919c31;
  0xbcde8ab4; 0xbd1ce083; 0xbf5a5eda; 0xbe9834ed
].

(** The effect of a byte followed by three zero bytes. *)
Definition crc32_table0 : list Z := [
  0x00000000; 0xb8bc6765; 0xaa09c88b; 0x12b5afee;
  0x8f629757; 0x37def032; 0x256b5fdc; 0x9dd738b9;
  0xc5b428ef; 0x7d084f8a; 0x6fbde064; 0xd7018701;
  0x4ad6bfb8; 0xf26ad8dd; 0xe0df7733; 0x58631056;
  0x5019579f; 0xe8a530fa; 0xfa109f14; 0x42acf871;
  0xdf7bc0c8; 0x67c7a7ad; 0x75720843; 0xcdce6f26;
  0x95ad7f70; 0x2d111815; 0x3fa4b7fb; 0x8718d09e;
  0x1acfe827; 0xa2738f42; 0xb0c620ac; 0x087a47c9;
  0xa032af3e; 0x188ec85b; 0x0a3b67b5; 0xb28700d0;
  0x2f503869; 0x97ec5f0c; 0x8559f0e2; 0x3de59787;
  0x658687d1; 0xdd3ae0b4; 0xcf8f4f5a; 0x7733283f;
  0xeae41086; 0x525877e3; 0x40edd80d; 0xf851bf68;
  0xf02bf8a1; 0x48979fc4; 0x5a22302a; 0xe29e574f;
  0x7f496ff6; 0xc7f50893; 0xd540a77d; 0x6dfcc018;
  0x359fd04e; 0x8d23b72b; 0x9f9618c5; 0x272a7fa0;
  0xbafd4719; 0x0241207c; 0x10f48f92; 0xa848e8f7;
  0x9b14583d; 0x23a83f58; 0x311d90b6; 0x89a1f7d3;
  0x1476cf6a; 0xaccaa80f; 0xbe7f07e1; 0x06c36084;
  0x5ea070d2; 0xe61c17b7; 0xf4a9b859; 0x4c15df3c;
  0xd1c2e785; 0x697e80e0; 0x7bcb2f0e; 0xc377486b;
  0xcb0d0fa2; 0x73b168c7; 0x6104c729; 0xd9b8a04c;
  0x446f98f5; 0xfcd3ff90; 0xee66507e; 0x56da371b;
  0x0eb9274d; 0xb6054028; 0xa4b0efc6; 0x1c0c88a3;
  0x81dbb01a; 0x3967d77f; 0x2bd27891; 0x936e1ff4;
  0x3b26f703; 0x839a9066; 0x912f3f88; 0x299358ed;
  0xb4446054; 0x0cf80731; 0x1e4da8df; 0xa6f1cfba;
  0xfe92dfec; 0x462eb889; 0x549b1767; 0xec277002;
  0x71f048bb; 0xc94c2fde; 0xdbf98030; 0x6345e755;
  0x6b3fa09c; 0xd383c7f9; 0xc1366817; 0x798a0f72;
  0xe45d37cb; 0x5ce150ae; 0x4e54ff40; 0xf6e89825;
  0xae8b8873; 0x1637ef16; 0x048240f8; 0xbc3e279d;
  0x21e91f24; 0x99557841; 0x8be0d7af; 0x335cb0ca;
  0xed59b63b; 0x55e5d15e; 0x47507eb0; 0xffec19d5;
  0x623b216c; 0xda874609; 0xc832e9e7; 0x708e8e82;
  0x28ed9ed4; 0x9051f9b1; 0x82e4565f; 0x3a58313a;
  0xa78f0983; 0x1f336ee6; 0x0d86c108; 0xb53aa66d;
  0xbd40e1a4; 0x05fc86c1; 0x1749292f; 0xaff54e4a;
  0x322276f3; 0x8a9e1196; 0x982bbe78; 0x2097d91d;
  0x78f4c94b; 0xc048ae2e; 0xd2fd01c0; 0x6a4166a5;
  0xf7965e1c; 0x4f2a3979; 0x5d9f9697; 0xe523f1f2;
  0x4d6b1905; 0xf5d77e60; 0xe762d18e; 0x5fdeb6eb;
  0xc2098e52; 0x7ab5e937; 0x680046d9; 0xd0bc21bc;
  0x88df31ea; 0x3063568f; 0x22d6f961; 0x9a6a9e04;
  0x07bda6bd; 0xbf01c1d8; 0xadb46e36; 0x15080953;
  0x1d724e9a; 0xa5ce29ff; 0xb77b8611; 0x0fc7e174;
  0x9210d9cd; 0x2aacbea8; 0x38191146; 0x80a57623;
  0xd8c66675; 0x607a0110; 0x72cfaefe; 0xca73c99b;
  0x57a4f122; 0xef189647; 0xfdad39a9; 0x45115ecc;
  0x764dee06; 0xcef18963; 0xdc44268d; 0x64f841e8;
  0xf92f7951; 0x41931e34; 0x5326b1da; 0xeb9ad6bf;
  0xb3f9c6e9; 0x0b45a18c; 0x19f00e62; 0xa14c6907;
  0x3c9b51be; 0x842736db; 0x96929935; 0x2e2efe50;
  0x2654b999; 0x9ee8defc; 0x8c5d7112; 0x34e11677;
  0xa9362ece; 0x118a49ab; 0x033fe645; 0xbb838120;
  0xe3e09176; 0x5b5cf613; 0x49e959fd; 0xf1553e98;
  0x6c820621; 0xd43e6144; 0xc68bceaa; 0x7e37a9cf;
  0xd67f4138; 0x6ec3265d; 0x7c7689b3; 0xc4caeed6;
  0x591dd66f; 0xe1a1b10a; 0xf3141ee4; 0x4ba87981;
  0x13cb69d7; 0xab770eb2; 0xb9c2a15c; 0x017ec639;
  0x9ca9fe80; 0x241599e5; 0x36a0360b; 0x8e1c516e;
  0x866616a7; 0x3eda71c2; 0x2c6fde2c; 0x94d3b949;
  0x090481f0; 0xb1b8e695; 0xa30d497b; 0x1bb12e1e;
  0x43d23e48; 0xfb6e592d; 0xe9dbf6c3; 0x516791a6;
  0xccb0a91f; 0x740cce7a; 0x66b96194; 0xde0506f1
].

(** ** The code *)

(** The [int] in memory at [p], on a little-endian machine. *)
Definition le_int (p : list Z) : Z :=
  i32 (Z.lor (nth 0 p 0)
        (Z.lor (Z.shiftl (nth 1 p 0) 8)
          (Z.lor (Z.shiftl (nth 2 p 0) 16) (Z.shiftl (nth 3 p 0) 24)))).

Definition crc_at (t : list Z) (i : Z) : Z := nth (Z.to_nat i) t 0.

Definition DO_ONE (v crc : Z) : Z :=
  let crc := Z.lxor crc (u32 v) in
  Z.lxor
    (Z.lxor
      (Z.lxor (crc_at crc32_table0 (Z.land crc 0xff))
              (crc_at crc32_table1 (Z.shiftr (Z.land crc 0xff00) 8)))
      (crc_at crc32_table2 (Z.shiftr (Z.land crc 0xff0000) 16)))
    (crc_at crc32_table (Z.shiftr crc 24)).

Definition DO_FOUR (p : list Z) (crc : Z) : Z :=
  let crc := DO_ONE (le_int p) crc in
  let crc := DO_ONE (le_int (drop 4 p)) crc in
  let crc := DO_ONE (le_int (drop 8 p)) crc in
  DO_ONE (le_int (drop 12 p)) crc.

(** The body of the loop [for (x = (len >> 5); x > 0; x--)]: the pointer and the
    checksum. *)
Definition block (st : list Z * Z) : list Z * Z :=
  (drop 32 st.1, DO_FOUR (drop 16 st.1) (DO_FOUR st.1 st.2)).

Definition DO_CHAR (q : Z) (crc : Z) : Z :=
  Z.lxor (crc_at crc32_table (Z.land (Z.lxor crc (u32 (schar q))) 0xff))
         (Z.shiftr crc 8).

(** [if (len & b) { body; p += n; }] *)
Definition if_bit (len b : Z) (body : list Z → Z → Z) (n : nat) (st : list Z * Z)
    : list Z * Z :=
  if Z.land len b =? 0 then st else (drop n st.1, body st.1 st.2).

Definition crc32_partial (data : list Z) (crc : Z) : Z :=
  let len := Z.of_nat (length data) in
  let st := Nat.iter (Z.to_nat (Z.shiftr len 5)) block (data, crc) in
  let st := if_bit len 16 DO_FOUR 16 st in
  let st := if_bit len 8
    (λ p crc, DO_ONE (le_int (drop 4 p)) (DO_ONE (le_int p) crc)) 8 st in
  let st := if_bit len 4 (λ p crc, DO_ONE (le_int p) crc) 4 st in
  let st := if_bit len 2
    (λ q crc, DO_CHAR (nth 1 q 0) (DO_CHAR (nth 0 q 0) crc)) 2 st in
  let st := if_bit len 1 (λ q crc, DO_CHAR (nth 0 q 0) crc) 1 st in
  st.2.

Definition compute_crc32 (data : list Z) : Z :=
  Z.lxor (crc32_partial data (u32 (-1))) (u32 (-1)).

(** ** The bit-by-bit definition *)

(** One bit: division by the reflected polynomial [0xedb88320]. *)
Definition crc_bit (c : Z) : Z :=
  if Z.odd c then Z.lxor (Z.shiftr c 1) 0xedb88320 else Z.shiftr c 1.
Definition crc_bits (n : nat) (c : Z) : Z := Nat.iter n crc_bit c.
Definition crc_byte (c b : Z) : Z := crc_bits 8 (Z.lxor c b).
Definition crc_reference (data : list Z) : Z :=
  Z.lxor (foldl crc_byte 0xffffffff data) 0xffffffff.

Example crc32_check :
  compute_crc32 [49; 50; 51; 52; 53; 54; 55; 56; 57] = 0xcbf43926.
Proof. vm_compute. reflexivity. Qed.

(** ** Division bit by bit is linear *)

Lemma crc_bit_lxor a b : crc_bit (Z.lxor a b) = Z.lxor (crc_bit a) (crc_bit b).
Proof.
  unfold crc_bit. rewrite <-!Z.bit0_odd, Z.lxor_spec, Z.shiftr_lxor.
  destruct (Z.testbit a 0), (Z.testbit b 0); simpl; apply Z.bits_inj'; intros i _;
    rewrite !Z.lxor_spec; by repeat destruct (Z.testbit _ _).
Qed.

Lemma crc_bits_lxor n a b : crc_bits n (Z.lxor a b) = Z.lxor (crc_bits n a) (crc_bits n b).
Proof.
  unfold crc_bits. induction n as [|n IH]; simpl; [done|]. by rewrite IH, crc_bit_lxor.
Qed.

Lemma crc_bits_add n m c : crc_bits (n + m) c = crc_bits n (crc_bits m c).
Proof. apply Nat.iter_add. Qed.

(** Zero bits shift out unchanged. *)
Lemma crc_bits_shiftl n c : crc_bits n (Z.shiftl c (Z.of_nat n)) = c.
Proof.
  induction n as [|n IH]; [apply Z.shiftl_0_r|].
  replace (S n) with (n + 1)%nat by lia. rewrite crc_bits_add.
  assert (crc_bits 1 (Z.shiftl c (Z.of_nat (n + 1))) = Z.shiftl c (Z.of_nat n)) as ->; [|done].
  simpl. unfold crc_bit.
  rewrite <-Z.bit0_odd, Z.shiftl_spec_low by lia.
  rewrite Z.shiftr_shiftl_l by lia. f_equal. lia.
Qed.

Lemma split_low_byte c :
  c = Z.lxor (Z.land c 255) (Z.shiftl (Z.shiftr c 8) 8).
Proof.
  apply Z.bits_inj'. intros i Hi. rewrite Z.lxor_spec, Z.land_spec.
  change 255 with (Z.ones 8). rewrite Z.testbit_ones_nonneg by lia.
  rewrite Z.shiftl_spec by lia. destruct (Z.ltb_spec i 8).
  - rewrite (Z.testbit_neg_r _ (i - 8)) by lia. by rewrite andb_true_r, xorb_false_r.
  - rewrite andb_false_r, xorb_false_l, Z.shiftr_spec by lia. f_equal. lia.
Qed.

Lemma crc_bits_split n c :
  crc_bits (n + 8) c = Z.lxor (crc_bits (n + 8) (Z.land c 255)) (crc_bits n (Z.shiftr c 8)).
Proof.
  rewrite (split_low_byte c) at 1. rewrite crc_bits_lxor. f_equal.
  rewrite crc_bits_add. f_equal. apply (crc_bits_shiftl 8).
Qed.

Lemma table_entries t n :
  forallb (λ i, crc_at t i =? crc_bits n i) (seqZ 0 256) = true →
  ∀ i, 0 ≤ i < 256 → crc_at t i = crc_bits n i.
Proof.
  intros Ht i Hi. apply Z.eqb_eq. rewrite forallb_forall in Ht. apply Ht.
  apply list_elem_of_In, elem_of_seqZ. lia.
Qed.

Lemma crc32_table_spec i : 0 ≤ i < 256 → crc_at crc32_table i = crc_bits 8 i.
Proof. apply table_entries. vm_compute. reflexivity. Qed.
Lemma crc32_table2_spec i : 0 ≤ i < 256 → crc_at crc32_table2 i = crc_bits 16 i.
Proof. apply table_entries. vm_compute. reflexivity. Qed.
Lemma crc32_table1_spec i : 0 ≤ i < 256 → crc_at crc32_table1 i = crc_bits 24 i.
Proof. apply table_entries. vm_compute. reflexivity. Qed.
Lemma crc32_table0_spec i : 0 ≤ i < 256 → crc_at crc32_table0 i = crc_bits 32 i.
Proof. apply table_entries. vm_compute. reflexivity. Qed.

Lemma land_255_range c : 0 ≤ Z.land c 255 < 256.
Proof. change 255 with (Z.ones 8). rewrite Z.land_ones by lia. apply Z.mod_pos_bound. lia. Qed.

(** The byte of [crc] that [DO_ONE] masks before it shifts. *)
Lemma masked_byte c k : 0 ≤ k →
  Z.shiftr (Z.land c (Z.shiftl 255 k)) k = Z.land (Z.shiftr c k) 255.
Proof. intros Hk. rewrite Z.shiftr_land, Z.shiftr_shiftl_l by lia. by rewrite Z.sub_diag. Qed.

Definition word32 (c : Z) : Prop := 0 ≤ c < two32.

Lemma DO_ONE_bits v crc : word32 (Z.lxor crc (u32 v)) →
  DO_ONE v crc = crc_bits 32 (Z.lxor crc (u32 v)).
Proof.
  unfold DO_ONE. generalize (Z.lxor crc (u32 v)). clear. intros c Hc.
  change 0xff00 with (Z.shiftl 255 8). change 0xff0000 with (Z.shiftl 255 16).
  rewrite !masked_byte by lia.
  rewrite crc32_table0_spec, crc32_table1_spec, crc32_table2_spec by apply land_255_range.
  rewrite crc32_table_spec.
  2: { unfold word32, two32 in Hc. rewrite Z.shiftr_div_pow2 by lia.
       split; [apply Z.div_pos; lia|apply Z.div_lt_upper_bound; lia]. }
  pose proof (crc_bits_split 24 c) as H4. pose proof (crc_bits_split 16 (Z.shiftr c 8)) as H3.
  pose proof (crc_bits_split 8 (Z.shiftr c 16)) as H2. simpl Nat.add in H2, H3, H4.
  rewrite Z.shiftr_shiftr in H2 by lia. rewrite Z.shiftr_shiftr in H3 by lia.
  change (8 + 8) with 16 in H3. change (16 + 8) with 24 in H2.
  by rewrite H4, H3, H2, !Z.lxor_assoc.
Qed.

Lemma word32_lxor a b : word32 a → word32 b → word32 (Z.lxor a b).
Proof.
  unfold word32. intros Ha Hb. split; [apply Z.lxor_nonneg; lia|].
  destruct (Z.eq_dec (Z.lxor a b) 0) as [->|Hn]; [done|].
  assert (0 < Z.lxor a b) by (assert (0 ≤ Z.lxor a b) by (apply Z.lxor_nonneg; lia); lia).
  change two32 with (2 ^ 32). apply Z.log2_lt_pow2; [done|].
  pose proof (Z.log2_lxor a b ltac:(lia) ltac:(lia)).
  assert (Hl : ∀ x, 0 ≤ x < two32 → Z.log2 x < 32).
  { intros x Hx. destruct (Z.eq_dec x 0) as [->|]; [done|]. apply Z.log2_lt_pow2; [lia|apply Hx]. }
  pose proof (Hl a Ha). pose proof (Hl b Hb). lia.
Qed.

Lemma word32_i32 z : word32 z → u32 (i32 z) = z.
Proof.
  unfold word32, u32, i32, two32. intros Hz.
  rewrite Zminus_mod, Zmod_mod, <-Zminus_mod. rewrite Z.mod_small; lia.
Qed.

(** A group of bytes as one number, the first byte lowest. *)
Fixpoint le_bytes (l : list Z) : Z :=
  match l with
  | [] => 0
  | b :: l => Z.lxor b (Z.shiftl (le_bytes l) 8)
  end.

Lemma foldl_crc_byte l c :
  foldl crc_byte c l = crc_bits (8 * length l) (Z.lxor c (le_bytes l)).
Proof.
  revert c. induction l as [|b l IH]; intros c; [by rewrite Z.lxor_0_r|].
  simpl foldl. rewrite IH. simpl length.
  replace (8 * S (length l))%nat with (8 * length l + 8)%nat by lia.
  rewrite crc_bits_add. f_equal. simpl le_bytes.
  rewrite <-Z.lxor_assoc, crc_bits_lxor. f_equal. symmetry. apply (crc_bits_shiftl 8).
Qed.

Lemma word32_bits z : word32 z ↔ 0 ≤ z ∧ ∀ i, 32 ≤ i → Z.testbit z i = false.
Proof.
  unfold word32. change two32 with (2 ^ 32). split.
  - intros Hz. split; [lia|]. intros i Hi. rewrite <-(Z.mod_small z (2 ^ 32)) by lia.
    by apply Z.mod_pow2_bits_high.
  - intros [Hz Hb]. assert (z = z mod 2 ^ 32) as ->; [|apply Z.mod_pos_bound; lia].
    apply Z.bits_inj'. intros i Hi. destruct (Z.lt_ge_cases i 32).
    + by rewrite Z.mod_pow2_bits_low.
    + rewrite Z.mod_pow2_bits_high by lia. by apply Hb.
Qed.

Lemma word32_byte b : 0 ≤ b < 256 → word32 b.
Proof. unfold word32, two32. lia. Qed.

Lemma lor_disjoint_byte b x : 0 ≤ b < 256 → Z.lor b (Z.shiftl x 8) = Z.lxor b (Z.shiftl x 8).
Proof.
  intros Hb. apply Z.bits_inj'. intros i Hi. rewrite Z.lor_spec, Z.lxor_spec, Z.shiftl_spec by lia.
  destruct (Z.lt_ge_cases i 8).
  - rewrite (Z.testbit_neg_r x) by lia. by destruct (Z.testbit b i).
  - rewrite <-(Z.mod_small b (2 ^ 8)) by (simpl; lia).
    rewrite (Z.mod_pow2_bits_high b 8 i) by lia. by destruct (Z.testbit x (i - 8)).
Qed.

Lemma word32_le_bytes b0 b1 b2 b3 :
  0 ≤ b0 < 256 → 0 ≤ b1 < 256 → 0 ≤ b2 < 256 → 0 ≤ b3 < 256 →
  word32 (le_bytes [b0; b1; b2; b3]).
Proof.
  intros H0 H1 H2 H3. simpl. rewrite Z.shiftl_0_l, Z.lxor_0_r, !Z.shiftl_lxor, !Z.shiftl_shiftl by lia.
  assert (∀ b k, 0 ≤ b < 256 → 0 ≤ k ≤ 24 → word32 (Z.shiftl b k)) as Hs.
  { intros b k Hb Hk. unfold word32, two32. rewrite Z.shiftl_mul_pow2 by lia.
    assert (0 < 2 ^ k ≤ 2 ^ 24) by (split; [lia|apply Z.pow_le_mono_r; lia]).
    change (2 ^ 24) with 16777216 in *. nia. }
  repeat apply word32_lxor; auto using word32_byte with lia; apply Hs; lia.
Qed.

Lemma le_int_bytes b0 b1 b2 b3 rest :
  0 ≤ b0 < 256 → 0 ≤ b1 < 256 → 0 ≤ b2 < 256 → 0 ≤ b3 < 256 →
  u32 (le_int (b0 :: b1 :: b2 :: b3 :: rest)) = le_bytes [b0; b1; b2; b3].
Proof.
  intros H0 H1 H2 H3. pose proof (word32_le_bytes b0 b1 b2 b3 H0 H1 H2 H3) as Hw.
  rewrite <-(word32_i32 _ Hw). unfold le_int. f_equal. f_equal. simpl.
  rewrite Z.shiftl_0_l, Z.lxor_0_r.
  change 24 with (8 + 16). change 16 with (8 + 8).
  rewrite <-!Z.shiftl_shiftl, <-!Z.shiftl_lor by lia.
  rewrite !lor_disjoint_byte by done. done.
Qed.

(** ** Each step of the code divides by the bytes it consumes *)

(** [body] consumes the first [n] bytes of [p]. *)
Definition consumes (n : nat) (body : list Z → Z → Z) : Prop :=
  ∀ p crc, (n ≤ length p)%nat → bytes_ok p → word32 crc →
  body p crc = foldl crc_byte crc (take n p) ∧ word32 (body p crc).

Lemma word32_crc_bit c : word32 c → word32 (crc_bit c).
Proof.
  intros Hc. unfold crc_bit.
  assert (word32 (Z.shiftr c 1)).
  { revert Hc. unfold word32, two32. rewrite Z.shiftr_div_pow2 by lia. intros.
    split; [apply Z.div_pos; lia|apply Z.div_lt_upper_bound; lia]. }
  destruct (Z.odd c); [|done]. by apply word32_lxor.
Qed.

Lemma word32_crc_byte c b : word32 c → 0 ≤ b < 256 → word32 (crc_byte c b).
Proof.
  intros Hc Hb. unfold crc_byte, crc_bits. generalize 8%nat. intros n.
  induction n; simpl; [|by apply word32_crc_bit].
  by apply word32_lxor, word32_byte.
Qed.

Lemma word32_foldl l c : word32 c → bytes_ok l → word32 (foldl crc_byte c l).
Proof.
  intros Hc Hl. revert c Hc. induction Hl; intros; simpl; auto using word32_crc_byte.
Qed.

(** Two bodies one after the other. *)
Lemma consumes_seq n m body1 body2 :
  consumes n body1 → consumes m body2 →
  consumes (n + m) (λ p crc, body2 (drop n p) (body1 p crc)).
Proof.
  intros H1 H2 p crc Hp Hok Hw. destruct (H1 p crc) as [E1 W1]; [lia|done|done|].
  destruct (H2 (drop n p) (body1 p crc)) as [E2 W2].
  { rewrite length_drop. lia. }
  { by apply Forall_drop. }
  { done. }
  split; [|done]. rewrite E2, E1, <-foldl_app. f_equal.
  by rewrite take_take_drop.
Qed.

Lemma consumes_DO_ONE : consumes 4 (λ p, DO_ONE (le_int p)).
Proof.
  intros p crc Hp Hok Hw. destruct p as [|b0 [|b1 [|b2 [|b3 p]]]]; simpl in Hp; try lia.
  unfold bytes_ok in Hok. rewrite !Forall_cons in Hok. destruct Hok as (H0 & H1 & H2 & H3 & _).
  pose proof (word32_le_bytes b0 b1 b2 b3 H0 H1 H2 H3).
  rewrite DO_ONE_bits by (rewrite le_int_bytes by done; by apply word32_lxor).
  rewrite le_int_bytes by done.
  assert (crc_bits 32 (Z.lxor crc (le_bytes [b0; b1; b2; b3]))
    = foldl crc_byte crc (take 4 (b0 :: b1 :: b2 :: b3 :: p))) as ->.
  { by rewrite foldl_crc_byte. }
  split; [done|]. apply word32_foldl; [done|].
  simpl take. unfold bytes_ok. rewrite !Forall_cons, Forall_nil. done.
Qed.

Lemma consumes_DO_CHAR : consumes 1 (λ q, DO_CHAR (nth 0 q 0)).
Proof.
  intros p crc Hp Hok Hw. destruct p as [|b p]; simpl in Hp; [lia|]. simpl nth.
  apply Forall_cons in Hok as [Hb _]. simpl.
  assert (DO_CHAR b crc = crc_byte crc b) as ->; [|split; [done|by apply word32_crc_byte]].
  unfold DO_CHAR, crc_byte. pose proof (crc_bits_split 0 (Z.lxor crc b)) as Hs.
  simpl Nat.add in Hs. rewrite Hs. rewrite crc32_table_spec by apply land_255_range.
  f_equal.
  - f_equal. rewrite !land_lxor. f_equal.
    change 255 with (Z.ones 8). rewrite !Z.land_ones by lia. unfold u32, schar, two32.
    change (2 ^ 8) with 256. Z.to_euclidean_division_equations. lia.
  - simpl. rewrite Z.shiftr_lxor. rewrite (Z.shiftr_div_pow2 b) by lia.
    rewrite Z.div_small by done. by rewrite Z.lxor_0_r.
Qed.

Lemma consumes_ext n body body' :
  (∀ p crc, body p crc = body' p crc) → consumes n body → consumes n body'.
Proof. intros Hb H p crc ???. rewrite <-Hb. by apply H. Qed.

Lemma consumes_DO_FOUR : consumes 16 DO_FOUR.
Proof.
  pose proof (consumes_seq 4 4 _ _ consumes_DO_ONE consumes_DO_ONE) as H8.
  eapply consumes_ext; [|exact (consumes_seq 8 8 _ _ H8 H8)].
  intros p crc. unfold DO_FOUR. by rewrite drop_drop.
Qed.

(** What is left to divide by. *)
Definition left_over (st : list Z * Z) : Z := foldl crc_byte st.2 st.1.
Definition crc_state (len : nat) (st : list Z * Z) : Prop :=
  length st.1 = len ∧ bytes_ok st.1 ∧ word32 st.2.

Lemma consume_step n body len p crc :
  consumes n body → crc_state (n + len) (p, crc) →
  crc_state len (drop n p, body p crc) ∧
  left_over (drop n p, body p crc) = left_over (p, crc).
Proof.
  intros Hb (Hl & Hok & Hw). simpl in Hl.
  destruct (Hb p crc) as [E W]; [lia|done|done|].
  unfold crc_state, left_over. simpl. split.
  - rewrite length_drop. split; [lia|]. split; [by apply Forall_drop|done].
  - by rewrite E, <-foldl_app, take_drop.
Qed.

Lemma consumes_block : consumes 32 (λ p crc, DO_FOUR (drop 16 p) (DO_FOUR p crc)).
Proof. exact (consumes_seq 16 16 _ _ consumes_DO_FOUR consumes_DO_FOUR). Qed.

Lemma block_spec len st :
  crc_state (32 + len) st → crc_state len (block st) ∧ left_over (block st) = left_over st.
Proof. destruct st as [p crc]. apply (consume_step _ _ len _ _ consumes_block). Qed.

Lemma blocks_spec x len st :
  crc_state (x * 32 + len) st →
  crc_state len (Nat.iter x block st) ∧ left_over (Nat.iter x block st) = left_over st.
Proof.
  revert st. induction x as [|x IH]; intros st Hs; [done|]. rewrite Nat.iter_succ_r.
  apply (block_spec (x * 32 + len)) in Hs as [Hs El].
  apply IH in Hs as [H1 H2]. by rewrite H2.
Qed.

Lemma if_bit_spec len k body n st :
  consumes n body → 0 ≤ k → Z.of_nat n = 2 ^ k →
  crc_state (Z.to_nat (Z.of_nat len mod 2 ^ (k + 1))) st →
  crc_state (Z.to_nat (Z.of_nat len mod 2 ^ k)) (if_bit (Z.of_nat len) (2 ^ k) body n st) ∧
  left_over (if_bit (Z.of_nat len) (2 ^ k) body n st) = left_over st.
Proof.
  intros Hb Hk Hn Hs. unfold if_bit.
  assert (Hbit : Z.of_nat len mod 2 ^ (k + 1)
    = Z.of_nat len mod 2 ^ k + (if Z.testbit (Z.of_nat len) k then 2 ^ k else 0)).
  { pose proof (Z.testbit_spec' (Z.of_nat len) k Hk) as Ht.
    rewrite Z.pow_add_r, Z.pow_1_r by lia. rewrite Z.rem_mul_r by lia.
    rewrite <-Ht. destruct (Z.testbit _ k); simpl; lia. }
  assert (Hland : (Z.land (Z.of_nat len) (2 ^ k) =? 0) = negb (Z.testbit (Z.of_nat len) k)).
  { destruct (Z.testbit (Z.of_nat len) k) eqn:Ht; simpl.
    - apply Z.eqb_neq. intros H0. apply (f_equal (λ z, Z.testbit z k)) in H0.
      rewrite Z.land_spec, Z.pow2_bits_true, Ht, Z.bits_0 in H0 by lia. done.
    - apply Z.eqb_eq. apply Z.bits_inj'. intros i Hi. rewrite Z.land_spec, Z.bits_0.
      rewrite Z.pow2_bits_eqb by lia. destruct (Z.eqb_spec k i) as [<-|]; [by rewrite Ht|].
      apply andb_false_r. }
  rewrite Hland. destruct (Z.testbit (Z.of_nat len) k); simpl; rewrite Hbit in Hs.
  - destruct st as [p crc]. apply (consume_step n body); [done|].
    pose proof (Z.mod_pos_bound (Z.of_nat len) (2 ^ k) ltac:(lia)).
    by replace (n + Z.to_nat (Z.of_nat len mod 2 ^ k))%nat
      with (Z.to_nat (Z.of_nat len mod 2 ^ k + 2 ^ k)) by lia.
  - rewrite Z.add_0_r in Hs. done.
Qed.

(** ** The checksum *)

(** [crc32_partial] continues the bit-by-bit division over all the bytes. *)
Lemma crc32_partial_spec data crc :
  bytes_ok data → word32 crc → crc32_partial data crc = foldl crc_byte crc data.
Proof.
  intros Hok Hw. unfold crc32_partial. set (len := length data).
  rewrite Z.shiftr_div_pow2 by lia.
  destruct (blocks_spec (Z.to_nat (Z.of_nat len / 2 ^ 5))
    (Z.to_nat (Z.of_nat len mod 2 ^ 5)) (data, crc)) as [S5 L5].
  { split; [|done]. simpl. change (2 ^ 5) with 32. fold len.
    pose proof (Z.div_mod (Z.of_nat len) 32). pose proof (Z.mod_pos_bound (Z.of_nat len) 32).
    pose proof (Z.div_pos (Z.of_nat len) 32). lia. }
  set (st := Nat.iter _ _ _) in *. clearbody st.
  destruct (if_bit_spec len 4 _ 16 _ consumes_DO_FOUR ltac:(lia) eq_refl S5) as [S4 L4].
  pose proof (consumes_seq 4 4 _ _ consumes_DO_ONE consumes_DO_ONE) as H8.
  destruct (if_bit_spec len 3 _ 8 _ H8 ltac:(lia) eq_refl S4) as [S3 L3].
  destruct (if_bit_spec len 2 _ 4 _ consumes_DO_ONE ltac:(lia) eq_refl S3) as [S2 L2].
  assert (H2 : consumes 2 (λ q crc, DO_CHAR (nth 1 q 0) (DO_CHAR (nth 0 q 0) crc))).
  { eapply consumes_ext; [|exact (consumes_seq 1 1 _ _ consumes_DO_CHAR consumes_DO_CHAR)].
    intros p c. simpl. by destruct p. }
  destruct (if_bit_spec len 1 _ 2 _ H2 ltac:(lia) eq_refl S2) as [S1 L1].
  destruct (if_bit_spec len 0 _ 1 _ consumes_DO_CHAR ltac:(lia) eq_refl S1) as [S0 L0].
  rewrite L1, L2, L3, L4, L5 in L0. change (2 ^ 4) with 16 in *. change (2 ^ 3) with 8 in *.
  change (2 ^ 2) with 4 in *. change (2 ^ 1) with 2 in *. change (2 ^ 0) with 1 in *.
  etrans; [|exact L0]. unfold left_over.
  destruct S0 as [Hlen _]. rewrite Z.mod_1_r in Hlen. apply nil_length_inv in Hlen.
  by rewrite Hlen.
Qed.

(** C35. The checksum the schema compiler computes, four bytes at a time through four
    tables, is the CRC-32 defined bit by bit, for every string of bytes. *)
Theorem compute_crc32_is_crc32 data :
  bytes_ok data → compute_crc32 data = crc_reference data.
Proof. intros Hok. unfold compute_crc32. by rewrite crc32_partial_spec. Qed.

Lemma compute_crc32_is_crc32_witness :
  compute_crc32 [97; 98; 99; 100; 101] = crc_reference [97; 98; 99; 100; 101].
Proof.
  apply (compute_crc32_is_crc32 [97; 98; 99; 100; 101]).
  repeat constructor; discriminate.
Defined.

(** ** The numbers of the chat lists *)

(** The lines of [td_api.tl] that declare the three chat lists. *)
Definition chatList_line (l : ChatList) : string :=
  match l with
  | chatListMain => "chatListMain = ChatList"
  | chatListArchive => "chatListArchive = ChatList"
  | chatListFolder _ => "chatListFolder chat_folder_id:int32 = ChatList"
  end.

(** The number under which the client files a chat list is the checksum of the
    line of the scheme that declares it: the three kinds get three numbers, and all
    folders share one. *)
Theorem chat_list_ids_are_checksums (l : ChatList) :
  @list_get_id scheme_ids l
  = i32 (compute_crc32 (string_bytes (chatList_line l))).
Proof. destruct l; vm_compute; reflexivity. Qed.
