(* ===== verification/MessageId.v ===== *)
(** * Message identifiers ([td/telegram/MessageId.h], [MessageId.cpp])

    The 64-bit identifiers by which TDLib names messages and which the client puts into
    [getChatHistory]: three kinds share one order, with the kind in the low bits.
    Printing and the conversions from objects of the server API are not modelled. *)
From S2P Require Import Prelude Bytes TlParsers.

Inductive MessageType := MT_None | MT_Server | MT_YetUnsent | MT_Local.
#[global] Instance MessageType_eq_dec : EqDecision MessageType.
Proof. solve_decision. Defined.
(** [static_cast<int32>(type)] *)
Definition type_number (t : MessageType) : Z :=
  match t with MT_None => 0 | MT_Server => 1 | MT_YetUnsent => 2 | MT_Local => 3 end.

Definition SERVER_ID_SHIFT : Z := 20.
Definition SHORT_TYPE_MASK : Z := 3.
Definition TYPE_MASK : Z := 7.
Definition FULL_TYPE_MASK : Z := Z.shiftl 1 SERVER_ID_SHIFT - 1.
Definition SCHEDULED_MASK : Z := 4.
Definition TYPE_YET_UNSENT : Z := 1.
Definition TYPE_LOCAL : Z := 2.

(** [a + b] in [int64]. *)
Definition ladd (a b : Z) : outcome Z :=
  let s := a + b in if (s <? - 2 ^ 63) || (2 ^ 63 <=? s) then ub else Ok s.

(** A [MessageId] is its [id]; the default one is 0. *)
Definition server_MessageId (server_message_id : Z) : Z :=
  Z.shiftl server_message_id SERVER_ID_SHIFT.
Definition max_message_id : Z := Z.shiftl INT_MAX SERVER_ID_SHIFT.

Definition is_scheduled (id : Z) : bool := negb (Z.land id SCHEDULED_MASK =? 0).

Definition is_valid (id : Z) : bool :=
  if (id <=? 0) || (max_message_id <? id) then false
  else if Z.land id FULL_TYPE_MASK =? 0 then true
  else
    let type := Z.land id TYPE_MASK in (type =? TYPE_YET_UNSENT) || (type =? TYPE_LOCAL).

Definition is_valid_scheduled (id : Z) : bool :=
  if (id <=? 0) || (Z.shiftl 1 51 <? id) then false
  else
    let type := Z.land id TYPE_MASK in
    (type =? SCHEDULED_MASK) || (type =? Z.lor SCHEDULED_MASK TYPE_YET_UNSENT)
    || (type =? Z.lor SCHEDULED_MASK TYPE_LOCAL).

Definition is_valid_sponsored (id : Z) : bool :=
  if (id <=? max_message_id) || (Z.shiftl 1 51 <? id) then false
  else Z.land id TYPE_MASK =? TYPE_LOCAL.

Definition is_yet_unsent (id : Z) : outcome bool :=
  _ ← cassert (is_valid id || is_scheduled id);
  Ok (Z.land id SHORT_TYPE_MASK =? TYPE_YET_UNSENT).
Definition is_local (id : Z) : outcome bool :=
  _ ← cassert (is_valid id || is_scheduled id);
  Ok (Z.land id SHORT_TYPE_MASK =? TYPE_LOCAL).
Definition is_server (id : Z) : outcome bool :=
  _ ← cassert (is_valid id);
  Ok (Z.land id FULL_TYPE_MASK =? 0).
Definition is_scheduled_server (id : Z) : outcome bool :=
  _ ← cassert (is_valid_scheduled id);
  Ok (Z.land id SHORT_TYPE_MASK =? 0).
Definition is_any_server (id : Z) : outcome bool :=
  if is_scheduled id then is_scheduled_server id else is_server id.

Definition get_type (id : Z) : MessageType :=
  if (id <=? 0) || (Z.shiftl 1 51 <? id) then MT_None
  else if is_scheduled id then
    let t := Z.land id TYPE_MASK in
    if t =? Z.lor SCHEDULED_MASK TYPE_YET_UNSENT then MT_YetUnsent
    else if t =? Z.lor SCHEDULED_MASK TYPE_LOCAL then MT_Local
    else if t =? SCHEDULED_MASK then MT_Server else MT_None
  else if Z.land id FULL_TYPE_MASK =? 0 then MT_Server
  else
    let t := Z.land id TYPE_MASK in
    if t =? TYPE_YET_UNSENT then MT_YetUnsent
    else if t =? TYPE_LOCAL then MT_Local else MT_None.

(** [narrow_cast<int32>] of an [int64]. *)
Definition narrow_cast_long (a : Z) : outcome Z :=
  let r := i32 a in
  _ ← cassert (r =? a); _ ← cassert (Bool.eqb (r <? 0) (a <? 0)); Ok r.

Definition get_server_message_id_force (id : Z) : outcome Z :=
  _ ← cassert (negb (is_scheduled id));
  narrow_cast_long (Z.shiftr id SERVER_ID_SHIFT).
Definition get_server_message_id (id : Z) : outcome Z :=
  b ← (if id =? 0 then Ok true else is_server id);
  _ ← cassert b;
  get_server_message_id_force id.

(** The identifier of a scheduled message; 0 when the arguments are rejected. *)
Definition scheduled_server_id_valid (id : Z) : bool := (0 <? id) && (id <? Z.shiftl 1 18).
Definition scheduled_MessageId (server_message_id send_date : Z) (force : bool) : Z :=
  if send_date <=? Z.shiftl 1 30 then 0
  else if negb (scheduled_server_id_valid server_message_id) && negb force then 0
  else
    Z.lor (Z.lor (Z.shiftl (send_date - Z.shiftl 1 30) 21) (Z.shiftl server_message_id 3))
      SCHEDULED_MASK.

Definition get_scheduled_server_message_id_force (id : Z) : outcome Z :=
  _ ← cassert (is_scheduled id);
  Ok (i32 (Z.land (Z.shiftr id 3) (Z.shiftl 1 18 - 1))).
Definition get_scheduled_server_message_id (id : Z) : outcome Z :=
  b ← is_scheduled_server id;
  _ ← cassert b;
  get_scheduled_server_message_id_force id.
Definition get_scheduled_message_date (id : Z) : outcome Z :=
  _ ← cassert (is_valid_scheduled id);
  iadd (i32 (Z.shiftr id 21)) (Z.shiftl 1 30).

Definition get_prev_server_message_id (id : Z) : outcome Z :=
  _ ← cassert (negb (is_scheduled id));
  Ok (Z.land id (Z.lnot FULL_TYPE_MASK)).
Definition get_next_server_message_id (id : Z) : outcome Z :=
  _ ← cassert (negb (is_scheduled id));
  s ← ladd id FULL_TYPE_MASK;
  Ok (Z.land s (Z.lnot FULL_TYPE_MASK)).

Definition get_next_message_id (id : Z) (type : MessageType) : outcome Z :=
  if is_scheduled id then
    _ ← cassert (is_valid_scheduled id);
    let current_type := get_type id in
    if type_number current_type <? type_number type then
      Ok (id - type_number current_type + type_number type)
    else
      let base_id := Z.land id (Z.lnot TYPE_MASK) + TYPE_MASK + 1 + SCHEDULED_MASK in
      match type with
      | MT_Server => Ok base_id
      | MT_YetUnsent => Ok (base_id + TYPE_YET_UNSENT)
      | MT_Local => Ok (base_id + TYPE_LOCAL)
      | MT_None => Fault AssertFailure
      end
  else
    match type with
    | MT_Server =>
        b ← is_server id;
        if (b : bool) then
          n ← get_server_message_id id; n ← iadd n 1; Ok (server_MessageId n)
        else get_next_server_message_id id
    | MT_YetUnsent =>
        s ← ladd id (TYPE_MASK + 1 - TYPE_YET_UNSENT);
        ladd (Z.land s (Z.lnot TYPE_MASK)) TYPE_YET_UNSENT
    | MT_Local =>
        s ← ladd id (TYPE_MASK + 1 - TYPE_LOCAL);
        ladd (Z.land s (Z.lnot TYPE_MASK)) TYPE_LOCAL
    | MT_None => Fault AssertFailure
    end.

(** The comparison operators require identifiers of one order. *)
Definition id_compare (op : Z → Z → bool) (lhs rhs : Z) : outcome bool :=
  _ ← cassert (Bool.eqb (is_scheduled lhs) (is_scheduled rhs)); Ok (op lhs rhs).
Definition id_lt : Z → Z → outcome bool := id_compare Z.ltb.
Definition id_gt : Z → Z → outcome bool := id_compare Z.gtb.
Definition id_le : Z → Z → outcome bool := id_compare Z.leb.
Definition id_ge : Z → Z → outcome bool := id_compare Z.geb.

(** ** Masks as arithmetic *)

Lemma clear_low x k : 0 ≤ k → Z.land x (Z.lnot (2 ^ k - 1)) = x - x mod 2 ^ k.
Proof.
  intros Hk. rewrite Z.sub_1_r, <-Z.ones_equiv, <-Z.ldiff_land, Z.ldiff_ones_r by lia.
  rewrite Z.shiftr_div_pow2, Z.shiftl_mul_pow2 by lia.
  pose proof (Z.div_mod x (2 ^ k)). lia.
Qed.

Lemma full_type id : Z.land id FULL_TYPE_MASK = id mod 2 ^ 20.
Proof. by apply (land_mask id 20). Qed.
Lemma low_type id : Z.land id TYPE_MASK = id mod 8.
Proof. by apply (land_mask id 3). Qed.
Lemma short_type id : Z.land id SHORT_TYPE_MASK = id mod 4.
Proof. by apply (land_mask id 2). Qed.
Lemma no_full_type id : Z.land id (Z.lnot FULL_TYPE_MASK) = id - id mod 2 ^ 20.
Proof. by apply (clear_low id 20). Qed.
Lemma no_low_type id : Z.land id (Z.lnot TYPE_MASK) = id - id mod 8.
Proof. by apply (clear_low id 3). Qed.

Lemma mod8_cases x :
  x mod 8 = 0 ∨ x mod 8 = 1 ∨ x mod 8 = 2 ∨ x mod 8 = 3 ∨
  x mod 8 = 4 ∨ x mod 8 = 5 ∨ x mod 8 = 6 ∨ x mod 8 = 7.
Proof. pose proof (Z.mod_pos_bound x 8). lia. Qed.

Lemma is_scheduled_eq id : is_scheduled id = (4 <=? id mod 8).
Proof.
  unfold is_scheduled. change SCHEDULED_MASK with (Z.land TYPE_MASK 4).
  rewrite Z.land_assoc, low_type.
  by destruct (mod8_cases id) as [->|[->|[->|[->|[->|[->|[->| ->]]]]]]].
Qed.

(** The arithmetic of the three residues is linear. *)
Lemma mod_full id : ∃ q, id = 8 * q + id mod 8 ∧ id mod 2 ^ 20 = 8 * (q mod 131072) + id mod 8.
Proof.
  exists (id / 8). split; [apply Z.div_mod; lia|].
  change (2 ^ 20) with (8 * 131072). rewrite Z.rem_mul_r by lia. lia.
Qed.

Lemma server_mod id : id mod 2 ^ 20 = 0 → id mod 8 = 0.
Proof.
  intros H. destruct (mod_full id) as (q & _ & Hq). pose proof (Z.mod_pos_bound q 131072).
  pose proof (Z.mod_pos_bound id 8). lia.
Qed.

Ltac id_masks :=
  rewrite ?is_scheduled_eq, ?full_type, ?low_type, ?short_type, ?no_full_type, ?no_low_type.

(** The kinds of identifiers, by their residues. *)
Lemma get_type_ordinary id :
  0 < id ≤ 2 ^ 51 → is_scheduled id = false →
  get_type id =
    if id mod 2 ^ 20 =? 0 then MT_Server
    else if id mod 8 =? 1 then MT_YetUnsent else if id mod 8 =? 2 then MT_Local else MT_None.
Proof.
  intros Hr Hs. unfold get_type. rewrite Hs. id_masks. change (Z.shiftl 1 51) with (2 ^ 51).
  do 2 if_false. done.
Qed.

Lemma get_type_scheduled id :
  0 < id ≤ 2 ^ 51 → is_scheduled id = true →
  get_type id =
    if id mod 8 =? 5 then MT_YetUnsent else if id mod 8 =? 6 then MT_Local
    else if id mod 8 =? 4 then MT_Server else MT_None.
Proof.
  intros Hr Hs. unfold get_type. rewrite Hs. id_masks. change (Z.shiftl 1 51) with (2 ^ 51).
  do 2 if_false. done.
Qed.

Lemma get_type_range id : get_type id ≠ MT_None → 0 < id ≤ 2 ^ 51.
Proof.
  unfold get_type. change (Z.shiftl 1 51) with (2 ^ 51). intros H.
  destruct (id <=? 0) eqn:E1; [done|]. destruct (2 ^ 51 <? id) eqn:E2; [done|]. zbool. lia.
Qed.

Lemma is_valid_iff id :
  is_valid id = true ↔
  0 < id ≤ max_message_id ∧ (id mod 2 ^ 20 = 0 ∨ id mod 8 = 1 ∨ id mod 8 = 2).
Proof.
  unfold is_valid. id_masks. change TYPE_YET_UNSENT with 1. change TYPE_LOCAL with 2.
  destruct ((id <=? 0) || (max_message_id <? id)) eqn:E; zbool; [split; [done|lia]|].
  destruct (id mod 2 ^ 20 =? 0) eqn:E1; zbool; [split; [lia|done]|].
  rewrite orb_true_iff, !Z.eqb_eq. lia.
Qed.

Lemma is_valid_not_scheduled id : is_valid id = true → is_scheduled id = false.
Proof.
  intros [_ H]%is_valid_iff. id_masks. apply Z.leb_gt.
  destruct H as [H|H]; [apply server_mod in H|]; lia.
Qed.

(** ** The properties *)

(** Server identifiers and ordinary identifiers of the server kind correspond. *)
Lemma server_MessageId_spec n :
  0 < n ≤ INT_MAX →
  is_valid (server_MessageId n) = true ∧ is_server (server_MessageId n) = Ok true ∧
  get_server_message_id (server_MessageId n) = Ok n.
Proof.
  intros Hn. unfold server_MessageId. rewrite Z.shiftl_mul_pow2 by done.
  change (2 ^ SERVER_ID_SHIFT) with (2 ^ 20).
  assert (is_valid (n * 2 ^ 20) = true) as Hv.
  { apply is_valid_iff. change max_message_id with (INT_MAX * 2 ^ 20).
    rewrite Z.mod_mul by lia. unfold INT_MAX in *. lia. }
  assert (is_server (n * 2 ^ 20) = Ok true) as Hs.
  { unfold is_server. rewrite Hv. simpl. id_masks. by rewrite Z.mod_mul by lia. }
  split; [done|]. split; [done|]. unfold get_server_message_id. if_false.
  rewrite Hs. simpl. unfold get_server_message_id_force. rewrite is_valid_not_scheduled by done.
  simpl. rewrite Z.shiftr_div_pow2 by done. change (2 ^ SERVER_ID_SHIFT) with (2 ^ 20).
  rewrite Z.div_mul by lia. unfold narrow_cast_long.
  rewrite i32_small by (unfold in_int, INT_MIN; lia). by rewrite Z.eqb_refl, eqb_reflx.
Qed.

(** Rounding to server identifiers: the greatest one not above, and the least one not
    below. *)
Lemma get_prev_server_spec id :
  is_scheduled id = false →
  ∃ p, get_prev_server_message_id id = Ok p ∧ p mod 2 ^ 20 = 0 ∧ p ≤ id < p + 2 ^ 20.
Proof.
  intros Hs. unfold get_prev_server_message_id. rewrite Hs. simpl. id_masks. eexists. split; [done|].
  pose proof (Z.mod_pos_bound id (2 ^ 20)). split; [|lia].
  rewrite Zminus_mod_idemp_r, Z.sub_diag. done.
Qed.

Lemma get_next_server_spec id :
  is_scheduled id = false → 0 ≤ id ≤ 2 ^ 51 →
  ∃ n, get_next_server_message_id id = Ok n ∧ n mod 2 ^ 20 = 0 ∧ id ≤ n < id + 2 ^ 20.
Proof.
  intros Hs Hr. unfold get_next_server_message_id, ladd. rewrite Hs. simpl.
  rewrite (proj2 (orb_false_iff _ _))
    by (rewrite Z.ltb_ge, Z.leb_gt; change FULL_TYPE_MASK with (2 ^ 20 - 1); lia).
  simpl. id_masks. change FULL_TYPE_MASK with (2 ^ 20 - 1). eexists. split; [done|].
  pose proof (Z.mod_pos_bound (id + (2 ^ 20 - 1)) (2 ^ 20)). split; [|lia].
  rewrite Zminus_mod_idemp_r, Z.sub_diag. done.
Qed.

(** A scheduled identifier gives back its send date and its server identifier. *)
Theorem scheduled_MessageId_roundtrip n date force :
  0 < n < 2 ^ 18 → 2 ^ 30 < date ≤ INT_MAX →
  let id := scheduled_MessageId n date force in
  is_valid_scheduled id = true ∧ is_scheduled_server id = Ok true ∧
  get_scheduled_message_date id = Ok date ∧ get_scheduled_server_message_id id = Ok n.
Proof.
  intros Hn Hd. assert (scheduled_MessageId n date force = 8 * ((date - 2 ^ 30) * 2 ^ 18 + n) + 4) as ->.
  { unfold scheduled_MessageId, scheduled_server_id_valid.
    change (Z.shiftl 1 30) with (2 ^ 30). change (Z.shiftl 1 18) with (2 ^ 18).
    if_false. rewrite (proj2 (Z.ltb_lt _ _)) by lia. if_true. simpl.
    replace (Z.shiftl (date - 2 ^ 30) 21) with (Z.shiftl ((date - 2 ^ 30) * 2 ^ 18) 3)
      by (rewrite !Z.shiftl_mul_pow2 by lia; lia).
    rewrite <-Z.shiftl_lor. rewrite (lor_add _ SCHEDULED_MASK 3) by (unfold SCHEDULED_MASK; lia).
    rewrite <-(Z.shiftl_mul_pow2 (date - 2 ^ 30)), lor_add, Z.shiftl_mul_pow2 by lia.
    unfold SCHEDULED_MASK. lia. }
  set (k := (date - 2 ^ 30) * 2 ^ 18 + n). unfold INT_MAX in Hd.
  assert (0 < k < 2 ^ 48) as Hk by (unfold k; lia).
  assert ((8 * k + 4) mod 8 = 4) as E8 by (rewrite Z.add_comm, Z.mul_comm, Z.mod_add by lia; done).
  assert ((8 * k + 4) / 8 = k) as D8
    by (rewrite Z.mul_comm, Z.div_add_l by lia; change (4 / 8) with 0; lia).
  assert (is_valid_scheduled (8 * k + 4) = true) as Hv.
  { unfold is_valid_scheduled. id_masks. rewrite E8. change (Z.shiftl 1 51) with (2 ^ 51).
    do 2 if_false. done. }
  assert (is_scheduled_server (8 * k + 4) = Ok true) as Hs.
  { unfold is_scheduled_server. rewrite Hv. simpl. id_masks.
    replace (8 * k + 4) with ((2 * k + 1) * 4) by lia. by rewrite Z.mod_mul by lia. }
  split; [done|]. split; [done|]. split.
  - unfold get_scheduled_message_date. rewrite Hv. simpl.
    rewrite Z.shiftr_div_pow2 by lia. change (2 ^ 21) with (8 * 2 ^ 18).
    rewrite <-Z.div_div, D8 by lia. unfold k. rewrite Z.div_add_l, Z.div_small, Z.add_0_r by lia.
    rewrite i32_small by (unfold in_int, INT_MIN, INT_MAX; lia). change (Z.shiftl 1 30) with (2 ^ 30).
    rewrite iadd_Ok by (unfold in_int, INT_MIN, INT_MAX; lia). f_equal. lia.
  - unfold get_scheduled_server_message_id. rewrite Hs. simpl.
    unfold get_scheduled_server_message_id_force. rewrite is_scheduled_eq, E8. simpl.
    rewrite Z.shiftr_div_pow2 by lia. change (2 ^ 3) with 8. rewrite D8.
    change (Z.shiftl 1 18 - 1) with (2 ^ 18 - 1). rewrite land_mask by lia.
    unfold k. rewrite Z.add_comm, Z.mod_add, Z.mod_small by lia.
    by rewrite i32_small by (unfold in_int, INT_MIN, INT_MAX; lia).
Qed.

(** The order of the kinds. *)
Definition ordinary_residue (t : MessageType) (id : Z) : Prop :=
  match t with
  | MT_None => False
  | MT_Server => id mod 2 ^ 20 = 0
  | MT_YetUnsent => id mod 8 = 1
  | MT_Local => id mod 8 = 2
  end.

Lemma get_type_residue t id :
  0 < id ≤ 2 ^ 51 → is_scheduled id = false → t ≠ MT_None →
  get_type id = t ↔ ordinary_residue t id.
Proof.
  intros Hr Hs Ht. rewrite get_type_ordinary by done.
  pose proof (server_mod id). destruct (id mod 2 ^ 20 =? 0) eqn:E0; zbool.
  - destruct t; simpl; try done; split; try done; intros; lia.
  - destruct (id mod 8 =? 1) eqn:E1; zbool; [destruct t; simpl; try done; split; try done; lia|].
    destruct (id mod 8 =? 2) eqn:E2; zbool; destruct t; simpl; try done; split; try done; lia.
Qed.

Definition next_of (t : MessageType) (id next : Z) : Prop :=
  get_type next = t ∧ is_scheduled next = is_scheduled id ∧ id < next ∧
  ∀ j, is_scheduled j = is_scheduled id → get_type j = t → id < j → next ≤ j.

Lemma ladd_small a b : - 2 ^ 62 ≤ a ≤ 2 ^ 62 → - 2 ^ 62 ≤ b < 2 ^ 62 → ladd a b = Ok (a + b).
Proof.
  intros Ha Hb. unfold ladd.
  by rewrite (proj2 (orb_false_iff _ _)) by (rewrite Z.ltb_ge, Z.leb_gt; lia).
Qed.

(** A candidate that has the residue of the kind, with no other one before it. *)
Lemma next_ordinary t id next :
  t ≠ MT_None → is_scheduled id = false → 0 < id < next → next ≤ 2 ^ 51 →
  is_scheduled next = false → ordinary_residue t next →
  (∀ j, ordinary_residue t j → id < j → next ≤ j) → next_of t id next.
Proof.
  intros Ht Hs Hlt Hr Hsn Hres Hmin. unfold next_of. rewrite Hs.
  split; [apply get_type_residue; (done || lia)|]. split; [done|]. split; [lia|].
  intros j Hj Htype Hgt. apply Hmin; [|done].
  apply get_type_residue; try done. apply get_type_range. by rewrite Htype.
Qed.

Lemma next_server id :
  is_valid id = true → id < max_message_id →
  ∃ next, get_next_message_id id MT_Server = Ok next ∧ next_of MT_Server id next.
Proof.
  intros Hv Hmax. pose proof (is_valid_not_scheduled id Hv) as Hs.
  pose proof (proj1 (is_valid_iff id) Hv) as [Hr _]. change max_message_id with (2 ^ 51 - 2 ^ 20) in *.
  unfold get_next_message_id, is_server. rewrite Hs, Hv. simpl. id_masks.
  assert (∀ x, x mod 2 ^ 20 = 0 → is_scheduled x = false) as Hsch.
  { intros x Hx. rewrite is_scheduled_eq, server_mod by done. done. }
  destruct (id mod 2 ^ 20 =? 0) eqn:E; zbool.
  - set (n := id / 2 ^ 20). assert (id = server_MessageId n) as Eid.
    { unfold server_MessageId. rewrite Z.shiftl_mul_pow2 by done.
      change (2 ^ SERVER_ID_SHIFT) with (2 ^ 20). subst n. Z.div_mod_to_equations. lia. }
    assert (0 < n < INT_MAX) as Hn by (unfold INT_MAX; subst n; Z.div_mod_to_equations; lia).
    rewrite Eid. destruct (server_MessageId_spec n) as (_ & _ & ->); [lia|]. simpl.
    rewrite iadd_Ok by (unfold in_int, INT_MIN; lia). simpl. eexists. split; [done|].
    rewrite <-Eid. unfold server_MessageId. rewrite Z.shiftl_mul_pow2 by done.
    change (2 ^ SERVER_ID_SHIFT) with (2 ^ 20). unfold INT_MAX in Hn.
    assert (id = n * 2 ^ 20) as Hid by (subst n; Z.div_mod_to_equations; lia).
    assert (((n + 1) * 2 ^ 20) mod 2 ^ 20 = 0) as Hm by (apply Z.mod_mul; lia).
    apply next_ordinary; try done; [lia|lia|by apply Hsch|].
    intros j Hj Hgt. simpl in Hj. Z.div_mod_to_equations. lia.
  - destruct (get_next_server_spec id Hs) as (n & -> & Hm & Hn); [lia|].
    exists n. split; [done|].
    assert (id < n) as Hlt by (destruct (decide (id = n)) as [->|]; [done|lia]).
    apply next_ordinary; try done; [lia|Z.div_mod_to_equations; lia|by apply Hsch|].
    intros j Hj Hgt. simpl in Hj. Z.div_mod_to_equations. lia.
Qed.

Lemma next_residue t r id :
  is_valid id = true → id < max_message_id → 1 ≤ r ≤ 2 → t ≠ MT_None →
  (∀ x, ordinary_residue t x ↔ x mod 8 = r) →
  ∃ next,
    (s ← ladd id (TYPE_MASK + 1 - r); ladd (Z.land s (Z.lnot TYPE_MASK)) r) = Ok next ∧
    next_of t id next.
Proof.
  intros Hv Hmax Hr Ht Hres. pose proof (is_valid_not_scheduled id Hv) as Hs.
  pose proof (proj1 (is_valid_iff id) Hv) as [Hp _]. change max_message_id with (2 ^ 51 - 2 ^ 20) in *.
  change (TYPE_MASK + 1 - r) with (7 + 1 - r). rewrite ladd_small by lia. simpl. id_masks.
  pose proof (Z.mod_pos_bound (id + (7 + 1 - r)) 8). rewrite ladd_small by lia.
  eexists. split; [done|].
  assert ((id + (7 + 1 - r) - (id + (7 + 1 - r)) mod 8 + r) mod 8 = r) as Hm
    by (Z.div_mod_to_equations; lia).
  apply next_ordinary; try done; [lia|lia|rewrite is_scheduled_eq, Hm; apply Z.leb_gt; lia|by apply Hres|].
  intros j Hj%Hres Hgt. Z.div_mod_to_equations. lia.
Qed.

Lemma next_scheduled t id :
  is_valid_scheduled id = true → id + 8 ≤ 2 ^ 51 → t ≠ MT_None → is_scheduled id = true →
  ∃ next, get_next_message_id id t = Ok next ∧ next_of t id next.
Proof.
  intros Hv Hmax Ht Hs. unfold get_next_message_id. rewrite Hs, Hv. simpl.
  assert (0 < id ∧ (id mod 8 = 4 ∨ id mod 8 = 5 ∨ id mod 8 = 6)) as [Hp H8].
  { revert Hv. unfold is_valid_scheduled. id_masks. change (Z.shiftl 1 51) with (2 ^ 51).
    destruct ((id <=? 0) || (2 ^ 51 <? id)) eqn:E; [done|]. zbool.
    rewrite !orb_true_iff, !Z.eqb_eq. change (Z.lor SCHEDULED_MASK TYPE_YET_UNSENT) with 5.
    change (Z.lor SCHEDULED_MASK TYPE_LOCAL) with 6. change SCHEDULED_MASK with 4. lia. }
  id_masks.
  assert (∀ x, 0 < x ≤ 2 ^ 51 → is_scheduled x = true →
    (get_type x = t ↔ x mod 8 = 3 + type_number t)) as Htype.
  { intros x Hx Hsx. rewrite get_type_scheduled by done.
    destruct (x mod 8 =? 5) eqn:E5; zbool; [destruct t; simpl; try done; split; try done; lia|].
    destruct (x mod 8 =? 6) eqn:E6; zbool; [destruct t; simpl; try done; split; try done; lia|].
    destruct (x mod 8 =? 4) eqn:E4; zbool; destruct t; simpl; try done; split; try done; lia. }
  assert (type_number (get_type id) = id mod 8 - 3) as Hid.
  { rewrite get_type_scheduled by (done || lia). by destruct H8 as [->|[->| ->]]. }
  rewrite Hid. assert (1 ≤ type_number t ≤ 3) as Hn by (destruct t; simpl; (done || lia)).
  assert (∀ next, id < next ≤ id + 8 → next mod 8 = 3 + type_number t → next_of t id next) as Hnext.
  { intros next Hlt Hm.
    assert (is_scheduled next = true) as Hsn by (rewrite is_scheduled_eq; apply Z.leb_le; lia).
    unfold next_of. rewrite Hs. split; [apply Htype; (done || lia)|]. split; [done|]. split; [lia|].
    intros j Hj Ej Hgt. apply Htype in Ej; [|by apply get_type_range; rewrite Ej|done].
    Z.div_mod_to_equations. lia. }
  destruct (id mod 8 - 3 <? type_number t) eqn:E; zbool.
  - eexists. split; [done|]. apply Hnext; [lia|]. Z.div_mod_to_equations. lia.
  - exists (id - id mod 8 + 7 + 1 + 4 + (type_number t - 1)). split.
    + destruct t; [done|..]; f_equal; simpl type_number; unfold TYPE_MASK, SCHEDULED_MASK,
        TYPE_YET_UNSENT, TYPE_LOCAL; lia.
    + apply Hnext; [lia|]. Z.div_mod_to_equations. lia.
Qed.

(** The next identifier of a kind is the least one of that kind, in the order of the
    identifier's sort, that is greater: none is skipped, and none is given twice. *)
Theorem get_next_message_id_is_next id t :
  (is_valid id = true ∧ id < max_message_id) ∨ (is_valid_scheduled id = true ∧ id + 8 ≤ 2 ^ 51) →
  t ≠ MT_None →
  ∃ next, get_next_message_id id t = Ok next ∧ next_of t id next.
Proof.
  intros Hid Ht. destruct (is_scheduled id) eqn:Hs.
  - destruct Hid as [[Hv _]|[Hv Hr]]; [|by apply next_scheduled].
    by rewrite is_valid_not_scheduled in Hs.
  - destruct Hid as [[Hv Hmax]|[Hv _]].
    + destruct t; [done|by apply next_server|..]; unfold get_next_message_id; rewrite Hs;
        (apply next_residue; [done|done|done|done|by intros x]).
    + exfalso. revert Hv. unfold is_valid_scheduled. rewrite is_scheduled_eq in Hs. id_masks.
      apply Z.leb_gt in Hs. change (Z.lor SCHEDULED_MASK TYPE_YET_UNSENT) with 5.
      change (Z.lor SCHEDULED_MASK TYPE_LOCAL) with 6. change SCHEDULED_MASK with 4.
      rewrite !(proj2 (Z.eqb_neq _ _)) by lia. by destruct (_ || _).
Qed.

Lemma get_next_message_id_is_next_witness :
  ∃ next, get_next_message_id (7 * 2 ^ 20 + 9) MT_Server = Ok next ∧
    next_of MT_Server (7 * 2 ^ 20 + 9) next.
Proof. apply (get_next_message_id_is_next (7 * 2 ^ 20 + 9) MT_Server); [left; done|done]. Defined.

Lemma scheduled_MessageId_roundtrip_witness :
  get_scheduled_message_date (scheduled_MessageId 17 1800000000 false) = Ok 1800000000.
Proof.
  apply (scheduled_MessageId_roundtrip 17 1800000000 false); unfold INT_MAX; lia.
Defined.
