(* ===== verification/OrderedMessages.v ===== *)
(** * The messages of a chat in order ([td/telegram/OrderedMessage.h], [OrderedMessage.cpp])

    TDLib keeps the identifiers of the messages of a chat that it knows in a treap: a
    search tree by identifier that is a heap by a pseudo-random number. Each message
    says whether the one before and the one after it in the tree are its neighbours in
    the chat too, or whether there is a gap. [get_history] answers [getChatHistory].

    A [unique_ptr] is a tree; a pointer to a message (or to the [unique_ptr] that owns
    it) is the path from the root, and the stack of an iterator, whose entries are the
    messages on such a path, is the path of its last entry, last step first. *)
From S2P Require Import Prelude TlParsers MessageId.

Record OrderedMessage := {
  random_y_ : Z;
  have_previous_ : bool;
  have_next_ : bool;
  message_id_ : Z;
}.

Inductive tree :=
  | Null
  | Node (m : OrderedMessage) (left_ right_ : tree).

Definition set_have_previous (b : bool) (m : OrderedMessage) : OrderedMessage :=
  {| random_y_ := random_y_ m; have_previous_ := b; have_next_ := have_next_ m;
     message_id_ := message_id_ m |}.
Definition set_have_next (b : bool) (m : OrderedMessage) : OrderedMessage :=
  {| random_y_ := random_y_ m; have_previous_ := have_previous_ m; have_next_ := b;
     message_id_ := message_id_ m |}.

(** ** Pointers *)

Inductive side := L | R.
#[global] Instance side_eq_dec : EqDecision side.
Proof. solve_decision. Defined.
Definition opposite (d : side) : side := match d with L => R | R => L end.

Definition child (d : side) (t : tree) : tree :=
  match t with
  | Null => Null
  | Node _ l r => match d with L => l | R => r end
  end.

(** The tree a path leads to; the last step comes first. *)
Fixpoint subtree (t : tree) (path : list side) : tree :=
  match path with [] => t | d :: path => child d (subtree t path) end.

(** [*v = f( *v )] for the [unique_ptr] at a path, the first step first. *)
Fixpoint at_path (path : list side) (f : tree → tree) (t : tree) : tree :=
  match path with
  | [] => f t
  | d :: path =>
      match t with
      | Null => Null
      | Node m l r =>
          match d with
          | L => Node m (at_path path f l) r
          | R => Node m l (at_path path f r)
          end
      end
  end.
Definition assign (v : list side) (f : tree → tree) (t : tree) : tree := at_path (reverse v) f t.

Definition on_message (f : OrderedMessage → OrderedMessage) (t : tree) : tree :=
  match t with Null => Null | Node m l r => Node (f m) l r end.
(** A member of the message at a path is assigned. *)
Definition set_at (v : list side) (f : OrderedMessage → OrderedMessage) : tree → tree :=
  assign v (on_message f).

(** ** Iterators *)

(** The stack of an iterator: [None] is the empty stack. *)
Definition iterator : Type := option (list side).

(** [operator*] *)
Definition it_get (t : tree) (it : iterator) : outcome (option OrderedMessage) :=
  match it with
  | None => Ok None
  | Some stack => match subtree t stack with Null => ub | Node m _ _ => Ok (Some m) end
  end.

(** The loop of the constructor: [last_right] is the stack cut at [last_right_pos]. *)
Fixpoint iterator_loop (root : tree) (message_id : Z) (stack : list side) (last_right : iterator)
    : outcome iterator :=
  match root with
  | Null => Ok last_right
  | Node m l r =>
      b ← id_le (message_id_ m) message_id;
      if (b : bool) then iterator_loop r message_id (R :: stack) (Some stack)
      else iterator_loop l message_id (L :: stack) last_right
  end.

Definition get_iterator (t : tree) (message_id : Z) : outcome iterator :=
  _ ← cassert (negb (is_scheduled message_id));
  iterator_loop t message_id [] None.

(** [operator++] ([d = R]) and [operator--] ([d = L]) are each other's mirror image. *)
Definition has_neighbour (d : side) (m : OrderedMessage) : bool :=
  match d with R => have_next_ m | L => have_previous_ m end.

(** Pop messages until one was entered on the side opposite to [d]. *)
Fixpoint climb (d : side) (stack : list side) : iterator :=
  match stack with
  | [] => None
  | c :: stack => if decide (c = opposite d) then Some stack else climb d stack
  end.

(** Push messages as long as there is a child opposite to [d]. *)
Fixpoint descend (d : side) (cur : tree) (stack : list side) : list side :=
  match cur with
  | Null => stack
  | Node _ l r =>
      match d with
      | R => match l with Null => stack | _ => descend d l (L :: stack) end
      | L => match r with Null => stack | _ => descend d r (R :: stack) end
      end
  end.

Definition move (d : side) (t : tree) (it : iterator) : outcome iterator :=
  match it with
  | None => Ok None
  | Some stack =>
      match subtree t stack with
      | Null => ub
      | Node m l r as cur =>
          if negb (has_neighbour d m) then Ok None
          else
            match child d cur with
            | Null => Ok (climb d stack)
            | next => Ok (Some (descend d next (d :: stack)))
            end
      end
  end.

(** ** Inserting *)

(** [static_cast<int32>(static_cast<uint32>(message_id.get() * 2101234567u))]: the
    64-bit product wraps around. *)
Definition random_y (message_id : Z) : Z := i32 (u32 (i64 (message_id * 2101234567))).

(** The place of a new message: below all messages with at least its number. *)
Fixpoint insert_slot (t : tree) (message_id random_y : Z) (v : list side) : outcome (list side) :=
  match t with
  | Null => Ok v
  | Node m l r =>
      if random_y_ m >=? random_y then
        if message_id_ m <? message_id then insert_slot r message_id random_y (R :: v)
        else if message_id_ m =? message_id then Fault AssertFailure
        else insert_slot l message_id random_y (L :: v)
      else Ok v
  end.

(** The last loop of [insert]: the messages before and after [message_id]. *)
Fixpoint split (cur : tree) (message_id : Z) : tree * tree :=
  match cur with
  | Null => (Null, Null)
  | Node m l r =>
      if message_id_ m <? message_id then
        let (left, right) := split r message_id in (Node m l left, right)
      else
        let (left, right) := split l message_id in (left, Node m right r)
  end.

(** The loop of [auto_attach_message] for the first message after the new one. *)
Fixpoint find_next (cur : tree) (message_id : Z) (stack : list side) (next_message : iterator)
    : outcome iterator :=
  match cur with
  | Null => Ok next_message
  | Node m l r =>
      b ← id_lt (message_id_ m) message_id;
      if (b : bool) then find_next r message_id (R :: stack) next_message
      else find_next l message_id (L :: stack) (Some stack)
  end.

(** A log message is all that depends on this check, which may itself fail. *)
Definition check_between (t : tree) (it : iterator) (message_id : Z) (previous : OrderedMessage)
    : outcome unit :=
  b1 ← is_server message_id;
  if negb b1 then Ok () else
  b2 ← is_server (message_id_ previous);
  if negb (b2 && have_next_ previous) then Ok () else
    it ← move R t it;
    next ← it_get t it;
    next ← match next with Some m => Ok m | None => Fault AssertFailure end;
    _ ← is_server (message_id_ next);
    Ok ().

Definition attach_to_next (message : OrderedMessage) (t : tree)
    : outcome (OrderedMessage * tree) :=
  b ← is_yet_unsent (message_id_ message);
  if (b : bool) then Ok (message, t)
  else
    next ← find_next t (message_id_ message) [] None;
    m ← it_get t next;
    match next, m with
    | Some v, Some m =>
        _ ← cassert (negb (have_previous_ m));
        Ok (set_have_next true message, set_at v (set_have_previous true) t)
    | _, _ => Ok (message, t)
    end.

Definition auto_attach_message (message : OrderedMessage) (last_message_id : Z) (t : tree)
    : outcome (OrderedMessage * tree) :=
  let message_id := message_id_ message in
  it ← get_iterator t message_id;
  previous ← it_get t it;
  match it, previous with
  | Some v, Some p =>
      b ← id_lt (message_id_ p) message_id;
      _ ← cassert b;
      b ← (if have_next_ p then Ok true
           else if is_valid last_message_id then id_ge (message_id_ p) last_message_id
           else Ok false);
      if (b : bool) then
        _ ← check_between t it message_id p;
        Ok (set_have_previous true (set_have_next (have_next_ p) message),
            set_at v (set_have_next true) t)
      else attach_to_next message t
  | _, _ => attach_to_next message t
  end.

(** The connection between the neighbours of a message that is not attached. *)
Definition drop_connection (message_id : Z) (t : tree) : outcome tree :=
  it ← get_iterator t message_id;
  previous ← it_get t it;
  match it, previous with
  | Some v, Some p =>
      if have_next_ p then
        b ← id_lt (message_id_ p) message_id;
        _ ← cassert b;
        it ← move R t it;
        next ← it_get t it;
        match it, next with
        | Some w, Some n =>
            b ← id_gt (message_id_ n) message_id;
            _ ← cassert b;
            Ok (set_at v (set_have_next false) (set_at w (set_have_previous false) t))
        | _, _ => Fault AssertFailure
        end
      else Ok t
  | _, _ => Ok t
  end.

Definition insert (message_id : Z) (auto_attach : bool) (old_last_message_id : Z) (t : tree)
    : outcome tree :=
  let y := random_y message_id in
  v ← insert_slot t message_id y [];
  let message := {| random_y_ := y; have_previous_ := false; have_next_ := false;
                    message_id_ := message_id |} in
  '(message, t) ←
    (if auto_attach then auto_attach_message message old_last_message_id t
     else t ← drop_connection message_id t; Ok (message, t));
  Ok (assign v (λ cur, let (left, right) := split cur message_id in Node message left right) t).

(** ** Erasing *)

Fixpoint erase_slot (t : tree) (message_id : Z) (v : list side) : list side :=
  match t with
  | Null => v
  | Node m l r =>
      if message_id_ m <? message_id then erase_slot r message_id (R :: v)
      else if message_id_ m >? message_id then erase_slot l message_id (L :: v)
      else v
  end.

(** The last loop of [erase]. When one of the trees is used up, it moves the other one
    to its place. *)
Fixpoint merge (left : tree) : tree → tree :=
  fix merge_left (right : tree) : tree :=
    match left, right with
    | Null, _ => right
    | _, Null => left
    | Node ml ll lr, Node mr rl rr =>
        if random_y_ mr >? random_y_ ml then Node mr (merge_left rl) rr
        else Node ml ll (merge lr right)
    end.

(** The neighbour on side [d] of the message at [v] loses its connection to it. *)
Definition disconnect (d : side) (message_id : Z) (v : list side) (t : tree) : outcome tree :=
  it ← get_iterator t message_id;
  _ ← cassert (bool_decide (it = Some v));
  it ← move d t it;
  m ← it_get t it;
  match it, m with
  | Some w, Some _ =>
      Ok (set_at w (match d with L => set_have_next false | R => set_have_previous false end) t)
  | _, _ => Fault AssertFailure
  end.

Definition erase (message_id : Z) (only_from_memory : bool) (t : tree) : outcome tree :=
  let v := erase_slot t message_id [] in
  match subtree t v with
  | Null => Fault AssertFailure
  | Node m _ _ =>
      t ← (if have_previous_ m && (only_from_memory || negb (have_next_ m))
           then disconnect L message_id v t else Ok t);
      t ← (if have_next_ m && (only_from_memory || negb (have_previous_ m))
           then disconnect R message_id v t else Ok t);
      Ok (assign v (λ cur, merge (child L cur) (child R cur)) t)
  end.

(** ** Attaching *)

(** [attach_message_to_previous] ([d = L]) and [attach_message_to_next] ([d = R]). *)
Definition set_neighbour (d : side) (b : bool) : OrderedMessage → OrderedMessage :=
  match d with L => set_have_previous b | R => set_have_next b end.

Definition attach (d : side) (message_id : Z) (t : tree) : outcome tree :=
  _ ← cassert (is_valid message_id);
  it ← get_iterator t message_id;
  m ← it_get t it;
  match it, m with
  | Some v, Some m =>
      _ ← cassert (message_id_ m =? message_id);
      if has_neighbour d m then Ok t
      else
        let t := set_at v (set_neighbour d true) t in
        it ← move d t it;
        n ← it_get t it;
        match it, n with
        | Some w, Some n =>
            if has_neighbour (opposite d) n
            then Ok (set_at v (set_neighbour (opposite d) true) t)
            else Ok (set_at w (set_neighbour (opposite d) true) t)
        | _, _ => Fault AssertFailure
        end
  | _, _ => Fault AssertFailure
  end.
Definition attach_message_to_previous : Z → tree → outcome tree := attach L.
Definition attach_message_to_next : Z → tree → outcome tree := attach R.

(** ** Searching *)

Fixpoint do_find_older_messages (t : tree) (max_message_id : Z) (message_ids : list Z)
    : outcome (list Z) :=
  match t with
  | Null => Ok message_ids
  | Node m l r =>
      message_ids ← do_find_older_messages l max_message_id message_ids;
      b ← id_le (message_id_ m) max_message_id;
      if (b : bool) then
        do_find_older_messages r max_message_id (message_ids ++ [message_id_ m])
      else Ok message_ids
  end.
Definition find_older_messages (t : tree) (max_message_id : Z) : outcome (list Z) :=
  do_find_older_messages t max_message_id [].

Fixpoint do_find_newer_messages (t : tree) (min_message_id : Z) (message_ids : list Z)
    : outcome (list Z) :=
  match t with
  | Null => Ok message_ids
  | Node m l r =>
      b ← id_gt (message_id_ m) min_message_id;
      message_ids ←
        (if (b : bool) then
           message_ids ← do_find_newer_messages l min_message_id message_ids;
           Ok (message_ids ++ [message_id_ m])
         else Ok message_ids);
      do_find_newer_messages r min_message_id message_ids
  end.
Definition find_newer_messages (t : tree) (min_message_id : Z) : outcome (list Z) :=
  do_find_newer_messages t min_message_id [].

Fixpoint do_find_message_by_date (t : tree) (date : Z) (get_message_date : Z → Z) : Z :=
  match t with
  | Null => 0
  | Node m l r =>
      if get_message_date (message_id_ m) >? date
      then do_find_message_by_date l date get_message_date
      else
        let message_id := do_find_message_by_date r date get_message_date in
        if is_valid message_id then message_id else message_id_ m
  end.
Definition find_message_by_date (t : tree) (date : Z) (get_message_date : Z → Z) : Z :=
  do_find_message_by_date t date get_message_date.

Fixpoint do_find_messages_by_date (t : tree) (min_date max_date : Z)
    (get_message_date : Z → Z) (message_ids : list Z) : list Z :=
  match t with
  | Null => message_ids
  | Node m l r =>
      let message_date := get_message_date (message_id_ m) in
      let message_ids :=
        if message_date >=? min_date then
          let message_ids := do_find_messages_by_date l min_date max_date get_message_date message_ids in
          if message_date <=? max_date then message_ids ++ [message_id_ m] else message_ids
        else message_ids in
      if message_date <=? max_date
      then do_find_messages_by_date r min_date max_date get_message_date message_ids
      else message_ids
  end.
Definition find_messages_by_date (t : tree) (min_date max_date : Z) (get_message_date : Z → Z)
    : list Z :=
  do_find_messages_by_date t min_date max_date get_message_date [].

(** The two callbacks share a state. *)
Fixpoint do_traverse_messages {S} (t : tree) (need_scan_older need_scan_newer : Z → S → bool * S)
    (s : S) : S :=
  match t with
  | Null => s
  | Node m l r =>
      let (older, s) := need_scan_older (message_id_ m) s in
      let s := if older then do_traverse_messages l need_scan_older need_scan_newer s else s in
      let (newer, s) := need_scan_newer (message_id_ m) s in
      if newer then do_traverse_messages r need_scan_older need_scan_newer s else s
  end.
Definition traverse_messages {S} (t : tree) (need_scan_older need_scan_newer : Z → S → bool * S)
    : S → S :=
  do_traverse_messages t need_scan_older need_scan_newer.

(** ** [get_history] *)

(** Whether there is a gap at [from_message_id], and where to start; the identifier may
    be raised to the first message. *)
Definition find_start (t : tree) (last_message_id from_message_id offset : Z) (force : bool)
    (it : iterator) : outcome (iterator * Z * bool) :=
  cur ← it_get t it;
  match cur with
  | None =>
      if force && (offset <? 0) && negb (match t with Null => true | _ => false end) then
        let min_message_id :=
          traverse_messages t (λ message_id _, (true, message_id)) (λ _ s, (false, s)) 0 in
        b ← id_gt min_message_id from_message_id;
        _ ← cassert b;
        it ← get_iterator t min_message_id;
        cur ← it_get t it;
        _ ← cassert (match cur with Some _ => true | None => false end);
        Ok (it, min_message_id, false)
      else Ok (it, from_message_id, true)
  | Some m =>
      if negb (message_id_ m =? from_message_id) then
        b ← id_lt (message_id_ m) from_message_id;
        _ ← cassert b;
        gap ← (if have_next_ m then Ok false
               else if last_message_id =? 0 then Ok true
               else id_lt (message_id_ m) last_message_id);
        Ok (it, from_message_id, gap)
      else Ok (it, from_message_id, false)
  end.

(** [while ( *it != nullptr && offset < 0)]: an iteration ends the list or raises
    [offset], so that [- offset] of them are enough. *)
Fixpoint forward_loop (n : nat) (t : tree) (it : iterator) (from_message_id offset : Z)
    : outcome (iterator * Z * Z) :=
  match n with
  | O => Ok (it, from_message_id, offset)
  | S n =>
      cur ← it_get t it;
      match cur with
      | Some _ =>
          if offset <? 0 then
            it ← move R t it;
            cur ← it_get t it;
            match cur with
            | Some m => forward_loop n t it (message_id_ m) (offset + 1)
            | None => forward_loop n t it from_message_id offset
            end
          else Ok (it, from_message_id, offset)
      | None => Ok (it, from_message_id, offset)
      end
  end.

(** The branch of [get_history] that starts at a message. *)
Definition apply_offset (t : tree) (last_message_id from_message_id offset limit : Z)
    (force : bool) (it : iterator) : outcome (iterator * Z * Z * Z) :=
  '(it, from_message_id, have_a_gap) ← find_start t last_message_id from_message_id offset force it;
  let it := if (have_a_gap : bool) then None else it in
  cur ← it_get t it;
  '(it, offset) ←
    match cur with
    | Some m =>
        if message_id_ m =? from_message_id then
          if offset <? 0 then Ok (it, offset + 1)
          else it ← move L t it; Ok (it, offset)
        else Ok (it, offset)
    | None => Ok (it, offset)
    end;
  '(it, from_message_id, offset) ←
    forward_loop (Z.to_nat (- offset)) t it from_message_id offset;
  at_end ←
    (if offset <? 0 then
       b ← (if negb (last_message_id =? 0) then id_ge from_message_id last_message_id
            else Ok false);
       Ok (b || (negb have_a_gap && force))
     else Ok false);
  '(it, offset, limit) ←
    (if (at_end : bool) then
       _ ← cassert (negb have_a_gap);
       limit ← iadd limit offset;
       it ← get_iterator t from_message_id;
       Ok (it, 0, limit)
     else Ok (it, offset, limit));
  let offset := if negb have_a_gap && (offset <? 0) then offset - 1 else offset in
  Ok (it, from_message_id, offset, limit).

(** [while ( *it != nullptr && message_ids.size() < limit)], for [n] further messages. *)
Fixpoint collect (n : nat) (t : tree) (it : iterator) (message_ids : list Z)
    (from_message_id : Z) (from_the_end : bool) : outcome (list Z * Z * bool) :=
  match n with
  | O => Ok (message_ids, from_message_id, from_the_end)
  | S n =>
      cur ← it_get t it;
      match cur with
      | Some m =>
          it ← move L t it;
          collect n t it (message_ids ++ [message_id_ m]) (message_id_ m) false
      | None => Ok (message_ids, from_message_id, from_the_end)
      end
  end.

(** From where [get_history] collects: the iterator, the adjusted arguments, and whether
    this is the end of the history. *)
Definition history_start (t : tree) (last_message_id from_message_id offset limit : Z)
    (force : bool) : outcome (iterator * Z * Z * Z * bool) :=
  it ← get_iterator t from_message_id;
  b ← (if negb (last_message_id =? 0) then id_gt from_message_id last_message_id else Ok false);
  from_the_end ← (if (b : bool) then Ok true else id_ge from_message_id max_message_id);
  if (from_the_end : bool) then
    limit ← iadd limit offset;
    Ok (if last_message_id =? 0 then None else it, from_message_id, 0, limit, from_the_end)
  else
    '(it, from_message_id, offset, limit) ←
      apply_offset t last_message_id from_message_id offset limit force it;
    Ok (it, from_message_id, offset, limit, from_the_end).

(** The messages, and the adjusted [from_message_id], [offset] and [limit]. *)
Definition get_history (t : tree) (last_message_id from_message_id offset limit : Z)
    (force : bool) : outcome (list Z * Z * Z * Z) :=
  _ ← cassert (0 <? limit);
  minus_offset ← iadd 0 (- offset);
  let is_limit_increased := limit =? minus_offset in
  limit ← (if is_limit_increased then iadd limit 1 else Ok limit);
  _ ← cassert ((- limit <? offset) && (offset <=? 0));
  '(it, from_message_id, offset, limit, from_the_end) ←
    history_start t last_message_id from_message_id offset limit force;
  cur ← it_get t it;
  '(message_ids, from_message_id, from_the_end) ←
    (if (match cur with Some _ => true | None => false end) && (offset =? 0)
     then collect (Z.to_nat limit) t it [] from_message_id from_the_end
     else Ok ([], from_message_id, from_the_end));
  let from_message_id := if (from_the_end : bool) then 0 else from_message_id in
  message_ids ←
    (if is_limit_increased && (Z.of_nat (length message_ids) =? limit) then
       match message_ids with [] => ub | _ => Ok (removelast message_ids) end
     else Ok message_ids);
  Ok (message_ids, from_message_id, offset, limit).
