(* ===== verification/OrderedMessagesFacts.v ===== *)
(** * Facts about ordered messages

    The tree stands for the list of its messages in order; a pointer into it for a split
    of this list; iterators move along it. *)
From S2P Require Import Prelude MessageId OrderedMessages.

#[local] Arguments it_get : simpl never.
#[local] Arguments move : simpl never.
#[local] Arguments id_compare : simpl never.

Fixpoint inorder (t : tree) : list OrderedMessage :=
  match t with Null => [] | Node m l r => inorder l ++ m :: inorder r end.

(** ** The messages on either side of a position *)

(** The list in the direction [d]. *)
Definition order (d : side) (t : tree) : list OrderedMessage :=
  match d with R => inorder t | L => reverse (inorder t) end.

Lemma order_node d m l r :
  order d (Node m l r) = order d (child (opposite d) (Node m l r)) ++ m :: order d (child d (Node m l r)).
Proof.
  destruct d; simpl; [|done]. by rewrite reverse_app, reverse_cons, <-app_assoc.
Qed.

(** What lies in direction [d] of the whole tree at a path. *)
Fixpoint beyond (d : side) (t : tree) (path : list side) : list OrderedMessage :=
  match path with
  | [] => []
  | c :: path =>
      if decide (c = d) then beyond d t path
      else
        match subtree t path with
        | Null => []
        | Node m l r => m :: order d (child d (Node m l r))
        end ++ beyond d t path
  end.

(** What lies in direction [d] of the message at a path. *)
Definition rest (d : side) (t : tree) (path : list side) : list OrderedMessage :=
  order d (child d (subtree t path)) ++ beyond d t path.

Definition at_message (t : tree) (path : list side) (m : OrderedMessage) : Prop :=
  ∃ l r, subtree t path = Node m l r.

(** The parents of a path exist. *)
Fixpoint path_ok (t : tree) (path : list side) : Prop :=
  match path with [] => True | _ :: path => path_ok t path ∧ subtree t path ≠ Null end.

Lemma at_path_ok t path : subtree t path ≠ Null → path_ok t path.
Proof.
  induction path as [|d path IH]; simpl; [done|]. intros H.
  assert (subtree t path ≠ Null) as Hp by (intros E; by rewrite E in H). auto.
Qed.

Lemma inorder_context t path :
  path_ok t path →
  inorder t = reverse (beyond L t path) ++ inorder (subtree t path) ++ beyond R t path.
Proof.
  induction path as [|d path IH]; simpl; [by rewrite app_nil_r|].
  intros [Hp Hn]. rewrite (IH Hp). destruct (subtree t path) as [|m l r]; [done|].
  destruct d; simpl.
  - by rewrite <-!app_assoc.
  - rewrite reverse_cons, reverse_app, reverse_involutive. by rewrite <-!app_assoc.
Qed.

(** A pointer and the split of the list it stands for. *)
Definition points (t : tree) (path : list side) (pre : list OrderedMessage) (m : OrderedMessage)
    (post : list OrderedMessage) : Prop :=
  at_message t path m ∧ rest L t path = reverse pre ∧ rest R t path = post.

Lemma at_points t path m : at_message t path m → points t path (reverse (rest L t path)) m (rest R t path).
Proof. intros H. split; [done|]. by rewrite reverse_involutive. Qed.

Lemma points_inorder t path pre m post : points t path pre m post → inorder t = pre ++ m :: post.
Proof.
  intros ((l & r & E) & HL & HR). rewrite <-(reverse_involutive pre), <-HL, <-HR.
  rewrite (inorder_context t path) by (apply at_path_ok; by rewrite E).
  unfold rest. rewrite E. simpl. rewrite reverse_app, reverse_involutive. by rewrite <-!app_assoc.
Qed.

Lemma points_split t path pre m post pre' m' post' :
  points t path pre m post → inorder t = pre' ++ m' :: post' → length pre' = length pre →
  pre' = pre ∧ m' = m ∧ post' = post.
Proof.
  intros H%points_inorder E Hl. rewrite H in E. apply app_inj_1 in E as [-> E]; [|done].
  by simplify_eq.
Qed.

(** ** Moving *)

Lemma descend_spec d cur t stack :
  cur ≠ Null → subtree t stack = cur →
  ∃ m, at_message t (descend d cur stack) m ∧
    order d cur ++ beyond d t stack = m :: rest d t (descend d cur stack).
Proof.
  revert stack. induction cur as [|m l IHl r IHr]; intros stack Hne Hs; [done|].
  assert (∀ u, child (opposite d) (Node m l r) = u → u ≠ Null →
    (∀ stack, u ≠ Null → subtree t stack = u →
      ∃ m, at_message t (descend d u stack) m ∧
        order d u ++ beyond d t stack = m :: rest d t (descend d u stack)) →
    ∃ m', at_message t (descend d u (opposite d :: stack)) m' ∧
      order d (Node m l r) ++ beyond d t stack = m' :: rest d t (descend d u (opposite d :: stack)))
    as Hstep.
  { intros u Hu Hun IH. destruct (IH (opposite d :: stack) Hun) as (m' & Hat & E).
    { simpl. by rewrite Hs. }
    exists m'. split; [done|]. rewrite <-E, order_node, Hu. simpl.
    rewrite decide_False by (by destruct d). rewrite Hs. by rewrite <-!app_assoc. }
  assert (child (opposite d) (Node m l r) = Null →
    ∃ m', at_message t stack m' ∧ order d (Node m l r) ++ beyond d t stack = m' :: rest d t stack) as Hbase.
  { intros Hu. exists m. split; [by eexists _, _|]. rewrite order_node, Hu. unfold rest. rewrite Hs.
    by destruct d. }
  destruct d; simpl descend.
  - destruct r; [by apply Hbase|]. by apply Hstep.
  - destruct l; [by apply Hbase|]. by apply Hstep.
Qed.

Lemma climb_spec d t stack :
  path_ok t stack →
  match climb d stack with
  | None => beyond d t stack = []
  | Some s => ∃ m, at_message t s m ∧ beyond d t stack = m :: rest d t s
  end.
Proof.
  induction stack as [|c stack IH]; simpl; [done|]. intros [Hp Hn].
  destruct (decide (c = opposite d)) as [->|Hc].
  - rewrite decide_False by (by destruct d). destruct (subtree t stack) as [|m l r] eqn:E; [done|].
    exists m. split; [by eexists _, _|]. unfold rest. by rewrite E.
  - rewrite decide_True by (by destruct c, d). by apply IH.
Qed.

(** An iterator moves to the neighbour, or to the end when there is none. *)
Lemma move_spec d t path m :
  at_message t path m → has_neighbour d m = true →
  match rest d t path with
  | [] => move d t (Some path) = Ok None
  | n :: ns => ∃ path', move d t (Some path) = Ok (Some path') ∧ at_message t path' n ∧ rest d t path' = ns
  end.
Proof.
  intros (l & r & E) Hm. unfold move. rewrite E, Hm. cbn [negb]. unfold rest at 1. rewrite E.
  assert (path_ok t path) as Hp by (apply at_path_ok; by rewrite E).
  destruct (child d (Node m l r)) as [|m' l' r'] eqn:Ec.
  - assert (order d Null = []) as -> by (by destruct d). simpl.
    pose proof (climb_spec d t path Hp) as Hc. destruct (climb d path) as [s|].
    + destruct Hc as (n & Hn & ->). eauto.
    + by rewrite Hc.
  - destruct (descend_spec d (Node m' l' r') t (d :: path)) as (n & Hn & En); [done|simpl; by rewrite E|].
    simpl beyond in En. rewrite decide_True in En by done. rewrite En. eauto.
Qed.

Lemma move_end d t path m :
  at_message t path m → has_neighbour d m = false → move d t (Some path) = Ok None.
Proof. intros (l & r & E) Hm. unfold move. by rewrite E, Hm. Qed.

Lemma it_get_at t path m : at_message t path m → it_get t (Some path) = Ok (Some m).
Proof. intros (l & r & E). unfold it_get. by rewrite E. Qed.

Lemma move_next t path pre m post :
  points t path pre m post → have_next_ m = true →
  match post with
  | [] => move R t (Some path) = Ok None
  | n :: post' => ∃ path', move R t (Some path) = Ok (Some path') ∧ points t path' (pre ++ [m]) n post'
  end.
Proof.
  intros Hp Hn. pose proof Hp as (Hat & HL & HR).
  pose proof (move_spec R t path m Hat Hn) as Hm. rewrite HR in Hm.
  destruct post as [|n post]; [done|]. destruct Hm as (path' & Hm & Hat' & Hr). exists path'.
  split; [done|]. pose proof (points_inorder _ _ _ _ _ (at_points t path' n Hat')) as E.
  rewrite (points_inorder _ _ _ _ _ Hp), Hr in E.
  split; [done|]. split; [|done]. apply (inj reverse). rewrite reverse_involutive.
  replace (pre ++ m :: n :: post) with ((pre ++ [m]) ++ n :: post) in E by (by rewrite <-app_assoc).
  by apply app_inv_tail in E.
Qed.

Lemma move_previous t path pre m post :
  points t path pre m post → have_previous_ m = true →
  (pre = [] ∧ move L t (Some path) = Ok None) ∨
  (∃ pre' p path', pre = pre' ++ [p] ∧ move L t (Some path) = Ok (Some path') ∧
     points t path' pre' p (m :: post)).
Proof.
  intros Hp Hn. pose proof Hp as (Hat & HL & HR).
  pose proof (move_spec L t path m Hat Hn) as Hm. rewrite HL in Hm.
  induction pre as [|p pre _] using rev_ind; [by left|]. right.
  rewrite reverse_snoc in Hm. destruct Hm as (path' & Hm & Hat' & Hr). exists pre, p, path'.
  split; [done|]. split; [done|]. pose proof (points_inorder _ _ _ _ _ (at_points t path' p Hat')) as E.
  rewrite (points_inorder _ _ _ _ _ Hp), Hr, reverse_involutive in E.
  rewrite <-app_assoc in E. apply app_inv_head in E. injection E as E. rewrite E. by split.
Qed.

(** ** Assigning *)

Lemma at_path_app p q f t : at_path (p ++ q) f t = at_path p (at_path q f) t.
Proof.
  revert t. induction p as [|d p IH]; intros t; simpl; [done|].
  destruct t as [|m l r]; [done|]. by destruct d; rewrite IH.
Qed.

Lemma assign_cons d v f t : assign (d :: v) f t = assign v (at_path [d] f) t.
Proof. unfold assign. by rewrite reverse_cons, at_path_app. Qed.

Lemma inorder_assign v f t :
  path_ok t v →
  inorder (assign v f t) = reverse (beyond L t v) ++ inorder (f (subtree t v)) ++ beyond R t v.
Proof.
  revert f. induction v as [|d v IH]; intros f; simpl; [by rewrite app_nil_r|].
  intros [Hp Hn]. rewrite assign_cons, IH by done. destruct (subtree t v) as [|m l r]; [done|].
  destruct d; simpl; [by rewrite <-!app_assoc|].
  rewrite reverse_cons, reverse_app, reverse_involutive. by rewrite <-!app_assoc.
Qed.

(** Trees that differ in the connections only: a pointer into one is a pointer into the
    other. *)
Definition same_message (m m' : OrderedMessage) : Prop :=
  random_y_ m' = random_y_ m ∧ message_id_ m' = message_id_ m.

Inductive similar : tree → tree → Prop :=
  | similar_Null : similar Null Null
  | similar_Node m m' l l' r r' :
      same_message m m' → similar l l' → similar r r' → similar (Node m l r) (Node m' l' r').

#[export] Instance similar_reflexive : Reflexive similar.
Proof. intros t. induction t; by constructor. Qed.
#[export] Instance similar_transitive : Transitive similar.
Proof.
  intros t1 t2 t3 H12. revert t3.
  induction H12 as [|m m' l l' r r' [Ey Ei] Hl IHl Hr IHr]; intros t3 H23; inversion H23 as [|? ? ? ? ? ? [Ey' Ei']]; subst.
  - constructor.
  - constructor; [split; congruence|auto|auto].
Qed.

Lemma similar_subtree t t' path : similar t t' → similar (subtree t path) (subtree t' path).
Proof.
  intros H. induction path as [|d path IH]; simpl; [done|].
  destruct IH; simpl; [constructor|]. by destruct d.
Qed.

Lemma similar_length t t' : similar t t' → length (inorder t') = length (inorder t).
Proof. induction 1; simpl; [done|]. rewrite !length_app. simpl. lia. Qed.

Lemma similar_order d t t' : similar t t' → length (order d t') = length (order d t).
Proof. intros H%similar_length. destruct d; simpl; rewrite ?length_reverse; done. Qed.

Lemma similar_beyond d t t' path : similar t t' → length (beyond d t' path) = length (beyond d t path).
Proof.
  intros H. induction path as [|c path IH]; simpl; [done|]. destruct (decide (c = d)); [done|].
  rewrite !length_app, IH. f_equal. destruct (similar_subtree t t' path H) as [|m m' l l' r r' _ Hl Hr]; [done|].
  simpl length. f_equal. apply similar_order. by destruct d.
Qed.

(** A pointer after the connections were changed. *)
Lemma points_similar t t' path pre m post pre' m' post' :
  similar t t' → points t path pre m post → inorder t' = pre' ++ m' :: post' →
  length pre' = length pre → points t' path pre' m' post'.
Proof.
  intros Hs Hp E Hl. pose proof Hp as ((l & r & Em) & HL & HR).
  pose proof (similar_subtree t t' path Hs) as Hsub. rewrite Em in Hsub.
  inversion Hsub as [|? m2 ? l2 ? r2 _ Hl2 Hr2 E1 E2]; subst.
  assert (at_message t' path m2) as Hat by (by eexists _, _).
  pose proof (at_points t' path m2 Hat) as Hp2.
  destruct (points_split _ _ _ _ _ pre' m' post' Hp2 E) as (-> & -> & ->); [|done].
  rewrite Hl, <-(length_reverse pre), <-HL, length_reverse. unfold rest.
  rewrite !length_app, (similar_beyond L t t' path Hs). f_equal. symmetry. apply similar_order. by rewrite Em, <-E2.
Qed.

Lemma at_path_similar v f t : (∀ u, similar u (f u)) → similar t (at_path v f t).
Proof.
  intros Hf. revert t. induction v as [|d v IH]; intros t; simpl; [done|].
  destruct t as [|m l r]; [constructor|]. destruct d; by constructor.
Qed.

Definition keeps_message (f : OrderedMessage → OrderedMessage) : Prop := ∀ m, same_message m (f m).

Lemma keep_have_previous b : keeps_message (set_have_previous b).
Proof. done. Qed.
Lemma keep_have_next b : keeps_message (set_have_next b).
Proof. done. Qed.
Lemma keep_neighbour d b : keeps_message (set_neighbour d b).
Proof. by destruct d. Qed.
#[export] Hint Resolve keep_have_previous keep_have_next keep_neighbour : cpp.

Lemma set_at_spec t v f pre m post :
  keeps_message f → points t v pre m post →
  similar t (set_at v f t) ∧ inorder (set_at v f t) = pre ++ f m :: post ∧
  points (set_at v f t) v pre (f m) post.
Proof.
  intros Hf Hp. assert (similar t (set_at v f t)) as Hs.
  { apply at_path_similar. intros [|m' l r]; simpl; constructor; done. }
  assert (inorder (set_at v f t) = pre ++ f m :: post) as E.
  { destruct Hp as ((l & r & Em) & HL & HR). unfold set_at.
    rewrite inorder_assign by (apply at_path_ok; by rewrite Em). rewrite Em. simpl.
    rewrite <-(reverse_involutive pre), <-HL, <-HR. unfold rest. rewrite Em. simpl.
    rewrite reverse_app, reverse_involutive. by rewrite <-!app_assoc. }
  split; [done|]. split; [done|]. by eapply points_similar.
Qed.

(** ** Search trees *)

Definition ids (xs : list OrderedMessage) : list Z := message_id_ <$> xs.
Definition all_below (id : Z) (xs : list OrderedMessage) : Prop := Forall (λ m, message_id_ m < id) xs.
Definition all_above (id : Z) (xs : list OrderedMessage) : Prop := Forall (λ m, id < message_id_ m) xs.
Definition sorted (xs : list OrderedMessage) : Prop := StronglySorted Z.lt (ids xs).
Definition ordinary (xs : list OrderedMessage) : Prop := Forall (λ m, is_valid (message_id_ m) = true) xs.

Lemma all_ids (P : Z → Prop) xs : Forall P (ids xs) ↔ Forall (λ m, P (message_id_ m)) xs.
Proof. unfold ids. apply Forall_fmap. Qed.

Lemma sorted_mid pre m post :
  sorted (pre ++ m :: post) ↔
  sorted pre ∧ sorted post ∧ all_below (message_id_ m) pre ∧ all_above (message_id_ m) post.
Proof.
  unfold sorted, ids, all_below, all_above. rewrite fmap_app, fmap_cons, StronglySorted_app.
  split.
  - intros (H12 & H1 & H2). apply StronglySorted_cons in H2 as [H3 H2]. rewrite Forall_fmap in H3.
    split; [done|]. split; [done|]. split; [|done]. apply Forall_forall. intros x Hx.
    apply H12; [|left]. by apply list_elem_of_fmap_2.
  - intros (H1 & H2 & Hb & Ha). split; [|split; [done|]].
    + intros x y Hx%list_elem_of_fmap_1 Hy. destruct Hx as (a & -> & Ha1).
      rewrite Forall_forall in Hb. specialize (Hb a Ha1). simpl in Hb. apply elem_of_cons in Hy as [->|Hy]; [done|].
      apply list_elem_of_fmap_1 in Hy as (b & -> & Hb1). rewrite Forall_forall in Ha. specialize (Ha b Hb1). simpl in Ha. lia.
    + apply StronglySorted_cons. split; [|done]. by rewrite Forall_fmap.
Qed.

Lemma all_below_app id xs ys : all_below id (xs ++ ys) ↔ all_below id xs ∧ all_below id ys.
Proof. apply Forall_app. Qed.
Lemma all_above_app id xs ys : all_above id (xs ++ ys) ↔ all_above id xs ∧ all_above id ys.
Proof. apply Forall_app. Qed.
Lemma all_below_weaken id id' xs : id ≤ id' → all_below id xs → all_below id' xs.
Proof. intros Hle H. eapply Forall_impl; [exact H|]. intros m ?. simpl in *. lia. Qed.
Lemma all_above_weaken id id' xs : id' ≤ id → all_above id xs → all_above id' xs.
Proof. intros Hle H. eapply Forall_impl; [exact H|]. intros m ?. simpl in *. lia. Qed.

Lemma compare_valid op m id :
  is_valid (message_id_ m) = true → is_scheduled id = false →
  id_compare op (message_id_ m) id = Ok (op (message_id_ m) id).
Proof.
  intros Hv Hs. unfold id_compare. by rewrite is_valid_not_scheduled, Hs by done.
Qed.

Lemma compare_ids op x y :
  is_scheduled x = false → is_scheduled y = false → id_compare op x y = Ok (op x y).
Proof. intros Hx Hy. unfold id_compare. by rewrite Hx, Hy. Qed.

(** A search: the list is split at the messages that are not above [id]. *)
Definition found (t : tree) (id : Z) (it : iterator) : Prop :=
  match it with
  | None => all_above id (inorder t)
  | Some path => ∃ pre m post, points t path pre m post ∧ message_id_ m ≤ id ∧ all_above id post
  end.

Lemma iterator_loop_spec t id root stack last :
  sorted (inorder t) → ordinary (inorder t) → is_scheduled id = false →
  subtree t stack = root → path_ok t stack → all_above id (beyond R t stack) →
  match last with
  | None => beyond L t stack = []
  | Some s => ∃ m, at_message t s m ∧ message_id_ m ≤ id ∧ rest R t s = inorder root ++ beyond R t stack
  end →
  ∃ it, iterator_loop root id stack last = Ok it ∧ found t id it.
Proof.
  intros Hsort Hord Hs. revert stack last.
  induction root as [|m l IHl r IHr]; intros stack last Hsub Hp Ha Hlast; simpl.
  - exists last. split; [done|]. pose proof (inorder_context t stack Hp) as E.
    rewrite Hsub in E. destruct last as [s|]; simpl.
    + destruct Hlast as (m & Hm & Hle & Hr). eexists _, _, _. split; [by apply at_points|].
      by rewrite Hr.
    + by rewrite E, Hlast.
  - assert (at_message t stack m) as Hat by (by eexists _, _).
    pose proof (points_inorder _ _ _ _ _ (at_points t stack m Hat)) as E.
    assert (is_valid (message_id_ m) = true) as Hv.
    { unfold ordinary in Hord. rewrite E, Forall_app, Forall_cons in Hord. tauto. }
    unfold id_le. rewrite compare_valid by done. simpl.
    rewrite E in Hsort. apply sorted_mid in Hsort as (_ & _ & Hb & Hab).
    assert (rest R t stack = inorder r ++ beyond R t stack) as Er by (unfold rest; by rewrite Hsub).
    assert (subtree t stack ≠ Null) as Hne by (by rewrite Hsub).
    destruct (message_id_ m <=? id) eqn:Hle; zbool.
    + apply IHr; [simpl; by rewrite Hsub|done|done|]. by exists m.
    + apply IHl; [simpl; by rewrite Hsub|done|..]; simpl; rewrite Hsub; simpl.
      * constructor; [done|]. apply all_above_app. split; [|done].
        rewrite Er in Hab. apply all_above_app in Hab as [Hab _]. eapply all_above_weaken; [|done]. lia.
      * destruct last as [s|]; [|done]. destruct Hlast as (m' & Hm' & Hle' & Hr).
        exists m'. split; [done|]. split; [done|]. rewrite Hr. simpl. by rewrite <-app_assoc.
Qed.

Lemma get_iterator_spec t id :
  sorted (inorder t) → ordinary (inorder t) → is_scheduled id = false →
  ∃ it, get_iterator t id = Ok it ∧ found t id it.
Proof.
  intros Hsort Hord Hs. unfold get_iterator. rewrite Hs. simpl.
  apply iterator_loop_spec; (done || by constructor).
Qed.

(** There is one split of a list into elements with a property and elements without. *)
Lemma split_at_unique {A} (P : A → Prop) `{∀ x, Decision (P x)} pre post pre' post' :
  pre ++ post = pre' ++ post' →
  Forall P pre → Forall (λ x, ¬ P x) post → Forall P pre' → Forall (λ x, ¬ P x) post' →
  pre' = pre ∧ post' = post.
Proof.
  intros E Hb Ha Hb' Ha'.
  assert (pre' = pre) as ->.
  { apply (f_equal (filter P)) in E. rewrite !filter_app in E.
    by rewrite (filter_all P pre), (filter_all P pre'), (filter_none P post), (filter_none P post'),
      !app_nil_r in E. }
  by apply app_inv_head in E.
Qed.

Lemma split_unique id pre post pre' post' :
  pre ++ post = pre' ++ post' →
  Forall (λ m, message_id_ m ≤ id) pre → all_above id post →
  Forall (λ m, message_id_ m ≤ id) pre' → all_above id post' → pre' = pre ∧ post' = post.
Proof.
  intros E Hb Ha Hb' Ha'. apply (split_at_unique (λ m, message_id_ m ≤ id)); try done.
  - eapply Forall_impl; [exact Ha|]. simpl. lia.
  - eapply Forall_impl; [exact Ha'|]. simpl. lia.
Qed.

Lemma points_upto t path pre m post id :
  points t path pre m post → sorted (inorder t) → message_id_ m ≤ id →
  Forall (λ x, message_id_ x ≤ id) (pre ++ [m]).
Proof.
  intros Hp Hs Hle. rewrite (points_inorder _ _ _ _ _ Hp) in Hs.
  apply sorted_mid in Hs as (_ & _ & Hb & _). apply Forall_app. split.
  - eapply Forall_impl; [exact Hb|]. simpl. lia.
  - by constructor.
Qed.

(** The iterator for an identifier, when the split of the list there is known. *)
Lemma get_iterator_split t id pre post :
  inorder t = pre ++ post → Forall (λ m, message_id_ m ≤ id) pre → all_above id post →
  sorted (inorder t) → ordinary (inorder t) → is_scheduled id = false →
  (pre = [] ∧ get_iterator t id = Ok None) ∨
  (∃ pre' p path, pre = pre' ++ [p] ∧ get_iterator t id = Ok (Some path) ∧
     points t path pre' p post).
Proof.
  intros E Hb Ha Hsort Hord Hs. destruct (get_iterator_spec t id) as (it & Hit & Hf); [done..|].
  destruct it as [path|]; simpl in Hf.
  - right. destruct Hf as (pre1 & m & post1 & Hp & Hle & Ha1).
    destruct (split_unique id pre post (pre1 ++ [m]) post1) as [<- ->]; try done.
    + rewrite <-E, <-app_assoc. by apply points_inorder in Hp.
    + by eapply points_upto.
    + by exists pre1, m, path.
  - left. destruct (split_unique id pre post [] (inorder t)) as [<- _]; done.
Qed.

(** A message of the tree is found. *)
Lemma get_iterator_at t pre m post :
  inorder t = pre ++ m :: post → sorted (inorder t) → ordinary (inorder t) →
  ∃ path, get_iterator t (message_id_ m) = Ok (Some path) ∧ points t path pre m post.
Proof.
  intros E Hsort Hord.
  assert (is_valid (message_id_ m) = true) as Hv.
  { unfold ordinary in Hord. rewrite E, Forall_app, Forall_cons in Hord. tauto. }
  pose proof Hsort as Hs. rewrite E in Hs. apply sorted_mid in Hs as (_ & _ & Hb & Ha).
  destruct (get_iterator_split t (message_id_ m) (pre ++ [m]) post)
    as [[? _]|(pre' & p & path & Ep & Hit & Hp)]; try done.
  - by rewrite <-app_assoc.
  - apply Forall_app. split; [|by constructor]. eapply Forall_impl; [exact Hb|]. simpl. lia.
  - by apply is_valid_not_scheduled.
  - by destruct pre.
  - apply app_inj_tail in Ep as [<- <-]. by exists path.
Qed.

(** ** Heaps *)

(** A heap whose numbers are at most [b]. *)
Fixpoint heap (b : Z) (t : tree) : Prop :=
  match t with
  | Null => True
  | Node m l r => random_y_ m ≤ b ∧ heap (random_y_ m) l ∧ heap (random_y_ m) r
  end.

Lemma heap_weaken b b' t : b ≤ b' → heap b t → heap b' t.
Proof. destruct t; simpl; [done|]. intros ? (? & ? & ?). split; [lia|done]. Qed.

Lemma heap_similar b t t' : similar t t' → heap b t → heap b t'.
Proof.
  intros H. revert b. induction H as [|m m' l l' r r' [Ey _] _ IHl _ IHr]; intros b; [done|]; simpl.
  rewrite Ey. intros (? & ? & ?). auto.
Qed.

Lemma heap_at_path v f b t :
  (∀ b u, heap b u → heap b (f u)) → heap b t → heap b (at_path v f t).
Proof.
  intros Hf. revert b t. induction v as [|d v IH]; intros b t; simpl; [auto|].
  destruct t as [|m l r]; [done|]. intros (? & ? & ?). destruct d; simpl; auto.
Qed.

Lemma split_spec b id t :
  sorted (inorder t) → Forall (λ m, message_id_ m ≠ id) (inorder t) → heap b t →
  ∃ l r, split t id = (l, r) ∧ inorder t = inorder l ++ inorder r ∧
    all_below id (inorder l) ∧ all_above id (inorder r) ∧ heap b l ∧ heap b r.
Proof.
  revert b. induction t as [|m tl IHl tr IHr]; intros b; simpl.
  { intros _ _ _. exists Null, Null. repeat split; constructor. }
  intros (Hsl & Hsr & Hb & Ha)%sorted_mid [Hnl [Hne Hnr]%Forall_cons]%Forall_app (Hy & Hhl & Hhr).
  destruct (message_id_ m <? id) eqn:E; zbool.
  - destruct (IHr _ Hsr Hnr Hhr) as (l & r & -> & El & Hbl & Har & Hh1 & Hh2).
    exists (Node m tl l), r. split; [done|]. simpl. rewrite El. split; [by rewrite <-app_assoc|].
    split; [apply all_below_app; split; [by eapply all_below_weaken, Hb; lia|by constructor]|].
    split; [done|]. split; [done|]. by eapply heap_weaken.
  - assert (id < message_id_ m) by lia.
    destruct (IHl _ Hsl Hnl Hhl) as (l & r & -> & El & Hbl & Har & Hh1 & Hh2).
    exists l, (Node m r tr). split; [done|]. simpl. rewrite El. split; [by rewrite <-app_assoc|].
    split; [done|].
    split; [apply all_above_app; split; [done|constructor; [done|by eapply all_above_weaken, Ha; lia]]|].
    split; [by eapply heap_weaken|done].
Qed.

Lemma assign_snoc v d f m l r :
  assign (v ++ [d]) f (Node m l r) =
    match d with L => Node m (assign v f l) r | R => Node m l (assign v f r) end.
Proof. unfold assign. by rewrite reverse_snoc. Qed.

(** The new message at its place: between the messages before and after it. *)
Lemma insert_slot_spec b message t :
  let id := message_id_ message in
  sorted (inorder t) → Forall (λ m, message_id_ m ≠ id) (inorder t) → heap b t →
  random_y_ message ≤ b →
  ∃ v, (∀ v0, insert_slot t id (random_y_ message) v0 = Ok (v ++ v0)) ∧
  ∃ before after, inorder t = before ++ after ∧ all_below id before ∧ all_above id after ∧
    ∀ message', random_y_ message' = random_y_ message →
    let t' := assign v (λ cur, let (l, r) := split cur id in Node message' l r) t in
    inorder t' = before ++ message' :: after ∧ heap b t'.
Proof.
  intros id. revert b. induction t as [|m tl IHl tr IHr]; intros b; simpl.
  { intros _ _ _ Hy. exists []. split; [done|]. exists [], []. split; [done|]. split; [constructor|].
    split; [constructor|]. intros message' E. simpl. by rewrite E. }
  intros Hsort Hne (Hy & Hhl & Hhr) Hyb. pose proof Hsort as (Hsl & Hsr & Hb & Ha)%sorted_mid.
  pose proof Hne as [Hnl [Hne1 Hnr]%Forall_cons]%Forall_app.
  destruct (random_y_ m >=? random_y_ message) eqn:E.
  - assert (random_y_ message ≤ random_y_ m) as Hle by lia.
    destruct (message_id_ m <? id) eqn:E1; zbool.
    + destruct (IHr _ Hsr Hnr Hhr Hle) as (v & Hv & before & after & Ea & Hb1 & Ha1 & Hins).
      exists (v ++ [R]). split; [intros v0; by rewrite Hv, <-app_assoc|].
      exists (inorder tl ++ m :: before), after. rewrite Ea. split; [by rewrite <-app_assoc|].
      split; [apply all_below_app; split; [by eapply all_below_weaken, Hb; lia|by constructor]|].
      split; [done|]. intros message' Hm'. rewrite assign_snoc. simpl.
      destruct (Hins message' Hm') as [-> Hh]. by rewrite <-app_assoc.
    + rewrite (proj2 (Z.eqb_neq _ _)) by done.
      destruct (IHl _ Hsl Hnl Hhl Hle) as (v & Hv & before & after & Ea & Hb1 & Ha1 & Hins).
      exists (v ++ [L]). split; [intros v0; by rewrite Hv, <-app_assoc|].
      exists before, (after ++ m :: inorder tr). rewrite Ea. split; [by rewrite <-app_assoc|].
      split; [done|].
      split; [apply all_above_app; split; [done|constructor; [lia|by eapply all_above_weaken, Ha; lia]]|].
      intros message' Hm'. rewrite assign_snoc. simpl.
      destruct (Hins message' Hm') as [-> Hh]. by rewrite <-app_assoc.
  - exists []. split; [done|].
    destruct (split_spec (random_y_ message) id (Node m tl tr) Hsort Hne) as (l & r & Hsp & El & Hbl & Har & Hh1 & Hh2).
    { simpl. split; [lia|done]. }
    exists (inorder l), (inorder r). split; [done|]. split; [done|]. split; [done|].
    intros message' Hm'. unfold assign. change (reverse []) with (@nil side). cbn [at_path].
    rewrite Hsp. simpl. by rewrite Hm'.
Qed.

Lemma insert_slot_similar t t' id y v : similar t t' → insert_slot t' id y v = insert_slot t id y v.
Proof.
  intros H. revert v. induction H as [|m m' l l' r r' [Ey Ei] _ IHl _ IHr]; intros v; simpl; [done|].
  by rewrite Ey, Ei, IHl, IHr.
Qed.

Lemma merge_null l : merge l Null = l.
Proof. by destruct l. Qed.
Lemma merge_node ml ll lr mr rl rr :
  merge (Node ml ll lr) (Node mr rl rr) =
    if random_y_ mr >? random_y_ ml then Node mr (merge (Node ml ll lr) rl) rr
    else Node ml ll (merge lr (Node mr rl rr)).
Proof. done. Qed.

Lemma merge_spec b l r :
  inorder (merge l r) = inorder l ++ inorder r ∧ (heap b l → heap b r → heap b (merge l r)).
Proof.
  revert b r. induction l as [|ml ll _ lr IHl]; intros b r; [by destruct r|].
  revert b. induction r as [|mr rl IHr rr _]; intros b; [rewrite merge_null, app_nil_r; auto|].
  rewrite merge_node. destruct (random_y_ mr >? random_y_ ml) eqn:E; cbn [inorder heap].
  - destruct (IHr (random_y_ mr)) as [-> Hh]. cbn [inorder]. split; [by rewrite <-!app_assoc|].
    intros (? & ? & ?) (? & ? & ?). split; [done|]. split; [|done]. apply Hh; [|done]. cbn [heap].
    split; [lia|done].
  - destruct (IHl (random_y_ ml) (Node mr rl rr)) as [-> Hh]. cbn [inorder].
    split; [by rewrite <-!app_assoc|].
    intros (? & ? & ?) (? & ? & ?). split; [done|]. split; [done|]. apply Hh; [done|]. cbn [heap].
    split; [lia|done].
Qed.

Lemma iterator_above t id stack last :
  all_above id (inorder t) → ordinary (inorder t) → is_scheduled id = false →
  iterator_loop t id stack last = Ok last.
Proof.
  revert stack last. induction t as [|m l IHl r _]; intros stack last; simpl; [done|].
  intros [Hl [Hm _]%Forall_cons]%Forall_app [Hvl [Hv _]%Forall_cons]%Forall_app Hs.
  unfold id_le. rewrite compare_valid by done. simpl. if_false. by apply IHl.
Qed.

(** [erase] finds the message that the iterator for its identifier points to. *)
Lemma erase_slot_iterator t id stack last :
  sorted (inorder t) → ordinary (inorder t) → is_scheduled id = false → id ∈ ids (inorder t) →
  iterator_loop t id stack last = Ok (Some (erase_slot t id stack)).
Proof.
  revert stack last. induction t as [|m l IHl r IHr]; intros stack last; simpl;
    [by intros _ _ _ ?%elem_of_nil|].
  intros (Hsl & Hsr & Hb & Ha)%sorted_mid [Hvl [Hv Hvr]%Forall_cons]%Forall_app Hs Hin.
  unfold id_le. rewrite compare_valid by done. simpl.
  unfold ids in Hin. rewrite fmap_app, fmap_cons, elem_of_app, elem_of_cons in Hin.
  assert (∀ x, x ∈ ids (inorder l) → x < message_id_ m) as Hlt.
  { intros x (a & -> & Hx)%list_elem_of_fmap_1. unfold all_below in Hb. rewrite Forall_forall in Hb. by apply Hb. }
  assert (∀ x, x ∈ ids (inorder r) → message_id_ m < x) as Hgt.
  { intros x (a & -> & Hx)%list_elem_of_fmap_1. unfold all_above in Ha. rewrite Forall_forall in Ha. by apply Ha. }
  destruct (message_id_ m <? id) eqn:E; zbool.
  - if_true. apply IHr; try done. destruct Hin as [Hin|[->|Hin]]; [apply Hlt in Hin; lia|lia|done].
  - destruct (message_id_ m >? id) eqn:E1.
    + if_false. apply IHl; try done. destruct Hin as [Hin|[->|Hin]]; [done|lia|apply Hgt in Hin; lia].
    + assert (message_id_ m = id) as <- by lia. if_true. by apply iterator_above.
Qed.

(** ** Connections *)

(** Neighbours agree on whether they are connected; [b] and [c] are the connections at
    the ends. *)
Fixpoint chain (b : bool) (xs : list OrderedMessage) (c : bool) : Prop :=
  match xs with
  | [] => b = c
  | m :: xs => have_previous_ m = b ∧ chain (have_next_ m) xs c
  end.

Lemma chain_app b xs ys c : chain b (xs ++ ys) c ↔ ∃ d, chain b xs d ∧ chain d ys c.
Proof.
  revert b. induction xs as [|m xs IH]; intros b; simpl; [naive_solver|]. rewrite IH. naive_solver.
Qed.

Lemma chain_snoc b xs m c :
  chain b (xs ++ [m]) c ↔ chain b xs (have_previous_ m) ∧ have_next_ m = c.
Proof. rewrite chain_app. simpl. naive_solver. Qed.

Definition set_last_next (b : bool) (xs : list OrderedMessage) : list OrderedMessage :=
  alter (set_have_next b) (pred (length xs)) xs.
Definition set_first_previous (b : bool) (xs : list OrderedMessage) : list OrderedMessage :=
  alter (set_have_previous b) 0%nat xs.

Lemma set_last_next_snoc b xs m : set_last_next b (xs ++ [m]) = xs ++ [set_have_next b m].
Proof.
  unfold set_last_next. rewrite length_app, Nat.add_1_r. simpl.
  by rewrite alter_app_r_alt, Nat.sub_diag by done.
Qed.

Lemma set_have_next_same m : set_have_next (have_next_ m) m = m.
Proof. by destruct m. Qed.
Lemma set_have_previous_same m : set_have_previous (have_previous_ m) m = m.
Proof. by destruct m. Qed.

Lemma set_last_next_same b xs c : chain b xs c → set_last_next c xs = xs.
Proof.
  induction xs as [|m xs _] using rev_ind; [done|]. intros [_ <-]%chain_snoc.
  by rewrite set_last_next_snoc, set_have_next_same.
Qed.
Lemma set_first_previous_same b xs c : chain b xs c → set_first_previous b xs = xs.
Proof. destruct xs as [|m xs]; [done|]. intros [<- _]. simpl. unfold set_first_previous. simpl. by rewrite set_have_previous_same. Qed.

Lemma chain_set_last b xs c a : chain b xs c → (xs = [] → a = b) → chain b (set_last_next a xs) a.
Proof.
  induction xs as [|m xs _] using rev_ind; simpl; [intros _ H; symmetry; by apply H|].
  intros [Hc _]%chain_snoc _. rewrite set_last_next_snoc. apply chain_snoc. done.
Qed.
Lemma chain_set_first b xs c a : chain b xs c → (xs = [] → a = c) → chain a (set_first_previous a xs) c.
Proof. destruct xs as [|m xs]; simpl; [intros _ H; by apply H|]. intros [_ Hc] _. by split. Qed.

Lemma ids_set_last b xs : ids (set_last_next b xs) = ids xs.
Proof.
  induction xs as [|m xs _] using rev_ind; [done|]. rewrite set_last_next_snoc. unfold ids.
  by rewrite !fmap_app.
Qed.
Lemma ids_set_first b xs : ids (set_first_previous b xs) = ids xs.
Proof. by destruct xs. Qed.

Lemma ids_all (P : Z → Prop) xs ys :
  ids xs = ids ys → Forall (λ m, P (message_id_ m)) xs → Forall (λ m, P (message_id_ m)) ys.
Proof. intros E. rewrite <-!all_ids. by rewrite E. Qed.

(** ** Inserting *)

Lemma find_next_loop t id root stack next :
  sorted (inorder t) → ordinary (inorder t) → is_scheduled id = false →
  subtree t stack = root → path_ok t stack → all_below id (beyond L t stack) →
  match next with
  | None => beyond R t stack = []
  | Some s => ∃ m, at_message t s m ∧ id ≤ message_id_ m ∧ rest L t s = order L root ++ beyond L t stack
  end →
  ∃ it, find_next root id stack next = Ok it ∧
    match it with
    | None => all_below id (inorder t)
    | Some s => ∃ pre m post, points t s pre m post ∧ id ≤ message_id_ m ∧ all_below id pre
    end.
Proof.
  intros Hsort Hord Hs. revert stack next.
  induction root as [|m l IHl r IHr]; intros stack next Hsub Hp Hb Hnext; simpl.
  - exists next. split; [done|]. pose proof (inorder_context t stack Hp) as E.
    rewrite Hsub in E. destruct next as [s|].
    + destruct Hnext as (m & Hm & Hle & Hr). eexists _, _, _. split; [by apply at_points|].
      split; [done|]. rewrite Hr. by apply Forall_reverse.
    + rewrite E, Hnext. simpl. rewrite app_nil_r. by apply Forall_reverse.
  - assert (at_message t stack m) as Hat by (by eexists _, _).
    pose proof (points_inorder _ _ _ _ _ (at_points t stack m Hat)) as E.
    assert (is_valid (message_id_ m) = true) as Hv.
    { unfold ordinary in Hord. rewrite E, Forall_app, Forall_cons in Hord. tauto. }
    unfold id_lt. rewrite compare_valid by done. simpl.
    rewrite E in Hsort. apply sorted_mid in Hsort as (_ & _ & Hbl & Hab).
    assert (rest L t stack = reverse (inorder l) ++ beyond L t stack) as El by (unfold rest; by rewrite Hsub).
    apply Forall_reverse in Hbl. rewrite reverse_involutive in Hbl.
    assert (subtree t stack ≠ Null) as Hne by (by rewrite Hsub).
    destruct (message_id_ m <? id) eqn:Hlt; zbool.
    + apply IHr; [simpl; by rewrite Hsub|done|..]; simpl; rewrite Hsub; simpl.
      * constructor; [done|]. apply Forall_app. split; [|done].
        rewrite El in Hbl. apply Forall_app in Hbl as [Hbl _]. eapply all_below_weaken; [|done]. lia.
      * destruct next as [s|]; [|done]. destruct Hnext as (m' & Hm' & Hle' & Hr).
        exists m'. split; [done|]. split; [done|]. rewrite Hr. simpl.
        by rewrite reverse_app, reverse_cons, <-!app_assoc.
    + apply IHl; [simpl; by rewrite Hsub|done|done|]. by exists m.
Qed.

Lemma find_next_spec t id before after :
  inorder t = before ++ after → all_below id before → all_above id after →
  sorted (inorder t) → ordinary (inorder t) → is_scheduled id = false →
  match after with
  | [] => find_next t id [] None = Ok None
  | n :: after' => ∃ path, find_next t id [] None = Ok (Some path) ∧ points t path before n after'
  end.
Proof.
  intros E Hb Ha Hsort Hord Hs.
  destruct (find_next_loop t id t [] None) as (it & -> & Hit); try done.
  { by constructor. }
  assert (∀ pre post, inorder t = pre ++ post → all_below id pre →
    Forall (λ x, ¬ message_id_ x < id) post → pre = before ∧ post = after) as Huniq.
  { intros pre post E1 Hb1 Ha1. apply (split_at_unique (λ x, message_id_ x < id)); try done.
    - by rewrite <-E.
    - eapply Forall_impl; [exact Ha|]. simpl. lia. }
  destruct it as [path|].
  - destruct Hit as (pre & m & post & Hp & Hle & Hb1).
    pose proof (points_inorder _ _ _ _ _ Hp) as E1. rewrite E1 in Hsort.
    apply sorted_mid in Hsort as (_ & _ & _ & Ha1).
    destruct (Huniq pre (m :: post) E1 Hb1) as [-> <-].
    { constructor; [lia|]. eapply Forall_impl; [exact Ha1|]. simpl. lia. }
    by exists path.
  - destruct (Huniq (inorder t) [] (eq_sym (app_nil_r _)) Hit) as [_ <-]; [constructor|done].
Qed.

(** The connections that a new message gets. *)
Definition new_links (auto_attach : bool) (last_message_id id : Z)
    (before after : list OrderedMessage) : bool * bool :=
  let next := if id mod 4 =? 1 then false else match after with [] => false | _ => true end in
  if negb auto_attach then (false, false)
  else
    match last before with
    | Some p =>
        if have_next_ p || (is_valid last_message_id && (message_id_ p >=? last_message_id))
        then (true, have_next_ p) else (false, next)
    | None => (false, next)
    end.

Lemma attach_to_next_spec t message before after :
  let id := message_id_ message in
  inorder t = before ++ after → all_below id before → all_above id after →
  sorted (inorder t) → ordinary (inorder t) → is_valid id = true → chain false after false →
  have_previous_ message = false → have_next_ message = false →
  let b := if id mod 4 =? 1 then false else match after with [] => false | _ => true end in
  ∃ t', attach_to_next message t = Ok (set_have_next b message, t') ∧ similar t t' ∧
    inorder t' = before ++ set_first_previous b after.
Proof.
  intros id E Hb Ha Hsort Hord Hv Hc Hp Hn b. unfold attach_to_next, is_yet_unsent.
  fold id. rewrite Hv. simpl. rewrite short_type. unfold TYPE_YET_UNSENT.
  destruct (id mod 4 =? 1) eqn:E4.
  - exists t. subst b. rewrite <-Hn, set_have_next_same. split; [done|]. split; [done|].
    rewrite E, Hn. by erewrite set_first_previous_same.
  - pose proof (find_next_spec t id before after E Hb Ha Hsort Hord (is_valid_not_scheduled _ Hv)) as Hf.
    destruct after as [|n after].
    + rewrite Hf. simpl. exists t. subst b. by rewrite <-Hn, set_have_next_same.
    + destruct Hf as (path & -> & Hpt). simpl. destruct Hc as [Hcn _].
      pose proof Hpt as (Hat & _). rewrite (it_get_at _ _ _ Hat). simpl. rewrite Hcn. simpl.
      eexists. split; [done|]. destruct (set_at_spec t path (set_have_previous true) _ _ _ (keep_have_previous true) Hpt)
        as (Hsim & Ei & _). done.
Qed.

Lemma chain_nonempty c xs : chain c xs false → c = true → ∃ m ms, xs = m :: ms.
Proof. destruct xs as [|m ms]; [simpl; congruence|eauto]. Qed.

Lemma ordinary_mid pre m post :
  ordinary (pre ++ m :: post) → is_valid (message_id_ m) = true.
Proof. unfold ordinary. rewrite Forall_app, Forall_cons. tauto. Qed.

Lemma check_between_Ok t path pre p post id :
  points t path pre p post → ordinary (inorder t) → chain (have_next_ p) post false →
  is_valid id = true → check_between t (Some path) id p = Ok ().
Proof.
  intros Hp Hord Hc Hv. unfold check_between, is_server.
  assert (is_valid (message_id_ p) = true) as Hvp.
  { rewrite (points_inorder _ _ _ _ _ Hp) in Hord. by eapply ordinary_mid. }
  rewrite Hv. simpl. destruct (Z.land id FULL_TYPE_MASK =? 0); [|done]. simpl.
  rewrite Hvp. simpl. destruct (_ =? 0); [|done]. simpl.
  destruct (have_next_ p) eqn:En; [|done]. simpl.
  destruct (chain_nonempty _ _ Hc eq_refl) as (n & ns & ->).
  destruct (move_next _ _ _ _ _ Hp En) as (path' & -> & Hp'). simpl.
  pose proof Hp' as (Hat & _). rewrite (it_get_at _ _ _ Hat). simpl.
  rewrite (points_inorder _ _ _ _ _ Hp') in Hord. apply ordinary_mid in Hord. by rewrite Hord.
Qed.

Lemma auto_attach_spec t message last_id before after :
  let id := message_id_ message in
  inorder t = before ++ after → all_below id before → all_above id after →
  sorted (inorder t) → ordinary (inorder t) → is_valid id = true → chain false (inorder t) false →
  have_previous_ message = false → have_next_ message = false →
  let links := new_links true last_id id before after in
  ∃ t', auto_attach_message message last_id t
      = Ok (set_have_previous links.1 (set_have_next links.2 message), t') ∧ similar t t' ∧
    inorder t' = set_last_next links.1 before ++ set_first_previous links.2 after.
Proof.
  intros id E Hb Ha Hsort Hord Hv Hc Hp Hn links. pose proof (is_valid_not_scheduled _ Hv) as Hs.
  rewrite E in Hc. apply chain_app in Hc as (c & Hcb & Hca).
  assert (c = false → chain false before false → links = (false, if id mod 4 =? 1 then false else match after with [] => false | _ => true end) →
    ∃ t', attach_to_next message t = Ok (set_have_previous links.1 (set_have_next links.2 message), t') ∧
      similar t t' ∧ inorder t' = set_last_next links.1 before ++ set_first_previous links.2 after) as Hnext.
  { intros -> Hcb' ->. simpl.
    destruct (attach_to_next_spec t message before after E Hb Ha Hsort Hord Hv Hca Hp Hn) as (t' & -> & Hsim & Ei).
    exists t'. rewrite Ei, (set_last_next_same false before false) by done.
    split; [|done]. destruct message; simpl in *. by rewrite Hp. }
  unfold auto_attach_message. fold id.
  destruct (get_iterator_split t id before after) as [[-> ->]|(pre & p & path & -> & -> & Hpt)]; try done.
  { eapply Forall_impl; [exact Hb|]. simpl. lia. }
  { simpl. by apply Hnext. }
  simpl. pose proof Hpt as (Hat & _). rewrite (it_get_at _ _ _ Hat). simpl.
  assert (is_valid (message_id_ p) = true) as Hvp.
  { rewrite (points_inorder _ _ _ _ _ Hpt) in Hord. by eapply ordinary_mid. }
  unfold id_lt, id_ge. rewrite (compare_valid Z.ltb p id) by done. simpl.
  apply all_below_app in Hb as [_ [Hlt _]%Forall_cons]. if_true. simpl.
  apply chain_snoc in Hcb as [Hcb Hpn].
  assert ((if have_next_ p then Ok true
    else if is_valid last_id then id_compare Z.geb (message_id_ p) last_id else Ok false)
    = Ok (have_next_ p || (is_valid last_id && (message_id_ p >=? last_id)))) as ->.
  { destruct (have_next_ p); [done|]. destruct (is_valid last_id) eqn:El; [|done]. simpl.
    apply compare_valid; [done|by apply is_valid_not_scheduled]. }
  simpl. subst links. unfold new_links in *. rewrite last_snoc in *. cbn [negb] in *.
  destruct (have_next_ p || _) eqn:Eb.
  - rewrite (check_between_Ok t path pre p after id) by (done || by rewrite Hpn). simpl.
    destruct (set_at_spec t path (set_have_next true) _ _ _ (keep_have_next true) Hpt) as (Hsim & Ei & _).
    eexists. split; [done|]. split; [done|]. rewrite Ei, set_last_next_snoc, Hpn.
    by rewrite (set_first_previous_same _ _ _ Hca), <-app_assoc.
  - apply orb_false_iff in Eb as [Epn _]. apply Hnext; [congruence| |done].
    apply chain_snoc. by rewrite Epn.
Qed.

Lemma drop_connection_spec t id before after :
  inorder t = before ++ after → all_below id before → all_above id after →
  sorted (inorder t) → ordinary (inorder t) → is_valid id = true → chain false (inorder t) false →
  ∃ t', drop_connection id t = Ok t' ∧ similar t t' ∧
    inorder t' = set_last_next false before ++ set_first_previous false after.
Proof.
  intros E Hb Ha Hsort Hord Hv Hc. pose proof (is_valid_not_scheduled _ Hv) as Hs.
  rewrite E in Hc. apply chain_app in Hc as (c & Hcb & Hca).
  assert (c = false → inorder t = set_last_next false before ++ set_first_previous false after) as Hsame.
  { intros ->. by rewrite (set_last_next_same _ _ _ Hcb), (set_first_previous_same _ _ _ Hca). }
  unfold drop_connection.
  destruct (get_iterator_split t id before after) as [[-> ->]|(pre & p & path & -> & -> & Hpt)]; try done.
  { eapply Forall_impl; [exact Hb|]. simpl. lia. }
  { simpl. exists t. split; [done|]. split; [done|]. by apply Hsame. }
  simpl. pose proof Hpt as (Hat & _). rewrite (it_get_at _ _ _ Hat). simpl.
  apply chain_snoc in Hcb as [Hcb Hpn].
  destruct (have_next_ p) eqn:En; [|exists t; split; [done|]; split; [done|]; by apply Hsame].
  assert (is_valid (message_id_ p) = true) as Hvp.
  { rewrite (points_inorder _ _ _ _ _ Hpt) in Hord. by eapply ordinary_mid. }
  unfold id_lt, id_gt. rewrite compare_valid by done. simpl.
  apply all_below_app in Hb as [_ [Hlt _]%Forall_cons]. if_true. simpl.
  destruct (chain_nonempty _ _ Hca (eq_sym Hpn)) as (n & ns & ->).
  destruct (move_next _ _ _ _ _ Hpt En) as (path' & -> & Hpt'). simpl.
  pose proof Hpt' as (Hat' & _). rewrite (it_get_at _ _ _ Hat'). simpl.
  apply Forall_cons in Ha as [Hgt Ha].
  rewrite compare_valid; [|rewrite (points_inorder _ _ _ _ _ Hpt') in Hord; by eapply ordinary_mid|done].
  simpl. rewrite (proj2 (Z.gtb_gt _ _)) by lia. simpl. eexists. split; [done|].
  destruct (set_at_spec t path' (set_have_previous false) _ _ _ (keep_have_previous false) Hpt') as (Hsim1 & Ei1 & _).
  assert (points (set_at path' (set_have_previous false) t) path pre p (set_have_previous false n :: ns)) as Hpt1.
  { eapply points_similar; [exact Hsim1|exact Hpt| |done]. by rewrite Ei1, <-app_assoc. }
  destruct (set_at_spec _ path (set_have_next false) _ _ _ (keep_have_next false) Hpt1) as (Hsim2 & Ei2 & _).
  split; [by etrans|]. by rewrite Ei2, set_last_next_snoc, <-app_assoc.
Qed.

(** ** The invariant *)

Record messages_wf (t : tree) : Prop := {
  wf_sorted : sorted (inorder t);
  wf_ordinary : ordinary (inorder t);
  wf_heap : heap INT_MAX t;
  wf_chain : chain false (inorder t) false;
}.

(** What insertion makes of the list: the new message stands at its place, and only its
    neighbours' connections change. *)
Definition inserted (auto_attach : bool) (last_message_id id : Z) (xs ys : list OrderedMessage)
    : Prop :=
  ∃ before after message, xs = before ++ after ∧ all_below id before ∧ all_above id after ∧
    message_id_ message = id ∧
    let links := new_links auto_attach last_message_id id before after in
    have_previous_ message = links.1 ∧ have_next_ message = links.2 ∧
    ys = set_last_next links.1 before ++ message :: set_first_previous links.2 after.

Lemma sorted_ids xs ys : ids xs = ids ys → sorted xs → sorted ys.
Proof. unfold sorted. by intros ->. Qed.

(** The links of a new message fit its neighbours. *)
Lemma new_links_chain auto_attach last_id id before after c :
  chain false before c → chain c after false →
  let links := new_links auto_attach last_id id before after in
  (before = [] → links.1 = false) ∧ (after = [] → links.2 = false).
Proof.
  intros Hb Ha. unfold new_links. destruct auto_attach; simpl; [|done].
  induction before as [|p before _] using rev_ind; simpl.
  { split; [done|]. intros ->. by destruct (_ =? _). }
  rewrite last_snoc. apply chain_snoc in Hb as [_ <-].
  split; [by destruct before|]. intros ->. simpl in Ha. rewrite Ha. simpl.
  destruct (_ && _); [done|]. simpl. by destruct (_ =? _).
Qed.

Lemma inserted_wf auto_attach last_id id xs ys :
  inserted auto_attach last_id id xs ys → sorted xs → ordinary xs → chain false xs false →
  is_valid id = true → sorted ys ∧ ordinary ys ∧ chain false ys false.
Proof.
  intros (before & after & m & -> & Hb & Ha & Eid & Hp & Hn & ->) Hsort Hord Hc Hv.
  apply chain_app in Hc as (c & Hcb & Hca).
  destruct (new_links_chain auto_attach last_id id before after c Hcb Hca) as [H1 H2].
  set (links := new_links auto_attach last_id id before after) in *.
  apply Forall_app in Hord as [Ho1 Ho2].
  pose proof (ids_set_last links.1 before) as E1. pose proof (ids_set_first links.2 after) as E2.
  assert (sorted before ∧ sorted after) as [Hs1 Hs2].
  { unfold sorted, ids in Hsort. rewrite fmap_app, StronglySorted_app in Hsort. tauto. }
  split; [|split].
  - apply sorted_mid. rewrite Eid. split; [by eapply sorted_ids|]. split; [by eapply sorted_ids|].
    split; [by eapply (ids_all (λ i, i < id))|by eapply (ids_all (λ i, id < i))].
  - apply Forall_app. split; [by eapply (ids_all (λ i, is_valid i = true))|].
    constructor; [by rewrite Eid|by eapply (ids_all (λ i, is_valid i = true))].
  - apply chain_app. exists links.1. split; [by eapply chain_set_last|]. simpl.
    split; [done|]. rewrite Hn. by eapply chain_set_first.
Qed.

(** The connections of a message before it is placed. *)
Lemma attach_new_spec auto_attach t message last_id before after :
  let id := message_id_ message in
  inorder t = before ++ after → all_below id before → all_above id after →
  messages_wf t → is_valid id = true →
  have_previous_ message = false → have_next_ message = false →
  let links := new_links auto_attach last_id id before after in
  ∃ t', (if auto_attach then auto_attach_message message last_id t
         else t ← drop_connection id t; Ok (message, t))
      = Ok (set_have_previous links.1 (set_have_next links.2 message), t') ∧ similar t t' ∧
    inorder t' = set_last_next links.1 before ++ set_first_previous links.2 after.
Proof.
  intros id E Hb Ha [Hsort Hord _ Hc] Hv Hp Hn links.
  destruct auto_attach; [by apply auto_attach_spec|].
  destruct (drop_connection_spec t id before after) as (t' & -> & Hsim & E'); try done.
  exists t'. split; [|done]. simpl. f_equal. f_equal. destruct message. simpl in *. by subst.
Qed.

(** The place of a message is the same in every similar tree. *)
Lemma place_message t t1 id message before after :
  messages_wf t → similar t t1 → inorder t1 = before ++ after →
  ids (inorder t1) = ids (inorder t) → all_below id before → all_above id after →
  id ∉ ids (inorder t) → random_y_ message ≤ INT_MAX →
  ∃ v, insert_slot t id (random_y_ message) [] = Ok v ∧
    let t' := assign v (λ cur, let (l, r) := split cur id in Node message l r) t1 in
    inorder t' = before ++ message :: after ∧ heap INT_MAX t'.
Proof.
  intros [Hsort Hord Hheap _] Hsim E1 Eids Hb Ha Hin Hy.
  assert (Forall (λ m, message_id_ m ≠ id) (inorder t1)) as Hne.
  { eapply (ids_all (λ i, i ≠ id)); [symmetry; exact Eids|].
    apply Forall_forall. intros m Hm <-. apply Hin. by apply list_elem_of_fmap_2. }
  destruct (insert_slot_spec INT_MAX {| random_y_ := random_y_ message; have_previous_ := false;
      have_next_ := false; message_id_ := id |} t1)
    as (v & Hslot & before' & after' & E1' & Hb' & Ha' & Hins); simpl in *;
    [by eapply sorted_ids|done|by eapply heap_similar|done|].
  exists v. split.
  { rewrite <-(insert_slot_similar t t1), Hslot by done. by rewrite app_nil_r. }
  destruct (Hins message eq_refl) as [-> Hh]. split; [|done].
  rewrite E1 in E1'. destruct (split_unique id _ _ _ _ E1') as [-> ->]; try done.
  - eapply Forall_impl; [exact Hb|]. simpl. lia.
  - eapply Forall_impl; [exact Hb'|]. simpl. lia.
Qed.

Lemma split_at_id id xs :
  sorted xs → id ∉ ids xs → ∃ before after, xs = before ++ after ∧ all_below id before ∧ all_above id after.
Proof.
  induction xs as [|m xs IH]; intros Hsort Hin; [exists [], []; repeat split; constructor|].
  apply (sorted_mid [] m xs) in Hsort as (_ & Hsort & _ & Ha).
  unfold ids in Hin. rewrite fmap_cons, not_elem_of_cons in Hin. destruct Hin as [Hne Hin].
  destruct (Z.lt_ge_cases (message_id_ m) id).
  - destruct (IH Hsort Hin) as (before & after & -> & Hb & Haf). exists (m :: before), after.
    split; [done|]. split; [by constructor|done].
  - exists [], (m :: xs). split; [done|]. split; [constructor|].
    constructor; [lia|]. eapply all_above_weaken; [|exact Ha]. lia.
Qed.

(** C13. Inserting an identifier that the tree does not have keeps all invariants (search
    order, heap order, agreeing connections), and changes the list of messages only at
    the new one: it is connected to its neighbours exactly as [new_links] says. *)
Theorem insert_places_message t id auto_attach last_id :
  messages_wf t → is_valid id = true → id ∉ ids (inorder t) →
  ∃ t', insert id auto_attach last_id t = Ok t' ∧ messages_wf t' ∧
    inserted auto_attach last_id id (inorder t) (inorder t').
Proof.
  intros Hwf Hv Hin. pose proof Hwf as [Hsort Hord Hheap Hc].
  destruct (split_at_id id _ Hsort Hin) as (before & after & E & Hb & Ha).
  set (message := {| random_y_ := random_y id; have_previous_ := false; have_next_ := false;
                     message_id_ := id |}).
  destruct (attach_new_spec auto_attach t message last_id before after)
    as (t1 & Hattach & Hsim & E1); try done.
  set (links := new_links auto_attach last_id (message_id_ message) before after) in *.
  set (message' := set_have_previous links.1 (set_have_next links.2 message)) in *.
  destruct (place_message t t1 id message' (set_last_next links.1 before) (set_first_previous links.2 after))
    as (v & Hslot & Ein & Hh); try done.
  { rewrite E1, E. unfold ids. rewrite !fmap_app. f_equal; [apply ids_set_last|apply ids_set_first]. }
  { by eapply (ids_all (λ i, i < id)); [symmetry; apply ids_set_last|]. }
  { by eapply (ids_all (λ i, id < i)); [symmetry; apply ids_set_first|]. }
  { apply i32_range. }
  unfold insert. fold message. change (random_y id) with (random_y_ message'). rewrite Hslot.
  cbn [mbind outcome_bind]. change (message_id_ message) with id in Hattach. rewrite Hattach. cbn [mbind outcome_bind]. eexists. split; [done|].
  assert (inserted auto_attach last_id id (inorder t)
    (inorder (assign v (λ cur, let (left, right) := split cur id in Node message' left right) t1))) as Hi.
  { exists before, after, message'. rewrite Ein. done. }
  split; [|done]. destruct (inserted_wf _ _ _ _ _ Hi Hsort Hord Hc Hv) as (H1 & H2 & H3). by constructor.
Qed.

(** ** Erasing *)

Lemma chain_previous pre m : chain false pre (have_previous_ m) → have_previous_ m = true → ∃ pre' p, pre = pre' ++ [p].
Proof.
  intros Hc Hp. destruct pre as [|p pre _] using rev_ind; [simpl in Hc; congruence|]. eauto.
Qed.

Lemma points_iterator t v pre m post :
  points t v pre m post → sorted (inorder t) → ordinary (inorder t) →
  v = erase_slot t (message_id_ m) [] → get_iterator t (message_id_ m) = Ok (Some v).
Proof.
  intros Hp Hsort Hord ->. pose proof (points_inorder _ _ _ _ _ Hp) as E.
  assert (is_scheduled (message_id_ m) = false) as Hs.
  { apply is_valid_not_scheduled. rewrite E in Hord. by eapply ordinary_mid. }
  unfold get_iterator. rewrite Hs. simpl. apply erase_slot_iterator; try done.
  rewrite E. unfold ids. rewrite fmap_app, fmap_cons. set_solver.
Qed.

Lemma erase_slot_similar t t' id v : similar t t' → erase_slot t' id v = erase_slot t id v.
Proof.
  intros H. revert v. induction H as [|m m' l l' r r' [Ey Ei] _ IHl _ IHr]; intros v; simpl; [done|].
  by rewrite Ei, IHl, IHr.
Qed.

Lemma erase_slot_points t pre m post :
  inorder t = pre ++ m :: post → sorted (inorder t) → ordinary (inorder t) →
  points t (erase_slot t (message_id_ m) []) pre m post.
Proof.
  intros E Hsort Hord. destruct (get_iterator_at t pre m post E Hsort Hord) as (path & Hit & Hp).
  unfold get_iterator in Hit. destruct (is_scheduled _) eqn:Hs; [done|]. simpl in Hit.
  rewrite erase_slot_iterator in Hit; [by simplify_eq|done|done|done|].
  rewrite E. unfold ids. rewrite fmap_app, fmap_cons. set_solver.
Qed.

Lemma disconnect_previous t v pre m post :
  points t v pre m post → v = erase_slot t (message_id_ m) [] → sorted (inorder t) →
  ordinary (inorder t) → chain false pre (have_previous_ m) → have_previous_ m = true →
  ∃ t', disconnect L (message_id_ m) v t = Ok t' ∧ similar t t' ∧
    inorder t' = set_last_next false pre ++ m :: post ∧
    points t' v (set_last_next false pre) m post.
Proof.
  intros Hp Hv Hsort Hord Hc Hprev. unfold disconnect.
  rewrite (points_iterator t v pre m post) by done. simpl. rewrite bool_decide_true by done. simpl.
  destruct (move_previous _ _ _ _ _ Hp Hprev) as [[-> _]|(pre' & p & w & -> & -> & Hw)].
  { simpl in Hc. congruence. }
  simpl. pose proof Hw as (Hat & _). rewrite (it_get_at _ _ _ Hat). simpl.
  destruct (set_at_spec t w (set_have_next false) _ _ _ (keep_have_next false) Hw) as (Hsim & E & _).
  eexists. split; [done|]. split; [done|]. rewrite set_last_next_snoc, <-app_assoc. split; [done|].
  eapply points_similar; [exact Hsim|exact Hp|by rewrite E, <-app_assoc|by rewrite !length_app].
Qed.

Lemma disconnect_next t v pre m post :
  points t v pre m post → v = erase_slot t (message_id_ m) [] → sorted (inorder t) →
  ordinary (inorder t) → chain (have_next_ m) post false → have_next_ m = true →
  ∃ t', disconnect R (message_id_ m) v t = Ok t' ∧ similar t t' ∧
    inorder t' = pre ++ m :: set_first_previous false post ∧
    points t' v pre m (set_first_previous false post).
Proof.
  intros Hp Hv Hsort Hord Hc Hnext. unfold disconnect.
  rewrite (points_iterator t v pre m post) by done. simpl. rewrite bool_decide_true by done. simpl.
  destruct (chain_nonempty _ _ Hc Hnext) as (n & ns & ->).
  destruct (move_next _ _ _ _ _ Hp Hnext) as (w & -> & Hw). simpl.
  pose proof Hw as (Hat & _). rewrite (it_get_at _ _ _ Hat). simpl.
  destruct (set_at_spec t w (set_have_previous false) _ _ _ (keep_have_previous false) Hw) as (Hsim & E & _).
  assert (inorder (set_at w (set_have_previous false) t) = pre ++ m :: set_first_previous false (n :: ns)) as E'
    by (by rewrite E, <-app_assoc).
  eexists. split; [done|]. split; [done|]. split; [done|]. by eapply points_similar.
Qed.

(** What erasing makes of the list: when the message was connected on both sides and is
    really gone, its neighbours become connected; otherwise a gap remains. *)
Definition erased (only_from_memory : bool) (id : Z) (xs ys : list OrderedMessage) : Prop :=
  ∃ pre m post, xs = pre ++ m :: post ∧ message_id_ m = id ∧
    let c := have_previous_ m && have_next_ m && negb only_from_memory in
    ys = set_last_next c pre ++ set_first_previous c post.

Lemma erased_wf only id xs ys :
  erased only id xs ys → sorted xs → ordinary xs → chain false xs false →
  sorted ys ∧ ordinary ys ∧ chain false ys false.
Proof.
  intros (pre & m & post & -> & _ & ->) Hsort Hord Hc.
  set (c := have_previous_ m && have_next_ m && negb only).
  pose proof (ids_set_last c pre) as E1. pose proof (ids_set_first c post) as E2.
  apply chain_app in Hc as (d & Hc1 & Hd & Hc2). subst d.
  assert (sorted (pre ++ post)) as Hs.
  { apply sorted_mid in Hsort as (H1 & H2 & Hb & Ha). unfold sorted, ids. rewrite fmap_app.
    apply StronglySorted_app. split; [|done].
    intros x y (a & -> & Hx)%list_elem_of_fmap_1 (b & -> & Hy)%list_elem_of_fmap_1.
    unfold all_below, all_above in *. rewrite Forall_forall in Hb, Ha.
    specialize (Hb a Hx). specialize (Ha b Hy). simpl in *. lia. }
  apply Forall_app in Hord as [Ho1 [_ Ho2]%Forall_cons].
  split; [|split].
  - eapply sorted_ids, Hs. unfold ids in *. rewrite !fmap_app. congruence.
  - apply Forall_app. split; by eapply (ids_all (λ i, is_valid i = true)).
  - apply chain_app. exists c. split.
    + eapply chain_set_last; [exact Hc1|]. intros ->. simpl in Hc1. subst c. by rewrite <-Hc1.
    + eapply chain_set_first; [exact Hc2|]. intros ->. simpl in Hc2. subst c. rewrite Hc2. by rewrite andb_false_r.
Qed.

(** The connections before the message is taken out. *)
Lemma disconnect_both t pre m post only :
  messages_wf t → inorder t = pre ++ m :: post →
  let v := erase_slot t (message_id_ m) [] in
  let c := have_previous_ m && have_next_ m && negb only in
  ∃ t1 t2,
    (if have_previous_ m && (only || negb (have_next_ m))
     then disconnect L (message_id_ m) v t else Ok t) = Ok t1 ∧
    (if have_next_ m && (only || negb (have_previous_ m))
     then disconnect R (message_id_ m) v t1 else Ok t1) = Ok t2 ∧
    similar t t2 ∧ points t2 v (set_last_next c pre) m (set_first_previous c post).
Proof.
  intros [Hsort Hord Hheap Hc] E v c.
  pose proof (erase_slot_points t pre m post E Hsort Hord) as Hp. fold v in Hp.
  pose proof Hc as Hc'. rewrite E in Hc'. apply chain_app in Hc' as (d & Hc1 & Hd & Hc2). subst d.
  assert (∃ t1, (if have_previous_ m && (only || negb (have_next_ m))
     then disconnect L (message_id_ m) v t else Ok t) = Ok t1 ∧ similar t t1 ∧
     points t1 v (set_last_next c pre) m post) as (t1 & -> & Hsim1 & Hp1).
  { destruct (have_previous_ m && (only || negb (have_next_ m))) eqn:Eb.
    - pose proof Eb as [Hprev _]%andb_true_iff.
      destruct (disconnect_previous t v pre m post) as (t1 & -> & Hsim & E1 & Hp1); try done.
      exists t1. assert (c = false) as ->; [|done]. subst c.
      by destruct (have_previous_ m), (have_next_ m), only.
    - exists t. split; [done|]. split; [done|]. assert (c = have_previous_ m) as ->.
      { subst c. by destruct (have_previous_ m), (have_next_ m), only. }
      by erewrite set_last_next_same. }
  exists t1. assert (ids (inorder t1) = ids (inorder t)) as Eids.
  { rewrite E, (points_inorder _ _ _ _ _ Hp1). unfold ids. rewrite !fmap_app. f_equal. apply ids_set_last. }
  assert (∃ t2, (if have_next_ m && (only || negb (have_previous_ m))
     then disconnect R (message_id_ m) v t1 else Ok t1) = Ok t2 ∧ similar t1 t2 ∧
     points t2 v (set_last_next c pre) m (set_first_previous c post)) as (t2 & -> & Hsim2 & Hp2).
  { destruct (have_next_ m && (only || negb (have_previous_ m))) eqn:Eb.
    - pose proof Eb as [Hnext _]%andb_true_iff.
      destruct (disconnect_next t1 v (set_last_next c pre) m post) as (t2 & -> & Hsim & E2 & Hp2); try done.
      { subst v. by rewrite (erase_slot_similar t t1). }
      { by eapply sorted_ids. }
      { by eapply (ids_all (λ i, is_valid i = true)). }
      exists t2. assert (c = false) as Ec; [|by rewrite Ec in *]. subst c.
      by destruct (have_previous_ m), (have_next_ m), only.
    - exists t1. split; [done|]. split; [done|]. assert (c = have_next_ m) as Ec.
      { subst c. by destruct (have_previous_ m), (have_next_ m), only. }
      rewrite Ec at 2. by erewrite set_first_previous_same. }
  exists t2. split; [done|]. split; [done|]. split; [by etrans|done].
Qed.

(** C21. Erasing a message of the tree keeps all invariants; the neighbours become connected
    exactly when nothing is missing between them. *)
Theorem erase_removes_message t id only_from_memory :
  messages_wf t → id ∈ ids (inorder t) →
  ∃ t', erase id only_from_memory t = Ok t' ∧ messages_wf t' ∧
    erased only_from_memory id (inorder t) (inorder t').
Proof.
  intros Hwf (m & -> & Hin)%list_elem_of_fmap_1. pose proof Hwf as [Hsort Hord Hheap Hc].
  apply list_elem_of_split in Hin as (pre & post & E).
  destruct (disconnect_both t pre m post only_from_memory Hwf E) as (t1 & t2 & H1 & H2 & Hsim & Hp).
  pose proof (erase_slot_points t pre m post E Hsort Hord) as ((l & r & Em) & _).
  unfold erase. rewrite Em, H1. cbn [mbind outcome_bind]. rewrite H2. cbn [mbind outcome_bind].
  set (v := erase_slot t (message_id_ m) []) in *.
  set (c := have_previous_ m && have_next_ m && negb only_from_memory) in *.
  eexists. split; [done|].
  assert (inorder (assign v (λ cur, merge (child L cur) (child R cur)) t2)
    = set_last_next c pre ++ set_first_previous c post) as E'.
  { destruct Hp as ((l2 & r2 & Em2) & HL & HR). rewrite inorder_assign by (apply at_path_ok; by rewrite Em2).
    rewrite Em2. cbn [child]. destruct (merge_spec 0 l2 r2) as [-> _].
    rewrite <-(reverse_involutive (set_last_next c pre)), <-HL, <-HR. unfold rest. rewrite Em2. simpl.
    rewrite reverse_app, reverse_involutive. by rewrite <-!app_assoc. }
  assert (erased only_from_memory (message_id_ m) (inorder t)
    (inorder (assign v (λ cur, merge (child L cur) (child R cur)) t2))) as He.
  { exists pre, m, post. by rewrite E'. }
  split; [|done]. destruct (erased_wf _ _ _ _ He Hsort Hord Hc) as (Ha & Hb & Hd).
  constructor; [done|done| |done]. apply heap_at_path; [|by eapply heap_similar].
  intros b u. destruct u as [|mu lu ru]; [done|]. intros (Hy & Hl & Hr). cbn [child].
  apply merge_spec; by eapply heap_weaken.
Qed.

(** ** An example: three messages, a gap between the first two *)

Definition example_tree : tree :=
  match
    t ← insert (server_MessageId 10) false 0 Null;
    t ← insert (server_MessageId 20) false 0 t;
    insert (server_MessageId 30) true (server_MessageId 20) t
  with Ok t => t | Fault _ => Null end.

Lemma example_list :
  ids (inorder example_tree) = [10485760; 20971520; 31457280] ∧
  chain false (inorder example_tree) false.
Proof. split; vm_compute; [reflexivity|repeat split]. Qed.

Lemma example_tree_wf : messages_wf example_tree.
Proof.
  destruct example_list as [Eids Hc]. constructor; [| | |done].
  - unfold sorted. rewrite Eids. repeat constructor.
  - apply (all_ids (λ i, is_valid i = true)). rewrite Eids. repeat constructor.
  - vm_compute. intuition discriminate.
Qed.

Lemma insert_places_message_witness :
  ∃ t', insert (server_MessageId 25) true 0 example_tree = Ok t' ∧ messages_wf t'.
Proof.
  destruct (insert_places_message example_tree (server_MessageId 25) true 0 example_tree_wf) as (t' & Hi & Hwf & _).
  - reflexivity.
  - rewrite (proj1 example_list). intros H.
    repeat (apply elem_of_cons in H as [H|H]; [discriminate|]). by apply elem_of_nil in H.
  - exists t'. split; assumption.
Defined.

Lemma erase_removes_message_witness :
  ∃ t', erase (server_MessageId 20) false example_tree = Ok t' ∧ messages_wf t'.
Proof.
  destruct (erase_removes_message example_tree (server_MessageId 20) false example_tree_wf) as (t' & He & Hwf & _).
  - rewrite (proj1 example_list). right. left.
  - exists t'. split; assumption.
Defined.
