(* ===== verification/OrderedMessagesSearch.v ===== *)
(** * Searching in ordered messages

    Attaching messages to their neighbours, the searches by identifier and by date, and
    [get_history], each related to the list of messages. *)
From S2P Require Import Prelude MessageId OrderedMessages OrderedMessagesFacts.

#[local] Arguments it_get : simpl never.
#[local] Arguments move : simpl never.
#[local] Arguments id_compare : simpl never.

(** ** Attaching *)

Lemma attach_at t d id path m :
  get_iterator t id = Ok (Some path) → at_message t path m → message_id_ m = id → is_valid id = true →
  attach d id t =
    if has_neighbour d m then Ok t
    else
      let t1 := set_at path (set_neighbour d true) t in
      it ← move d t1 (Some path);
      n ← it_get t1 it;
      match it, n with
      | Some w, Some n =>
          if has_neighbour (opposite d) n
          then Ok (set_at path (set_neighbour (opposite d) true) t1)
          else Ok (set_at w (set_neighbour (opposite d) true) t1)
      | _, _ => Fault AssertFailure
      end.
Proof.
  intros Hit Hat Hid Hv. unfold attach. rewrite Hv, Hit. simpl.
  rewrite (it_get_at _ _ _ Hat). simpl. by rewrite Hid, Z.eqb_refl.
Qed.

(** The list after two neighbours are connected. *)
Lemma connect_wf t t' pre p m post :
  messages_wf t → inorder t = (pre ++ [p]) ++ m :: post → similar t t' →
  inorder t' = (pre ++ [set_have_next true p]) ++ set_have_previous true m :: post →
  messages_wf t'.
Proof.
  intros [Hsort Hord Hheap Hc] E Hsim E'.
  assert (ids (inorder t') = ids (inorder t)) as Eids.
  { rewrite E, E'. unfold ids. by rewrite !fmap_app. }
  constructor; [by eapply sorted_ids|by eapply (ids_all (λ i, is_valid i = true))|by eapply heap_similar|].
  rewrite E in Hc. rewrite E'. apply chain_app in Hc as (c & [Hc1 _]%chain_snoc & [_ Hc2]).
  apply chain_app. exists true. split; [by apply chain_snoc|done].
Qed.

(** Attaching a message to the one before it: nothing changes when they are connected
    already, exactly these two become connected otherwise, and the code's check fails
    when there is no message before. *)
Lemma attach_previous_spec t pre m post :
  messages_wf t → inorder t = pre ++ m :: post →
  if have_previous_ m then attach_message_to_previous (message_id_ m) t = Ok t
  else if decide (pre = []) then attach_message_to_previous (message_id_ m) t = Fault AssertFailure
  else ∃ t', attach_message_to_previous (message_id_ m) t = Ok t' ∧ messages_wf t' ∧
    inorder t' = set_last_next true pre ++ set_have_previous true m :: post.
Proof.
  intros Hwf E. pose proof Hwf as [Hsort Hord Hheap Hc].
  destruct (get_iterator_at t pre m post E Hsort Hord) as (path & Hit & Hp). pose proof Hp as (Hat & _).
  assert (is_valid (message_id_ m) = true) as Hv by (rewrite E in Hord; by eapply ordinary_mid).
  unfold attach_message_to_previous. rewrite (attach_at t L _ path m Hit Hat eq_refl Hv). cbn [has_neighbour].
  destruct (have_previous_ m) eqn:Hm; [done|]. cbn zeta.
  destruct (set_at_spec t path (set_have_previous true) _ _ _ (keep_have_previous true) Hp) as (Hsim & E1 & Hp1).
  cbn [set_neighbour]. set (t1 := set_at path (set_have_previous true) t) in *.
  destruct (move_previous _ _ _ _ _ Hp1 eq_refl) as [[-> ->]|(pre' & p & w & -> & -> & Hw)]; [done|].
  rewrite decide_False by (by destruct pre'). simpl. pose proof Hw as (Hatw & _).
  rewrite (it_get_at _ _ _ Hatw). simpl.
  assert (have_next_ p = false) as ->.
  { rewrite E in Hc. apply chain_app in Hc as (c & [_ Hc1]%chain_snoc & [Hc2 _]). congruence. }
  destruct (set_at_spec t1 w (set_have_next true) _ _ _ (keep_have_next true) Hw) as (Hsim2 & E2 & _).
  assert (inorder (set_at w (set_have_next true) t1)
    = (pre' ++ [set_have_next true p]) ++ set_have_previous true m :: post) as E3
    by (by rewrite E2, <-app_assoc).
  eexists. split; [done|]. split; [|by rewrite set_last_next_snoc].
  eapply connect_wf; [exact Hwf|exact E|by etrans|done].
Qed.

Lemma attach_next_spec t pre m post :
  messages_wf t → inorder t = pre ++ m :: post →
  if have_next_ m then attach_message_to_next (message_id_ m) t = Ok t
  else if decide (post = []) then attach_message_to_next (message_id_ m) t = Fault AssertFailure
  else ∃ t', attach_message_to_next (message_id_ m) t = Ok t' ∧ messages_wf t' ∧
    inorder t' = pre ++ set_have_next true m :: set_first_previous true post.
Proof.
  intros Hwf E. pose proof Hwf as [Hsort Hord Hheap Hc].
  destruct (get_iterator_at t pre m post E Hsort Hord) as (path & Hit & Hp). pose proof Hp as (Hat & _).
  assert (is_valid (message_id_ m) = true) as Hv by (rewrite E in Hord; by eapply ordinary_mid).
  unfold attach_message_to_next. rewrite (attach_at t R _ path m Hit Hat eq_refl Hv). cbn [has_neighbour].
  destruct (have_next_ m) eqn:Hm; [done|]. cbn zeta.
  destruct (set_at_spec t path (set_have_next true) _ _ _ (keep_have_next true) Hp) as (Hsim & E1 & Hp1).
  cbn [set_neighbour]. set (t1 := set_at path (set_have_next true) t) in *.
  pose proof (move_next _ _ _ _ _ Hp1 eq_refl) as Hmove.
  destruct post as [|n post]; [by rewrite Hmove|]. destruct Hmove as (w & -> & Hw). simpl.
  pose proof Hw as (Hatw & _). rewrite (it_get_at _ _ _ Hatw). simpl.
  assert (have_previous_ n = false) as ->.
  { rewrite E in Hc. apply chain_app in Hc as (c & _ & Hc). simpl in Hc. rewrite Hm in Hc. tauto. }
  destruct (set_at_spec t1 w (set_have_previous true) _ _ _ (keep_have_previous true) Hw) as (Hsim2 & E2 & _).
  eexists. split; [done|].
  assert (inorder (set_at w (set_have_previous true) t1)
    = (pre ++ [set_have_next true m]) ++ set_have_previous true n :: post) as E3 by done.
  split; [|by rewrite E3, <-app_assoc].
  eapply connect_wf; [exact Hwf|by rewrite E, <-app_assoc|by etrans|done].
Qed.

(** ** Searching by identifier *)

Lemma do_find_older_spec t max acc :
  sorted (inorder t) → ordinary (inorder t) → is_scheduled max = false →
  do_find_older_messages t max acc = Ok (acc ++ ids (filter (λ m, message_id_ m ≤ max) (inorder t))).
Proof.
  revert acc. induction t as [|m l IHl r IHr]; intros acc; simpl; [intros; by rewrite app_nil_r|].
  intros (Hsl & Hsr & Hb & Ha)%sorted_mid [Hvl [Hv Hvr]%Forall_cons]%Forall_app Hs.
  rewrite IHl by done. simpl. unfold id_le. rewrite compare_valid by done. simpl.
  rewrite filter_app. unfold ids. rewrite fmap_app.
  destruct (message_id_ m <=? max) eqn:E; zbool.
  - rewrite filter_cons_True by done. rewrite IHr by done. unfold ids. by rewrite <-!app_assoc.
  - rewrite filter_cons_False by lia. rewrite (filter_none _ (inorder r)); [by rewrite !app_nil_r|].
    eapply Forall_impl; [exact Ha|]. simpl. lia.
Qed.

Lemma do_find_newer_spec t min acc :
  sorted (inorder t) → ordinary (inorder t) → is_scheduled min = false →
  do_find_newer_messages t min acc = Ok (acc ++ ids (filter (λ m, min < message_id_ m) (inorder t))).
Proof.
  revert acc. induction t as [|m l IHl r IHr]; intros acc; simpl; [intros; by rewrite app_nil_r|].
  intros (Hsl & Hsr & Hb & Ha)%sorted_mid [Hvl [Hv Hvr]%Forall_cons]%Forall_app Hs.
  unfold id_gt. rewrite compare_valid by done. simpl.
  rewrite filter_app. unfold ids. rewrite fmap_app.
  destruct (message_id_ m >? min) eqn:E.
  - rewrite IHl by done. simpl. rewrite IHr by done. rewrite filter_cons_True by lia.
    unfold ids. by rewrite <-!app_assoc.
  - simpl. rewrite IHr by done. rewrite filter_cons_False by lia.
    rewrite (filter_none _ (inorder l)); [done|]. eapply Forall_impl; [exact Hb|]. simpl. lia.
Qed.

(** Attaching and searching by identifier: the searches skip subtrees, but find exactly
    the messages not above, and exactly those above, the given identifier, in order. *)
Theorem find_messages_by_id t bound :
  messages_wf t → is_scheduled bound = false →
  find_older_messages t bound = Ok (ids (filter (λ m, message_id_ m ≤ bound) (inorder t))) ∧
  find_newer_messages t bound = Ok (ids (filter (λ m, bound < message_id_ m) (inorder t))).
Proof.
  intros [Hsort Hord _ _] Hs. split; [by apply do_find_older_spec|by apply do_find_newer_spec].
Qed.

(** ** Searching by date *)

Section dates.
Context (get_message_date : Z → Z).

(** The dates grow with the identifiers. *)
Definition dates_grow (xs : list OrderedMessage) : Prop :=
  ∀ a b, a ∈ xs → b ∈ xs → message_id_ a ≤ message_id_ b →
    get_message_date (message_id_ a) ≤ get_message_date (message_id_ b).

Definition date_of (m : OrderedMessage) : Z := get_message_date (message_id_ m).

Lemma dates_mid pre m post :
  sorted (pre ++ m :: post) → dates_grow (pre ++ m :: post) →
  dates_grow pre ∧ dates_grow post ∧ Forall (λ x, date_of x ≤ date_of m) pre ∧
  Forall (λ x, date_of m ≤ date_of x) post.
Proof.
  intros (_ & _ & Hb & Ha)%sorted_mid Hd.
  split; [intros a b ???; apply Hd; set_solver|]. split; [intros a b ???; apply Hd; set_solver|].
  unfold all_below, all_above in *. rewrite Forall_forall in Hb, Ha.
  split; apply Forall_forall; intros x Hx; unfold date_of.
  - apply Hd; [set_solver|set_solver|]. specialize (Hb x Hx). simpl in Hb. lia.
  - apply Hd; [set_solver|set_solver|]. specialize (Ha x Hx). simpl in Ha. lia.
Qed.

Lemma do_find_messages_by_date_spec t min_date max_date acc :
  sorted (inorder t) → dates_grow (inorder t) →
  do_find_messages_by_date t min_date max_date get_message_date acc
  = acc ++ ids (filter (λ m, min_date ≤ date_of m ≤ max_date) (inorder t)).
Proof.
  revert acc. induction t as [|m l IHl r IHr]; intros acc; simpl; [intros; by rewrite app_nil_r|].
  intros Hsort Hd. pose proof Hsort as (Hsl & Hsr & _ & _)%sorted_mid.
  destruct (dates_mid _ _ _ Hsort Hd) as (Hdl & Hdr & Hle & Hge).
  rewrite filter_app. unfold ids. rewrite fmap_app. fold (ids (filter (λ m, min_date ≤ date_of m ≤ max_date) (inorder l))).
  assert (get_message_date (message_id_ m) = date_of m) as -> by done.
  destruct (date_of m >=? min_date) eqn:E1; destruct (date_of m <=? max_date) eqn:E2; zbool.
  - rewrite IHl, IHr by done. rewrite filter_cons_True by lia. unfold ids. by rewrite <-!app_assoc.
  - rewrite IHl by done. rewrite filter_cons_False by lia.
    rewrite (filter_none _ (inorder r)); [by rewrite app_nil_r|].
    eapply Forall_impl; [exact Hge|]. simpl. lia.
  - rewrite IHr by done. rewrite filter_cons_False by lia.
    rewrite (filter_none _ (inorder l)); [done|]. eapply Forall_impl; [exact Hle|]. simpl. lia.
  - rewrite filter_cons_False by lia. rewrite (filter_none _ (inorder r)), (filter_none _ (inorder l));
      [by rewrite app_nil_r|..]; (eapply Forall_impl; [eassumption|]; simpl; lia).
Qed.

Lemma do_find_message_by_date_spec t date :
  sorted (inorder t) → ordinary (inorder t) → dates_grow (inorder t) →
  do_find_message_by_date t date get_message_date
  = from_option message_id_ 0 (last (filter (λ m, date_of m ≤ date) (inorder t))).
Proof.
  induction t as [|m l IHl r IHr]; simpl; [done|].
  intros Hsort [Hvl [Hv Hvr]%Forall_cons]%Forall_app Hd. pose proof Hsort as (Hsl & Hsr & _ & _)%sorted_mid.
  destruct (dates_mid _ _ _ Hsort Hd) as (Hdl & Hdr & Hle & Hge).
  rewrite filter_app. assert (get_message_date (message_id_ m) = date_of m) as -> by done.
  destruct (date_of m >? date) eqn:E.
  - rewrite filter_cons_False by lia. rewrite (filter_none _ (inorder r)); [by rewrite app_nil_r, IHl|].
    eapply Forall_impl; [exact Hge|]. simpl. lia.
  - rewrite filter_cons_True by lia. rewrite IHr, last_app_cons by done. rewrite last_cons.
    destruct (last (filter _ (inorder r))) as [x|] eqn:Ex; simpl.
    + apply last_Some_elem_of, list_elem_of_filter in Ex as [_ Hx].
      rewrite Forall_forall in Hvr. by rewrite (Hvr x Hx).
    + done.
Qed.
End dates.

(** When dates grow with the identifiers, the searches by date that skip subtrees find the
    last message not after a date, and all messages between two dates, in order. *)
Theorem find_messages_by_dates t get_message_date min_date max_date :
  messages_wf t → dates_grow get_message_date (inorder t) →
  find_message_by_date t max_date get_message_date
    = from_option message_id_ 0
        (last (filter (λ m, date_of get_message_date m ≤ max_date) (inorder t))) ∧
  find_messages_by_date t min_date max_date get_message_date
    = ids (filter (λ m, min_date ≤ date_of get_message_date m ≤ max_date) (inorder t)).
Proof.
  intros [Hsort Hord _ _] Hd. split; [by apply do_find_message_by_date_spec|].
  by apply do_find_messages_by_date_spec.
Qed.

Lemma find_messages_by_id_witness :
  find_older_messages example_tree (server_MessageId 20) = Ok [server_MessageId 10; server_MessageId 20].
Proof.
  exact (proj1 (find_messages_by_id example_tree (server_MessageId 20) example_tree_wf eq_refl)).
Defined.

Lemma find_messages_by_dates_witness :
  find_message_by_date example_tree (2 ^ 20 * 25) (λ id, id) = server_MessageId 20.
Proof.
  refine (proj1 (find_messages_by_dates example_tree (λ id, id) 0 (2 ^ 20 * 25) example_tree_wf _)).
  intros a b _ _ H. exact H.
Defined.
