(* ===== verification/OrderedHistory.v ===== *)
(** * The history that [OrderedMessages::get_history] returns

    [get_history] never fails a check, and returns the messages that a definition over
    the list of the messages selects: it moves over the list instead of an iterator
    over the tree, and collects a run of neighbours, the newest first. *)
From S2P Require Import Prelude MessageId OrderedMessages OrderedMessagesFacts.

#[local] Arguments it_get : simpl never.
#[local] Arguments move : simpl never.
#[local] Arguments id_compare : simpl never.
#[local] Arguments get_iterator : simpl never.
#[local] Arguments Z.add : simpl never.
#[local] Arguments Z.opp : simpl never.
#[local] Arguments Z.to_nat : simpl never.

(** ** The reference, over the list of the messages

    A place in the history is the messages up to it, the newest first, and those after
    it, the oldest first. *)
Implicit Types (xs past future : list OrderedMessage).

Definition older xs (id : Z) : list OrderedMessage := reverse (filter (λ m, message_id_ m ≤ id) xs).
Definition newer xs (id : Z) : list OrderedMessage := filter (λ m, id < message_id_ m) xs.

(** One message back, unless there is a gap before the current one. *)
Definition earlier past : list OrderedMessage :=
  match past with
  | m :: rest => if have_previous_ m then rest else []
  | [] => []
  end.

(** At most [n] identifiers, going back until a gap. *)
Fixpoint back (n : nat) past : list Z :=
  match n, past with
  | S n, m :: _ => message_id_ m :: back n (earlier past)
  | _, _ => []
  end.

(** At most [n] messages ahead, until a gap; and how many are missing. *)
Fixpoint ahead (n : nat) past future : list OrderedMessage * nat :=
  match n, past, future with
  | S n', m :: _, x :: future => if have_next_ m then ahead n' (x :: past) future else (past, n)
  | _, _, _ => (past, n)
  end.

(** Applying the offset at a place without a gap: where to collect from (nowhere is the
    empty list), and how many messages. The message [from] itself counts as a step
    ahead. When the newest message that is known without a gap is reached first, fewer
    messages are taken if that is the last message of the chat, or by force. *)
Definition walk (last_id from offset limit : Z) (force : bool) past future
    : list OrderedMessage * Z :=
  match past with
  | [] => ([], limit)
  | m :: _ =>
      if (message_id_ m =? from) && (offset =? 0) then (earlier past, limit)
      else
        let steps := Z.to_nat (if message_id_ m =? from then - (offset + 1) else - offset) in
        let (past', left) := ahead steps past future in
        let reached := if (left <? steps)%nat then default from (message_id_ <$> head past') else from in
        if (left =? 0)%nat then (past', limit)
        else if negb (last_id =? 0) && (reached >=? last_id) || force
        then (past', limit - Z.of_nat left)
        else ([], limit)
  end.

(** Where the history starts: at [from]; by force at the first message, if [from] is
    before it; nowhere, if [from] is in a gap. *)
Definition start_here xs (last_id from offset limit : Z) (force : bool)
    : list OrderedMessage * Z :=
  match older xs from with
  | [] =>
      match xs with
      | x :: xs =>
          if force && (offset <? 0) then walk last_id (message_id_ x) offset limit force [x] xs
          else ([], limit)
      | [] => ([], limit)
      end
  | m :: _ =>
      if negb (message_id_ m =? from) && negb (have_next_ m) &&
         ((last_id =? 0) || (message_id_ m <? last_id))
      then ([], limit)
      else walk last_id from offset limit force (older xs from) (newer xs from)
  end.

(** From the end of the chat, the messages the offset asks for do not exist. *)
Definition history_place xs (last_id from offset limit : Z) (force : bool)
    : list OrderedMessage * Z :=
  if negb (last_id =? 0) && (from >? last_id) || (from >=? max_message_id)
  then (if last_id =? 0 then [] else older xs from, limit + offset)
  else start_here xs last_id from offset limit force.

(** When [from] itself is not wanted ([limit = - offset]), one more message is collected
    and the last dropped. *)
Definition history_of xs (last_id from offset limit : Z) (force : bool) : list Z :=
  let increased := limit =? - offset in
  let (past, wanted) := history_place xs last_id from offset (if increased then limit + 1 else limit) force in
  let message_ids := back (Z.to_nat wanted) past in
  if increased && (Z.of_nat (length message_ids) =? wanted) then removelast message_ids else message_ids.

(** ** Iterators as places of the list *)

Definition at_list (t : tree) (it : iterator) past future : Prop :=
  match it with
  | None => past = []
  | Some path => ∃ pre m, points t path pre m future ∧ past = m :: reverse pre
  end.

Lemma at_list_get t it past future : at_list t it past future → it_get t it = Ok (head past).
Proof.
  destruct it as [path|]; [|by intros ->]. intros (pre & m & Hp & ->). by apply it_get_at, Hp.
Qed.

Lemma at_list_cons t it m rest future :
  at_list t it (m :: rest) future →
  ∃ path, it = Some path ∧ points t path (reverse rest) m future.
Proof.
  destruct it as [path|]; [|done]. intros (pre & x & Hp & [= -> ->]). exists path.
  by rewrite reverse_involutive.
Qed.

Lemma at_list_inorder t it m rest future :
  at_list t it (m :: rest) future → inorder t = reverse rest ++ m :: future.
Proof. intros (path & _ & Hp)%at_list_cons. by apply points_inorder in Hp. Qed.

Lemma move_back t it past future :
  at_list t it past future →
  ∃ it' future', move L t it = Ok it' ∧ at_list t it' (earlier past) future'.
Proof.
  destruct past as [|m rest]; simpl.
  { destruct it as [path|]; [intros (? & ? & _ & ?); done|]. by exists None, []. }
  intros (path & -> & Hp)%at_list_cons. destruct (have_previous_ m) eqn:Hm.
  - destruct (move_previous _ _ _ _ _ Hp Hm) as [[E ->]|(pre & p & w & E & -> & Hw)].
    + exists None, []. split; [done|]. apply (f_equal reverse) in E. by rewrite reverse_involutive in E.
    + exists (Some w), (m :: future). split; [done|]. exists pre, p. split; [done|].
      apply (f_equal reverse) in E. by rewrite reverse_involutive, reverse_snoc in E.
  - exists None, []. by rewrite (move_end L t path m) by (done || apply Hp).
Qed.

Lemma move_ahead t it m rest future :
  at_list t it (m :: rest) future →
  match future with
  | x :: future' =>
      if have_next_ m
      then ∃ it', move R t it = Ok it' ∧ at_list t it' (x :: m :: rest) future'
      else move R t it = Ok None
  | [] => move R t it = Ok None
  end.
Proof.
  intros (path & -> & Hp)%at_list_cons. destruct (have_next_ m) eqn:Hm.
  - pose proof (move_next _ _ _ _ _ Hp Hm) as Hn. destruct future as [|x future]; [done|].
    destruct Hn as (w & -> & Hw). exists (Some w). split; [done|]. eexists _, _. split; [exact Hw|].
    by rewrite reverse_snoc, reverse_involutive.
  - rewrite (move_end R t path m) by (done || apply Hp). by destruct future.
Qed.

(** [get_iterator] finds the place. *)
Lemma found_at_list t id it :
  sorted (inorder t) → found t id it → at_list t it (older (inorder t) id) (newer (inorder t) id).
Proof.
  intros Hsort. unfold older, newer. destruct it as [path|]; simpl.
  - intros (pre & m & post & Hp & Hm & Ha). pose proof (points_inorder _ _ _ _ _ Hp) as E.
    rewrite E in *. apply sorted_mid in Hsort as (_ & _ & Hb & _).
    assert (filter (λ x, message_id_ x ≤ id) pre = pre ∧ filter (λ x, id < message_id_ x) pre = []) as [F1 F2].
    { clear -Hb Hm. induction Hb as [|x pre Hx _ [IH1 IH2]]; [done|].
      rewrite !filter_cons, IH1, IH2. repeat case_decide; (done || lia). }
    assert (filter (λ x, message_id_ x ≤ id) post = [] ∧ filter (λ x, id < message_id_ x) post = post) as [F3 F4].
    { clear -Ha. induction Ha as [|x post Hx _ [IH1 IH2]]; [done|].
      rewrite !filter_cons, IH1, IH2. repeat case_decide; (done || lia). }
    exists pre, m. rewrite !filter_app, !filter_cons, F1, F2, F3, F4.
    repeat case_decide; try lia. by rewrite reverse_snoc.
  - intros Ha. induction Ha as [|x xs Hx _ IH]; [done|]. rewrite filter_cons_False by lia.
    apply IH. unfold sorted, ids in *. rewrite fmap_cons in Hsort. by apply StronglySorted_cons in Hsort as [_ ?].
Qed.

Lemma get_iterator_at_list t id it m rest future :
  sorted (inorder t) → ordinary (inorder t) → is_scheduled id = false →
  inorder t = reverse rest ++ m :: future → message_id_ m ≤ id → all_above id future →
  get_iterator t id = Ok it → at_list t it (m :: rest) future.
Proof.
  intros Hsort Hord Hs E Hm Ha Hit.
  assert (Forall (λ x, message_id_ x ≤ id) (reverse rest ++ [m])) as Hb.
  { rewrite E in Hsort. apply sorted_mid in Hsort as (_ & _ & Hb & _).
    apply Forall_app. split; [|by constructor].
    eapply Forall_impl; [exact Hb|]. intros x Hx. simpl in Hx. lia. }
  destruct (get_iterator_split t id (reverse rest ++ [m]) future) as [[? _]|(pre & p & path & Ep & Hg & Hp)];
    try done; [by rewrite E, <-app_assoc|by destruct (reverse rest)|].
  rewrite Hit in Hg. injection Hg as ->. apply app_inj_tail in Ep as [<- <-]. exists (reverse rest), m.
  by rewrite reverse_involutive.
Qed.

(** ** Collecting *)

Lemma back_nil n : back n [] = [].
Proof. by destruct n. Qed.

Lemma collect_list n t it past future acc from e :
  at_list t it past future →
  ∃ from' e', collect n t it acc from e = Ok (acc ++ back n past, from', e').
Proof.
  revert it past future acc from e. induction n as [|n IH]; intros it past future acc from e Hit; simpl.
  { exists from, e. by rewrite app_nil_r. }
  rewrite (at_list_get _ _ _ _ Hit). simpl. destruct past as [|m rest]; simpl.
  { exists from, e. by rewrite app_nil_r. }
  destruct (move_back _ _ _ _ Hit) as (it' & future' & -> & Hit'). simpl.
  destruct (IH it' _ future' (acc ++ [message_id_ m]) (message_id_ m) false Hit') as (from' & e' & ->).
  exists from', e'. by rewrite <-app_assoc.
Qed.

(** ** Moving ahead *)

Lemma ahead_split n past future :
  past ≠ [] → ∃ m rest future', (ahead n past future).1 = m :: rest ∧
    reverse rest ++ m :: future' = reverse past ++ future ∧
    ((ahead n past future).2 ≤ n)%nat ∧
    (((ahead n past future).2 = n ∧ (ahead n past future).1 = past ∧ future' = future) ∨
     ((ahead n past future).2 < n)%nat).
Proof.
  revert past future. induction n as [|n IH]; intros past future Hne; simpl.
  { destruct past as [|m rest]; [done|]. exists m, rest, future. rewrite reverse_cons, <-app_assoc. naive_solver. }
  destruct past as [|m rest]; [done|].
  assert (∃ m0 rest0 future', m :: rest = m0 :: rest0 ∧
    reverse rest0 ++ m0 :: future' = reverse (m :: rest) ++ future ∧ (S n ≤ S n)%nat ∧
    ((S n = S n ∧ m :: rest = m :: rest ∧ future' = future) ∨ (S n < S n)%nat)) as Hstay.
  { exists m, rest, future. rewrite reverse_cons, <-app_assoc. naive_solver. }
  destruct future as [|x future]; [exact Hstay|]. destruct (have_next_ m); [|exact Hstay].
  destruct (IH (x :: m :: rest) future ltac:(done)) as (m' & rest' & future' & E1 & E2 & E3 & _).
  exists m', rest', future'. split; [done|]. split; [|lia].
  rewrite E2, (reverse_cons (m :: rest)), <-app_assoc. done.
Qed.

Lemma forward_loop_end n t from offset :
  (cur ← it_get t None;
   match cur with
   | Some m => forward_loop n t None (message_id_ m) (offset + 1)
   | None => forward_loop n t None from offset
   end) = Ok (None, from, offset).
Proof. change (it_get t None) with (Ok (A := option OrderedMessage) None). by destruct n. Qed.

Lemma forward_list n t it m rest future from offset :
  ordinary (inorder t) → at_list t it (m :: rest) future → offset = - Z.of_nat n →
  is_scheduled from = false →
  let (past', left) := ahead n (m :: rest) future in
  ∃ it' from', forward_loop n t it from offset = Ok (it', from', - Z.of_nat left) ∧
    (if (left =? 0)%nat then ∃ future', at_list t it' past' future' else it' = None) ∧
    from' = (if (left <? n)%nat then default from (message_id_ <$> head past') else from) ∧
    is_scheduled from' = false.
Proof.
  intros Hord. revert it m rest future from offset.
  induction n as [|n IH]; intros it m rest future from offset Hit -> Hs.
  { exists it, from. split; [done|]. split; [by exists future|done]. }
  cbn [forward_loop]. rewrite (at_list_get _ _ _ _ Hit). cbn [mbind outcome_bind head].
  rewrite (proj2 (Z.ltb_lt _ _)) by lia.
  pose proof (move_ahead _ _ _ _ _ Hit) as Hmove. cbn [ahead].
  destruct future as [|x future]; [|destruct (have_next_ m)].
  1,3: rewrite Hmove; cbn [mbind outcome_bind]; rewrite forward_loop_end;
    rewrite (proj2 (Nat.ltb_ge _ _)) by lia; by exists None, from.
  destruct Hmove as (it1 & -> & Hit1). cbn [mbind outcome_bind].
  rewrite (at_list_get _ _ _ _ Hit1). cbn [mbind outcome_bind head].
  assert (is_scheduled (message_id_ x) = false) as Hsx.
  { apply is_valid_not_scheduled. rewrite (at_list_inorder _ _ _ _ _ Hit1) in Hord. by eapply ordinary_mid. }
  specialize (IH it1 x (m :: rest) future (message_id_ x) (- Z.of_nat (S n) + 1) Hit1 ltac:(lia) Hsx).
  destruct (ahead_split n (x :: m :: rest) future ltac:(done)) as (m' & rest' & future' & E1 & _ & E3 & Ecase).
  destruct (ahead n (x :: m :: rest) future) as [past' left]. cbn [fst snd] in *. subst past'.
  destruct IH as (it' & from' & -> & Hit' & Hf' & Hs'). exists it', from'.
  split; [done|]. split; [done|]. split; [|done]. rewrite (proj2 (Nat.ltb_lt left (S n))) by lia.
  destruct Ecase as [(-> & E & _)|Hlt].
  - rewrite Nat.ltb_irrefl in Hf'. injection E as -> ->. done.
  - rewrite (proj2 (Nat.ltb_lt left n)) in Hf' by lia. done.
Qed.

(** ** Where the history starts *)

(** An iterator and an offset that stand for the messages to collect: none, if the
    offset is not used up. *)
Definition starts (t : tree) (it : iterator) (offset : Z) past : Prop :=
  ∃ place future, at_list t it place future ∧ past = if offset =? 0 then place else [].

Lemma starts_nowhere t offset : starts t None offset [].
Proof. exists [], []. split; [done|]. by destruct (_ =? _). Qed.

Lemma last_not_scheduled t last_id :
  ordinary (inorder t) → last_id = 0 ∨ last_id ∈ ids (inorder t) → is_scheduled last_id = false.
Proof.
  intros Hord [->|(m & -> & Hm)%list_elem_of_fmap_1]; [done|].
  apply is_valid_not_scheduled. unfold ordinary in Hord. rewrite Forall_forall in Hord. by apply Hord.
Qed.

Lemma test_last (test : Z → Z → bool) last_id id :
  is_scheduled last_id = false → is_scheduled id = false →
  (if negb (last_id =? 0) then id_compare test id last_id else Ok false)
  = Ok (negb (last_id =? 0) && test id last_id).
Proof. intros Hl Hs. destruct (last_id =? 0); [done|]. by apply compare_ids. Qed.

(** The first message, which [traverse_messages] stops at. *)
Lemma traverse_first t s :
  do_traverse_messages t (λ message_id _, (true, message_id)) (λ _ s, (false, s)) s
  = match inorder t with [] => s | m :: _ => message_id_ m end.
Proof.
  revert s. induction t as [|m l IHl r _]; intros s; simpl; [done|].
  rewrite IHl. by destruct (inorder l).
Qed.

Lemma older_all_above xs id : older xs id = [] → all_above id xs.
Proof.
  unfold older. intros E%(f_equal reverse). rewrite reverse_involutive in E. change (reverse []) with (@nil OrderedMessage) in E.
  induction xs as [|x xs IH]; [constructor|]. rewrite filter_cons in E. case_decide; [done|].
  constructor; [lia|by apply IH].
Qed.

Lemma newer_all_above xs id : all_above id (newer xs id).
Proof. apply Forall_forall. intros x Hx. by apply list_elem_of_filter in Hx as [? _]. Qed.

Lemma older_le xs id m rest : older xs id = m :: rest → message_id_ m ≤ id.
Proof.
  unfold older. intros E. assert (m ∈ reverse (filter (λ x, message_id_ x ≤ id) xs)) as Hm by (rewrite E; left).
  by apply elem_of_reverse, list_elem_of_filter in Hm as [? _].
Qed.

Section start.
Context (t : tree) (last_id : Z) (limit : Z) (force : bool).
Hypothesis Hwf : messages_wf t.
Hypothesis Hlast : last_id = 0 ∨ last_id ∈ ids (inorder t).
Hypothesis Hlimit : limit ≤ INT_MAX.

(** A gap: no iterator, and nothing more happens. *)
Lemma apply_offset_gap from from' offset it it' :
  find_start t last_id from offset force it = Ok (it', from', true) →
  is_scheduled from' = false → (last_id ≠ 0 → from' < last_id) →
  apply_offset t last_id from offset limit force it = Ok (None, from', offset, limit).
Proof using All.
  intros E Hs Hlt. pose proof Hwf as [_ Hord _ _].
  pose proof (last_not_scheduled t last_id Hord Hlast) as Hsl.
  unfold apply_offset. rewrite E. cbn [mbind outcome_bind].
  change (it_get t None) with (Ok (A := option OrderedMessage) None). cbn [mbind outcome_bind].
  replace (forward_loop _ t None from' offset) with (Ok (None : iterator, from', offset))
    by (by destruct (Z.to_nat (- offset))).
  cbn [mbind outcome_bind negb andb]. unfold id_ge. rewrite test_last by done. cbn [mbind outcome_bind].
  assert (negb (last_id =? 0) && (from' >=? last_id) = false) as ->.
  { destruct (Z.eqb_spec last_id 0); [done|]. simpl. rewrite Z.geb_leb. apply Z.leb_gt. auto. }
  cbn [orb]. by destruct (offset <? 0).
Qed.

(** No gap: the iterator does what [walk] says. *)
Lemma apply_offset_walk from from' offset it it' m rest future :
  find_start t last_id from offset force it = Ok (it', from', false) →
  at_list t it' (m :: rest) future → message_id_ m ≤ from' → all_above from' future →
  is_scheduled from' = false → - limit < offset ≤ 0 →
  ∃ it2 from2 offset2,
    apply_offset t last_id from offset limit force it
      = Ok (it2, from2, offset2, (walk last_id from' offset limit force (m :: rest) future).2) ∧
    starts t it2 offset2 (walk last_id from' offset limit force (m :: rest) future).1 ∧
    0 < (walk last_id from' offset limit force (m :: rest) future).2 ≤ limit.
Proof using All.
  intros E Hit Hm Ha Hs Ho. pose proof Hwf as [Hsort Hord _ _].
  pose proof (last_not_scheduled t last_id Hord Hlast) as Hsl.
  unfold apply_offset. rewrite E. cbn [mbind outcome_bind]. rewrite (at_list_get _ _ _ _ Hit).
  cbn [mbind outcome_bind head walk].
  destruct ((message_id_ m =? from') && (offset =? 0)) eqn:E0.
  { apply andb_true_iff in E0 as [-> E0]. zbool. subst offset. cbn [Z.ltb Z.compare].
    destruct (move_back _ _ _ _ Hit) as (it2 & future2 & -> & Hit2). cbn [mbind outcome_bind].
    exists it2, from', 0. split; [done|]. split; [|simpl; lia]. by exists (earlier (m :: rest)), future2. }
  set (offset1 := if message_id_ m =? from' then offset + 1 else offset).
  replace (if message_id_ m =? from' then if offset <? 0 then _ else _ else _)
    with (Ok (A := iterator * Z) (it', offset1)).
  2: { subst offset1. destruct (message_id_ m =? from'); [|done]. simpl in E0. zbool.
    by rewrite (proj2 (Z.ltb_lt _ _)) by lia. }
  replace (if message_id_ m =? from' then - (offset + 1) else - offset) with (- offset1)
    by (subst offset1; by destruct (_ =? _)).
  assert (offset ≤ offset1 ≤ 0) as Ho1.
  { subst offset1. destruct (message_id_ m =? from'); simpl in E0; zbool; lia. }
  clearbody offset1. clear E0. cbn [mbind outcome_bind].
  set (steps := Z.to_nat (- offset1)).
  pose proof (forward_list steps t it' m rest future from' offset1 Hord Hit ltac:(lia) Hs) as Hfwd.
  destruct (ahead_split steps (m :: rest) future ltac:(done)) as (m' & rest' & future' & E1 & E2 & Hle & Hcase).
  destruct (ahead steps (m :: rest) future) as [past' left]. cbn [fst snd] in *. subst past'.
  destruct Hfwd as (it2 & from2 & -> & Hit2 & Hfrom2 & Hs2). cbn [mbind outcome_bind].
  destruct (Nat.eqb_spec left 0) as [->|Hleft].
  { destruct Hit2 as [future2 Hit2]. cbn [Z.of_nat Z.opp Z.ltb Z.compare mbind outcome_bind].
    exists it2, from2, 0. split; [done|]. split; [|simpl; lia]. by exists (m' :: rest'), future2. }
  subst it2. rewrite (proj2 (Z.ltb_lt _ _)) by lia. unfold id_ge.
  rewrite test_last by done. cbn [mbind outcome_bind negb andb]. rewrite <-Hfrom2.
  destruct (negb (last_id =? 0) && (from2 >=? last_id) || force); cbn [cassert mbind outcome_bind].
  2: { rewrite (proj2 (Z.ltb_lt _ _)) by lia. eexists None, from2, _. split; [done|]. split; [apply starts_nowhere|simpl; lia]. }
  rewrite iadd_Ok by (unfold in_int, INT_MIN; lia). cbn [mbind outcome_bind].
  assert (inorder t = reverse rest' ++ m' :: future') as Ei.
  { rewrite E2, reverse_cons, <-app_assoc. by apply at_list_inorder in Hit. }
  assert (message_id_ m' ≤ from2 ∧ all_above from2 future') as [Hm' Ha'].
  { destruct Hcase as [(-> & E3 & ->)|Hlt].
    - rewrite Nat.ltb_irrefl in Hfrom2. subst from2. by injection E3 as -> _.
    - rewrite (proj2 (Nat.ltb_lt _ _)) in Hfrom2 by done. simpl in Hfrom2. subst from2. split; [lia|].
      rewrite Ei in Hsort. by apply sorted_mid in Hsort as (_ & _ & _ & ?). }
  destruct (get_iterator_spec t from2 Hsort Hord Hs2) as (it3 & Hit3 & _).
  rewrite Hit3. cbn [mbind outcome_bind].
  exists it3, from2, 0. split; [do 2 f_equal; lia|]. cbn [fst snd]. split; [|lia].
  exists (m' :: rest'), future'. split; [|done]. by apply (get_iterator_at_list t from2).
Qed.

(** The place [from] stands for, or the place it is forced to. *)
Lemma find_start_message from offset it m rest :
  at_list t it (m :: rest) (newer (inorder t) from) → message_id_ m ≤ from →
  is_scheduled from = false →
  find_start t last_id from offset force it
  = Ok (it, from, negb (message_id_ m =? from) && negb (have_next_ m) &&
                  ((last_id =? 0) || (message_id_ m <? last_id))).
Proof using All.
  intros Hit Hm Hs. pose proof Hwf as [_ Hord _ _].
  pose proof (last_not_scheduled t last_id Hord Hlast) as Hsl.
  assert (is_valid (message_id_ m) = true) as Hv.
  { rewrite (at_list_inorder _ _ _ _ _ Hit) in Hord. by eapply ordinary_mid. }
  unfold find_start. rewrite (at_list_get _ _ _ _ Hit). cbn [mbind outcome_bind head].
  destruct (Z.eqb_spec (message_id_ m) from); cbn [negb andb]; [done|].
  unfold id_lt. rewrite (compare_valid Z.ltb m from), (proj2 (Z.ltb_lt _ _)) by (done || lia).
  cbn [mbind outcome_bind cassert].
  destruct (have_next_ m); [done|]. destruct (last_id =? 0); [done|].
  by rewrite compare_valid by done.
Qed.

Lemma find_start_before from offset x xs :
  inorder t = x :: xs → all_above from (x :: xs) → is_scheduled from = false →
  ∃ it, find_start t last_id from offset force None
    = (if force && (offset <? 0) then Ok (it, message_id_ x, false) else Ok (None, from, true)) ∧
    at_list t it [x] xs.
Proof using All.
  intros Ei Ha Hs. pose proof Hwf as [Hsort Hord _ _].
  assert (is_valid (message_id_ x) = true) as Hv by (rewrite Ei in Hord; by apply Forall_cons in Hord as [? _]).
  destruct (get_iterator_at t [] x xs Ei Hsort Hord) as (path & Hg & Hp).
  exists (Some path). split; [|by exists [], x].
  unfold find_start. change (it_get t None) with (Ok (A := option OrderedMessage) None).
  cbn [mbind outcome_bind].
  replace (match t with Null => true | _ => false end) with false by (by destruct t).
  cbn [negb]. rewrite andb_true_r. destruct (force && (offset <? 0)); [|done].
  unfold traverse_messages. rewrite traverse_first, Ei. apply Forall_cons in Ha as [Ha _].
  unfold id_gt. rewrite compare_valid, (proj2 (Z.gtb_gt _ _)) by (done || lia). cbn [mbind outcome_bind cassert].
  rewrite Hg. cbn [mbind outcome_bind]. by rewrite (it_get_at t path x) by apply Hp.
Qed.

Lemma apply_offset_spec from offset it :
  found t from it → is_scheduled from = false → (last_id ≠ 0 → from ≤ last_id) →
  - limit < offset ≤ 0 →
  ∃ it2 from2 offset2,
    apply_offset t last_id from offset limit force it
      = Ok (it2, from2, offset2, (start_here (inorder t) last_id from offset limit force).2) ∧
    starts t it2 offset2 (start_here (inorder t) last_id from offset limit force).1 ∧
    0 < (start_here (inorder t) last_id from offset limit force).2 ≤ limit.
Proof using All.
  intros Hf Hs Hle Ho. pose proof Hwf as [Hsort Hord _ _].
  pose proof (found_at_list t from it Hsort Hf) as Hit. unfold start_here.
  assert (∀ m, m ∈ inorder t → is_scheduled (message_id_ m) = false) as Hsm.
  { intros m Hm. apply is_valid_not_scheduled. unfold ordinary in Hord. rewrite Forall_forall in Hord. auto. }
  destruct (older (inorder t) from) as [|m rest] eqn:Eo.
  - apply older_all_above in Eo as Ha. destruct it as [path|]; [by destruct Hit as (? & ? & _ & ?)|].
    assert (last_id ≠ 0 → from < last_id) as Hlt.
    { intros Hne. pose proof Hlast as [?|(x & -> & Hx)%list_elem_of_fmap_1]; [done|].
      unfold all_above in Ha. rewrite Forall_forall in Ha. by apply Ha. }
    assert (inorder t = [] ∨ ∃ x xs, inorder t = x :: xs) as [Ei|(x & xs & Ei)]
      by (destruct (inorder t); eauto); rewrite Ei.
    { exists None, from, offset. split; [|split; [apply starts_nowhere|simpl; lia]].
      apply (apply_offset_gap from from offset None None); [|done..].
      unfold find_start. change (it_get t None) with (Ok (A := option OrderedMessage) None).
      cbn [mbind outcome_bind]. replace (match t with Null => true | _ => false end) with true.
      { by rewrite andb_false_r. }
      clear -Ei. destruct t as [|? l ?]; [done|]. simpl in Ei. by destruct (inorder l). }
    rewrite Ei in Ha.
    destruct (find_start_before from offset x xs Ei Ha Hs) as (it1 & E1 & Hit1).
    destruct (force && (offset <? 0)).
    + apply (apply_offset_walk from (message_id_ x) offset None it1 x [] xs); try done.
      * rewrite Ei in Hsort. by apply (sorted_mid [] x xs) in Hsort as (_ & _ & _ & ?).
      * apply Hsm. rewrite Ei. left.
    + exists None, from, offset. split; [|split; [apply starts_nowhere|simpl; lia]].
      by apply (apply_offset_gap from from offset None None).
  - pose proof (older_le _ _ _ _ Eo) as Hm.
    pose proof (find_start_message from offset it m rest Hit Hm Hs) as E1.
    destruct (negb _ && negb _ && _) eqn:Egap.
    + exists None, from, offset. split; [|split; [apply starts_nowhere|simpl; lia]].
      apply (apply_offset_gap from from offset it it); [done..|]. intros Hne.
      apply andb_true_iff in Egap as [Egap El]. apply andb_true_iff in Egap as [Eid _].
      rewrite (proj2 (Z.eqb_neq _ _)) in El by done. simpl in El. zbool.
      destruct (Z.eq_dec from last_id) as [Efl|]; [|specialize (Hle Hne); lia]. exfalso.
      pose proof Hlast as [?|(x & Ex & Hx)%list_elem_of_fmap_1]; [done|].
      rewrite (at_list_inorder _ _ _ _ _ Hit) in Hx, Hsort.
      apply sorted_mid in Hsort as (_ & _ & Hb & _).
      pose proof (newer_all_above (inorder t) from) as Ha. unfold all_below, all_above in *.
      rewrite Forall_forall in Hb, Ha. apply elem_of_app in Hx as [Hx|[->|Hx]%elem_of_cons]; [|lia|].
      * specialize (Hb x Hx). simpl in Hb. lia.
      * specialize (Ha x Hx). simpl in Ha. lia.
    + apply (apply_offset_walk from from offset it it); try done. apply newer_all_above.
Qed.

(** Where [get_history] starts collecting. *)
Lemma history_start_spec from offset :
  is_scheduled from = false → - limit < offset ≤ 0 →
  ∃ it' from' offset' e,
    history_start t last_id from offset limit force
      = Ok (it', from', offset', (history_place (inorder t) last_id from offset limit force).2, e) ∧
    starts t it' offset' (history_place (inorder t) last_id from offset limit force).1 ∧
    0 < (history_place (inorder t) last_id from offset limit force).2 ≤ limit.
Proof using All.
  intros Hs Ho. pose proof Hwf as [Hsort Hord _ _].
  pose proof (last_not_scheduled t last_id Hord Hlast) as Hsl. unfold history_start, history_place.
  destruct (get_iterator_spec t from Hsort Hord Hs) as (it & -> & Hf). cbn [mbind outcome_bind].
  unfold id_gt. rewrite test_last by done. cbn [mbind outcome_bind].
  unfold id_ge. rewrite (compare_ids Z.geb from) by done.
  replace (if negb (last_id =? 0) && (from >? last_id) then Ok true else Ok (from >=? max_message_id))
    with (Ok (negb (last_id =? 0) && (from >? last_id) || (from >=? max_message_id)))
    by (by destruct (_ && _)).
  cbn [mbind outcome_bind].
  destruct (negb (last_id =? 0) && (from >? last_id) || (from >=? max_message_id)) eqn:Eend.
  - rewrite iadd_Ok by (unfold in_int, INT_MIN; lia). cbn [mbind outcome_bind fst snd].
    eexists _, _, _, _. split; [done|]. split; [|lia].
    destruct (last_id =? 0); [apply starts_nowhere|].
    exists (older (inorder t) from), (newer (inorder t) from). split; [|done]. by apply found_at_list.
  - apply orb_false_iff in Eend as [Eend _].
    destruct (apply_offset_spec from offset it Hf Hs) as (it2 & from2 & offset2 & -> & Hst & Hr); [|lia|].
    { intros Hne. rewrite (proj2 (Z.eqb_neq _ _)) in Eend by done. simpl in Eend.
      destruct (Z.gtb_spec from last_id); [done|lia]. }
    cbn [mbind outcome_bind]. eexists _, _, _, _. split; [done|]. by split.
Qed.
End start.

(** ** The properties *)

(** Each message of a run but the first is connected to the one before it. *)
Definition linked_run (run : list OrderedMessage) : Prop := Forall (λ m, have_previous_ m = true) (tail run).

Lemma linked_run_snoc run m : linked_run run → (run ≠ [] → have_previous_ m = true) → linked_run (run ++ [m]).
Proof.
  unfold linked_run. destruct run as [|x run]; simpl; [by constructor|]. intros H1 H2.
  apply Forall_app. split; [done|]. constructor; [by apply H2|done].
Qed.

Lemma back_run n past :
  ∃ pre run, reverse past = pre ++ run ∧ back n past = reverse (ids run) ∧ linked_run run ∧
    (length run ≤ n)%nat.
Proof.
  revert past. induction n as [|n IH]; intros past.
  { exists (reverse past), []. rewrite app_nil_r. repeat split; [constructor|simpl; lia]. }
  destruct past as [|m rest]; [exists [], []; repeat split; [constructor|simpl; lia]|].
  cbn [back earlier]. destruct (have_previous_ m) eqn:Hm.
  - destruct (IH rest) as (pre & run & E & -> & Hl & Hn). exists pre, (run ++ [m]).
    rewrite reverse_cons, E, <-app_assoc. unfold ids. rewrite fmap_app, reverse_app, length_app. simpl.
    split_and!; [done|done|by apply linked_run_snoc|lia].
  - exists (reverse rest), [m]. rewrite reverse_cons, back_nil. repeat split; [constructor|simpl; lia].
Qed.

(** A run of messages that are neighbours in the chat, the newest first. *)
Definition history_run (t : tree) (limit : Z) (message_ids : list Z) : Prop :=
  ∃ pre run post, inorder t = pre ++ run ++ post ∧ message_ids = reverse (ids run) ∧
    linked_run run ∧ Z.of_nat (length message_ids) ≤ limit.

Lemma starts_run t it offset past (limit : Z) :
  starts t it offset past → 0 ≤ limit → history_run t limit (back (Z.to_nat limit) past).
Proof.
  intros (place & future & Hit & E) Hl.
  assert (∃ post, inorder t = reverse past ++ post) as [post Ei].
  { subst past. destruct (offset =? 0); [|by exists (inorder t)].
    destruct place as [|m rest]; [by exists (inorder t)|]. exists future.
    by rewrite reverse_cons, <-app_assoc, (at_list_inorder _ _ _ _ _ Hit). }
  destruct (back_run (Z.to_nat limit) past) as (pre & run & Er & -> & Hlink & Hn).
  exists pre, run, post. rewrite Ei, Er, <-app_assoc. split_and!; [done..|].
  unfold ids. rewrite length_reverse, length_fmap. lia.
Qed.

(** Dropping the last identifier drops the first message of the run. *)
Lemma removelast_run t limit message_ids :
  history_run t limit message_ids → Z.of_nat (length message_ids) = limit → message_ids ≠ [] →
  history_run t (limit - 1) (removelast message_ids).
Proof.
  intros (pre & run & post & E & -> & Hl & _) Hlen Hne. destruct run as [|m run]; [done|].
  assert (removelast (reverse (ids (m :: run))) = reverse (ids run)) as Er.
  { unfold ids. rewrite fmap_cons, reverse_cons. by rewrite removelast_app, app_nil_r by done. }
  exists (pre ++ [m]), run, post. split; [by rewrite E, <-app_assoc|]. split; [done|]. split.
  - clear -Hl. unfold linked_run in *. simpl in Hl. destruct run; simpl; [done|]. by apply Forall_cons in Hl as [_ ?].
  - rewrite Er. unfold ids in *. rewrite length_reverse, length_fmap in *. simpl in Hlen. lia.
Qed.

(** C8. [get_history] on a consistent tree, where the last message of the chat is in the
    tree if it is known ([last_id] is [0] or one of the identifiers), [from] is not the
    identifier of a scheduled message, [0 < limit < INT_MAX] and
    [- limit <= offset <= 0]: no check fails, and the identifiers returned are exactly
    those of the reference over the list of the messages ([history_of]: the place of
    [from], [offset] steps ahead of it, then back until a gap or the limit). They are a
    run of messages that are neighbours in the chat, without a gap, the newest first and
    at most as many as asked for. *)
Theorem get_history_returns_run t last_id from offset limit force :
  messages_wf t → last_id = 0 ∨ last_id ∈ ids (inorder t) → is_scheduled from = false →
  0 < limit < INT_MAX → - limit ≤ offset ≤ 0 →
  ∃ from' offset' limit',
    get_history t last_id from offset limit force
      = Ok (history_of (inorder t) last_id from offset limit force, from', offset', limit') ∧
    history_run t limit (history_of (inorder t) last_id from offset limit force).
Proof.
  intros Hwf Hlast Hs Hl Ho. unfold get_history, history_of.
  rewrite (proj2 (Z.ltb_lt 0 limit)) by lia. cbn [cassert mbind outcome_bind].
  rewrite (iadd_Ok 0 (- offset)) by (unfold in_int, INT_MIN; lia). cbn [mbind outcome_bind].
  replace (0 + - offset) with (- offset) by lia.
  set (inc := limit =? - offset). set (limit1 := if inc then limit + 1 else limit).
  replace (if inc then iadd limit 1 else Ok limit) with (Ok limit1).
  2: { subst limit1. destruct inc; [|done]. rewrite iadd_Ok; [done|]. unfold in_int, INT_MIN. lia. }
  assert (- limit1 < offset ∧ limit1 ≤ INT_MAX ∧ limit1 = limit + Z.b2z inc) as (Ho1 & Hl1 & El).
  { subst limit1 inc. destruct (limit =? - offset) eqn:E; zbool; simpl; lia. }
  cbn [mbind outcome_bind]. rewrite (proj2 (Z.ltb_lt _ _)), (proj2 (Z.leb_le _ _)) by lia.
  cbn [andb cassert mbind outcome_bind].
  destruct (history_start_spec t last_id limit1 force Hwf Hlast Hl1 from offset Hs)
    as (it & from1 & offset1 & e & -> & Hst & Hw); [lia|]. cbn [mbind outcome_bind].
  destruct (history_place _ _ _ _ _ _) as [past wanted]. cbn [fst snd] in *.
  pose proof (starts_run t it offset1 past wanted Hst ltac:(lia)) as Hrun.
  destruct Hst as (place & future & Hit & Epast).
  rewrite (at_list_get _ _ _ _ Hit). cbn [mbind outcome_bind].
  assert (∃ from2 e2, (if (match head place with Some _ => true | None => false end) && (offset1 =? 0)
     then collect (Z.to_nat wanted) t it [] from1 e else Ok ([], from1, e))
     = Ok (back (Z.to_nat wanted) past, from2, e2)) as (from2 & e2 & ->).
  { subst past. destruct place as [|m rest]; simpl; [exists from1, e; by destruct (_ =? 0); rewrite back_nil|].
    destruct (offset1 =? 0); [|exists from1, e; by rewrite back_nil].
    destruct (collect_list (Z.to_nat wanted) t it _ future [] from1 e Hit) as (from2 & e2 & ->). by eexists _, _. }
  cbn [mbind outcome_bind]. set (message_ids := back _ _) in *.
  destruct (inc && (Z.of_nat (length message_ids) =? wanted)) eqn:Einc.
  - apply andb_true_iff in Einc as [Ei Elen]. zbool. rewrite Ei in El. simpl in El.
    assert (message_ids ≠ []) as Hne by (intros E; rewrite E in Elen; simpl in Elen; lia).
    destruct message_ids as [|i more]; [done|]. cbn [mbind outcome_bind].
    eexists _, _, _. split; [done|].
    destruct (removelast_run t wanted (i :: more) Hrun Elen Hne) as (pre & run & post & E & Eids & Hlink & Hlen).
    exists pre, run, post. split_and!; [done..|]. lia.
  - cbn [mbind outcome_bind]. eexists _, _, _. split; [done|].
    destruct Hrun as (pre & run & post & E & Eids & Hlink & Hlen).
    exists pre, run, post. split_and!; [done..|]. destruct inc; simpl in *; zbool; lia.
Qed.

(** From the end of the history (the client asks with an identifier above all others and
    offset 0), the last messages are collected, back to the first gap, to the beginning
    or to the limit. *)
Lemma history_of_the_end xs last_id from limit force :
  ordinary xs → last_id ≠ 0 → max_message_id ≤ from → 0 < limit →
  history_of xs last_id from 0 limit force = back (Z.to_nat limit) (reverse xs).
Proof.
  intros Hord Hne Hmax Hl. unfold history_of, history_place.
  rewrite (proj2 (Z.eqb_neq limit _)), (proj2 (Z.eqb_neq last_id 0)) by lia.
  replace (from >=? max_message_id) with true by lia. rewrite orb_true_r. cbn [andb].
  rewrite Z.add_0_r. f_equal. unfold older. f_equal.
  induction Hord as [|x xs Hx _ IH]; [done|]. apply is_valid_iff in Hx.
  rewrite filter_cons_True, IH by lia. done.
Qed.

Lemma get_history_returns_run_witness :
  ∃ from' offset' limit',
    get_history example_tree (server_MessageId 30) (server_MessageId 30) (-1) 5 false
       = Ok ([server_MessageId 30; server_MessageId 20], from', offset', limit').
Proof.
  destruct (get_history_returns_run example_tree (server_MessageId 30) (server_MessageId 30) (-1) 5 false example_tree_wf)
    as (from' & offset' & limit' & H & _).
  - right. rewrite (proj1 example_list). right. right. left.
  - reflexivity.
  - unfold INT_MAX. lia.
  - lia.
  - exists from', offset', limit'. exact H.
Defined.
