(* ===== verification/Heap.v ===== *)
(** * Heaps with handles ([tdutils/td/utils/Heap.h])

    The [K]-ary heap by which TDLib's actors keep their timeouts: the items lie in a
    vector, and every node knows its place in it, so that it can be moved or erased.
    Nodes are named by numbers; a node that is in no heap has the place -1. *)
From S2P Require Import Prelude StdSet.

Section heap.
Context {KeyT : Type} (lt : KeyT → KeyT → bool) (K : nat).

(** [Item] *)
Record Item := { key_ : KeyT; node_ : Z }.

(** The vector, and the member [pos_] of the nodes. *)
Record KHeap := { array_ : list Item; pos_ : gmap Z Z }.

Definition mk_KHeap (pos : gmap Z Z) : KHeap := {| array_ := []; pos_ := pos |}.

Definition node_pos (h : KHeap) (node : Z) : Z := get_or (-1) (pos_ h) node.
Definition in_heap (h : KHeap) (node : Z) : bool := negb (node_pos h node =? -1).
Definition is_top (h : KHeap) (node : Z) : bool := node_pos h node =? 0.
Definition remove (node : Z) (h : KHeap) : KHeap :=
  {| array_ := array_ h; pos_ := <[node := -1]> (pos_ h) |}.

(** [node->pos_ = static_cast<int32>(pos)] *)
Definition set_pos (node : Z) (pos : nat) (h : KHeap) : KHeap :=
  {| array_ := array_ h; pos_ := <[node := i32 (Z.of_nat pos)]> (pos_ h) |}.
(** [array_[pos]], undefined past the end. *)
Definition item_at (h : KHeap) (pos : nat) : outcome Item := deref (array_ h !! pos).
Definition set_item (pos : nat) (item : Item) (h : KHeap) : outcome KHeap :=
  _ ← item_at h pos; Ok {| array_ := <[pos := item]> (array_ h); pos_ := pos_ h |}.

Definition empty (h : KHeap) : bool := (length (array_ h) =? 0)%nat.
Definition size (h : KHeap) : Z := Z.of_nat (length (array_ h)).
Definition top_key (h : KHeap) : outcome KeyT := item ← item_at h 0; Ok (key_ item).
Definition top (h : KHeap) : outcome Z := item ← item_at h 0; Ok (node_ item).

(** The place of a node that must be in the heap. *)
Definition checked_pos (h : KHeap) (node : Z) : outcome nat :=
  let pos := u64 (node_pos h node) in
  _ ← cassert (pos <? size h);
  Ok (Z.to_nat pos).
Definition get_key (h : KHeap) (node : Z) : outcome KeyT :=
  pos ← checked_pos h node; item ← item_at h pos; Ok (key_ item).

(** The loop of [fix_up] ends since [pos] decreases; [pos] itself is enough fuel. *)
Fixpoint fix_up_loop (fuel : nat) (item : Item) (pos : nat) (h : KHeap) : outcome (nat * KHeap) :=
  match fuel with
  | O => Ok (pos, h)
  | S fuel =>
      if (pos =? 0)%nat then Ok (pos, h)
      else
        let parent_pos := ((pos - 1) / K)%nat in
        parent_item ← item_at h parent_pos;
        if lt (key_ parent_item) (key_ item) then Ok (pos, h)
        else
          h ← set_item pos parent_item (set_pos (node_ parent_item) pos h);
          fix_up_loop fuel item parent_pos h
  end.
Definition fix_up (pos : nat) (h : KHeap) : outcome KHeap :=
  item ← item_at h pos;
  '(pos, h) ← fix_up_loop pos item pos h;
  set_item pos item (set_pos (node_ item) pos h).

(** The loop over the children: the least key, and where it is. *)
Definition smaller_child (h : KHeap) (next : nat * KeyT) (i : nat) : outcome (nat * KeyT) :=
  item ← item_at h i;
  Ok (if lt (key_ item) next.2 then (i, key_ item) else next).

(** The loop of [fix_down] ends since [pos] increases; the size is enough fuel. *)
Fixpoint fix_down_loop (fuel : nat) (item : Item) (pos : nat) (h : KHeap) : outcome (nat * KHeap) :=
  match fuel with
  | O => Ok (pos, h)
  | S fuel =>
      let left_pos := (pos * K + 1)%nat in
      let right_pos := Nat.min (left_pos + K) (length (array_ h)) in
      '(next_pos, _) ←
        ofold (smaller_child h) (pos, key_ item) (seq left_pos (right_pos - left_pos));
      if (next_pos =? pos)%nat then Ok (pos, h)
      else
        next ← item_at h next_pos;
        h ← set_item pos next h;
        fix_down_loop fuel item next_pos (set_pos (node_ next) pos h)
  end.
Definition fix_down (pos : nat) (h : KHeap) : outcome KHeap :=
  item ← item_at h pos;
  '(pos, h) ← fix_down_loop (length (array_ h)) item pos h;
  set_item pos item (set_pos (node_ item) pos h).

Definition erase_pos (pos : nat) (h : KHeap) : outcome KHeap :=
  back ← deref (last (array_ h));
  h ← set_item pos back h;
  let h := {| array_ := removelast (array_ h); pos_ := pos_ h |} in
  if (pos <? length (array_ h))%nat then
    h ← fix_down pos h; fix_up pos h
  else Ok h.

Definition pop (h : KHeap) : outcome (Z * KHeap) :=
  _ ← cassert (negb (empty h));
  item ← item_at h 0;
  h ← erase_pos 0 (remove (node_ item) h);
  Ok (node_ item, h).

Definition insert (key : KeyT) (node : Z) (h : KHeap) : outcome KHeap :=
  _ ← cassert (negb (in_heap h node));
  let h := {| array_ := array_ h ++ [{| key_ := key; node_ := node |}]; pos_ := pos_ h |} in
  fix_up (length (array_ h) - 1) h.

Definition fix_ (key : KeyT) (node : Z) (h : KHeap) : outcome KHeap :=
  pos ← checked_pos h node;
  item ← item_at h pos;
  let old_key := key_ item in
  h ← set_item pos {| key_ := key; node_ := node_ item |} h;
  if lt key old_key then fix_up pos h else fix_down pos h.

Definition erase (node : Z) (h : KHeap) : outcome KHeap :=
  let pos := u64 (node_pos h node) in
  let h := remove node h in
  _ ← cassert (pos <? size h);
  erase_pos (Z.to_nat pos) h.

(** [check]: the order of every item and its children. *)
Definition check_children (h : KHeap) (i : nat) : outcome unit :=
  item ← item_at h i;
  ofold (λ _ j, child ← item_at h j; cassert (negb (lt (key_ child) (key_ item)))) ()
    (seq (i * K + 1) (Nat.min (i * K + 1 + K) (length (array_ h)) - (i * K + 1))).
Definition check (h : KHeap) : outcome unit :=
  ofold (λ _ i, check_children h i) () (seq 0 (length (array_ h))).

(** ** The invariant *)

Definition parent (j : nat) : nat := ((j - 1) / K)%nat.

(** The item at [j] is not less than its parent. *)
Definition ordered_at (A : list Item) (j : nat) : Prop :=
  ∀ a b, A !! parent j = Some a → A !! j = Some b → lt (key_ b) (key_ a) = false.

Definition heap_ordered (A : list Item) : Prop := ∀ j, (0 < j)%nat → ordered_at A j.

(** The nodes know their places, except possibly the one at [hole]; other nodes are in
    no heap. *)
Definition placed (A : list Item) (pos : gmap Z Z) (hole : nat) : Prop :=
  NoDup (node_ <$> A) ∧
  (∀ i it, A !! i = Some it → i ≠ hole → get_or (-1) pos (node_ it) = Z.of_nat i) ∧
  (∀ n, n ∉ node_ <$> A → get_or (-1) pos n = -1).

Record heap_wf (h : KHeap) : Prop := {
  wf_ordered : heap_ordered (array_ h);
  wf_placed : ∀ hole, placed (array_ h) (pos_ h) hole;
  wf_size : (Z.of_nat (length (array_ h)) ≤ INT_MAX);
}.

(** ** Order *)

Context `{!StrictWeakOrder lt} (HK : K ≠ 0%nat).
#[local] Set Default Proof Using "All".

Lemma parent_lt j : (0 < j)%nat → (parent j < j)%nat.
Proof. intros Hj. unfold parent. apply Nat.Div0.div_lt_upper_bound. nia. Qed.

Lemma parent_children i j :
  (0 < j)%nat → parent j = i ↔ (i * K + 1 ≤ j < i * K + 1 + K)%nat.
Proof.
  intros Hj. unfold parent. split.
  - intros <-. pose proof (Nat.div_mod_eq (j - 1) K). pose proof (Nat.mod_upper_bound (j - 1) K HK). lia.
  - intros Hr. symmetry. apply (Nat.div_unique _ _ _ (j - 1 - i * K)); lia.
Qed.

Lemma lt_asym x y : lt x y = true → lt y x = false.
Proof.
  intros Hxy. destruct (lt y x) eqn:E; [|done]. pose proof (swo_trans x y x Hxy E) as Hxx.
  by rewrite swo_irrefl in Hxx.
Qed.

(** Everything is ordered but around [q]: its parent and its children may be wrong, but
    its children fit its parent. *)
Definition ordered_around (A : list Item) (q : nat) : Prop :=
  (∀ j, (0 < j)%nat → j ≠ q → parent j ≠ q → ordered_at A j) ∧
  ∀ j a b, (0 < j)%nat → (0 < q)%nat → parent j = q → A !! parent q = Some a → A !! j = Some b →
    lt (key_ b) (key_ a) = false.

Definition children_ordered (A : list Item) (q : nat) : Prop :=
  ∀ j, (0 < j)%nat → parent j = q → ordered_at A j.

(** The array after two items are exchanged. *)
Definition exchanged (A A' : list Item) (p q : nat) : Prop :=
  A' !! p = A !! q ∧ A' !! q = A !! p ∧ ∀ j, j ≠ p → j ≠ q → A' !! j = A !! j.

Lemma exchange_up A A' p :
  (0 < p)%nat → exchanged A A' p (parent p) → ordered_around A p → children_ordered A p →
  (∀ a b, A !! parent p = Some a → A !! p = Some b → lt (key_ a) (key_ b) = false) →
  ordered_around A' (parent p) ∧ children_ordered A' (parent p).
Proof.
  intros Hp (Ep & Eq & Eo) [Ho Hg] Hc Hn. pose proof (parent_lt p Hp) as Hlt.
  assert (ordered_around A' (parent p) ∧ children_ordered A' (parent p)) as [? ?]; [|done].
  split; [split|].
  - intros j Hj Hjq Hjc a b Ha Hb. destruct (decide (j = p)) as [->|Hjp]; [done|].
    rewrite Eo in Hb by done. destruct (decide (parent j = p)) as [Ej|Hjp'].
    + rewrite Ej, Ep in Ha. by apply (Hg j a b).
    + rewrite Eo in Ha by done. by apply (Ho j Hj Hjp Hjp').
  - intros j a b Hj Hq Hjc Ha Hb. pose proof (parent_lt _ Hq) as Hlt'. rewrite Eo in Ha by lia.
    assert (∀ c, A !! parent p = Some c → lt (key_ c) (key_ a) = false) as Hca.
    { intros c Hcc. apply (Ho (parent p) Hq); [lia|lia|done|done]. }
    destruct (decide (j = p)) as [->|Hjp].
    + rewrite Ep in Hb. by apply Hca.
    + rewrite Eo in Hb by (try done; pose proof (parent_lt j Hj); lia).
      assert (∃ c, A !! parent p = Some c) as [c Hcc].
      { apply lookup_lt_is_Some. apply lookup_lt_Some in Hb. pose proof (parent_lt j Hj). lia. }
      eapply swo_negtrans; [|by apply Hca].
      apply (Ho j Hj Hjp); [lia|by rewrite Hjc|done].
  - intros j Hj Hjc a b Ha Hb. rewrite Hjc, Eq in Ha. destruct (decide (j = p)) as [->|Hjp].
    + rewrite Ep in Hb. by apply Hn.
    + rewrite Eo in Hb by (try done; pose proof (parent_lt j Hj); lia).
      assert (∃ c, A !! parent p = Some c) as [c Hcc].
      { apply lookup_lt_is_Some. apply lookup_lt_Some in Hb. pose proof (parent_lt j Hj). lia. }
      eapply swo_negtrans; [|by apply (Hn c a)].
      apply (Ho j Hj Hjp); [lia|by rewrite Hjc|done].
Qed.

(** ** Moving up *)

Lemma insert_swap_perm {A} (l : list A) i x y : l !! i = Some x → x :: <[i:=y]> l ≡ₚ y :: l.
Proof.
  intros Hi. rewrite (take_drop_middle l i x Hi) at 2 || idtac.
  pose proof (lookup_lt_Some _ _ _ Hi) as Hl. rewrite insert_take_drop by done.
  rewrite <-(take_drop_middle l i x Hi) at 3. rewrite <-!Permutation_middle. apply perm_swap.
Qed.

Lemma exchange_perm (A : list Item) p q x y :
  p ≠ q → A !! p = Some x → A !! q = Some y → <[q:=x]> (<[p:=y]> A) ≡ₚ A ∧
  exchanged A (<[q:=x]> (<[p:=y]> A)) p q.
Proof.
  intros Hne Hp Hq. pose proof (lookup_lt_Some _ _ _ Hp). pose proof (lookup_lt_Some _ _ _ Hq). split.
  - apply (Permutation_cons_inv (a := y)). rewrite insert_swap_perm by (by rewrite list_lookup_insert_ne).
    by apply insert_swap_perm.
  - split; [by rewrite list_lookup_insert_ne, list_lookup_insert_eq by done|].
    split; [by rewrite list_lookup_insert_eq by (by rewrite length_insert)|].
    intros j ??. by rewrite !list_lookup_insert_ne by done.
Qed.

Lemma placed_exchange A A' P p q y :
  placed A P p → A' ≡ₚ A → exchanged A A' p q → p ≠ q → A !! q = Some y →
  (Z.of_nat p ≤ INT_MAX) → placed A' (<[node_ y := i32 (Z.of_nat p)]> P) q.
Proof.
  intros (Hnd & Hpl & Hout) Hperm (Ep & Eq & Eo) Hne Hy Hp.
  assert (NoDup (node_ <$> A')) as Hnd' by (by rewrite Hperm).
  rewrite i32_small by (unfold in_int, INT_MIN, INT_MAX in *; lia).
  split; [done|]. split.
  - intros i it Hi Hiq. rewrite get_or_insert. destruct (decide (i = p)) as [->|Hip].
    + rewrite Ep, Hy in Hi. injection Hi as <-. by rewrite decide_True.
    + rewrite decide_False; [apply Hpl; [by rewrite <-Eo|done]|]. intros E.
      assert (i = p) as ->; [|done]. rewrite NoDup_alt in Hnd'.
      apply (Hnd' i p (node_ y)); rewrite list_lookup_fmap; [by rewrite Hi; simpl; rewrite E|by rewrite Ep, Hy].
  - intros n Hn. rewrite get_or_insert, decide_False; [apply Hout; by rewrite <-Hperm|].
    intros <-. apply Hn. rewrite Hperm. apply list_elem_of_fmap_2. by eapply list_elem_of_lookup_2.
Qed.

(** The array with the item that is being moved at its place. *)
Definition with_item (h : KHeap) (pos : nat) (item : Item) : list Item := <[pos := item]> (array_ h).

Lemma with_item_step h pos item q y :
  (pos < length (array_ h))%nat → q ≠ pos → array_ h !! q = Some y →
  Z.of_nat (length (array_ h)) ≤ INT_MAX → placed (with_item h pos item) (pos_ h) pos →
  let A' := <[q := item]> (<[pos := y]> (array_ h)) in
  A' ≡ₚ with_item h pos item ∧ exchanged (with_item h pos item) A' pos q ∧
  placed A' (<[node_ y := i32 (Z.of_nat pos)]> (pos_ h)) q.
Proof.
  intros Hpos Hne Hq Hl Hpl A'.
  assert (with_item h pos item !! pos = Some item) as E1 by (by apply list_lookup_insert_eq).
  assert (with_item h pos item !! q = Some y) as E2 by (unfold with_item; by rewrite list_lookup_insert_ne by done).
  destruct (exchange_perm (with_item h pos item) pos q item y) as [Hperm Hex]; [done..|].
  assert (<[q:=item]> (<[pos:=y]> (with_item h pos item)) = A') as E.
  { unfold with_item, A'. by rewrite list_insert_insert_eq. }
  rewrite E in Hperm, Hex. split; [done|]. split; [done|].
  eapply placed_exchange; try done. lia.
Qed.

Lemma fix_up_loop_spec fuel item pos h :
  (pos ≤ fuel)%nat → (pos < length (array_ h))%nat → Z.of_nat (length (array_ h)) ≤ INT_MAX →
  ordered_around (with_item h pos item) pos → children_ordered (with_item h pos item) pos →
  placed (with_item h pos item) (pos_ h) pos →
  ∃ pos' h', fix_up_loop fuel item pos h = Ok (pos', h') ∧ (pos' < length (array_ h'))%nat ∧
    heap_ordered (with_item h' pos' item) ∧ placed (with_item h' pos' item) (pos_ h') pos' ∧
    with_item h' pos' item ≡ₚ with_item h pos item.
Proof.
  revert pos h. induction fuel as [|fuel IH]; intros pos h Hf Hpos Hl Ho Hc Hpl; simpl.
  { assert (pos = 0%nat) as -> by lia. exists 0%nat, h. split; [done|]. split; [done|].
    split; [|done]. intros j Hj. destruct (decide (parent j = 0%nat)); [by apply Hc|]. apply Ho; (done || lia). }
  destruct (Nat.eqb_spec pos 0) as [->|Hp0].
  { exists 0%nat, h. split; [done|]. split; [done|].
    split; [|done]. intros j Hj. destruct (decide (parent j = 0%nat)); [by apply Hc|]. apply Ho; (done || lia). }
  pose proof (parent_lt pos ltac:(lia)) as Hlt. fold (parent pos).
  assert (∃ y, array_ h !! parent pos = Some y) as [y Hy] by (apply lookup_lt_is_Some; lia).
  unfold item_at. rewrite Hy. simpl.
  destruct (lt (key_ y) (key_ item)) eqn:E.
  { exists pos, h. split; [done|]. split; [done|]. split; [|done]. intros j Hj.
    destruct (decide (j = pos)) as [->|Hjp].
    - intros a b Ha Hb. unfold with_item in Ha, Hb.
      rewrite list_lookup_insert_ne in Ha by lia. rewrite list_lookup_insert_eq in Hb by done.
      simplify_eq. by apply lt_asym.
    - destruct (decide (parent j = pos)); [by apply Hc|]. by apply Ho. }
  unfold set_item, item_at. simpl.
  destruct (lookup_lt_is_Some_2 (array_ h) pos Hpos) as [old ->]. simpl.
  destruct (with_item_step h pos item (parent pos) y) as (Hperm & Hex & Hpl'); [done|lia|done..|].
  destruct (exchange_up (with_item h pos item) _ pos ltac:(lia) Hex Ho Hc) as [Ho' Hc'].
  { intros a b Ha Hb. unfold with_item in Ha, Hb.
    rewrite list_lookup_insert_ne in Ha by lia. rewrite list_lookup_insert_eq in Hb by done. by simplify_eq. }
  set (h1 := {| array_ := <[pos:=y]> (array_ h); pos_ := <[node_ y:=i32 (Z.of_nat pos)]> (pos_ h) |}).
  destruct (IH (parent pos) h1) as (pos' & h' & -> & H1 & H2 & H3 & H4); try done; simpl;
    rewrite ?length_insert; try done; try lia.
  exists pos', h'. split; [done|]. split; [done|]. split; [done|]. split; [done|]. by rewrite H4.
Qed.

(** The place of the moved item is written last. *)
Lemma finish_move h pos item :
  (pos < length (array_ h))%nat → Z.of_nat (length (array_ h)) ≤ INT_MAX →
  placed (with_item h pos item) (pos_ h) pos →
  set_item pos item (set_pos (node_ item) pos h)
    = Ok {| array_ := with_item h pos item; pos_ := <[node_ item := i32 (Z.of_nat pos)]> (pos_ h) |} ∧
  ∀ hole, placed (with_item h pos item) (<[node_ item := i32 (Z.of_nat pos)]> (pos_ h)) hole.
Proof.
  intros Hpos Hl (Hnd & Hpl & Hout). unfold set_item, item_at, set_pos. simpl.
  destruct (lookup_lt_is_Some_2 (array_ h) pos Hpos) as [old ->]. split; [done|].
  assert (with_item h pos item !! pos = Some item) as E by (by apply list_lookup_insert_eq).
  rewrite i32_small by (unfold in_int, INT_MIN, INT_MAX in *; lia).
  intros hole. split; [done|]. split.
  - intros i it Hi _. rewrite get_or_insert. case_decide as Hn.
    + rewrite NoDup_alt in Hnd. f_equal. f_equal. apply (Hnd pos i (node_ item)); rewrite list_lookup_fmap;
        [by rewrite E|by rewrite Hi, Hn].
    + apply Hpl; [done|]. intros ->. congruence.
  - intros n Hn. rewrite get_or_insert, decide_False; [by apply Hout|]. intros <-. apply Hn.
    apply list_elem_of_fmap_2. by eapply list_elem_of_lookup_2.
Qed.

(** Only the item at [pos] may be less than its parent. *)
Definition ready_up (A : list Item) (pos : nat) : Prop := ordered_around A pos ∧ children_ordered A pos.

Lemma fix_up_spec pos h item :
  array_ h !! pos = Some item → Z.of_nat (length (array_ h)) ≤ INT_MAX →
  ready_up (array_ h) pos → placed (array_ h) (pos_ h) pos →
  ∃ h', fix_up pos h = Ok h' ∧ heap_wf h' ∧ array_ h' ≡ₚ array_ h.
Proof.
  intros Hi Hl [Ho Hc] Hpl. pose proof (lookup_lt_Some _ _ _ Hi) as Hpos.
  assert (with_item h pos item = array_ h) as Ew by (by apply list_insert_id).
  destruct (fix_up_loop_spec pos item pos h) as (pos' & h' & E & Hpos' & Hord & Hpl' & Hperm);
    rewrite ?Ew; try done.
  assert (length (array_ h') = length (array_ h)) as El.
  { apply Permutation_length in Hperm. unfold with_item in Hperm. by rewrite !length_insert in Hperm. }
  unfold fix_up, item_at. rewrite Hi. cbn [deref mbind outcome_bind]. rewrite E. cbn [mbind outcome_bind].
  destruct (finish_move h' pos' item) as [-> Hpl2]; [done|by rewrite El|done|].
  eexists. split; [done|]. split; [|simpl; by rewrite Hperm, Ew].
  constructor; simpl; [done|done|]. unfold with_item. by rewrite length_insert, El.
Qed.

(** ** Moving down *)

Lemma scan_spec h l nx k :
  (∀ i, i ∈ l → (i < length (array_ h))%nat) →
  ∃ nx' k', ofold (smaller_child h) (nx, k) l = Ok (nx', k') ∧ lt k k' = false ∧
    (∀ i c, i ∈ l → array_ h !! i = Some c → lt (key_ c) k' = false) ∧
    ((nx' = nx ∧ k' = k) ∨
     (nx' ∈ l ∧ lt k' k = true ∧ ∃ y, array_ h !! nx' = Some y ∧ k' = key_ y)).
Proof.
  revert nx k. induction l as [|i l IH]; intros nx k Hl; simpl.
  { exists nx, k. split; [done|]. split; [apply swo_irrefl|]. split; [|by left]. by intros i c ?%elem_of_nil. }
  destruct (lookup_lt_is_Some_2 (array_ h) i) as [c Hc]; [apply Hl; by left|].
  assert (smaller_child h (nx, k) i = Ok (if lt (key_ c) k then (i, key_ c) else (nx, k))) as ->
    by (unfold smaller_child, item_at; by rewrite Hc).
  cbn [mbind outcome_bind].
  assert (∀ j, j ∈ l → (j < length (array_ h))%nat) as Hl' by (intros; apply Hl; by right).
  destruct (lt (key_ c) k) eqn:E.
  - destruct (IH i (key_ c) Hl') as (nx' & k' & -> & Hk & Hall & Hcase).
    assert (lt k k' = false) as Hkk by (eapply swo_negtrans; [by apply lt_asym|done]).
    exists nx', k'. split; [done|]. split; [done|]. split.
    + intros j d [->|Hj]%elem_of_cons Hd; [|by eapply Hall]. by simplify_eq.
    + right. destruct Hcase as [[-> ->]|(Hin & Hlt & Hy)].
      * split; [by left|]. split; [done|]. by exists c.
      * split; [by right|]. split; [by eapply swo_trans|done].
  - destruct (IH nx k Hl') as (nx' & k' & -> & Hk & Hall & Hcase).
    exists nx', k'. split; [done|]. split; [done|]. split.
    + intros j d [->|Hj]%elem_of_cons Hd; [|by eapply Hall]. simplify_eq. by eapply swo_negtrans.
    + destruct Hcase as [Hcase|(Hin & Hlt & Hy)]; [by left|]. right. split; [by right|done].
Qed.

Lemma exchange_down A A' q c item y :
  (0 < c)%nat → parent c = q → exchanged A A' q c → ordered_around A q →
  A !! q = Some item → A !! c = Some y → lt (key_ y) (key_ item) = true →
  (∀ j b, (0 < j)%nat → parent j = q → A !! j = Some b → lt (key_ b) (key_ y) = false) →
  ordered_around A' c ∧ ordered_at A' c ∧ ∀ j, (0 < j)%nat → parent j ≠ c → ordered_at A' j.
Proof.
  intros Hc Hq (Ep & Eq & Eo) [Ho Hg] Hitem Hy Hlt Hmin. pose proof (parent_lt c Hc) as Hqc.
  assert (∀ j, (0 < j)%nat → parent j ≠ c → ordered_at A' j) as Hall.
  { intros j Hj Hjc a b Ha Hb. pose proof (parent_lt j Hj) as Hjlt.
    destruct (decide (j = c)) as [->|Hne].
    - rewrite Hq, Ep in Ha. rewrite Eq in Hb. simplify_eq. by apply lt_asym.
    - destruct (decide (parent j = q)) as [Ej|Hjq].
      + rewrite Ej, Ep, Hy in Ha. rewrite Eo in Hb by (done || lia). simplify_eq. by apply (Hmin j).
      + rewrite Eo in Ha by done. destruct (decide (j = q)) as [->|Hne'].
        * rewrite Ep, Hy in Hb. simplify_eq. by apply (Hg c a b).
        * rewrite Eo in Hb by done. by apply (Ho j Hj Hne' Hjq a b). }
  split; [|split; [apply Hall; (done || lia)|done]]. split; [by intros; apply Hall|].
  intros j a b Hj _ Hjc Ha Hb. pose proof (parent_lt j Hj) as Hjlt. rewrite Hq, Ep in Ha.
  rewrite Eo in Hb by lia. apply (Ho j Hj); [lia|lia|by rewrite Hjc, <-Ha|done].
Qed.

Lemma fix_down_loop_spec fuel item pos h :
  (length (array_ h) ≤ fuel + pos)%nat → (pos < length (array_ h))%nat →
  Z.of_nat (length (array_ h)) ≤ INT_MAX →
  ordered_around (with_item h pos item) pos → placed (with_item h pos item) (pos_ h) pos →
  ∃ pos' h', fix_down_loop fuel item pos h = Ok (pos', h') ∧ (pos' < length (array_ h'))%nat ∧
    placed (with_item h' pos' item) (pos_ h') pos' ∧
    with_item h' pos' item ≡ₚ with_item h pos item ∧
    ((pos' = pos ∧ h' = h ∧ children_ordered (with_item h pos item) pos) ∨
     heap_ordered (with_item h' pos' item)).
Proof.
  revert pos h. induction fuel as [|fuel IH]; intros pos h Hf Hpos Hl Ho Hpl; [lia|]. cbn [fix_down_loop].
  set (left := (pos * K + 1)%nat). set (right := Nat.min (left + K) (length (array_ h))).
  assert (pos < left)%nat as Hleft by (subst left; nia).
  assert (∀ i, i ∈ seq left (right - left) ↔ (left ≤ i < right)%nat) as Hrange by (intros i; rewrite elem_of_seq; lia).
  destruct (scan_spec h (seq left (right - left)) pos (key_ item)) as (nx & k & -> & _ & Hall & Hcase).
  { intros i Hi%Hrange. lia. }
  cbn [mbind outcome_bind].
  assert (∀ j b, (0 < j)%nat → parent j = pos → with_item h pos item !! j = Some b →
    (left ≤ j < right)%nat ∧ array_ h !! j = Some b) as Hchild.
  { intros j b Hj Hjp Hb. pose proof (parent_lt j Hj). unfold with_item in Hb.
    rewrite list_lookup_insert_ne in Hb by lia. split; [|done].
    apply parent_children in Hjp; [|done]. apply lookup_lt_Some in Hb. lia. }
  assert (with_item h pos item !! pos = Some item) as Eitem by (by apply list_lookup_insert_eq).
  destruct (Nat.eqb_spec nx pos) as [->|Hne].
  { exists pos, h. split; [done|]. split; [done|]. split; [done|]. split; [done|]. left.
    split; [done|]. split; [done|]. intros j Hj Hjp a b Ha Hb.
    destruct (Hchild j b Hj Hjp Hb) as [Hr Hb']. rewrite Hjp, Eitem in Ha. injection Ha as <-.
    destruct Hcase as [[_ ->]|(Hin%Hrange & _)]; [|lia].
    by apply (Hall j b); [apply Hrange|]. }
  destruct Hcase as [[? _]|(Hin%Hrange & Hlt & y & Hy & ->)]; [done|].
  unfold item_at. rewrite Hy. cbn [deref mbind outcome_bind]. unfold set_item, item_at.
  destruct (lookup_lt_is_Some_2 (array_ h) pos Hpos) as [old ->]. cbn [deref mbind outcome_bind].
  destruct (with_item_step h pos item nx y) as (Hperm & Hex & Hpl'); [done|lia|done..|].
  assert (parent nx = pos) as Hpn by (apply parent_children; lia).
  destruct (exchange_down (with_item h pos item) _ pos nx item y ltac:(lia) Hpn Hex Ho Eitem) as (Ho' & _ & Hup).
  { unfold with_item. by rewrite list_lookup_insert_ne by lia. }
  { done. }
  { intros j b Hj Hjp Hb. destruct (Hchild j b Hj Hjp Hb) as [Hr Hb']. by apply (Hall j b); [apply Hrange|]. }
  set (h1 := {| array_ := <[pos:=y]> (array_ h); pos_ := <[node_ y:=i32 (Z.of_nat pos)]> (pos_ h) |}).
  destruct (IH nx h1) as (pos' & h' & E & H1 & H2 & H3 & H4); try done; simpl;
    rewrite ?length_insert; try done; try lia.
  unfold set_pos. cbn [array_ pos_]. fold h1. rewrite E.
  exists pos', h'. split; [done|]. split; [done|]. split; [done|]. split; [by rewrite H3|]. right.
  destruct H4 as [(-> & -> & Hc)|H4]; [|done]. intros j Hj.
  destruct (decide (parent j = nx)); [by apply Hc|by apply Hup].
Qed.

Lemma ordered_ready_up A pos : heap_ordered A → ready_up A pos.
Proof.
  intros Ho. split; [split|]; [intros j Hj _ _; by apply Ho| |intros j Hj _; by apply Ho].
  intros j a b Hj Hp Hjp Ha Hb. pose proof (parent_lt j Hj).
  destruct (lookup_lt_is_Some_2 A pos) as [c Hc]; [apply lookup_lt_Some in Hb; lia|].
  eapply swo_negtrans; [apply (Ho j Hj c b); [by rewrite Hjp|done]|by apply (Ho pos Hp)].
Qed.

Lemma fix_down_spec pos h item :
  array_ h !! pos = Some item → Z.of_nat (length (array_ h)) ≤ INT_MAX →
  ordered_around (array_ h) pos → placed (array_ h) (pos_ h) pos →
  ∃ h', fix_down pos h = Ok h' ∧ array_ h' ≡ₚ array_ h ∧ (∀ hole, placed (array_ h') (pos_ h') hole) ∧
    ready_up (array_ h') pos ∧ ((0 < pos)%nat → ordered_at (array_ h) pos → heap_ordered (array_ h')) ∧
    (pos = 0%nat → heap_ordered (array_ h')).
Proof.
  intros Hi Hl Ho Hpl. pose proof (lookup_lt_Some _ _ _ Hi) as Hpos.
  assert (with_item h pos item = array_ h) as Ew by (by apply list_insert_id).
  destruct (fix_down_loop_spec (length (array_ h)) item pos h) as (pos' & h' & E & Hpos' & Hpl' & Hperm & Hcase);
    rewrite ?Ew; try done; try lia.
  assert (length (array_ h') = length (array_ h)) as El.
  { apply Permutation_length in Hperm. unfold with_item in Hperm. by rewrite !length_insert in Hperm. }
  unfold fix_down, item_at. rewrite Hi. cbn [deref mbind outcome_bind]. rewrite E. cbn [mbind outcome_bind].
  destruct (finish_move h' pos' item) as [-> Hpl2]; [done|by rewrite El|done|].
  eexists. split; [done|]. cbn [array_ pos_]. split; [by rewrite Hperm, Ew|]. split; [done|].
  destruct Hcase as [(-> & -> & Hc)|Hh]; [|split; [by apply ordered_ready_up|by split]].
  rewrite Ew in *. split; [by split|].
  assert (((0 < pos)%nat → ordered_at (array_ h) pos) → heap_ordered (array_ h)) as Hfull.
  { intros Hat j Hj. destruct (decide (j = pos)) as [->|Hjp]; [by apply Hat|].
    destruct (decide (parent j = pos)); [by apply Hc|by apply Ho]. }
  split; [intros _ Hat; by apply Hfull|intros ->; apply Hfull; lia].
Qed.

(** ** The operations *)

Lemma placed_node h it i :
  heap_wf h → array_ h !! i = Some it → node_pos h (node_ it) = Z.of_nat i.
Proof. intros [_ Hp _] Hi. destruct (Hp (S i)) as (_ & Hpl & _). apply Hpl; [done|lia]. Qed.

Lemma insert_spec key node h :
  heap_wf h → in_heap h node = false → size h < INT_MAX →
  ∃ h', insert key node h = Ok h' ∧ heap_wf h' ∧
    array_ h' ≡ₚ {| key_ := key; node_ := node |} :: array_ h.
Proof.
  intros Hwf Hin Hsz. pose proof Hwf as [Hord Hplaced Hl]. unfold insert. rewrite Hin. cbn [negb cassert mbind outcome_bind array_].
  set (new := {| key_ := key; node_ := node |}). set (h1 := {| array_ := array_ h ++ [new]; pos_ := pos_ h |}).
  rewrite length_app. cbn [length]. replace (length (array_ h) + 1 - 1)%nat with (length (array_ h)) by lia.
  assert (∀ j b, (array_ h ++ [new]) !! j = Some b → (j ≤ length (array_ h))%nat) as Hlen.
  { intros j b Hb%lookup_lt_Some. rewrite length_app in Hb. simpl in Hb. lia. }
  destruct (fix_up_spec (length (array_ h)) h1 new) as (h' & -> & Hwf' & Hperm).
  - simpl. by apply list_lookup_middle.
  - simpl. rewrite length_app. simpl. unfold size in Hsz. lia.
  - simpl. split; [split|].
    + intros j Hj Hne _ a b Ha Hb. pose proof (Hlen j b Hb). pose proof (parent_lt j Hj).
      rewrite lookup_app_l in Ha, Hb by lia. by apply (Hord j Hj).
    + intros j a b Hj _ Hjp _ Hb. pose proof (Hlen j b Hb). pose proof (parent_lt j Hj). lia.
    + intros j Hj Hjp a b _ Hb. pose proof (Hlen j b Hb). pose proof (parent_lt j Hj). lia.
  - simpl. destruct (Hplaced (length (array_ h))) as (Hnd & Hpl & Hout). split; [|split].
    + rewrite fmap_app. apply NoDup_app. split; [done|]. split; [|apply NoDup_singleton].
      intros n Hn ->%list_elem_of_singleton. simpl in Hn. apply list_elem_of_fmap_1 in Hn as (it & En & [i Hi]%list_elem_of_lookup_1).
      pose proof (placed_node h it i Hwf Hi) as Hp. unfold in_heap in Hin. rewrite En, Hp in Hin. zbool. lia.
    + intros i it Hi Hne. pose proof (Hlen i it Hi). rewrite lookup_app_l in Hi by lia. by apply Hpl.
    + intros n Hn. apply Hout. rewrite fmap_app in Hn. set_solver.
  - exists h'. split; [done|]. split; [done|]. rewrite Hperm. simpl. by rewrite Permutation_app_comm.
Qed.

(** The heap whose item at [pos] is being removed: its node is in no heap any more. *)
Record removing (h : KHeap) (pos : nat) (it : Item) : Prop := {
  rm_ordered : heap_ordered (array_ h);
  rm_item : array_ h !! pos = Some it;
  rm_placed : placed (array_ h) (pos_ h) pos;
  rm_node : get_or (-1) (pos_ h) (node_ it) = -1;
  rm_size : Z.of_nat (length (array_ h)) ≤ INT_MAX;
}.

(** The vector after the last item took the place of the removed one. *)
Lemma replace_last (A : list Item) pos it back :
  A !! pos = Some it → last A = Some back →
  let A' := removelast (<[pos := back]> A) in
  length A = S (length A') ∧ it :: A' ≡ₚ A ∧
  (∀ j, (j < length A')%nat → A' !! j = if decide (j = pos) then Some back else A !! j).
Proof.
  intros Hi Hback A'. pose proof (lookup_lt_Some _ _ _ Hi) as Hpos.
  apply last_Some in Hback as [l ->]. rewrite length_app in *. simpl in Hpos.
  assert (A' = <[pos := back]> l) as EA.
  { unfold A'. destruct (decide (pos < length l)%nat).
    - rewrite insert_app_l by done. rewrite removelast_app by done. simpl. by rewrite app_nil_r.
    - replace pos with (length l + 0)%nat by lia. rewrite insert_app_r. simpl.
      rewrite removelast_app by done. simpl. rewrite app_nil_r. by rewrite list_insert_ge by lia. }
  rewrite EA. split; [rewrite length_insert; simpl; lia|]. split.
  - destruct (decide (pos < length l)%nat).
    + rewrite lookup_app_l in Hi by done. rewrite insert_swap_perm by done. by rewrite Permutation_app_comm.
    + assert (pos = length l) as -> by lia. rewrite list_lookup_middle in Hi by done. simplify_eq.
      rewrite list_insert_ge by lia. by rewrite Permutation_app_comm.
  - intros j Hj. rewrite length_insert in Hj. case_decide as E.
    + subst j. by apply list_lookup_insert_eq.
    + rewrite list_lookup_insert_ne by done. by rewrite lookup_app_l.
Qed.

Lemma removed_placed h pos it A' :
  removing h pos it → it :: A' ≡ₚ array_ h →
  (∀ j, (j < length A')%nat → j ≠ pos → A' !! j = array_ h !! j) → placed A' (pos_ h) pos.
Proof.
  intros [_ Hi (Hnd & Hpl & Hout) Hn _] Hperm Hlook. rewrite <-Hperm in Hnd. simpl in Hnd.
  apply NoDup_cons in Hnd as [Hni Hnd]. split; [done|]. split.
  - intros i x Hx Hne. apply Hpl; [|done]. rewrite <-Hlook; [done|by eapply lookup_lt_Some|done].
  - intros n Hnot. destruct (decide (n = node_ it)) as [->|Hne]; [done|]. apply Hout.
    rewrite <-Hperm. simpl. rewrite not_elem_of_cons. done.
Qed.

Lemma erase_pos_spec pos h it :
  removing h pos it → ∃ h', erase_pos pos h = Ok h' ∧ heap_wf h' ∧ it :: array_ h' ≡ₚ array_ h.
Proof.
  intros Hrm. pose proof Hrm as [Hord Hi Hpl Hn Hl]. pose proof (lookup_lt_Some _ _ _ Hi) as Hpos.
  destruct (last (array_ h)) as [back|] eqn:Hback; [|apply last_None in Hback; rewrite Hback in Hpos; simpl in Hpos; lia].
  destruct (replace_last (array_ h) pos it back Hi Hback) as (Hlen & Hperm & Hlook).
  set (A' := removelast (<[pos := back]> (array_ h))) in *.
  assert (placed A' (pos_ h) pos) as Hpl'.
  { eapply removed_placed; [exact Hrm|done|]. intros j Hj Hne. rewrite Hlook by done. by rewrite decide_False. }
  unfold erase_pos. rewrite Hback. cbn [deref mbind outcome_bind].
  unfold set_item, item_at. rewrite Hi. cbn [deref mbind outcome_bind array_ pos_]. fold A'.
  assert (∀ j, (0 < j)%nat → j ≠ pos → parent j ≠ pos → ordered_at A' j) as Hsame.
  { intros j Hj Hne Hnp a b Ha Hb. pose proof (parent_lt j Hj). pose proof (lookup_lt_Some _ _ _ Hb).
    rewrite Hlook, decide_False in Ha by (done || lia).
    rewrite Hlook, decide_False in Hb by (done || lia). by apply (Hord j Hj). }
  destruct (Nat.ltb_spec pos (length A')) as [Hlt|Hge].
  - set (h1 := {| array_ := A'; pos_ := pos_ h |}).
    destruct (fix_down_spec pos h1 back) as (h2 & -> & Hp2 & Hpl2 & Hready & _); simpl.
    { rewrite Hlook by done. by rewrite decide_True. }
    { lia. }
    { split; [done|]. intros j a b Hj Hp Hjp Ha Hb. pose proof (parent_lt j Hj). pose proof (parent_lt pos Hp).
      pose proof (lookup_lt_Some _ _ _ Hb). rewrite Hlook, decide_False in Ha by lia. rewrite Hlook, decide_False in Hb by lia.
      eapply swo_negtrans; [apply (Hord j Hj it b); [by rewrite Hjp|done]|by apply (Hord pos Hp)]. }
    { done. }
    assert (length (array_ h2) = length A') as El by (by apply Permutation_length in Hp2).
    destruct (lookup_lt_is_Some_2 (array_ h2) pos) as [x Hx]; [by rewrite El|].
    cbn [mbind outcome_bind].
    destruct (fix_up_spec pos h2 x Hx) as (h' & -> & Hwf & Hp'); [rewrite El; lia|done|done|].
    exists h'. split; [done|]. split; [done|]. rewrite Hp', Hp2. simpl. done.
  - eexists. split; [done|]. split; [|done]. constructor; simpl.
    + intros j Hj. destruct (decide (j = pos)) as [->|Hne].
      { intros a b _ Hb%lookup_lt_Some. lia. }
      destruct (decide (parent j = pos)) as [Hjp|Hnp]; [|by apply Hsame].
      intros a b _ Hb%lookup_lt_Some. pose proof (parent_lt j Hj). lia.
    + intros hole. destruct Hpl' as (Hnd & Hpl' & Hout). split; [done|]. split; [|done].
      intros i x Hx _. apply Hpl'; [done|]. apply lookup_lt_Some in Hx. lia.
    + lia.
Qed.

Lemma remove_removing h pos it :
  heap_wf h → array_ h !! pos = Some it → removing (remove (node_ it) h) pos it.
Proof.
  intros [Hord Hplaced Hl] Hi. constructor; simpl; [done|done| |by apply get_or_insert_eq|done].
  destruct (Hplaced pos) as (Hnd & Hpl & Hout). split; [done|]. split.
  - intros i x Hx Hne. rewrite get_or_insert, decide_False; [by apply Hpl|]. intros E. apply Hne.
    rewrite NoDup_alt in Hnd. apply (Hnd i pos (node_ x)); rewrite list_lookup_fmap; [by rewrite Hx|by rewrite Hi, <-E].
  - intros n Hn. rewrite get_or_insert. case_decide; [done|]. by apply Hout.
Qed.

(** A node of the heap is at the place it says. *)
Lemma node_place h it :
  heap_wf h → it ∈ array_ h →
  ∃ pos, array_ h !! pos = Some it ∧ (u64 (node_pos h (node_ it)) <? size h) = true ∧
    Z.to_nat (u64 (node_pos h (node_ it))) = pos.
Proof.
  intros Hwf [pos Hi]%list_elem_of_lookup_1. exists pos. rewrite (placed_node h it pos) by done.
  pose proof (lookup_lt_Some _ _ _ Hi). destruct Hwf as [_ _ Hl]. unfold size, INT_MAX in *.
  rewrite u64_small by (unfold two64; lia). split; [done|]. split; [apply Z.ltb_lt; lia|lia].
Qed.

Lemma erase_spec h it :
  heap_wf h → it ∈ array_ h →
  ∃ h', erase (node_ it) h = Ok h' ∧ heap_wf h' ∧ it :: array_ h' ≡ₚ array_ h.
Proof.
  intros Hwf Hin. destruct (node_place h it Hwf Hin) as (pos & Hi & Hlt & Hp). unfold erase.
  change (size (remove (node_ it) h)) with (size h). rewrite Hlt. cbn [cassert mbind outcome_bind]. rewrite Hp.
  by apply (erase_pos_spec pos (remove (node_ it) h) it), remove_removing.
Qed.

(** No key is less than the one on top. *)
Lemma top_least A it it' : heap_ordered A → A !! 0%nat = Some it → it' ∈ A → lt (key_ it') (key_ it) = false.
Proof.
  intros Hord H0 [j Hj]%list_elem_of_lookup_1. revert it' Hj.
  induction (lt_wf j) as [j _ IH]; intros it' Hj. destruct (decide (j = 0%nat)) as [->|Hne].
  { simplify_eq. apply swo_irrefl. }
  pose proof (parent_lt j ltac:(lia)) as Hp. pose proof (lookup_lt_Some _ _ _ Hj).
  destruct (lookup_lt_is_Some_2 A (parent j)) as [c Hc]; [lia|].
  eapply swo_negtrans; [by apply (Hord j ltac:(lia))|by apply (IH (parent j))].
Qed.

Lemma pop_spec h :
  heap_wf h → array_ h ≠ [] →
  ∃ it h', pop h = Ok (node_ it, h') ∧ heap_wf h' ∧ it :: array_ h' ≡ₚ array_ h ∧
    top h = Ok (node_ it) ∧ top_key h = Ok (key_ it) ∧ is_top h (node_ it) = true ∧
    ∀ it', it' ∈ array_ h → lt (key_ it') (key_ it) = false.
Proof.
  intros Hwf Hne. destruct (array_ h) as [|it rest] eqn:E; [done|].
  assert (array_ h !! 0%nat = Some it) as H0 by (by rewrite E).
  destruct (erase_pos_spec 0 _ it (remove_removing h 0 it Hwf H0)) as (h' & E' & Hwf' & Hperm).
  exists it, h'. unfold pop, empty, top, top_key, is_top, item_at. rewrite H0.
  rewrite (proj2 (Nat.eqb_neq _ _)) by (by rewrite E). simpl. rewrite E'. simpl.
  split; [done|]. split; [done|]. split; [by rewrite Hperm; simpl; rewrite E|]. split; [done|]. split; [done|].
  split; [by rewrite (placed_node h it 0)|].
  intros it' Hin. apply (top_least (array_ h)); [apply Hwf|done|by rewrite E].
Qed.

Lemma fix_spec h it key :
  heap_wf h → it ∈ array_ h →
  ∃ h', fix_ key (node_ it) h = Ok h' ∧ heap_wf h' ∧
    it :: array_ h' ≡ₚ {| key_ := key; node_ := node_ it |} :: array_ h.
Proof.
  intros Hwf Hin. destruct (node_place h it Hwf Hin) as (pos & Hi & Hlt & Hp). pose proof Hwf as [Hord Hplaced Hl].
  pose proof (lookup_lt_Some _ _ _ Hi) as Hpos. set (new := {| key_ := key; node_ := node_ it |}).
  unfold fix_, checked_pos. rewrite Hlt. cbn [cassert mbind outcome_bind]. rewrite Hp.
  unfold item_at at 1. rewrite Hi. cbn [deref mbind outcome_bind]. unfold set_item, item_at. rewrite Hi.
  cbn [deref mbind outcome_bind]. fold new. set (A' := <[pos := new]> (array_ h)).
  assert (A' !! pos = Some new) as Hi' by (by apply list_lookup_insert_eq).
  assert (∀ j, j ≠ pos → A' !! j = array_ h !! j) as Ho by (intros; by apply list_lookup_insert_ne).
  assert (it :: A' ≡ₚ new :: array_ h) as Hperm by (by apply insert_swap_perm).
  assert (node_ <$> A' = node_ <$> array_ h) as En.
  { unfold A'. rewrite list_fmap_insert. apply list_insert_id. by rewrite list_lookup_fmap, Hi. }
  assert (∀ hole, placed A' (pos_ h) hole) as Hpl'.
  { intros hole. destruct (Hplaced (S (length (array_ h)))) as (Hnd & Hpl & Hout). unfold placed. rewrite En.
    split; [done|]. split; [|done]. intros i x Hx _. destruct (decide (i = pos)) as [->|Hne].
    - assert (x = new) as -> by congruence. simpl. apply Hpl; [done|lia].
    - rewrite Ho in Hx by done. apply Hpl; [done|]. apply lookup_lt_Some in Hx. lia. }
  assert (ordered_around A' pos) as Har.
  { split.
    - intros j Hj Hne Hnp a b Ha Hb. rewrite Ho in Ha, Hb by done. by apply (Hord j Hj).
    - intros j a b Hj Hp0 Hjp Ha Hb. pose proof (parent_lt j Hj). pose proof (parent_lt pos Hp0).
      rewrite Ho in Ha, Hb by lia.
      eapply swo_negtrans; [apply (Hord j Hj it b); [by rewrite Hjp|done]|by apply (Hord pos Hp0)]. }
  destruct (lt key (key_ it)) eqn:E.
  - destruct (fix_up_spec pos {| array_ := A'; pos_ := pos_ h |} new Hi') as (h' & -> & Hwf' & Hp'); simpl.
    + unfold A'. by rewrite length_insert.
    + split; [done|]. intros j Hj Hjp a b Ha Hb. pose proof (parent_lt j Hj). rewrite Hjp, Hi' in Ha.
      simplify_eq. rewrite Ho in Hb by lia. simpl. eapply swo_negtrans; [|by apply lt_asym].
      apply (Hord j Hj it b); [by rewrite Hjp|done].
    + done.
    + exists h'. split; [done|]. split; [done|]. by rewrite Hp'.
  - destruct (fix_down_spec pos {| array_ := A'; pos_ := pos_ h |} new Hi') as (h' & -> & Hp' & Hpl2 & _ & Hup & H0); simpl.
    + unfold A'. by rewrite length_insert.
    + done.
    + done.
    + exists h'. split; [done|]. split; [|by rewrite Hp']. constructor; [|done|].
      * destruct (decide (pos = 0%nat)) as [->|Hne]; [by apply H0|]. apply Hup; [lia|]. simpl.
        intros a b Ha Hb. pose proof (parent_lt pos ltac:(lia)). rewrite Ho in Ha by lia.
        assert (b = new) as -> by congruence. simpl. eapply swo_negtrans; [exact E|].
        by apply (Hord pos ltac:(lia)).
      * apply Permutation_length in Hp'. rewrite Hp'. simpl. unfold A'. by rewrite length_insert.
Qed.

Lemma check_wf h : heap_wf h → check h = Ok ().
Proof.
  intros [Hord _ _]. unfold check.
  destruct (ofold_total (λ _ i, check_children h i) (λ _, True) (seq 0 (length (array_ h))) ()) as ([] & E & _);
    [done| |done].
  intros [] i Hi%elem_of_seq _. exists (). split; [|done]. unfold check_children, item_at.
  destruct (lookup_lt_is_Some_2 (array_ h) i) as [it Hit]; [lia|]. rewrite Hit. cbn [deref mbind outcome_bind].
  match goal with |- ofold ?body _ ?l = _ =>
    destruct (ofold_total body (λ _, True) l ()) as ([] & E & _); [done| |exact E] end.
  intros [] j Hj%elem_of_seq _. exists (). split; [|done].
  assert (parent j = i) as Hji by (apply parent_children; lia).
  destruct (lookup_lt_is_Some_2 (array_ h) j) as [c Hc]; [lia|]. rewrite Hc. cbn [deref mbind outcome_bind].
  assert (lt (key_ c) (key_ it) = false) as ->; [|done]. apply (Hord j ltac:(lia)); [by rewrite Hji|done].
Qed.

Lemma empty_heap_wf pos : (∀ n, get_or (-1) pos n = -1) → heap_wf (mk_KHeap pos).
Proof.
  intros Hpos. constructor; simpl; [intros j _ a b Ha; done| |done].
  intros hole. split; [constructor|]. split; [done|]. intros n _. apply Hpos.
Qed.
End heap.

#[export] Instance Z_ltb_order : StrictWeakOrder Z.ltb.
Proof.
  split; intros x; [apply Z.ltb_irrefl|..]; intros y z; rewrite ?Z.ltb_lt, ?Z.ltb_ge; lia.
Qed.

(** C30. Every operation of the heap ends, fails no check, and keeps the order of the vector
    and the places that the nodes know: inserting adds one item, erasing removes the
    item of the node, fixing changes its key, and popping removes an item that no key is
    less than; the code's own consistency check succeeds. *)
Theorem heap_operations {KeyT} (lt : KeyT → KeyT → bool) `{!StrictWeakOrder lt} (K : nat) h :
  K ≠ 0%nat → heap_wf lt K h →
  check lt K h = Ok () ∧
  (∀ key node, in_heap h node = false → size h < INT_MAX →
    ∃ h', insert lt K key node h = Ok h' ∧ heap_wf lt K h' ∧
      array_ h' ≡ₚ {| key_ := key; node_ := node |} :: array_ h) ∧
  (∀ it, it ∈ array_ h →
    ∃ h', erase lt K (node_ it) h = Ok h' ∧ heap_wf lt K h' ∧ it :: array_ h' ≡ₚ array_ h) ∧
  (∀ it key, it ∈ array_ h →
    ∃ h', fix_ lt K key (node_ it) h = Ok h' ∧ heap_wf lt K h' ∧
      it :: array_ h' ≡ₚ {| key_ := key; node_ := node_ it |} :: array_ h) ∧
  (array_ h ≠ [] →
    ∃ it h', pop lt K h = Ok (node_ it, h') ∧ heap_wf lt K h' ∧ it :: array_ h' ≡ₚ array_ h ∧
      ∀ it', it' ∈ array_ h → lt (key_ it') (key_ it) = false).
Proof.
  intros HK Hwf. split; [by apply check_wf|]. split; [intros; by apply insert_spec|].
  split; [intros; by apply erase_spec|]. split; [intros; by apply fix_spec|].
  intros Hne. destruct (pop_spec lt K HK h Hwf Hne) as (it & h' & E & Hwf' & Hp & _ & _ & _ & Hmin).
  by exists it, h'.
Qed.

Lemma heap_operations_witness :
  ∃ h', insert Z.ltb 4 30 7 (mk_KHeap ∅) = Ok h' ∧ heap_wf Z.ltb 4 h'.
Proof.
  destruct (heap_operations Z.ltb 4 (mk_KHeap ∅)) as (_ & Hins & _); [done|apply empty_heap_wf; [apply _|done|intros n; reflexivity]|].
  destruct (Hins 30 7) as (h' & E & Hwf & _); [reflexivity|reflexivity|]. exists h'. split; assumption.
Defined.
