(* ===== verification/HashNode.v ===== *)
(** * Nodes of hash tables ([tdutils/td/utils/MapNode.h], [SetNode.h], [HashTableUtils.h])

    A hash table is a template over the type of its nodes. What it calls on a node is
    the class [NodeOps], what it relies on the class [NodeSpec]; the four kinds of nodes
    (of maps and of sets, with the data inside or, when it is large, behind a pointer)
    are instances of both. The hash functions of numbers are here too. *)
From S2P Require Import Prelude Bytes.

(** [KeyT()], the key that marks an empty node. *)
Class EmptyKey (K : Type) := KeyT0 : K.

Definition is_hash_table_key_empty {K} `{EqDecision K, EmptyKey K} (key : K) : bool :=
  bool_decide (key = KeyT0).

(** The members of a node type that the table uses. A moved-from node is returned too. *)
Class NodeOps (K V N : Type) := {
  node_new : N;
  node_empty : N → bool;
  node_key : N → outcome K;
  node_public : N → outcome (K * V);
  node_copy_from : N → N → outcome N;
  node_move : N → N → outcome (N * N);
  node_clear : N → outcome N;
  node_emplace : K → V → N → outcome N
}.
#[global] Hint Mode NodeOps - - ! : typeclass_instances.

(** What they promise. [holds n None]: the node [n] is empty; [holds n (Some (k, v))]: it
    holds the key [k] with the value [v]. *)
Class NodeSpec (K V N : Type) `{EmptyKey K, NodeOps K V N} := {
  holds : N → option (K * V) → Prop;
  holds_new : holds node_new None;
  holds_empty n c : holds n c → node_empty n = bool_decide (c = None :> option (K * V));
  holds_key n k v : holds n (Some (k, v)) → node_key n = Ok k ∧ k ≠ KeyT0;
  holds_public n k v : holds n (Some (k, v)) → node_public n = Ok (k, v);
  holds_copy n m x :
    holds n None → holds m (Some x) → ∃ n', node_copy_from n m = Ok n' ∧ holds n' (Some x);
  holds_move n m x :
    holds n None → holds m (Some x) →
    ∃ n' m', node_move n m = Ok (n', m') ∧ holds n' (Some x) ∧ holds m' None;
  holds_clear n x : holds n (Some x) → ∃ n', node_clear n = Ok n' ∧ holds n' None;
  holds_emplace n k v :
    holds n None → k ≠ KeyT0 → ∃ n', node_emplace k v n = Ok n' ∧ holds n' (Some (k, v))
}.

(** ** Nodes of maps, with the data inside ([MapNode]) *)
Module MapNode.
Section map_node.
Context {K V : Type} `{EqDecision K, EmptyKey K}.

(** [second] is a member of a union: [None] when no object lives in it. *)
Record MapNode := { first : K; second : option V }.

Definition new : MapNode := {| first := KeyT0; second := None |}.
Definition empty (n : MapNode) : bool := is_hash_table_key_empty (first n).
Definition copy_from (n other : MapNode) : outcome MapNode :=
  _ ← cassert (empty n);
  _ ← cassert (negb (empty other));
  v ← deref (second other);
  Ok {| first := first other; second := Some v |}.
Definition move (n other : MapNode) : outcome (MapNode * MapNode) :=
  _ ← cassert (empty n);
  _ ← cassert (negb (empty other));
  v ← deref (second other);
  Ok ({| first := first other; second := Some v |}, {| first := KeyT0; second := None |}).
Definition clear (n : MapNode) : outcome MapNode :=
  _ ← cassert (negb (empty n));
  _ ← deref (second n);
  let n := {| first := KeyT0; second := None |} in
  _ ← cassert (empty n);
  Ok n.
Definition emplace (key : K) (args : V) (n : MapNode) : outcome MapNode :=
  _ ← cassert (empty n);
  let n := {| first := key; second := Some args |} in
  _ ← cassert (negb (empty n));
  Ok n.
Definition get_public (n : MapNode) : outcome (K * V) :=
  v ← deref (second n); Ok (first n, v).

#[global] Instance ops : NodeOps K V MapNode := {|
  node_new := new; node_empty := empty; node_key n := Ok (first n);
  node_public := get_public; node_copy_from := copy_from; node_move := move;
  node_clear := clear; node_emplace := emplace |}.

Definition holds (n : MapNode) (c : option (K * V)) : Prop :=
  match c with
  | None => first n = KeyT0 ∧ second n = None
  | Some (k, v) => first n = k ∧ k ≠ KeyT0 ∧ second n = Some v
  end.

Lemma map_node_empty_spec n c : holds n c → empty n = bool_decide (c = None).
Proof.
  unfold empty, is_hash_table_key_empty. intros Hn. apply bool_decide_ext.
  destruct c as [[k v]|]; simpl in Hn; naive_solver.
Qed.

#[global] Program Instance spec : NodeSpec K V MapNode := {| HashNode.holds := holds |}.
Next Obligation. done. Qed.
Next Obligation. apply map_node_empty_spec. Qed.
Next Obligation. simpl. naive_solver. Qed.
Next Obligation. intros n k v (<- & _ & Hs). simpl. unfold get_public. by rewrite Hs. Qed.
Next Obligation.
  intros n m [k v] Hn Hm. simpl. unfold copy_from.
  rewrite (map_node_empty_spec _ _ Hn), (map_node_empty_spec _ _ Hm). destruct Hm as (<- & Hk & ->). simpl.
  eauto.
Qed.
Next Obligation.
  intros n m [k v] Hn Hm. simpl. unfold move.
  rewrite (map_node_empty_spec _ _ Hn), (map_node_empty_spec _ _ Hm). destruct Hm as (<- & Hk & ->). simpl.
  eauto 10.
Qed.
Next Obligation.
  intros n [k v] Hn. simpl. unfold clear. rewrite (map_node_empty_spec _ _ Hn).
  destruct Hn as (<- & Hk & ->). simpl. unfold empty, is_hash_table_key_empty. simpl.
  rewrite bool_decide_true by done. simpl. eauto.
Qed.
Next Obligation.
  intros n k v Hn Hk. simpl. unfold emplace. rewrite (map_node_empty_spec _ _ Hn). simpl.
  unfold empty, is_hash_table_key_empty. simpl. rewrite bool_decide_false by done. simpl. eauto.
Qed.
End map_node.
Arguments MapNode : clear implicits.
End MapNode.

(** ** Nodes of maps, with large data behind a pointer *)
Module BoxedMapNode.
Section boxed_map_node.
Context {K V : Type} `{EqDecision K, EmptyKey K}.

Record MapNode := { impl_ : option (K * V) }.

Definition new : MapNode := {| impl_ := None |}.
Definition empty (n : MapNode) : bool := bool_decide (impl_ n = None :> option (K * V)).
(** The constructor of [Impl]. *)
Definition Impl (key : K) (args : V) : outcome (K * V) :=
  _ ← cassert (negb (is_hash_table_key_empty key)); Ok (key, args).
Definition key (n : MapNode) : outcome K :=
  _ ← cassert (negb (empty n)); i ← deref (impl_ n); Ok i.1.
Definition get_public (n : MapNode) : outcome (K * V) := deref (impl_ n).
Definition copy_from (n other : MapNode) : outcome MapNode :=
  _ ← cassert (empty n);
  _ ← cassert (negb (empty other));
  i ← deref (impl_ other);
  i ← Impl i.1 i.2;
  Ok {| impl_ := Some i |}.
(** The assignment the compiler generates moves the pointer. *)
Definition move (n other : MapNode) : outcome (MapNode * MapNode) :=
  Ok ({| impl_ := impl_ other |}, {| impl_ := None |}).
Definition clear (n : MapNode) : outcome MapNode :=
  _ ← cassert (negb (empty n)); Ok {| impl_ := None |}.
Definition emplace (key : K) (args : V) (n : MapNode) : outcome MapNode :=
  _ ← cassert (empty n);
  i ← Impl key args;
  Ok {| impl_ := Some i |}.

#[global] Instance ops : NodeOps K V MapNode := {|
  node_new := new; node_empty := empty; node_key := key;
  node_public := get_public; node_copy_from := copy_from; node_move := move;
  node_clear := clear; node_emplace := emplace |}.

Definition holds (n : MapNode) (c : option (K * V)) : Prop :=
  impl_ n = c ∧ match c with Some (k, _) => k ≠ KeyT0 | None => True end.

Lemma boxed_map_node_Impl_spec k v : k ≠ KeyT0 → Impl k v = Ok (k, v).
Proof.
  intros Hk. unfold Impl, is_hash_table_key_empty. by rewrite bool_decide_false.
Qed.

#[global] Program Instance spec : NodeSpec K V MapNode := {| HashNode.holds := holds |}.
Next Obligation. done. Qed.
Next Obligation. intros n c [<- _]. done. Qed.
Next Obligation. intros n k v [Hn Hk]. simpl. unfold key, empty. by rewrite Hn. Qed.
Next Obligation. intros n k v [Hn Hk]. simpl. unfold get_public. by rewrite Hn. Qed.
Next Obligation.
  intros n m [k v] [Hn _] [Hm Hk]. simpl. unfold copy_from, empty. rewrite Hn, Hm. simpl.
  rewrite boxed_map_node_Impl_spec by done. simpl. eexists; split; [done|]. by split.
Qed.
Next Obligation.
  intros n m [k v] [Hn _] [Hm Hk]. simpl. unfold move. rewrite Hm.
  do 2 eexists; split; [done|]. by repeat split.
Qed.
Next Obligation.
  intros n [k v] [Hn Hk]. simpl. unfold clear, empty. rewrite Hn. simpl.
  eexists; split; [done|]. by split.
Qed.
Next Obligation.
  intros n k v [Hn _] Hk. simpl. unfold emplace, empty. rewrite Hn. simpl.
  rewrite boxed_map_node_Impl_spec by done. simpl. eexists; split; [done|]. by split.
Qed.
End boxed_map_node.
Arguments MapNode : clear implicits.
End BoxedMapNode.

(** ** Nodes of sets

    The value of a key is [()]. *)
Module SetNode.
Section set_node.
Context {K : Type} `{EqDecision K, EmptyKey K}.

Record SetNode := { first : K }.

Definition new : SetNode := {| first := KeyT0 |}.
Definition empty (n : SetNode) : bool := is_hash_table_key_empty (first n).
Definition copy_from (n other : SetNode) : outcome SetNode :=
  _ ← cassert (empty n);
  let n := {| first := first other |} in
  _ ← cassert (negb (empty n));
  Ok n.
Definition move (n other : SetNode) : outcome (SetNode * SetNode) :=
  _ ← cassert (empty n);
  _ ← cassert (negb (empty other));
  Ok ({| first := first other |}, {| first := KeyT0 |}).
Definition clear (n : SetNode) : outcome SetNode :=
  let n := {| first := KeyT0 |} in
  _ ← cassert (empty n);
  Ok n.
Definition emplace (key : K) (n : SetNode) : outcome SetNode := Ok {| first := key |}.

#[global] Instance ops : NodeOps K unit SetNode := {|
  node_new := new; node_empty := empty; node_key n := Ok (first n);
  node_public n := Ok (first n, ()); node_copy_from := copy_from; node_move := move;
  node_clear := clear; node_emplace k _ := emplace k |}.

Definition holds (n : SetNode) (c : option (K * unit)) : Prop :=
  match c with None => first n = KeyT0 | Some (k, _) => first n = k ∧ k ≠ KeyT0 end.

Lemma set_node_empty_spec n c : holds n c → empty n = bool_decide (c = None).
Proof.
  unfold empty, is_hash_table_key_empty. intros Hn. apply bool_decide_ext.
  destruct c as [[k v]|]; simpl in Hn; naive_solver.
Qed.

#[global] Program Instance spec : NodeSpec K unit SetNode := {| HashNode.holds := holds |}.
Next Obligation. done. Qed.
Next Obligation. apply set_node_empty_spec. Qed.
Next Obligation. simpl. naive_solver. Qed.
Next Obligation. by intros n k [] [<- _]. Qed.
Next Obligation.
  intros n m [k []] Hn Hm. simpl. unfold copy_from. rewrite (set_node_empty_spec _ _ Hn). simpl.
  destruct Hm as [<- Hk]. unfold empty, is_hash_table_key_empty. simpl.
  rewrite bool_decide_false by done. simpl. eauto.
Qed.
Next Obligation.
  intros n m [k []] Hn Hm. simpl. unfold move.
  rewrite (set_node_empty_spec _ _ Hn), (set_node_empty_spec _ _ Hm). simpl. destruct Hm as [<- Hk]. eauto 10.
Qed.
Next Obligation.
  intros n [k []] Hn. simpl. unfold clear, empty, is_hash_table_key_empty. simpl.
  rewrite bool_decide_true by done. simpl. eauto.
Qed.
Next Obligation. intros n k [] Hn Hk. simpl. unfold emplace. eauto. Qed.
End set_node.
Arguments SetNode : clear implicits.
End SetNode.

(** A set with large keys has a pointer to the key. *)
Module BoxedSetNode.
Section boxed_set_node.
Context {K : Type} `{EqDecision K, EmptyKey K}.

Record SetNode := { impl_ : option K }.

Definition new : SetNode := {| impl_ := None |}.
Definition empty (n : SetNode) : bool := bool_decide (impl_ n = None :> option K).
Definition Impl (key : K) : outcome K :=
  _ ← cassert (negb (is_hash_table_key_empty key)); Ok key.
Definition key (n : SetNode) : outcome K :=
  _ ← cassert (negb (empty n)); deref (impl_ n).
Definition copy_from (n other : SetNode) : outcome SetNode :=
  _ ← cassert (empty n);
  k ← deref (impl_ other);
  i ← Impl k;
  let n := {| impl_ := Some i |} in
  _ ← cassert (negb (empty n));
  Ok n.
Definition move (n other : SetNode) : outcome (SetNode * SetNode) :=
  Ok ({| impl_ := impl_ other |}, {| impl_ := None |}).
Definition clear (n : SetNode) : outcome SetNode :=
  _ ← cassert (negb (empty n)); Ok {| impl_ := None |}.
Definition emplace (key : K) (n : SetNode) : outcome SetNode :=
  _ ← cassert (empty n);
  i ← Impl key;
  Ok {| impl_ := Some i |}.

#[global] Instance ops : NodeOps K unit SetNode := {|
  node_new := new; node_empty := empty; node_key := key;
  node_public n := (k ← key n; Ok (k, ())); node_copy_from := copy_from; node_move := move;
  node_clear := clear; node_emplace k _ := emplace k |}.

Definition holds (n : SetNode) (c : option (K * unit)) : Prop :=
  match c with None => impl_ n = None | Some (k, _) => impl_ n = Some k ∧ k ≠ KeyT0 end.

Lemma boxed_set_node_Impl_spec k : k ≠ KeyT0 → Impl k = Ok k.
Proof.
  intros Hk. unfold Impl, is_hash_table_key_empty. by rewrite bool_decide_false.
Qed.
Lemma boxed_set_node_key_spec n k : impl_ n = Some k → key n = Ok k.
Proof. intros Hn. unfold key, empty. by rewrite Hn. Qed.

#[global] Program Instance spec : NodeSpec K unit SetNode := {| HashNode.holds := holds |}.
Next Obligation. done. Qed.
Next Obligation.
  intros n c Hn. simpl. unfold empty. apply bool_decide_ext.
  destruct c as [[k v]|]; simpl in Hn; naive_solver.
Qed.
Next Obligation. intros n k v [Hn Hk]. simpl. by rewrite (boxed_set_node_key_spec _ _ Hn). Qed.
Next Obligation. intros n k [] [Hn Hk]. simpl. by rewrite (boxed_set_node_key_spec _ _ Hn). Qed.
Next Obligation.
  intros n m [k []] Hn [Hm Hk]. simpl in *. unfold copy_from, empty. rewrite Hn, Hm. simpl.
  rewrite boxed_set_node_Impl_spec by done. simpl. eexists; split; [done|]. by split.
Qed.
Next Obligation.
  intros n m [k []] Hn [Hm Hk]. simpl in *. unfold move. rewrite Hm.
  do 2 eexists; split; [done|]. by repeat split.
Qed.
Next Obligation.
  intros n [k []] [Hn Hk]. simpl in *. unfold clear, empty. rewrite Hn. simpl. eauto.
Qed.
Next Obligation.
  intros n k [] Hn Hk. simpl in *. unfold emplace, empty. rewrite Hn. simpl.
  rewrite boxed_set_node_Impl_spec by done. simpl. eexists; split; [done|]. by split.
Qed.
End boxed_set_node.
Arguments SetNode : clear implicits.
End BoxedSetNode.

(** ** Hash functions *)

(** [h ^= h >> s] and [h *= c] in [uint32]. *)
Definition xorshift (s h : Z) : Z := Z.lxor h (Z.shiftr h s).
Definition randomize_hash (h : Z) : Z :=
  let h := xorshift 16 h in
  let h := u32 (h * 0x85ebca6b) in
  let h := xorshift 13 h in
  let h := u32 (h * 0xc2b2ae35) in
  xorshift 16 h.

(** [Hash<char>], [Hash<int32>], [Hash<uint32>]: the conversion to [uint32] is all they
    differ in. *)
Definition Hash_int32 (value : Z) : Z := randomize_hash (u32 value).
(** [Hash<int64>]: the sum is computed in [int64]. *)
Definition Hash_int64 (value : Z) : outcome Z :=
  let sum := value + Z.shiftr value 32 in
  if (sum <? -9223372036854775808) || (9223372036854775807 <? sum) then ub
  else Ok (randomize_hash (u32 sum)).
Definition Hash_uint64 (value : Z) : Z :=
  randomize_hash (u32 (u64 (value + Z.shiftr value 32))).
Definition combine_hashes (first_hash second_hash : Z) : Z :=
  u32 (u32 (first_hash * 2023654985) + second_hash).

Lemma u32_range z : 0 ≤ u32 z < two32.
Proof. apply Z.mod_pos_bound. done. Qed.

Lemma shiftr_zero h n : 0 ≤ h < two32 → 32 ≤ n → Z.shiftr h n = 0.
Proof.
  intros Hh Hn. rewrite Z.shiftr_div_pow2 by lia. apply Z.div_small.
  pose proof (Z.pow_le_mono_r 2 32 n). unfold two32 in *. lia.
Qed.

Lemma xorshift_range s h : 0 ≤ s → 0 ≤ h < two32 → 0 ≤ xorshift s h < two32.
Proof.
  intros Hs Hh. unfold xorshift. rewrite <-(Z.mod_small h two32) by done.
  change two32 with (2 ^ 32). rewrite <-Z.land_ones by lia.
  assert (E : Z.lxor (Z.land h (Z.ones 32)) (Z.shiftr (Z.land h (Z.ones 32)) s) =
          Z.land (Z.lxor (Z.land h (Z.ones 32)) (Z.shiftr (Z.land h (Z.ones 32)) s)) (Z.ones 32)).
  { apply Z.bits_inj'. intros i Hi.
    rewrite !Z.land_spec, !Z.lxor_spec, !Z.shiftr_spec, !Z.land_spec by lia.
    destruct (Z.ltb_spec i 32) as [Hlt|Hge].
    - by rewrite (Z.ones_spec_low 32 i), !andb_true_r by lia.
    - by rewrite (Z.ones_spec_high 32 i), (Z.ones_spec_high 32 (i + s)), !andb_false_r by lia. }
  rewrite E, Z.land_ones by lia. apply Z.mod_pos_bound. done.
Qed.

(** A shift by half of the bits or more is its own inverse; a shift by a third or more is
    undone by two. *)
Lemma xorshift_16_inv h : 0 ≤ h < two32 → xorshift 16 (xorshift 16 h) = h.
Proof.
  intros Hh. unfold xorshift. rewrite Z.shiftr_lxor, Z.shiftr_shiftr by lia.
  rewrite (shiftr_zero h (16 + 16)) by lia.
  by rewrite Z.lxor_0_r, Z.lxor_assoc, Z.lxor_nilpotent, Z.lxor_0_r.
Qed.
Lemma xorshift_13_inv h :
  0 ≤ h < two32 → xorshift 26 (xorshift 13 (xorshift 13 h)) = h.
Proof.
  intros Hh. unfold xorshift.
  assert (E : Z.lxor (Z.lxor h (Z.shiftr h 13)) (Z.shiftr (Z.lxor h (Z.shiftr h 13)) 13) =
              Z.lxor h (Z.shiftr h 26)).
  { rewrite Z.shiftr_lxor, Z.shiftr_shiftr by lia. simpl (13 + 13).
    rewrite <-!Z.lxor_assoc, (Z.lxor_assoc h), Z.lxor_nilpotent, Z.lxor_0_r. done. }
  rewrite E, Z.shiftr_lxor, Z.shiftr_shiftr by lia.
  rewrite (shiftr_zero h (26 + 26)) by lia.
  by rewrite Z.lxor_0_r, Z.lxor_assoc, Z.lxor_nilpotent, Z.lxor_0_r.
Qed.

Lemma u32_mul_inv c d h : u32 (c * d) = 1 → 0 ≤ h < two32 → u32 (u32 (h * c) * d) = h.
Proof.
  unfold u32. intros Hc Hh. rewrite Z.mul_mod_idemp_l by done.
  rewrite <-Z.mul_assoc, <-Z.mul_mod_idemp_r, Hc, Z.mul_1_r by done. by apply Z.mod_small.
Qed.

(** What undoes [randomize_hash]. *)
Definition unrandomize_hash (h : Z) : Z :=
  let h := xorshift 16 h in
  let h := u32 (h * 2127672349) in
  let h := xorshift 26 (xorshift 13 h) in
  let h := u32 (h * 2781581891) in
  xorshift 16 h.

Lemma unrandomize_randomize h : 0 ≤ h < two32 → unrandomize_hash (randomize_hash h) = h.
Proof.
  intros Hh. unfold unrandomize_hash, randomize_hash.
  pose proof (xorshift_range 16 h ltac:(lia) Hh) as H1.
  pose proof (u32_range (xorshift 16 h * 0x85ebca6b)) as H2.
  pose proof (xorshift_range 13 _ ltac:(lia) H2) as H3.
  rewrite xorshift_16_inv by apply u32_range.
  rewrite u32_mul_inv by done.
  rewrite xorshift_13_inv by done.
  rewrite u32_mul_inv by done. by apply xorshift_16_inv.
Qed.

(** [randomize_hash] is a bijection of the 32-bit numbers: different [int32] keys always
    have different hashes. *)
Theorem Hash_int32_injective v w :
  in_int v → in_int w → Hash_int32 v = Hash_int32 w → v = w.
Proof.
  unfold in_int, INT_MIN, INT_MAX, Hash_int32. intros Hv Hw H.
  assert (E : u32 v = u32 w).
  { rewrite <-(unrandomize_randomize (u32 v)), <-(unrandomize_randomize (u32 w))
      by apply u32_range. congruence. }
  unfold u32, two32 in E. Z.to_euclidean_division_equations. lia.
Qed.
