(* ===== verification/FlatHashTable.v ===== *)
(** * Hash tables ([tdutils/td/utils/FlatHashTable.h], [FlatHashTable.cpp])

    The open addressing table behind TDLib's maps and sets ([FlatHashMap], [FlatHashSet]),
    with linear probing, and with erasing that moves later nodes back. *)
From S2P Require Import Prelude HashNode.

Definition count_leading_zeroes32 (x : Z) : Z := if x =? 0 then 32 else 31 - Z.log2 x.

(** The shift is undefined when no zero leads. *)
Definition normalize_flat_hash_table_size (size : Z) : outcome Z :=
  let shift := 32 - count_leading_zeroes32 size in
  if 32 <=? shift then ub else Ok (Z.max (u32 (Z.shiftl 1 shift)) 8).

(** [random] stands for the number [Random::fast_uint32()] gives. *)
Definition get_random_flat_hash_table_bucket (random bucket_count_mask : Z) : Z :=
  Z.land random bucket_count_mask.

Definition INVALID_BUCKET : Z := 0xFFFFFFFF.

Section table.
Context {K V N : Type} `{!EqDecision K, !EmptyKey K, !NodeOps K V N}.
Context (HashT : K → Z) (sizeof_NodeT : Z).

(** The array [nodes_] is the empty list when the pointer is null. A pointer into it is
    an index. *)
Record FlatHashTable := {
  nodes_ : list N;
  used_node_count_ : Z;
  bucket_count_mask_ : Z;
  bucket_count_ : Z;
  begin_bucket_ : Z
}.

Definition mk_FlatHashTable : FlatHashTable :=
  {| nodes_ := []; used_node_count_ := 0; bucket_count_mask_ := 0; bucket_count_ := 0;
     begin_bucket_ := 0 |}.

Definition nodes_null (t : FlatHashTable) : bool := (length (nodes_ t) =? 0)%nat.
Definition with_nodes (nodes : list N) (t : FlatHashTable) : FlatHashTable :=
  {| nodes_ := nodes; used_node_count_ := used_node_count_ t;
     bucket_count_mask_ := bucket_count_mask_ t; bucket_count_ := bucket_count_ t;
     begin_bucket_ := begin_bucket_ t |}.
Definition with_used (used : Z) (t : FlatHashTable) : FlatHashTable :=
  {| nodes_ := nodes_ t; used_node_count_ := used;
     bucket_count_mask_ := bucket_count_mask_ t; bucket_count_ := bucket_count_ t;
     begin_bucket_ := begin_bucket_ t |}.
Definition with_begin (b : Z) (t : FlatHashTable) : FlatHashTable :=
  {| nodes_ := nodes_ t; used_node_count_ := used_node_count_ t;
     bucket_count_mask_ := bucket_count_mask_ t; bucket_count_ := bucket_count_ t;
     begin_bucket_ := b |}.

Definition drop_ (t : FlatHashTable) : FlatHashTable := mk_FlatHashTable.
Definition clear (t : FlatHashTable) : FlatHashTable :=
  if nodes_null t then t else drop_ t.
(** The move constructor: the new table and what is left of the other one. *)
Definition move_table (other : FlatHashTable) : FlatHashTable * FlatHashTable :=
  (other, drop_ other).
Definition size (t : FlatHashTable) : Z := used_node_count_ t.
Definition empty (t : FlatHashTable) : bool := used_node_count_ t =? 0.

(** [nodes_[bucket]], undefined outside the array. *)
Definition node_at (t : FlatHashTable) (bucket : Z) : outcome N :=
  if bucket <? 0 then ub else deref (nodes_ t !! Z.to_nat bucket).
Definition set_node (bucket : Z) (n : N) (t : FlatHashTable) : FlatHashTable :=
  with_nodes (<[Z.to_nat bucket := n]> (nodes_ t)) t.
(** [nodes_[dst] = std::move(nodes_[src])] *)
Definition move_node (dst src : Z) (t : FlatHashTable) : outcome FlatHashTable :=
  d ← node_at t dst;
  s ← node_at t src;
  '(d, s) ← node_move d s;
  Ok (set_node dst d (set_node src s t)).

Definition allocate_nodes (size : Z) (t : FlatHashTable) : outcome FlatHashTable :=
  _ ← cassert (8 <=? size);
  _ ← cassert (Z.land size (u32 (size - 1)) =? 0);
  _ ← cassert (size <=? Z.min (u32 (Z.shiftl 1 29)) (u32 (0x7FFFFFFF `div` sizeof_NodeT)));
  Ok {| nodes_ := replicate (Z.to_nat size) node_new; used_node_count_ := used_node_count_ t;
        bucket_count_mask_ := size - 1; bucket_count_ := size;
        begin_bucket_ := INVALID_BUCKET |}.

Definition calc_bucket (t : FlatHashTable) (key : K) : Z :=
  Z.land (HashT key) (bucket_count_mask_ t).
Definition next_bucket (t : FlatHashTable) (bucket : Z) : Z :=
  Z.land (u32 (bucket + 1)) (bucket_count_mask_ t).
Definition invalidate_iterators (t : FlatHashTable) : FlatHashTable :=
  with_begin INVALID_BUCKET t.

(** The loop of [find_impl], [emplace] and the constructor from a list: it stops at an
    empty node ([true]) or at the node of the key ([false]). An endless loop is undefined
    behaviour; the number of buckets bounds the steps of one that ends. *)
Fixpoint probe (fuel : nat) (t : FlatHashTable) (key : K) (bucket : Z) : outcome (Z * bool) :=
  match fuel with
  | O => ub
  | S fuel =>
      node ← node_at t bucket;
      if node_empty node then Ok (bucket, true)
      else
        k ← node_key node;
        if bool_decide (k = key) then Ok (bucket, false)
        else probe fuel t key (next_bucket t bucket)
  end.

(** [while (!nodes_[bucket].empty()) next_bucket(bucket);] of [resize] and, with
    [want] false, [while (nodes_[bucket].empty())] of [begin_impl]. *)
Fixpoint seek (want : bool) (fuel : nat) (t : FlatHashTable) (bucket : Z) : outcome Z :=
  match fuel with
  | O => ub
  | S fuel =>
      node ← node_at t bucket;
      if bool_decide (node_empty node = want) then Ok bucket
      else seek want fuel t (next_bucket t bucket)
  end.

Definition find_impl (t : FlatHashTable) (key : K) : outcome (option Z) :=
  if nodes_null t || is_hash_table_key_empty key then Ok None
  else
    '(bucket, is_empty) ← probe (length (nodes_ t)) t key (calc_bucket t key);
    Ok (if (is_empty : bool) then None else Some bucket).

(** What the caller reads through the pointer [find] returns. *)
Definition find (t : FlatHashTable) (key : K) : outcome (option (K * V)) :=
  p ← find_impl t key;
  match p with
  | None => Ok None
  | Some bucket => node ← node_at t bucket; kv ← node_public node; Ok (Some kv)
  end.
Definition count (t : FlatHashTable) (key : K) : outcome Z :=
  p ← find_impl t key;
  Ok (match p with None => 0 | Some _ => 1 end).

(** One turn of the loop of [resize] over the old nodes. *)
Definition resize_step (t : FlatHashTable) (old_node : N) : outcome FlatHashTable :=
  if node_empty old_node then Ok t
  else
    k ← node_key old_node;
    bucket ← seek true (length (nodes_ t)) t (calc_bucket t k);
    d ← node_at t bucket;
    '(d, _) ← node_move d old_node;
    Ok (set_node bucket d t).

Definition resize (new_size : Z) (t : FlatHashTable) : outcome FlatHashTable :=
  if nodes_null t then
    t ← allocate_nodes new_size t;
    Ok (with_used 0 t)
  else
    let old_nodes := nodes_ t in
    let old_size := used_node_count_ t in
    t ← allocate_nodes new_size t;
    ofold resize_step (with_used old_size t) old_nodes.

Definition reserve (size : Z) (t : FlatHashTable) : outcome FlatHashTable :=
  if size =? 0 then Ok t
  else
    _ ← cassert (size <=? u32 (Z.shiftl 1 29));
    want_size ← normalize_flat_hash_table_size (u32 (u32 (u32 size * 5) `div` 3 + 1));
    if bucket_count_ t <? want_size then resize want_size t else Ok t.

(** [emplace] calls itself after growing. It then finds room, so one call is enough. *)
Fixpoint emplace_calls (calls : nat) (key : K) (args : V) (t : FlatHashTable) :
    outcome (FlatHashTable * Z * bool) :=
  match calls with
  | O => ub
  | S calls =>
      _ ← cassert (negb (is_hash_table_key_empty key));
      t ← (if bucket_count_mask_ t =? 0 then
             _ ← cassert (used_node_count_ t =? 0); resize 8 t
           else Ok t);
      '(bucket, is_empty) ← probe (length (nodes_ t)) t key (calc_bucket t key);
      if (is_empty : bool) then
        if u32 (bucket_count_mask_ t * 3) <=? u32 (used_node_count_ t * 5) then
          t ← resize (u32 (2 * bucket_count_ t)) t;
          _ ← cassert (u32 (used_node_count_ t * 5) <? u32 (bucket_count_mask_ t * 3));
          emplace_calls calls key args t
        else
          let t := invalidate_iterators t in
          node ← node_at t bucket;
          node ← node_emplace key args node;
          let t := set_node bucket node t in
          Ok (with_used (u32 (used_node_count_ t + 1)) t, bucket, true)
      else Ok (t, bucket, false)
  end.
Definition emplace (key : K) (args : V) (t : FlatHashTable) :
    outcome (FlatHashTable * Z * bool) := emplace_calls 2 key args t.

(** [operator[]] with the default value [v0]; the caller gets the node's bucket. *)
Definition subscript (v0 : V) (key : K) (t : FlatHashTable) : outcome (FlatHashTable * Z) :=
  '(t, bucket, _) ← emplace key v0 t; Ok (t, bucket).

(** The constructors from lists. *)
Definition from_nodes_step (t_used : FlatHashTable * Z) (new_node : N) :
    outcome (FlatHashTable * Z) :=
  let '(t, used_nodes) := t_used in
  _ ← cassert (negb (node_empty new_node));
  key ← node_key new_node;
  '(bucket, is_empty) ← probe (length (nodes_ t)) t key (calc_bucket t key);
  if (is_empty : bool) then
    node ← node_at t bucket;
    node ← node_copy_from node new_node;
    Ok (set_node bucket node t, u32 (used_nodes + 1))
  else Ok (t, used_nodes).
Definition from_nodes (nodes : list N) : outcome FlatHashTable :=
  if (length nodes =? 0)%nat then Ok mk_FlatHashTable
  else
    t ← reserve (Z.of_nat (length nodes)) mk_FlatHashTable;
    '(t, used_nodes) ← ofold from_nodes_step (t, 0) nodes;
    Ok (with_used used_nodes t).
Definition insert_all (keys : list (K * V)) (t : FlatHashTable) : outcome FlatHashTable :=
  ofold (λ t kv, '(t, _, _) ← emplace kv.1 kv.2 t; Ok t) t keys.

(** The first loop of [erase_node], from [test_node] to the end of the array: [None] when
    it returned, or the place that is left empty. *)
Fixpoint erase_loop (tests : nat) (it test_node : Z) (t : FlatHashTable) :
    outcome (FlatHashTable * option Z) :=
  match tests with
  | O => Ok (t, Some it)
  | S tests =>
      node ← node_at t test_node;
      if node_empty node then Ok (t, None)
      else
        key ← node_key node;
        let want_node := calc_bucket t key in
        if (want_node <=? it) || (test_node <? want_node) then
          t ← move_node it test_node t;
          erase_loop tests test_node (test_node + 1) t
        else erase_loop tests it (test_node + 1) t
  end.
(** The second one, from the beginning of the array. *)
Fixpoint erase_wrapped_loop (fuel : nat) (empty_i empty_bucket test_i : Z)
    (t : FlatHashTable) : outcome FlatHashTable :=
  match fuel with
  | O => ub
  | S fuel =>
      let bucket_count := bucket_count_ t in
      let test_bucket := u32 (test_i - bucket_count_ t) in
      node ← node_at t test_bucket;
      if node_empty node then Ok t
      else
        key ← node_key node;
        let want_i := calc_bucket t key in
        let want_i := if want_i <? empty_i then u32 (want_i + bucket_count) else want_i in
        if (want_i <=? empty_i) || (test_i <? want_i) then
          t ← move_node empty_bucket test_bucket t;
          erase_wrapped_loop fuel test_i test_bucket (u32 (test_i + 1)) t
        else erase_wrapped_loop fuel empty_i empty_bucket (u32 (test_i + 1)) t
  end.
Definition erase_node (it : Z) (t : FlatHashTable) : outcome FlatHashTable :=
  _ ← cassert ((0 <=? it) && (it <? bucket_count_ t));
  node ← node_at t it;
  node ← node_clear node;
  let t := set_node it node t in
  let t := with_used (u32 (used_node_count_ t - 1)) t in
  '(t, empty) ← erase_loop (Z.to_nat (bucket_count_ t - (it + 1))) it (it + 1) t;
  match empty with
  | None => Ok t
  | Some it => erase_wrapped_loop (length (nodes_ t)) it it (bucket_count_ t) t
  end.

Definition try_shrink (t : FlatHashTable) : outcome FlatHashTable :=
  _ ← cassert (negb (nodes_null t));
  t ← (if (u32 (used_node_count_ t * 10) <? bucket_count_mask_ t) && (7 <? bucket_count_mask_ t)
       then
         new_size ← normalize_flat_hash_table_size
                      (u32 (u32 (u32 (used_node_count_ t + 1) * 5) `div` 3 + 1));
         resize new_size t
       else Ok t);
  Ok (invalidate_iterators t).

Definition erase (key : K) (t : FlatHashTable) : outcome (FlatHashTable * Z) :=
  p ← find_impl t key;
  match p with
  | None => Ok (t, 0)
  | Some node => t ← erase_node node t; t ← try_shrink t; Ok (t, 1)
  end.
(** [erase] of an iterator or of a pointer to a node. *)
Definition erase_at (it : Z) (t : FlatHashTable) : outcome FlatHashTable :=
  t ← erase_node it t; try_shrink t.

Definition begin_impl (random : Z) (t : FlatHashTable) : outcome (FlatHashTable * option Z) :=
  if empty t then Ok (t, None)
  else
    t ← (if begin_bucket_ t =? INVALID_BUCKET then
           b ← seek false (length (nodes_ t)) t
                 (get_random_flat_hash_table_bucket random (bucket_count_mask_ t));
           Ok (with_begin b t)
         else Ok t);
    Ok (t, Some (begin_bucket_ t)).

(** An iterator: [it_] may be null; [begin_] and [end_] are those of the array. *)
Record Iterator := { it_ : option Z; begin_ : Z; start_ : Z; end_ : Z }.
Definition create_iterator (t : FlatHashTable) (node : option Z) : Iterator :=
  {| it_ := node; begin_ := 0; start_ := default 0 node; end_ := bucket_count_ t |}.
Definition begin (random : Z) (t : FlatHashTable) : outcome (FlatHashTable * Iterator) :=
  '(t, node) ← begin_impl random t; Ok (t, create_iterator t node).
(** The loop of [operator++]. *)
Fixpoint increment_loop (fuel : nat) (t : FlatHashTable) (i : Iterator) (it : Z) :
    outcome (option Z) :=
  match fuel with
  | O => ub
  | S fuel =>
      let it := it + 1 in
      let it := if it =? end_ i then begin_ i else it in
      if it =? start_ i then Ok None
      else
        node ← node_at t it;
        if node_empty node then increment_loop fuel t i it else Ok (Some it)
  end.
Definition increment (t : FlatHashTable) (i : Iterator) : outcome Iterator :=
  it ← deref (it_ i);
  it ← increment_loop (length (nodes_ t)) t i it;
  Ok {| it_ := it; begin_ := begin_ i; start_ := start_ i; end_ := end_ i |}.

(** [for (auto &x : table)]: the elements in the order in which they are met. *)
Fixpoint iterate (fuel : nat) (t : FlatHashTable) (i : Iterator) : outcome (list (K * V)) :=
  match it_ i with
  | None => Ok []
  | Some it =>
      match fuel with
      | O => ub
      | S fuel =>
          node ← node_at t it;
          kv ← node_public node;
          i ← increment t i;
          l ← iterate fuel t i;
          Ok (kv :: l)
      end
  end.
Definition elements (random : Z) (t : FlatHashTable) :
    outcome (FlatHashTable * list (K * V)) :=
  '(t, i) ← begin random t;
  l ← iterate (length (nodes_ t)) t i;
  Ok (t, l).

(** The search of [remove_if] for the first empty node from [it] on, and back from the
    end. *)
Fixpoint skip_used (tests : nat) (it : Z) (t : FlatHashTable) : outcome Z :=
  match tests with
  | O => Ok it
  | S tests =>
      node ← node_at t it;
      if node_empty node then Ok it else skip_used tests (it + 1) t
  end.
Fixpoint back_to_empty (fuel : nat) (it : Z) (t : FlatHashTable) : outcome Z :=
  match fuel with
  | O => ub
  | S fuel =>
      let it := it - 1 in
      node ← node_at t it;
      if node_empty node then Ok it else back_to_empty fuel it t
  end.
(** The two loops of [remove_if]. Each turn passes a bucket or removes a node, so the sum
    of both numbers bounds the turns. *)
Fixpoint remove_loop (fuel : nat) (f : K * V → bool) (it stop : Z) (is_removed : bool)
    (t : FlatHashTable) : outcome (FlatHashTable * bool) :=
  if it =? stop then Ok (t, is_removed)
  else match fuel with
  | O => ub
  | S fuel =>
      node ← node_at t it;
      if node_empty node then remove_loop fuel f (it + 1) stop is_removed t
      else
        kv ← node_public node;
        if f kv then
          t ← erase_node it t;
          remove_loop fuel f it stop true t
        else remove_loop fuel f (it + 1) stop is_removed t
  end.
Definition remove_if (random : Z) (f : K * V → bool) (t : FlatHashTable) :
    outcome (FlatHashTable * bool) :=
  if empty t then Ok (t, false)
  else
    '(t, it) ← begin_impl random t;
    it ← deref it;
    let stop := bucket_count_ t in
    it ← skip_used (Z.to_nat (stop - it)) it t;
    first_empty ← (if it =? stop then back_to_empty (length (nodes_ t)) it t else Ok it);
    let fuel := (2 * length (nodes_ t))%nat in
    '(t, is_removed) ← remove_loop fuel f first_empty stop false t;
    '(t, is_removed) ← remove_loop fuel f 0 first_empty is_removed t;
    t ← try_shrink t;
    Ok (t, is_removed).
End table.
Arguments FlatHashTable : clear implicits.
