(* ===== verification/LinearProbing.v ===== *)
(** * Linear probing

    What keeps a hash table with linear probing readable, as a property of its slots
    alone: from the home of a key to its slot, cyclically, no slot is empty. The steps of
    inserting and of erasing with moves back are shown to keep it. *)
From S2P Require Import Prelude.

(** The slots: an empty one is [None]. *)
Definition slot {A} (C : list (option A)) (j : Z) : option A := mjoin (C !! Z.to_nat j).
Definition put {A} (j : Z) (x : option A) (C : list (option A)) : list (option A) :=
  <[Z.to_nat j := x]> C.
Definition contents {A} (C : list (option A)) : list A := omap id C.

Lemma slot_put {A} (C : list (option A)) i j x :
  0 ≤ i < Z.of_nat (length C) → 0 ≤ j →
  slot (put i x C) j = if decide (i = j) then x else slot C j.
Proof.
  intros Hi Hj. unfold slot, put. case_decide as E.
  - subst j. by rewrite list_lookup_insert_eq by lia.
  - by rewrite list_lookup_insert_ne by lia.
Qed.
Lemma length_put {A} (C : list (option A)) i x : length (put i x C) = length C.
Proof. apply length_insert. Qed.
Lemma slot_lookup {A} (C : list (option A)) j :
  0 ≤ j < Z.of_nat (length C) → C !! Z.to_nat j = Some (slot C j).
Proof.
  intros Hj. unfold slot. destruct (lookup_lt_is_Some_2 C (Z.to_nat j)) as [c ->]; [lia|].
  by destruct c.
Qed.

Lemma contents_app {A} (C D : list (option A)) : contents (C ++ D) = contents C ++ contents D.
Proof. apply omap_app. Qed.
Lemma contents_elem {A} (C : list (option A)) x :
  x ∈ contents C ↔ ∃ j, 0 ≤ j < Z.of_nat (length C) ∧ slot C j = Some x.
Proof.
  unfold contents. rewrite list_elem_of_omap. split.
  - intros (c & Hc & Hx). simpl in Hx. subst c. apply list_elem_of_lookup in Hc as [i Hi].
    pose proof (lookup_lt_Some _ _ _ Hi). exists (Z.of_nat i). split; [lia|].
    unfold slot. by rewrite Nat2Z.id, Hi.
  - intros (j & Hj & Hs). exists (Some x). split; [|done].
    rewrite <-Hs. apply list_elem_of_lookup. exists (Z.to_nat j). by apply slot_lookup.
Qed.

(** Filling an empty slot, and emptying a slot, change the contents by that element. *)
Lemma contents_split {A} (C : list (option A)) j :
  0 ≤ j < Z.of_nat (length C) →
  contents C ≡ₚ option_list (slot C j) ++ contents (put j None C).
Proof.
  intros Hj. pose proof (slot_lookup C j Hj) as E. unfold put.
  rewrite <-(take_drop_middle C _ _ E) at 1.
  rewrite (insert_take_drop _ _ _) by lia.
  rewrite !contents_app. cbn [contents omap list_omap id].
  destruct (slot C j); simpl; [|done].
  symmetry. apply Permutation_middle.
Qed.
Lemma put_put {A} (C : list (option A)) j x y : put j x (put j y C) = put j x C.
Proof. apply list_insert_insert_eq. Qed.
Lemma contents_fill {A} (C : list (option A)) j x :
  0 ≤ j < Z.of_nat (length C) → slot C j = None → contents (put j (Some x) C) ≡ₚ x :: contents C.
Proof.
  intros Hj Hn. rewrite (contents_split (put j (Some x) C) j) by (rewrite length_put; lia).
  rewrite put_put, slot_put, decide_True by (done || lia).
  rewrite (contents_split C j) by done. by rewrite Hn.
Qed.
Lemma contents_move {A} (C : list (option A)) i j x :
  0 ≤ i < Z.of_nat (length C) → 0 ≤ j < Z.of_nat (length C) →
  slot C i = None → slot C j = Some x →
  contents (put i (Some x) (put j None C)) ≡ₚ contents C.
Proof.
  intros Hi Hj Hn Hs. assert (i ≠ j) by congruence.
  rewrite contents_fill.
  - rewrite (contents_split C j) by done. by rewrite Hs.
  - by rewrite length_put.
  - by rewrite slot_put, decide_False by (done || lia).
Qed.

(** When not all slots are used, one is empty. *)
Lemma empty_slot {A} (C : list (option A)) :
  (length (contents C) < length C)%nat → ∃ j, 0 ≤ j < Z.of_nat (length C) ∧ slot C j = None.
Proof.
  induction C as [|[x|] C IH]; simpl; intros Hl; [lia| |].
  - destruct IH as (j & Hj & Hs); [unfold contents in *; lia|].
    exists (Z.succ j). split; [lia|]. unfold slot in *. rewrite Z2Nat.inj_succ by lia. done.
  - exists 0. split; [lia|]. done.
Qed.
Lemma used_slot {A} (C : list (option A)) :
  contents C ≠ [] → ∃ j x, 0 ≤ j < Z.of_nat (length C) ∧ slot C j = Some x.
Proof.
  destruct (contents C) as [|x l] eqn:E; [done|]. intros _.
  destruct (proj1 (contents_elem C x)) as (j & Hj & Hs); [rewrite E; set_solver|]. eauto.
Qed.
Lemma length_contents {A} (C : list (option A)) : (length (contents C) <= length C)%nat.
Proof. induction C as [|[x|] C IH]; simpl; unfold contents in *; lia. Qed.

Lemma contents_replicate {A} m : contents (replicate m (None : option A)) = [].
Proof. induction m; simpl; auto. Qed.

(** In a list without duplicate keys a key has one value. *)
Lemma keys_unique {K V} (l : list (K * V)) k v w :
  NoDup l.*1 → (k, v) ∈ l → (k, w) ∈ l → v = w.
Proof.
  induction l as [|[k' v'] l IH]; [set_solver|]. simpl.
  intros [Hk Hl]%NoDup_cons [E|Hv]%elem_of_cons [E'|Hw]%elem_of_cons; simplify_eq; auto.
  - exfalso. apply Hk, list_elem_of_fmap. by exists (k', w).
  - exfalso. apply Hk, list_elem_of_fmap. by exists (k', v).
Qed.

(** ** Cyclic distance *)

(** How many steps lead from [a] to [b]. *)
Definition dist (n a b : Z) : Z := if a <=? b then b - a else b - a + n.
Definition next (n b : Z) : Z := if b + 1 =? n then 0 else b + 1.

(** Arithmetic on positions of a cycle. *)
Ltac cyc :=
  unfold dist, next in *;
  repeat match goal with
  | |- context [?a <=? ?b] => destruct (Z.leb_spec a b)
  | H : context [?a <=? ?b] |- _ => destruct (Z.leb_spec a b)
  | |- context [?a =? ?b] => destruct (Z.eqb_spec a b)
  | H : context [?a =? ?b] |- _ => destruct (Z.eqb_spec a b)
  end; try lia.

Section cycle.
Context (n : Z).
Implicit Types a b c : Z.

Definition pos (a : Z) : Prop := 0 ≤ a < n.

Lemma dist_self a : dist n a a = 0.
Proof. cyc. Qed.
Lemma dist_range a b : pos a → pos b → 0 ≤ dist n a b < n.
Proof. unfold pos. intros. cyc. Qed.
Lemma dist_eq a b c : pos a → pos b → pos c → dist n a b = dist n a c → b = c.
Proof. unfold pos. intros. cyc. Qed.
Lemma next_pos a : pos a → pos (next n a).
Proof. unfold pos. intros. cyc. Qed.
Lemma dist_next a b : pos a → pos b → dist n a b + 1 < n → dist n a (next n b) = dist n a b + 1.
Proof. unfold pos. intros. cyc. Qed.
Lemma next_dist a b : pos a → pos b → a ≠ b → dist n (next n a) b = dist n a b - 1.
Proof. unfold pos. intros. cyc. Qed.
Lemma dist_trans a b c :
  pos a → pos b → pos c → dist n a b <= dist n a c → dist n b c = dist n a c - dist n a b.
Proof. unfold pos. intros. cyc. Qed.
End cycle.

(** ** Tables *)

Section probing.
Context {K V : Type} (n : Z) (h : K → Z).
Hypothesis h_pos : ∀ k, pos n (h k).
Implicit Types (C : list (option (K * V))) (i j e t : Z).

Definition probes C : Prop :=
  ∀ i k v, pos n i → slot C i = Some (k, v) →
  ∀ j, pos n j → dist n (h k) j < dist n (h k) i → slot C j ≠ None.

(** The slots from the home of [k] up to [b] are used, by other keys than [k]. *)
Definition passed C (k : K) (b : Z) : Prop :=
  ∀ j, pos n j → dist n (h k) j < dist n (h k) b →
  ∃ k' v', slot C j = Some (k', v') ∧ k' ≠ k.

Lemma passed_home C k : passed C k (h k).
Proof using h_pos.
  intros j Hj Hd. rewrite dist_self in Hd. pose proof (dist_range n (h k) j (h_pos k) Hj). lia.
Qed.
Lemma passed_next C k b k' v' :
  pos n b → dist n (h k) b + 1 < n → passed C k b → slot C b = Some (k', v') → k' ≠ k →
  passed C k (next n b).
Proof using h_pos.
  intros Hb Hd Hp Hs Hk j Hj Hlt. rewrite dist_next in Hlt by auto.
  destruct (decide (j = b)) as [->|Hne]; [eauto|]. apply Hp; [done|].
  assert (dist n (h k) j ≠ dist n (h k) b) by (intros E; apply Hne, (dist_eq n (h k)); auto).
  lia.
Qed.

(** A search that meets an empty slot has passed the key, if it is there at all. *)
Lemma passed_absent C k b :
  probes C → pos n b → passed C k b → slot C b = None →
  ∀ j v, pos n j → slot C j ≠ Some (k, v).
Proof using h_pos.
  intros Hpr Hb Hp Hs j v Hj Hjs.
  destruct (Z.lt_trichotomy (dist n (h k) j) (dist n (h k) b)) as [Hd|[Hd|Hd]].
  - destruct (Hp j Hj Hd) as (k' & v' & Hs' & Hne). congruence.
  - apply dist_eq in Hd; [congruence|auto..].
  - by apply (Hpr j k v Hj Hjs b).
Qed.

Lemma probes_fill C b k v :
  Z.of_nat (length C) = n → probes C → pos n b →
  (∀ j, pos n j → dist n (h k) j < dist n (h k) b → slot C j ≠ None) →
  probes (put b (Some (k, v)) C).
Proof.
  unfold pos. intros Hn Hpr Hb Hp i k' v' Hi Hs j Hj Hd. unfold pos in *.
  rewrite slot_put in Hs |- * by lia. destruct (decide (b = j)); [done|]. case_decide.
  - injection Hs as <- <-. subst i. by apply Hp.
  - by apply (Hpr i k' v' Hi Hs).
Qed.
Lemma probes_empty N : probes (replicate N None).
Proof.
  intros i k v Hi Hs. exfalso. revert Hs. unfold slot.
  destruct (replicate N None !! Z.to_nat i) as [c|] eqn:E; [|done].
  apply lookup_replicate in E as [-> _]. done.
Qed.

(** While a node is erased: [e] is empty, the slots less than [d] steps behind it are not,
    and the keys in them need not pass [e]; other keys may. *)
Record shifting C (e d : Z) : Prop := {
  shift_hole : slot C e = None;
  shift_used j : pos n j → 0 < dist n e j < d → slot C j ≠ None;
  shift_probes i k v : pos n i → slot C i = Some (k, v) →
    ∀ j, pos n j → dist n (h k) j < dist n (h k) i →
    slot C j ≠ None ∨ (j = e ∧ d ≤ dist n e i)
}.

Lemma shifting_start C e :
  2 ≤ n → Z.of_nat (length C) = n → probes C → pos n e →
  shifting (put e None C) e 1.
Proof.
  unfold pos. intros H2 Hn Hpr He. split.
  - by rewrite slot_put, decide_True by lia.
  - unfold pos. intros j Hj Hd. lia.
  - unfold pos. intros i k v Hi Hs j Hj Hd. rewrite slot_put in Hs |- * by lia.
    case_decide as Hei; [done|]. destruct (decide (e = j)) as [<-|Hej].
    + right. split; [done|]. cyc.
    + left. by apply (Hpr i k v Hi Hs).
Qed.

(** How far it goes: never past a slot that is empty. *)
Lemma shifting_before_empty C e d z :
  pos n e → pos n z → shifting C e d → slot C z = None → z ≠ e → d ≤ dist n e z.
Proof.
  intros He Hz [Hh Hu Hp] Hs Hze.
  destruct (Z.le_gt_cases d (dist n e z)) as [?|Hlt]; [done|].
  exfalso. apply (Hu z Hz); [|done]. unfold pos in *. cyc.
Qed.

(** In what follows [t] is the slot [d] steps behind [e]. Meeting an empty slot ends it. *)
Lemma shifting_stop C e d t :
  pos n e → pos n t → dist n e t = d → 0 < d → shifting C e d → slot C t = None → probes C.
Proof using h_pos.
  intros He Ht Hdt Hd0 [Hh Hu Hp] Hs i k v Hi Hi' j Hj Hd.
  destruct (Hp i k v Hi Hi' j Hj Hd) as [?|[-> Hle]]; [done|]. exfalso.
  assert (i ≠ t) by congruence. pose proof (h_pos k).
  destruct (Hp i k v Hi Hi' t Ht) as [?|[-> _]]; [|done|].
  - unfold pos in *. cyc.
  - rewrite dist_self in Hdt. lia.
Qed.

(** A node whose home is behind the hole stays. *)
Lemma shifting_keep C e d t k v :
  pos n e → pos n t → dist n e t = d → 0 < d → shifting C e d →
  slot C t = Some (k, v) → dist n (h k) t < d → shifting C e (d + 1).
Proof using h_pos.
  intros He Ht Hdt Hd0 [Hh Hu Hp] Hs Hd.
  split; [done| |].
  - intros j Hj Hd'. destruct (decide (j = t)) as [->|Hjt]; [congruence|]. apply Hu; [done|].
    assert (dist n e j ≠ dist n e t) by (intros E'; apply Hjt, (dist_eq n e); auto). lia.
  - intros i k' v' Hi Hi' j Hj Hd'.
    destruct (Hp i k' v' Hi Hi' j Hj Hd') as [?|[-> Hle]]; [by left|].
    destruct (decide (i = t)) as [->|Hit].
    + rewrite Hs in Hi'. injection Hi' as <- <-. exfalso. pose proof (h_pos k).
      unfold pos in *. cyc.
    + right. split; [done|].
      assert (dist n e i ≠ dist n e t) by (intros E'; apply Hit, (dist_eq n e); auto). lia.
Qed.

(** Any other node moves into the hole, and leaves one. *)
Lemma shifting_move C e d t k v :
  2 ≤ n → Z.of_nat (length C) = n → pos n e → pos n t → dist n e t = d → 0 < d →
  shifting C e d → slot C t = Some (k, v) → d ≤ dist n (h k) t →
  shifting (put e (Some (k, v)) (put t None C)) t 1.
Proof using h_pos.
  intros H2 Hn He Ht Hdt Hd0 [Hh Hu Hp] Hs Hd.
  assert (Hslot : ∀ j, pos n j → slot (put e (Some (k, v)) (put t None C)) j =
    if decide (e = j) then Some (k, v) else if decide (t = j) then None else slot C j).
  { unfold pos in *. intros j Hj. by rewrite !slot_put by (rewrite ?length_put; lia). }
  split.
  - rewrite Hslot, decide_False, decide_True by (done || congruence). done.
  - intros j Hj Hd'. lia.
  - intros i k' v' Hi Hi' j Hj Hd'. rewrite Hslot in Hi' |- * by done.
    destruct (decide (e = j)) as [|Hej]; [by left|].
    destruct (decide (t = j)) as [<-|Htj].
    { right. split; [done|]. destruct (decide (e = i)), (decide (t = i)); [..|done|].
      all: unfold pos in *; cyc. }
    left. destruct (decide (e = i)) as [<-|Hei]; [|destruct (decide (t = i)); [done|]].
    + injection Hi' as <- <-. pose proof (h_pos k).
      destruct (Hp t k v Ht Hs j Hj) as [?|[? _]]; [|done|congruence].
      unfold pos in *. cyc.
    + destruct (Hp i k' v' Hi Hi' j Hj Hd') as [?|[? _]]; [done|congruence].
Qed.
End probing.
