(* ===== verification/FlatHashTableFacts.v ===== *)
(** * Facts about hash tables

    What each operation of [FlatHashTable] does to the slots of the table: probing,
    growing and shrinking, inserting, erasing. *)
From S2P Require Import Prelude Bytes HashNode FlatHashTable LinearProbing.

Lemma normalize_size s :
  1 ≤ s < 2 ^ 30 →
  ∃ k, normalize_flat_hash_table_size s = Ok (2 ^ k) ∧ 3 ≤ k ∧ s < 2 ^ k ≤ Z.max 8 (2 * s).
Proof.
  intros Hs. unfold normalize_flat_hash_table_size, count_leading_zeroes32.
  rewrite (proj2 (Z.eqb_neq _ _)) by lia.
  destruct (Z.log2_spec s) as [Hl Hu]; [lia|]. rewrite Z.pow_succ_r in Hu by apply Z.log2_nonneg.
  pose proof (Z.log2_nonneg s).
  assert (Z.log2 s < 30) by (apply Z.log2_lt_pow2; lia).
  replace (32 - (31 - Z.log2 s)) with (Z.log2 s + 1) by lia. if_false.
  rewrite Z.shiftl_1_l, u32_small.
  2:{ split; [by apply Z.pow_nonneg|]. change two32 with (2 ^ 32). apply Z.pow_lt_mono_r; lia. }
  destruct (Z.le_gt_cases 2 (Z.log2 s)).
  - exists (Z.log2 s + 1). rewrite Z.max_l.
    + split; [done|]. rewrite Z.pow_add_r by lia. lia.
    + change 8 with (2 ^ 3). apply Z.pow_le_mono_r; lia.
  - exists 3. rewrite Z.max_r; [|change 8 with (2 ^ 3); apply Z.pow_le_mono_r; lia].
    split; [done|]. split; [lia|].
    assert (2 ^ Z.log2 s ≤ 2 ^ 1) by (apply Z.pow_le_mono_r; lia). lia.
Qed.

Section facts.
Context {K V N : Type} `{!EqDecision K, !EmptyKey K, !NodeOps K V N, !NodeSpec K V N}.
Context (HashT : K → Z) (sizeof_NodeT : Z).
Hypothesis sizeof_pos : 0 < sizeof_NodeT.
Notation table := (FlatHashTable N).
Implicit Types (t : table) (C : list (option (K * V))) (n : Z).

(** The largest array that [allocate_nodes] makes. *)
Definition max_size : Z := Z.min 536870912 (0x7FFFFFFF `div` sizeof_NodeT).

Definition pow2_size n : Prop := ∃ k, 3 ≤ k ≤ 29 ∧ n = 2 ^ k.
Definition home n (k : K) : Z := HashT k mod n.

(** The table has [n] buckets with the contents [C]. *)
Record shaped n t C : Prop := {
  sh_pow : pow2_size n;
  sh_count : bucket_count_ t = n;
  sh_mask : bucket_count_mask_ t = n - 1;
  sh_length : Z.of_nat (length C) = n;
  sh_nodes : Forall2 holds (nodes_ t) C
}.

Lemma pow2_bounds n : pow2_size n → 8 ≤ n ≤ 536870912.
Proof.
  intros (k & Hk & ->). change 8 with (2 ^ 3). change 536870912 with (2 ^ 29).
  split; apply Z.pow_le_mono_r; lia.
Qed.
Lemma home_pos n k : pow2_size n → pos n (home n k).
Proof. intros Hn%pow2_bounds. unfold pos, home. apply Z.mod_pos_bound. lia. Qed.

Section shaped_table.
Context {n : Z} {t : table} {C : list (option (K * V))}.
Hypothesis Hsh : shaped n t C.
#[local] Set Default Proof Using "Hsh".

Lemma shaped_bounds : 8 ≤ n ≤ 536870912.
Proof. apply pow2_bounds, Hsh. Qed.
Lemma shaped_home k : pos n (home n k).
Proof. apply home_pos, Hsh. Qed.
Lemma shaped_slots : Z.of_nat (length C) = n.
Proof. apply Hsh. Qed.
Lemma shaped_length : length (nodes_ t) = length C.
Proof. eapply Forall2_length, Hsh. Qed.
Lemma nodes_nonnull : nodes_null t = false.
Proof.
  unfold nodes_null. apply Nat.eqb_neq. rewrite shaped_length.
  pose proof shaped_bounds. pose proof shaped_slots. lia.
Qed.
Lemma mask_mod x : Z.land x (bucket_count_mask_ t) = x mod n.
Proof.
  destruct (sh_pow _ _ _ Hsh) as (k & Hk & Hn). rewrite (sh_mask _ _ _ Hsh), Hn.
  apply land_mask. lia.
Qed.
Lemma calc_bucket_home k : calc_bucket HashT t k = home n k.
Proof. apply mask_mod. Qed.
Lemma next_bucket_next b : pos n b → next_bucket t b = next n b.
Proof.
  unfold pos. pose proof shaped_bounds. intros Hb. unfold next_bucket. rewrite mask_mod.
  rewrite u32_small by (unfold two32; lia). unfold next.
  destruct (Z.eqb_spec (b + 1) n) as [->|?].
  - apply Z.mod_same. lia.
  - apply Z.mod_small. lia.
Qed.

Lemma node_at_slot b : pos n b → ∃ node, node_at t b = Ok node ∧ holds node (slot C b).
Proof.
  unfold pos. intros Hb. unfold node_at. if_false.
  destruct (Forall2_lookup_r _ _ _ (Z.to_nat b) (slot C b) (sh_nodes _ _ _ Hsh)) as (node & -> & Hn).
  - apply slot_lookup. pose proof shaped_slots. lia.
  - by exists node.
Qed.
Lemma shaped_set_node b node c : holds node c → shaped n (set_node b node t) (put b c C).
Proof.
  intros Hn. destruct Hsh. split; simpl; try done.
  - by rewrite length_put.
  - unfold put. by apply Forall2_insert.
Qed.
Lemma shaped_key_nonempty i k v : pos n i → slot C i = Some (k, v) → k ≠ KeyT0.
Proof.
  intros Hi Hs. destruct (node_at_slot i Hi) as (node & _ & Hn). rewrite Hs in Hn.
  by destruct (holds_key _ _ _ Hn).
Qed.
End shaped_table.

Lemma shaped_with_used n t C u : shaped n t C → shaped n (with_used u t) C.
Proof. intros []. by split. Qed.
Lemma shaped_with_begin n t C b : shaped n t C → shaped n (with_begin b t) C.
Proof. intros []. by split. Qed.

Lemma move_node_slot n t C d s x :
  shaped n t C → pos n d → pos n s → slot C d = None → slot C s = Some x →
  ∃ ns, move_node d s t = Ok (with_nodes ns t) ∧
        shaped n (with_nodes ns t) (put d (Some x) (put s None C)).
Proof.
  intros Hsh Hd Hs Hcd Hcs. unfold move_node.
  destruct (node_at_slot Hsh d Hd) as (nd & -> & Hnd). rewrite Hcd in Hnd.
  destruct (node_at_slot Hsh s Hs) as (ns & -> & Hns). rewrite Hcs in Hns. simpl.
  destruct (holds_move _ _ _ Hnd Hns) as (nd' & ns' & -> & Hnd' & Hns'). simpl.
  eexists; split; [done|].
  exact (shaped_set_node (shaped_set_node Hsh s ns' None Hns') d nd' (Some x) Hnd').
Qed.

(** ** Probing *)

Lemma probe_spec n t C k z :
  shaped n t C → pos n z → slot C z = None →
  ∀ fuel b, pos n b → passed n (home n) C k b →
  dist n (home n k) b ≤ dist n (home n k) z →
  dist n (home n k) z - dist n (home n k) b < Z.of_nat fuel →
  ∃ b' e, probe fuel t k b = Ok (b', e) ∧ pos n b' ∧ passed n (home n) C k b' ∧
    if e : bool then slot C b' = None else ∃ v, slot C b' = Some (k, v).
Proof.
  intros Hsh Hz Hcz. pose proof (shaped_home Hsh k) as Hh.
  induction fuel as [|fuel IH]; intros b Hb Hp Hle Hf; [lia|]. cbn [probe].
  destruct (node_at_slot Hsh b Hb) as (node & -> & Hn). simpl.
  rewrite (holds_empty _ _ Hn). case_bool_decide as Hc; [by eexists b, true|].
  destruct (slot C b) as [[k' v']|] eqn:Hs; [|done].
  destruct (holds_key _ _ _ Hn) as [-> _]. simpl. case_bool_decide as Hk.
  { subst k'. exists b, false. eauto. }
  assert (dist n (home n k) b ≠ dist n (home n k) z).
  { intros E. apply dist_eq in E; [congruence|done..]. }
  pose proof (dist_range n _ _ Hh Hz).
  rewrite (next_bucket_next Hsh b Hb). apply IH; [by apply next_pos| |rewrite dist_next by (done || lia); lia..].
  eapply passed_next; try done; [by intros; apply (shaped_home Hsh)|lia].
Qed.

(** From its home, a probe ends at the key or, without it, at the slot where it belongs. *)
Lemma probe_home n t C k :
  shaped n t C → (length (contents C) < length C)%nat →
  ∃ b e, probe (length (nodes_ t)) t k (calc_bucket HashT t k) = Ok (b, e) ∧ pos n b ∧
    passed n (home n) C k b ∧
    if e : bool then slot C b = None else ∃ v, slot C b = Some (k, v).
Proof.
  intros Hsh Hl. destruct (empty_slot C Hl) as (z & Hz & Hcz).
  pose proof (shaped_home Hsh k) as Hh. rewrite (shaped_slots Hsh) in Hz.
  rewrite (calc_bucket_home Hsh), (shaped_length Hsh).
  apply (probe_spec n t C k z); try done.
  - apply passed_home. intros; apply (shaped_home Hsh).
  - rewrite dist_self. by apply dist_range.
  - rewrite dist_self, (shaped_slots Hsh). pose proof (dist_range n _ _ Hh Hz). lia.
Qed.

(** A walk to the first slot that is empty ([want]) or used. *)
Lemma seek_spec n t C want z b0 :
  shaped n t C → pos n z → pos n b0 → bool_decide (slot C z = None) = want →
  ∀ fuel b, pos n b →
  (∀ j, pos n j → dist n b0 j < dist n b0 b → bool_decide (slot C j = None) ≠ want) →
  dist n b0 b ≤ dist n b0 z → dist n b0 z - dist n b0 b < Z.of_nat fuel →
  ∃ b', seek want fuel t b = Ok b' ∧ pos n b' ∧ bool_decide (slot C b' = None) = want ∧
    ∀ j, pos n j → dist n b0 j < dist n b0 b' → bool_decide (slot C j = None) ≠ want.
Proof.
  intros Hsh Hz Hb0 Hcz.
  induction fuel as [|fuel IH]; intros b Hb Hp Hle Hf; [lia|]. cbn [seek].
  destruct (node_at_slot Hsh b Hb) as (node & -> & Hn). simpl.
  rewrite (holds_empty _ _ Hn).
  destruct (decide (bool_decide (slot C b = None) = want)) as [Hc|Hc];
    [rewrite (bool_decide_true _ Hc); by exists b|rewrite (bool_decide_false _ Hc)].
  assert (dist n b0 b ≠ dist n b0 z).
  { intros E. apply dist_eq in E; [by subst z|done..]. }
  pose proof (dist_range n _ _ Hb0 Hz).
  assert (E : dist n b0 (next n b) = dist n b0 b + 1) by (apply dist_next; (done || lia)).
  rewrite (next_bucket_next Hsh b Hb). apply IH; [by apply next_pos| |lia..].
  intros j Hj. rewrite E. intros Hd. destruct (decide (j = b)) as [->|Hjb]; [done|].
  apply Hp; [done|].
  assert (dist n b0 j ≠ dist n b0 b) by (intros E'; apply Hjb, (dist_eq n b0); auto). lia.
Qed.
Lemma seek_from n t C want z b0 :
  shaped n t C → pos n z → pos n b0 → bool_decide (slot C z = None) = want →
  ∃ b', seek want (length (nodes_ t)) t b0 = Ok b' ∧ pos n b' ∧
    bool_decide (slot C b' = None) = want ∧
    ∀ j, pos n j → dist n b0 j < dist n b0 b' → bool_decide (slot C j = None) ≠ want.
Proof.
  intros Hsh Hz Hb0 Hcz. eapply (seek_spec n t C want z b0); try done.
  - intros j Hj. rewrite dist_self. pose proof (dist_range n _ _ Hb0 Hj). lia.
  - rewrite dist_self. by apply dist_range.
  - rewrite dist_self, (shaped_length Hsh), (shaped_slots Hsh).
    pose proof (dist_range n _ _ Hb0 Hz). lia.
Qed.

(** ** Growing and shrinking *)

Lemma allocate_nodes_spec n t :
  pow2_size n → n ≤ max_size →
  ∃ t', allocate_nodes sizeof_NodeT n t = Ok t' ∧ shaped n t' (replicate (Z.to_nat n) None) ∧
    used_node_count_ t' = used_node_count_ t ∧ begin_bucket_ t' = INVALID_BUCKET.
Proof using sizeof_pos.
  intros Hn Hmax. pose proof (pow2_bounds n Hn) as Hb. unfold max_size in Hmax.
  unfold allocate_nodes. rewrite (proj2 (Z.leb_le 8 n)) by lia. simpl.
  assert (E : Z.land n (u32 (n - 1)) = 0).
  { rewrite u32_small by (unfold two32; lia). destruct Hn as (k & Hk & ->).
    rewrite land_mask by lia. apply Z.mod_same. lia. }
  rewrite E. simpl. change (u32 (Z.shiftl 1 29)) with 536870912.
  rewrite (u32_small (_ `div` _)).
  2:{ split; [apply Z.div_pos; lia|]. apply Z.div_lt_upper_bound; [done|]. unfold two32. lia. }
  if_true. simpl. eexists; split; [done|]. split; [|done].
  split; simpl; try done.
  - rewrite length_replicate. lia.
  - apply Forall2_replicate, holds_new.
Qed.

Lemma resize_step_spec n t C node c :
  shaped n t C → probes n (home n) C → (length (contents C) < length C)%nat → holds node c →
  ∃ ns C', resize_step HashT t node = Ok (with_nodes ns t) ∧ shaped n (with_nodes ns t) C' ∧
    probes n (home n) C' ∧ contents C' ≡ₚ option_list c ++ contents C.
Proof.
  intros Hsh Hpr Hl Hn. unfold resize_step. rewrite (holds_empty _ _ Hn).
  destruct c as [[k v]|]; simpl.
  2:{ exists (nodes_ t), C. destruct t. done. }
  destruct (holds_key _ _ _ Hn) as [-> Hk]. simpl.
  destruct (empty_slot C Hl) as (z & Hz & Hcz). rewrite (shaped_slots Hsh) in Hz.
  rewrite (calc_bucket_home Hsh).
  destruct (seek_from n t C true z (home n k)) as (b & -> & Hb & Hcb & Hp); try done.
  { by apply (shaped_home Hsh). }
  { by apply bool_decide_true. }
  apply bool_decide_eq_true in Hcb. simpl.
  destruct (node_at_slot Hsh b Hb) as (nb & -> & Hnb). rewrite Hcb in Hnb. simpl.
  destruct (holds_move _ _ _ Hnb Hn) as (nb' & old & -> & Hnb' & _). simpl.
  exists (nodes_ (set_node b nb' t)), (put b (Some (k, v)) C). split; [done|].
  split; [exact (shaped_set_node Hsh b nb' _ Hnb')|]. split.
  - apply probes_fill; try done.
    + apply (shaped_slots Hsh).
    + intros j Hj Hd Hc. apply (Hp j Hj Hd). by apply bool_decide_true.
  - apply contents_fill; [|done]. by rewrite (shaped_slots Hsh).
Qed.

Lemma resize_loop_spec n old Cold : Forall2 holds old Cold → ∀ t C,
  shaped n t C → probes n (home n) C →
  (length (contents C) + length (contents Cold) < length C)%nat →
  ∃ ns C', ofold (resize_step HashT) t old = Ok (with_nodes ns t) ∧
    shaped n (with_nodes ns t) C' ∧ probes n (home n) C' ∧
    contents C' ≡ₚ contents Cold ++ contents C.
Proof.
  induction 1 as [|node c old Cold Hn _ IH]; intros t C Hsh Hpr Hl; cbn [ofold].
  { exists (nodes_ t), C. by destruct t. }
  assert (E : contents (c :: Cold) = option_list c ++ contents Cold) by by destruct c.
  rewrite E in *. rewrite length_app in Hl.
  destruct (resize_step_spec n t C node c) as (ns & C1 & -> & Hsh1 & Hpr1 & Hc1); try done; [lia|].
  simpl. destruct (IH (with_nodes ns t) C1) as (ns' & C2 & -> & Hsh2 & Hpr2 & Hc2); try done.
  - apply Nat2Z.inj_lt. rewrite (shaped_slots Hsh1), <-(shaped_slots Hsh).
    rewrite Hc1, length_app. lia.
  - exists ns', C2. repeat split; try done; [apply Hsh2..|].
    rewrite Hc2, Hc1. rewrite !(assoc_L (++)). f_equiv. apply Permutation_app_comm.
Qed.

Lemma resize_null n :
  pow2_size n → n ≤ max_size →
  ∃ t', resize HashT sizeof_NodeT n mk_FlatHashTable = Ok t' ∧
    shaped n t' (replicate (Z.to_nat n) None) ∧ used_node_count_ t' = 0 ∧
    begin_bucket_ t' = INVALID_BUCKET.
Proof using sizeof_pos.
  intros Hn Hmax. unfold resize. simpl.
  destruct (allocate_nodes_spec n mk_FlatHashTable Hn Hmax) as (t' & -> & Hsh & Hu & Hb). simpl.
  eexists; split; [done|]. split; [by apply shaped_with_used|done].
Qed.

Lemma resize_spec n t C n' :
  shaped n t C → pow2_size n' → n' ≤ max_size → Z.of_nat (length (contents C)) < n' →
  ∃ t' C', resize HashT sizeof_NodeT n' t = Ok t' ∧ shaped n' t' C' ∧
    probes n' (home n') C' ∧ contents C' ≡ₚ contents C ∧
    used_node_count_ t' = used_node_count_ t ∧ begin_bucket_ t' = INVALID_BUCKET.
Proof using sizeof_pos.
  intros Hsh Hn' Hmax Hl. unfold resize. rewrite (nodes_nonnull Hsh).
  destruct (allocate_nodes_spec n' t Hn' Hmax) as (t1 & -> & Hsh1 & Hu & Hb). simpl.
  destruct (resize_loop_spec n' (nodes_ t) C (sh_nodes _ _ _ Hsh)
              (with_used (used_node_count_ t) t1) (replicate (Z.to_nat n') None))
    as (ns & C' & -> & Hsh' & Hpr' & Hc').
  - by apply shaped_with_used.
  - apply probes_empty.
  - rewrite contents_replicate, length_replicate. simpl. lia.
  - eexists _, C'. split; [done|]. split; [exact Hsh'|]. split; [done|].
    split; [|done]. by rewrite Hc', contents_replicate, app_nil_r.
Qed.

(** ** Well-formed tables *)

(** At most three fifths of the buckets are used, and the counts agree. The iterators may
    begin anywhere, at a node that is used. *)
Record wf n t C : Prop := {
  wf_shaped : shaped n t C;
  wf_probes : probes n (home n) C;
  wf_keys : NoDup (contents C).*1;
  wf_used : used_node_count_ t = Z.of_nat (length (contents C));
  wf_load : 5 * used_node_count_ t ≤ 3 * n + 1;
  wf_max : n ≤ max_size;
  wf_begin : begin_bucket_ t = INVALID_BUCKET ∨
             (pos n (begin_bucket_ t) ∧ slot C (begin_bucket_ t) ≠ None)
}.

Lemma wf_room n t C : wf n t C → (length (contents C) < length C)%nat.
Proof.
  intros []. pose proof (shaped_bounds wf_shaped0). pose proof (shaped_slots wf_shaped0). lia.
Qed.
Lemma wf_intro n t C C0 :
  shaped n t C → probes n (home n) C → NoDup (contents C0).*1 → contents C ≡ₚ contents C0 →
  used_node_count_ t = Z.of_nat (length (contents C0)) → 5 * used_node_count_ t ≤ 3 * n + 1 →
  n ≤ max_size → begin_bucket_ t = INVALID_BUCKET → wf n t C.
Proof. intros ??? Hc ????. split; [done|done|by rewrite Hc|by rewrite Hc|done|done|by left]. Qed.

Lemma wf_resize n t C n' :
  wf n t C → pow2_size n' → n' ≤ max_size → 5 * used_node_count_ t ≤ 3 * n' + 1 →
  ∃ t' C', resize HashT sizeof_NodeT n' t = Ok t' ∧ wf n' t' C' ∧ contents C' ≡ₚ contents C ∧
    used_node_count_ t' = used_node_count_ t ∧ begin_bucket_ t' = INVALID_BUCKET.
Proof using sizeof_pos.
  intros [] Hn' Hmax Hload. pose proof (pow2_bounds n' Hn').
  destruct (resize_spec n t C n') as (t' & C' & -> & Hsh & Hpr & Hc & Hu & Hb); try done; [lia|].
  exists t', C'. split; [done|]. split; [|done]. eapply (wf_intro _ _ _ C); eauto; lia.
Qed.

(** The search for a key. *)
Lemma probe_key n t C k :
  wf n t C →
  ∃ b e, probe (length (nodes_ t)) t k (calc_bucket HashT t k) = Ok (b, e) ∧ pos n b ∧
    passed n (home n) C k b ∧
    if e : bool then slot C b = None ∧ k ∉ (contents C).*1
    else ∃ v, slot C b = Some (k, v) ∧ (k, v) ∈ contents C.
Proof.
  intros Hwf. pose proof (wf_shaped _ _ _ Hwf) as Hsh.
  destruct (probe_home n t C k Hsh (wf_room _ _ _ Hwf)) as (b & e & Hpr & Hb & Hp & Hres).
  exists b, e. split; [done|]. split; [done|]. split; [done|]. destruct e.
  - split; [done|]. intros ([k' v] & -> & Hin)%list_elem_of_fmap.
    apply contents_elem in Hin as (j & Hj & Hs). rewrite (shaped_slots Hsh) in Hj.
    by apply (passed_absent n (home n) (shaped_home Hsh) C k' b (wf_probes _ _ _ Hwf) Hb Hp Hres
                j v Hj).
  - destruct Hres as [v Hv]. exists v. split; [done|]. apply contents_elem. exists b.
    rewrite (shaped_slots Hsh). done.
Qed.

(** ** Looking up *)

Lemma find_impl_spec n t C k :
  wf n t C →
  ∃ p, find_impl HashT t k = Ok p ∧
    match p with
    | Some b => ∃ v, pos n b ∧ slot C b = Some (k, v) ∧ (k, v) ∈ contents C
    | None => k ∉ (contents C).*1
    end.
Proof.
  intros Hwf. pose proof (wf_shaped _ _ _ Hwf) as Hsh. unfold find_impl.
  rewrite (nodes_nonnull Hsh). simpl. unfold is_hash_table_key_empty. case_bool_decide as Hk.
  - exists None. split; [done|]. intros ([k' v] & E & Hin)%list_elem_of_fmap. simpl in E.
    apply contents_elem in Hin as (j & Hj & Hs). rewrite (shaped_slots Hsh) in Hj.
    apply (shaped_key_nonempty Hsh _ _ _ Hj) in Hs. congruence.
  - destruct (probe_key n t C k Hwf) as (b & e & -> & Hb & _ & Hres). simpl.
    eexists; split; [done|]. destruct e; [apply Hres|]. destruct Hres as (v & ? & ?). eauto.
Qed.

(** ** Inserting *)

(** The end of [emplace], with an empty node for a new key. *)
Definition fill (key : K) (args : V) (bucket : Z) t : outcome (table * Z * bool) :=
  let t := invalidate_iterators t in
  node ← node_at t bucket;
  node ← node_emplace key args node;
  let t := set_node bucket node t in
  Ok (with_used (u32 (used_node_count_ t + 1)) t, bucket, true).

Lemma fill_spec n t C k a b :
  wf n t C → k ≠ KeyT0 → k ∉ (contents C).*1 → passed n (home n) C k b → pos n b →
  slot C b = None → 5 * used_node_count_ t < 3 * (n - 1) →
  ∃ t', fill k a b t = Ok (t', b, true) ∧ wf n t' (put b (Some (k, a)) C).
Proof.
  intros [Hsh Hpr Hk Hu Hl Hm _] Hk0 Hknew Hp Hb Hs Hload. pose proof (shaped_bounds Hsh) as Hn.
  unfold fill.
  assert (Hsh1 : shaped n (invalidate_iterators t) C) by by apply shaped_with_begin.
  destruct (node_at_slot Hsh1 b Hb) as (node & -> & Hnode). rewrite Hs in Hnode. simpl.
  destruct (holds_emplace _ k a Hnode Hk0) as (node' & -> & Hnode'). simpl.
  rewrite u32_small by (unfold two32; lia).
  eexists; split; [done|].
  assert (E : contents (put b (Some (k, a)) C) ≡ₚ (k, a) :: contents C).
  { apply contents_fill; [by rewrite (shaped_slots Hsh)|done]. }
  split.
  - apply shaped_with_used. exact (shaped_set_node Hsh1 b node' (Some (k, a)) Hnode').
  - apply probes_fill; try done; [apply (shaped_slots Hsh)|].
    intros j Hj Hd. destruct (Hp j Hj Hd) as (k' & v' & -> & _). done.
  - rewrite E. simpl. by constructor.
  - rewrite E. simpl. lia.
  - simpl. lia.
  - done.
  - by left.
Qed.

Lemma emplace_calls_found n t C k a calls v :
  wf n t C → k ≠ KeyT0 → (k, v) ∈ contents C →
  ∃ b, emplace_calls HashT sizeof_NodeT (S calls) k a t = Ok (t, b, false) ∧
    pos n b ∧ slot C b = Some (k, v).
Proof.
  intros Hwf Hk Hin. pose proof (wf_shaped _ _ _ Hwf) as Hsh.
  pose proof (shaped_bounds Hsh) as Hn. cbn [emplace_calls].
  unfold is_hash_table_key_empty. rewrite bool_decide_false by done. simpl.
  rewrite (sh_mask _ _ _ Hsh), (proj2 (Z.eqb_neq _ _)) by lia. simpl.
  destruct (probe_key n t C k Hwf) as (b & e & -> & Hb & _ & Hres). destruct e; simpl.
  - exfalso. apply (proj2 Hres). apply list_elem_of_fmap. by exists (k, v).
  - destruct Hres as (v' & Hs & Hin'). exists b. split; [done|]. split; [done|].
    assert (v' = v) as ->; [|done].
    eapply keys_unique; [apply (wf_keys _ _ _ Hwf)|exact Hin'|exact Hin].
Qed.

(** The table [t'] of [n'] buckets holds what [C] held and, at [b], the new pair. *)
Definition inserted n' t' C (k : K) (a : V) (b : Z) : Prop :=
  ∃ C', wf n' t' C' ∧ contents C' ≡ₚ (k, a) :: contents C ∧ pos n' b ∧ slot C' b = Some (k, a).

Lemma pow2_double n : pow2_size n → 2 * n ≤ 536870912 → pow2_size (2 * n).
Proof.
  intros (k & Hk & ->) Hle. exists (k + 1). rewrite Z.pow_add_r by lia.
  split; [|lia]. split; [lia|]. change 536870912 with (2 ^ 29) in Hle.
  replace (2 * 2 ^ k) with (2 ^ (k + 1)) in Hle by (rewrite Z.pow_add_r by lia; lia).
  apply Z.pow_le_mono_r_iff in Hle; lia.
Qed.

(** The two tests of [emplace] about the load. *)
Lemma load_test n t C :
  wf n t C →
  (u32 (bucket_count_mask_ t * 3) <=? u32 (used_node_count_ t * 5)) =
    (3 * (n - 1) <=? 5 * used_node_count_ t) ∧
  (u32 (used_node_count_ t * 5) <? u32 (bucket_count_mask_ t * 3)) =
    (5 * used_node_count_ t <? 3 * (n - 1)).
Proof.
  intros []. pose proof (shaped_bounds wf_shaped0).
  rewrite (sh_mask _ _ _ wf_shaped0), !u32_small by (unfold two32; lia).
  rewrite (Z.mul_comm (n - 1)), (Z.mul_comm (used_node_count_ t)). done.
Qed.

Lemma emplace_calls_room n t C k a calls :
  wf n t C → k ≠ KeyT0 → k ∉ (contents C).*1 → 5 * used_node_count_ t < 3 * (n - 1) →
  ∃ t' b, emplace_calls HashT sizeof_NodeT (S calls) k a t = Ok (t', b, true) ∧
    inserted n t' C k a b.
Proof.
  intros Hwf Hk Hnew Hload. pose proof (wf_shaped _ _ _ Hwf) as Hsh.
  pose proof (shaped_bounds Hsh) as Hn. cbn [emplace_calls].
  unfold is_hash_table_key_empty. rewrite bool_decide_false by done. simpl.
  rewrite (sh_mask _ _ _ Hsh), (proj2 (Z.eqb_neq _ _)) by lia. simpl.
  destruct (probe_key n t C k Hwf) as (b & e & -> & Hb & Hp & Hres). destruct e; simpl.
  2:{ destruct Hres as (v & _ & Hin). exfalso. apply Hnew, list_elem_of_fmap. by exists (k, v). }
  rewrite (proj1 (load_test _ _ _ Hwf)). if_false.
  destruct (fill_spec n t C k a b) as (t' & Hfill & Hwf'); try done; [apply Hres|].
  exists t', b. split; [exact Hfill|]. exists (put b (Some (k, a)) C). split; [done|].
  assert (Hbl : 0 ≤ b < Z.of_nat (length C)) by by rewrite (shaped_slots Hsh).
  split; [|split; [done|]].
  - apply contents_fill; [done|apply Hres].
  - by rewrite slot_put, decide_True by (done || lia).
Qed.

Lemma emplace_calls_new n t C k a calls :
  wf n t C → k ≠ KeyT0 → k ∉ (contents C).*1 → 10 * used_node_count_ t + 6 < 3 * max_size →
  ∃ n' t' b, emplace_calls HashT sizeof_NodeT (S (S calls)) k a t = Ok (t', b, true) ∧
    inserted n' t' C k a b.
Proof using sizeof_pos.
  intros Hwf Hk Hnew Hmax. pose proof (wf_shaped _ _ _ Hwf) as Hsh.
  pose proof (shaped_bounds Hsh) as Hn.
  destruct (Z.lt_ge_cases (5 * used_node_count_ t) (3 * (n - 1))) as [Hload|Hload].
  { destruct (emplace_calls_room n t C k a (S calls)) as (t' & b & -> & Hins); eauto. }
  remember (S calls) as m eqn:Hm. cbn [emplace_calls].
  unfold is_hash_table_key_empty. rewrite bool_decide_false by done. cbn [cassert negb mbind outcome_bind].
  rewrite (sh_mask _ _ _ Hsh), (proj2 (Z.eqb_neq _ _)) by lia. cbn [mbind outcome_bind].
  destruct (probe_key n t C k Hwf) as (b & e & -> & Hb & Hp & Hres).
  destruct e; cbn [mbind outcome_bind].
  2:{ destruct Hres as (v & _ & Hin). exfalso. apply Hnew, list_elem_of_fmap. by exists (k, v). }
  rewrite (proj1 (load_test _ _ _ Hwf)). if_true.
  pose proof (wf_load _ _ _ Hwf).
  assert (2 * n ≤ max_size) by lia.
  assert (max_size ≤ 536870912) by (unfold max_size; lia).
  rewrite (sh_count _ _ _ Hsh), u32_small by (unfold two32; lia).
  destruct (wf_resize n t C (2 * n)) as (t1 & C1 & -> & Hwf1 & Hc1 & Hu1 & _); try done.
  { apply pow2_double; [apply Hsh|lia]. }
  { lia. }
  cbn [mbind outcome_bind]. rewrite (proj2 (load_test _ _ _ Hwf1)), Hu1. if_true.
  cbn [cassert mbind outcome_bind].
  destruct (emplace_calls_room (2 * n) t1 C1 k a calls) as (t' & b' & E & Hins); try done.
  { by rewrite Hc1. }
  { lia. }
  exists (2 * n), t', b'. subst m. split; [exact E|].
  destruct Hins as (C' & Hwf' & Hc' & Hb' & Hs'). exists C'. rewrite Hc', Hc1. done.
Qed.

(** The first insertion makes an array of eight buckets. *)
Lemma emplace_first k a :
  k ≠ KeyT0 → 8 ≤ max_size →
  ∃ t' b, emplace HashT sizeof_NodeT k a mk_FlatHashTable = Ok (t', b, true) ∧
    inserted 8 t' [] k a b.
Proof using sizeof_pos.
  intros Hk Hmax. assert (pow2_size 8) as Hn by (by exists 3).
  destruct (resize_null 8 Hn Hmax) as (t1 & E1 & Hsh1 & Hu1 & Hb1).
  assert (Hwf1 : wf 8 t1 (replicate (Z.to_nat 8) None)).
  { eapply (wf_intro _ _ _ []); try done; [|by apply NoDup_nil_2|].
    - apply probes_empty.
    - rewrite Hu1. lia. }
  destruct (emplace_calls_room 8 t1 _ k a 1 Hwf1 Hk) as (t' & b & E & Hins).
  { rewrite contents_replicate. set_solver. }
  { lia. }
  exists t', b. split; [|unfold inserted in *; by rewrite contents_replicate in Hins].
  rewrite <-E. unfold emplace. remember 1%nat as m eqn:Hm. cbn [emplace_calls].
  unfold is_hash_table_key_empty. rewrite bool_decide_false by done.
  cbn [cassert negb mbind outcome_bind bucket_count_mask_ used_node_count_ mk_FlatHashTable].
  change (0 =? 0) with true. cbn [cassert mbind outcome_bind]. rewrite E1.
  cbn [mbind outcome_bind].
  assert (bucket_count_mask_ t1 =? 0 = false) as -> by by rewrite (sh_mask _ _ _ Hsh1). done.
Qed.
End facts.
