(* ===== verification/FlatHashTableErase.v ===== *)
(** * Erasing from hash tables

    [erase_node] empties a node and moves later nodes back, in two loops. In the table
    that is left every other key can still be found. *)
From S2P Require Import Prelude HashNode FlatHashTable LinearProbing FlatHashTableFacts.

Section kept.
Context {A : Type} (n : Z).
Implicit Types (C : list (option A)) (e t z : Z).

(** Against the slots [C0] from which [i0] is erased: slots that were empty still are, and
    between one and [i0] nothing has changed; the hole [e] lies behind. *)
Definition kept C0 (i0 : Z) C e : Prop :=
  ∀ z, pos n z → slot C0 z = None →
  slot C z = None ∧ z ≠ e ∧ dist n z i0 ≤ dist n z e ∧
  ∀ j, pos n j → dist n z j < dist n z i0 → slot C j = slot C0 j.

Lemma kept_start C0 i0 :
  Z.of_nat (length C0) = n → pos n i0 → slot C0 i0 ≠ None → kept C0 i0 (put i0 None C0) i0.
Proof.
  unfold pos. intros Hn Hi Hs z Hz Hz0. unfold pos in *.
  assert (z ≠ i0) by congruence. split; [|split; [done|split; [done|]]].
  - rewrite slot_put by lia. by case_decide.
  - intros j Hj Hd. rewrite slot_put by lia. case_decide; [subst; lia|done].
Qed.
End kept.

Section erase.
Context {K V N : Type} `{!EqDecision K, !EmptyKey K, !NodeOps K V N, !NodeSpec K V N}.
Context (HashT : K → Z).
Notation table := (FlatHashTable N).
Notation home := (home HashT).
Implicit Types (t : table) (C : list (option (K * V))) (n : Z).

Lemma kept_move n C0 i0 C e d s k v :
  Z.of_nat (length C) = n → pos n i0 → pos n e → pos n s → dist n e s = d → 0 < d →
  shifting n (home n) C e d → slot C s = Some (k, v) → kept n C0 i0 C e →
  kept n C0 i0 (put e (Some (k, v)) (put s None C)) s.
Proof.
  intros Hn Hi He Ht Hdt Hd0 Hshift Hs Hkept z Hz Hz0.
  destruct (Hkept z Hz Hz0) as (Hcz & Hze & Hle & Hsame).
  assert (z ≠ s) by congruence.
  pose proof (shifting_before_empty n (home n) C e d z He Hz Hshift Hcz Hze).
  assert (Hslot : ∀ j, pos n j → slot (put e (Some (k, v)) (put s None C)) j =
    if decide (e = j) then Some (k, v) else if decide (s = j) then None else slot C j).
  { unfold pos in *. intros j Hj. by rewrite !slot_put by (rewrite ?length_put; lia). }
  assert (dist n z i0 ≤ dist n z s) by (unfold pos in *; cyc).
  split; [|split; [done|split; [done|]]].
  - by rewrite Hslot, !decide_False by done.
  - intros j Hj Hd. rewrite Hslot by done.
    rewrite !decide_False by (intros <-; lia). by apply Hsame.
Qed.

(** The state of the loops, on the way and at the end: the table [t] with the array [ns],
    from which the pair [x] in slot [i0] of [C0] is removed. *)
Record erasing n t (x : K * V) C0 (i0 : Z) ns C (e d : Z) : Prop := {
  er_shaped : shaped n (with_nodes ns t) C;
  er_shifting : shifting n (home n) C e d;
  er_hole : pos n e;
  er_contents : contents C0 ≡ₚ x :: contents C;
  er_kept : kept n C0 i0 C e
}.
Record erased n t (x : K * V) C0 (i0 : Z) ns C : Prop := {
  ed_shaped : shaped n (with_nodes ns t) C;
  ed_probes : probes n (home n) C;
  ed_contents : contents C0 ≡ₚ x :: contents C;
  ed_kept : ∃ e, kept n C0 i0 C e
}.

(** What one turn of either loop does to the slot [s] that it tests. *)
Lemma erase_turn n t x C0 i0 ns C e d s :
  erasing n t x C0 i0 ns C e d → pos n i0 → pos n s → dist n e s = d → 0 < d →
  ∃ node, node_at (with_nodes ns t) s = Ok node ∧
    if node_empty node then erased n t x C0 i0 ns C
    else slot C s ≠ None ∧ ∃ k, node_key node = Ok k ∧
      (if dist n (home n k) s <? d then erasing n t x C0 i0 ns C e (d + 1)
       else ∃ ns' C', move_node e s (with_nodes ns t) = Ok (with_nodes ns' t) ∧
              erasing n t x C0 i0 ns' C' s 1).
Proof.
  intros [Hsh Hshift He Hc Hk] Hi Hs Hdt Hd. pose proof (shaped_bounds Hsh).
  destruct (node_at_slot Hsh s Hs) as (node & -> & Hn). exists node. split; [done|].
  rewrite (holds_empty _ _ Hn). case_bool_decide as Hcs.
  - split; try done; [|by exists e].
    by apply (shifting_stop n (home n) (shaped_home HashT Hsh) C e d s).
  - split; [done|]. destruct (slot C s) as [[k v]|] eqn:Hks; [|done]. exists k.
    split; [by apply (holds_key _ _ _ Hn)|]. destruct (Z.ltb_spec (dist n (home n k) s) d).
    + split; try done. by apply (shifting_keep n (home n) (shaped_home HashT Hsh) C e d s k v).
    + destruct (move_node_slot n (with_nodes ns t) C e s (k, v)) as (ns' & Hm & Hsh'); try done.
      { apply Hshift. }
      exists ns', (put e (Some (k, v)) (put s None C)). split; [exact Hm|].
      pose proof (shaped_slots Hsh) as Hl.
      split; try done.
      * apply (shifting_move n (home n) (shaped_home HashT Hsh) C e d s k v); (done || lia).
      * rewrite contents_move; try done; [by rewrite Hl..|apply Hshift].
      * by eapply kept_move.
Qed.

Lemma erase_loop_spec n t x C0 i0 : pos n i0 → ∀ tests it test_node ns C,
  erasing n t x C0 i0 ns C it (test_node - it) → Z.of_nat tests = n - test_node →
  it < test_node →
  ∃ ns' C' r, erase_loop HashT tests it test_node (with_nodes ns t) = Ok (with_nodes ns' t, r) ∧
    match r with
    | None => erased n t x C0 i0 ns' C'
    | Some it' => erasing n t x C0 i0 ns' C' it' (n - it')
    end.
Proof.
  intros Hi. induction tests as [|tests IH]; intros it s ns C Her Ht Hlt; simpl.
  { exists ns, C, (Some it). split; [done|]. by replace (n - it) with (s - it) by lia. }
  pose proof (er_shaped _ _ _ _ _ _ _ _ _ Her) as Hsh.
  pose proof (er_hole _ _ _ _ _ _ _ _ _ Her) as He.
  assert (Hs : pos n s) by (unfold pos in *; lia).
  destruct (erase_turn n t x C0 i0 ns C it (s - it) s Her Hi Hs) as (node & -> & Hturn).
  { unfold pos in *. cyc. }
  { lia. }
  simpl. destruct (node_empty node); [by exists ns, C, None|].
  destruct Hturn as (_ & k & -> & Hturn). simpl. rewrite (calc_bucket_home HashT Hsh).
  pose proof (shaped_home HashT Hsh k) as Hh.
  destruct (Z.ltb_spec (dist n (home n k) s) (s - it)) as [Hd|Hd].
  - assert ((home n k <=? it) || (s <? home n k) = false) as ->.
    { apply orb_false_iff. rewrite Z.leb_gt, Z.ltb_ge. unfold pos in *. cyc. }
    apply (IH it (s + 1) ns C); [|lia..]. by replace (s + 1 - it) with (s - it + 1) by lia.
  - assert ((home n k <=? it) || (s <? home n k) = true) as ->.
    { apply orb_true_iff. rewrite Z.leb_le, Z.ltb_lt. unfold pos in *. cyc. }
    destruct Hturn as (ns' & C' & -> & Her'). simpl.
    apply (IH s (s + 1) ns' C'); [|lia..]. by replace (s + 1 - s) with 1 by lia.
Qed.

Lemma erase_wrapped_loop_spec n t x C0 i0 z : pos n i0 → pos n z → slot C0 z = None →
  ∀ fuel empty_i empty_bucket test_i ns C,
  erasing n t x C0 i0 ns C empty_bucket (test_i - empty_i) →
  (empty_i = empty_bucket ∨ empty_i = empty_bucket + n) → empty_i < test_i →
  n ≤ test_i ≤ z + n → z + n - test_i < Z.of_nat fuel →
  ∃ ns' C',
    erase_wrapped_loop HashT fuel empty_i empty_bucket test_i (with_nodes ns t) =
      Ok (with_nodes ns' t) ∧ erased n t x C0 i0 ns' C'.
Proof.
  intros Hi Hz Hz0. induction fuel as [|fuel IH]; intros ei eb ti ns C Her Hei Hlt Hti Hf; [lia|].
  cbn [erase_wrapped_loop].
  pose proof (er_shaped _ _ _ _ _ _ _ _ _ Her) as Hsh. pose proof (shaped_bounds Hsh) as Hn.
  pose proof (er_hole _ _ _ _ _ _ _ _ _ Her) as He.
  destruct (er_kept _ _ _ _ _ _ _ _ _ Her z Hz Hz0) as (Hcz & Hze & _).
  pose proof (shifting_before_empty n (home n) C eb (ti - ei) z He Hz
                (er_shifting _ _ _ _ _ _ _ _ _ Her) Hcz Hze) as Hd.
  rewrite (sh_count _ _ _ Hsh). rewrite (u32_small (ti - n)) by (unfold pos, two32 in *; lia).
  assert (Hs : pos n (ti - n)) by (unfold pos in *; lia).
  destruct (erase_turn n t x C0 i0 ns C eb (ti - ei) (ti - n) Her Hi Hs) as (node & -> & Hturn).
  { unfold pos in *. cyc. }
  { lia. }
  simpl. destruct (node_empty node); [by exists ns, C|].
  destruct Hturn as (Hcs & k & -> & Hturn). simpl. rewrite (calc_bucket_home HashT Hsh).
  pose proof (shaped_home HashT Hsh k) as Hh.
  assert (ti - n ≠ z) by congruence.
  rewrite (u32_small (ti + 1)), (u32_small (home n k + n)) by (unfold pos, two32 in *; lia).
  destruct (Z.ltb_spec (dist n (home n k) (ti - n)) (ti - ei)) as [Hk|Hk].
  - set (want_i := if home n k <? ei then home n k + n else home n k).
    assert ((want_i <=? ei) || (ti <? want_i) = false) as ->.
    { apply orb_false_iff. rewrite Z.leb_gt, Z.ltb_ge. unfold want_i, pos in *.
      destruct (Z.ltb_spec (home n k) ei); cyc. }
    apply (IH ei eb (ti + 1) ns C); try (done || lia).
    by replace (ti + 1 - ei) with (ti - ei + 1) by lia.
  - set (want_i := if home n k <? ei then home n k + n else home n k).
    assert ((want_i <=? ei) || (ti <? want_i) = true) as ->.
    { apply orb_true_iff. rewrite Z.leb_le, Z.ltb_lt. unfold want_i, pos in *.
      destruct (Z.ltb_spec (home n k) ei); cyc. }
    destruct Hturn as (ns' & C' & -> & Her'). simpl.
    apply (IH ti (ti - n) (ti + 1) ns' C'); try lia.
    by replace (ti + 1 - ti) with 1 by lia.
Qed.

(** Erasing a used node ends, removes its pair, and leaves a table that can be searched. *)
Lemma erase_node_spec n t C it x :
  shaped n t C → probes n (home n) C → (length (contents C) < length C)%nat → pos n it →
  slot C it = Some x → 0 < used_node_count_ t < two32 →
  ∃ ns C', erase_node HashT it t = Ok (with_nodes ns (with_used (used_node_count_ t - 1) t)) ∧
    erased n (with_used (used_node_count_ t - 1) t) x C it ns C'.
Proof.
  intros Hsh Hpr Hroom Hit Hs Hu. pose proof (shaped_bounds Hsh) as Hn.
  pose proof (shaped_slots Hsh) as Hl.
  unfold erase_node. rewrite (sh_count _ _ _ Hsh).
  assert ((0 <=? it) && (it <? n) = true) as ->.
  { apply andb_true_iff. rewrite Z.leb_le, Z.ltb_lt. done. }
  simpl. destruct (node_at_slot Hsh it Hit) as (node & -> & Hnode). rewrite Hs in Hnode. simpl.
  destruct (holds_clear _ _ Hnode) as (node' & -> & Hnode'). simpl.
  rewrite (sh_count _ _ _ Hsh), u32_small by lia.
  set (t1 := with_used (used_node_count_ t - 1) t).
  change (with_used (used_node_count_ t - 1) (set_node it node' t))
    with (with_nodes (<[Z.to_nat it:=node']> (nodes_ t)) t1).
  assert (Her : erasing n t1 x C it (<[Z.to_nat it:=node']> (nodes_ t)) (put it None C) it 1).
  { split.
    - exact (shaped_with_used _ _ _ _ (shaped_set_node Hsh it node' None Hnode')).
    - apply shifting_start; (done || lia).
    - done.
    - rewrite (contents_split C it) by by rewrite Hl. by rewrite Hs.
    - apply kept_start; [done|done|congruence]. }
  destruct (erase_loop_spec n t1 x C it Hit (Z.to_nat (n - (it + 1))) it (it + 1)
              (<[Z.to_nat it:=node']> (nodes_ t)) (put it None C))
    as (ns & C1 & r & -> & Hr); [by replace (it + 1 - it) with 1 by lia|unfold pos in *; lia|lia|].
  simpl. destruct r as [it'|]; [|by exists ns, C1].
  destruct (empty_slot C Hroom) as (z & Hz & Hz0). rewrite Hl in Hz.
  pose proof (er_shaped _ _ _ _ _ _ _ _ _ Hr) as Hsh1.
  destruct (erase_wrapped_loop_spec n t1 x C it z Hit Hz Hz0 (length ns) it' it' n ns C1)
    as (ns' & C' & E & Hd); try done.
  - by left.
  - apply (er_hole _ _ _ _ _ _ _ _ _ Hr).
  - unfold pos in *. lia.
  - pose proof (shaped_length Hsh1) as E. simpl in E. rewrite E, (shaped_slots Hsh1).
    unfold pos in *. lia.
  - exists ns', C'. split; [|done]. rewrite <-E. f_equal. apply (sh_count _ _ _ Hsh1).
Qed.
End erase.
