(* ===== verification/FlatHashTableOps.v ===== *)
(** * Operations of hash tables

    Erasing keys, shrinking, iterating, removing by a predicate and building from a list,
    each related to the contents of the table. *)
From S2P Require Import Prelude HashNode FlatHashTable LinearProbing FlatHashTableFacts FlatHashTableErase.

Section ops.
Context {K V N : Type} `{!EqDecision K, !EmptyKey K, !NodeOps K V N, !NodeSpec K V N}.
Context (HashT : K → Z) (sizeof_NodeT : Z).
Hypothesis sizeof_pos : 0 < sizeof_NodeT.
#[local] Set Default Proof Using "Type sizeof_pos".
Notation table := (FlatHashTable N).
Notation home := (home HashT).
Notation wf := (wf HashT sizeof_NodeT).
Implicit Types (t : table) (C : list (option (K * V))) (n : Z).

(** A table in the middle of an operation: where iteration starts does not matter. *)
Definition loose n t C : Prop := wf n (invalidate_iterators t) C.

Lemma wf_loose n t C : wf n t C → loose n t C.
Proof. intros []. split; try done; [by apply shaped_with_begin|by left]. Qed.
Lemma loose_shaped n t C : loose n t C → shaped n t C.
Proof. intros [Hsh _ _ _ _ _ _]. destruct Hsh. by split. Qed.
Lemma loose_room n t C : loose n t C → (length (contents C) < length C)%nat.
Proof. apply wf_room. Qed.
Lemma wf_set_begin n t C b :
  loose n t C → pos n b → slot C b ≠ None → wf n (with_begin b t) C.
Proof.
  intros Hl Hb Hs. pose proof (loose_shaped _ _ _ Hl) as Hsh. destruct Hl.
  split; try done; [by apply shaped_with_begin|by right].
Qed.

(** ** Erasing *)

Lemma erase_node_loose n t C it x :
  loose n t C → pos n it → slot C it = Some x →
  ∃ t' C', erase_node HashT it t = Ok t' ∧ loose n t' C' ∧ contents C ≡ₚ x :: contents C' ∧
    ∃ e, kept n C it C' e.
Proof.
  intros Hl Hit Hs. pose proof (loose_shaped _ _ _ Hl) as Hsh. pose proof (shaped_bounds Hsh) as Hn.
  destruct Hl as [_ Hpr Hk Hu Hload Hmax _]. simpl in *.
  assert (Hx : x ∈ contents C).
  { apply contents_elem. exists it. by rewrite (shaped_slots Hsh). }
  assert (Hpos : (0 < length (contents C))%nat) by (destruct (contents C); [set_solver|simpl; lia]).
  destruct (erase_node_spec HashT n t C it x) as (ns & C' & -> & Hd); try done.
  { pose proof (shaped_slots Hsh). lia. }
  { unfold two32. lia. }
  destruct Hd as [Hsh' Hpr' Hc' Hkept]. eexists _, C'. split; [done|]. split; [|done].
  split; simpl; try done.
  - by apply shaped_with_begin.
  - rewrite Hc' in Hk. simpl in Hk. by apply NoDup_cons in Hk as [_ Hk].
  - rewrite Hu, Hc'. simpl. lia.
  - lia.
  - by left.
Qed.

Lemma try_shrink_spec n t C :
  loose n t C →
  ∃ n' t' C', try_shrink HashT sizeof_NodeT t = Ok t' ∧ wf n' t' C' ∧ contents C' ≡ₚ contents C.
Proof.
  intros Hl. pose proof (loose_shaped _ _ _ Hl) as Hsh. pose proof (shaped_bounds Hsh) as Hn.
  unfold try_shrink. rewrite (nodes_nonnull Hsh), (sh_mask _ _ _ Hsh). simpl.
  destruct Hl as [Hsh0 Hpr Hk Hu Hload Hmax Hb]. simpl in *.
  assert (Hu0 : 0 ≤ used_node_count_ t) by lia.
  rewrite (u32_small (used_node_count_ t * 10)), (u32_small (used_node_count_ t + 1)),
    (u32_small ((used_node_count_ t + 1) * 5)) by (unfold two32; lia).
  destruct (Z.ltb_spec (used_node_count_ t * 10) (n - 1)) as [Hfew|Hmany];
    [destruct (Z.ltb_spec 7 (n - 1)) as [Hbig|Hsmall]|]; simpl.
  2,3: by exists n, (invalidate_iterators t), C.
  set (s := ((used_node_count_ t + 1) * 5) `div` 3 + 1).
  assert (Hs : 3 * s ≤ (used_node_count_ t + 1) * 5 + 3 < 3 * s + 3).
  { unfold s. pose proof (Z.div_mod ((used_node_count_ t + 1) * 5) 3 ltac:(lia)).
    pose proof (Z.mod_pos_bound ((used_node_count_ t + 1) * 5) 3 ltac:(lia)). lia. }
  fold s. rewrite (u32_small s) by (unfold two32; lia).
  destruct (normalize_size s) as (k & -> & Hk3 & Hlt & Hle); [lia|]. simpl.
  assert (Hp : pow2_size (2 ^ k)).
  { exists k. split; [|done]. split; [done|].
    apply (Z.pow_le_mono_r_iff 2); [lia..|]. change (2 ^ 29) with 536870912. lia. }
  destruct (resize_spec HashT sizeof_NodeT sizeof_pos n t C (2 ^ k) Hsh Hp)
    as (t' & C' & -> & Hsh' & Hpr' & Hc' & Hu' & Hb'); [lia..|]. simpl.
  exists (2 ^ k), (invalidate_iterators t'), C'. split; [done|]. split; [|done].
  split; simpl; try done.
  - by apply shaped_with_begin.
  - by rewrite Hc'.
  - by rewrite Hu', Hc'.
  - lia.
  - lia.
  - by left.
Qed.

Lemma erase_at_spec n t C it x :
  wf n t C → pos n it → slot C it = Some x →
  ∃ n' t' C', erase_at HashT sizeof_NodeT it t = Ok t' ∧ wf n' t' C' ∧
    contents C ≡ₚ x :: contents C'.
Proof.
  intros Hwf Hit Hs. unfold erase_at.
  destruct (erase_node_loose n t C it x (wf_loose _ _ _ Hwf) Hit Hs) as (t1 & C1 & -> & Hl & Hc & _).
  simpl. destruct (try_shrink_spec n t1 C1 Hl) as (n' & t' & C' & -> & Hwf' & Hc').
  exists n', t', C'. split; [done|]. split; [done|]. by rewrite Hc, Hc'.
Qed.

Lemma table_erase_spec n t C k :
  wf n t C →
  (k ∉ (contents C).*1 ∧ erase HashT sizeof_NodeT k t = Ok (t, 0)) ∨
  (∃ n' t' C' v, erase HashT sizeof_NodeT k t = Ok (t', 1) ∧ wf n' t' C' ∧
    contents C ≡ₚ (k, v) :: contents C').
Proof.
  intros Hwf. unfold erase. destruct (find_impl_spec HashT sizeof_NodeT n t C k Hwf) as (p & -> & Hp).
  simpl. destruct p as [b|]; [right|by left].
  destruct Hp as (v & Hb & Hs & _).
  destruct (erase_at_spec n t C b (k, v) Hwf Hb Hs) as (n' & t' & C' & E & Hwf' & Hc).
  unfold erase_at in E. destruct (erase_node HashT b t) as [t1|] eqn:E1; simpl in *; [|done].
  rewrite E. simpl. by exists n', t', C', v.
Qed.

(** ** Reserving *)

(** The size that [reserve] wants: more buckets than five thirds of the elements. *)
Lemma reserve_size size :
  0 < size → 10 * size + 24 ≤ 3 * max_size sizeof_NodeT →
  ∃ n, normalize_flat_hash_table_size (u32 (u32 (u32 size * 5) `div` 3 + 1)) = Ok n ∧
    pow2_size n ∧ n ≤ max_size sizeof_NodeT ∧ 5 * size < 3 * n.
Proof.
  intros Hs Hfit. assert (Hm : max_size sizeof_NodeT ≤ 536870912) by (unfold max_size; lia).
  rewrite (u32_small size), (u32_small (size * 5)) by (unfold two32; lia).
  set (s := (size * 5) `div` 3 + 1).
  assert (Hss : 3 * s ≤ size * 5 + 3 < 3 * s + 3).
  { unfold s. pose proof (Z.div_mod (size * 5) 3 ltac:(lia)).
    pose proof (Z.mod_pos_bound (size * 5) 3 ltac:(lia)). lia. }
  rewrite (u32_small s) by (unfold two32; lia).
  destruct (normalize_size s) as (k & -> & Hk3 & Hlt & Hle); [lia|].
  exists (2 ^ k). split; [done|]. split; [|lia].
  exists k. split; [|done]. split; [done|].
  apply (Z.pow_le_mono_r_iff 2); [lia..|]. change (2 ^ 29) with 536870912. lia.
Qed.

Lemma reserve_wf n t C size :
  wf n t C → 0 ≤ size → 10 * size + 24 ≤ 3 * max_size sizeof_NodeT →
  ∃ n' t' C', reserve HashT sizeof_NodeT size t = Ok t' ∧ wf n' t' C' ∧
    contents C' ≡ₚ contents C.
Proof.
  intros Hwf Hs Hfit. unfold reserve.
  destruct (Z.eqb_spec size 0) as [->|Hs0]; [by exists n, t, C|].
  assert (Hm : max_size sizeof_NodeT ≤ 536870912) by (unfold max_size; lia).
  change (u32 (Z.shiftl 1 29)) with 536870912. if_true. simpl.
  destruct (reserve_size size) as (n' & -> & Hn' & Hmax & Hroom); [lia..|]. simpl.
  pose proof (wf_shaped _ _ _ _ _ Hwf) as Hsh. rewrite (sh_count _ _ _ Hsh).
  destruct (Z.ltb_spec n n') as [Hgrow|]; [|by exists n, t, C].
  pose proof (wf_load _ _ _ _ _ Hwf).
  destruct (wf_resize HashT sizeof_NodeT sizeof_pos n t C n' Hwf Hn' Hmax)
    as (t' & C' & -> & Hwf' & Hc' & _); [lia|]. by exists n', t', C'.
Qed.

(** An empty table with room for [size] elements. *)
Lemma reserve_null size :
  0 < size → 10 * size + 24 ≤ 3 * max_size sizeof_NodeT →
  ∃ n t C, reserve HashT sizeof_NodeT size mk_FlatHashTable = Ok t ∧ wf n t C ∧
    contents C = [] ∧ 5 * size < 3 * n.
Proof.
  intros Hs Hfit. unfold reserve. rewrite (proj2 (Z.eqb_neq _ _)) by lia.
  assert (Hm : max_size sizeof_NodeT ≤ 536870912) by (unfold max_size; lia).
  change (u32 (Z.shiftl 1 29)) with 536870912. if_true. simpl.
  destruct (reserve_size size) as (n & -> & Hn & Hmax & Hroom); [lia..|]. simpl.
  pose proof (pow2_bounds n Hn). if_true.
  destruct (resize_null HashT sizeof_NodeT sizeof_pos n Hn Hmax) as (t & -> & Hsh & Hu & Hb).
  exists n, t, (replicate (Z.to_nat n) None). split; [done|].
  split; [|split; [apply contents_replicate|done]].
  split; rewrite ?contents_replicate; try done; [apply probes_empty|by apply NoDup_nil_2|lia|by left].
Qed.
End ops.
