(* ===== verification/FlatHashTableRemove.v ===== *)
(** * Removing from hash tables by a predicate, and building them from lists *)
From S2P Require Import Prelude HashNode FlatHashTable LinearProbing FlatHashTableFacts FlatHashTableErase FlatHashTableOps FlatHashTableIter.

Section remove.
Context {K V N : Type} `{!EqDecision K, !EmptyKey K, !NodeOps K V N, !NodeSpec K V N}.
Context (HashT : K → Z) (sizeof_NodeT : Z).
Hypothesis sizeof_pos : 0 < sizeof_NodeT.
#[local] Set Default Proof Using "Type sizeof_pos".
Notation table := (FlatHashTable N).
Notation wf := (wf HashT sizeof_NodeT).
Notation loose := (loose HashT sizeof_NodeT).
Implicit Types (t : table) (C : list (option (K * V))) (n : Z).

(** ** The search for an empty node *)

Lemma skip_used_spec n t C : shaped n t C → ∀ tests it,
  0 ≤ it ≤ n → Z.of_nat tests = n - it →
  ∃ e, skip_used tests it t = Ok e ∧ it ≤ e ≤ n ∧ (e < n → slot C e = None).
Proof.
  intros Hsh. induction tests as [|tests IH]; intros it Hit Ht; simpl.
  { exists it. split; [done|]. lia. }
  assert (Hp : pos n it) by (unfold pos; lia).
  destruct (node_at_slot Hsh it Hp) as (node & -> & Hn). simpl.
  rewrite (holds_empty _ _ Hn). case_bool_decide as Hc.
  - exists it. split; [done|]. split; [lia|done].
  - destruct (IH (it + 1)) as (e & -> & He & Hs); [lia..|]. exists e. split; [done|].
    split; [lia|done].
Qed.

Lemma back_to_empty_spec n t C z : shaped n t C → pos n z → slot C z = None → ∀ fuel it,
  z < it ≤ n → it - z ≤ Z.of_nat fuel →
  ∃ e, back_to_empty fuel it t = Ok e ∧ pos n e ∧ slot C e = None.
Proof.
  intros Hsh Hz Hs. induction fuel as [|fuel IH]; intros it Hit Hf; [lia|]. cbn [back_to_empty].
  assert (Hp : pos n (it - 1)) by (unfold pos in *; lia).
  destruct (node_at_slot Hsh _ Hp) as (node & -> & Hn). simpl.
  rewrite (holds_empty _ _ Hn). case_bool_decide as Hc; [by eauto|].
  assert (z ≠ it - 1) by congruence. apply IH; lia.
Qed.

(** ** The removing loops

    They start at the empty bucket [F], and [c] is what has to be added to the number of
    buckets passed to get the bucket: [F], and, after the end of the array, [F - n]. *)
Record removing (f : K * V → bool) n C0 (F D : Z) t C (R : list (K * V)) : Prop := {
  rm_loose : loose n t C;
  rm_first : slot C F = None;
  rm_passed j x : pos n j → dist n F j < D → slot C j = Some x → f x = false;
  rm_contents : contents C0 ≡ₚ R ++ contents C;
  rm_removed : Forall (λ x, f x = true) R
}.

Definition used_flag (R : list (K * V)) : bool := negb (bool_decide (R = [])).

Lemma remove_loop_spec f n C0 F c : pos n F → ∀ fuel D stop t C R,
  removing f n C0 F D t C R → 0 ≤ D ≤ stop → stop ≤ n →
  (∀ d, D ≤ d < stop → pos n (d + c) ∧ dist n F (d + c) = d) →
  stop - D + Z.of_nat (length (contents C)) ≤ Z.of_nat fuel →
  ∃ t' C' R', remove_loop HashT fuel f (D + c) (stop + c) (used_flag R) t =
      Ok (t', used_flag R') ∧ removing f n C0 F stop t' C' R'.
Proof.
  intros HF. induction fuel as [|fuel IH]; intros D stop t C R Hrm HD Hstop Hc Hf; cbn [remove_loop].
  { assert (D = stop) as -> by lia. rewrite Z.eqb_refl. eauto. }
  destruct (Z.eqb_spec (D + c) (stop + c)) as [E|Hne].
  { assert (D = stop) as -> by lia. eauto. }
  destruct (Hc D) as [Hp Hd]; [lia|].
  pose proof (loose_shaped _ _ sizeof_pos _ _ _ (rm_loose _ _ _ _ _ _ _ _ Hrm)) as Hsh.
  destruct (node_at_slot Hsh (D + c) Hp) as (node & -> & Hnode). simpl.
  assert (Hnext : (∀ x, slot C (D + c) = Some x → f x = false) →
    removing f n C0 F (D + 1) t C R).
  { intros Hs. destruct Hrm. split; try done. intros j x Hj Hlt Hjs.
    destruct (decide (j = D + c)) as [->|Hjd]; [by apply Hs|]. apply (rm_passed0 j x Hj); [|done].
    assert (dist n F j ≠ dist n F (D + c)) by (intros E; apply Hjd, (dist_eq n F); auto). lia. }
  assert (Hgo : removing f n C0 F (D + 1) t C R → ∃ t' C' R',
    remove_loop HashT fuel f (D + c + 1) (stop + c) (used_flag R) t = Ok (t', used_flag R') ∧
    removing f n C0 F stop t' C' R').
  { intros Hrm'. replace (D + c + 1) with (D + 1 + c) by lia.
    eapply IH; [exact Hrm'|lia|lia| |lia]. intros d Hdd. apply Hc. lia. }
  rewrite (holds_empty _ _ Hnode). case_bool_decide as Hcs.
  { apply Hgo, Hnext. intros x Hx. congruence. }
  destruct (slot C (D + c)) as [[k v]|] eqn:Hs; [|done].
  rewrite (holds_public _ _ _ Hnode). simpl. destruct (f (k, v)) eqn:Hfx.
  2:{ apply Hgo, Hnext. intros x [= <-]. done. }
  clear Hgo Hnext. destruct Hrm as [Hl HsF Hpassed Hcont HR].
  destruct (erase_node_loose HashT sizeof_NodeT sizeof_pos n t C (D + c) (k, v) Hl Hp Hs)
    as (t1 & C1 & -> & Hl1 & Hc1 & e & Hkept). simpl.
  destruct (Hkept F HF HsF) as (HsF1 & _ & _ & Hsame).
  replace true with (used_flag ((k, v) :: R)) by done.
  apply (IH D stop t1 C1); [|done|done|done|].
  - split; try done.
    + intros j x Hj Hlt. rewrite (Hsame j Hj) by lia. by apply Hpassed.
    + rewrite Hcont, Hc1. simpl. symmetry. apply Permutation_middle.
    + by constructor.
  - rewrite Hc1 in Hf. simpl in Hf. lia.
Qed.

(** [remove_if] removes what satisfies the predicate, and tells whether it did. *)
Lemma remove_if_spec n t C f random :
  wf n t C →
  ∃ n' t' C' R, remove_if HashT sizeof_NodeT random f t = Ok (t', used_flag R) ∧ wf n' t' C' ∧
    contents C ≡ₚ R ++ contents C' ∧ Forall (λ x, f x = true) R ∧
    Forall (λ x, f x = false) (contents C').
Proof.
  intros Hwf. unfold remove_if. rewrite (wf_empty _ _ sizeof_pos _ _ _ Hwf). case_bool_decide as Hemp.
  { exists n, t, C, []. split; [done|]. split; [done|]. rewrite Hemp. done. }
  destruct (begin_impl_spec HashT sizeof_NodeT sizeof_pos n t C random Hwf Hemp)
    as (b & -> & Hwf1 & Hb & _). cbn [mbind outcome_bind deref].
  set (t1 := with_begin b t) in *. pose proof (wf_shaped _ _ _ _ _ Hwf1) as Hsh.
  pose proof (shaped_slots Hsh) as Hlen. pose proof (shaped_length Hsh) as Hlen'.
  rewrite (sh_count _ _ _ Hsh).
  destruct (skip_used_spec n t1 C Hsh (Z.to_nat (n - b)) b) as (e & -> & He & Hse);
    [unfold pos in *; lia..|]. cbn [mbind outcome_bind].
  assert (∃ F, (if e =? n then back_to_empty (length (nodes_ t1)) e t1 else Ok e) = Ok F ∧
          pos n F ∧ slot C F = None) as (F & -> & HF & HsF).
  { destruct (Z.eqb_spec e n) as [->|Hen].
    - destruct (empty_slot C (wf_room _ _ _ _ _ Hwf)) as (z & Hz & Hsz). rewrite Hlen in Hz.
      eapply (back_to_empty_spec n t1 C z); try done; [unfold pos in *; lia|].
      rewrite Hlen', Hlen. lia.
    - exists e. split; [done|]. unfold pos in *. split; [lia|]. apply Hse. lia. }
  cbn [mbind outcome_bind]. unfold pos in HF.
  assert (Hroom : Z.of_nat (length (contents C)) ≤ n).
  { pose proof (length_contents C). lia. }
  assert (Hrm : removing f n C F 0 t1 C []).
  { split; [by apply wf_loose|done| |done|done]. intros j x Hj Hd.
    pose proof (dist_range n F j HF Hj). lia. }
  destruct (remove_loop_spec f n C F F HF (2 * length (nodes_ t1)) 0 (n - F) t1 C [] Hrm)
    as (t2 & C2 & R2 & E2 & Hrm2); [lia|lia| |lia|].
  { intros d Hd. unfold pos. split; [lia|]. cyc. }
  replace (0 + F) with F in E2 by lia. replace (n - F + F) with n in E2 by lia.
  replace (used_flag []) with false in E2 by done. rewrite E2. cbn [mbind outcome_bind].
  assert (Hle2 : (length (contents C2) ≤ length (contents C))%nat).
  { rewrite (rm_contents _ _ _ _ _ _ _ _ Hrm2), length_app. lia. }
  destruct (remove_loop_spec f n C F (F - n) HF (2 * length (nodes_ t1)) (n - F) n t2 C2 R2 Hrm2)
    as (t3 & C3 & R3 & E3 & Hrm3); [lia|lia| |lia|].
  { intros d Hd. unfold pos. split; [lia|]. cyc. }
  replace (n - F + (F - n)) with 0 in E3 by lia. replace (n + (F - n)) with F in E3 by lia.
  rewrite E3. cbn [mbind outcome_bind]. destruct Hrm3 as [Hl3 _ Hp3 Hc3 HR3].
  destruct (try_shrink_spec HashT sizeof_NodeT sizeof_pos n t3 C3 Hl3)
    as (n' & t' & C' & -> & Hwf' & Hc'). cbn [mbind outcome_bind].
  exists n', t', C', R3. split; [done|]. split; [done|]. rewrite Hc'. split; [done|]. split; [done|].
  apply Forall_forall. intros x (j & Hj & Hs)%contents_elem.
  rewrite (shaped_slots (loose_shaped _ _ sizeof_pos _ _ _ Hl3)) in Hj.
  apply (Hp3 j x Hj); [|done]. by apply dist_range.
Qed.

(** ** Building from a list

    The constructor counts the nodes on its own and sets the member at the end. *)
Lemma probe_with_used u t fuel k b : probe fuel (with_used u t) k b = probe fuel t k b.
Proof.
  revert b. induction fuel as [|fuel IH]; intros b; [done|]. cbn [probe].
  change (node_at (with_used u t) b) with (node_at t b).
  change (next_bucket (with_used u t) b) with (next_bucket t b).
  destruct (node_at t b) as [node|]; simpl; [|done]. destruct (node_empty node); [done|].
  destruct (node_key node); simpl; [|done]. case_bool_decide; [done|]. apply IH.
Qed.

Lemma from_nodes_step_spec n t C u node k v :
  wf n (with_used u t) C → holds node (Some (k, v)) → 5 * (u + 1) ≤ 3 * n + 1 →
  (k ∈ (contents C).*1 ∧ from_nodes_step HashT (t, u) node = Ok (t, u)) ∨
  (k ∉ (contents C).*1 ∧ ∃ t' C', from_nodes_step HashT (t, u) node = Ok (t', u + 1) ∧
     wf n (with_used (u + 1) t') C' ∧ contents C' ≡ₚ (k, v) :: contents C).
Proof.
  intros Hwf Hn Hload. pose proof (wf_shaped _ _ _ _ _ Hwf) as Hsh0.
  assert (Hsh : shaped n t C) by (destruct Hsh0; by split).
  pose proof (shaped_bounds Hsh) as Hb8. pose proof (wf_used _ _ _ _ _ Hwf) as Hu. simpl in Hu.
  unfold from_nodes_step. rewrite (holds_empty _ _ Hn). simpl.
  destruct (holds_key _ _ _ Hn) as [-> Hk0]. simpl.
  destruct (probe_key HashT sizeof_NodeT n (with_used u t) C k Hwf) as (b & e & E & Hb & Hp & Hres).
  rewrite probe_with_used in E. unfold calc_bucket in *. simpl in E. rewrite E. simpl.
  destruct e.
  - right. destruct Hres as [Hs Hnew]. split; [done|].
    destruct (node_at_slot Hsh b Hb) as (old & -> & Hold). rewrite Hs in Hold. simpl.
    destruct (holds_copy _ _ _ Hold Hn) as (new & -> & Hnew'). simpl.
    rewrite u32_small by (unfold two32; lia).
    exists (set_node b new t), (put b (Some (k, v)) C). split; [done|].
    assert (Hc : contents (put b (Some (k, v)) C) ≡ₚ (k, v) :: contents C).
    { apply contents_fill; [|done]. by rewrite (shaped_slots Hsh). }
    split; [|done]. destruct Hwf as [_ Hpr Hkeys _ _ Hmax Hbeg]. simpl in *. split; simpl; try done.
    + exact (shaped_with_used _ _ _ (u + 1) (shaped_set_node Hsh b new _ Hnew')).
    + apply probes_fill; try done; [apply (shaped_slots Hsh)|].
      intros j Hj Hd. destruct (Hp j Hj Hd) as (k' & v' & -> & _). done.
    + rewrite Hc. by constructor.
    + rewrite Hc. simpl. lia.
    + destruct Hbeg as [?|[Hb' Hs']]; [by left|right]. split; [done|].
      rewrite slot_put by (rewrite ?(shaped_slots Hsh); unfold pos in *; lia). by case_decide.
  - left. destruct Hres as (w & _ & Hin). split; [|done].
    apply list_elem_of_fmap. by exists (k, w).
Qed.

(** What the list leaves of an association list: the first value of every key. *)
Definition add_new (l : list (K * V)) (kv : K * V) : list (K * V) :=
  if decide (kv.1 ∈ l.*1) then l else kv :: l.

Lemma from_nodes_loop_spec n nodes kvs : Forall2 (λ node kv, holds node (Some kv)) nodes kvs →
  ∀ t C u l, wf n (with_used u t) C → contents C ≡ₚ l →
  5 * (u + Z.of_nat (length kvs)) ≤ 3 * n + 1 →
  ∃ t' C' u', ofold (from_nodes_step HashT) (t, u) nodes = Ok (t', u') ∧
    wf n (with_used u' t') C' ∧ contents C' ≡ₚ foldl add_new l kvs.
Proof.
  induction 1 as [|node [k v] nodes kvs Hn _ IH]; intros t C u l Hwf Hl Hload;
    cbn [ofold foldl length] in *.
  { by exists t, C, u. }
  unfold add_new at 2. cbn [fst].
  destruct (from_nodes_step_spec n t C u node k v Hwf Hn)
    as [[Hk ->]|(Hk & t1 & C1 & -> & Hwf1 & Hc1)]; [lia|..].
  - rewrite decide_True by by rewrite <-Hl. cbn [mbind outcome_bind]. eapply IH; [done|done|lia].
  - rewrite decide_False by by rewrite <-Hl. cbn [mbind outcome_bind].
    eapply IH; [exact Hwf1|by rewrite Hc1, Hl|lia].
Qed.

Lemma from_nodes_spec nodes kvs :
  Forall2 (λ node kv, holds node (Some kv)) nodes kvs → nodes ≠ [] →
  10 * Z.of_nat (length nodes) + 24 ≤ 3 * max_size sizeof_NodeT →
  ∃ n t C, from_nodes HashT sizeof_NodeT nodes = Ok t ∧ wf n t C ∧
    contents C ≡ₚ foldl add_new [] kvs.
Proof.
  intros Hn Hne Hfit. assert (Hlen : (0 < length nodes)%nat) by (destruct nodes; simpl; [done|lia]).
  unfold from_nodes. rewrite (proj2 (Nat.eqb_neq _ _)) by lia.
  destruct (reserve_null HashT sizeof_NodeT sizeof_pos (Z.of_nat (length nodes)))
    as (n & t & C & -> & Hwf & Hc & Hroom); [lia..|]. cbn [mbind outcome_bind].
  assert (Hwf0 : wf n (with_used 0 t) C).
  { pose proof (wf_used _ _ _ _ _ Hwf) as Hu. rewrite Hc in Hu. simpl in Hu.
    destruct t. simpl in Hu. by subst. }
  destruct (from_nodes_loop_spec n nodes kvs Hn t C 0 [] Hwf0) as (t' & C' & u' & -> & Hwf' & Hc').
  - by rewrite Hc.
  - apply Forall2_length in Hn. lia.
  - exists n, (with_used u' t'), C'. done.
Qed.
End remove.
