(* ===== verification/FlatHashMap.v ===== *)
(** * Hash tables are finite maps ([tdutils/td/utils/FlatHashMap.h], [FlatHashSet.h])

    The abstract specification of [FlatHashTable]: whatever the hash function and
    whatever kind of nodes, the operations are those of a finite map. *)
From S2P Require Import Prelude HashNode FlatHashTable LinearProbing FlatHashTableFacts FlatHashTableErase FlatHashTableOps FlatHashTableIter FlatHashTableRemove.

(** ** The specification *)

Section map_spec.
Context {K V : Type} `{!EqDecision K, !Countable K, !EmptyKey K}.
Context (sizeof_NodeT : Z).

(** The calls of a client. [random] is the number drawn by the call. *)
Inductive hash_op :=
  | Find (key : K)
  | Count (key : K)
  | Size
  | Emplace (key : K) (args : V)
  | Erase (key : K)
  | EraseFound (key : K)
  | Reserve (size : Z)
  | RemoveIf (random : Z) (f : K * V → bool)
  | Elements (random : Z)
  | Clear.

Inductive hash_result :=
  | Found (x : option (K * V))
  | Number (z : Z)
  | Emplaced (x : K * V) (is_new : bool)
  | Removed (is_removed : bool)
  | Listed (l : list (K * V))
  | Done.

(** The map after a call. *)
Definition map_next (m : gmap K V) (op : hash_op) : gmap K V :=
  match op with
  | Find _ | Count _ | Size | Reserve _ | Elements _ => m
  | Emplace k v => match m !! k with Some _ => m | None => <[k := v]> m end
  | Erase k | EraseFound k => delete k m
  | RemoveIf _ f => filter (λ kv, f kv = false) m
  | Clear => ∅
  end.

(** The results a call may have: one, except that the order of iteration is free. *)
Definition map_result (m : gmap K V) (op : hash_op) (r : hash_result) : Prop :=
  match op with
  | Find k => r = Found ((λ v, (k, v)) <$> m !! k)
  | Count k => r = Number (if decide (is_Some (m !! k)) then 1 else 0)
  | Size => r = Number (Z.of_nat (base.size m))
  | Emplace k v => r = Emplaced (k, default v (m !! k)) (bool_decide (m !! k = None))
  | Erase k => r = Number (if decide (is_Some (m !! k)) then 1 else 0)
  | EraseFound k => r = Done
  | Reserve _ | Clear => r = Done
  | RemoveIf _ f => r = Removed (bool_decide (map_Exists (λ k v, f (k, v) = true) m))
  | Elements _ => ∃ l, r = Listed l ∧ l ≡ₚ map_to_list m
  end.

(** What the table demands of a call: the empty key is not inserted, and there is room
    for a large enough array. *)
Definition fits (m : gmap K V) (op : hash_op) : Prop :=
  match op with
  | Emplace k _ => k ≠ KeyT0 ∧ 10 * Z.of_nat (base.size m) + 24 ≤ 3 * max_size sizeof_NodeT
  | Reserve size => 0 ≤ size ∧ 10 * size + 24 ≤ 3 * max_size sizeof_NodeT
  | _ => True
  end.

Fixpoint map_ops (m : gmap K V) (ops : list hash_op) (rs : list hash_result) : Prop :=
  match ops, rs with
  | [], [] => True
  | op :: ops, r :: rs => map_result m op r ∧ map_ops (map_next m op) ops rs
  | _, _ => False
  end.
Fixpoint all_fit (m : gmap K V) (ops : list hash_op) : Prop :=
  match ops with
  | [] => True
  | op :: ops => fits m op ∧ all_fit (map_next m op) ops
  end.
End map_spec.
Arguments hash_op : clear implicits.
Arguments hash_result : clear implicits.

(** ** The table runs the calls *)

Section run.
Context {K V N : Type} `{!EqDecision K, !EmptyKey K, !NodeOps K V N}.
Context (HashT : K → Z) (sizeof_NodeT : Z).
Notation table := (FlatHashTable N).

Definition run_op (op : hash_op K V) (t : table) : outcome (table * hash_result K V) :=
  match op with
  | Find k => x ← find HashT t k; Ok (t, Found x)
  | Count k => c ← count HashT t k; Ok (t, Number c)
  | Size => Ok (t, Number (size t))
  | Emplace k v =>
      '(t, b, is_new) ← emplace HashT sizeof_NodeT k v t;
      node ← node_at t b;
      x ← node_public node;
      Ok (t, Emplaced x is_new)
  | Erase k => '(t, c) ← erase HashT sizeof_NodeT k t; Ok (t, Number c)
  | EraseFound k =>
      (* [auto it = table.find(key); if (it != table.end()) table.erase(it);] *)
      p ← find_impl HashT t k;
      match p with
      | None => Ok (t, Done)
      | Some it => t ← erase_at HashT sizeof_NodeT it t; Ok (t, Done)
      end
  | Reserve size => t ← reserve HashT sizeof_NodeT size t; Ok (t, Done)
  | RemoveIf random f => '(t, r) ← remove_if HashT sizeof_NodeT random f t; Ok (t, Removed r)
  | Elements random => '(t, l) ← elements random t; Ok (t, Listed l)
  | Clear => Ok (clear t, Done)
  end.

Fixpoint run_ops (ops : list (hash_op K V)) (t : table) :
    outcome (table * list (hash_result K V)) :=
  match ops with
  | [] => Ok (t, [])
  | op :: ops => '(t, r) ← run_op op t; '(t, rs) ← run_ops ops t; Ok (t, r :: rs)
  end.
End run.

(** ** Refinement *)

Section refinement.
Context {K V N : Type} `{!EqDecision K, !Countable K, !EmptyKey K, !NodeOps K V N, !NodeSpec K V N}.
Context (HashT : K → Z) (sizeof_NodeT : Z).
Hypothesis sizeof_pos : 0 < sizeof_NodeT.
#[local] Set Default Proof Using "Type sizeof_pos".
Notation table := (FlatHashTable N).
Notation wf := (wf HashT sizeof_NodeT).
Implicit Types (t : table) (C : list (option (K * V))) (m : gmap K V).

(** The table [t] stands for the map [m]; the table without an array for the empty one. *)
Inductive represents : table → gmap K V → Prop :=
  | represents_none : represents mk_FlatHashTable ∅
  | represents_some n t C : wf n t C → represents t (list_to_map (contents C)).

Lemma represents_perm n t C m :
  wf n t C → list_to_map (contents C) = m → represents t m.
Proof. intros Hwf <-. by econstructor. Qed.

Lemma to_map_lookup n t C k v :
  wf n t C → (list_to_map (contents C) : gmap K V) !! k = Some v ↔ (k, v) ∈ contents C.
Proof. intros Hwf. symmetry. apply elem_of_list_to_map, (wf_keys _ _ _ _ _ Hwf). Qed.
Lemma to_map_none C k :
  (list_to_map (contents C) : gmap K V) !! k = None ↔ k ∉ (contents C).*1.
Proof. symmetry. apply not_elem_of_list_to_map. Qed.
Lemma to_map_size n t C :
  wf n t C → base.size (list_to_map (contents C) : gmap K V) = length (contents C).
Proof. intros Hwf. apply map_size_list_to_map, (wf_keys _ _ _ _ _ Hwf). Qed.
Lemma to_map_perm C C' l :
  NoDup (contents C).*1 → contents C ≡ₚ l →
  (list_to_map (contents C) : gmap K V) = list_to_map l.
Proof. intros Hk Hc. by apply list_to_map_proper. Qed.

Lemma represents_find t m k :
  represents t m →
  ∃ p, find_impl HashT t k = Ok p ∧
    match p with
    | Some b => ∃ v node, m !! k = Some v ∧ node_at t b = Ok node ∧ node_public node = Ok (k, v)
    | None => m !! k = None
    end.
Proof.
  intros [|n t' C Hwf]; [by exists None|].
  destruct (find_impl_spec HashT sizeof_NodeT n t' C k Hwf) as (p & E & Hp).
  exists p. split; [done|]. destruct p as [b|]; [|by apply to_map_none].
  destruct Hp as (v & Hb & Hs & Hin).
  destruct (node_at_slot (wf_shaped _ _ _ _ _ Hwf) b Hb) as (node & En & Hn). rewrite Hs in Hn.
  exists v, node. split; [by eapply to_map_lookup|]. split; [done|]. by apply holds_public.
Qed.

Lemma represents_emplace t m k v :
  represents t m → fits sizeof_NodeT m (Emplace k v) →
  ∃ t' b, emplace HashT sizeof_NodeT k v t = Ok (t', b, bool_decide (m !! k = None)) ∧
    represents t' (map_next m (Emplace k v)) ∧
    ∃ node, node_at t' b = Ok node ∧ node_public node = Ok (k, default v (m !! k)).
Proof.
  assert (Hins : ∀ n' t' C b, inserted HashT sizeof_NodeT n' t' C k v b →
    represents t' (<[k := v]> (list_to_map (contents C))) ∧
    ∃ node, node_at t' b = Ok node ∧ node_public node = Ok (k, v)).
  { intros n' t' C b (C' & Hwf & Hc & Hb & Hs). split.
    - eapply represents_perm; [done|]. rewrite <-list_to_map_cons.
      apply list_to_map_proper; [apply (wf_keys _ _ _ _ _ Hwf)|done].
    - destruct (node_at_slot (wf_shaped _ _ _ _ _ Hwf) b Hb) as (node & -> & Hn).
      rewrite Hs in Hn. exists node. split; [done|]. by apply holds_public. }
  intros [|n t' C Hwf] [Hk Hfit]; simpl.
  - destruct (emplace_first HashT sizeof_NodeT sizeof_pos k v Hk) as (t' & b & -> & Hi).
    { rewrite map_size_empty in Hfit. lia. }
    exists t', b. destruct (Hins _ _ _ _ Hi) as [Hr Hn]. done.
  - rewrite (to_map_size _ _ _ Hwf) in Hfit. pose proof (wf_used _ _ _ _ _ Hwf) as Hu.
    destruct (list_to_map (contents C) !! k) as [w|] eqn:E; simpl.
    + apply (to_map_lookup _ _ _ _ _ Hwf) in E as Hin.
      destruct (emplace_calls_found HashT sizeof_NodeT n t' C k v 1 w Hwf Hk Hin)
        as (b & Eb & Hb & Hs).
      exists t', b. split; [exact Eb|]. split; [by econstructor|].
      destruct (node_at_slot (wf_shaped _ _ _ _ _ Hwf) b Hb) as (node & -> & Hn).
      rewrite Hs in Hn. exists node. split; [done|]. by apply holds_public.
    + apply to_map_none in E as Hnew.
      destruct (emplace_calls_new HashT sizeof_NodeT sizeof_pos n t' C k v 0 Hwf Hk Hnew)
        as (n' & t1 & b & Eb & Hi); [lia|].
      exists t1, b. destruct (Hins _ _ _ _ Hi) as [Hr Hn]. split; [exact Eb|]. done.
Qed.

Lemma to_map_delete C C' k v :
  NoDup (contents C).*1 → contents C ≡ₚ (k, v) :: contents C' →
  (list_to_map (contents C') : gmap K V) = delete k (list_to_map (contents C)).
Proof.
  intros Hk Hc. rewrite (to_map_perm C C' _ Hk Hc), list_to_map_cons.
  rewrite Hc in Hk. apply NoDup_cons in Hk as [Hk _].
  rewrite delete_insert_id; [done|]. by apply to_map_none.
Qed.

Lemma represents_erase t m k :
  represents t m →
  ∃ t', erase HashT sizeof_NodeT k t = Ok (t', if decide (is_Some (m !! k)) then 1 else 0) ∧
    represents t' (delete k m).
Proof.
  intros [|n t' C Hwf].
  - exists mk_FlatHashTable. split; [done|]. rewrite delete_empty. constructor.
  - destruct (table_erase_spec HashT sizeof_NodeT sizeof_pos n t' C k Hwf)
      as [[Hk ->]|(n' & t1 & C1 & v & -> & Hwf1 & Hc)].
    + apply to_map_none in Hk. exists t'. rewrite decide_False by (rewrite Hk; by intros []).
      split; [done|]. rewrite delete_id by done. by econstructor.
    + exists t1. pose proof (wf_keys _ _ _ _ _ Hwf) as Hkeys. rewrite decide_True.
      2:{ exists v. apply (to_map_lookup _ _ _ _ _ Hwf). rewrite Hc. by left. }
      split; [done|]. eapply represents_perm; [done|]. by eapply to_map_delete.
Qed.

Lemma represents_remove_if t m random f :
  represents t m →
  ∃ t', remove_if HashT sizeof_NodeT random f t =
          Ok (t', bool_decide (map_Exists (λ k v, f (k, v) = true) m)) ∧
    represents t' (filter (λ kv, f kv = false) m).
Proof.
  intros [|n t' C Hwf].
  - exists mk_FlatHashTable. rewrite map_filter_empty. split; [|constructor].
    by rewrite bool_decide_false by (intros (k & v & [=] & _)).
  - destruct (remove_if_spec HashT sizeof_NodeT sizeof_pos n t' C f random Hwf)
      as (n' & t1 & C1 & R & -> & Hwf1 & Hc & HR & HC). exists t1.
    rewrite Forall_forall in HR, HC. split.
    + do 2 f_equal. unfold used_flag. rewrite <-bool_decide_not. apply bool_decide_ext. split.
      * destruct R as [|[k v] R]; [done|]. intros _. exists k, v. split; [|apply HR; by left].
        apply (to_map_lookup _ _ _ _ _ Hwf). rewrite Hc. by left.
      * intros (k & v & Hin & Hf) ->. apply (to_map_lookup _ _ _ _ _ Hwf) in Hin.
        rewrite Hc in Hin. simpl in Hin. apply HC in Hin. congruence.
    + eapply represents_perm; [done|]. apply map_eq. intros k. apply option_eq. intros v.
      rewrite map_lookup_filter_Some, (to_map_lookup _ _ _ _ _ Hwf), (to_map_lookup _ _ _ _ _ Hwf1).
      rewrite Hc, elem_of_app. split.
      * intros Hin. split; [by right|by apply HC].
      * intros [[Hin|Hin] Hf]; [|done]. apply HR in Hin. congruence.
Qed.

Lemma represents_elements t m random :
  represents t m →
  ∃ t' l, elements random t = Ok (t', l) ∧ represents t' m ∧ l ≡ₚ map_to_list m.
Proof.
  intros [|n t' C Hwf].
  - exists mk_FlatHashTable, []. rewrite map_to_list_empty. split; [done|]. split; [constructor|done].
  - destruct (elements_spec HashT sizeof_NodeT sizeof_pos n t' C random Hwf)
      as (t1 & l & -> & Hwf1 & Hl). exists t1, l. split; [done|]. split; [by econstructor|].
    rewrite Hl. symmetry. apply map_to_list_to_map, (wf_keys _ _ _ _ _ Hwf).
Qed.

Lemma represents_size t m : represents t m → FlatHashTable.size t = Z.of_nat (base.size m).
Proof.
  intros [|n t' C Hwf]; [done|]. rewrite (to_map_size _ _ _ Hwf). apply (wf_used _ _ _ _ _ Hwf).
Qed.

Lemma represents_reserve t m n :
  represents t m → fits sizeof_NodeT m (Reserve n) →
  ∃ t', reserve HashT sizeof_NodeT n t = Ok t' ∧ represents t' m.
Proof.
  intros [|b t' C Hwf] [Hn Hfit].
  - destruct (decide (n = 0)) as [->|Hn0]; [by exists mk_FlatHashTable; split; [|constructor]|].
    destruct (reserve_null HashT sizeof_NodeT sizeof_pos n) as (b & t1 & C & -> & Hwf & Hc & _);
      [lia..|].
    exists t1. split; [done|]. eapply represents_perm; [done|]. by rewrite Hc.
  - destruct (reserve_wf HashT sizeof_NodeT sizeof_pos b t' C n Hwf Hn Hfit)
      as (b' & t1 & C1 & -> & Hwf1 & Hc).
    exists t1. split; [done|]. eapply represents_perm; [done|].
    apply list_to_map_proper; [apply (wf_keys _ _ _ _ _ Hwf1)|done].
Qed.

Lemma represents_erase_found t m k :
  represents t m →
  ∃ t', run_op HashT sizeof_NodeT (EraseFound k) t = Ok (t', Done) ∧ represents t' (delete k m).
Proof.
  intros Hr. destruct (represents_find t m k Hr) as (p & E & Hp).
  destruct (represents_erase t m k Hr) as (t' & Ee & Hr').
  simpl. unfold erase in Ee. rewrite E in *. simpl in *. destruct p as [b|].
  - unfold erase_at. destruct (erase_node HashT b t); simpl in *; [|done].
    destruct (try_shrink HashT sizeof_NodeT _); simpl in *; [|done]. simplify_eq. eauto.
  - simplify_eq. eauto.
Qed.

Lemma run_hash_op_spec t m op :
  represents t m → fits sizeof_NodeT m op →
  ∃ t' r, run_op HashT sizeof_NodeT op t = Ok (t', r) ∧ map_result m op r ∧
    represents t' (map_next m op).
Proof.
  intros Hr Hfit. destruct op as [k|k| |k v|k|k|n|random f|random|].
  - destruct (represents_find t m k Hr) as (p & E & Hp). simpl. unfold find. rewrite E. simpl.
    destruct p as [b|]; [|rewrite Hp; eauto].
    destruct Hp as (v & node & -> & -> & En). simpl. rewrite En. simpl. eauto.
  - destruct (represents_find t m k Hr) as (p & E & Hp). simpl. unfold count. rewrite E. simpl.
    eexists _, _. split; [done|]. split; [|done]. f_equal. destruct p as [b|].
    + destruct Hp as (v & _ & -> & _). rewrite decide_True; eauto.
    + rewrite Hp, decide_False; [done|]. by intros [].
  - simpl. eexists _, _. split; [done|]. split; [|done]. by rewrite (represents_size t m Hr).
  - destruct (represents_emplace t m k v Hr Hfit) as (t' & b & E & Hr' & node & En & Ep).
    cbn [run_op]. rewrite E. cbn [mbind outcome_bind]. rewrite En. cbn [mbind outcome_bind].
    rewrite Ep. simpl. eauto.
  - destruct (represents_erase t m k Hr) as (t' & E & Hr'). simpl. rewrite E. simpl. eauto.
  - destruct (represents_erase_found t m k Hr) as (t' & E & Hr'). by exists t', Done.
  - destruct (represents_reserve t m n Hr Hfit) as (t' & E & Hr'). simpl. rewrite E. simpl. eauto.
  - destruct (represents_remove_if t m random f Hr) as (t' & E & Hr'). simpl. rewrite E. simpl. eauto.
  - destruct (represents_elements t m random Hr) as (t' & l & E & Hr' & Hl). simpl. rewrite E. simpl.
    eauto 10.
  - simpl. eexists _, _. split; [done|]. split; [done|].
    unfold clear. destruct Hr as [|n t C Hwf]; [constructor|].
    rewrite (nodes_nonnull (wf_shaped _ _ _ _ _ Hwf)). constructor.
Qed.
End refinement.

(** C14. Whatever calls that fit are made on a new table, with whatever hash function and
    random numbers and for all four kinds of nodes. A call fits ([fits]) unless it
    emplaces the empty key, which a check refuses, or asks for more room than
    there is: [emplace] needs [10 * size + 24 <= 3 * max_size], and [reserve] the same
    of the size it is given; every other call fits. Then no check fails and nothing is undefined, every
    loop ends, and the results are those of a finite map; iteration meets every element
    once. *)
Theorem hash_table_refines_map {K V N : Type} `{!EqDecision K, !Countable K, !EmptyKey K,
    !NodeOps K V N, !NodeSpec K V N} (HashT : K → Z) (sizeof_NodeT : Z)
    (ops : list (hash_op K V)) :
  0 < sizeof_NodeT → all_fit sizeof_NodeT ∅ ops →
  ∃ (t : FlatHashTable N) rs,
    run_ops HashT sizeof_NodeT ops mk_FlatHashTable = Ok (t, rs) ∧ map_ops ∅ ops rs.
Proof.
  intros Hpos. assert (Hr : represents HashT sizeof_NodeT (mk_FlatHashTable : FlatHashTable N) ∅)
    by constructor.
  revert Hr. generalize (mk_FlatHashTable : FlatHashTable N) as t, (∅ : gmap K V) as m.
  induction ops as [|op ops IH]; intros t m Hr Hfit; simpl; [by exists t, []|].
  destruct Hfit as [Hop Hops].
  destruct (run_hash_op_spec HashT sizeof_NodeT Hpos t m op Hr Hop) as (t1 & r & -> & Hres & Hr1). simpl.
  destruct (IH t1 (map_next m op) Hr1 Hops) as (t2 & rs & -> & Hrs). by exists t2, (r :: rs).
Qed.

(** A map from numbers to numbers, that grows twice and shrinks. *)
#[local] Instance int_key : EmptyKey Z := 0.
Definition example_ops : list (hash_op Z Z) :=
  Find 1 :: Count 0 ::
  ((λ k, Emplace k (10 * k)) <$> seqZ 1 12) ++
  [Emplace 5 0; Find 5; Find 13; Erase 7; Erase 7; EraseFound 2; Size; Reserve 20;
   Elements 3; RemoveIf 11 (λ kv, 3 <? kv.1); Count 3; Count 4; Elements 2; Clear; Size].

Example example_ops_results :
  snd <$> run_ops (N := MapNode.MapNode Z Z) Hash_int32 16 example_ops mk_FlatHashTable =
  Ok (Found None :: Number 0 ::
      ((λ k, Emplaced (k, 10 * k) true) <$> seqZ 1 12) ++
      [Emplaced (5, 50) false; Found (Some (5, 50)); Found None; Number 1; Number 0; Done;
       Number 10; Done;
       Listed [(11, 110); (4, 40); (6, 60); (8, 80); (5, 50); (10, 100); (9, 90); (3, 30);
               (12, 120); (1, 10)];
       Removed true; Number 1; Number 0; Listed [(3, 30); (1, 10)]; Done; Number 0]).
Proof. vm_compute. reflexivity. Qed.

Lemma hash_table_refines_map_witness :
  ∃ (t : FlatHashTable (BoxedMapNode.MapNode Z Z)) rs,
    run_ops Hash_int32 16 example_ops mk_FlatHashTable = Ok (t, rs) ∧ map_ops ∅ example_ops rs.
Proof.
  apply hash_table_refines_map; [lia|]. vm_compute. repeat split; discriminate.
Defined.
