(* ===== verification/OrderedEvents.v ===== *)
(** * Events in order ([tdutils/td/utils/OrderedEventsProcessor.h], [ChangesProcessor.h],
    [td/telegram/PtsManager.h])

    [OrderedEventsProcessor] takes numbered events in any order and processes them in the
    order of their numbers. [ChangesProcessor] numbers changes itself, and processes them
    in that order when they and all before them are finished; [PtsManager] tells by it up
    to which point updates have been saved. *)
From S2P Require Import Prelude.

(** ** [OrderedEventsProcessor] *)

Section ordered.
Context {D : Type} `{!Inhabited D}.

Record OrderedEventsProcessor := {
  offset_ : Z;
  begin_ : Z;
  end_ : Z;
  data_array_ : list (D * bool)
}.

Definition mk_OrderedEventsProcessor (offset : Z) : OrderedEventsProcessor :=
  {| offset_ := offset; begin_ := offset; end_ := offset; data_array_ := [] |}.

(** [clear]: the events that were waiting. *)
Definition clear (p : OrderedEventsProcessor) : OrderedEventsProcessor * list D :=
  (mk_OrderedEventsProcessor 1, (filter (λ it, Is_true it.2) (data_array_ p)).*1).

(** The loop over the events that waited; it makes at most [end_ - begin_] turns. The
    calls of [function] are returned. *)
Fixpoint run_waiting (turns : nat) (p : OrderedEventsProcessor) :
    outcome (OrderedEventsProcessor * list (Z * D)) :=
  match turns with
  | O => Ok (p, [])
  | S turns =>
      if begin_ p <? end_ p then
        let pos := u64 (begin_ p - offset_ p) in
        data_flag ← deref (data_array_ p !! Z.to_nat pos);
        if negb data_flag.2 then Ok (p, [])
        else
          let p' := {| offset_ := offset_ p; begin_ := u64 (begin_ p + 1); end_ := end_ p;
                       data_array_ := <[Z.to_nat pos := (data_flag.1, false)]> (data_array_ p) |} in
          '(p', calls) ← run_waiting turns p';
          Ok (p', (begin_ p, data_flag.1) :: calls)
      else Ok (p, [])
  end.

Definition try_compactify (p : OrderedEventsProcessor) : outcome OrderedEventsProcessor :=
  let begin_pos := u64 (begin_ p - offset_ p) in
  if (5 <? begin_pos) && (Z.of_nat (length (data_array_ p)) <? u64 (begin_pos * 2)) then
    if Z.of_nat (length (data_array_ p)) <? begin_pos then ub
    else Ok {| offset_ := begin_ p; begin_ := begin_ p; end_ := end_ p;
               data_array_ := drop (Z.to_nat begin_pos) (data_array_ p) |}
  else Ok p.

(** [vector::resize] *)
Definition resize (n : nat) (l : list (D * bool)) : list (D * bool) :=
  l ++ replicate (n - length l) (inhabitant, false).

Definition add (seq_no : Z) (data : D) (p : OrderedEventsProcessor) :
    outcome (OrderedEventsProcessor * list (Z * D)) :=
  _ ← cassert (begin_ p <=? seq_no);
  if seq_no =? begin_ p then
    let p := {| offset_ := offset_ p; begin_ := u64 (begin_ p + 1); end_ := end_ p;
                data_array_ := data_array_ p |} in
    '(p, calls) ← run_waiting (Z.to_nat (end_ p - begin_ p)) p;
    let end' := if end_ p <? begin_ p then begin_ p else end_ p in
    let offset' := if begin_ p =? end' then begin_ p else offset_ p in
    p ← try_compactify {| offset_ := offset'; begin_ := begin_ p; end_ := end';
                          data_array_ := data_array_ p |};
    Ok (p, (seq_no, data) :: calls)
  else
    let pos := u64 (seq_no - offset_ p) in
    let need_size := u64 (pos + 1) in
    let array := if Z.of_nat (length (data_array_ p)) <? need_size
                 then resize (Z.to_nat need_size) (data_array_ p) else data_array_ p in
    _ ← deref (array !! Z.to_nat pos);
    let array := <[Z.to_nat pos := (data, true)]> array in
    let end' := if end_ p <? u64 (seq_no + 1) then u64 (seq_no + 1) else end_ p in
    Ok ({| offset_ := offset_ p; begin_ := begin_ p; end_ := end'; data_array_ := array |}, []).

Definition has_events (p : OrderedEventsProcessor) : bool := negb (begin_ p =? end_ p).
Definition max_unfinished_seq_no (p : OrderedEventsProcessor) : Z := u64 (end_ p - 1).
Definition max_finished_seq_no (p : OrderedEventsProcessor) : Z := u64 (begin_ p - 1).

Fixpoint add_all (l : list (Z * D)) (p : OrderedEventsProcessor) :
    outcome (OrderedEventsProcessor * list (Z * D)) :=
  match l with
  | [] => Ok (p, [])
  | (seq_no, data) :: l =>
      '(p, calls) ← add seq_no data p;
      '(p, calls') ← add_all l p;
      Ok (p, calls ++ calls')
  end.

(** *** The events that wait, as a finite map *)

(** Everything before [next] is processed, and the events of [m] are in the array. *)
Record waiting (p : OrderedEventsProcessor) (next : Z) (m : gmap Z D) : Prop := {
  wt_next : begin_ p = next;
  wt_range : 0 ≤ offset_ p ≤ next ∧ next ≤ end_ p + 1 ∧ offset_ p ≤ end_ p;
  wt_max : next < two64 ∧ end_ p < two64;
  wt_size : next < end_ p → end_ p - offset_ p ≤ Z.of_nat (length (data_array_ p));
  wt_flag i d : data_array_ p !! i = Some (d, true) → m !! (offset_ p + Z.of_nat i) = Some d;
  wt_waiting n d : m !! n = Some d → next ≤ n < end_ p ∧
    data_array_ p !! Z.to_nat (n - offset_ p) = Some (d, true)
}.
(** Between calls the next event is not there. *)
Record ordered (p : OrderedEventsProcessor) (next : Z) (m : gmap Z D) : Prop := {
  or_waiting : waiting p next m;
  or_end : next ≤ end_ p;
  or_idle : next = end_ p → offset_ p = next;
  or_missing : m !! next = None
}.

(** [calls] is the run of events from [next] on in [m], and [m'] is what is left. *)
Record drained (next : Z) (m : gmap Z D) (next' : Z) (m' : gmap Z D) (calls : list (Z * D)) : Prop := {
  dr_next : next' = next + Z.of_nat (length calls);
  dr_calls : calls.*1 = seqZ next (Z.of_nat (length calls));
  dr_data n d : (n, d) ∈ calls → m !! n = Some d;
  dr_rest n d : m' !! n = Some d ↔ next' ≤ n ∧ m !! n = Some d;
  dr_end : m' !! next' = None
}.

Lemma seqZ_cons' a n : 0 ≤ n → seqZ a (Z.succ n) = a :: seqZ (a + 1) n.
Proof. intros Hn. rewrite seqZ_cons by lia. do 2 f_equal; lia. Qed.

Lemma drained_stop next m :
  (∀ n d, m !! n = Some d → next ≤ n) → m !! next = None → drained next m next m [].
Proof.
  intros Hm Hn. split; try done; [simpl; lia|set_solver|]. naive_solver.
Qed.
Lemma drained_step next d m next' m' calls :
  (∀ n d, m !! n = Some d → next ≤ n) → m !! next = Some d →
  drained (next + 1) (delete next m) next' m' calls →
  drained next m next' m' ((next, d) :: calls).
Proof.
  intros Hm Hn [Hd1 Hd2 Hd3 Hd4 Hd5]. split.
  - simpl. lia.
  - cbn [length]. by rewrite fmap_cons, Hd2, Nat2Z.inj_succ, seqZ_cons' by lia.
  - intros n d' [[= -> ->]|Hin]%elem_of_cons; [done|]. apply Hd3 in Hin.
    by apply lookup_delete_Some in Hin as [_ ?].
  - intros n d'. rewrite Hd4, lookup_delete_Some. split; [naive_solver|].
    intros [? ?]. split; [done|]. split; [lia|done].
  - done.
Qed.

Lemma run_waiting_spec turns : ∀ p next m,
  waiting p next m → end_ p - next ≤ Z.of_nat turns →
  ∃ p' next' m' calls, run_waiting turns p = Ok (p', calls) ∧ waiting p' next' m' ∧
    drained next m next' m' calls ∧ offset_ p' = offset_ p ∧ end_ p' = end_ p ∧
    length (data_array_ p') = length (data_array_ p).
Proof.
  induction turns as [|turns IH]; intros p next m Hw Hf; cbn [run_waiting].
  { exists p, next, m, []. split; [done|]. split; [done|]. split; [|done].
    destruct Hw. apply drained_stop; [naive_solver|].
    destruct (m !! next) eqn:E; [|done]. apply wt_waiting0 in E. lia. }
  destruct Hw as [Hn Hr Hmax Hs Hfl Hwt]. rewrite Hn.
  assert (Hge : ∀ n d, m !! n = Some d → next ≤ n) by naive_solver.
  destruct (Z.ltb_spec next (end_ p)) as [Hlt|Hge'].
  2:{ exists p, next, m, []. do 2 (split; [done|]). split; [|done].
      apply drained_stop; [done|]. destruct (m !! next) eqn:E; [|done]. apply Hwt in E. lia. }
  rewrite (u64_small (next - _)), (u64_small (next + 1)) by lia.
  destruct (lookup_lt_is_Some_2 (data_array_ p) (Z.to_nat (next - offset_ p))) as [[d b] Hd]; [lia|].
  rewrite Hd. simpl. destruct b; simpl.
  - apply Hfl in Hd as Hm. replace (offset_ p + Z.of_nat (Z.to_nat (next - offset_ p))) with next in Hm by lia.
    set (p1 := {| offset_ := offset_ p; begin_ := next + 1; end_ := end_ p; data_array_ := _ |}).
    destruct (IH p1 (next + 1) (delete next m)) as (p' & next' & m' & calls & -> & Hw' & Hdr & Ho & He & Hl).
    + split; simpl; [done|lia|lia|rewrite length_insert; lia| |].
      * intros i d' [(_ & [=] & _)|[Hne Hi]]%list_lookup_insert_Some. apply Hfl in Hi as Hi'.
        rewrite lookup_delete_ne by lia. done.
      * intros n d' [Hne Hm']%lookup_delete_Some. apply Hwt in Hm' as [Hn1 Hn2].
        split; [lia|]. rewrite list_lookup_insert_ne by lia. done.
    + simpl. lia.
    + simpl. exists p', next', m', ((next, d) :: calls). split; [done|]. split; [done|].
      split; [by apply drained_step|]. split; [done|]. split; [done|].
      rewrite Hl. simpl. by rewrite length_insert.
  - exists p, next, m, []. do 2 (split; [done|]). split; [|done].
    apply drained_stop; [done|]. destruct (m !! next) eqn:E; [|done].
    apply Hwt in E as [_ E]. congruence.
Qed.

Lemma try_compactify_spec p next m :
  ordered p next m → ∃ p', try_compactify p = Ok p' ∧ ordered p' next m.
Proof.
  intros Hor. destruct (Hor) as [[Hn Hr Hmax Hs Hfl Hwt] He Hi Hm]. unfold try_compactify.
  rewrite Hn, (u64_small (next - offset_ p)) by lia.
  destruct (Z.ltb_spec 5 (next - offset_ p)) as [Hbig|]; simpl; [|by eauto].
  destruct (Z.ltb_spec (Z.of_nat (length (data_array_ p))) (u64 ((next - offset_ p) * 2))); [|by eauto].
  assert (next ≠ end_ p) by lia. if_false.
  eexists; split; [done|]. split; [|done|done|done].
  split; simpl; [done|lia|lia|rewrite length_drop; lia| |].
  - intros i d Hd. rewrite lookup_drop in Hd. apply Hfl in Hd. rewrite <-Hd. f_equal. lia.
  - intros n d Hnd. apply Hwt in Hnd as [Hn1 Hn2]. split; [done|].
    rewrite lookup_drop, <-Hn2. f_equal. lia.
Qed.

(** One call: an event that is next is processed with the run behind it; another waits. *)
Lemma add_spec p next m seq_no data :
  ordered p next m → next ≤ seq_no < two64 - 1 →
  ∃ p' next' m' calls, add seq_no data p = Ok (p', calls) ∧ ordered p' next' m' ∧
    drained next (<[seq_no := data]> m) next' m' calls.
Proof.
  intros [[Hn Hr Hmax Hs Hfl Hwt] He Hi Hm] Hseq. unfold add. rewrite Hn. if_true. simpl.
  assert (Hge : ∀ n d, <[seq_no:=data]> m !! n = Some d → next ≤ n).
  { intros n d [[-> _]|[_ Hnd]]%lookup_insert_Some; [lia|]. apply Hwt in Hnd. lia. }
  destruct (Z.eqb_spec seq_no next) as [->|Hne].
  - rewrite u64_small by lia.
    set (p1 := {| offset_ := offset_ p; begin_ := next + 1; end_ := end_ p; data_array_ := _ |}).
    destruct (run_waiting_spec (Z.to_nat (end_ p - (next + 1))) p1 (next + 1) m)
      as (p2 & next' & m' & calls & -> & Hw & Hdr & Ho & Heq & Hl).
    + split; simpl; [done|lia|lia|lia|done|]. intros n d Hnd. assert (n ≠ next) by congruence.
      apply Hwt in Hnd as [? ?]. split; [lia|done].
    + simpl. lia.
    + cbn [mbind outcome_bind].
      set (p3 := {| offset_ := _; begin_ := _; end_ := _; data_array_ := _ |}).
      destruct (try_compactify_spec p3 next' m') as (p4 & -> & Hor).
      * destruct Hw as [Hn' Hr' Hmax' Hs' Hfl' Hwt']. unfold p3. clear p3. rewrite Hn'.
        destruct (Z.ltb_spec (end_ p2) next') as [Hlt|Hge2].
        -- rewrite Z.eqb_refl. assert (m' = ∅) as ->.
           { apply map_eq. intros n. rewrite lookup_empty. destruct (m' !! n) eqn:E; [|done].
             apply Hwt' in E. lia. }
           split; simpl; [|lia|done|done]. split; simpl; [done|lia|lia|lia| |done].
           intros i d Hid. apply Hfl' in Hid. done.
        -- destruct (Z.eqb_spec next' (end_ p2)) as [Hend|Hne2].
           ++ assert (m' = ∅) as ->.
              { apply map_eq. intros n. rewrite lookup_empty. destruct (m' !! n) eqn:E; [|done].
                apply Hwt' in E. lia. }
              split; simpl; [|lia|done|done]. split; simpl; [done|lia|lia|lia| |done].
              intros i d Hid. apply Hfl' in Hid. done.
           ++ split; simpl; [|lia|lia|apply Hdr]. by split.
      * simpl. exists p4, next', m', ((next, data) :: calls). split; [done|]. split; [done|].
        apply drained_step; [done|by rewrite lookup_insert_eq|].
        rewrite delete_insert_id by done. done.
  - rewrite (u64_small (seq_no - _)), (u64_small (seq_no - offset_ p + 1)), (u64_small (seq_no + 1)) by lia.
    assert (∃ pos, pos = Z.to_nat (seq_no - offset_ p)) as [pos Hpos] by eauto. rewrite <-Hpos.
    set (array := if Z.of_nat (length (data_array_ p)) <? seq_no - offset_ p + 1
                  then resize (Z.to_nat (seq_no - offset_ p + 1)) (data_array_ p)
                  else data_array_ p).
    assert (Hlen : (pos < length array)%nat ∧ (length (data_array_ p) ≤ length array)%nat).
    { unfold array, resize. destruct (Z.ltb_spec (Z.of_nat (length (data_array_ p))) (seq_no - offset_ p + 1)).
      - rewrite length_app, length_replicate. lia.
      - lia. }
    assert (Harr : ∀ i d, array !! i = Some (d, true) ↔ data_array_ p !! i = Some (d, true)).
    { intros i d. unfold array, resize. case_match; [|done]. rewrite lookup_app.
      destruct (data_array_ p !! i) eqn:E; [done|]. rewrite lookup_replicate. naive_solver. }
    destruct (lookup_lt_is_Some_2 array pos) as [x ->]; [lia|]. simpl.
    eexists _, next, (<[seq_no := data]> m), []. split; [done|].
    assert (Hend : (if end_ p <? seq_no + 1 then seq_no + 1 else end_ p) = Z.max (end_ p) (seq_no + 1)).
    { destruct (Z.ltb_spec (end_ p) (seq_no + 1)); lia. }
    rewrite Hend. split.
    + split; simpl; [|lia|lia|by rewrite lookup_insert_ne].
      split; simpl; [done|lia|lia| | |].
      * intros _. rewrite length_insert. destruct (Z.le_gt_cases (end_ p) next).
        -- assert (next = end_ p) as E by lia. specialize (Hi E). lia.
        -- lia.
      * intros i d [(<- & [= <-] & _)|[Hne' Hid]]%list_lookup_insert_Some.
        -- rewrite lookup_insert_Some. left. split; [lia|done].
        -- apply Harr, Hfl in Hid. rewrite lookup_insert_ne; [done|]. lia.
      * intros n d [[<- <-]|[Hne' Hnd]]%lookup_insert_Some.
        -- split; [lia|]. rewrite <-Hpos. by rewrite list_lookup_insert_eq by apply Hlen.
        -- apply Hwt in Hnd as [Hn1 Hn2]. split; [lia|].
           rewrite list_lookup_insert_ne by lia. by apply Harr.
    + apply drained_stop; [done|]. by rewrite lookup_insert_ne.
Qed.

(** How far the events reach. *)
Lemma run_waiting_end turns : ∀ p p' calls, run_waiting turns p = Ok (p', calls) → end_ p' = end_ p.
Proof.
  induction turns as [|turns IH]; intros p p' calls; cbn [run_waiting]; [by intros [= <- _]|].
  case_match; [|by intros [= <- _]]. intros (x & _ & E)%bind_Ok. case_match; [by injection E as <- _|].
  apply bind_Ok in E as ([p2 calls2] & E & [= <- _]). by apply IH in E.
Qed.
Lemma try_compactify_end p p' : try_compactify p = Ok p' → end_ p' = end_ p ∧ begin_ p' = begin_ p.
Proof. unfold try_compactify. repeat case_match; by intros [= <-]. Qed.
Lemma add_end seq_no data p p' calls : add seq_no data p = Ok (p', calls) →
  end_ p' = end_ p ∨ end_ p' = begin_ p' ∨ end_ p' = u64 (seq_no + 1).
Proof.
  unfold add. intros (? & _ & E)%bind_Ok. destruct (seq_no =? begin_ p).
  - apply bind_Ok in E as ([p1 calls1] & E1%run_waiting_end & E). cbn in E1.
    apply bind_Ok in E as (p2 & [E2 E3]%try_compactify_end & [= <- _]). cbn in E2, E3. rewrite E2, E3.
    case_match; [by right; left|by left].
  - apply bind_Ok in E as (? & _ & [= <- _]). cbn. case_match; [by right; right|by left].
Qed.

Lemma add_all_spec l : ∀ p next m,
  ordered p next m → NoDup l.*1 → (∀ n, n ∈ l.*1 → next ≤ n < two64 - 1 ∧ m !! n = None) →
  ∃ p' next' m' calls, add_all l p = Ok (p', calls) ∧ ordered p' next' m' ∧
    next' = next + Z.of_nat (length calls) ∧
    calls.*1 = seqZ next (Z.of_nat (length calls)) ∧
    (∀ n d, (n, d) ∈ calls → (n, d) ∈ l ∨ m !! n = Some d) ∧
    (∀ n d, m' !! n = Some d ↔ next' ≤ n ∧ ((n, d) ∈ l ∨ m !! n = Some d)).
Proof.
  induction l as [|[seq_no data] l IH]; intros p next m Hor Hnd Hl.
  { exists p, next, m, []. split; [done|]. split; [done|]. split; [simpl; lia|].
    split; [done|]. split; [set_solver|]. intros n d. split; [|set_solver].
    intros Hm. destruct Hor as [[] _ _ _]. apply wt_waiting0 in Hm as Hn. split; [lia|by right]. }
  cbn [add_all]. rewrite fmap_cons in Hnd, Hl. simpl in Hnd, Hl. apply NoDup_cons in Hnd as [Hnew Hnd].
  destruct (Hl seq_no) as [Hseq Hm]; [by left|].
  destruct (add_spec p next m seq_no data Hor Hseq) as (p1 & n1 & m1 & c1 & -> & Hor1 & Hdr).
  destruct Hdr as [Hn1 Hc1 Hd1 Hr1 He1]. cbn [mbind outcome_bind].
  destruct (IH p1 n1 m1 Hor1 Hnd) as (p2 & n2 & m2 & c2 & -> & Hor2 & Hn2 & Hc2 & Hd2 & Hr2).
  { intros n Hn. destruct (Hl n) as [Hn' Hmn]; [by right|].
    assert (n ≠ seq_no) by congruence.
    assert (Hi : <[seq_no := data]> m !! n = None) by by rewrite lookup_insert_ne.
    split.
    - destruct (Z.le_gt_cases n1 n) as [?|Hlt]; [lia|]. exfalso.
      assert (n ∈ c1.*1) as ((n' & d) & Heq & Hin)%list_elem_of_fmap.
      { rewrite Hc1. apply elem_of_seqZ. lia. }
      simpl in Heq. subst n'. apply Hd1 in Hin. congruence.
    - destruct (m1 !! n) as [d|] eqn:E; [|done]. apply Hr1 in E as [_ E]. congruence. }
  simpl. exists p2, n2, m2, (c1 ++ c2). split; [done|]. split; [done|].
  rewrite length_app, Nat2Z.inj_add. split; [lia|]. split; [|split].
  - rewrite fmap_app, Hc1, Hc2, Hn1, seqZ_app by lia. done.
  - assert (Hone : ∀ n d, <[seq_no := data]> m !! n = Some d → (n, d) ∈ (seq_no, data) :: l ∨ m !! n = Some d).
    { intros n d [[<- <-]|[_ ?]]%lookup_insert_Some; [left; by left|by right]. }
    intros n d [Hin|Hin]%elem_of_app; [by apply Hone, Hd1|].
    destruct (Hd2 n d Hin) as [?|E]; [left; by right|]. apply Hr1 in E as [_ E]. by apply Hone.
  - intros n d. rewrite Hr2, Hr1, elem_of_cons. rewrite lookup_insert_Some.
    split; [naive_solver|]. intros [Hle [[[= -> ->]|Hin]|Hmn]].
    + split; [done|]. right. split; [lia|]. by left.
    + split; [done|by left].
    + split; [done|]. right. split; [lia|]. right. split; [congruence|done].
Qed.
End ordered.
Arguments OrderedEventsProcessor : clear implicits.

(** C22. Events with different numbers, from the processor's offset on and below
    [2^64 - 1], added in any order: no check fails, the calls come
    in the order of the numbers without a gap, each with its own event, and everything is
    processed up to the first number that was not added. *)
Theorem events_processed_in_order {D} `{!Inhabited D} (offset : Z) (l : list (Z * D)) :
  0 ≤ offset < two64 → NoDup l.*1 → Forall (λ e, offset ≤ e.1 < two64 - 1) l →
  ∃ p calls, add_all l (mk_OrderedEventsProcessor offset) = Ok (p, calls) ∧
    calls.*1 = seqZ offset (Z.of_nat (length calls)) ∧
    (∀ n d, (n, d) ∈ calls → (n, d) ∈ l) ∧
    offset + Z.of_nat (length calls) ∉ l.*1.
Proof.
  intros Hoff Hnd Hl. rewrite Forall_forall in Hl.
  destruct (add_all_spec l (mk_OrderedEventsProcessor offset) offset ∅)
    as (p & next & m & calls & -> & Hor & -> & Hc & Hd & Hr).
  - split; simpl; [|lia|done|done]. split; simpl; try done; lia.
  - done.
  - intros n ([n' d] & -> & Hin)%list_elem_of_fmap. by apply Hl in Hin.
  - exists p, calls. split; [done|]. split; [done|]. split.
    + intros n d [?|?]%Hd; [done|]. by rewrite lookup_empty in *.
    + intros ([n d] & Hn & Hin)%list_elem_of_fmap. simpl in Hn.
      pose proof (or_missing _ _ _ Hor) as Hm.
      assert (m !! (offset + Z.of_nat (length calls)) = Some d); [|congruence].
      apply Hr. split; [done|]. left. by rewrite Hn.
Qed.

Lemma events_processed_in_order_witness :
  ∃ p calls, add_all [(9, 90); (7, 70); (6, 60); (12, 120); (8, 80); (5, 50); (11, 110)]
      (mk_OrderedEventsProcessor 5) = Ok (p, calls) ∧
    calls.*1 = seqZ 5 (Z.of_nat (length calls)) ∧
    (∀ n d, (n, d) ∈ calls →
       (n, d) ∈ [(9, 90); (7, 70); (6, 60); (12, 120); (8, 80); (5, 50); (11, 110)]) ∧
    5 + Z.of_nat (length calls) ∉
      [(9, 90); (7, 70); (6, 60); (12, 120); (8, 80); (5, 50); (11, 110)].*1.
Proof.
  apply events_processed_in_order; [by split| |].
  - apply (bool_decide_unpack _). vm_compute. exact I.
  - repeat constructor; unfold two64; simpl; lia.
Defined.
Example events_processed_calls :
  snd <$> add_all [(9, 90); (7, 70); (6, 60); (12, 120); (8, 80); (5, 50); (11, 110)]
    (mk_OrderedEventsProcessor 5) = Ok [(5, 50); (6, 60); (7, 70); (8, 80); (9, 90)].
Proof. vm_compute. reflexivity. Qed.

(** ** [ChangesProcessor] *)

Module ChangesProcessor.
Section changes.
Context {D : Type}.

Record ChangesProcessor := {
  offset_ : Z;
  ready_i_ : nat;
  data_array_ : list (D * bool)
}.
Definition mk_ChangesProcessor : ChangesProcessor :=
  {| offset_ := 1; ready_i_ := 0; data_array_ := [] |}.

Definition clear (p : ChangesProcessor) : ChangesProcessor :=
  {| offset_ := u64 (offset_ p + Z.of_nat (length (data_array_ p))); ready_i_ := 0;
     data_array_ := [] |}.

Definition add (data : D) (p : ChangesProcessor) : ChangesProcessor * Z :=
  ({| offset_ := offset_ p; ready_i_ := ready_i_ p;
      data_array_ := data_array_ p ++ [(data, false)] |},
   u64 (offset_ p + Z.of_nat (length (data_array_ p)))).

Definition try_compactify (p : ChangesProcessor) : ChangesProcessor :=
  if (5 <? ready_i_ p)%nat && (length (data_array_ p) <? ready_i_ p * 2)%nat then
    {| offset_ := u64 (offset_ p + Z.of_nat (ready_i_ p)); ready_i_ := 0;
       data_array_ := drop (ready_i_ p) (data_array_ p) |}
  else p.

(** The loop of [finish], over the array from [ready_i_] on: how far it gets, and the
    calls of [func]. *)
Fixpoint ready_run (l : list (D * bool)) : list D :=
  match l with
  | (d, true) :: l => d :: ready_run l
  | _ => []
  end.

Definition finish (token : Z) (p : ChangesProcessor) : ChangesProcessor * list D :=
  let pos := u64 (token - offset_ p) in
  if Z.of_nat (length (data_array_ p)) <=? pos then (p, [])
  else
    let array := (λ it, (it.1, true)) <$> data_array_ p !! Z.to_nat pos in
    let array := match array with
                 | Some it => <[Z.to_nat pos := it]> (data_array_ p)
                 | None => data_array_ p
                 end in
    let calls := ready_run (drop (ready_i_ p) array) in
    (try_compactify {| offset_ := offset_ p; ready_i_ := ready_i_ p + length calls;
                       data_array_ := array |}, calls).

(** The changes that wait, the oldest first, and the number of the first of them. The
    numbers of those before are used up. *)
Record represents (p : ChangesProcessor) (first : Z) (l : list (D * bool)) : Prop := {
  rp_first : first = offset_ p + Z.of_nat (ready_i_ p);
  rp_array : ∃ done, data_array_ p = done ++ l ∧ length done = ready_i_ p;
  rp_offset : 1 ≤ offset_ p;
  rp_run : ready_run l = []
}.

Lemma represents_add p first l data :
  represents p first l → first + Z.of_nat (length l) < two64 →
  represents (add data p).1 first (l ++ [(data, false)]) ∧
  (add data p).2 = first + Z.of_nat (length l).
Proof.
  intros [-> (done & Ha & Hl) Ho Hr] Hmax. unfold add. simpl. split.
  - split; simpl; try done.
    + exists done. by rewrite Ha, <-app_assoc.
    + clear Ha Hmax. induction l as [|[d []] l IH]; done.
  - rewrite Ha, length_app, u64_small; lia.
Qed.

(** Finishing: of a number that waits; of any other nothing happens. *)
Definition mark (i : nat) (l : list (D * bool)) : list (D * bool) :=
  alter (λ it, (it.1, true)) i l.
Definition spec_finish (token first : Z) (l : list (D * bool)) : Z * list (D * bool) * list D :=
  let l := if first <=? token then mark (Z.to_nat (token - first)) l else l in
  let calls := ready_run l in
  (first + Z.of_nat (length calls), drop (length calls) l, calls).

Lemma mark_out i l : (length l <= i)%nat → mark i l = l.
Proof.
  unfold mark. revert i. induction l as [|it l IH]; intros [|i] Hi; simpl in *; [done|done|lia|].
  change (it :: mark i l = it :: l). f_equal. apply IH. lia.
Qed.
Lemma mark_app done l i :
  mark i (done ++ l) = if decide (i < length done)%nat then mark i done ++ l
                       else done ++ mark (i - length done) l.
Proof.
  unfold mark. case_decide.
  - by rewrite alter_app_l.
  - by rewrite alter_app_r_alt by lia.
Qed.
Lemma ready_run_drop l : ready_run (drop (length (ready_run l)) l) = [].
Proof. induction l as [|[d []] l IH]; done. Qed.
Lemma ready_run_length l : (length (ready_run l) ≤ length l)%nat.
Proof. induction l as [|[d []] l IH]; simpl; lia. Qed.

Lemma represents_compactify p first l :
  represents p first l → first + Z.of_nat (length l) < two64 →
  represents (try_compactify p) first l.
Proof.
  intros [-> (done & Ha & Hl) Ho Hr] Hmax. unfold try_compactify.
  destruct (_ && _); [|split; try done; by exists done].
  split; simpl; try done.
  - rewrite u64_small by lia. lia.
  - exists []. split; [|done]. by rewrite Ha, <-Hl, drop_app_length.
  - rewrite u64_small by lia. lia.
Qed.

Lemma represents_finish p first l token :
  represents p first l → first + Z.of_nat (length l) < two64 → 0 ≤ token < two64 →
  let '(first', l', calls) := spec_finish token first l in
  represents (finish token p).1 first' l' ∧ (finish token p).2 = calls.
Proof.
  intros Hrep Hmax Ht. pose proof Hrep as [Hfirst (done & Ha & Hl) Ho Hr].
  assert (Hidle : represents p (first + Z.of_nat (length (ready_run l))) (drop (length (ready_run l)) l)).
  { rewrite Hr. simpl. by rewrite Z.add_0_r. }
  unfold spec_finish, finish.
  destruct (Z.le_gt_cases (offset_ p) token) as [Hge|Hlt].
  2:{ (* a number from before the array: the difference wraps around *)
      assert (u64 (token - offset_ p) = token - offset_ p + two64) as ->.
      { unfold u64. rewrite <-(Z.mod_add _ 1) by done. apply Z.mod_small. unfold two64 in *. lia. }
      assert (Hlen : Z.of_nat (length (data_array_ p)) ≤ token - offset_ p + two64).
      { rewrite Ha, length_app. lia. }
      rewrite (proj2 (Z.leb_le _ _) Hlen). rewrite (proj2 (Z.leb_gt _ _)) by lia.
      split; [done|by rewrite Hr]. }
  rewrite u64_small by lia. set (pos := Z.to_nat (token - offset_ p)).
  destruct (Z.leb_spec (Z.of_nat (length (data_array_ p))) (token - offset_ p)) as [Hout|Hin].
  - rewrite Ha, length_app in Hout. rewrite (proj2 (Z.leb_le first token)) by lia.
    rewrite mark_out by lia. split; [done|by rewrite Hr].
  - assert (Harr : match (λ it, (it.1, true)) <$> data_array_ p !! pos with
                   | Some it => <[pos := it]> (data_array_ p)
                   | None => data_array_ p
                   end = mark pos (data_array_ p)).
    { unfold mark. destruct (lookup_lt_is_Some_2 (data_array_ p) pos) as [it Hit]; [lia|].
      rewrite Hit. simpl. symmetry. apply list_eq. intros j.
      destruct (decide (j = pos)) as [->|Hne].
      - rewrite list_lookup_alter_eq, list_lookup_insert_eq by lia. by rewrite Hit.
      - by rewrite list_lookup_alter_ne, list_lookup_insert_ne. }
    rewrite Harr, Ha, mark_app.
    assert (Hrest : ∃ done', length done' = length done ∧
      (if decide (pos < length done)%nat then mark pos done ++ l
       else done ++ mark (pos - length done) l) =
      done' ++ (if first <=? token then mark (Z.to_nat (token - first)) l else l)).
    { destruct (decide (pos < length done)%nat) as [Hp|Hp].
      - exists (mark pos done). rewrite (proj2 (Z.leb_gt _ _)) by lia. split; [|done].
        apply length_alter.
      - exists done. rewrite (proj2 (Z.leb_le _ _)) by lia. split; [done|].
        do 2 f_equal. lia. }
    destruct Hrest as (done' & Hl' & ->).
    set (l1 := if first <=? token then mark (Z.to_nat (token - first)) l else l).
    assert (Hlen1 : length l1 = length l).
    { unfold l1. destruct (first <=? token); [apply length_alter|done]. }
    rewrite <-Hl, <-Hl', drop_app_length. split; [|done].
    pose proof (ready_run_length l1). apply represents_compactify.
    + split; simpl.
      * rewrite Hfirst, <-Hl, <-Hl'. lia.
      * exists (done' ++ take (length (ready_run l1)) l1). rewrite <-app_assoc, take_drop.
        split; [done|]. rewrite length_app, length_take. lia.
      * done.
      * apply ready_run_drop.
    + rewrite length_drop. lia.
Qed.
End changes.
Arguments ChangesProcessor : clear implicits.
End ChangesProcessor.

(** ** [PtsManager] *)

Module PtsManager.
Import ChangesProcessor.

Record PtsManager := {
  db_pts_ : Z;
  mem_pts_ : Z;
  state_helper_ : ChangesProcessor Z
}.
Definition mk_PtsManager : PtsManager :=
  {| db_pts_ := -1; mem_pts_ := -1; state_helper_ := mk_ChangesProcessor |}.

Definition init (pts : Z) (m : PtsManager) : PtsManager :=
  {| db_pts_ := pts; mem_pts_ := pts; state_helper_ := clear (state_helper_ m) |}.

Definition add_pts (pts : Z) (m : PtsManager) : PtsManager * Z :=
  let mem_pts := if 0 <? pts then pts else mem_pts_ m in
  let '(h, id) := add pts (state_helper_ m) in
  ({| db_pts_ := db_pts_ m; mem_pts_ := mem_pts; state_helper_ := h |}, id).

(** What the function that [finish] passes does with the [pts] of each change. *)
Definition save_pts (db_pts pts : Z) : Z := if negb (pts =? 0) then pts else db_pts.
Definition finish (pts_id : Z) (m : PtsManager) : PtsManager * Z :=
  let '(h, calls) := ChangesProcessor.finish pts_id (state_helper_ m) in
  let db_pts := foldl save_pts (db_pts_ m) calls in
  ({| db_pts_ := db_pts; mem_pts_ := mem_pts_ m; state_helper_ := h |}, db_pts).

Inductive pts_op :=
  | AddPts (pts : Z)
  | FinishPts (pts_id : Z).

(** The number that each call returns. *)
Fixpoint run_pts (ops : list pts_op) (m : PtsManager) : PtsManager * list Z :=
  match ops with
  | [] => (m, [])
  | op :: ops =>
      let '(m, r) := match op with AddPts pts => add_pts pts m | FinishPts id => finish id m end in
      let '(m, rs) := run_pts ops m in
      (m, r :: rs)
  end.

(** The specification: the updates added since [init], with what is finished. The state of
    the database is that of the longest prefix of updates that are all finished. *)
Definition saved (pts0 : Z) (l : list (Z * bool)) : Z := foldl save_pts pts0 (ready_run l).
Definition spec_next (l : list (Z * bool)) (op : pts_op) : list (Z * bool) :=
  match op with
  | AddPts pts => l ++ [(pts, false)]
  | FinishPts id => if 1 <=? id then mark (Z.to_nat (id - 1)) l else l
  end.
Definition spec_result (pts0 : Z) (l : list (Z * bool)) (op : pts_op) : Z :=
  match op with
  | AddPts _ => Z.of_nat (length l) + 1
  | FinishPts _ => saved pts0 (spec_next l op)
  end.
Fixpoint spec_run (pts0 : Z) (ops : list pts_op) (l : list (Z * bool)) :
    list (Z * bool) * list Z :=
  match ops with
  | [] => (l, [])
  | op :: ops =>
      let '(l', rs) := spec_run pts0 ops (spec_next l op) in
      (l', spec_result pts0 l op :: rs)
  end.

(** The manager keeps what waits; the prefix before it is saved. *)
Definition manages (pts0 : Z) (m : PtsManager) (l : list (Z * bool)) : Prop :=
  ∃ front l', l = ((λ pts, (pts, true)) <$> front) ++ l' ∧
    represents (state_helper_ m) (1 + Z.of_nat (length front)) l' ∧
    db_pts_ m = foldl save_pts pts0 front.

Lemma ready_run_front front l :
  ready_run (((λ pts : Z, (pts, true)) <$> front) ++ l) = front ++ ready_run l.
Proof. induction front as [|pts front IH]; [done|]. simpl. by f_equal. Qed.
Lemma ready_run_split (l : list (Z * bool)) :
  l = ((λ pts, (pts, true)) <$> ready_run l) ++ drop (length (ready_run l)) l.
Proof. induction l as [|[pts []] l IH]; [done| |done]. simpl. by f_equal. Qed.
Lemma mark_front i front : mark i ((λ pts : Z, (pts, true)) <$> front) = (λ pts, (pts, true)) <$> front.
Proof.
  unfold mark. apply list_eq. intros j. destruct (decide (j = i)) as [->|Hne].
  - rewrite list_lookup_alter_eq, list_lookup_fmap. by destruct (front !! i).
  - by rewrite list_lookup_alter_ne.
Qed.
Lemma length_mark {A} i (l : list (A * bool)) : length (mark i l) = length l.
Proof. apply length_alter. Qed.

Lemma manages_step pts0 m l op :
  manages pts0 m l → Z.of_nat (length l) + 1 < two64 →
  match op with FinishPts id => 0 ≤ id < two64 | _ => True end →
  let '(m', r) := match op with AddPts pts => add_pts pts m | FinishPts id => finish id m end in
  manages pts0 m' (spec_next l op) ∧ r = spec_result pts0 l op.
Proof.
  intros (front & l' & -> & Hrep & Hdb). rewrite length_app, length_fmap. intros Hmax.
  destruct op as [pts|id]; simpl.
  - intros _. unfold add_pts.
    destruct (represents_add _ _ _ pts Hrep) as [Hrep' Hid]; [lia|].
    split.
    + exists front, (l' ++ [(pts, false)]). split; [by rewrite app_assoc|]. split; [exact Hrep'|done].
    + etrans; [exact Hid|]. rewrite length_app, length_fmap. lia.
  - intros Hid. unfold finish.
    pose proof (represents_finish _ _ _ id Hrep ltac:(lia) Hid) as Hfin.
    unfold spec_finish in Hfin.
    set (l1 := if 1 + Z.of_nat (length front) <=? id then
                 mark (Z.to_nat (id - (1 + Z.of_nat (length front)))) l' else l') in *.
    destruct Hfin as [Hrep' Hcalls].
    destruct (ChangesProcessor.finish id (state_helper_ m)) as [h calls]. simpl in *. subst calls.
    assert (Hmark : (if 1 <=? id then mark (Z.to_nat (id - 1)) (((λ pts, (pts, true)) <$> front) ++ l')
                     else ((λ pts, (pts, true)) <$> front) ++ l') =
                    ((λ pts, (pts, true)) <$> front) ++ l1).
    { unfold l1. destruct (Z.leb_spec 1 id).
      - rewrite mark_app, length_fmap. case_decide.
        + rewrite mark_front, (proj2 (Z.leb_gt _ _)) by lia. done.
        + rewrite (proj2 (Z.leb_le _ _)) by lia. do 2 f_equal. lia.
      - by rewrite (proj2 (Z.leb_gt _ _)) by lia. }
    rewrite Hmark. split.
    + exists (front ++ ready_run l1), (drop (length (ready_run l1)) l1). split.
      { rewrite fmap_app, <-app_assoc. f_equal. apply ready_run_split. }
      split; simpl.
      * by rewrite length_app, Nat2Z.inj_add, Z.add_assoc.
      * by rewrite foldl_app, <-Hdb.
    + unfold saved. by rewrite ready_run_front, foldl_app, <-Hdb.
Qed.

(** C24. Whatever updates are added and finished, in whatever order and also repeatedly: the
    numbers given count up from 1, and the state reported as saved is that of the longest
    prefix of updates that are all finished, never one behind an update that is not. *)
Theorem pts_manager_saves_finished_prefix (pts0 : Z) (ops : list pts_op) :
  Z.of_nat (length ops) + 1 < two64 →
  Forall (λ op, match op with FinishPts id => 0 ≤ id < two64 | _ => True end) ops →
  let '(m, rs) := run_pts ops (init pts0 mk_PtsManager) in
  let '(l, rs') := spec_run pts0 ops [] in
  rs = rs' ∧ db_pts_ m = saved pts0 l.
Proof.
  assert (Hm : manages pts0 (init pts0 mk_PtsManager) []).
  { exists [], []. split; [done|]. split; [|done].
    split; [done|by exists []|by vm_compute|done]. }
  revert Hm. generalize (init pts0 mk_PtsManager) as m.
  replace (Z.of_nat (length ops) + 1) with (Z.of_nat (length (@nil (Z * bool)) + length ops) + 1) by done.
  generalize (@nil (Z * bool)) as l.
  induction ops as [|op ops IH]; intros l m Hm Hmax Hops; simpl.
  { split; [done|]. destruct Hm as (front & l' & -> & Hrep & ->).
    unfold saved. by rewrite ready_run_front, (rp_run _ _ _ Hrep), app_nil_r. }
  apply Forall_cons in Hops as [Hop Hops]. simpl in Hmax.
  pose proof (manages_step pts0 m l op Hm ltac:(lia) Hop) as Hstep.
  destruct (match op with AddPts pts => add_pts pts m | FinishPts id => finish id m end) as [m1 r].
  destruct Hstep as [Hm1 ->].
  specialize (IH (spec_next l op) m1 Hm1).
  destruct (run_pts ops m1) as [m2 rs], (spec_run pts0 ops (spec_next l op)) as [l2 rs'].
  destruct IH as [-> Hdb]; [|done|done].
  assert (length (spec_next l op) ≤ S (length l))%nat; [|lia].
  destruct op; simpl; [rewrite length_app; simpl; lia|].
  case_match; [rewrite length_mark|]; lia.
Qed.

Definition example_pts : list pts_op :=
  [AddPts 11; AddPts 0; AddPts 12; FinishPts 2; FinishPts 2; FinishPts 3; FinishPts 1; FinishPts 0;
   AddPts 14; AddPts 15; FinishPts 5; FinishPts 9].
Example example_pts_results :
  (run_pts example_pts (init 10 mk_PtsManager)).2 = [1; 2; 3; 10; 10; 10; 12; 12; 4; 5; 12; 12].
Proof. vm_compute. reflexivity. Qed.

Lemma pts_manager_saves_finished_prefix_witness :
  let '(m, rs) := run_pts example_pts (init 10 mk_PtsManager) in
  let '(l, rs') := spec_run 10 example_pts [] in
  rs = rs' ∧ db_pts_ m = saved 10 l.
Proof.
  apply (pts_manager_saves_finished_prefix 10 example_pts).
  - by vm_compute.
  - repeat constructor; unfold two64; lia.
Defined.
End PtsManager.
