(* ===== verification/BinlogEvent.v ===== *)
(** * Events of the log ([td/tddb/td/db/binlog/BinlogEvent.h], [.cpp])

    An event as bytes: its size, identifier, type and flags, eight unused bytes, the data
    and a checksum. [create_raw] lays it out, [init] and [validate] read and check it.
    The objects that can be the data of an event ([Storer.h]) are writers of a known
    size. *)
From S2P Require Import Prelude Bytes TlParsers TlParserFacts TlHelpers.

(** ** Storers ([StorerBase.h], [Storer.h]) *)

(** The virtual methods. [store] is given the memory from the pointer on; what it returns,
    the number of bytes it wrote, is how far it got in that memory. *)
Record Storer := {
  storer_size : outcome Z;
  storer_store : writer → outcome writer;
}.

Definition SliceStorer (slice : list Z) : Storer := {|
  storer_size := Ok (Z.of_nat (length slice));
  storer_store := put_all slice |}.
Definition ConcatStorer (a b : Storer) : Storer := {|
  storer_size := x ← storer_size a; y ← storer_size b; Ok (u64 (x + y));
  storer_store ptr := ptr ← storer_store a ptr; storer_store b ptr |}.
Definition DefaultStorer `{TlObject T} (object : T) : Storer := {|
  storer_size := store object (0 : Z);
  storer_store := store object |}.
(** [EmptyStorer()]: an object whose [store] does nothing. *)
Definition EmptyStorer : Storer := {| storer_size := Ok 0; storer_store ptr := Ok ptr |}.

(** [storer] writes the bytes [l]. *)
Record stores (storer : Storer) (l : list Z) : Prop := {
  stores_size : storer_size storer = Ok (Z.of_nat (length l));
  stores_store w : (length l ≤ room w)%nat →
    storer_store storer w = Ok {| written := written w ++ l; room := room w - length l |};
}.

Lemma slice_stores l : stores (SliceStorer l) l.
Proof. split; [done|]. intros w. apply put_all_Ok. Qed.
Lemma empty_stores : stores EmptyStorer [].
Proof. split; [done|]. intros [l n] _. simpl. by rewrite app_nil_r, Nat.sub_0_r. Qed.
Lemma concat_stores a b l1 l2 : stores a l1 → stores b l2 →
  Z.of_nat (length (l1 ++ l2)) < two64 → stores (ConcatStorer a b) (l1 ++ l2).
Proof.
  intros [Ha1 Ha2] [Hb1 Hb2] Hl. split; simpl.
  - rewrite Ha1, Hb1. simpl. rewrite u64_small; rewrite length_app in *; [f_equal|]; lia.
  - intros w Hw. rewrite length_app in Hw. rewrite Ha2 by lia. simpl. rewrite Hb2 by (simpl; lia).
    simpl. rewrite length_app, <-app_assoc. do 2 f_equal. lia.
Qed.
Lemma default_stores `{TlLaws T} (x : T) : tl_valid x →
  Z.of_nat (length (tl_bytes x)) < two64 → stores (DefaultStorer x) (tl_bytes x).
Proof.
  intros Hx Hl. split; simpl.
  - rewrite store_counts by done. by rewrite u64_small by lia.
  - intros w. by apply store_writes.
Qed.

(** ** The event *)

(** [Status]: success, or an error with a code and a message (without the details the
    code appends for the log). *)
Inductive Status := SOk | SError (code : Z) (message : string).
#[global] Instance Status_eq_dec : EqDecision Status.
Proof. solve_decision. Defined.
(** [status.ensure()] *)
Definition ensure (s : Status) : outcome unit :=
  match s with SOk => Ok () | SError _ _ => Fault AssertFailure end.

Definition MAX_SIZE : Z := Z.shiftl 1 24.
Definition HEADER_SIZE : Z := 4 + 8 + 4 + 4 + 8.
Definition TAIL_SIZE : Z := 4.
Definition MIN_SIZE : Z := HEADER_SIZE + TAIL_SIZE.

(** [ServiceTypes] and [Flags] *)
Definition Header_type : Z := -1.
Definition Empty_type : Z := -2.
Definition AesCtrEncryption_type : Z := -3.
Definition NoEncryption_type : Z := -4.
Definition Rewrite_flag : Z := 1.
Definition Partial_flag : Z := 2.

(** All members but the place in the code that made the event, which is only printed. *)
Record BinlogEvent := {
  offset_ : Z;
  size_ : Z;
  id_ : Z;
  type_ : Z;
  flags_ : Z;
  extra_ : Z;
  crc32_ : Z;
  raw_event_ : list Z;
}.
(** [BinlogEvent()] *)
Definition new_event : BinlogEvent := {|
  offset_ := -1; size_ := 0; id_ := 0; type_ := 0; flags_ := 0; extra_ := 0; crc32_ := 0;
  raw_event_ := [] |}.
Definition set_offset (offset : Z) (e : BinlogEvent) : BinlogEvent := {|
  offset_ := offset; size_ := size_ e; id_ := id_ e; type_ := type_ e; flags_ := flags_ e;
  extra_ := extra_ e; crc32_ := crc32_ e; raw_event_ := raw_event_ e |}.
Definition set_flags (flags : Z) (e : BinlogEvent) : BinlogEvent := {|
  offset_ := offset_ e; size_ := size_ e; id_ := id_ e; type_ := type_ e; flags_ := flags;
  extra_ := extra_ e; crc32_ := crc32_ e; raw_event_ := raw_event_ e |}.

Definition is_empty (e : BinlogEvent) : bool := bool_decide (raw_event_ e = []).

Definition event_size (e : BinlogEvent) : Z := Z.of_nat (length (raw_event_ e)).

Definition init (raw_event : list Z) (e : BinlogEvent) : outcome BinlogEvent :=
  let parser := mk_TlParser raw_event in
  '(x, parser) ← fetch_int parser;
  let size := u32 x in
  _ ← cassert (size =? Z.of_nat (length raw_event));
  '(x, parser) ← fetch_long parser;
  let id := u64 x in
  '(type, parser) ← fetch_int parser;
  '(flags, parser) ← fetch_int parser;
  '(x, parser) ← fetch_long parser;
  let extra := u64 x in
  _ ← cassert (MIN_SIZE <=? size);
  '(_, parser) ← fetch_string_raw (size - MIN_SIZE) parser;
  '(x, parser) ← fetch_int parser;
  Ok {| offset_ := offset_ e; size_ := size; id_ := id; type_ := type; flags_ := flags;
        extra_ := extra; crc32_ := u32 x; raw_event_ := raw_event |}.

(** [BinlogEvent(BufferSlice &&, BinlogDebugInfo)] *)
Definition mk_BinlogEvent (raw_event : list Z) : outcome BinlogEvent := init raw_event new_event.

Definition get_data (e : BinlogEvent) : outcome (list Z) :=
  _ ← cassert (MIN_SIZE <=? event_size e);
  Ok (take (Z.to_nat (event_size e - MIN_SIZE)) (drop (Z.to_nat HEADER_SIZE) (raw_event_ e))).

Section crc.
(** The checksum of zlib. *)
Context (crc32 : list Z → Z).

Definition validate (e : BinlogEvent) : outcome Status :=
  if event_size e <? MIN_SIZE then Ok (SError 0 "Too small event")
  else
    let parser := mk_TlParser (raw_event_ e) in
    '(x, parser) ← fetch_int parser;
    let size := u32 x in
    if negb (size_ e =? size) || negb (size_ e =? event_size e) then
      Ok (SError 0 "Size of event changed")
    else
      '(_, parser) ← fetch_string_raw (u64 (size_ e - TAIL_SIZE - 4)) parser;
      '(x, parser) ← fetch_int parser;
      let stored_crc32 := u32 x in
      let calculated_crc := crc32 (take (Z.to_nat (size_ e - TAIL_SIZE)) (raw_event_ e)) in
      if negb (calculated_crc =? crc32_ e) || negb (calculated_crc =? stored_crc32) then
        Ok (SError 0 "CRC mismatch")
      else Ok SOk.

Definition clone (e : BinlogEvent) : outcome BinlogEvent :=
  result ← init (raw_event_ e) new_event;
  status ← validate result;
  _ ← ensure status;
  Ok result.

Definition create_raw (id type flags : Z) (storer : Storer) : outcome (list Z) :=
  n ← storer_size storer;
  let size := u64 (n + MIN_SIZE) in
  let tl_storer := {| written := []; room := Z.to_nat size |} in
  x ← narrow_cast_int32 size;
  tl_storer ← store_int x tl_storer;
  tl_storer ← store_long id tl_storer;
  tl_storer ← store_int type tl_storer;
  tl_storer ← store_int flags tl_storer;
  tl_storer ← store_long 0 tl_storer;
  _ ← cassert (Z.of_nat (length (written tl_storer)) =? HEADER_SIZE);
  tl_storer ← storer_store storer tl_storer;
  _ ← cassert (Z.of_nat (length (written tl_storer)) =? size - TAIL_SIZE);
  tl_storer ← store_int (crc32 (written tl_storer)) tl_storer;
  Ok (written tl_storer).
End crc.

(** ** What an event says, and its bytes *)

Record entry := { e_id : Z; e_type : Z; e_flags : Z; e_data : list Z }.
#[global] Instance entry_eq_dec : EqDecision entry.
Proof. solve_decision. Defined.

Record entry_ok (e : entry) : Prop := {
  ok_id : 0 ≤ e_id e < two64;
  ok_type : in_int (e_type e);
  ok_flags : in_int (e_flags e);
  ok_data : bytes_ok (e_data e);
  ok_size : Z.of_nat (length (e_data e)) + MIN_SIZE ≤ INT_MAX;
}.

(** Zlib's checksum is a [uint32]. *)
Class Checksum (crc32 : list Z → Z) := crc32_range l : 0 ≤ crc32 l < two32.

Definition entry_size (e : entry) : Z := Z.of_nat (length (e_data e)) + MIN_SIZE.
Definition event_head (e : entry) : list Z :=
  le_split 4 (u32 (entry_size e)) ++ le_split 8 (u64 (e_id e)) ++ le_split 4 (u32 (e_type e)) ++
  le_split 4 (u32 (e_flags e)) ++ le_split 8 (u64 0).
Definition event_bytes (crc32 : list Z → Z) (e : entry) : list Z :=
  let body := event_head e ++ e_data e in body ++ le_split 4 (u32 (crc32 body)).

(** The object [init] makes of these bytes. *)
Definition event_of (crc32 : list Z → Z) (offset : Z) (e : entry) : BinlogEvent := {|
  offset_ := offset; size_ := entry_size e; id_ := e_id e; type_ := e_type e;
  flags_ := e_flags e; extra_ := 0; crc32_ := crc32 (event_head e ++ e_data e);
  raw_event_ := event_bytes crc32 e |}.

Lemma length_event_head e : length (event_head e) = 28%nat.
Proof. unfold event_head. by rewrite !length_app, !le_split_length. Qed.
Lemma length_event_bytes crc32 e : Z.of_nat (length (event_bytes crc32 e)) = entry_size e.
Proof.
  unfold event_bytes, entry_size, MIN_SIZE, HEADER_SIZE, TAIL_SIZE.
  rewrite !length_app, length_event_head, le_split_length. lia.
Qed.
Lemma event_size_of crc32 offset e : event_size (event_of crc32 offset e) = entry_size e.
Proof. apply length_event_bytes. Qed.
Lemma entry_size_bounds e : entry_ok e → 32 ≤ entry_size e ≤ INT_MAX.
Proof.
  intros [_ _ _ _ Hs]. unfold entry_size. unfold MIN_SIZE, HEADER_SIZE, TAIL_SIZE in *. lia.
Qed.
Lemma event_bytes_ok crc32 e : entry_ok e → bytes_ok (event_bytes crc32 e).
Proof.
  intros He. unfold event_bytes, event_head. rewrite !bytes_ok_app.
  repeat split; auto using le_split_ok. apply (ok_data e He).
Qed.

(** Reading numbers that a parser stands before. *)
Lemma fetch_u32_at x r dl : 0 ≤ x < two32 →
  ∃ y, fetch_int (parser_at (le_split 4 (u32 x) ++ r) dl) = Ok (y, parser_at r dl) ∧ u32 y = x.
Proof.
  intros Hx. exists (i32 x). rewrite u32_small by done.
  split; [by apply fetch_int_raw|by apply u32_of_fetched].
Qed.
Lemma fetch_u64_at x r dl : 0 ≤ x < two64 →
  ∃ y, fetch_long (parser_at (le_split 8 (u64 x) ++ r) dl) = Ok (y, parser_at r dl) ∧ u64 y = x.
Proof.
  intros Hx. exists (i64 x). rewrite u64_small by done.
  split; [by apply fetch_long_raw|by apply u64_of_fetched].
Qed.
Lemma fetch_raw_at (l r : list Z) dl n : n = Z.of_nat (length l) →
  fetch_string_raw n (parser_at (l ++ r) dl) = Ok (l, parser_at r dl).
Proof.
  intros ->. unfold fetch_string_raw. rewrite <-granted_0, check_len_granted
    by (rewrite length_app; lia).
  cbn [mbind outcome_bind]. change (has_error _) with false. cbv iota.
  rewrite Z.add_0_l, advance_granted by (rewrite length_app; lia). cbn [mbind outcome_bind].
  unfold string_at. cbn [granted data]. rewrite length_app, (proj2 (Z.leb_le _ _)) by lia.
  cbn [mbind outcome_bind]. by rewrite !Nat2Z.id, take_app_length, drop_app_length.
Qed.

Ltac fetch_step :=
  match goal with
  | |- context [fetch_int (parser_at (le_split 4 (u32 ?x) ++ ?r) ?dl)] =>
      let y := fresh "y" in let E := fresh "E" in let Hy := fresh "Hy" in
      destruct (fetch_u32_at x r dl) as (y & E & Hy); [|rewrite E; clear E; cbn [mbind outcome_bind]]
  | |- context [fetch_int (parser_at (le_split 4 (u32 ?x)) ?dl)] =>
      let y := fresh "y" in let E := fresh "E" in let Hy := fresh "Hy" in
      destruct (fetch_u32_at x [] dl) as (y & E & Hy);
      [|rewrite app_nil_r in E; rewrite E; clear E; cbn [mbind outcome_bind]]
  | |- context [fetch_long (parser_at (le_split 8 (u64 ?x) ++ ?r) ?dl)] =>
      let y := fresh "y" in let E := fresh "E" in let Hy := fresh "Hy" in
      destruct (fetch_u64_at x r dl) as (y & E & Hy); [|rewrite E; clear E; cbn [mbind outcome_bind]]
  end.

Section facts.
Context (crc32 : list Z → Z) `{!Checksum crc32}.
#[local] Set Default Proof Using "Type*".

Lemma parser_at_event e dl :
  parser_at (event_bytes crc32 e) dl =
  parser_at (le_split 4 (u32 (entry_size e)) ++ le_split 8 (u64 (e_id e)) ++ le_split 4 (u32 (e_type e)) ++
    le_split 4 (u32 (e_flags e)) ++ le_split 8 (u64 0) ++ e_data e ++
    le_split 4 (u32 (crc32 (event_head e ++ e_data e)))) dl.
Proof. f_equal. Qed.

Lemma init_spec e old : entry_ok e →
  init (event_bytes crc32 e) old = Ok (event_of crc32 (offset_ old) e).
Proof.
  intros He. pose proof (entry_size_bounds e He) as Hs. pose proof He as [Hid Hty Hfl _ _].
  unfold init. change (mk_TlParser ?l) with (parser_at l (Z.of_nat (length l))).
  rewrite length_event_bytes, parser_at_event. fetch_step; [unfold INT_MAX, two32 in *; lia|]. rewrite Hy, Z.eqb_refl. cbn [cassert mbind outcome_bind].
  fetch_step; [done|]. rewrite fetch_int_at by done. cbn [mbind outcome_bind].
  rewrite fetch_int_at by done. cbn [mbind outcome_bind]. fetch_step; [unfold two64; lia|].
  rewrite (proj2 (Z.leb_le _ _)) by (change MIN_SIZE with 32; lia). cbn [cassert mbind outcome_bind].
  rewrite fetch_raw_at by (unfold entry_size; lia). cbn [mbind outcome_bind].
  fetch_step; [apply crc32_range|].
  unfold event_of. congruence.
Qed.

Lemma validate_spec e offset : entry_ok e → validate crc32 (event_of crc32 offset e) = Ok SOk.
Proof.
  intros He. pose proof (entry_size_bounds e He) as Hs.
  unfold validate. rewrite event_size_of. cbn [event_of raw_event_ size_ crc32_].
  rewrite (proj2 (Z.ltb_ge _ _)) by (change MIN_SIZE with 32; lia).
  change (mk_TlParser ?l) with (parser_at l (Z.of_nat (length l))).
  assert (Hb : event_bytes crc32 e = le_split 4 (u32 (entry_size e)) ++ drop 4 (event_head e ++ e_data e) ++
    le_split 4 (u32 (crc32 (event_head e ++ e_data e)))).
  { done. }
  rewrite Hb at 1. fetch_step; [unfold INT_MAX, two32 in *; lia|].
  rewrite Hy, Z.eqb_refl. cbn [negb orb].
  rewrite fetch_raw_at.
  2:{ rewrite length_drop, length_app, length_event_head. unfold entry_size in *.
      change MIN_SIZE with 32 in *. change TAIL_SIZE with 4. rewrite u64_small; [lia|].
      unfold INT_MAX, two64 in *. lia. }
  cbn [mbind outcome_bind]. fetch_step; [apply crc32_range|].
  rewrite Hy0. replace (take _ (event_bytes crc32 e)) with (event_head e ++ e_data e).
  - by rewrite Z.eqb_refl.
  - unfold event_bytes. symmetry. apply take_app_length'. rewrite length_app, length_event_head.
    unfold entry_size. change MIN_SIZE with 32. change TAIL_SIZE with 4. lia.
Qed.

Lemma get_data_spec e offset : entry_ok e → get_data (event_of crc32 offset e) = Ok (e_data e).
Proof.
  intros He. pose proof (entry_size_bounds e He) as Hs.
  unfold get_data. rewrite event_size_of. cbn [event_of raw_event_].
  rewrite (proj2 (Z.leb_le _ _)) by (change MIN_SIZE with 32; lia). cbn [cassert mbind outcome_bind].
  f_equal. unfold event_bytes. cbv zeta. rewrite <-app_assoc, drop_app_length' by (by rewrite length_event_head).
  apply take_app_length'. unfold entry_size. lia.
Qed.

Lemma create_raw_spec e storer : entry_ok e → stores storer (e_data e) →
  create_raw crc32 (e_id e) (e_type e) (e_flags e) storer = Ok (event_bytes crc32 e).
Proof.
  intros He [Hsz Hst]. pose proof (entry_size_bounds e He) as Hs.
  unfold create_raw. rewrite Hsz. cbn [mbind outcome_bind]. fold (entry_size e).
  rewrite (u64_small (entry_size e)) by (unfold INT_MAX, two64 in *; lia).
  rewrite narrow_cast_Ok by lia. cbn [mbind outcome_bind].
  unfold store_int, store_long. cbn [store_binary TlStorerUnsafe].
  repeat (rewrite put_all_Ok by (cbn [room]; rewrite !le_split_length; lia);
    cbn [mbind outcome_bind written room]).
  rewrite !app_nil_l, <-!app_assoc. fold (event_head e). rewrite !le_split_length.
  rewrite length_event_head. change (Z.of_nat 28 =? HEADER_SIZE) with true.
  cbn [cassert mbind outcome_bind].
  rewrite Hst by (cbn [room]; unfold entry_size; change MIN_SIZE with 32; lia).
  cbn [mbind outcome_bind written room]. rewrite length_app, length_event_head.
  rewrite (proj2 (Z.eqb_eq _ _)) by (unfold entry_size; change MIN_SIZE with 32; change TAIL_SIZE with 4; lia).
  cbn [cassert mbind outcome_bind].
  rewrite put_all_Ok by (cbn [room]; rewrite le_split_length; unfold entry_size; change MIN_SIZE with 32; lia).
  done.
Qed.
End facts.
