(* ===== verification/BinlogEventsProcessor.v ===== *)
(** * The events of a log that count
      ([td/tddb/td/db/binlog/detail/BinlogEventsProcessor.h], [.cpp])

    The log is a list of events that add, rewrite and erase; the processor keeps the
    ones that are in force, in the order of their identifiers. The identifiers of erased
    events stay, marked, until there are so many that the vectors are compacted. *)
From S2P Require Import Prelude Bytes BinlogEvent.

(** ** Model *)

(** The sizes are [int64]: they count bytes held in memory, far fewer than 2^63. *)
Record BinlogEventsProcessor := {
  event_ids_ : list Z;
  events_ : list BinlogEvent;
  total_events_ : Z;
  empty_events_ : Z;
  last_event_id_ : Z;
  proc_offset_ : Z;
  total_raw_events_size_ : Z;
}.
Definition mk_BinlogEventsProcessor : BinlogEventsProcessor := {|
  event_ids_ := []; events_ := []; total_events_ := 0; empty_events_ := 0;
  last_event_id_ := 0; proc_offset_ := 0; total_raw_events_size_ := 0 |}.

(** The number of leading elements less than [x], where [std::lower_bound] points. *)
Fixpoint lower_bound (ids : list Z) (x : Z) : nat :=
  match ids with
  | [] => 0
  | y :: ids => if y <? x then S (lower_bound ids x) else 0
  end.

(** The loop of [compactify]: what is left of both vectors. *)
Fixpoint compact_loop (ids : list Z) (events : list BinlogEvent) : list Z * list BinlogEvent :=
  match ids, events with
  | id :: ids, event :: events =>
      let '(ids, events) := compact_loop ids events in
      if Z.land id 1 =? 0 then (id :: ids, event :: events) else (ids, events)
  | _, _ => ([], [])
  end.
Definition compactify (p : BinlogEventsProcessor) : outcome BinlogEventsProcessor :=
  _ ← cassert (length (event_ids_ p) =? length (events_ p))%nat;
  let '(ids, events) := compact_loop (event_ids_ p) (events_ p) in
  _ ← cassert (length ids =? length events)%nat;
  Ok {| event_ids_ := ids; events_ := events; total_events_ := Z.of_nat (length ids);
        empty_events_ := 0; last_event_id_ := last_event_id_ p; proc_offset_ := proc_offset_ p;
        total_raw_events_size_ := total_raw_events_size_ p |}.

Definition do_event (event : BinlogEvent) (p : BinlogEventsProcessor) :
    outcome (BinlogEventsProcessor * Status) :=
  let offset := offset_ event in
  let fixed_event_id := u64 (id_ event * 2) in
  let back := last (event_ids_ p) in
  let moved := {| event_ids_ := event_ids_ p; events_ := events_ p;
    total_events_ := total_events_ p; empty_events_ := empty_events_ p;
    last_event_id_ := last_event_id_ p; proc_offset_ := offset;
    total_raw_events_size_ := total_raw_events_size_ p |} in
  let finish (p : BinlogEventsProcessor) :=
    p ← (if (10 <? total_events_ p) && (u64 (total_events_ p * 3) <? u64 (empty_events_ p * 4))
         then compactify p else Ok p);
    Ok (p, SOk) in
  if negb (Z.land (flags_ event) Rewrite_flag =? 0) &&
     match back with Some b => fixed_event_id <=? b | None => false end then
    let pos := lower_bound (event_ids_ p) fixed_event_id in
    match event_ids_ p !! pos with
    | Some it =>
        if negb (it =? fixed_event_id) then Ok (moved, SError 0 "Ignore rewrite log event")
        else
          old ← deref (events_ p !! pos);
          let size := total_raw_events_size_ p - event_size old in
          if type_ event =? Empty_type then
            finish {| event_ids_ := <[pos := it + 1]> (event_ids_ p);
              events_ := <[pos := new_event]> (events_ p);
              total_events_ := total_events_ p; empty_events_ := u64 (empty_events_ p + 1);
              last_event_id_ := last_event_id_ p; proc_offset_ := offset;
              total_raw_events_size_ := size |}
          else
            let event := set_flags (Z.land (flags_ event) (Z.lnot Rewrite_flag)) event in
            finish {| event_ids_ := event_ids_ p;
              events_ := <[pos := event]> (events_ p);
              total_events_ := total_events_ p; empty_events_ := empty_events_ p;
              last_event_id_ := last_event_id_ p; proc_offset_ := offset;
              total_raw_events_size_ := size + event_size event |}
    | None => Ok (moved, SError 0 "Ignore rewrite log event")
    end
  else if type_ event <? 0 then finish moved
  else
    if match back with Some b => negb (b <? fixed_event_id) | None => false end then
      Ok (moved, SError 0 "")
    else
      finish {| event_ids_ := event_ids_ p ++ [fixed_event_id]; events_ := events_ p ++ [event];
        total_events_ := u64 (total_events_ p + 1); empty_events_ := empty_events_ p;
        last_event_id_ := id_ event; proc_offset_ := offset;
        total_raw_events_size_ := total_raw_events_size_ p + event_size event |}.
(** [add_event] *)
Definition proc_add_event := do_event.

(** The loop of [for_each] from the place after [previous] on. *)
Fixpoint for_each_loop {S} (callback : S → BinlogEvent → outcome S) (previous : option Z)
    (ids : list Z) (events : list BinlogEvent) (s : S) : outcome S :=
  match ids with
  | [] => Ok s
  | id :: ids =>
      event ← deref (head events);
      _ ← cassert (match previous with Some x => x <? id | None => true end);
      s ← (if Z.land id 1 =? 0 then callback s event else Ok s);
      for_each_loop callback (Some id) ids (tail events) s
  end.
Definition for_each {S} (callback : S → BinlogEvent → outcome S) (p : BinlogEventsProcessor)
    (s : S) : outcome S :=
  for_each_loop callback None (event_ids_ p) (events_ p) s.

(** ** What a log says *)

(** The entries in force, in the order of their identifiers, and the last identifier
    that was added. *)
Definition log_state : Type := list entry * Z.
Definition log_start : log_state := ([], 0).

Definition log_step (s : log_state) (e : entry) : log_state :=
  if bool_decide (e_flags e = Rewrite_flag ∧ e_id e ∈ e_id <$> s.1) then
    if e_type e =? Empty_type then (filter (λ x, e_id x ≠ e_id e) s.1, s.2)
    else ((λ x, if e_id x =? e_id e then e else x) <$> s.1, s.2)
  else (s.1 ++ [e], e_id e).
Definition replay (log : list entry) : log_state := foldl log_step log_start log.

(** An entry that may follow a log: it adds a new identifier, or rewrites or erases an
    entry in force. *)
Record log_valid (s : log_state) (e : entry) : Prop := {
  lv_ok : entry_ok e;
  lv_id : 0 < e_id e < 2 ^ 63;
  lv_flags : e_flags e = 0 ∨ e_flags e = Rewrite_flag;
  lv_case : (e_flags e = Rewrite_flag ∧ e_id e ∈ e_id <$> s.1 ∧ (e_type e = Empty_type ∨ 0 ≤ e_type e)) ∨
            (s.2 < e_id e ∧ 0 ≤ e_type e);
}.
Fixpoint log_ok_from (s : log_state) (log : list entry) : Prop :=
  match log with
  | [] => True
  | e :: log => log_valid s e ∧ log_ok_from (log_step s e) log
  end.
Definition log_ok : list entry → Prop := log_ok_from log_start.

#[export] Instance entry_ok_dec e : Decision (entry_ok e).
Proof.
  refine (match decide (0 ≤ e_id e < two64 ∧ in_int (e_type e) ∧ in_int (e_flags e) ∧ bytes_ok (e_data e) ∧
                        Z.of_nat (length (e_data e)) + MIN_SIZE ≤ INT_MAX) with left H => left _ | right H => right _ end).
  - destruct H as (? & ? & ? & ? & ?). by split.
  - intros []. by apply H.
Defined.
#[export] Instance log_valid_dec s e : Decision (log_valid s e).
Proof.
  refine (match decide (entry_ok e ∧ 0 < e_id e < 2 ^ 63 ∧ (e_flags e = 0 ∨ e_flags e = Rewrite_flag) ∧
      ((e_flags e = Rewrite_flag ∧ e_id e ∈ e_id <$> s.1 ∧ (e_type e = Empty_type ∨ 0 ≤ e_type e)) ∨
       (s.2 < e_id e ∧ 0 ≤ e_type e))) with left H => left _ | right H => right _ end).
  - destruct H as (? & ? & ? & ?). by split.
  - intros []. by apply H.
Defined.
#[export] Instance log_ok_from_dec s log : Decision (log_ok_from s log).
Proof. revert s. induction log as [|e log IH]; intros s; cbn; apply _. Defined.
#[export] Instance log_ok_dec log : Decision (log_ok log) := log_ok_from_dec log_start log.

Lemma log_ok_app s l1 l2 :
  log_ok_from s (l1 ++ l2) ↔ log_ok_from s l1 ∧ log_ok_from (foldl log_step s l1) l2.
Proof.
  revert s. induction l1 as [|e l1 IH]; intros s; simpl; [naive_solver|]. rewrite IH. naive_solver.
Qed.
(** The last identifier decides nothing but whether an entry is new. *)
Lemma log_valid_le l n n' e : n' ≤ n → log_valid (l, n) e → log_valid (l, n') e.
Proof.
  intros Hn [H1 H2 H3 H4]. split; [done..|]. destruct H4 as [H4|[H4 H5]]; [by left|right].
  cbn in *. split; [lia|done].
Qed.
Lemma log_step_last l n n' m e : n' ≤ n ≤ m → e_id e ≤ m →
  (log_step (l, n') e).1 = (log_step (l, n) e).1 ∧ (log_step (l, n') e).2 ≤ (log_step (l, n) e).2 ≤ m.
Proof. intros Hn He. unfold log_step. cbn. case_bool_decide; [case_match|]; cbn; split; (done || lia). Qed.
Lemma replay_snoc log e : replay (log ++ [e]) = log_step (replay log) e.
Proof. unfold replay. by rewrite foldl_app. Qed.

(** The entries in force are a log themselves, one that only adds. *)
Record view_entry (n : Z) (e : entry) : Prop := {
  ve_ok : entry_ok e;
  ve_id : 0 < e_id e < 2 ^ 63 ∧ e_id e ≤ n;
  ve_flags : e_flags e = 0 ∨ e_flags e = Rewrite_flag;
  ve_type : 0 ≤ e_type e;
}.
#[local] Notation before := (λ x y : entry, e_id x < e_id y).
Record view_ok (s : log_state) : Prop := {
  vo_sorted : StronglySorted before s.1;
  vo_entries : Forall (view_entry s.2) s.1;
  vo_last : 0 ≤ s.2 < 2 ^ 63;
}.

Lemma view_start : view_ok log_start.
Proof. split; [constructor|constructor|]. by cbn. Qed.

Lemma fmap_sorted (f : entry → entry) l : (∀ x, e_id (f x) = e_id x) →
  StronglySorted before l → StronglySorted before (f <$> l).
Proof.
  intros Hf. induction 1 as [|x l Hs IH Hx]; cbn; constructor; [done|].
  apply Forall_fmap. eapply Forall_impl; [exact Hx|]. intros y. cbn. by rewrite !Hf.
Qed.

Lemma log_step_view s e : view_ok s → log_valid s e → view_ok (log_step s e).
Proof.
  destruct s as [l n]. intros [Hs He Hn] [Hok Hid Hfl Hcase]. cbn [fst snd] in *. unfold log_step. cbn [fst snd].
  case_bool_decide as Hrw; [destruct (Z.eqb_spec (e_type e) Empty_type) as [Ht|Ht]|].
  - split; [|cbn; eapply Forall_sublist; [apply sublist_filter|done]|done].
    eapply sublist_sorted; [apply sublist_filter|done].
  - destruct Hrw as [Hf Hin]. split; [|cbn|done].
    + apply fmap_sorted; [|done]. intros x. by destruct (Z.eqb_spec (e_id x) (e_id e)).
    + apply Forall_fmap. eapply Forall_impl; [exact He|]. intros x Hx. cbn.
      destruct (Z.eqb_spec (e_id x) (e_id e)) as [Heq|]; [|done].
      destruct Hx as [_ [_ Hx] _ _]. split; [done|lia|done|].
      destruct Hcase as [(_ & _ & [?|?])|[_ ?]]; done || lia.
  - assert (Hc : n < e_id e ∧ 0 ≤ e_type e) by naive_solver. split; [|cbn|cbn; lia].
    + apply snoc_sorted; [done|]. eapply Forall_impl; [exact He|]. intros x [_ [_ Hx] _ _]. cbn. lia.
    + apply Forall_app. split.
      * eapply Forall_impl; [exact He|]. intros x [? [? ?] ? ?]. split; try done. lia.
      * constructor; [|done]. split; try done. lia.
Qed.
Lemma log_view s log : view_ok s → log_ok_from s log → view_ok (foldl log_step s log).
Proof.
  revert s. induction log as [|e log IH]; intros s Hs; [done|]. intros [Hv Hl]. cbn.
  apply IH; [|done]. by apply log_step_view.
Qed.
Lemma replay_view log : log_ok log → view_ok (replay log).
Proof. apply log_view, view_start. Qed.

Lemma view_log l n : view_ok (l, n) → log_ok l ∧ replay l = (l, default 0 (e_id <$> last l)).
Proof.
  induction l as [|e l IH] using rev_ind; intros [Hs He Hn]; cbn [fst snd] in *; [done|].
  apply StronglySorted_snoc_inv in Hs as [Hs Hx]. apply Forall_app in He as [He1 He2].
  apply Forall_singleton in He2 as [Hok Hid Hfl Hty].
  destruct IH as (Hl & Hr); [by split|].
  assert (Hlast : default 0 (e_id <$> last l) < e_id e).
  { destruct l as [|y l _] using rev_ind; [cbn; lia|]. rewrite last_snoc. cbn.
    apply Forall_app in Hx as [_ Hx]. by decompose_Forall_hyps. }
  assert (Hnew : ¬ (e_flags e = Rewrite_flag ∧ e_id e ∈ e_id <$> l)).
  { intros [_ Hin]. apply list_elem_of_fmap in Hin as (y & Hy & Hin).
    rewrite Forall_forall in Hx. specialize (Hx y Hin). cbn in Hx. lia. }
  split.
  - apply log_ok_app. split; [done|]. fold (replay l). rewrite Hr. split; [|done].
    split; try done; [lia|]. by right.
  - rewrite replay_snoc, Hr. unfold log_step. cbn [fst snd]. by rewrite bool_decide_false, last_snoc.
Qed.

(** The entries in force are among those of the log. *)
Lemma replay_from s log x : x ∈ (foldl log_step s log).1 → x ∈ s.1 ∨ x ∈ log.
Proof.
  revert s. induction log as [|e log IH]; intros s; cbn; [by left|].
  intros [Hx|Hx]%IH; [|right; by right]. unfold log_step in Hx.
  case_bool_decide; [destruct (e_type e =? Empty_type)|]; cbn in Hx.
  - apply list_elem_of_filter in Hx as [_ Hx]. by left.
  - apply list_elem_of_fmap in Hx as (y & -> & Hy). case_match; [right; by left|by left].
  - set_solver.
Qed.
Lemma view_later l k n : view_ok (l, k) → k ≤ n < 2 ^ 63 → view_ok (l, n).
Proof.
  intros [Hs He Hk] Hn. cbn [fst snd] in *. split; [done| |cbn; lia].
  eapply Forall_impl; [exact He|]. intros e [? [? ?] ? ?]. split; try done. cbn. lia.
Qed.
Lemma replay_Forall (P : entry → Prop) log : Forall P log → Forall P (replay log).1.
Proof.
  rewrite !Forall_forall. intros HP x Hx. apply replay_from in Hx as [Hx|Hx]; [by apply elem_of_nil in Hx|auto].
Qed.

(** ** The processor keeps what the log says *)

#[local] Notation even i := (Z.land i 1 = 0).

Lemma even_double n : even (n * 2).
Proof. change 1 with (2 ^ 1 - 1). rewrite land_mask by lia. change (2 ^ 1) with 2. by rewrite Z.mod_mul. Qed.
Lemma odd_double n : Z.land (n * 2 + 1) 1 = 1.
Proof.
  change 1 with (2 ^ 1 - 1) at 2. rewrite land_mask by lia. change (2 ^ 1) with 2.
  rewrite Z.add_comm, Z.mod_add by lia. done.
Qed.

(** Sorted by the identifier, whether the mark is set or not. *)
#[local] Notation by_id := (λ x y : Z * BinlogEvent, x.1 / 2 < y.1 / 2).

Lemma half_lt a b : a / 2 < b / 2 → a < b.
Proof. Z.to_euclidean_division_equations. lia. Qed.

Lemma lower_bound_at z1 x e z2 : StronglySorted by_id (z1 ++ (x, e) :: z2) →
  lower_bound (z1 ++ (x, e) :: z2).*1 x = length z1.
Proof.
  induction z1 as [|[y e'] z1 IH]; cbn.
  - by rewrite Z.ltb_irrefl.
  - intros [Hs Hy]%StronglySorted_inv. rewrite Forall_forall in Hy.
    rewrite (proj2 (Z.ltb_lt y x)) by (apply half_lt, (Hy (x, e)); set_solver). by rewrite IH.
Qed.

Section spec.
Context (crc32 : list Z → Z).

(** [e] is in memory what the entry [x] is in the file; only its flags and its offset
    may have changed. *)
Definition is_event (x : entry) (e : BinlogEvent) : Prop :=
  ∃ offset flags, e = set_flags flags (event_of crc32 offset x).

Definition live (z : list (Z * BinlogEvent)) : list (Z * BinlogEvent) := filter (λ x, even x.1) z.
Definition holds_entry (x : Z * BinlogEvent) (e : entry) : Prop := x.1 = e_id e * 2 ∧ is_event e x.2.

Definition total_size (l : list entry) : Z := foldr (λ e n, entry_size e + n) 0 l.

(** [p] holds the entries of [s]; [z] are its two vectors. *)
Record vectors (p : BinlogEventsProcessor) (s : log_state) (z : list (Z * BinlogEvent)) : Prop := {
  vec_ids : event_ids_ p = z.*1;
  vec_events : events_ p = z.*2;
  vec_sorted : StronglySorted by_id z;
  vec_bound : Forall (λ x, x.1 ≤ s.2 * 2 + 1) z;
  vec_last : last_event_id_ p = s.2 ∧ 0 ≤ s.2 < 2 ^ 63;
  vec_live : Forall2 holds_entry (live z) s.1;
  vec_size : total_raw_events_size_ p = total_size s.1;
}.
Definition proc_ok p s : Prop := ∃ z, vectors p s z.

Lemma proc_last p l n : proc_ok p (l, n) → 0 ≤ n < 2 ^ 63.
Proof. intros [z Hz]. by destruct (vec_last _ _ _ Hz) as [_ Hn]. Qed.
Lemma proc_last_id p s : proc_ok p s → last_event_id_ p = s.2.
Proof. intros [z Hz]. apply (vec_last _ _ _ Hz). Qed.
Lemma proc_start_ok : proc_ok mk_BinlogEventsProcessor log_start.
Proof. exists []. split; try done; constructor. Qed.

Lemma compact_loop_spec z : compact_loop z.*1 z.*2 = ((live z).*1, (live z).*2).
Proof.
  induction z as [|[i e] z IH]; [done|]. cbn. rewrite IH. unfold live. cbn.
  case_decide as H; [by rewrite H|]. by rewrite (proj2 (Z.eqb_neq _ _) H).
Qed.
Lemma live_sublist z : sublist (live z) z.
Proof. apply sublist_filter. Qed.

Lemma compactify_spec p s : proc_ok p s →
  ∃ p', compactify p = Ok p' ∧ proc_ok p' s ∧ proc_offset_ p' = proc_offset_ p.
Proof.
  intros [z [Hi He Hs Hb Hl Hv Ht]]. unfold compactify. rewrite Hi, He, !length_fmap, Nat.eqb_refl.
  cbn [cassert mbind outcome_bind]. rewrite compact_loop_spec, !length_fmap, Nat.eqb_refl.
  cbn [cassert mbind outcome_bind]. eexists. split; [done|]. split; [|done].
  exists (live z). split; simpl; try done.
  - eapply sublist_sorted; [apply live_sublist|done].
  - eapply Forall_sublist; [apply live_sublist|done].
  - unfold live. by rewrite list_filter_filter_l by done.
Qed.

Lemma finish_spec p s (c : bool) : proc_ok p s →
  ∃ p', (p ← (if c then compactify p else Ok p); Ok (p, SOk)) = Ok (p', SOk) ∧ proc_ok p' s ∧
    proc_offset_ p' = proc_offset_ p.
Proof.
  intros Hp. destruct c; [|by exists p].
  destruct (compactify_spec p s Hp) as (p' & -> & H). by exists p'.
Qed.

(** The end of [do_event]: it is enough that the vectors before it hold [s]. *)
Ltac finish_with s :=
  cbv zeta;
  match goal with |- ∃ p', mbind _ (if ?c then compactify ?p1 else _) = _ ∧ _ =>
    let p' := fresh "p'" in let E := fresh "E" in
    destruct (finish_spec p1 s c) as (p' & E & ? & ?); [|exists p'; rewrite E; by split_and!] end.

Lemma live_app z1 z2 : live (z1 ++ z2) = live z1 ++ live z2.
Proof. apply filter_app. Qed.
Lemma live_even i e z : live ((i * 2, e) :: z) = (i * 2, e) :: live z.
Proof. unfold live. by rewrite filter_cons_True by apply even_double. Qed.
Lemma live_odd i e z : live ((i * 2 + 1, e) :: z) = live z.
Proof. unfold live. rewrite filter_cons_False; [done|]. cbn. by rewrite odd_double. Qed.

(** Where an entry in force is in the vectors. *)
Lemma find_live z l id : Forall2 holds_entry (live z) l → id ∈ e_id <$> l →
  ∃ z1 old z2 l1 x l2, z = z1 ++ (id * 2, old) :: z2 ∧ l = l1 ++ x :: l2 ∧ e_id x = id ∧
    is_event x old ∧ Forall2 holds_entry (live z1) l1 ∧ Forall2 holds_entry (live z2) l2.
Proof.
  revert l. induction z as [|[i e] z IH]; intros l Hl Hid.
  { apply Forall2_nil_inv_l in Hl as ->. by apply elem_of_nil in Hid. }
  unfold live in Hl. rewrite filter_cons in Hl. fold (live z) in Hl. case_decide as Hi; cbn in Hi.
  - apply Forall2_cons_inv_l in Hl as (x & l' & [Hx He] & Hl & ->). cbn in Hx, He. subst i.
    destruct (decide (e_id x = id)) as [<-|Hne].
    { by exists [], e, z, [], x, l'. }
    destruct (IH l' Hl) as (z1 & old & z2 & l1 & y & l2 & -> & -> & Hy & Ho & H1 & H2).
    { rewrite fmap_cons in Hid. apply elem_of_cons in Hid as [|]; [congruence|done]. }
    exists ((e_id x * 2, e) :: z1), old, z2, (x :: l1), y, l2. rewrite live_even.
    repeat split; auto. constructor; [by split|done].
  - destruct (IH l Hl Hid) as (z1 & old & z2 & l1 & y & l2 & -> & -> & Hy & Ho & H1 & H2).
    exists ((i, e) :: z1), old, z2, l1, y, l2. repeat split; auto.
    unfold live. by rewrite filter_cons_False.
Qed.

(** No other entry has that identifier. *)
Lemma live_ids z l i : Forall2 holds_entry (live z) l → Forall (λ x, x.1 ≠ i * 2) z →
  Forall (λ x, e_id x ≠ i) l.
Proof.
  intros Hl Hz. assert (Forall (λ x, x.1 ≠ i * 2) (live z)) as Hz'.
  { eapply Forall_sublist; [apply live_sublist|done]. }
  clear Hz. induction Hl as [|x e z' l [Hx _] _ IH]; decompose_Forall_hyps; constructor; auto. lia.
Qed.
Lemma by_id_mid z1 x z2 : StronglySorted by_id (z1 ++ x :: z2) →
  Forall (λ y, y.1 / 2 < x.1 / 2) z1 ∧ Forall (λ y, x.1 / 2 < y.1 / 2) z2.
Proof.
  induction z1 as [|y z1 IH]; cbn; intros [Hs Hx]%StronglySorted_inv; [by split|].
  destruct (IH Hs) as [H1 H2]. split; [|done]. constructor; [|done].
  rewrite Forall_forall in Hx. apply Hx. set_solver.
Qed.
Lemma sorted_put z1 x y z2 : x.1 / 2 = y.1 / 2 →
  StronglySorted by_id (z1 ++ x :: z2) → StronglySorted by_id (z1 ++ y :: z2).
Proof.
  intros Hxy. induction z1 as [|u z1 IH]; cbn; intros [Hs Hu]%StronglySorted_inv.
  - constructor; [done|]. by rewrite <-Hxy.
  - constructor; [auto|]. apply Forall_app in Hu as [Hu1 Hu2]. apply Forall_app.
    decompose_Forall_hyps. rewrite Hxy in *. auto.
Qed.
(** The last identifier is not less than any of them. *)
Lemma last_above z1 x z2 : StronglySorted by_id (z1 ++ x :: z2) →
  ∃ b, last (z1 ++ x :: z2).*1 = Some b ∧ x.1 ≤ b.
Proof.
  intros Hs. destruct (by_id_mid _ _ _ Hs) as [_ H2].
  destruct z2 as [|y z2 _] using rev_ind.
  - exists x.1. split; [|lia]. rewrite fmap_app. apply last_snoc.
  - exists y.1. rewrite app_comm_cons, app_assoc, fmap_app. split; [apply last_snoc|].
    apply Forall_app in H2 as [_ H2]. decompose_Forall_hyps. apply Z.lt_le_incl. by apply half_lt.
Qed.
Lemma last_below (z : list (Z * BinlogEvent)) n b : Forall (λ x, x.1 ≤ n) z → last z.*1 = Some b → b ≤ n.
Proof.
  destruct z as [|y z _] using rev_ind; [done|]. rewrite fmap_app, Forall_app.
  intros [_ H]. decompose_Forall_hyps. change [y].*1 with [y.1]. rewrite last_snoc. by intros [= <-].
Qed.
Lemma total_size_app l1 l2 : total_size (l1 ++ l2) = total_size l1 + total_size l2.
Proof. induction l1; simpl; lia. Qed.
Lemma total_size_cons x l : total_size (x :: l) = entry_size x + total_size l.
Proof. done. Qed.
Lemma is_event_size x e : is_event x e → event_size e = entry_size x.
Proof. intros (o & f & ->). apply (event_size_of crc32 o). Qed.

(** *** One event *)

Lemma flag_test f : (f = 0 ∨ f = Rewrite_flag) →
  negb (Z.land f Rewrite_flag =? 0) = bool_decide (f = Rewrite_flag).
Proof. by intros [->| ->]. Qed.

Lemma fixed_id id : 0 < id < 2 ^ 63 → u64 (id * 2) = id * 2.
Proof. intros. apply u64_small. unfold two64. lia. Qed.

Lemma insert_mid {A} (l1 l2 : list A) x y n : n = length l1 → <[n := y]> (l1 ++ x :: l2) = l1 ++ y :: l2.
Proof. intros ->. by rewrite insert_app_r_alt, Nat.sub_diag by done. Qed.

Lemma log_step_at l1 x l2 n e : e_flags e = Rewrite_flag → e_id x = e_id e →
  Forall (λ y, e_id y ≠ e_id e) l1 → Forall (λ y, e_id y ≠ e_id e) l2 →
  log_step (l1 ++ x :: l2, n) e = (if e_type e =? Empty_type then l1 ++ l2 else l1 ++ e :: l2, n).
Proof.
  intros Hrw Hx H1 H2. unfold log_step. cbn [fst snd]. rewrite bool_decide_true.
  2:{ split; [done|]. rewrite fmap_app, fmap_cons, Hx. set_solver. }
  assert (Hkeep : ∀ l, Forall (λ y, e_id y ≠ e_id e) l → (λ y, if e_id y =? e_id e then e else y) <$> l = l).
  { induction 1 as [|y l Hy _ IH]; [done|]. rewrite fmap_cons, IH. by rewrite (proj2 (Z.eqb_neq _ _) Hy). }
  case (e_type e =? Empty_type).
  - by rewrite filter_app, filter_cons_False, !filter_all by naive_solver.
  - by rewrite fmap_app, fmap_cons, Hx, Z.eqb_refl, !Hkeep by done.
Qed.

Lemma do_event_rewrite p l n e offset : proc_ok p (l, n) → log_valid (l, n) e →
  e_flags e = Rewrite_flag → e_id e ∈ e_id <$> l →
  ∃ p', do_event (event_of crc32 offset e) p = Ok (p', SOk) ∧ proc_ok p' (log_step (l, n) e) ∧
    proc_offset_ p' = offset.
Proof.
  intros [z [Hi He Hs Hb [Hn Hn0] Hv Ht]] [Hok Hid Hfl Hcase] Hrw Hin. cbn [fst snd] in *.
  destruct (find_live z l (e_id e) Hv Hin) as (z1 & old & z2 & l1 & x & l2 & -> & -> & Hx & Hold & H1 & H2).
  destruct (by_id_mid _ _ _ Hs) as [Hz1 Hz2]. cbn [fst] in Hz1, Hz2.
  destruct (last_above _ _ _ Hs) as (b & Hlast & Hb2). cbn [fst] in Hb2.
  assert (Forall (λ y, e_id y ≠ e_id e) l1 ∧ Forall (λ y, e_id y ≠ e_id e) l2) as [Hl1 Hl2].
  { split; (eapply live_ids; [done|]); eapply Forall_impl; try done;
      intros y Hy Heq; cbn in Hy; rewrite Heq in Hy; Z.to_euclidean_division_equations; lia. }
  unfold do_event. cbn [event_of id_ flags_ offset_ type_]. rewrite fixed_id by done.
  rewrite flag_test, bool_decide_true by done. rewrite Hi, Hlast, (proj2 (Z.leb_le _ _)) by done.
  cbn [andb]. rewrite lower_bound_at by done.
  rewrite fmap_app, fmap_cons, list_lookup_middle by (by rewrite length_fmap). cbn [fst].
  rewrite Z.eqb_refl. cbn [negb]. rewrite He, fmap_app, fmap_cons, list_lookup_middle by (by rewrite length_fmap).
  cbn [deref mbind outcome_bind snd].
  rewrite log_step_at by done.
  rewrite total_size_app, total_size_cons, <-(is_event_size _ _ Hold) in Ht.
  apply Forall_app in Hb as [Hb1 Hb'].
  case (Z.eqb_spec (e_type e) Empty_type) as [Hty|Hty].
  - finish_with (l1 ++ l2, n).
    exists (z1 ++ (e_id e * 2 + 1, new_event) :: z2).
    split; cbn [event_ids_ events_ last_event_id_ total_raw_events_size_ fst snd]; try done.
    + rewrite insert_mid by (by rewrite length_fmap). by rewrite fmap_app.
    + rewrite insert_mid by (by rewrite length_fmap). by rewrite fmap_app.
    + eapply sorted_put; [|done]. cbn. Z.to_euclidean_division_equations. lia.
    + apply Forall_app. split; [done|]. decompose_Forall_hyps. constructor; [cbn in *; lia|done].
    + rewrite live_app, live_odd. by apply Forall2_app.
    + rewrite Ht, total_size_app. lia.
  - finish_with (l1 ++ e :: l2, n).
    exists (z1 ++ (e_id e * 2, set_flags (Z.land (e_flags e) (Z.lnot Rewrite_flag)) (event_of crc32 offset e)) :: z2).
    split; cbn [event_ids_ events_ last_event_id_ total_raw_events_size_ fst snd]; try done.
    + by rewrite fmap_app.
    + rewrite insert_mid by (by rewrite length_fmap). by rewrite fmap_app.
    + eapply sorted_put; [|done]. done.
    + apply Forall_app. split; [done|]. decompose_Forall_hyps. by constructor.
    + rewrite live_app, live_even. apply Forall2_app; [done|]. constructor; [|done].
      split; [done|]. cbn. by eexists _, _.
    + change (event_size (set_flags ?f ?e)) with (event_size e). rewrite event_size_of, Ht, total_size_app.
      rewrite total_size_cons. lia.
Qed.

Lemma do_event_add p l n e offset : proc_ok p (l, n) → log_valid (l, n) e → n < e_id e → 0 ≤ e_type e →
  ∃ p', do_event (event_of crc32 offset e) p = Ok (p', SOk) ∧ proc_ok p' (log_step (l, n) e) ∧
    proc_offset_ p' = offset.
Proof.
  intros [z [Hi He Hs Hb [Hn Hn0] Hv Ht]] [Hok Hid Hfl Hcase] Hnew Hty. cbn [fst snd] in *.
  assert (Hback : ∀ b, last z.*1 = Some b → b < e_id e * 2).
  { intros b Hlast. pose proof (last_below _ _ _ Hb Hlast). lia. }
  assert (Hfresh : Forall (λ x, x.1 / 2 < e_id e) z).
  { eapply Forall_impl; [exact Hb|]. intros x Hx. cbn in Hx. Z.to_euclidean_division_equations. lia. }
  unfold do_event. cbn [event_of id_ flags_ offset_ type_]. rewrite fixed_id, Hi by done.
  rewrite (proj2 (andb_false_iff _ _)).
  2:{ right. destruct (last z.*1) as [b|]; [|done]. apply Z.leb_gt. by apply Hback. }
  rewrite (proj2 (Z.ltb_ge _ _)) by done.
  replace (match last z.*1 with Some b => negb (b <? e_id e * 2) | None => false end) with false.
  2:{ destruct (last z.*1) as [b|]; [|done]. by rewrite (proj2 (Z.ltb_lt _ _)) by (by apply Hback). }
  unfold log_step. cbn [fst snd]. rewrite bool_decide_false.
  2:{ intros [_ Hin]. destruct (find_live _ _ _ Hv Hin) as (z1 & o & z2 & _ & _ & _ & -> & _).
      apply Forall_app in Hfresh as [_ Hf]. decompose_Forall_hyps.
      Z.to_euclidean_division_equations. lia. }
  finish_with (l ++ [e], e_id e). exists (z ++ [(e_id e * 2, event_of crc32 offset e)]).
  split; cbn [event_ids_ events_ last_event_id_ total_raw_events_size_ fst snd]; try done.
  - by rewrite fmap_app.
  - by rewrite He, fmap_app.
  - apply snoc_sorted; [done|]. cbn. by rewrite Z.div_mul.
  - apply Forall_app. split; [eapply Forall_impl; [exact Hb|]; cbn; lia|]. constructor; [cbn; lia|done].
  - split; [done|lia].
  - rewrite live_app. apply Forall2_app; [done|]. rewrite live_even. constructor; [|done].
    split; [done|]. by exists offset, (e_flags e).
  - rewrite event_size_of, Ht, total_size_app, total_size_cons. cbn. lia.
Qed.

Lemma do_event_spec p s e offset : proc_ok p s → log_valid s e →
  ∃ p', do_event (event_of crc32 offset e) p = Ok (p', SOk) ∧ proc_ok p' (log_step s e) ∧
    proc_offset_ p' = offset.
Proof.
  destruct s as [l n]. intros Hp Hv. pose proof Hv as [_ _ _ [(Hrw & Hin & _)|[Hnew Hty]]].
  - by apply do_event_rewrite.
  - by apply do_event_add.
Qed.

(** All the entries of a log, one after the other. *)
Definition add_entries (log : list entry) (p : BinlogEventsProcessor) : outcome BinlogEventsProcessor :=
  ofold (λ p e, '(p, status) ← proc_add_event (event_of crc32 0 e) p; _ ← ensure status; Ok p) p log.
Lemma add_entries_spec log p s : proc_ok p s → log_ok_from s log →
  ∃ p', add_entries log p = Ok p' ∧ proc_ok p' (foldl log_step s log).
Proof.
  revert p s. induction log as [|e log IH]; intros p s Hp; [by exists p|]. intros [Hv Hl].
  destruct (do_event_spec p s e 0 Hp Hv) as (p1 & E1 & Hp1 & _). destruct (IH p1 _ Hp1 Hl) as (p2 & E2 & Hp2).
  exists p2. split; [|done]. unfold add_entries in *. cbn [ofold]. change (proc_add_event (event_of crc32 0 e) p) with (do_event (event_of crc32 0 e) p). rewrite E1. cbn. exact E2.
Qed.

(** Service events change nothing but the offset. *)
Lemma do_event_service p s e : proc_ok p s → type_ e < 0 → flags_ e = 0 →
  ∃ p', do_event e p = Ok (p', SOk) ∧ proc_ok p' s ∧ proc_offset_ p' = offset_ e.
Proof.
  intros [z [Hi He Hs Hb Hn Hv Ht]] Hty Hfl. unfold do_event. rewrite Hfl. change (negb (Z.land 0 Rewrite_flag =? 0)) with false. cbn [andb].
  rewrite (proj2 (Z.ltb_lt _ _)) by done. finish_with s. by exists z.
Qed.

(** [for_each] passes over the events in force, in order. *)
Lemma for_each_loop_spec {S} (callback : S → BinlogEvent → outcome S) z previous s :
  StronglySorted by_id z → (∀ i, previous = Some i → Forall (λ x, i < x.1) z) →
  for_each_loop callback previous z.*1 z.*2 s = ofold callback s (live z).*2.
Proof.
  revert previous s. induction z as [|[i e] z IH]; intros previous s Hs Hp; [done|].
  apply StronglySorted_inv in Hs as [Hs Hi]. cbn [fmap list_fmap for_each_loop fst snd].
  cbn [head tail deref mbind outcome_bind].
  replace (match previous with Some x => x <? i | None => true end) with true.
  2:{ destruct previous as [j|]; [|done]. specialize (Hp j eq_refl). decompose_Forall_hyps. by rewrite (proj2 (Z.ltb_lt _ _)). }
  cbn [cassert mbind outcome_bind]. unfold live. rewrite filter_cons. cbn [fst].
  assert (∀ j, Some i = Some j → Forall (λ x, j < x.1) z) as Hnext.
  { intros j [= <-]. eapply Forall_impl; [exact Hi|]. intros x. apply half_lt. }
  case_decide as H.
  - rewrite H. cbn. destruct (callback s e); [|done]. by apply IH.
  - rewrite (proj2 (Z.eqb_neq _ _) H). by apply IH.
Qed.
Lemma for_each_spec {S} (callback : S → BinlogEvent → outcome S) p st : proc_ok p st →
  ∃ events, Forall2 is_event st.1 events ∧ ∀ s, for_each callback p s = ofold callback s events.
Proof.
  intros [z [Hi He Hs _ _ Hv _]]. exists (live z).*2. split.
  - apply Forall2_fmap_r. apply Forall2_flip. eapply Forall2_impl; [exact Hv|]. by intros x y [_ H].
  - intros s. unfold for_each. rewrite Hi, He. by apply for_each_loop_spec.
Qed.
End spec.
