(* ===== verification/FileSystem.v ===== *)
(** * Files under crashes

    The two files of a log, [path] and [path + ".new"], as the operating system keeps
    them ([td/tdutils/td/utils/port], which calls it). Bytes that were written reach the
    disk in order; only those before the last [sync] are sure to survive a crash.
    Creating, truncating, unlinking and renaming take effect at once. The history keeps
    every state of the disk, so that a theorem can speak of a crash at any moment. *)
From S2P Require Import Prelude Bytes.

Record file := { content : list Z; durable : nat }.
Inductive path := Main | New.
Record disk := { main_file : option file; new_file : option file }.
#[export] Instance file_eq_dec : EqDecision file.
Proof. solve_decision. Defined.
#[export] Instance disk_eq_dec : EqDecision disk.
Proof. solve_decision. Defined.

Definition file_at (p : path) (d : disk) : option file :=
  match p with Main => main_file d | New => new_file d end.
Definition set_file (p : path) (f : option file) (d : disk) : disk :=
  match p with
  | Main => {| main_file := f; new_file := new_file d |}
  | New => {| main_file := main_file d; new_file := f |}
  end.

(** The disk now, and the states it was in before, the latest first. *)
Record file_system := { now : disk; past : list disk }.
Definition change (d : disk) (fs : file_system) : file_system :=
  {| now := d; past := now fs :: past fs |}.
(** Every state so far. *)
Definition states (fs : file_system) : list disk := now fs :: past fs.

(** ** System calls *)

(** [stat(path).is_ok()] *)
Definition exists_file (p : path) (fs : file_system) : bool :=
  match file_at p (now fs) with Some _ => true | None => false end.
(** [stat(path).size_] and [fd.get_size()]; [detail::file_size] is 0 for a missing file. *)
Definition file_size (p : path) (fs : file_system) : Z :=
  match file_at p (now fs) with Some f => Z.of_nat (length (content f)) | None => 0 end.

(** [FileFd::open] with [Create], and with [Truncate] too. *)
Definition open_create (p : path) (fs : file_system) : file_system :=
  if exists_file p fs then fs else change (set_file p (Some {| content := []; durable := 0 |}) (now fs)) fs.
Definition open_truncate (p : path) (fs : file_system) : file_system :=
  change (set_file p (Some {| content := []; durable := 0 |}) (now fs)) fs.

(** [pread] *)
Definition read_at (p : path) (pos n : Z) (fs : file_system) : outcome (list Z) :=
  f ← deref (file_at p (now fs));
  Ok (take (Z.to_nat n) (drop (Z.to_nat pos) (content f))).
(** [write] at the position of the descriptor; beyond the end, the gap reads as zeros. *)
Definition write_at (p : path) (pos : Z) (bytes : list Z) (fs : file_system) : outcome file_system :=
  f ← deref (file_at p (now fs));
  let n := Z.to_nat pos in
  let old := content f ++ replicate (n - length (content f)) 0 in
  let content' := take n old ++ bytes ++ drop (n + length bytes) old in
  Ok (if bool_decide (bytes = []) then fs
      else change (set_file p (Some {| content := content'; durable := durable f `min` n |}) (now fs)) fs).
Definition truncate (p : path) (n : Z) (fs : file_system) : outcome file_system :=
  f ← deref (file_at p (now fs));
  let n := Z.to_nat n in
  Ok (change (set_file p (Some {| content := take n (content f) ++ replicate (n - length (content f)) 0;
                                  durable := durable f `min` n |}) (now fs)) fs).
(** [fd.sync()]: [fsync]; [fd.sync_barrier()] is the same but on Apple's systems. *)
Definition sync_file (p : path) (fs : file_system) : outcome file_system :=
  f ← deref (file_at p (now fs));
  Ok (change (set_file p (Some {| content := content f; durable := length (content f) |}) (now fs)) fs).
(** [unlink] and [rename], with whether they succeed. *)
Definition unlink (p : path) (fs : file_system) : file_system * bool :=
  if exists_file p fs then (change (set_file p None (now fs)) fs, true) else (fs, false).
Definition rename (from to : path) (fs : file_system) : file_system * bool :=
  match file_at from (now fs) with
  | Some f => (change (set_file to (Some f) (set_file from None (now fs))) fs, true)
  | None => (fs, false)
  end.

(** ** Crashes *)

(** After a crash: a prefix of the file that has at least what was synced. *)
Record file_crash (f f' : file) : Prop := {
  crash_prefix : content f' `prefix_of` content f;
  crash_durable : (durable f ≤ length (content f'))%nat;
  crash_settled : durable f' = length (content f');
}.
Definition crash (d d' : disk) : Prop :=
  option_Forall2 file_crash (main_file d) (main_file d') ∧
  option_Forall2 file_crash (new_file d) (new_file d').

(** The disk found by the next run. *)
Definition after_crash (d : disk) : file_system := {| now := d; past := [] |}.
