(* ===== verification/BinlogState.v ===== *)
(** * The object [Binlog] ([td/tddb/td/db/binlog/Binlog.h])

    The functions of the cryptographic library, the event that turns encryption on, and
    the members of the class. *)
From S2P Require Import Prelude Bytes TlParsers TlParserFacts TlHelpers BinlogEvent BinlogEventsProcessor FileSystem.

(** ** Cryptography ([td/tdutils/td/utils/crypto.h], on top of OpenSSL and zlib) *)

Class Crypto := {
  crc32 : list Z → Z;
  (** Password, salt, number of iterations; the key has the size that is asked for. *)
  pbkdf2_sha256 : list Z → list Z → Z → list Z;
  hmac_sha256 : list Z → list Z → list Z;
  (** The byte of the key stream at a position, for a key and an initial counter. *)
  aes_ctr : list Z → list Z → nat → Z;
  (** [Random::secure_bytes]: the bytes of the [i]-th request, which asks for [n]. *)
  secure_bytes : nat → nat → list Z;
}.
Class CryptoLaws `{Crypto} := {
  crc32_uint32 : Checksum crc32;
  pbkdf2_bytes password salt n : bytes_ok (pbkdf2_sha256 password salt n);
  pbkdf2_size password salt n : length (pbkdf2_sha256 password salt n) = 32%nat;
  hmac_bytes key message : bytes_ok (hmac_sha256 key message);
  hmac_size key message : length (hmac_sha256 key message) = 32%nat;
  aes_ctr_byte key iv i : byte (aes_ctr key iv i);
  secure_bytes_ok i n : bytes_ok (secure_bytes i n);
  secure_bytes_size i n : length (secure_bytes i n) = n;
}.
#[export] Existing Instance crc32_uint32.

(** [AesCtrState]: the cipher and how many bytes it has passed over. *)
Record AesCtrState := { ctr_key : list Z; ctr_iv : list Z; ctr_pos : nat }.
Definition ctr_init (key iv : list Z) : outcome AesCtrState :=
  _ ← cassert (length key =? 32)%nat;
  _ ← cassert (length iv =? 16)%nat;
  Ok {| ctr_key := key; ctr_iv := iv; ctr_pos := 0 |}.
Definition ctr_skip (n : nat) (st : AesCtrState) : AesCtrState :=
  {| ctr_key := ctr_key st; ctr_iv := ctr_iv st; ctr_pos := ctr_pos st + n |}.
Definition ctr_xor `{Crypto} (st : AesCtrState) (from : list Z) : list Z :=
  imap (λ i b, Z.lxor b (aes_ctr (ctr_key st) (ctr_iv st) (ctr_pos st + i))) from.
(** [AesCtrState::encrypt]; decryption is the same. *)
Definition ctr_encrypt `{Crypto} (st : AesCtrState) (from : list Z) : list Z * AesCtrState :=
  (ctr_xor st from, ctr_skip (length from) st).

(** [MutableSlice::copy_from] *)
Definition copy_from (to from : list Z) : outcome (list Z) :=
  _ ← cassert (length from <=? length to)%nat;
  Ok (from ++ drop (length from) to).

(** [DbKey] *)
Inductive DbKey := EmptyKey | RawKey (data : list Z) | Password (data : list Z).
#[global] Instance DbKey_eq_dec : EqDecision DbKey.
Proof. solve_decision. Defined.
Definition key_is_empty (k : DbKey) : bool := match k with EmptyKey => true | _ => false end.
Definition is_raw_key (k : DbKey) : bool := match k with RawKey _ => true | _ => false end.
Definition key_data (k : DbKey) : list Z :=
  match k with EmptyKey => [] | RawKey data => data | Password data => data end.

(** ** [detail::AesCtrEncryptionEvent] *)

Definition default_salt_size : nat := 32.
Definition key_size : nat := 32.
Definition iv_size : nat := 16.
Definition hash_size : nat := 32.
Definition kdf_iteration_count : Z := 60002.
Definition kdf_fast_iteration_count : Z := 2.

Record AesCtrEncryptionEvent := { key_salt_ : list Z; iv_ : list Z; key_hash_ : list Z }.

Definition generate_key `{Crypto} (key_salt : list Z) (db_key : DbKey) : outcome (list Z) :=
  _ ← cassert (negb (key_is_empty db_key));
  let iteration_count := if is_raw_key db_key then kdf_fast_iteration_count else kdf_iteration_count in
  Ok (pbkdf2_sha256 (key_data db_key) key_salt iteration_count).
Definition generate_hash `{Crypto} (key : list Z) : list Z :=
  hmac_sha256 key (string_bytes "cucumbers everywhere").

#[export] Instance tl_encryption_event : TlObject AesCtrEncryptionEvent := {|
  tl_default := {| key_salt_ := []; iv_ := []; key_hash_ := [] |};
  tl_store St _ x storer :=
    storer ← store_flags [] storer;
    storer ← store (Str (key_salt_ x)) storer;
    storer ← store (Str (iv_ x)) storer;
    store (Str (key_hash_ x)) storer;
  tl_parse x parser :=
    '(_, parser) ← parse_flags 0 parser;
    '(salt, parser) ← parse (Str (key_salt_ x)) parser;
    '(iv, parser) ← parse (Str (iv_ x)) parser;
    '(hash, parser) ← parse (Str (key_hash_ x)) parser;
    Ok ({| key_salt_ := get_str salt; iv_ := get_str iv; key_hash_ := get_str hash |}, parser);
|}.

(** It is stored as a structure of flags and three strings. *)
Definition as_tuple (x : AesCtrEncryptionEvent) : flag_set 0 * (tl_string * (tl_string * tl_string)) :=
  (Flags [], (Str (key_salt_ x), (Str (iv_ x), Str (key_hash_ x)))).

(** ** The class *)

(** Where the reader takes its input: from [buffer_reader_] or from [byte_flow_sink_]. *)
Inductive reader_input := InBuffer | InSink.
(** [detail::BinlogReader]; [reading_event] is [state_ == State::ReadEvent]. *)
Record BinlogReader := {
  input_ : option reader_input;
  reading_event : bool;
  rd_size : Z;
  rd_offset : Z;
}.

(** [is_encrypted], which nothing sets, is left out. *)
Record BinlogInfo := {
  was_created : bool;
  info_last_event_id : Z;
  wrong_password : bool;
  is_opened : bool;
}.
Definition mk_BinlogInfo : BinlogInfo :=
  {| was_created := false; info_last_event_id := 0; wrong_password := false; is_opened := false |}.

Inductive EncryptionType := NoEncryption | AesCtr.
Inductive State := Empty | Load | Reindex | Run.
#[global] Instance EncryptionType_eq_dec : EqDecision EncryptionType.
Proof. solve_decision. Defined.
#[global] Instance State_eq_dec : EqDecision State.
Proof. solve_decision. Defined.

(** [fd_] is the open file and the position in it. [buffer_] are the bytes of
    [buffer_reader_]; with [byte_flow_flag_], they go through the cipher [flow_state_]
    ([aes_xcode_byte_flow_]) to [sink_]. [events_buffer_] is always null. The paths are
    the two of [fs_], and [drawn_] counts the requests for random bytes. The times at
    which buffers are to be flushed are left out. *)
Record Binlog := mk_Binlog {
  fd_ : option (path * Z);
  buffer_ : list Z;
  sink_ : list Z;
  byte_flow_flag_ : bool;
  flow_state_ : option AesCtrState;
  binlog_reader_ : option BinlogReader;
  info_ : BinlogInfo;
  db_key_ : DbKey;
  db_key_used_ : bool;
  old_db_key_ : DbKey;
  encryption_type_ : EncryptionType;
  aes_ctr_key_salt_ : list Z;
  aes_ctr_key_ : list Z;
  aes_ctr_state_ : option AesCtrState;
  fd_size_ : Z;
  fd_events_ : Z;
  pending_events_ : list BinlogEvent;
  processor_ : BinlogEventsProcessor;
  last_id_ : Z;
  need_sync_ : bool;
  state_ : State;
  fs_ : file_system;
  drawn_ : nat;
}.
Definition set_fd v b :=
  mk_Binlog v (buffer_ b) (sink_ b) (byte_flow_flag_ b) (flow_state_ b) (binlog_reader_ b)
    (info_ b) (db_key_ b) (db_key_used_ b) (old_db_key_ b) (encryption_type_ b)
    (aes_ctr_key_salt_ b) (aes_ctr_key_ b) (aes_ctr_state_ b) (fd_size_ b) (fd_events_ b)
    (pending_events_ b) (processor_ b) (last_id_ b) (need_sync_ b) (state_ b) (fs_ b) (drawn_ b).
Definition set_buffer v b :=
  mk_Binlog (fd_ b) v (sink_ b) (byte_flow_flag_ b) (flow_state_ b) (binlog_reader_ b) (info_ b)
    (db_key_ b) (db_key_used_ b) (old_db_key_ b) (encryption_type_ b) (aes_ctr_key_salt_ b)
    (aes_ctr_key_ b) (aes_ctr_state_ b) (fd_size_ b) (fd_events_ b) (pending_events_ b)
    (processor_ b) (last_id_ b) (need_sync_ b) (state_ b) (fs_ b) (drawn_ b).
Definition set_sink v b :=
  mk_Binlog (fd_ b) (buffer_ b) v (byte_flow_flag_ b) (flow_state_ b) (binlog_reader_ b)
    (info_ b) (db_key_ b) (db_key_used_ b) (old_db_key_ b) (encryption_type_ b)
    (aes_ctr_key_salt_ b) (aes_ctr_key_ b) (aes_ctr_state_ b) (fd_size_ b) (fd_events_ b)
    (pending_events_ b) (processor_ b) (last_id_ b) (need_sync_ b) (state_ b) (fs_ b) (drawn_ b).
Definition set_byte_flow_flag v b :=
  mk_Binlog (fd_ b) (buffer_ b) (sink_ b) v (flow_state_ b) (binlog_reader_ b) (info_ b)
    (db_key_ b) (db_key_used_ b) (old_db_key_ b) (encryption_type_ b) (aes_ctr_key_salt_ b)
    (aes_ctr_key_ b) (aes_ctr_state_ b) (fd_size_ b) (fd_events_ b) (pending_events_ b)
    (processor_ b) (last_id_ b) (need_sync_ b) (state_ b) (fs_ b) (drawn_ b).
Definition set_flow_state v b :=
  mk_Binlog (fd_ b) (buffer_ b) (sink_ b) (byte_flow_flag_ b) v (binlog_reader_ b) (info_ b)
    (db_key_ b) (db_key_used_ b) (old_db_key_ b) (encryption_type_ b) (aes_ctr_key_salt_ b)
    (aes_ctr_key_ b) (aes_ctr_state_ b) (fd_size_ b) (fd_events_ b) (pending_events_ b)
    (processor_ b) (last_id_ b) (need_sync_ b) (state_ b) (fs_ b) (drawn_ b).
Definition set_binlog_reader v b :=
  mk_Binlog (fd_ b) (buffer_ b) (sink_ b) (byte_flow_flag_ b) (flow_state_ b) v (info_ b)
    (db_key_ b) (db_key_used_ b) (old_db_key_ b) (encryption_type_ b) (aes_ctr_key_salt_ b)
    (aes_ctr_key_ b) (aes_ctr_state_ b) (fd_size_ b) (fd_events_ b) (pending_events_ b)
    (processor_ b) (last_id_ b) (need_sync_ b) (state_ b) (fs_ b) (drawn_ b).
Definition set_info v b :=
  mk_Binlog (fd_ b) (buffer_ b) (sink_ b) (byte_flow_flag_ b) (flow_state_ b) (binlog_reader_ b)
    v (db_key_ b) (db_key_used_ b) (old_db_key_ b) (encryption_type_ b) (aes_ctr_key_salt_ b)
    (aes_ctr_key_ b) (aes_ctr_state_ b) (fd_size_ b) (fd_events_ b) (pending_events_ b)
    (processor_ b) (last_id_ b) (need_sync_ b) (state_ b) (fs_ b) (drawn_ b).
Definition set_db_key v b :=
  mk_Binlog (fd_ b) (buffer_ b) (sink_ b) (byte_flow_flag_ b) (flow_state_ b) (binlog_reader_ b)
    (info_ b) v (db_key_used_ b) (old_db_key_ b) (encryption_type_ b) (aes_ctr_key_salt_ b)
    (aes_ctr_key_ b) (aes_ctr_state_ b) (fd_size_ b) (fd_events_ b) (pending_events_ b)
    (processor_ b) (last_id_ b) (need_sync_ b) (state_ b) (fs_ b) (drawn_ b).
Definition set_db_key_used v b :=
  mk_Binlog (fd_ b) (buffer_ b) (sink_ b) (byte_flow_flag_ b) (flow_state_ b) (binlog_reader_ b)
    (info_ b) (db_key_ b) v (old_db_key_ b) (encryption_type_ b) (aes_ctr_key_salt_ b)
    (aes_ctr_key_ b) (aes_ctr_state_ b) (fd_size_ b) (fd_events_ b) (pending_events_ b)
    (processor_ b) (last_id_ b) (need_sync_ b) (state_ b) (fs_ b) (drawn_ b).
Definition set_old_db_key v b :=
  mk_Binlog (fd_ b) (buffer_ b) (sink_ b) (byte_flow_flag_ b) (flow_state_ b) (binlog_reader_ b)
    (info_ b) (db_key_ b) (db_key_used_ b) v (encryption_type_ b) (aes_ctr_key_salt_ b)
    (aes_ctr_key_ b) (aes_ctr_state_ b) (fd_size_ b) (fd_events_ b) (pending_events_ b)
    (processor_ b) (last_id_ b) (need_sync_ b) (state_ b) (fs_ b) (drawn_ b).
Definition set_encryption_type v b :=
  mk_Binlog (fd_ b) (buffer_ b) (sink_ b) (byte_flow_flag_ b) (flow_state_ b) (binlog_reader_ b)
    (info_ b) (db_key_ b) (db_key_used_ b) (old_db_key_ b) v (aes_ctr_key_salt_ b)
    (aes_ctr_key_ b) (aes_ctr_state_ b) (fd_size_ b) (fd_events_ b) (pending_events_ b)
    (processor_ b) (last_id_ b) (need_sync_ b) (state_ b) (fs_ b) (drawn_ b).
Definition set_aes_ctr_key_salt v b :=
  mk_Binlog (fd_ b) (buffer_ b) (sink_ b) (byte_flow_flag_ b) (flow_state_ b) (binlog_reader_ b)
    (info_ b) (db_key_ b) (db_key_used_ b) (old_db_key_ b) (encryption_type_ b) v
    (aes_ctr_key_ b) (aes_ctr_state_ b) (fd_size_ b) (fd_events_ b) (pending_events_ b)
    (processor_ b) (last_id_ b) (need_sync_ b) (state_ b) (fs_ b) (drawn_ b).
Definition set_aes_ctr_key v b :=
  mk_Binlog (fd_ b) (buffer_ b) (sink_ b) (byte_flow_flag_ b) (flow_state_ b) (binlog_reader_ b)
    (info_ b) (db_key_ b) (db_key_used_ b) (old_db_key_ b) (encryption_type_ b)
    (aes_ctr_key_salt_ b) v (aes_ctr_state_ b) (fd_size_ b) (fd_events_ b) (pending_events_ b)
    (processor_ b) (last_id_ b) (need_sync_ b) (state_ b) (fs_ b) (drawn_ b).
Definition set_aes_ctr_state v b :=
  mk_Binlog (fd_ b) (buffer_ b) (sink_ b) (byte_flow_flag_ b) (flow_state_ b) (binlog_reader_ b)
    (info_ b) (db_key_ b) (db_key_used_ b) (old_db_key_ b) (encryption_type_ b)
    (aes_ctr_key_salt_ b) (aes_ctr_key_ b) v (fd_size_ b) (fd_events_ b) (pending_events_ b)
    (processor_ b) (last_id_ b) (need_sync_ b) (state_ b) (fs_ b) (drawn_ b).
Definition set_fd_size v b :=
  mk_Binlog (fd_ b) (buffer_ b) (sink_ b) (byte_flow_flag_ b) (flow_state_ b) (binlog_reader_ b)
    (info_ b) (db_key_ b) (db_key_used_ b) (old_db_key_ b) (encryption_type_ b)
    (aes_ctr_key_salt_ b) (aes_ctr_key_ b) (aes_ctr_state_ b) v (fd_events_ b)
    (pending_events_ b) (processor_ b) (last_id_ b) (need_sync_ b) (state_ b) (fs_ b) (drawn_ b).
Definition set_fd_events v b :=
  mk_Binlog (fd_ b) (buffer_ b) (sink_ b) (byte_flow_flag_ b) (flow_state_ b) (binlog_reader_ b)
    (info_ b) (db_key_ b) (db_key_used_ b) (old_db_key_ b) (encryption_type_ b)
    (aes_ctr_key_salt_ b) (aes_ctr_key_ b) (aes_ctr_state_ b) (fd_size_ b) v (pending_events_ b)
    (processor_ b) (last_id_ b) (need_sync_ b) (state_ b) (fs_ b) (drawn_ b).
Definition set_pending_events v b :=
  mk_Binlog (fd_ b) (buffer_ b) (sink_ b) (byte_flow_flag_ b) (flow_state_ b) (binlog_reader_ b)
    (info_ b) (db_key_ b) (db_key_used_ b) (old_db_key_ b) (encryption_type_ b)
    (aes_ctr_key_salt_ b) (aes_ctr_key_ b) (aes_ctr_state_ b) (fd_size_ b) (fd_events_ b) v
    (processor_ b) (last_id_ b) (need_sync_ b) (state_ b) (fs_ b) (drawn_ b).
Definition set_processor v b :=
  mk_Binlog (fd_ b) (buffer_ b) (sink_ b) (byte_flow_flag_ b) (flow_state_ b) (binlog_reader_ b)
    (info_ b) (db_key_ b) (db_key_used_ b) (old_db_key_ b) (encryption_type_ b)
    (aes_ctr_key_salt_ b) (aes_ctr_key_ b) (aes_ctr_state_ b) (fd_size_ b) (fd_events_ b)
    (pending_events_ b) v (last_id_ b) (need_sync_ b) (state_ b) (fs_ b) (drawn_ b).
Definition set_last_id v b :=
  mk_Binlog (fd_ b) (buffer_ b) (sink_ b) (byte_flow_flag_ b) (flow_state_ b) (binlog_reader_ b)
    (info_ b) (db_key_ b) (db_key_used_ b) (old_db_key_ b) (encryption_type_ b)
    (aes_ctr_key_salt_ b) (aes_ctr_key_ b) (aes_ctr_state_ b) (fd_size_ b) (fd_events_ b)
    (pending_events_ b) (processor_ b) v (need_sync_ b) (state_ b) (fs_ b) (drawn_ b).
Definition set_need_sync v b :=
  mk_Binlog (fd_ b) (buffer_ b) (sink_ b) (byte_flow_flag_ b) (flow_state_ b) (binlog_reader_ b)
    (info_ b) (db_key_ b) (db_key_used_ b) (old_db_key_ b) (encryption_type_ b)
    (aes_ctr_key_salt_ b) (aes_ctr_key_ b) (aes_ctr_state_ b) (fd_size_ b) (fd_events_ b)
    (pending_events_ b) (processor_ b) (last_id_ b) v (state_ b) (fs_ b) (drawn_ b).
Definition set_state v b :=
  mk_Binlog (fd_ b) (buffer_ b) (sink_ b) (byte_flow_flag_ b) (flow_state_ b) (binlog_reader_ b)
    (info_ b) (db_key_ b) (db_key_used_ b) (old_db_key_ b) (encryption_type_ b)
    (aes_ctr_key_salt_ b) (aes_ctr_key_ b) (aes_ctr_state_ b) (fd_size_ b) (fd_events_ b)
    (pending_events_ b) (processor_ b) (last_id_ b) (need_sync_ b) v (fs_ b) (drawn_ b).
Definition set_fs v b :=
  mk_Binlog (fd_ b) (buffer_ b) (sink_ b) (byte_flow_flag_ b) (flow_state_ b) (binlog_reader_ b)
    (info_ b) (db_key_ b) (db_key_used_ b) (old_db_key_ b) (encryption_type_ b)
    (aes_ctr_key_salt_ b) (aes_ctr_key_ b) (aes_ctr_state_ b) (fd_size_ b) (fd_events_ b)
    (pending_events_ b) (processor_ b) (last_id_ b) (need_sync_ b) (state_ b) v (drawn_ b).
Definition set_drawn v b :=
  mk_Binlog (fd_ b) (buffer_ b) (sink_ b) (byte_flow_flag_ b) (flow_state_ b) (binlog_reader_ b)
    (info_ b) (db_key_ b) (db_key_used_ b) (old_db_key_ b) (encryption_type_ b)
    (aes_ctr_key_salt_ b) (aes_ctr_key_ b) (aes_ctr_state_ b) (fd_size_ b) (fd_events_ b)
    (pending_events_ b) (processor_ b) (last_id_ b) (need_sync_ b) (state_ b) (fs_ b) v.

(** [Binlog()], in a process that finds the disk [fs]. *)
Definition new_Binlog (drawn : nat) (fs : file_system) : Binlog := {|
  fd_ := None; buffer_ := []; sink_ := []; byte_flow_flag_ := false; flow_state_ := None;
  binlog_reader_ := None; info_ := mk_BinlogInfo; db_key_ := EmptyKey; db_key_used_ := false;
  old_db_key_ := EmptyKey; encryption_type_ := NoEncryption; aes_ctr_key_salt_ := [];
  aes_ctr_key_ := replicate 32 0; aes_ctr_state_ := None; fd_size_ := 0; fd_events_ := 0;
  pending_events_ := []; processor_ := mk_BinlogEventsProcessor; last_id_ := 0;
  need_sync_ := false; state_ := Empty; fs_ := fs; drawn_ := drawn |}.
