(* ===== verification/Binlog.v ===== *)
(** * The write-ahead log ([td/tddb/td/db/binlog/Binlog.cpp])

    Reading the log when it is opened, adding events, flushing, writing it anew when it
    has grown too long or when the key changes. Messages of the logger are left out; a
    failure it reports with [LOG(FATAL)] ends the process and is a fault here. *)
From S2P Require Import Prelude Bytes TlParsers TlParserFacts TlHelpers BinlogEvent BinlogEventsProcessor FileSystem BinlogState.

Section binlog.
Context `{Crypto}.

(** ** Files *)

Definition fatal_unless (b : bool) : outcome unit := cassert b.

(** [fd_]; null once it is closed. *)
Definition fd_path (b : Binlog) : outcome path := '(p, _) ← deref (fd_ b); Ok p.

(** [fd_.seek(offset); fd_.truncate_to_current_position(offset)] *)
Definition fd_truncate (offset : Z) (b : Binlog) : outcome Binlog :=
  p ← fd_path b;
  fs ← truncate p offset (fs_ b);
  Ok (set_fs fs (set_fd (Some (p, offset)) b)).

(** [fd_.flush_read(n)] *)
Definition fd_flush_read (n : Z) (b : Binlog) : outcome Binlog :=
  '(p, pos) ← deref (fd_ b);
  bytes ← read_at p pos n (fs_ b);
  Ok (set_fd (Some (p, pos + Z.of_nat (length bytes))) (set_buffer (buffer_ b ++ bytes) b)).

(** [byte_flow_source_.wakeup()] *)
Definition wakeup (b : Binlog) : outcome Binlog :=
  if byte_flow_flag_ b then
    st ← deref (flow_state_ b);
    let '(out, st) := ctr_encrypt st (buffer_ b) in
    Ok (set_flow_state (Some st) (set_sink (sink_ b ++ out) (set_buffer [] b)))
  else Ok b.

(** [fd_.flush_write()]: all of the buffer that [fd_] writes. *)
Definition fd_flush_write (b : Binlog) : outcome (Binlog * Z) :=
  '(p, pos) ← deref (fd_ b);
  let out := if byte_flow_flag_ b then sink_ b else buffer_ b in
  fs ← write_at p pos out (fs_ b);
  let b := set_fs fs (set_fd (Some (p, pos + Z.of_nat (length out))) b) in
  Ok (if byte_flow_flag_ b then set_sink [] b else set_buffer [] b, Z.of_nat (length out)).

(** The time-controlled renewal of the buffers, which are empty after the write, is left
    out: it passes the cipher's state on unchanged. *)
Definition flush (b : Binlog) : outcome Binlog :=
  if decide (state_ b = Load) then Ok b
  else
    b ← wakeup b;
    '(b, written) ← fd_flush_write b;
    Ok (if 0 <? written then set_need_sync true b else b).

Definition sync (b : Binlog) : outcome Binlog :=
  b ← flush b;
  if need_sync_ b then
    p ← fd_path b;
    fs ← sync_file p (fs_ b);
    Ok (set_need_sync false (set_fs fs b))
  else Ok b.

Definition lazy_flush (b : Binlog) : outcome Binlog :=
  let size := Z.of_nat (length (buffer_ b)) in
  if Z.shiftl 1 14 <? size then flush b else Ok b.

Definition close (need_sync : bool) (b : Binlog) : outcome Binlog :=
  match fd_ b with
  | None => Ok b
  | Some _ =>
      b ← (if need_sync then sync b else flush b);
      let info := {| was_created := was_created (info_ b);
        info_last_event_id := info_last_event_id (info_ b);
        wrong_password := wrong_password (info_ b); is_opened := false |} in
      Ok (set_need_sync false (set_info info (set_fd None b)))
  end.

(** [Binlog::destroy] *)
Definition destroy (fs : file_system) : file_system := (unlink Main (unlink New fs).1).1.
Definition close_and_destroy (b : Binlog) : outcome Binlog :=
  b ← close false b; Ok (set_fs (destroy (fs_ b)) b).

(** ** Encryption *)

Definition update_read_encryption (b : Binlog) : outcome Binlog :=
  reader ← match binlog_reader_ b with Some r => Ok r | None => Fault AssertFailure end;
  let set_input i (b : Binlog) := set_binlog_reader (Some {| input_ := Some i;
    reading_event := reading_event reader; rd_size := rd_size reader; rd_offset := rd_offset reader |}) b in
  Ok (match encryption_type_ b with
      | NoEncryption => set_byte_flow_flag false (set_input InBuffer b)
      | AesCtr =>
          set_input InSink (set_byte_flow_flag true (set_sink []
            (set_aes_ctr_state None (set_flow_state (aes_ctr_state_ b) b))))
      end).

Definition update_write_encryption (b : Binlog) : Binlog :=
  match encryption_type_ b with
  | NoEncryption => set_byte_flow_flag false b
  | AesCtr =>
      set_byte_flow_flag true (set_sink []
        (set_aes_ctr_state None (set_flow_state (aes_ctr_state_ b) b)))
  end.

(** [aes_ctr_iv] is not initialised: an [iv] that does not fill it leaves bytes that must
    not be read. *)
Definition update_encryption (key iv : list Z) (b : Binlog) : outcome Binlog :=
  key ← copy_from (aes_ctr_key_ b) key;
  _ ← cassert (length iv <=? iv_size)%nat;
  if (length iv <? iv_size)%nat then ub
  else
    st ← ctr_init key iv;
    Ok (set_aes_ctr_state (Some st) (set_aes_ctr_key key b)).

(** The part of [do_event] for an event of type [AesCtrEncryption]. *)
Definition do_encryption_event (event : BinlogEvent) (b : Binlog) : outcome Binlog :=
  data ← get_data event;
  '(encryption_event, _) ← parse (tl_default : AesCtrEncryptionEvent) (mk_TlParser data);
  let salt := key_salt_ encryption_event in
  key ← (if bool_decide (aes_ctr_key_salt_ b = salt) then Ok (aes_ctr_key_ b)
         else if negb (key_is_empty (db_key_ b)) then generate_key salt (db_key_ b)
         else Ok []);
  let set_wrong (b : Binlog) :=
    set_info {| was_created := was_created (info_ b);
      info_last_event_id := info_last_event_id (info_ b);
      wrong_password := true; is_opened := is_opened (info_ b) |} b in
  '(key, b) ←
    (if negb (bool_decide (generate_hash key = key_hash_ encryption_event)) then
       _ ← cassert (bool_decide (state_ b = Load));
       if negb (key_is_empty (old_db_key_ b)) then
         key ← generate_key salt (old_db_key_ b);
         Ok (key, if negb (bool_decide (generate_hash key = key_hash_ encryption_event))
                  then set_wrong b else b)
       else Ok (key, set_wrong b)
     else Ok (key, set_db_key_used true b));
  let b := set_aes_ctr_key_salt salt (set_encryption_type AesCtr b) in
  b ← update_encryption key (iv_ encryption_event) b;
  if decide (state_ b = Load) then update_read_encryption b
  else
    _ ← cassert (bool_decide (state_ b = Reindex));
    b ← flush b;
    Ok (update_write_encryption b).

(** Whether [debug_get_binlog_data(begin_offset, end_offset)] is the empty string. *)
Definition debug_data_empty (begin_offset end_offset : Z) (b : Binlog) : outcome bool :=
  if end_offset <? begin_offset then Ok false
  else if begin_offset =? end_offset then Ok true
  else
    let end_offset := if 512 <? end_offset - begin_offset then begin_offset + 512 else end_offset in
    data ← (if exists_file Main (fs_ b) then
              data ← read_at Main begin_offset (end_offset - begin_offset) (fs_ b); Ok (Some data)
            else Ok None);
    match data with
    | None => Ok false
    | Some data =>
        if Z.of_nat (length data) <? end_offset - begin_offset then Ok false
        else if decide (encryption_type_ b = AesCtr) then Ok (forallb (λ c, c =? 0) data)
        else Ok false
    end.

(** ** Events *)

(** [Binlog::do_event] *)
Definition do_event (event : BinlogEvent) (b : Binlog) : outcome Binlog :=
  let event_size := event_size event in
  b ← (if bool_decide (state_ b = Run ∨ state_ b = Reindex) then
         validate_status ← validate crc32 event;
         _ ← fatal_unless (bool_decide (validate_status = SOk));
         Ok (set_buffer (buffer_ b ++ raw_event_ event) b)
       else Ok b);
  b ← (if (type_ event <? 0) && (type_ event =? AesCtrEncryption_type)
       then do_encryption_event event b else Ok b);
  let counted (b : Binlog) := set_fd_size (fd_size_ b + event_size) (set_fd_events (u64 (fd_events_ b + 1)) b) in
  if bool_decide (state_ b ≠ Reindex) then
    '(p, status) ← proc_add_event event (processor_ b);
    let b := set_processor p b in
    match status with
    | SOk => Ok (counted b)
    | SError _ _ =>
        let old_size := file_size Main (fs_ b) in
        empty ← debug_data_empty (fd_size_ b) old_size b;
        if bool_decide (state_ b = Load) then
          b ← fd_truncate (fd_size_ b) b;
          if (empty : bool) then Ok b else Fault AssertFailure
        else Fault AssertFailure
    end
  else Ok (counted b).

Fixpoint do_events (events : list BinlogEvent) (b : Binlog) : outcome Binlog :=
  match events with
  | [] => Ok b
  | event :: events => b ← do_event event b; do_events events b
  end.

Definition do_add_event (event : BinlogEvent) (b : Binlog) : outcome Binlog :=
  if negb (Z.land (flags_ event) Partial_flag =? 0) then
    let event := set_flags (Z.land (flags_ event) (Z.lnot Partial_flag)) event in
    Ok (set_pending_events (pending_events_ b ++ [event]) b)
  else
    b ← do_events (pending_events_ b) b;
    do_event event (set_pending_events [] b).

(** ** Writing the log anew *)

Definition reset_encryption (b : Binlog) : outcome Binlog :=
  if key_is_empty (db_key_ b) then Ok (set_encryption_type NoEncryption b)
  else
    let '(salt, b) :=
      if bool_decide (aes_ctr_key_salt_ b = [])
      then (secure_bytes (drawn_ b) default_salt_size, set_drawn (S (drawn_ b)) b)
      else (aes_ctr_key_salt_ b, b) in
    let iv := secure_bytes (drawn_ b) iv_size in
    let b := set_drawn (S (drawn_ b)) b in
    key ← (if bool_decide (aes_ctr_key_salt_ b = salt) then Ok (aes_ctr_key_ b)
           else generate_key salt (db_key_ b));
    let event := {| key_salt_ := salt; iv_ := iv; key_hash_ := generate_hash key |} in
    raw_event ← create_raw crc32 0 AesCtrEncryption_type 0 (DefaultStorer event);
    event ← mk_BinlogEvent raw_event;
    do_event event b.

(** The end of [load_binlog] and of [do_reindex]: new buffers, and the cipher goes on
    where it is. *)
Definition start_writing (b : Binlog) : Binlog :=
  let b := set_sink [] (set_buffer [] b) in
  let b := if decide (encryption_type_ b = AesCtr)
           then set_aes_ctr_state (flow_state_ b) b else b in
  update_write_encryption b.

(** The end of [do_reindex]: the new file takes the place of the old one. *)
Definition put_in_place (b : Binlog) : outcome Binlog :=
  let '(fs, unlinked) := unlink Main (fs_ b) in
  _ ← fatal_unless unlinked;
  let '(fs, renamed) := rename New Main fs in
  _ ← fatal_unless renamed;
  (* the descriptor follows the file *)
  '(_, pos) ← deref (fd_ b);
  let b := set_fd (Some (Main, pos)) (set_fs fs b) in
  _ ← cassert (fd_size_ b =? file_size Main (fs_ b));
  Ok (set_state Run (start_writing b)).

Definition do_reindex (b : Binlog) : outcome Binlog :=
  _ ← cassert (bool_decide (state_ b = Run));
  let b := set_state Reindex b in
  let start_size := file_size Main (fs_ b) in
  let b := set_fs (open_truncate New (fs_ b)) b in
  let b := set_fd (Some (New, 0)) b in
  let b := set_sink [] (set_buffer [] b) in
  let b := update_write_encryption (set_encryption_type NoEncryption b) in
  let b := set_fd_events 0 (set_fd_size 0 b) in
  b ← reset_encryption b;
  b ← for_each (λ b event, do_event event b) (processor_ b) b;
  b ← flush b;
  fs ← (if negb (start_size =? 0) then sync_file New (fs_ b) else Ok (fs_ b));
  let b := set_need_sync false (set_fs fs b) in
  put_in_place b.

Definition need_reindex (b : Binlog) : bool :=
  let need min_size rate :=
    (min_size <? fd_size_ b) &&
    (total_raw_events_size_ (processor_ b) <? Z.quot (fd_size_ b) rate) in
  need 50000 5 || need 100000 4 || need 300000 3 || need 500000 2.

(** [Binlog::add_event] *)
Definition add_event (event : BinlogEvent) (b : Binlog) : outcome Binlog :=
  _ ← fatal_unless (size_ event mod 4 =? 0);
  b ← do_add_event event b;
  b ← lazy_flush b;
  if bool_decide (state_ b = Run) then
    if need_reindex b then do_reindex b else Ok b
  else Ok b.

Definition change_key (new_db_key : DbKey) (b : Binlog) : outcome Binlog :=
  do_reindex (set_aes_ctr_key_salt [] (set_db_key new_db_key b)).

Definition next_event_id (b : Binlog) : Binlog * Z :=
  let id := u64 (last_id_ b + 1) in (set_last_id id b, id).
(** [next_event_id(int32 shift)] *)
Definition next_event_id_shift (shift : Z) (b : Binlog) : Binlog * Z :=
  (set_last_id (u64 (last_id_ b + shift)) b, u64 (last_id_ b + 1)).

Definition add_raw_event (raw_event : list Z) (b : Binlog) : outcome Binlog :=
  event ← mk_BinlogEvent raw_event; add_event event b.

(** [add], [rewrite], [erase], [erase_batch] *)
Definition add (type : Z) (storer : Storer) (b : Binlog) : outcome (Binlog * Z) :=
  let '(b, event_id) := next_event_id b in
  raw ← create_raw crc32 event_id type 0 storer;
  b ← add_raw_event raw b;
  Ok (b, event_id).
Definition rewrite (event_id type : Z) (storer : Storer) (b : Binlog) : outcome (Binlog * Z) :=
  let '(b, seq_no) := next_event_id b in
  raw ← create_raw crc32 event_id type Rewrite_flag storer;
  b ← add_raw_event raw b;
  Ok (b, seq_no).
Definition erase (event_id : Z) (b : Binlog) : outcome (Binlog * Z) :=
  let '(b, seq_no) := next_event_id b in
  raw ← create_raw crc32 event_id Empty_type Rewrite_flag EmptyStorer;
  b ← add_raw_event raw b;
  Ok (b, seq_no).
Fixpoint erase_each (event_ids : list Z) (b : Binlog) : outcome Binlog :=
  match event_ids with
  | [] => Ok b
  | event_id :: event_ids => '(b, _) ← erase event_id b; erase_each event_ids b
  end.
Definition erase_batch (event_ids : list Z) (b : Binlog) : outcome (Binlog * Z) :=
  if bool_decide (event_ids = []) then Ok (b, 0)
  else
    let '(b, seq_no) := next_event_id_shift 0 b in
    b ← erase_each event_ids b;
    Ok (b, seq_no).

(** ** Opening *)

(** The bytes the reader can take. *)
Definition input_bytes (r : BinlogReader) (b : Binlog) : outcome (list Z) :=
  i ← deref (input_ r);
  Ok (match i with InBuffer => buffer_ b | InSink => sink_ b end).
(** [input_->cut_head(n)] *)
Definition cut_input (n : Z) (r : BinlogReader) (b : Binlog) : Binlog :=
  match input_ r with
  | Some InBuffer => set_buffer (drop (Z.to_nat n) (buffer_ b)) b
  | Some InSink => set_sink (drop (Z.to_nat n) (sink_ b)) b
  | None => b
  end.

Inductive read_result := NeedSize (size : Z) | GotEvent (event : BinlogEvent) | ReadError (code : Z).

Definition read_length (r : BinlogReader) (input : list Z) : outcome (BinlogReader + read_result) :=
  if reading_event r then Ok (inl r)
  else if (length input <? 4)%nat then Ok (inr (NeedSize 4))
  else
    '(n, _) ← fetch_int (mk_TlParser (take 4 input));
    let size := u64 n in
    if MAX_SIZE <? size then Ok (inr (ReadError 0))
    else if size <? MIN_SIZE then Ok (inr (ReadError 0))
    else if negb (size mod 4 =? 0) then Ok (inr (ReadError (-2)))
    else Ok (inl {| input_ := input_ r; reading_event := true; rd_size := size; rd_offset := rd_offset r |}).

(** [BinlogReader::read_next]. The members [size_] and [state_] keep their values when an
    error is returned; no one reads them then. *)
Definition read_next (b : Binlog) : outcome (Binlog * read_result) :=
  r ← deref (binlog_reader_ b);
  input ← input_bytes r b;
  x ← read_length r input;
  match x with
  | inr result => Ok (b, result)
  | inl r =>
      let b := set_binlog_reader (Some r) b in
      if Z.of_nat (length input) <? rd_size r then Ok (b, NeedSize (rd_size r))
      else
        let b := cut_input (rd_size r) r b in
        event ← init (take (Z.to_nat (rd_size r)) input) new_event;
        status ← validate crc32 event;
        match status with
        | SError code _ => Ok (b, ReadError code)
        | SOk =>
            let offset := rd_offset r + rd_size r in
            let event := set_offset offset event in
            Ok (set_binlog_reader (Some {| input_ := input_ r; reading_event := false;
                  rd_size := rd_size r; rd_offset := offset |}) b, GotEvent event)
        end
  end.

(** The loop of [load_binlog], with the events left; [false] when it returned because of
    a wrong password. *)
Fixpoint load_loop (fuel : nat) (b : Binlog) : outcome (Binlog * bool) :=
  match fuel with
  | O => ub
  | S fuel =>
      '(b, result) ← read_next b;
      match result with
      | ReadError code =>
          if code =? -2 then
            r ← deref (binlog_reader_ b);
            let old_size := file_size Main (fs_ b) in
            let offset := rd_offset r in
            empty ← debug_data_empty offset old_size b;
            b ← fd_truncate offset b;
            if (empty : bool) then Ok (b, true) else Fault AssertFailure
          else Ok (b, true)
      | GotEvent event =>
          b ← do_add_event event b;
          if wrong_password (info_ b) then Ok (b, false) else load_loop fuel b
      | NeedSize need_size =>
          b ← fd_flush_read (Z.max need_size 4096) b;
          b ← wakeup b;
          r ← deref (binlog_reader_ b);
          input ← input_bytes r b;
          if Z.of_nat (length input) <? need_size then Ok (b, true) else load_loop fuel b
      end
  end.
(** Every event takes two reads at most, and 32 bytes at least. *)
Definition load_fuel (b : Binlog) : nat := S (S (S (Z.to_nat (file_size Main (fs_ b))))).

(** [load_binlog] after the loop, with the events passed to [callback]. *)
Definition finish_load (b : Binlog) : outcome (Binlog * list BinlogEvent) :=
  let offset := proc_offset_ (processor_ b) in
  _ ← cassert (0 <=? offset);
  events ← for_each (λ events event, Ok (events ++ [event])) (processor_ b) [];
  p ← fd_path b;
  b ← (if negb (offset =? file_size p (fs_ b))
       then b ← fd_truncate offset b; Ok (set_db_key_used false b) else Ok b);
  _ ← cassert (fd_size_ b =? offset);
  Ok (start_writing (set_state Run (set_binlog_reader None b)), events).

Definition load_binlog (b : Binlog) : outcome (Binlog * list BinlogEvent) :=
  let b := set_sink [] (set_buffer [] (set_state Load b)) in
  let b := set_binlog_reader (Some {| input_ := None; reading_event := false; rd_size := 0; rd_offset := 0 |}) b in
  b ← update_read_encryption b;
  let b := set_info {| was_created := was_created (info_ b);
             info_last_event_id := info_last_event_id (info_ b); wrong_password := false;
             is_opened := is_opened (info_ b) |} b in
  '(b, finished) ← load_loop (load_fuel b) b;
  if negb finished then Ok (b, []) else finish_load b.

Definition WrongPassword : Z := -1037284.

(** [Binlog::init] after [load_binlog]. *)
Definition finish_init (b : Binlog) (events : list BinlogEvent) : outcome (Binlog * Status * list BinlogEvent) :=
  let last_id := last_event_id_ (processor_ b) in
  let opened o (b : Binlog) := set_info {| was_created := was_created (info_ b); info_last_event_id := last_id;
                    wrong_password := wrong_password (info_ b); is_opened := o |} b in
  let b := set_last_id last_id (opened (is_opened (info_ b)) b) in
  if wrong_password (info_ b) then
    b ← close true b;
    Ok (b, SError WrongPassword "Wrong password", events)
  else
    b ← (if (negb (key_is_empty (db_key_ b)) && negb (db_key_used_ b)) ||
            (key_is_empty (db_key_ b) && negb (bool_decide (encryption_type_ b = NoEncryption)))
         then do_reindex (set_aes_ctr_key_salt [] b) else Ok b);
    Ok (opened true b, SOk, events).

(** [Binlog::init], with the events passed to [callback]. *)
Definition init_binlog (db_key old_db_key : DbKey) (b : Binlog) : outcome (Binlog * Status * list BinlogEvent) :=
  b ← close true b;
  let b := set_processor mk_BinlogEventsProcessor (set_old_db_key old_db_key (set_db_key db_key b)) in
  let fs := if exists_file Main (fs_ b) then fs_ b else (rename New Main (fs_ b)).1 in
  let info := {| was_created := negb (exists_file Main fs); info_last_event_id := 0;
                 wrong_password := false; is_opened := false |} in
  let b := set_info info (set_fs (open_create Main fs) b) in
  let b := set_fd_size 0 (set_fd (Some (Main, 0)) b) in
  '(b, events) ← load_binlog b;
  finish_init b events.
End binlog.
