(* ===== verification/BinlogFormat.v ===== *)
(** * The bytes of a log

    A log file is the events one after the other; an encrypted one starts with the event
    that holds the salt and the initial counter, and goes on with the others encrypted. *)
From S2P Require Import Prelude Bytes TlParsers TlParserFacts TlHelpers BinlogEvent BinlogEventsProcessor FileSystem BinlogState Binlog.

(** ** The cipher *)

Section cipher.
Context `{CryptoLaws}.
#[local] Set Default Proof Using "Type*".

Lemma length_ctr_xor st l : length (ctr_xor st l) = length l.
Proof. apply length_imap. Qed.
Lemma ctr_xor_nil st l : ctr_xor st l = [] ↔ l = [].
Proof. by rewrite <-!length_zero_iff_nil, length_ctr_xor. Qed.
Lemma ctr_xor_app st l1 l2 : ctr_xor st (l1 ++ l2) = ctr_xor st l1 ++ ctr_xor (ctr_skip (length l1) st) l2.
Proof.
  unfold ctr_xor. rewrite imap_app. f_equal. apply imap_ext. intros i b _. cbn.
  by rewrite Nat.add_assoc.
Qed.
Lemma ctr_xor_involutive st l : ctr_xor st (ctr_xor st l) = l.
Proof.
  unfold ctr_xor. apply list_eq. intros i. rewrite !list_lookup_imap.
  destruct (l !! i); [|done]. cbn. by rewrite Z.lxor_assoc, Z.lxor_nilpotent, Z.lxor_0_r.
Qed.
Lemma ctr_skip_skip n m st : ctr_skip n (ctr_skip m st) = ctr_skip (m + n) st.
Proof. unfold ctr_skip. cbn. by rewrite Nat.add_assoc. Qed.
Lemma ctr_skip_0 st : ctr_skip 0 st = st.
Proof. destruct st. unfold ctr_skip. cbn. by rewrite Nat.add_0_r. Qed.
Lemma ctr_xor_prefix st l l' : l `prefix_of` ctr_xor st l' → ctr_xor st l `prefix_of` l'.
Proof.
  intros [t Ht]. exists (ctr_xor (ctr_skip (length l) st) t).
  by rewrite <-(ctr_xor_involutive st l'), Ht, ctr_xor_app.
Qed.
End cipher.

(** ** Entries and files *)

(** An entry that the reader takes: not too long, and aligned. *)
Record entry_small (e : entry) : Prop := {
  small_size : entry_size e ≤ MAX_SIZE;
  small_aligned : entry_size e mod 4 = 0;
}.

Section format.
Context `{CryptoLaws}.
#[local] Set Default Proof Using "Type*".

Definition entries_bytes (es : list entry) : list Z := es ≫= event_bytes crc32.
Lemma entries_bytes_app es1 es2 : entries_bytes (es1 ++ es2) = entries_bytes es1 ++ entries_bytes es2.
Proof. apply bind_app. Qed.
Lemma entries_bytes_cons e es : entries_bytes (e :: es) = event_bytes crc32 e ++ entries_bytes es.
Proof. done. Qed.
Lemma entries_bytes_prefix es es' : es `prefix_of` es' → entries_bytes es `prefix_of` entries_bytes es'.
Proof. intros [t ->]. rewrite entries_bytes_app. by apply prefix_app_r. Qed.

#[local] Instance no_flags : FlagCount 0. Proof. unfold FlagCount. lia. Qed.

(** Salt, initial counter and key of an encrypted log. *)
Record cipher := { c_salt : list Z; c_iv : list Z; c_key : list Z }.
Definition c_start (c : cipher) : AesCtrState := {| ctr_key := c_key c; ctr_iv := c_iv c; ctr_pos := 0 |}.

Definition encryption_event (c : cipher) : AesCtrEncryptionEvent :=
  {| key_salt_ := c_salt c; iv_ := c_iv c; key_hash_ := generate_hash (c_key c) |}.
Definition encryption_entry (c : cipher) : entry :=
  {| e_id := 0; e_type := AesCtrEncryption_type; e_flags := 0;
     e_data := tl_bytes (as_tuple (encryption_event c)) |}.

Definition cipher_head (c : option cipher) : list Z :=
  match c with None => [] | Some c => event_bytes crc32 (encryption_entry c) end.
Definition cipher_body (c : option cipher) (l : list Z) : list Z :=
  match c with None => l | Some c => ctr_xor (c_start c) l end.
Definition log_file (c : option cipher) (es : list entry) : list Z :=
  cipher_head c ++ cipher_body c (entries_bytes es).

(** The cipher belongs to the key. *)
Definition key_iterations (db_key : DbKey) : Z :=
  if is_raw_key db_key then kdf_fast_iteration_count else kdf_iteration_count.
Record cipher_ok (db_key : DbKey) (c : cipher) : Prop := {
  cok_salt : length (c_salt c) = default_salt_size ∧ bytes_ok (c_salt c);
  cok_iv : length (c_iv c) = iv_size ∧ bytes_ok (c_iv c);
  cok_key : c_key c = pbkdf2_sha256 (key_data db_key) (c_salt c) (key_iterations db_key);
}.
(** A file that is not encrypted can be read with any key. *)
Definition key_opens (db_key : DbKey) (c : option cipher) : Prop :=
  match c with
  | None => True
  | Some c => db_key ≠ EmptyKey ∧ cipher_ok db_key c
  end.
Definition key_fits (db_key : DbKey) (c : option cipher) : Prop :=
  match c with
  | None => db_key = EmptyKey
  | Some c => db_key ≠ EmptyKey ∧ cipher_ok db_key c
  end.

Lemma fits_opens db_key c : key_fits db_key c → key_opens db_key c.
Proof. by destruct c. Qed.

Lemma cipher_body_app c l1 l2 :
  cipher_body c (l1 ++ l2) =
  cipher_body c l1 ++ match c with None => l2 | Some c => ctr_xor (ctr_skip (length l1) (c_start c)) l2 end.
Proof. destruct c; [apply ctr_xor_app|done]. Qed.
Lemma length_cipher_body c l : length (cipher_body c l) = length l.
Proof. destruct c; [apply length_ctr_xor|done]. Qed.
Lemma length_log_file c es : length (log_file c es) = (length (cipher_head c) + length (entries_bytes es))%nat.
Proof. unfold log_file. by rewrite length_app, length_cipher_body. Qed.
Lemma log_file_prefix c es es' : es `prefix_of` es' → log_file c es `prefix_of` log_file c es'.
Proof.
  intros [t ->]. unfold log_file. rewrite entries_bytes_app, cipher_body_app, app_assoc. by apply prefix_app_r.
Qed.

(** *** The event that turns encryption on *)

Lemma string_valid l : bytes_ok l → (length l < 100)%nat → tl_valid (Str l).
Proof. intros Hl Hn. split; [done|]. change (2 ^ 32) with 4294967296. cbn. lia. Qed.

Lemma tuple_valid db_key c : cipher_ok db_key c → tl_valid (as_tuple (encryption_event c)).
Proof.
  intros [[Hs1 Hs2] [Hi1 Hi2] _]. unfold default_salt_size, iv_size in *.
  split; [done|]. split; [|split]; apply string_valid; cbn [c_salt c_iv encryption_event key_salt_ iv_ key_hash_];
    try done; try lia; unfold generate_hash; [apply hmac_bytes|rewrite hmac_size; lia].
Qed.
Lemma length_stored_string l : (length l < 254)%nat →
  length (stored_string l) = (1 + length l + string_padding (Z.of_nat (length l)))%nat.
Proof.
  intros Hl. unfold stored_string, string_header. rewrite (proj2 (Z.ltb_lt _ _)) by lia.
  cbn. rewrite !length_app, length_replicate. lia.
Qed.
Lemma encryption_size db_key c : cipher_ok db_key c → entry_size (encryption_entry c) = 128.
Proof.
  intros [[Hs1 _] [Hi1 _] _]. unfold entry_size, encryption_entry. cbn [e_data].
  unfold default_salt_size, iv_size in *.
  change (tl_bytes (as_tuple (encryption_event c))) with
    (le_split 4 0 ++ stored_string (c_salt c) ++ stored_string (c_iv c) ++
     stored_string (generate_hash (c_key c))).
  assert (Hh : length (generate_hash (c_key c)) = 32%nat) by apply hmac_size.
  rewrite !length_app, !length_stored_string by (rewrite ?Hs1, ?Hi1, ?Hh; lia).
  by rewrite Hh, Hs1, Hi1.
Qed.
Lemma encryption_entry_ok db_key c : cipher_ok db_key c → entry_ok (encryption_entry c).
Proof.
  intros Hc. pose proof (encryption_size db_key c Hc) as Hs. split; try done.
  - exact (proj1 (stored_ok _ (tuple_valid _ _ Hc))).
  - change (entry_size (encryption_entry c) ≤ INT_MAX). by rewrite Hs.
Qed.
Lemma encryption_small db_key c : cipher_ok db_key c → entry_small (encryption_entry c).
Proof. intros Hc. split; by rewrite (encryption_size _ _ Hc). Qed.

Lemma store_encryption_event `{TlStorer St} (x : AesCtrEncryptionEvent) (s : St) :
  store x s = store (as_tuple x) s.
Proof. done. Qed.
Lemma encryption_stores db_key c : cipher_ok db_key c →
  stores (DefaultStorer (encryption_event c)) (e_data (encryption_entry c)).
Proof.
  intros Hc. pose proof (default_stores (as_tuple (encryption_event c)) (tuple_valid _ _ Hc)) as Hst.
  pose proof (encryption_entry_ok _ _ Hc) as [_ _ _ _ Hs]. apply Hst.
  change (tl_bytes _) with (e_data (encryption_entry c)). unfold INT_MAX, MIN_SIZE, HEADER_SIZE, TAIL_SIZE, two64 in *.
  lia.
Qed.
Lemma parse_as_tuple (x : AesCtrEncryptionEvent) (p : TlParser) :
  parse x p =
  '(t, p) ← parse (as_tuple x) p;
  Ok ({| key_salt_ := get_str t.2.1; iv_ := get_str t.2.2.1; key_hash_ := get_str t.2.2.2 |}, p).
Proof.
  change (parse (as_tuple x) p) with
    ('(fl, p) ← ('(l, p) ← parse_flags 0 p; Ok (Flags l : flag_set 0, p));
     '(rest, p) ← ('(s1, p) ← parse (Str (key_salt_ x)) p;
                   '(rest, p) ← ('(s2, p) ← parse (Str (iv_ x)) p;
                                 '(s3, p) ← parse (Str (key_hash_ x)) p; Ok ((s2, s3), p));
                   Ok ((s1, rest), p));
     Ok ((fl, rest), p)).
  unfold parse at 1. cbn [tl_parse tl_encryption_event].
  do 4 (match goal with |- context [mbind _ ?m] => destruct m as [[??]|] end; cbn [mbind outcome_bind]; [|done]).
  done.
Qed.
Lemma parse_encryption_event db_key c dl : cipher_ok db_key c →
  parse (tl_default : AesCtrEncryptionEvent) (parser_at (e_data (encryption_entry c)) dl) =
  Ok (encryption_event c, parser_at [] dl).
Proof.
  intros Hc. rewrite parse_as_tuple. rewrite <-(app_nil_r (e_data _)).
  change (e_data (encryption_entry c)) with (tl_bytes (as_tuple (encryption_event c))).
  rewrite parse_stored; [done|by eapply tuple_valid|done].
Qed.

(** *** The other events *)

Lemma flags_not_partial f : f = 0 ∨ f = Rewrite_flag → Z.land f Partial_flag = 0.
Proof. by intros [->| ->]. Qed.
Lemma event_plain s e off : log_valid s e →
  (type_ (event_of crc32 off e) <? 0) && (type_ (event_of crc32 off e) =? AesCtrEncryption_type) = false.
Proof.
  intros Hv. destruct (type_ (event_of crc32 off e) <? 0) eqn:Ht; [|done]. apply Z.ltb_lt in Ht.
  destruct (lv_case _ _ Hv) as [(_ & _ & [Hx|Hx])|[_ Hx]]; cbn in *; [by rewrite Hx|lia|lia].
Qed.
End format.

(** ** [do_event] with that event *)

Section cipher_event.
Context `{CryptoLaws}.
#[local] Set Default Proof Using "Type*".

Lemma copy_key to from : length to = 32%nat → length from = 32%nat → copy_from to from = Ok from.
Proof.
  intros Ht Hf. unfold copy_from. rewrite Ht, Hf. cbn. rewrite drop_ge by lia. by rewrite app_nil_r.
Qed.
Lemma update_encryption_spec b key iv : length (aes_ctr_key_ b) = 32%nat → length key = 32%nat →
  length iv = iv_size →
  update_encryption key iv b =
  Ok (set_aes_ctr_state (Some {| ctr_key := key; ctr_iv := iv; ctr_pos := 0 |}) (set_aes_ctr_key key b)).
Proof.
  intros Hb Hk Hi. unfold update_encryption. rewrite copy_key by done. cbn [mbind outcome_bind].
  rewrite Hi. cbn [iv_size Nat.leb Nat.ltb cassert mbind outcome_bind].
  unfold ctr_init. by rewrite Hk, Hi.
Qed.
Lemma generate_key_spec db_key salt : db_key ≠ EmptyKey →
  generate_key salt db_key = Ok (pbkdf2_sha256 (key_data db_key) salt (key_iterations db_key)).
Proof. by destruct db_key. Qed.

Lemma encryption_data c db_key off : cipher_ok db_key c →
  get_data (event_of crc32 off (encryption_entry c)) = Ok (e_data (encryption_entry c)).
Proof. intros Hc. apply (get_data_spec crc32). by eapply encryption_entry_ok. Qed.

Lemma right_key b c off : db_key_ b ≠ EmptyKey → cipher_ok (db_key_ b) c →
  (aes_ctr_key_salt_ b = c_salt c → aes_ctr_key_ b = c_key c) → length (aes_ctr_key_ b) = 32%nat →
  do_encryption_event (event_of crc32 off (encryption_entry c)) b =
  let b := set_aes_ctr_state (Some (c_start c)) (set_aes_ctr_key (c_key c)
             (set_aes_ctr_key_salt (c_salt c) (set_encryption_type AesCtr (set_db_key_used true b)))) in
  if decide (state_ b = Load) then update_read_encryption b
  else
    _ ← cassert (bool_decide (state_ b = Reindex));
    b ← flush b;
    Ok (update_write_encryption b).
Proof.
  intros Hdk Hc Hsalt Hkey. unfold do_encryption_event.
  rewrite (encryption_data c _ off Hc). cbn [mbind outcome_bind].
  change (mk_TlParser ?l) with (parser_at l (Z.of_nat (length l))).
  rewrite (parse_encryption_event _ _ _ Hc). cbn [mbind outcome_bind encryption_event key_salt_ iv_ key_hash_].
  destruct Hc as [[Hs1 Hs2] [Hi1 Hi2] Hck].
  replace (if bool_decide (aes_ctr_key_salt_ b = c_salt c) then Ok (aes_ctr_key_ b)
           else if negb (key_is_empty (db_key_ b)) then generate_key (c_salt c) (db_key_ b) else Ok [])
    with (Ok (c_key c)).
  2:{ case_bool_decide as Hx; [by rewrite Hsalt|]. rewrite generate_key_spec, <-Hck by done. by destruct (db_key_ b). }
  cbn [mbind outcome_bind]. rewrite (bool_decide_true (generate_hash _ = _)) by done. cbn [negb mbind outcome_bind].
  rewrite update_encryption_spec by (done || by rewrite Hck, pbkdf2_size). done.
Qed.
End cipher_event.
