(* ===== verification/BinlogLoad.v ===== *)
(** * Reading a log

    What the loop of [load_binlog] makes of a file that holds a log and perhaps the
    beginning of one more event: it takes every complete event, in order. *)
From S2P Require Import Prelude Bytes TlParsers TlParserFacts TlHelpers BinlogEvent BinlogEventsProcessor FileSystem BinlogState Binlog BinlogFormat.

(** ** Where the reader is *)

(** How far the file is read, the buffer, the sink and the cipher between them. *)
Record place := { pl_pos : nat; pl_buf : list Z; pl_sink : list Z; pl_flow : option AesCtrState }.

Section load.
Context `{CryptoLaws}.
#[local] Set Default Proof Using "Type*".
(** The cipher starts after the first [head] bytes of the file. *)
Context (head : nat) (start : AesCtrState).

Definition at_place (b : Binlog) (pl : place) (r : BinlogReader) : Binlog :=
  mk_Binlog (Some (Main, Z.of_nat (pl_pos pl))) (pl_buf pl) (pl_sink pl) (byte_flow_flag_ b)
    (pl_flow pl) (Some r) (info_ b) (db_key_ b) (db_key_used_ b) (old_db_key_ b)
    (encryption_type_ b) (aes_ctr_key_salt_ b) (aes_ctr_key_ b) (aes_ctr_state_ b) (fd_size_ b)
    (fd_events_ b) (pending_events_ b) (processor_ b) (last_id_ b) (need_sync_ b) (state_ b)
    (fs_ b) (drawn_ b).

Definition is_sink (i : reader_input) : bool := match i with InSink => true | InBuffer => false end.
Definition inp (i : reader_input) (pl : place) : list Z :=
  match i with InBuffer => pl_buf pl | InSink => pl_sink pl end.

(** Everything the reader will see of the file [T]. *)
Definition ahead (T : list Z) (i : reader_input) (pl : place) : list Z :=
  match i with
  | InBuffer => pl_buf pl ++ drop (pl_pos pl) T
  | InSink =>
      match pl_flow pl with
      | Some st => pl_sink pl ++ ctr_xor st (pl_buf pl ++ drop (pl_pos pl) T)
      | None => []
      end
  end.
Record good (T : list Z) (i : reader_input) (pl : place) : Prop := {
  good_pos : (pl_pos pl ≤ length T)%nat;
  good_flow : i = InSink →
    pl_flow pl = Some (ctr_skip (pl_pos pl - length (pl_buf pl) - head) start) ∧
    (head + length (pl_buf pl) ≤ pl_pos pl)%nat;
}.
Definition holds (T : list Z) (b : Binlog) : Prop :=
  ∃ f, main_file (now (fs_ b)) = Some f ∧ content f = T.

Lemma inp_prefix T i pl : good T i pl → inp i pl `prefix_of` ahead T i pl.
Proof.
  intros [_ Hf]. destruct i; cbn; [by apply prefix_app_r|].
  destruct (Hf eq_refl) as [-> _]. by apply prefix_app_r.
Qed.

(** One turn of reading from the file: nothing is lost, and as much is there as asked
    for, unless the file ends. *)
Lemma fill_input_spec T i b pl r n : holds T b → byte_flow_flag_ b = is_sink i → good T i pl → 0 ≤ n →
  ∃ pl', (b1 ← fd_flush_read n (at_place b pl r); wakeup b1) = Ok (at_place b pl' r) ∧
    good T i pl' ∧ ahead T i pl' = ahead T i pl ∧
    (Nat.min (Z.to_nat n) (length (ahead T i pl)) ≤ length (inp i pl'))%nat.
Proof.
  intros (f & Hf & HT) Hi [Hpos Hfl] Hn.
  unfold fd_flush_read, read_at. cbn [at_place fd_ deref mbind outcome_bind fs_ file_at].
  rewrite Hf. cbn [deref mbind outcome_bind]. rewrite HT, Nat2Z.id.
  set (got := take (Z.to_nat n) (drop (pl_pos pl) T)).
  assert (Hgot : drop (pl_pos pl) T = got ++ drop (pl_pos pl + length got) T).
  { unfold got. rewrite length_take, length_drop. rewrite <-(take_drop (Z.to_nat n) (drop (pl_pos pl) T)) at 1.
    f_equal. rewrite drop_drop. destruct (decide (Z.to_nat n ≤ length T - pl_pos pl)%nat).
    - f_equal. lia.
    - rewrite !drop_ge by lia. done. }
  assert (Hlen : (length got = Z.to_nat n `min` (length T - pl_pos pl))%nat)
    by (unfold got; by rewrite length_take, length_drop).
  unfold wakeup. cbn [byte_flow_flag_ at_place set_fd set_buffer flow_state_]. rewrite Hi.
  destruct i; cbn [is_sink].
  - exists {| pl_pos := pl_pos pl + length got; pl_buf := pl_buf pl ++ got; pl_sink := pl_sink pl; pl_flow := pl_flow pl |}.
    split; [unfold at_place; cbn; by rewrite Nat2Z.inj_add|]. split; [split; [cbn; lia|done]|].
    cbn. rewrite Hgot, <-app_assoc. split; [done|]. rewrite !length_app, length_drop. lia.
  - destruct (Hfl eq_refl) as [Hst Hh]. rewrite Hst. cbn [deref mbind outcome_bind ctr_encrypt].
    set (st := ctr_skip _ start) in *.
    exists {| pl_pos := pl_pos pl + length got; pl_buf := [];
      pl_sink := pl_sink pl ++ ctr_xor st (pl_buf pl ++ got); pl_flow := Some (ctr_skip (length (pl_buf pl ++ got)) st) |}.
    split; [unfold at_place; cbn; by rewrite Nat2Z.inj_add|]. split.
    { split; [cbn; lia|]. intros _. cbn. split; [|lia]. unfold st. rewrite ctr_skip_skip, length_app.
      do 2 f_equal. lia. }
    cbn. rewrite Hst, Hgot, (app_assoc (pl_buf pl)), (ctr_xor_app st (pl_buf pl ++ got)), <-app_assoc.
    split; [done|]. rewrite !length_app, !length_ctr_xor, !length_app, length_drop. lia.
Qed.

(** ** One event *)

Definition cut (n : nat) (i : reader_input) (pl : place) : place :=
  match i with
  | InBuffer => {| pl_pos := pl_pos pl; pl_buf := drop n (pl_buf pl); pl_sink := pl_sink pl; pl_flow := pl_flow pl |}
  | InSink => {| pl_pos := pl_pos pl; pl_buf := pl_buf pl; pl_sink := drop n (pl_sink pl); pl_flow := pl_flow pl |}
  end.
Definition reader_at (i : reader_input) (reading : bool) (size offset : Z) : BinlogReader :=
  {| input_ := Some i; reading_event := reading; rd_size := size; rd_offset := offset |}.

Lemma cut_good T n i pl : good T i pl → good T i (cut n i pl).
Proof. intros [Hp Hf]. by destruct i; split. Qed.
Lemma cut_ahead T i pl (l rest : list Z) : good T i pl → inp i pl = l ++ rest →
  ahead T i pl = l ++ ahead T i (cut (length l) i pl).
Proof.
  intros [_ Hf] Hi. destruct i; cbn in *.
  - by rewrite Hi, drop_app_length, app_assoc.
  - destruct (Hf eq_refl) as [-> _]. by rewrite Hi, drop_app_length, app_assoc.
Qed.

Lemma input_at b pl r i : input_ r = Some i → input_bytes r (at_place b pl r) = Ok (inp i pl).
Proof. intros Hr. unfold input_bytes. rewrite Hr. by destruct i. Qed.

(** The reader knows the size of [e], or can read it. *)
Definition sized (r : BinlogReader) (e : entry) (input : list Z) : Prop :=
  (reading_event r = true ∧ rd_size r = entry_size e) ∨
  (reading_event r = false ∧ (4 ≤ length input)%nat).

Lemma take4_event e : take 4 (event_bytes crc32 e) = le_split 4 (u32 (entry_size e)).
Proof. done. Qed.
Lemma read_length_spec r i e input A : input_ r = Some i → entry_ok e → entry_small e →
  sized r e input → input `prefix_of` event_bytes crc32 e ++ A →
  read_length r input = Ok (inl (reader_at i true (entry_size e) (rd_offset r))).
Proof.
  intros Hi He [Hsz Hal] Hs Hp. pose proof (entry_size_bounds e He) as Hb. unfold read_length.
  unfold sized in Hs. destruct r as [ri rr rs ro]. cbn [reading_event input_ rd_size rd_offset] in *. subst ri.
  destruct Hs as [[-> ->]|[-> Hl]]; [done|].
  rewrite (proj2 (Nat.ltb_ge _ _)) by lia.
  assert (take 4 input = le_split 4 (u32 (entry_size e))) as ->.
  { rewrite <-take4_event. destruct Hp as [t Ht].
    assert (take 4 (event_bytes crc32 e ++ A) = take 4 (input ++ t)) as E by by rewrite Ht.
    rewrite !take_app_le in E; [done|lia|]. pose proof (length_event_bytes crc32 e). lia. }
  change (mk_TlParser ?l) with (parser_at l (Z.of_nat (length l))).
  rewrite <-(app_nil_r (le_split 4 _)), fetch_int_at.
  2:{ unfold in_int, INT_MIN, INT_MAX in *. lia. }
  cbn [mbind outcome_bind]. change MAX_SIZE with 16777216 in *. change MIN_SIZE with 32.
  unfold INT_MAX in *. rewrite u64_small by (unfold two64; lia).
  by rewrite (proj2 (Z.ltb_ge _ _)), (proj2 (Z.ltb_ge _ _)), Hal by lia.
Qed.

Lemma read_short b pl r i e A : input_ r = Some i → entry_ok e → entry_small e →
  sized r e (inp i pl) → inp i pl `prefix_of` event_bytes crc32 e ++ A →
  Z.of_nat (length (inp i pl)) < entry_size e →
  read_next (at_place b pl r) =
  Ok (at_place b pl (reader_at i true (entry_size e) (rd_offset r)), NeedSize (entry_size e)).
Proof.
  intros Hi He Hsm Hs Hp Hl. unfold read_next. cbn [at_place binlog_reader_ deref mbind outcome_bind].
  rewrite (input_at b pl r i Hi). cbn [mbind outcome_bind].
  rewrite (read_length_spec r i e _ A) by done. cbn [mbind outcome_bind reader_at rd_size].
  by rewrite (proj2 (Z.ltb_lt _ _)).
Qed.
Lemma read_first b pl r i : input_ r = Some i → reading_event r = false →
  (length (inp i pl) < 4)%nat → read_next (at_place b pl r) = Ok (at_place b pl r, NeedSize 4).
Proof.
  intros Hi Hr Hl. unfold read_next. cbn [at_place binlog_reader_ deref mbind outcome_bind].
  rewrite (input_at b pl r i Hi). cbn [mbind outcome_bind]. unfold read_length.
  by rewrite Hr, (proj2 (Nat.ltb_lt _ _)).
Qed.
Lemma read_event b pl r i e rest : input_ r = Some i → entry_ok e → entry_small e →
  sized r e (inp i pl) → inp i pl = event_bytes crc32 e ++ rest →
  read_next (at_place b pl r) =
  Ok (at_place b (cut (Z.to_nat (entry_size e)) i pl)
        (reader_at i false (entry_size e) (rd_offset r + entry_size e)),
      GotEvent (event_of crc32 (rd_offset r + entry_size e) e)).
Proof.
  intros Hi He Hsm Hs Hin. pose proof (length_event_bytes crc32 e) as Hlen.
  pose proof (entry_size_bounds e He).
  unfold read_next. cbn [at_place binlog_reader_ deref mbind outcome_bind].
  rewrite (input_at b pl r i Hi). cbn [mbind outcome_bind].
  rewrite (read_length_spec r i e _ rest) by (done || rewrite Hin; reflexivity). cbn [mbind outcome_bind reader_at rd_size].
  rewrite Hin, (proj2 (Z.ltb_ge _ _)) by (rewrite length_app; lia).
  rewrite take_app_length' by lia. rewrite (init_spec crc32) by done. cbn [mbind outcome_bind].
  rewrite (validate_spec crc32) by done. cbn [mbind outcome_bind].
  by destruct i.
Qed.

(** ** The loop *)

Lemma load_loop_S fuel b res : load_loop fuel b = Ok res → load_loop (S fuel) b = Ok res.
Proof.
  revert b res. induction fuel as [|fuel IH]; intros b res; [done|].
  change (load_loop (S fuel) b) with
    ('(b, result) ← read_next b;
     match result with
     | ReadError code =>
         if code =? -2 then
           r ← deref (binlog_reader_ b);
           let old_size := file_size Main (fs_ b) in
           let offset := rd_offset r in
           empty ← debug_data_empty offset old_size b;
           b ← fd_truncate offset b;
           if (empty : bool) then Ok (b, true) else Fault AssertFailure
         else Ok (b, true)
     | GotEvent event =>
         b ← do_add_event event b;
         if wrong_password (info_ b) then Ok (b, false) else load_loop fuel b
     | NeedSize need_size =>
         b ← fd_flush_read (Z.max need_size 4096) b;
         b ← wakeup b;
         r ← deref (binlog_reader_ b);
         input ← input_bytes r b;
         if Z.of_nat (length input) <? need_size then Ok (b, true) else load_loop fuel b
     end).
  intros E. cbn [load_loop]. destruct (read_next b) as [[b1 x]|]; cbn [mbind outcome_bind] in *; [|done].
  destruct x as [n|ev|code].
  - destruct (fd_flush_read _ b1) as [b2|]; cbn [mbind outcome_bind] in *; [|done].
    destruct (wakeup b2) as [b3|]; cbn [mbind outcome_bind] in *; [|done].
    destruct (deref _); cbn [mbind outcome_bind] in *; [|done].
    destruct (input_bytes _ b3); cbn [mbind outcome_bind] in *; [|done].
    destruct (_ <? _); [done|]. by apply IH.
  - destruct (do_add_event ev b1) as [b2|]; cbn [mbind outcome_bind] in *; [|done].
    destruct (wrong_password _); [done|]. by apply IH.
  - done.
Qed.
Lemma load_loop_mono fuel fuel' b res : (fuel ≤ fuel')%nat →
  load_loop fuel b = Ok res → load_loop fuel' b = Ok res.
Proof. induction 1; [done|]. intros E. by apply load_loop_S, IHle. Qed.

(** A turn that has to read from the file first. *)
Lemma load_need T i b pl r n r' : holds T b → byte_flow_flag_ b = is_sink i → good T i pl →
  0 ≤ n → input_ r' = Some i → read_next (at_place b pl r) = Ok (at_place b pl r', NeedSize n) →
  ∃ pl', good T i pl' ∧ ahead T i pl' = ahead T i pl ∧
    (Nat.min (Z.to_nat (Z.max n 4096)) (length (ahead T i pl)) ≤ length (inp i pl'))%nat ∧
    ∀ fuel, load_loop (S fuel) (at_place b pl r) =
      if Z.of_nat (length (inp i pl')) <? n then Ok (at_place b pl' r', true)
      else load_loop fuel (at_place b pl' r').
Proof.
  intros HT Hi Hg Hn Hr' E.
  destruct (fill_input_spec T i b pl r' (Z.max n 4096)) as (pl' & Ef & Hg' & Ha & Hl); [done..|lia|].
  exists pl'. split; [done|]. split; [done|]. split; [done|].
  intros fuel. cbn [load_loop]. rewrite E. cbn [mbind outcome_bind].
  destruct (fd_flush_read _ _) as [b1|]; cbn [mbind outcome_bind] in *; [|done].
  rewrite Ef. cbn [mbind outcome_bind at_place binlog_reader_ deref].
  fold (at_place b pl' r'). by rewrite (input_at b pl' r' i Hr').
Qed.

(** The loop takes the event [e] after [k] turns at most, and the rest of the file is then
    [A]. *)
Definition taken (b : Binlog) (pl : place) (i : reader_input) (e : entry) (offset : Z) (fuel : nat) :=
  b1 ← do_add_event (event_of crc32 (offset + entry_size e) e)
         (at_place b pl (reader_at i false (entry_size e) (offset + entry_size e)));
  if wrong_password (info_ b1) then Ok (b1, false) else load_loop fuel b1.
Definition reaches T i b e A offset (k : nat) (pl : place) (r : BinlogReader) : Prop :=
  ∃ pl', good T i pl' ∧ ahead T i pl' = A ∧
    ∀ fuel res, taken b pl' i e offset fuel = Ok res → load_loop (k + fuel) (at_place b pl r) = Ok res.

Lemma reaches_S T i b e A offset k pl r : reaches T i b e A offset k pl r → reaches T i b e A offset (S k) pl r.
Proof.
  intros (pl' & Hg & Ha & Hz). exists pl'. split_and!; [done..|]. intros fuel res E.
  by apply load_loop_S, Hz.
Qed.

Section next.
Context (T : list Z) (i : reader_input) (b : Binlog) (e : entry) (A : list Z).
Context (HT : holds T b) (Hi : byte_flow_flag_ b = is_sink i) (He : entry_ok e) (Hsm : entry_small e).

(** The input holds all of the event. *)
Lemma reaches_now pl r : good T i pl → input_ r = Some i → ahead T i pl = event_bytes crc32 e ++ A →
  sized r e (inp i pl) → entry_size e ≤ Z.of_nat (length (inp i pl)) →
  reaches T i b e A (rd_offset r) 1 pl r.
Proof.
  intros Hg Hr Ha Hs Hl. pose proof (length_event_bytes crc32 e) as Hlen.
  destruct (inp_prefix T i pl Hg) as [t Ht]. rewrite Ha in Ht.
  assert (∃ rest, inp i pl = event_bytes crc32 e ++ rest) as [rest Hrest].
  { exists (drop (length (event_bytes crc32 e)) (inp i pl)).
    rewrite <-(take_drop (length (event_bytes crc32 e)) (inp i pl)) at 1. f_equal.
    rewrite <-(take_app_le _ t) by lia. rewrite <-Ht. apply take_app_length. }
  exists (cut (Z.to_nat (entry_size e)) i pl). split; [by apply cut_good|]. split.
  { pose proof (cut_ahead T i pl _ _ Hg Hrest) as Hc. rewrite Ha in Hc.
    apply (inj (app _)) in Hc. rewrite Hc. do 2 f_equal. lia. }
  intros fuel res E. cbn [Nat.add load_loop]. by rewrite (read_event b pl r i e rest).
Qed.

(** It holds the length. *)
Lemma reaches_sized pl r : good T i pl → input_ r = Some i → reading_event r = false →
  ahead T i pl = event_bytes crc32 e ++ A → (4 ≤ length (inp i pl))%nat →
  reaches T i b e A (rd_offset r) 2 pl r.
Proof.
  intros Hg Hr Hrd Ha H4. pose proof (length_event_bytes crc32 e) as Hlen.
  pose proof (entry_size_bounds e He) as Hb. assert (Hs : sized r e (inp i pl)) by by right.
  destruct (decide (entry_size e ≤ Z.of_nat (length (inp i pl)))) as [Hfull|Hpart].
  { by apply reaches_S, reaches_now. }
  set (r1 := reader_at i true (entry_size e) (rd_offset r)).
  destruct (load_need T i b pl r (entry_size e) r1) as (pl1 & Hg1 & Ha1 & Hl1 & Hloop); [done..|lia|done| |].
  { apply (read_short _ _ _ _ _ A); try done; [|lia]. rewrite <-Ha. by apply inp_prefix. }
  rewrite Ha, length_app in Hl1.
  destruct (reaches_now pl1 r1) as (pl' & Hx & Hy & Hz); [done|done|congruence|by left|lia|].
  exists pl'. split_and!; [done..|]. intros fuel res E.
  change (2 + fuel)%nat with (S (1 + fuel)). rewrite Hloop, (proj2 (Z.ltb_ge _ _)) by lia. by apply Hz.
Qed.

Lemma load_next pl r : good T i pl → input_ r = Some i → reading_event r = false →
  ahead T i pl = event_bytes crc32 e ++ A → reaches T i b e A (rd_offset r) 3 pl r.
Proof.
  intros Hg Hr Hrd Ha. pose proof (length_event_bytes crc32 e) as Hlen.
  pose proof (entry_size_bounds e He) as Hb.
  destruct (decide (4 ≤ length (inp i pl))%nat) as [H4|H4].
  { by apply reaches_S, reaches_sized. }
  destruct (load_need T i b pl r 4 r) as (pl1 & Hg1 & Ha1 & Hl1 & Hloop); [done..| |].
  { apply (read_first _ _ _ i); [done..|lia]. }
  rewrite Ha, length_app in Hl1.
  destruct (reaches_sized pl1 r) as (pl' & Hx & Hy & Hz); [done|done|done|congruence|lia|].
  exists pl'. split_and!; [done..|]. intros fuel res E.
  change (3 + fuel)%nat with (S (2 + fuel)). rewrite Hloop, (proj2 (Z.ltb_ge _ _)) by lia. by apply Hz.
Qed.
End next.

(** What is left of an event whose writing was cut off. *)
Definition torn (t : list Z) : Prop :=
  t = [] ∨ ∃ e, entry_ok e ∧ entry_small e ∧ t `prefix_of` event_bytes crc32 e ∧ Z.of_nat (length t) < entry_size e.

(** An event that is longer than the reader takes. *)
Definition too_long (t : list Z) : Prop :=
  ∃ e rest, entry_ok e ∧ MAX_SIZE < entry_size e ∧ t = event_bytes crc32 e ++ rest.
(** The reader stops here. *)
Definition ends (t : list Z) : Prop := torn t ∨ too_long t.

Lemma read_too_long r e input rest : entry_ok e → MAX_SIZE < entry_size e → reading_event r = false →
  (4 ≤ length input)%nat → input `prefix_of` event_bytes crc32 e ++ rest → read_length r input = Ok (inr (ReadError 0)).
Proof.
  intros He Hl Hr H4 [t Ht]. pose proof (entry_size_bounds e He) as Hb. unfold read_length. rewrite Hr, (proj2 (Nat.ltb_ge _ _)) by lia.
  assert (take 4 input = le_split 4 (u32 (entry_size e))) as ->.
  { rewrite <-take4_event. rewrite <-(take_app_le input t), <-Ht, take_app_le; [done| |lia].
    pose proof (length_event_bytes crc32 e). lia. }
  change (mk_TlParser ?l) with (parser_at l (Z.of_nat (length l))).
  rewrite <-(app_nil_r (le_split 4 _)), fetch_int_at.
  2:{ unfold in_int, INT_MIN, INT_MAX in *. lia. }
  rewrite bind_Ok_l. unfold INT_MAX in *. rewrite u64_small by (unfold two64; lia).
  by rewrite (proj2 (Z.ltb_lt _ _)) by done.
Qed.

(** Once the input holds the length, if there is one. *)
Lemma load_end_sized T i b pl r : holds T b → byte_flow_flag_ b = is_sink i → good T i pl →
  input_ r = Some i → reading_event r = false → ends (ahead T i pl) → (4 ≤ length (inp i pl))%nat →
  ∃ pl' r', good T i pl' ∧ ahead T i pl' = ahead T i pl ∧
    load_loop 1 (at_place b pl r) = Ok (at_place b pl' r', true).
Proof.
  intros HT Hi Hg Hr Hrd Ht H4. pose proof (inp_prefix T i pl Hg) as Hin.
  destruct Ht as [[Ht|(e & He & Hsm & Hp & Hl)]|(e & rest & He & Hl & Ht)].
  - rewrite Ht in Hin. apply prefix_length in Hin. cbn in Hin. lia.
  - pose proof (entry_size_bounds e He) as Hb. pose proof (prefix_length _ _ Hin).
    destruct (load_need T i b pl r (entry_size e) (reader_at i true (entry_size e) (rd_offset r)))
      as (pl1 & Hg1 & Ha1 & Hl1 & Hloop); [done..|lia|done| |].
    { apply (read_short _ _ _ _ _ []); try done; [by right| |lia]. rewrite app_nil_r. by etrans. }
    pose proof (prefix_length _ _ (inp_prefix T i pl1 Hg1)) as Hin1. rewrite Ha1 in Hin1.
    exists pl1, (reader_at i true (entry_size e) (rd_offset r)). split_and!; [done..|].
    by rewrite Hloop, (proj2 (Z.ltb_lt _ _)) by lia.
  - exists pl, r. split_and!; [done..|]. cbn [load_loop]. unfold read_next. cbn [at_place binlog_reader_ deref].
    rewrite bind_Ok_l. fold (at_place b pl r). rewrite (input_at b pl r i Hr), bind_Ok_l.
    rewrite (read_too_long r e _ rest), bind_Ok_l by (done || by rewrite <-Ht). done.
Qed.

Lemma load_end T i b pl r : holds T b → byte_flow_flag_ b = is_sink i → good T i pl →
  input_ r = Some i → reading_event r = false → ends (ahead T i pl) →
  ∃ pl' r', good T i pl' ∧ ahead T i pl' = ahead T i pl ∧
    load_loop 3 (at_place b pl r) = Ok (at_place b pl' r', true).
Proof.
  intros HT Hi Hg Hr Hrd Ht. destruct (decide (4 ≤ length (inp i pl))%nat) as [H4|H4].
  - destruct (load_end_sized T i b pl r) as (pl' & r' & Hx & Hy & E); [done..|]. exists pl', r'.
    split_and!; [done..|]. by do 2 apply load_loop_S.
  - destruct (load_need T i b pl r 4 r) as (pl1 & Hg1 & Ha1 & Hl1 & Hloop); [done..| |].
    { apply (read_first _ _ _ i); [done..|lia]. }
    destruct (decide (4 ≤ length (inp i pl1))%nat) as [H4'|H4'].
    + destruct (load_end_sized T i b pl1 r) as (pl' & r' & Hx & Hy & E); try done; [by rewrite Ha1|].
      exists pl', r'. split_and!; [done|congruence|]. rewrite Hloop, (proj2 (Z.ltb_ge _ _)) by lia. by apply load_loop_S.
    + exists pl1, r. split_and!; [done..|]. by rewrite Hloop, (proj2 (Z.ltb_lt _ _)) by lia.
Qed.

(** ** All events *)

(** The object after reading entries. *)
Definition loaded (b : Binlog) (p : BinlogEventsProcessor) (size events : Z) : Binlog :=
  set_fd_size size (set_fd_events events (set_processor p b)).

Lemma load_add b pl r s e off : state_ b = Load → pending_events_ b = [] →
  proc_ok crc32 (processor_ b) s → log_valid s e →
  ∃ p', do_add_event (event_of crc32 off e) (at_place b pl r) =
      Ok (at_place (loaded b p' (fd_size_ b + entry_size e) (u64 (fd_events_ b + 1))) pl r) ∧
    proc_ok crc32 p' (log_step s e) ∧ proc_offset_ p' = off.
Proof.
  intros Hst Hpe Hp Hv. destruct (do_event_spec crc32 _ _ _ off Hp Hv) as (p' & E & Hp' & Ho).
  exists p'. split; [|done]. unfold do_add_event. cbn [event_of flags_].
  rewrite flags_not_partial by apply (lv_flags _ _ Hv). cbn [Z.eqb negb].
  change (pending_events_ (at_place b pl r)) with (pending_events_ b). rewrite Hpe.
  cbn [do_events mbind outcome_bind].
  replace (set_pending_events [] (at_place b pl r)) with (at_place b pl r)
    by (unfold set_pending_events, at_place; cbn; by rewrite Hpe).
  unfold do_event. change (state_ (at_place b pl r)) with (state_ b). rewrite Hst.
  rewrite bool_decide_false by naive_solver. cbn [mbind outcome_bind].
  rewrite (event_plain s) by done.
  cbn [mbind outcome_bind]. change (state_ (at_place b pl r)) with (state_ b). rewrite Hst.
  rewrite bool_decide_true by done. change (processor_ (at_place b pl r)) with (processor_ b).
  unfold proc_add_event. rewrite E. cbn [mbind outcome_bind]. by rewrite event_size_of.
Qed.

Record loading (b : Binlog) (s : log_state) (offset : Z) : Prop := {
  ld_state : state_ b = Load;
  ld_pending : pending_events_ b = [];
  ld_password : wrong_password (info_ b) = false;
  ld_proc : proc_ok crc32 (processor_ b) s;
  ld_size : fd_size_ b = offset;
  ld_offset : proc_offset_ (processor_ b) = offset;
}.

Lemma load_entries T i b pl r s es t : holds T b → byte_flow_flag_ b = is_sink i → good T i pl →
  input_ r = Some i → reading_event r = false → loading b s (rd_offset r) →
  log_ok_from s es → Forall entry_small es → ends t → ahead T i pl = entries_bytes es ++ t →
  ∃ p n pl' r', let b' := loaded b p (rd_offset r + Z.of_nat (length (entries_bytes es))) n in
    load_loop (3 * length es + 3) (at_place b pl r) = Ok (at_place b' pl' r', true) ∧
    good T i pl' ∧ ahead T i pl' = t ∧
    loading b' (foldl log_step s es) (rd_offset r + Z.of_nat (length (entries_bytes es))).
Proof.
  intros HT Hi. revert b pl r s HT Hi. induction es as [|e es IH];
    intros b pl r s HT Hi Hg Hr Hrd Hb Hok Hsm Ht Ha.
  - cbn in Ha. destruct (load_end T i b pl r) as (pl' & r' & Hg' & Ha' & E); [done..|by rewrite Ha|].
    exists (processor_ b), (fd_events_ b), pl', r'. cbv zeta. cbn [entries_bytes mbind list_bind length foldl].
    rewrite Z.add_0_r. destruct Hb as [Hs Hpe Hw Hp <- Ho]. split_and!; [|done|congruence|done].
    cbn [length Nat.mul Nat.add]. rewrite E. by destruct b.
  - destruct Hok as [Hv Hok]. apply Forall_cons in Hsm as [Hsm1 Hsm].
    rewrite entries_bytes_cons, <-app_assoc in Ha.
    destruct (load_next T i b e (entries_bytes es ++ t) HT Hi (lv_ok _ _ Hv) Hsm1 pl r)
      as (pl1 & Hg1 & Ha1 & Hz); [done..|].
    destruct Hb as [Hs Hpe Hw Hp Hfs Ho].
    destruct (load_add b pl1 (reader_at i false (entry_size e) (rd_offset r + entry_size e)) s e
      (rd_offset r + entry_size e)) as (p1 & E1 & Hp1 & Ho1); [done..|].
    set (b1 := loaded b p1 (fd_size_ b + entry_size e) (u64 (fd_events_ b + 1))) in *.
    destruct (IH b1 pl1 (reader_at i false (entry_size e) (rd_offset r + entry_size e)) (log_step s e))
      as (p & n & pl' & r' & E & Hg' & Ha' & Hl); try done.
    { split; try done. cbn. by rewrite Hfs. }
    cbn [rd_offset reader_at] in *.
    rewrite entries_bytes_cons, length_app, Nat2Z.inj_add, length_event_bytes, Z.add_assoc.
    exists p, n, pl', r'. split_and!; [|done|done|exact Hl]. cbn [length].
    replace (3 * S (length es) + 3)%nat with (3 + (3 * length es + 3))%nat by lia. apply Hz.
    unfold taken. rewrite E1. cbn [mbind outcome_bind at_place info_]. cbn [info_ b1 loaded set_fd_size set_fd_events set_processor].
    rewrite Hw. exact E.
Qed.

(** ** The event that turns encryption on *)

Definition decrypting (b : Binlog) (c : cipher) (used wrong : bool) : Binlog :=
  let info := {| was_created := was_created (info_ b); info_last_event_id := info_last_event_id (info_ b);
                 wrong_password := wrong; is_opened := is_opened (info_ b) |} in
  set_byte_flow_flag true (set_aes_ctr_state None (set_aes_ctr_key (c_key c)
    (set_aes_ctr_key_salt (c_salt c) (set_encryption_type AesCtr
      (set_db_key_used used (set_info info b)))))).

Lemma do_encryption_load b pl r c off : state_ b = Load → db_key_ b ≠ EmptyKey →
  cipher_ok (db_key_ b) c → aes_ctr_key_salt_ b = [] → length (aes_ctr_key_ b) = 32%nat →
  do_encryption_event (event_of crc32 off (encryption_entry c)) (at_place b pl r) =
  Ok (at_place (decrypting b c true (wrong_password (info_ b)))
        {| pl_pos := pl_pos pl; pl_buf := pl_buf pl; pl_sink := []; pl_flow := Some (c_start c) |}
        {| input_ := Some InSink; reading_event := reading_event r; rd_size := rd_size r; rd_offset := rd_offset r |}).
Proof.
  intros Hst Hdk Hc Hsalt Hkey. rewrite right_key; [|done|done| |done].
  2:{ cbn. rewrite Hsalt. intros Hx. destruct (cok_salt _ _ Hc) as [Hs _]. by rewrite <-Hx in Hs. }
  cbv zeta. rewrite decide_True by done. unfold update_read_encryption. cbn. unfold decrypting, at_place. cbn.
  by destruct (info_ b).
Qed.

Lemma good_end T pl : good T InSink pl → ahead T InSink pl = [] →
  pl_pos pl = length T ∧ pl_flow pl = Some (ctr_skip (length T - head) start).
Proof.
  intros [Hp Hf]. destruct (Hf eq_refl) as [Hfl Hh]. cbn. rewrite Hfl.
  intros [_ [Hb Hd]%ctr_xor_nil%app_nil]%app_nil. rewrite Hb in *. apply (f_equal length) in Hd.
  rewrite length_drop in Hd. cbn in *. split; [lia|]. do 2 f_equal. lia.
Qed.
End load.
