(* ===== verification/BinlogRun.v ===== *)
(** * A log that is open

    The invariant of an open log: the file, with what is still in the buffer, is a log
    whose entries in force are those of the processor. Flushing, syncing, adding events
    and writing the log anew keep it; and the states of the disk on the way are logs of
    the same entries, or beginnings of them. *)
From S2P Require Import Prelude Bytes TlParsers TlParserFacts TlHelpers BinlogEvent BinlogEventsProcessor FileSystem BinlogState Binlog BinlogFormat.

(** ** States of the disk *)

(** All states of [fs'] that are new since [fs] satisfy [P]. *)
Definition extends (P : disk → Prop) (fs fs' : file_system) : Prop :=
  ∃ ds, states fs' = ds ++ states fs ∧ Forall P ds.

Lemma extends_refl P fs : extends P fs fs.
Proof. by exists []. Qed.
Lemma extends_trans P fs1 fs2 fs3 : extends P fs1 fs2 → extends P fs2 fs3 → extends P fs1 fs3.
Proof.
  intros (d1 & E1 & H1) (d2 & E2 & H2). exists (d2 ++ d1). rewrite E2, E1, app_assoc. split; [done|].
  by apply Forall_app.
Qed.
Lemma extends_weaken (P Q : disk → Prop) fs fs' : (∀ d, P d → Q d) → extends P fs fs' → extends Q fs fs'.
Proof. intros HPQ (ds & E & Hd). exists ds. split; [done|]. by eapply Forall_impl. Qed.
Lemma extends_change (P : disk → Prop) d fs : P d → extends P fs (change d fs).
Proof. intros Hd. exists [d]. split; [done|]. by constructor. Qed.

Lemma file_at_set p f d : file_at p (set_file p f d) = f.
Proof. by destruct p. Qed.

(** Appending to a file. *)
Definition append_file (p : path) (f : file) (bytes : list Z) (fs : file_system) : file_system :=
  if bool_decide (bytes = []) then fs
  else change (set_file p (Some {| content := content f ++ bytes; durable := durable f |}) (now fs)) fs.
Lemma write_end p f bytes fs : file_at p (now fs) = Some f → (durable f ≤ length (content f))%nat →
  write_at p (Z.of_nat (length (content f))) bytes fs = Ok (append_file p f bytes fs).
Proof.
  intros Hf Hd. unfold write_at. rewrite Hf. cbn [deref mbind outcome_bind]. rewrite Nat2Z.id.
  rewrite Nat.sub_diag, app_nil_r, take_ge, drop_ge, app_nil_r, Nat.min_l by lia. done.
Qed.
Lemma append_file_at p f bytes fs : file_at p (now fs) = Some f →
  ∃ f', file_at p (now (append_file p f bytes fs)) = Some f' ∧
    content f' = content f ++ bytes ∧ durable f' = durable f.
Proof.
  intros Hf. unfold append_file. case_bool_decide as Hb.
  - exists f. by rewrite Hb, app_nil_r.
  - eexists. cbn. by rewrite file_at_set.
Qed.

Section run.
Context `{CryptoLaws}.
#[local] Set Default Proof Using "Type*".

(** ** Flushing *)

(** What the buffer becomes in the file. *)
Definition encoded (b : Binlog) : list Z :=
  if byte_flow_flag_ b then
    match flow_state_ b with Some st => ctr_xor st (buffer_ b) | None => [] end
  else buffer_ b.
Definition next_flow (b : Binlog) : option AesCtrState :=
  if byte_flow_flag_ b then ctr_skip (length (buffer_ b)) <$> flow_state_ b else flow_state_ b.
Definition flushed (p : path) (f : file) (b : Binlog) : Binlog :=
  let out := encoded b in
  set_need_sync (need_sync_ b || negb (bool_decide (out = [])))
    (set_fs (append_file p f out (fs_ b))
      (set_fd (Some (p, Z.of_nat (length (content f ++ out))))
        (set_flow_state (next_flow b) (set_buffer [] b)))).

Lemma nonempty_length (l : list Z) : l ≠ [] → (0 <? Z.of_nat (length l)) = true.
Proof. destruct l; [done|]. intros _. apply Z.ltb_lt. cbn. lia. Qed.

Lemma flush_spec p f b : state_ b ≠ Load → fd_ b = Some (p, Z.of_nat (length (content f))) →
  file_at p (now (fs_ b)) = Some f → (durable f ≤ length (content f))%nat → sink_ b = [] →
  (byte_flow_flag_ b = true → is_Some (flow_state_ b)) →
  flush b = Ok (flushed p f b).
Proof.
  intros Hst Hfd Hf Hd Hsink Hflow. unfold flush. rewrite decide_False by done.
  unfold flushed, encoded, next_flow. destruct b as [fd buf sink flag flow rd info k used old enc salt key st size ev pend proc lid ns stt fs dr].
  cbn in *. subst. unfold wakeup. cbn. destruct flag.
  - destruct (Hflow eq_refl) as [fl ->]. cbn. unfold fd_flush_write. cbn.
    rewrite write_end by done. cbn. rewrite length_app, Nat2Z.inj_add.
    case_bool_decide as Hx.
    + rewrite Hx. cbn. by rewrite orb_false_r.
    + by rewrite nonempty_length, orb_true_r.
  - unfold fd_flush_write. cbn. rewrite write_end by done. cbn. rewrite length_app, Nat2Z.inj_add.
    case_bool_decide as Hx.
    + rewrite Hx. cbn. by rewrite orb_false_r.
    + by rewrite nonempty_length, orb_true_r.
Qed.

(** ** The invariant *)

(** The cipher that writes, after [n] bytes. *)
Definition writes_with (b : Binlog) (c : option cipher) (n : nat) : Prop :=
  match c with
  | None => encryption_type_ b = NoEncryption ∧ byte_flow_flag_ b = false
  | Some c => encryption_type_ b = AesCtr ∧ byte_flow_flag_ b = true ∧
      flow_state_ b = Some (ctr_skip n (c_start c)) ∧
      aes_ctr_key_salt_ b = c_salt c ∧ aes_ctr_key_ b = c_key c
  end.

(** [start_writing] keeps the cipher and nothing of the buffers. *)
Record buffers_anew (b b' : Binlog) : Prop := {
  ba_buffer : buffer_ b' = [] ∧ sink_ b' = [];
  ba_state : state_ b' = state_ b ∧ pending_events_ b' = pending_events_ b ∧ processor_ b' = processor_ b;
  ba_file : fd_ b' = fd_ b ∧ fs_ b' = fs_ b ∧ fd_size_ b' = fd_size_ b ∧ need_sync_ b' = need_sync_ b;
  ba_key : db_key_ b' = db_key_ b ∧ aes_ctr_key_ b' = aes_ctr_key_ b ∧ db_key_used_ b' = db_key_used_ b ∧
    encryption_type_ b' = encryption_type_ b ∧ aes_ctr_key_salt_ b' = aes_ctr_key_salt_ b;
  ba_info : info_ b' = info_ b ∧ last_id_ b' = last_id_ b;
}.
Lemma start_writing_keeps b : buffers_anew b (start_writing b).
Proof.
  unfold start_writing, update_write_encryption. cbn [encryption_type_ set_sink set_buffer flow_state_].
  case_decide as Ht; [|destruct (encryption_type_ b) eqn:Ht'; [|done]].
  - cbn [encryption_type_ set_aes_ctr_state set_sink set_buffer]. rewrite Ht. by repeat split.
  - cbn [encryption_type_ set_sink set_buffer]. rewrite Ht'. by repeat split.
Qed.
Lemma start_writing_spec b c n : match c with
    | None => encryption_type_ b = NoEncryption
    | Some c => encryption_type_ b = AesCtr ∧ flow_state_ b = Some (ctr_skip n (c_start c)) ∧
        aes_ctr_key_salt_ b = c_salt c ∧ aes_ctr_key_ b = c_key c
    end → writes_with (start_writing b) c n.
Proof.
  intros Hc. unfold start_writing, update_write_encryption. cbn [encryption_type_ set_sink set_buffer flow_state_].
  destruct c as [c|].
  - destruct Hc as (H1 & H2 & H3 & H4). rewrite decide_True by done.
    cbn [encryption_type_ set_aes_ctr_state set_sink set_buffer]. rewrite H1, H2. by repeat split.
  - rewrite decide_False by (rewrite Hc; done).
    cbn [encryption_type_ set_aes_ctr_state set_sink set_buffer]. rewrite Hc. by repeat split.
Qed.

(** The first [nd] of the entries are sure to survive a crash. *)
Definition survives (c : option cipher) (es : list entry) (nd : nat) (f : file) : Prop :=
  (nd ≤ length es)%nat ∧ (durable f ≤ length (content f))%nat ∧
  (nd = 0%nat ∨ (length (log_file c (take nd es)) ≤ durable f)%nat).

(** An open log of the entries [es], of which [es2] are in the buffer; identifiers up to
    [m] have been used. *)
Record running (b : Binlog) (c : option cipher) (es : list entry) (nd : nat) (m : Z)
    (f : file) (es1 es2 : list entry) : Prop := {
  run_state : state_ b = Run;
  run_pending : pending_events_ b = [];
  run_log : log_ok es ∧ Forall entry_small es;
  run_key : key_fits (db_key_ b) c;
  run_key_size : length (aes_ctr_key_ b) = 32%nat;
  run_proc : ∃ n, proc_ok crc32 (processor_ b) ((replay es).1, n) ∧ (replay es).2 ≤ n ≤ m;
  run_size : fd_size_ b = Z.of_nat (length (log_file c es));
  run_sink : sink_ b = [];
  run_split : es = es1 ++ es2;
  run_file : main_file (now (fs_ b)) = Some f ∧ content f = log_file c es1;
  run_fd : fd_ b = Some (Main, Z.of_nat (length (content f)));
  run_buffer : buffer_ b = entries_bytes es2;
  run_cipher : writes_with b c (length (entries_bytes es1));
  run_durable : survives c es nd f;
  run_synced : need_sync_ b = false → durable f = length (content f) ∨ content f = cipher_head c;
}.

(** The file that opening the log will find. *)
Definition found (d : disk) (f : file) : Prop :=
  main_file d = Some f ∨ main_file d = None ∧ new_file d = Some f.
(** The file [f], cut off anywhere after what is durable, holds a beginning of [es] of at
    least [nd] entries. *)
Record file_log (db_key : DbKey) (c : option cipher) (es : list entry) (nd : nat) (f : file) : Prop := {
  fl_opens : key_opens db_key c;
  fl_log : log_ok es ∧ Forall entry_small es;
  fl_prefix : content f `prefix_of` log_file c es;
  fl_survives : survives c es nd f;
}.
Definition disk_log (db_key : DbKey) (es : list entry) (nd : nat) (d : disk) : Prop :=
  ∃ f c, found d f ∧ file_log db_key c es nd f.
(** After a crash of the disk [d], the entries in force satisfy [V]: those of any
    beginning of the log that can be left. *)
Definition recoverable (db_key : DbKey) (V : list entry → Prop) (d : disk) : Prop :=
  ∃ f c es nd, found d f ∧ file_log db_key c es nd f ∧
    ∀ j, (nd ≤ j ≤ length es)%nat → (nd < j → length (log_file c (take j es)) ≤ length (content f))%nat →
      V (replay (take j es)).1.

Lemma recoverable_weaken db_key (V V' : list entry → Prop) d : (∀ v, V v → V' v) → recoverable db_key V d → recoverable db_key V' d.
Proof. intros HV (f & c & es & nd & Hf & Hd & Hj). exists f, c, es, nd. split_and!; [done..|]. intros j Hj1 Hj2. by apply HV, Hj. Qed.
Lemma disk_recoverable db_key es nd d (V : list entry → Prop) : disk_log db_key es nd d →
  (∀ j, (nd ≤ j ≤ length es)%nat → V (replay (take j es)).1) → recoverable db_key V d.
Proof. intros (f & c & Hf & Hd) HV. exists f, c, es, nd. split_and!; [done..|]. intros j Hj _. by apply HV. Qed.

(** An open log whose entries in force are [l], and are one of [V] after a crash. *)
Definition open_log (b : Binlog) (l : list entry) (m : Z) (V : list entry → Prop) : Prop :=
  ∃ c es nd f es1 es2, running b c es nd m f es1 es2 ∧ (replay es).1 = l ∧
    ∀ j, (nd ≤ j ≤ length es)%nat → V (replay (take j es)).1.

Lemma running_disk b c es nd m f es1 es2 : running b c es nd m f es1 es2 → disk_log (db_key_ b) es nd (now (fs_ b)).
Proof.
  intros [? ? [? ?] ? ? ? ? ? -> [Hf Hc] ? ? ? Hs ?]. exists f, c. split; [by left|].
  split; [by apply fits_opens|done| |done]. rewrite Hc. by apply log_file_prefix, prefix_app_r.
Qed.
Lemma open_recoverable b l m V : open_log b l m V → recoverable (db_key_ b) V (now (fs_ b)).
Proof. intros (c & es & nd & f & es1 & es2 & Hr & _ & HV). eapply disk_recoverable; [|exact HV]. by eapply running_disk. Qed.
Lemma open_latest b l m V : open_log b l m V → V l.
Proof.
  intros (c & es & nd & f & es1 & es2 & Hr & <- & HV). rewrite <-(firstn_all es). apply HV.
  destruct (run_durable _ _ _ _ _ _ _ _ Hr) as [Hn _]. lia.
Qed.

(** What operations leave alone. *)
Record same_log (b b' : Binlog) : Prop := {
  same_db_key : db_key_ b' = db_key_ b;
  same_last_id : last_id_ b' = last_id_ b;
}.
Lemma same_log_trans b1 b2 b3 : same_log b1 b2 → same_log b2 b3 → same_log b1 b3.
Proof. intros [? ?] [? ?]. split; congruence. Qed.

(** *** Flushing *)

Lemma running_encoded b c es nd m f es1 es2 : running b c es nd m f es1 es2 →
  content f ++ encoded b = log_file c es.
Proof.
  intros [? ? ? ? ? ? ? ? -> [_ Hc] ? Hb Hci ? ?]. unfold encoded, log_file. rewrite Hc, Hb.
  unfold log_file. rewrite <-app_assoc, entries_bytes_app, cipher_body_app. f_equal. f_equal.
  destruct c as [c|]; cbn in Hci.
  - destruct Hci as (_ & -> & -> & _). done.
  - by destruct Hci as [_ ->].
Qed.

Lemma flush_running b c es nd m f es1 es2 : running b c es nd m f es1 es2 →
  ∃ b' f', flush b = Ok b' ∧ running b' c es nd m f' es [] ∧ durable f' = durable f ∧ same_log b b' ∧
    extends (disk_log (db_key_ b) es nd) (fs_ b) (fs_ b').
Proof.
  intros Hr. pose proof (running_encoded _ _ _ _ _ _ _ _ Hr) as Henc.
  pose proof Hr as [Hst Hpe Hlog Hkey Hks Hp Hsz Hsi Hsp [Hf Hc] Hfd Hbu Hci [Hnd [Hd Hsu]] Hsy].
  assert (Hflow : byte_flow_flag_ b = true → is_Some (flow_state_ b)).
  { destruct c; cbn in Hci; [destruct Hci as (_ & _ & -> & _); done|destruct Hci as [_ ->]; done]. }
  rewrite (flush_spec Main f b) by (done || congruence).
  destruct (append_file_at Main f (encoded b) (fs_ b) Hf) as (f' & Hf' & Hc' & Hd').
  rewrite Henc in Hc'.
  assert (Hr' : running (flushed Main f b) c es nd m f' es []).
  { split; try done.
    - by rewrite app_nil_r.
    - unfold flushed. cbn. by rewrite Hc', Henc.
    - unfold flushed, writes_with in *. cbn. destruct c as [c|]; [|done].
      destruct Hci as (H1 & H2 & H3 & H4 & H5). split_and!; try done.
      unfold next_flow. rewrite H2, H3, Hbu. cbn. rewrite ctr_skip_skip, Hsp, entries_bytes_app, length_app. done.
    - split_and!; [done| |by rewrite Hd']. rewrite Hd', Hc', <-Henc, length_app. lia.
    - unfold flushed. cbn [need_sync_ set_need_sync]. rewrite Hd', Hc', <-Henc.
      intros [Hns Ho]%orb_false_iff. apply negb_false_iff, bool_decide_eq_true in Ho.
      rewrite Ho, app_nil_r. by apply Hsy. }
  exists (flushed Main f b), f'. split_and!; try done.
  unfold flushed. cbn [fs_ set_need_sync set_fs]. unfold append_file. case_bool_decide as Hx; [apply extends_refl|].
  apply extends_change. unfold append_file in Hf'. rewrite bool_decide_false in Hf' by done. cbn in Hf'.
  pose proof (running_disk _ _ _ _ _ _ _ _ Hr') as Hdisk. unfold flushed, append_file in Hdisk.
  rewrite bool_decide_false in Hdisk by done. exact Hdisk.
Qed.

(** *** Syncing *)

Lemma entries_bytes_nil es : entries_bytes es = [] → es = [].
Proof.
  destruct es as [|e es]; [done|]. rewrite entries_bytes_cons. intros [Hx _]%app_nil.
  pose proof (length_event_bytes crc32 e) as Hl. rewrite Hx in Hl. unfold entry_size, MIN_SIZE, HEADER_SIZE, TAIL_SIZE in Hl.
  cbn in Hl. lia.
Qed.
Lemma log_file_head c es : log_file c es = cipher_head c → es = [].
Proof.
  unfold log_file. rewrite <-(app_nil_r (cipher_head c)) at 2. intros Hx%app_inv_head.
  apply entries_bytes_nil, length_zero_iff_nil. by rewrite <-(length_cipher_body c), Hx.
Qed.

(** With all entries on the disk, nothing is lost. *)
Lemma settled_survives c es f : durable f = length (content f) → content f = log_file c es → survives c es (length es) f.
Proof. intros Hd Hc. split_and!; [done|lia|]. right. by rewrite firstn_all, <-Hc, Hd. Qed.

Lemma with_survives b c es nd nd' m f es1 es2 : running b c es nd m f es1 es2 → survives c es nd' f →
  running b c es nd' m f es1 es2.
Proof. by intros [] ?. Qed.

Lemma survives_weaken c es nd nd' f : (nd' ≤ nd)%nat → survives c es nd f → survives c es nd' f.
Proof.
  intros Hn (H1 & H2 & H3). split_and!; [lia|done|]. destruct H3 as [->|H3]; [left; lia|right].
  etrans; [|exact H3]. apply prefix_length, log_file_prefix. rewrite <-(Nat.min_l nd' nd), <-take_take by done.
  apply prefix_take.
Qed.
Lemma disk_log_weaken db_key es nd nd' d : (nd' ≤ nd)%nat → disk_log db_key es nd d → disk_log db_key es nd' d.
Proof.
  intros Hn (f & c & Hf & [Hk Hl Hp Hs]). exists f, c. split; [done|]. split; try done. by eapply survives_weaken.
Qed.

Lemma sync_running b c es nd m f es1 es2 : running b c es nd m f es1 es2 →
  ∃ b' f', sync b = Ok b' ∧ running b' c es (length es) m f' es [] ∧ same_log b b' ∧ need_sync_ b' = false ∧
    extends (disk_log (db_key_ b) es nd) (fs_ b) (fs_ b').
Proof.
  intros Hr. destruct (flush_running _ _ _ _ _ _ _ _ Hr) as (b1 & f1 & E1 & Hr1 & Hd1 & Hs1 & Hx1).
  unfold sync. rewrite E1. cbn [mbind outcome_bind].
  pose proof Hr1 as [Hst Hpe Hlog Hkey Hks Hp Hsz Hsi Hsp [Hf Hc] Hfd Hbu Hci [Hnd [Hd Hsu]] Hsy].
  destruct (need_sync_ b1) eqn:Hns.
  - unfold fd_path, sync_file. rewrite Hfd. cbn [deref mbind outcome_bind file_at]. rewrite Hf. cbn [deref mbind outcome_bind].
    set (f2 := {| content := content f1; durable := length (content f1) |}).
    set (b2 := set_need_sync _ _).
    assert (Hr2 : running b2 c es (length es) m f2 es []).
    { split; try done. - by apply settled_survives. - by left. }
    exists b2, f2. destruct Hs1 as [Hk1 Hi1]. split_and!; try done.
    eapply extends_trans; [exact Hx1|]. apply extends_change. rewrite <-Hk1.
    apply (disk_log_weaken _ _ (length es)); [done|]. exact (running_disk _ _ _ _ _ _ _ _ Hr2).
  - exists b1, f1. split_and!; try done. eapply with_survives; [done|].
    destruct (Hsy eq_refl) as [Hx|Hx]; [by apply settled_survives|].
    rewrite Hc in Hx. apply log_file_head in Hx as ->. cbn. split_and!; [done..|by left].
Qed.

(** *** Adding an event *)

Lemma add_running b c es nd m f es1 es2 l e off m' : running b c es nd m f es1 es2 →
  (replay es).1 = l → log_valid (l, m) e → entry_small e → m ≤ m' → e_id e ≤ m' →
  ∃ b', do_add_event (event_of crc32 off e) b = Ok b' ∧ running b' c (es ++ [e]) nd m' f es1 (es2 ++ [e]) ∧
    same_log b b' ∧ fs_ b' = fs_ b.
Proof.
  intros [Hst Hpe [Hok Hsm] Hkey Hks (n & Hp & Hn) Hsz Hsi Hsp Hf Hfd Hbu Hci Hdu Hsy] Hl Hv He Hm' Heid.
  rewrite Hl in Hp.
  destruct (do_event_spec crc32 (processor_ b) (l, n) e off Hp) as (p' & E & Hp' & Ho); [by eapply log_valid_le; [|exact Hv]; lia|].
  destruct (log_step_last l n (replay es).2 m' e) as [Hs1 Hs2]; [lia|done|].
  rewrite <-Hl, <-surjective_pairing, Hl in Hs1, Hs2.
  unfold do_add_event. cbn [event_of flags_]. rewrite flags_not_partial by apply (lv_flags _ _ Hv). cbn [Z.eqb negb].
  rewrite Hpe. cbn [do_events mbind outcome_bind]. unfold do_event.
  change (state_ (set_pending_events [] b)) with (state_ b). rewrite Hst, bool_decide_true by by left.
  rewrite (validate_spec crc32) by apply (lv_ok _ _ Hv). cbn [mbind outcome_bind fatal_unless].
  rewrite bool_decide_true by done. unfold fatal_unless. cbn [cassert mbind outcome_bind].
  rewrite (event_plain (l, m)) by done. cbn [mbind outcome_bind].
  cbn [state_ set_buffer set_pending_events processor_]. rewrite Hst, bool_decide_true by done.
  unfold proc_add_event. rewrite E. cbn [mbind outcome_bind].
  eexists. split; [done|]. split; [|by split]. split; try done.
  - unfold log_ok. rewrite log_ok_app, Forall_app. rewrite Forall_singleton. split; [|done]. split; [done|]. split; [|done].
    fold (replay es). rewrite (surjective_pairing (replay es)), Hl. by eapply log_valid_le; [|exact Hv]; lia.
  - exists (log_step (l, n) e).2. rewrite replay_snoc. cbn [processor_ set_fd_size set_fd_events set_processor].
    rewrite Hs1. rewrite <-surjective_pairing. by split.
  - cbn. rewrite event_size_of, Hsz, !length_log_file, entries_bytes_app, length_app, entries_bytes_cons, app_nil_r.
    pose proof (length_event_bytes crc32 e). lia.
  - by rewrite Hsp, app_assoc.
  - cbn. by rewrite Hbu, entries_bytes_app, entries_bytes_cons, app_nil_r.
  - destruct Hdu as (H1 & H2 & H3). split_and!; [rewrite length_app; lia|done|]. by rewrite take_app_le.
Qed.
End run.
