(* ===== verification/BinlogReindex.v ===== *)
(** * Writing a log anew

    [do_reindex] writes the entries in force to a new file, with a new cipher when there
    is a key, and puts it in the place of the old one. Until then the old file is as it
    was; from then on the new one is on the disk in full. *)
From S2P Require Import Prelude Bytes TlParsers TlParserFacts TlHelpers BinlogEvent BinlogEventsProcessor FileSystem BinlogState Binlog BinlogFormat BinlogRun.

Section reindex.
Context `{CryptoLaws}.
#[local] Set Default Proof Using "Type*".

(** The old file has not been touched. *)
Definition same_main (fs : file_system) (d : disk) : Prop := main_file d = main_file (now fs).

(** The new file [f] holds the head of the cipher [c], and the buffer the entries [es]. *)
Record writing (b : Binlog) (c : option cipher) (es : list entry) (f : file) : Prop := {
  wr_state : state_ b = Reindex;
  wr_fd : fd_ b = Some (New, Z.of_nat (length (content f)));
  wr_file : new_file (now (fs_ b)) = Some f ∧ content f = cipher_head c ∧ durable f = 0%nat;
  wr_buffer : buffer_ b = entries_bytes es ∧ sink_ b = [];
  wr_cipher : writes_with b c 0;
  wr_size : fd_size_ b = Z.of_nat (length (log_file c es));
  wr_key : key_fits (db_key_ b) c ∧ length (aes_ctr_key_ b) = 32%nat;
}.
(** What is kept on the way. *)
Record kept (b b' : Binlog) : Prop := {
  kept_same : same_log b b';
  kept_processor : processor_ b' = processor_ b;
  kept_pending : pending_events_ b' = pending_events_ b;
  kept_disks : extends (same_main (fs_ b)) (fs_ b) (fs_ b');
}.

Lemma extends_now P fs fs' : extends P fs fs' → P (now fs) → P (now fs').
Proof. intros (ds & E & Hd) Hnow. destruct ds as [|d ds]; injection E as -> _; [done|]. by decompose_Forall_hyps. Qed.
Lemma kept_main b b' : kept b b' → main_file (now (fs_ b')) = main_file (now (fs_ b)).
Proof. intros Hk. exact (extends_now _ _ _ (kept_disks _ _ Hk) eq_refl). Qed.
Lemma kept_trans b1 b2 b3 : kept b1 b2 → kept b2 b3 → kept b1 b3.
Proof.
  intros K1 K2. pose proof (kept_main _ _ K1) as Hm. destruct K1 as [? ? ? D1], K2 as [? ? ? D2].
  split; try congruence; [by eapply same_log_trans|]. eapply extends_trans; [exact D1|].
  eapply extends_weaken; [|exact D2]. intros d Hd. unfold same_main in *. congruence.
Qed.
Lemma kept_append f bytes b b' : same_log b b' → processor_ b' = processor_ b → pending_events_ b' = pending_events_ b →
  fs_ b' = append_file New f bytes (fs_ b) → kept b b'.
Proof.
  intros Hs Hp He Hf. split; try done. rewrite Hf. unfold append_file. case_bool_decide; [apply extends_refl|].
  by apply extends_change.
Qed.

(** ** The head of the file *)

(** The salt, and the key that goes with it, of the log that was open. *)
Definition salt_ok (b : Binlog) : Prop :=
  db_key_ b = EmptyKey ∨ aes_ctr_key_salt_ b = [] ∨
  (length (aes_ctr_key_salt_ b) = default_salt_size ∧ bytes_ok (aes_ctr_key_salt_ b) ∧
   aes_ctr_key_ b = pbkdf2_sha256 (key_data (db_key_ b)) (aes_ctr_key_salt_ b) (key_iterations (db_key_ b))).

(** [do_reindex] up to [reset_encryption]. *)
Definition start_reindex (b : Binlog) : Binlog :=
  set_fd_events 0 (set_fd_size 0 (update_write_encryption (set_encryption_type NoEncryption
    (set_sink [] (set_buffer [] (set_fd (Some (New, 0)) (set_fs (open_truncate New (fs_ b)) (set_state Reindex b)))))))).

Lemma start_kept b : kept b (start_reindex b).
Proof. split; try done. by apply extends_change. Qed.

(** Starting from an object that writes to the empty new file. *)
Definition blank : file := {| content := []; durable := 0 |}.

Record blank_start (b : Binlog) : Prop := {
  bs_state : state_ b = Reindex;
  bs_fd : fd_ b = Some (New, 0) ∧ new_file (now (fs_ b)) = Some blank;
  bs_buffer : buffer_ b = [] ∧ sink_ b = [];
  bs_plain : byte_flow_flag_ b = false ∧ encryption_type_ b = NoEncryption;
  bs_size : fd_size_ b = 0;
  bs_key : length (aes_ctr_key_ b) = 32%nat;
}.
Lemma start_blank b : length (aes_ctr_key_ b) = 32%nat → blank_start (start_reindex b).
Proof. by split. Qed.

Lemma encrypt_reindex b c off : state_ b = Reindex → db_key_ b ≠ EmptyKey → cipher_ok (db_key_ b) c →
  (aes_ctr_key_salt_ b = c_salt c → aes_ctr_key_ b = c_key c) → length (aes_ctr_key_ b) = 32%nat →
  do_encryption_event (event_of crc32 off (encryption_entry c)) b =
  (b ← flush (set_aes_ctr_state (Some (c_start c)) (set_aes_ctr_key (c_key c)
        (set_aes_ctr_key_salt (c_salt c) (set_encryption_type AesCtr (set_db_key_used true b)))));
   Ok (update_write_encryption b)).
Proof.
  intros Hst Hdk Hc Hs Hk. rewrite right_key by done. cbv zeta. rewrite decide_False by (by cbn; rewrite Hst).
  rewrite bool_decide_true by exact Hst. cbn [cassert]. rewrite bind_Ok_l. reflexivity.
Qed.

(** The head is written; from here on the cipher is used. *)
Record head_written (b b1 : Binlog) (c : cipher) : Prop := {
  hw_state : state_ b1 = Reindex;
  hw_fd : fd_ b1 = Some (New, Z.of_nat (length (cipher_head (Some c))));
  hw_fs : fs_ b1 = append_file New blank (cipher_head (Some c)) (fs_ b);
  hw_buffer : buffer_ b1 = [] ∧ sink_ b1 = [];
  hw_cipher : writes_with b1 (Some c) 0;
  hw_size : fd_size_ b1 = 0;
  hw_key : aes_ctr_key_ b1 = c_key c ∧ db_key_ b1 = db_key_ b;
  hw_kept : last_id_ b1 = last_id_ b ∧ processor_ b1 = processor_ b ∧ pending_events_ b1 = pending_events_ b;
}.

Lemma flush_head b c off : blank_start b → db_key_ b ≠ EmptyKey → cipher_ok (db_key_ b) c →
  (aes_ctr_key_salt_ b = c_salt c → aes_ctr_key_ b = c_key c) →
  ∃ b1, do_encryption_event (event_of crc32 off (encryption_entry c)) (set_buffer (cipher_head (Some c)) b) = Ok b1 ∧
    head_written b b1 c.
Proof.
  intros [Hst [Hfd Hf] [Hbu Hsi] [Hfl Hty] Hsz Hks] Hdk Hc Hsalt. rewrite encrypt_reindex by done.
  set (b0 := set_aes_ctr_state _ _).
  assert (∃ b0', b0' = b0) as [b0' E0] by by eexists.
  assert (Hfl0 : flush b0' = Ok (flushed New blank b0')).
  { apply flush_spec; rewrite ?E0; cbn; rewrite ?Hst, ?Hfd, ?Hfl; done || lia. }
  assert (Henc : encoded b0' = cipher_head (Some c)) by (rewrite E0; unfold encoded; cbn; by rewrite Hfl).
  assert (H1 : state_ b0' = Reindex) by by rewrite E0.
  assert (H2 : fs_ b0' = fs_ b) by by rewrite E0.
  assert (H3 : aes_ctr_state_ b0' = Some (c_start c)) by by rewrite E0.
  assert (H4 : encryption_type_ b0' = AesCtr) by by rewrite E0.
  assert (H5 : aes_ctr_key_ b0' = c_key c ∧ aes_ctr_key_salt_ b0' = c_salt c) by by rewrite E0.
  assert (H6 : fd_size_ b0' = 0) by by rewrite E0.
  assert (H7 : db_key_ b0' = db_key_ b ∧ last_id_ b0' = last_id_ b ∧ processor_ b0' = processor_ b ∧ pending_events_ b0' = pending_events_ b) by by rewrite E0.
  rewrite <-E0. clear E0. clearbody b0. clear b0. rewrite Hfl0. clear Hfl0.
  destruct H5 as [H5 H5'], H7 as (H7 & H8 & H9 & H10). cbn [mbind outcome_bind]. eexists. split; [done|].
  unfold flushed. rewrite Henc, H2. clear Henc.
  destruct b0'. cbn in H1, H2, H3, H4, H5, H5', H6, H7, H8, H9, H10. subst.
  unfold update_write_encryption. cbn. by split.
Qed.

Lemma write_head b c off : blank_start b → db_key_ b ≠ EmptyKey → cipher_ok (db_key_ b) c →
  (aes_ctr_key_salt_ b = c_salt c → aes_ctr_key_ b = c_key c) →
  ∃ b' f, do_event (event_of crc32 off (encryption_entry c)) b = Ok b' ∧ writing b' (Some c) [] f ∧ kept b b'.
Proof.
  intros Hb Hdk Hc Hsalt. destruct (flush_head b c off) as (b1 & E1 & Hw); [done..|].
  assert (Hbuf : buffer_ b ++ raw_event_ (event_of crc32 off (encryption_entry c)) = cipher_head (Some c))
    by by rewrite (proj1 (bs_buffer _ Hb)).
  assert (Hen : (type_ (event_of crc32 off (encryption_entry c)) <? 0) &&
    (type_ (event_of crc32 off (encryption_entry c)) =? AesCtrEncryption_type) = true) by reflexivity.
  unfold do_event. rewrite (bs_state _ Hb), bool_decide_true by by right.
  rewrite (validate_spec crc32) by by eapply encryption_entry_ok. unfold fatal_unless.
  rewrite bind_Ok_l, (bool_decide_true (SOk = SOk)) by done. cbn [cassert]. rewrite !bind_Ok_l, Hen, Hbuf, E1, bind_Ok_l.
  destruct Hw as [H1 H2 H3 [H4 H5] H6 H7 [H8 Hk1] (Hk2 & H9 & H10)].
  rewrite H1, bool_decide_false by naive_solver.
  destruct Hb as [Hst [Hfd Hf] [Hbu Hsi] [Hfl Hty] Hsz Hks].
  destruct (append_file_at New blank (cipher_head (Some c)) (fs_ b) Hf) as (f & Hf' & Hc' & Hd').
  eexists _, f. split; [done|]. split; [|by apply (kept_append blank (cipher_head (Some c)))].
  split; try done.
  - change (fd_ b1 = Some (New, Z.of_nat (length (content f)))). by rewrite Hc'.
  - change (new_file (now (fs_ b1)) = Some f ∧ content f = cipher_head (Some c) ∧ durable f = 0%nat). by rewrite H3.
  - change (fd_size_ b1 + event_size (event_of crc32 off (encryption_entry c)) = Z.of_nat (length (log_file (Some c) []))).
    rewrite H7, event_size_of, <-(length_event_bytes crc32), length_log_file. cbn. by rewrite Nat.add_0_r.
  - change (key_fits (db_key_ b1) (Some c) ∧ length (aes_ctr_key_ b1) = 32%nat).
    rewrite H8, Hk1. split; [done|]. by rewrite (cok_key _ _ Hc), pbkdf2_size.
Qed.

Lemma reset_spec b : blank_start b → salt_ok b →
  ∃ b' c f, reset_encryption b = Ok b' ∧ writing b' c [] f ∧ kept b b'.
Proof.
  intros Hb Hsalt. unfold reset_encryption. destruct (key_is_empty (db_key_ b)) eqn:Hke.
  - destruct Hb as [Hst [Hfd Hf] [Hbu Hsi] [Hfl Hty] Hsz Hks].
    exists (set_encryption_type NoEncryption b), None, blank. split; [done|]. split; [|split; try done; apply extends_refl].
    split; try done. split; [|done]. cbn. by destruct (db_key_ b) in Hke |- *.
  - set (sb := if bool_decide (aes_ctr_key_salt_ b = []) then _ else _).
    assert (∃ salt dr, sb = (salt, set_drawn dr b) ∧ length salt = default_salt_size ∧ bytes_ok salt ∧
      (aes_ctr_key_salt_ b = salt → aes_ctr_key_ b = pbkdf2_sha256 (key_data (db_key_ b)) salt (key_iterations (db_key_ b))))
      as (salt & dr & -> & Hs1 & Hs2 & Hs3).
    { unfold sb. case_bool_decide as Hx.
      - eexists _, _. split_and!; [done|apply secure_bytes_size|apply secure_bytes_ok|]. rewrite Hx. intros Hy.
        pose proof (secure_bytes_size (drawn_ b) default_salt_size) as Hl. by rewrite <-Hy in Hl.
      - destruct Hsalt as [Hy|[?|(?&?&?)]]; [by rewrite Hy in Hke|done|]. exists (aes_ctr_key_salt_ b), (drawn_ b). split_and!; try done. by destruct b. }
    set (iv := secure_bytes _ iv_size). set (b0 := set_drawn _ (set_drawn dr b)).
    set (key := pbkdf2_sha256 (key_data (db_key_ b)) salt (key_iterations (db_key_ b))) in *.
    set (c := {| c_salt := salt; c_iv := iv; c_key := key |}).
    assert (Hdk : db_key_ b ≠ EmptyKey) by (intros Hx; by rewrite Hx in Hke).
    replace (if bool_decide (aes_ctr_key_salt_ b0 = salt) then Ok (aes_ctr_key_ b0) else generate_key salt (db_key_ b0))
      with (Ok key).
    2:{ case_bool_decide as Hx; [f_equal; symmetry; exact (Hs3 Hx)|]. by rewrite generate_key_spec. }
    rewrite bind_Ok_l.
    assert (Hc : cipher_ok (db_key_ b) c).
    { split; [done| |done]. split; [apply secure_bytes_size|apply secure_bytes_ok]. }
    change (create_raw crc32 0 AesCtrEncryption_type 0 ?s) with
      (create_raw crc32 (e_id (encryption_entry c)) (e_type (encryption_entry c)) (e_flags (encryption_entry c)) s).
    rewrite (create_raw_spec crc32) by (by eapply encryption_entry_ok || by eapply (encryption_stores (db_key_ b) c)).
    rewrite bind_Ok_l. unfold mk_BinlogEvent. rewrite (init_spec crc32) by by eapply encryption_entry_ok. rewrite bind_Ok_l.
    destruct (write_head b0 c (-1)) as (b' & f & E & Hw & Hk); [by destruct Hb|done..|].
    exists b', (Some c), f. split_and!; try done. eapply kept_trans; [|done]. split; try done. apply extends_refl.
Qed.

(** ** The entries *)

Lemma write_event b c es f x ev : writing b c es f → is_event crc32 x ev → entry_ok x → 0 ≤ e_type x →
  ∃ b', do_event ev b = Ok b' ∧ writing b' c (es ++ [x]) f ∧ kept b b'.
Proof.
  intros [Hst Hfd Hf [Hbu Hsi] Hci Hsz Hkey] (off & fl & ->) Hx Hty. unfold do_event.
  rewrite Hst, bool_decide_true by by right.
  change (validate crc32 (set_flags fl (event_of crc32 off x))) with (validate crc32 (event_of crc32 off x)).
  rewrite (validate_spec crc32) by done. unfold fatal_unless. rewrite bind_Ok_l, bool_decide_true by done. cbn [cassert].
  rewrite !bind_Ok_l. replace (type_ (set_flags fl (event_of crc32 off x)) <? 0) with false
    by (symmetry; by apply Z.ltb_ge).
  cbn [andb]. rewrite bind_Ok_l. cbn [state_ set_buffer]. rewrite Hst, bool_decide_false by naive_solver.
  eexists. split; [done|]. split; [|split; try done; apply extends_refl]. split; try done.
  - cbn. by rewrite Hbu, entries_bytes_app, entries_bytes_cons, app_nil_r.
  - cbn [fd_size_ set_fd_size set_fd_events set_buffer].
    change (event_size (set_flags fl ?e)) with (event_size e). rewrite event_size_of, Hsz, !length_log_file, entries_bytes_app, length_app.
    rewrite entries_bytes_cons, app_nil_r. pose proof (length_event_bytes crc32 x). lia.
Qed.
Lemma kept_refl b : kept b b.
Proof. split; try done. apply extends_refl. Qed.
Lemma write_events b c es f l evs : writing b c es f → Forall2 (is_event crc32) l evs →
  Forall (λ x, entry_ok x ∧ 0 ≤ e_type x) l →
  ∃ b', ofold (λ b event, do_event event b) b evs = Ok b' ∧ writing b' c (es ++ l) f ∧ kept b b'.
Proof.
  intros Hw Hl. revert b es Hw. induction Hl as [|x ev l evs Hx Hl IH]; intros b es Hw Hok.
  - exists b. rewrite app_nil_r. split_and!; [done..|apply kept_refl].
  - apply Forall_cons in Hok as [[Hx1 Hx2] Hok].
    destruct (write_event b c es f x ev Hw Hx Hx1 Hx2) as (b1 & E1 & Hw1 & Hk1).
    destruct (IH b1 _ Hw1 Hok) as (b2 & E2 & Hw2 & Hk2).
    exists b2. cbn [ofold]. rewrite E1. cbn [mbind outcome_bind]. rewrite E2, <-app_assoc in *. cbn in Hw2.
    split_and!; [done..|]. by eapply kept_trans.
Qed.

(** ** The new file takes the place of the old one *)

Record new_written (b : Binlog) (c : option cipher) (l : list entry) (f : file) : Prop := {
  nw_state : state_ b = Reindex;
  nw_fd : fd_ b = Some (New, Z.of_nat (length (content f)));
  nw_file : new_file (now (fs_ b)) = Some f ∧ content f = log_file c l;
  nw_buffer : buffer_ b = [] ∧ sink_ b = [];
  nw_cipher : writes_with b c (length (entries_bytes l));
  nw_size : fd_size_ b = Z.of_nat (length (content f));
  nw_key : key_fits (db_key_ b) c ∧ length (aes_ctr_key_ b) = 32%nat;
}.
Lemma write_out b c l f : writing b c l f →
  ∃ b' f', flush b = Ok b' ∧ new_written b' c l f' ∧ kept b b' ∧ durable f' = 0%nat.
Proof.
  intros [Hst Hfd (Hf & Hc & Hd) [Hbu Hsi] Hci Hsz Hkey].
  assert (Hflow : byte_flow_flag_ b = true → is_Some (flow_state_ b)).
  { destruct c; cbn in Hci; [destruct Hci as (_ & _ & -> & _); done|destruct Hci as [_ ->]; done]. }
  rewrite (flush_spec New f b) by (done || lia || by rewrite Hst).
  destruct (append_file_at New f (encoded b) (fs_ b) Hf) as (f' & Hf' & Hc' & Hd').
  assert (Henc : content f ++ encoded b = log_file c l).
  { rewrite Hc. unfold log_file, encoded. f_equal. rewrite Hbu. destruct c as [c|]; cbn in Hci.
    - destruct Hci as (_ & -> & -> & _). by rewrite ctr_skip_0.
    - by destruct Hci as [_ ->]. }
  rewrite Henc in Hc'. exists (flushed New f b), f'. split; [done|]. split; [|split; [|congruence]].
  - split; try done.
    + change (fd_ (flushed New f b)) with (Some (New, Z.of_nat (length (content f ++ encoded b)))). by rewrite Hc', Henc.
    + unfold writes_with, next_flow in *. destruct c as [c|]; [|done].
      destruct Hci as (H1 & H2 & H3 & H4 & H5). split_and!; try done. cbn. unfold next_flow.
      rewrite H2, H3, Hbu. cbn. by rewrite ctr_skip_skip.
    + change (fd_size_ (flushed New f b)) with (fd_size_ b). by rewrite Hsz, Hc'.
  - by apply (kept_append f (encoded b)).
Qed.

Lemma in_place b c l f f0 n m : new_written b c l f → main_file (now (fs_ b)) = Some f0 →
  pending_events_ b = [] → view_ok (l, n) → Forall entry_small l → proc_ok crc32 (processor_ b) (l, n) → n ≤ m →
  survives c l (length l) f → durable f = length (content f) ∨ content f = cipher_head c →
  ∃ b', put_in_place b = Ok b' ∧ running b' c l (length l) m f l [] ∧ same_log b b' ∧
    extends (disk_log (db_key_ b) l (length l)) (fs_ b) (fs_ b').
Proof.
  intros [Hst Hfd [Hf Hc] [Hbu Hsi] Hci Hsz [Hkey Hks]] Hm Hpe Hview Hsm Hp Hn Hs Hd.
  destruct (view_log _ _ Hview) as [Hlog Hrep].
  assert (Hlast : (replay l).2 ≤ n).
  { rewrite Hrep. cbn. destruct (last l) as [e|] eqn:He; cbn; [|apply (vo_last _ Hview)].
    pose proof (vo_entries _ Hview) as Hve. rewrite Forall_forall in Hve. apply (Hve e).
    by apply last_Some_elem_of. }
  unfold put_in_place, unlink, exists_file. cbn [file_at]. rewrite Hm. unfold fatal_unless. cbn [cassert]. rewrite bind_Ok_l.
  unfold rename. cbn [file_at now change set_file new_file main_file]. rewrite Hf. cbn [cassert]. rewrite bind_Ok_l, Hfd. cbn [deref]. rewrite bind_Ok_l.
  set (fs := change _ (change _ _)).
  assert (Hfs : main_file (now fs) = Some f) by done.
  assert (Hdisk : ∀ g, new_file g = Some f ∧ main_file g = None ∨ main_file g = Some f → disk_log (db_key_ b) l (length l) g).
  { intros g Hg. exists f, c. split; [unfold found; naive_solver|]. split; [by apply fits_opens|done|by rewrite Hc|done]. }
  assert (Hext : extends (disk_log (db_key_ b) l (length l)) (fs_ b) fs).
  { eapply extends_trans; apply extends_change, Hdisk; [left|right]; done. }
  clearbody fs. unfold file_size. cbn [file_at fs_ set_fd set_fs fd_size_]. rewrite Hfs, Hsz, Z.eqb_refl. cbn [cassert]. rewrite bind_Ok_l.
  set (b1 := set_fd _ _). assert (Hw2 : writes_with (start_writing b1) c (length (entries_bytes l))).
  { apply start_writing_spec. unfold b1. destruct c; cbn in *; [|apply Hci]. destruct Hci as (?&?&?&?&?). by split_and!. }
  pose proof (start_writing_keeps b1) as Hb2. eexists. split; [done|].
  revert Hw2 Hb2. generalize (start_writing b1). intros b2 Hw2 Hb2.
  destruct Hb2 as [[B1 B2] (B3 & B4 & B5) (B6 & B7 & B8 & B9) (B10 & B11 & B12) [B13 B14]].
  cbn [b1 state_ pending_events_ processor_ fd_ fs_ fd_size_ need_sync_ db_key_ aes_ctr_key_ db_key_used_ info_ last_id_ set_fd set_fs] in *.
  split; [|split; [by split|cbn; by rewrite B7]].
  split; cbn; try done; try congruence.
  - exists n. rewrite B5, Hrep in *. by split; [|cbn in *; lia].
  - by rewrite app_nil_r.
  - by rewrite B7.
Qed.

(** ** All of it *)

(** The file is synced, unless the old one was empty: then there is nothing to lose. *)
Lemma settle b c l f (old_empty : bool) : new_written b c l f → durable f = 0%nat → (old_empty = true → l = []) →
  ∃ fs f', (if negb old_empty then sync_file New (fs_ b) else Ok (fs_ b)) = Ok fs ∧
    let b' := set_need_sync false (set_fs fs b) in
    new_written b' c l f' ∧ kept b b' ∧ survives c l (length l) f' ∧
    (durable f' = length (content f') ∨ content f' = cipher_head c).
Proof.
  intros Hw Hd Ho. pose proof Hw as [Hst Hfd [Hf Hc] Hbu Hci Hsz Hkey]. destruct old_empty; cbn [negb].
  - exists (fs_ b), f. rewrite Ho in * by done. split; [done|]. cbv zeta. split; [by split|]. split; [split; try done; apply extends_refl|].
    split; [split_and!; [done|lia|by left]|].
    right. rewrite Hc. unfold log_file. by destruct c; cbn; rewrite ?app_nil_r.
  - unfold sync_file. cbn [file_at]. rewrite Hf. cbn [deref]. rewrite bind_Ok_l. 
    eexists _, {| content := content f; durable := length (content f) |}. split; [done|]. cbv zeta.
    split; [by split|]. split; [split; try done; by apply extends_change|].
    split; [by apply settled_survives|]. by left.
Qed.

Lemma do_reindex_spec b l n m f0 : state_ b = Run → pending_events_ b = [] → main_file (now (fs_ b)) = Some f0 →
  content f0 ≠ [] ∨ l = [] → proc_ok crc32 (processor_ b) (l, n) → view_ok (l, n) → Forall entry_small l →
  salt_ok b → length (aes_ctr_key_ b) = 32%nat → n ≤ m →
  ∃ b' c f, do_reindex b = Ok b' ∧ running b' c l (length l) m f l [] ∧ same_log b b' ∧
    extends (λ d, same_main (fs_ b) d ∨ disk_log (db_key_ b) l (length l) d) (fs_ b) (fs_ b').
Proof.
  intros Hst Hpe Hm Hne Hp Hview Hsm Hsalt Hks Hn. unfold do_reindex.
  rewrite bool_decide_true by done. cbn [cassert]. rewrite bind_Ok_l. cbv zeta.
  change (set_fd_events 0 _) with (start_reindex b).
  destruct (reset_spec (start_reindex b)) as (b2 & c & f2 & E2 & Hw2 & Hk2); [by apply start_blank|done|].
  rewrite E2, bind_Ok_l. pose proof (kept_trans _ _ _ (start_kept b) Hk2) as Hk.
  assert (Hp2 : proc_ok crc32 (processor_ b2) (l, n)) by by rewrite (kept_processor _ _ Hk).
  destruct (for_each_spec crc32 (S := Binlog) (λ b event, do_event event b) _ _ Hp2) as (evs & Hevs & Eeach).
  destruct (write_events b2 c [] f2 l evs Hw2 Hevs) as (b3 & E3 & Hw3 & Hk3).
  { eapply Forall_impl; [exact (vo_entries _ Hview)|]. intros x [? _ _ ?]. by split. }
  rewrite Eeach, E3, bind_Ok_l. destruct (write_out _ _ _ _ Hw3) as (b4 & f4 & E4 & Hw4 & Hk4 & Hd4).
  rewrite E4, bind_Ok_l.
  destruct (settle b4 c l f4 (file_size Main (fs_ (set_state Reindex b)) =? 0) Hw4 Hd4) as (fs & f5 & E5 & Hw5 & Hk5 & Hs5 & Hd5).
  { unfold file_size. cbn. rewrite Hm. destruct Hne as [Hne|]; [|done]. intros Hx%Z.eqb_eq. destruct (content f0); [done|]. cbn in Hx. lia. }
  rewrite E5, bind_Ok_l. clear E2 E3 E4 E5 Eeach.
  pose proof (kept_trans _ _ _ Hk (kept_trans _ _ _ Hk3 (kept_trans _ _ _ Hk4 Hk5))) as Hkept.
  set (b5 := set_need_sync _ _) in *. clearbody b5. pose proof Hkept as [[Hdk Hid] Hpr Hpd Hdisks].
  destruct (in_place b5 c l f5 f0 n m) as (b' & E & Hr & [Hdk' Hid'] & Hx); try done.
  { by rewrite (kept_main _ _ Hkept). }
  { congruence. }
  { by rewrite Hpr. }
  exists b', c, f5. split_and!; [done..|split; congruence|].
  rewrite Hdk in Hx. eapply extends_trans; (eapply extends_weaken; [|eassumption]); [by left|by right].
Qed.
End reindex.
