(* ===== verification/BinlogOps.v ===== *)
(** * The operations on an open log

    Every operation leaves a log that is open, with the entries in force changed as it
    should, and every state of the disk on the way can be recovered. *)
From S2P Require Import Prelude Bytes TlParsers TlParserFacts TlHelpers BinlogEvent BinlogEventsProcessor FileSystem BinlogState Binlog BinlogFormat BinlogRun BinlogReindex.

Section ops.
Context `{CryptoLaws}.
#[local] Set Default Proof Using "Type*".

Lemma open_weaken b l m (V V' : list entry → Prop) : (∀ v, V v → V' v) → open_log b l m V → open_log b l m V'.
Proof.
  intros HV (c & es & nd & f & es1 & es2 & Hr & Hl & Hj). exists c, es, nd, f, es1, es2.
  split_and!; [done..|]. intros j Hj'. by apply HV, Hj.
Qed.
Lemma open_later b l m m' V : m ≤ m' → open_log b l m V → open_log b l m' V.
Proof.
  intros Hm (c & es & nd & f & es1 & es2 & Hr & Hl & Hj). exists c, es, nd, f, es1, es2. split_and!; [|done..].
  destruct Hr as [? ? ? ? ? (n & ? & ?) ? ? ? ? ? ? ? ? ?]. split; try done. exists n. split; [done|lia].
Qed.

(** From [b], the log goes on to [b']; [V] is what can be in force after a crash at any
    moment from then on. *)
Record goes_on (b b' : Binlog) (l : list entry) (m : Z) (V : list entry → Prop) : Prop := {
  go_open : open_log b' l m V;
  go_key : db_key_ b' = db_key_ b;
  go_disks : extends (recoverable (db_key_ b) V) (fs_ b) (fs_ b');
}.
Lemma goes_trans b1 b2 b3 l1 l2 m1 m2 (V1 V2 : list entry → Prop) : (∀ v, V1 v → V2 v) →
  goes_on b1 b2 l1 m1 V1 → goes_on b2 b3 l2 m2 V2 → goes_on b1 b3 l2 m2 V2.
Proof.
  intros HV [_ K1 D1] [O2 K2 D2]. split; [done|congruence|]. rewrite K1 in D2.
  eapply extends_trans; [|exact D2]. eapply extends_weaken; [|exact D1]. intros d. by apply recoverable_weaken.
Qed.

(** ** Flushing and syncing *)

Lemma sync_spec b l m V : open_log b l m V →
  ∃ b', sync b = Ok b' ∧ open_log b' l m (λ v, v = l) ∧ same_log b b' ∧ 
    extends (recoverable (db_key_ b) V) (fs_ b) (fs_ b').
Proof.
  intros (c & es & nd & f & es1 & es2 & Hr & Hl & HV).
  destruct (sync_running _ _ _ _ _ _ _ _ Hr) as (b' & f' & E & Hr' & Hs & _ & Hx).
  exists b'. split_and!; [done| |done|].
  - exists c, es, (length es), f', es, []. split_and!; [done..|]. intros j Hj. by rewrite take_ge by lia.
  - eapply extends_weaken; [|exact Hx]. intros d Hd. by eapply disk_recoverable.
Qed.
Lemma flush_open b l m V : open_log b l m V → ∃ b', flush b = Ok b' ∧ goes_on b b' l m V ∧ same_log b b' ∧ buffer_ b' = [].
Proof.
  intros (c & es & nd & f & es1 & es2 & Hr & Hl & HV).
  destruct (flush_running _ _ _ _ _ _ _ _ Hr) as (b' & f' & E & Hr' & Hd & Hs & Hx).
  exists b'. split_and!; [done| |done|exact (run_buffer _ _ _ _ _ _ _ _ Hr')]. split; [|apply Hs|].
  - by exists c, es, nd, f', es, [].
  - eapply extends_weaken; [|exact Hx]. intros d Hd'. by eapply disk_recoverable.
Qed.
Lemma goes_refl b l m V : open_log b l m V → goes_on b b l m V.
Proof. intros Ho. split; [done..|apply extends_refl]. Qed.
Lemma lazy_flush_spec b l m V : open_log b l m V →
  ∃ b', lazy_flush b = Ok b' ∧ goes_on b b' l m V ∧ same_log b b' ∧ Z.of_nat (length (buffer_ b')) ≤ 16384.
Proof.
  intros Ho. unfold lazy_flush. change (Z.shiftl 1 14) with 16384.
  destruct (Z.ltb_spec 16384 (Z.of_nat (length (buffer_ b)))).
  - destruct (flush_open b l m V Ho) as (b' & E & Hg & Hs & Hb). exists b'. by rewrite Hb.
  - exists b. split_and!; [done|by apply goes_refl|by split|done].
Qed.

(** ** Writing anew *)

Lemma running_salt b c es nd m f es1 es2 : running b c es nd m f es1 es2 → salt_ok b.
Proof.
  intros Hr. pose proof (run_cipher _ _ _ _ _ _ _ _ Hr) as Hc. pose proof (run_key _ _ _ _ _ _ _ _ Hr) as Hk.
  destruct c as [c|]; [|by left]. destruct Hk as [_ [[Hs1 Hs2] _ Hk]], Hc as (_ & _ & _ & Hs & Hkey).
  right. right. rewrite Hs, Hkey. done.
Qed.
Lemma replay_take_all l : replay (take (length l) l) = replay l.
Proof. by rewrite firstn_all. Qed.

(** [change_key] sets the key and forgets the salt before. *)
Lemma reindex_from b k salt l m V f : let b1 := set_aes_ctr_key_salt salt (set_db_key k b) in
  open_log b l m V → salt_ok b1 → main_file (now (fs_ b)) = Some f → content f ≠ [] ∨ l = [] →
  ∃ b', do_reindex b1 = Ok b' ∧ open_log b' l m (λ v, v = l) ∧ same_log b1 b' ∧
    extends (λ d, recoverable (db_key_ b) V d ∨ recoverable k (λ v, v = l) d) (fs_ b) (fs_ b').
Proof.
  intros b1 (c & es & nd & f' & es1 & es2 & Hr & Hl & HV) Hsalt Hf Hne.
  pose proof (running_disk _ _ _ _ _ _ _ _ Hr) as (g & c0 & Hfound & Hlog).
  destruct Hr as [Hst Hpe [Hok Hsm] Hkey Hks (n & Hp & Hn) _ _ _ [Hf' _] _ _ _ _ _].
  rewrite Hl in Hp. pose proof (replay_view es Hok) as Hview. rewrite (surjective_pairing (replay es)), Hl in Hview.
  assert (Hview' : view_ok (l, n)) by (eapply view_later; [exact Hview|]; split; [lia|by apply (proc_last crc32 _ _ _ Hp)]).
  destruct (do_reindex_spec b1 l n m f) as (b' & c' & f1 & E & Hr' & Hs & Hx); try done; [by rewrite <-Hl; apply replay_Forall|cbn; lia|].
  destruct (view_log _ _ Hview') as [Hl' Hrep].
  assert (Hsame : ∀ j, (length l ≤ j ≤ length l)%nat → (replay (take j l)).1 = l).
  { intros j Hj. by rewrite take_ge, Hrep by lia. }
  exists b'. split_and!; [done| |done|].
  - exists c', l, (length l), f1, l, []. by rewrite Hrep.
  - eapply extends_weaken; [|exact Hx]. intros d [Hd|Hd]; [left|right].
    + apply (disk_recoverable _ es nd); [|exact HV]. exists g, c0. split; [|exact Hlog].
      left. unfold same_main in Hd. cbn in Hd. destruct Hfound as [Hm|[Hm _]]; congruence.
    + by eapply disk_recoverable.
Qed.

Lemma reindex_open b l m V f : open_log b l m V → main_file (now (fs_ b)) = Some f → content f ≠ [] ∨ l = [] →
  ∃ b', do_reindex b = Ok b' ∧ goes_on b b' l m V ∧ same_log b b'.
Proof.
  intros Ho Hf Hne. assert (Hb : set_aes_ctr_key_salt (aes_ctr_key_salt_ b) (set_db_key (db_key_ b) b) = b) by by destruct b.
  pose proof Ho as (c & es & nd & f' & es1 & es2 & Hr & _).
  destruct (reindex_from b (db_key_ b) (aes_ctr_key_salt_ b) l m V f) as (b' & E & Ho' & Hs & Hx); try done.
  { rewrite Hb. by eapply running_salt. }
  rewrite Hb in E, Hs. exists b'. split_and!; [done| |done]. split; [|apply Hs|].
  - eapply open_weaken; [|exact Ho']. intros v ->. by eapply open_latest.
  - eapply extends_weaken; [|exact Hx]. intros d [Hd|Hd]; [done|].
    eapply recoverable_weaken; [|exact Hd]. intros v ->. by eapply open_latest.
Qed.

(** ** Adding events *)

Lemma do_add_spec b l m m' V e off : open_log b l m V → log_valid (l, m) e → entry_small e → m ≤ m' → e_id e ≤ m' →
  let l' := (log_step (l, m) e).1 in
  ∃ b', do_add_event (event_of crc32 off e) b = Ok b' ∧ goes_on b b' l' m' (λ v, V v ∨ v = l') ∧
    same_log b b'.
Proof.
  intros (c & es & nd & f & es1 & es2 & Hr & Hl & HV) Hv He Hm Hid l'.
  destruct (add_running _ _ _ _ _ _ _ _ l e off m' Hr Hl Hv He Hm Hid) as (b' & E & Hr' & [Hk Hi] & Hfs).
  assert (Hl' : (replay (es ++ [e])).1 = l').
  { rewrite replay_snoc, (surjective_pairing (replay es)), Hl. unfold l'. unfold log_step. cbn. by repeat case_match. }
  exists b'. split; [done|]. split; [|by split]. split; [|done|by rewrite Hfs; apply extends_refl].
  exists c, (es ++ [e]), nd, f, es1, (es2 ++ [e]). split_and!; [done..|]. rewrite length_app. cbn.
  intros j Hj. destruct (decide (j ≤ length es)%nat).
  - left. rewrite take_app_le by done. apply HV. lia.
  - right. rewrite take_ge by (rewrite length_app; cbn; lia). done.
Qed.

(** A file that has grown so long is not empty. *)
Lemma need_reindex_file b c es nd m f es1 es2 : running b c es nd m f es1 es2 →
  Z.of_nat (length (buffer_ b)) ≤ 16384 → need_reindex b = true → content f ≠ [].
Proof.
  intros Hr Hb Hn Hf. assert (Hs : 50000 < fd_size_ b).
  { unfold need_reindex in Hn. repeat (apply orb_true_iff in Hn as [Hn|Hn]); apply andb_true_iff in Hn as [Hn _]; lia. }
  destruct Hr as [_ _ _ _ _ _ Hsz _ -> [_ Hc] _ Hbu _ _ _]. rewrite Hbu in Hb.
  rewrite Hf in Hc. apply (f_equal length) in Hc. rewrite length_log_file in Hc, Hsz. rewrite entries_bytes_app, length_app in Hsz.
  cbn in Hc. lia.
Qed.

Lemma add_event_spec b l m m' V e off : open_log b l m V → log_valid (l, m) e → entry_small e → m ≤ m' → e_id e ≤ m' →
  let l' := (log_step (l, m) e).1 in
  ∃ b', add_event (event_of crc32 off e) b = Ok b' ∧ goes_on b b' l' m' (λ v, V v ∨ v = l') ∧ same_log b b'.
Proof.
  intros Ho Hv He Hm Hid l'. destruct (do_add_spec b l m m' V e off) as (b1 & E1 & Hg1 & Hs1); [done..|].
  destruct (lazy_flush_spec b1 l' m' _ (go_open _ _ _ _ _ Hg1)) as (b2 & E2 & Hg2 & Hs2 & Hlen).
  pose proof (goes_trans _ _ _ _ _ _ _ _ _ (λ _ H, H) Hg1 Hg2) as Hg. pose proof (same_log_trans _ _ _ Hs1 Hs2) as Hs.
  unfold add_event, fatal_unless. cbn [event_of size_]. rewrite (small_aligned _ He). cbn [Z.eqb cassert].
  rewrite bind_Ok_l. cbn [event_of] in E1. rewrite E1, bind_Ok_l, E2, bind_Ok_l.
  pose proof (go_open _ _ _ _ _ Hg2) as Ho2. pose proof Ho2 as (c & es & nd & f & es1 & es2 & Hr & _).
  rewrite (run_state _ _ _ _ _ _ _ _ Hr), bool_decide_true by done.
  destruct (need_reindex b2) eqn:Hn; [|by exists b2].
  destruct (reindex_open b2 l' m' _ f Ho2) as (b3 & E3 & Hg3 & Hs3).
  { apply (run_file _ _ _ _ _ _ _ _ Hr). }
  { left. by eapply need_reindex_file. }
  exists b3. split_and!; [done|by eapply goes_trans; [|exact Hg|exact Hg3]|by eapply same_log_trans].
Qed.

(** *** [add], [rewrite], [erase] *)

Lemma next_id b l m V : open_log b l m V → m ≤ last_id_ b → last_id_ b + 1 < 2 ^ 63 →
  ∃ b', next_event_id b = (b', last_id_ b + 1) ∧ goes_on b b' l m V ∧ m < last_id_ b' ∧ 0 ≤ m ∧ last_id_ b' = last_id_ b + 1.
Proof.
  intros (c & es & nd & f & es1 & es2 & Hr & Hl & HV) Hm Hid. unfold next_event_id.
  destruct (run_proc _ _ _ _ _ _ _ _ Hr) as (n & Hp & Hn).
  pose proof (proc_last _ _ _ _ Hp).
  rewrite u64_small by (unfold two64; lia). eexists. split; [done|]. split_and!; [|cbn; lia|lia|done].
  split; [|done|apply extends_refl]. exists c, es, nd, f, es1, es2. split_and!; [|done..].
  by destruct Hr.
Qed.

(** What the three have in common. *)
Lemma log_event b l m V e storer : open_log b l m V → m ≤ last_id_ b → last_id_ b + 1 < 2 ^ 63 → log_valid (l, m) e → entry_small e →
  e_id e ≤ last_id_ b + 1 → stores storer (e_data e) → let l' := (log_step (l, m) e).1 in
  ∃ b1 raw b', next_event_id b = (b1, last_id_ b + 1) ∧
    create_raw crc32 (e_id e) (e_type e) (e_flags e) storer = Ok raw ∧ add_raw_event raw b1 = Ok b' ∧
    goes_on b b' l' (last_id_ b') (λ v, V v ∨ v = l') ∧ last_id_ b' = last_id_ b + 1.
Proof.
  intros Ho Hm Hmax Hv He Hid Hst l'. destruct (next_id b l m V Ho Hm Hmax) as (b1 & E1 & Hg1 & Hm1 & Hm0 & Hi1).
  exists b1, (event_bytes crc32 e). unfold add_raw_event, mk_BinlogEvent.
  rewrite (create_raw_spec crc32), (init_spec crc32) by (done || apply (lv_ok _ _ Hv)). rewrite bind_Ok_l.
  destruct (add_event_spec b1 l m (last_id_ b1) V e (-1) (go_open _ _ _ _ _ Hg1) Hv He) as (b2 & E2 & Hg2 & [_ Hi2]); [lia|lia|].
  exists b2. split_and!; [done..| |congruence]. rewrite Hi2. eapply goes_trans; [|exact Hg1|exact Hg2]. by left.
Qed.

(** Data that fits an event. *)
Record data_ok (type : Z) (storer : Storer) (data : list Z) : Prop := {
  do_type : 0 ≤ type ≤ INT_MAX;
  do_stores : stores storer data;
  do_bytes : bytes_ok data;
  do_size : Z.of_nat (length data) + MIN_SIZE ≤ MAX_SIZE ∧ (Z.of_nat (length data) + MIN_SIZE) mod 4 = 0;
}.
Lemma data_entry type storer data id flags : data_ok type storer data → 0 < id < 2 ^ 63 → flags = 0 ∨ flags = Rewrite_flag →
  entry_ok {| e_id := id; e_type := type; e_flags := flags; e_data := data |} ∧
  entry_small {| e_id := id; e_type := type; e_flags := flags; e_data := data |}.
Proof.
  intros [Hty Hst Hb [Hs1 Hs2]] Hid Hfl. split; [|by split]. split; cbn; try done.
  - unfold two64. lia.
  - unfold in_int, INT_MAX, INT_MIN in *. lia.
  - destruct Hfl as [->| ->]; done.
  - unfold MAX_SIZE in Hs1. change (Z.shiftl 1 24) with 16777216 in Hs1. unfold INT_MAX. lia.
Qed.

Lemma open_last b l m V : open_log b l m V → 0 ≤ m.
Proof.
  intros (c & es & nd & f & es1 & es2 & Hr & _). destruct (run_proc _ _ _ _ _ _ _ _ Hr) as (n & Hp & Hn).
  pose proof (proc_last _ _ _ _ Hp). lia.
Qed.
Lemma open_view b l m V : open_log b l m V → ∃ n, n ≤ m ∧ view_ok (l, n).
Proof.
  intros (c & es & nd & f & es1 & es2 & Hr & <- & _). exists (replay es).2.
  destruct (run_proc _ _ _ _ _ _ _ _ Hr) as (n & Hp & Hn). split; [lia|]. rewrite <-surjective_pairing.
  apply replay_view, (run_log _ _ _ _ _ _ _ _ Hr).
Qed.
Lemma open_id b l m V id : open_log b l m V → id ∈ e_id <$> l → 0 < id < 2 ^ 63 ∧ id ≤ m.
Proof.
  intros Ho Hin. destruct (open_view _ _ _ _ Ho) as (n & Hn & [_ Hve _]).
  apply list_elem_of_fmap in Hin as (e & -> & He). rewrite Forall_forall in Hve. destruct (ve_id _ _ (Hve e He)) as [? ?].
  cbn in *. lia.
Qed.

(** What [next_event_id], [create_raw] and [add_raw_event] do together. *)
Definition logs (b : Binlog) (id type flags : Z) (storer : Storer) (l' : list entry) (V : list entry → Prop) (b' : Binlog) : Prop :=
  ∃ b1 raw, next_event_id b = (b1, last_id_ b + 1) ∧ create_raw crc32 id type flags storer = Ok raw ∧
    add_raw_event raw b1 = Ok b' ∧ goes_on b b' l' (last_id_ b') (λ v, V v ∨ v = l') ∧ last_id_ b' = last_id_ b + 1.

Lemma log_add b l m V type storer data : open_log b l m V → data_ok type storer data → m ≤ last_id_ b → last_id_ b + 1 < 2 ^ 63 →
  let e := {| e_id := last_id_ b + 1; e_type := type; e_flags := 0; e_data := data |} in
  ∃ b', logs b (last_id_ b + 1) type 0 storer (l ++ [e]) V b'.
Proof.
  intros Ho Hd Hm Hmax e. pose proof (open_last _ _ _ _ Ho).
  destruct (data_entry type storer data (last_id_ b + 1) 0 Hd) as [He1 He2]; [lia|by left|].
  destruct (log_event b l m V e storer Ho Hm Hmax) as (b1 & raw & b' & E1 & E2 & E3 & Hg & Hi); [|done|cbn; lia|apply Hd|].
  { split; [done|cbn; lia|by left|]. right. cbn. destruct Hd. lia. }
  exists b', b1, raw. split_and!; [done..| |done].
  replace (l ++ [e]) with (log_step (l, m) e).1; [done|]. unfold log_step. by rewrite bool_decide_false by naive_solver.
Qed.
Lemma add_entry_spec b l m V type storer data : open_log b l m V → data_ok type storer data → m ≤ last_id_ b → last_id_ b + 1 < 2 ^ 63 →
  let e := {| e_id := last_id_ b + 1; e_type := type; e_flags := 0; e_data := data |} in
  ∃ b', add type storer b = Ok (b', last_id_ b + 1) ∧
    goes_on b b' (l ++ [e]) (last_id_ b') (λ v, V v ∨ v = l ++ [e]) ∧ last_id_ b' = last_id_ b + 1.
Proof.
  intros Ho Hd Hm Hmax e. destruct (log_add b l m V type storer data Ho Hd Hm Hmax) as (b' & b1 & raw & E1 & E2 & E3 & Hg & Hi).
  unfold add. rewrite E1, E2, bind_Ok_l, E3, bind_Ok_l. by exists b'.
Qed.

Definition rewritten (e : entry) (l : list entry) : list entry := (λ x, if e_id x =? e_id e then e else x) <$> l.
Lemma log_rewrite b l m V id type storer data : open_log b l m V → data_ok type storer data → m ≤ last_id_ b → last_id_ b + 1 < 2 ^ 63 →
  id ∈ e_id <$> l → let e := {| e_id := id; e_type := type; e_flags := Rewrite_flag; e_data := data |} in
  ∃ b', logs b id type Rewrite_flag storer (rewritten e l) V b'.
Proof.
  intros Ho Hd Hm Hmax Hin e. pose proof (open_last _ _ _ _ Ho). destruct (open_id _ _ _ _ _ Ho Hin) as [Hid Hidm].
  destruct (data_entry type storer data id Rewrite_flag Hd) as [He1 He2]; [done|by right|].
  destruct (log_event b l m V e storer Ho Hm Hmax) as (b1 & raw & b' & E1 & E2 & E3 & Hg & Hi); [|done|cbn; lia|apply Hd|].
  { split; [done|done|by right|]. left. split_and!; [done..|right; apply Hd]. }
  exists b', b1, raw. split_and!; [done..| |done].
  replace (rewritten e l) with (log_step (l, m) e).1; [done|]. unfold log_step. rewrite bool_decide_true by done.
  rewrite (proj2 (Z.eqb_neq _ _)); [done|]. destruct Hd as [[? ?] ? ? ?]. cbn. unfold Empty_type. lia.
Qed.
Lemma rewrite_entry_spec b l m V id type storer data : open_log b l m V → data_ok type storer data → m ≤ last_id_ b → last_id_ b + 1 < 2 ^ 63 →
  id ∈ e_id <$> l → let e := {| e_id := id; e_type := type; e_flags := Rewrite_flag; e_data := data |} in
  ∃ b', rewrite id type storer b = Ok (b', last_id_ b + 1) ∧
    goes_on b b' (rewritten e l) (last_id_ b') (λ v, V v ∨ v = rewritten e l) ∧ last_id_ b' = last_id_ b + 1.
Proof.
  intros Ho Hd Hm Hmax Hin e.
  destruct (log_rewrite b l m V id type storer data Ho Hd Hm Hmax Hin) as (b' & b1 & raw & E1 & E2 & E3 & Hg & Hi).
  unfold rewrite. rewrite E1, E2, bind_Ok_l, E3, bind_Ok_l. by exists b'.
Qed.

(** The event that erases, without a new identifier. *)
Definition erasing (id : Z) : entry := {| e_id := id; e_type := Empty_type; e_flags := Rewrite_flag; e_data := [] |}.
Definition without (id : Z) (l : list entry) : list entry := filter (λ x, e_id x ≠ id) l.
Lemma erasing_valid b l m V id : open_log b l m V → id ∈ e_id <$> l →
  log_valid (l, m) (erasing id) ∧ entry_small (erasing id) ∧ id ≤ m ∧ (log_step (l, m) (erasing id)).1 = without id l.
Proof.
  intros Ho Hin. destruct (open_id _ _ _ _ _ Ho Hin) as [Hid Hidm].
  assert (He : entry_ok (erasing id)) by (split; cbn; try done; [unfold two64; lia|constructor]).
  split_and!; [|by split|done|].
  - split; [done|done|by right|]. left. split_and!; [done..|by left].
  - unfold log_step. by rewrite bool_decide_true by done.
Qed.
Lemma erase_event b l m m' V id : open_log b l m V → m ≤ m' → id ∈ e_id <$> l → let l' := without id l in
  ∃ raw b', create_raw crc32 id Empty_type Rewrite_flag EmptyStorer = Ok raw ∧ add_raw_event raw b = Ok b' ∧
    goes_on b b' l' m' (λ v, V v ∨ v = l') ∧ last_id_ b' = last_id_ b.
Proof.
  intros Ho Hm' Hin l'. destruct (erasing_valid _ _ _ _ _ Ho Hin) as (Hv & Hs & Hm & Hl').
  exists (event_bytes crc32 (erasing id)). unfold add_raw_event, mk_BinlogEvent.
  rewrite (init_spec crc32), bind_Ok_l by apply (lv_ok _ _ Hv).
  destruct (add_event_spec b l m m' V (erasing id) (-1) Ho Hv Hs Hm') as (b' & E & Hg & [_ Hi]); [cbn; lia|].
  rewrite Hl' in Hg. exists b'. split_and!; [|done..].
  apply (create_raw_spec crc32 (erasing id)); [apply (lv_ok _ _ Hv)|apply empty_stores].
Qed.
Lemma log_erase b l m V id : open_log b l m V → m ≤ last_id_ b → last_id_ b + 1 < 2 ^ 63 → id ∈ e_id <$> l →
  ∃ b', logs b id Empty_type Rewrite_flag EmptyStorer (without id l) V b'.
Proof.
  intros Ho Hm Hmax Hin. destruct (next_id b l m V Ho Hm Hmax) as (b1 & E1 & Hg1 & Hm1 & _ & Hi1).
  destruct (erase_event b1 l m (last_id_ b1) V id (go_open _ _ _ _ _ Hg1) ltac:(lia) Hin) as (raw & b2 & E2 & E3 & Hg2 & Hi2).
  exists b2, b1, raw. split_and!; [done..| |congruence]. rewrite Hi2. eapply goes_trans; [|exact Hg1|exact Hg2]. by left.
Qed.
Lemma erase_entry_spec b l m V id : open_log b l m V → m ≤ last_id_ b → last_id_ b + 1 < 2 ^ 63 → id ∈ e_id <$> l → let l' := without id l in
  ∃ b', erase id b = Ok (b', last_id_ b + 1) ∧
    goes_on b b' l' (last_id_ b') (λ v, V v ∨ v = l') ∧ last_id_ b' = last_id_ b + 1.
Proof.
  intros Ho Hm Hmax Hin l'. destruct (log_erase b l m V id Ho Hm Hmax Hin) as (b' & b1 & raw & E1 & E2 & E3 & Hg & Hi).
  unfold erase. rewrite E1, E2, bind_Ok_l, E3, bind_Ok_l. by exists b'.
Qed.

(** One after the other; after a crash, the first of them may be gone. *)
Fixpoint without_all (ids : list Z) (l : list entry) : list entry :=
  match ids with [] => l | id :: ids => without_all ids (without id l) end.
Definition some_erased (ids : list Z) (l v : list entry) : Prop := ∃ k, v = without_all (take k ids) l.

Lemma without_in id id' l : id' ∈ e_id <$> l → id' ≠ id → id' ∈ e_id <$> without id l.
Proof.
  rewrite !list_elem_of_fmap. intros (e & -> & He) Hne. exists e. split; [done|]. apply list_elem_of_filter. by split.
Qed.
Lemma erase_each_spec ids b l m V : open_log b l m V → m ≤ last_id_ b → last_id_ b + Z.of_nat (length ids) < 2 ^ 63 → NoDup ids →
  Forall (λ id, id ∈ e_id <$> l) ids → let l' := without_all ids l in
  ∃ b', erase_each ids b = Ok b' ∧
    goes_on b b' l' (last_id_ b') (λ v, V v ∨ some_erased ids l v) ∧ last_id_ b' = last_id_ b + Z.of_nat (length ids).
Proof.
  revert b l m V. induction ids as [|id ids IH]; intros b l m V Ho Hm Hmax Hnd Hin.
  - exists b. cbn. split; [done|]. split; [|lia]. split; [|done|apply extends_refl].
    eapply open_weaken; [|eapply open_later; [|exact Ho]; lia]. by left.
  - apply NoDup_cons in Hnd as [Hni Hnd]. apply Forall_cons in Hin as [Hin Hins]. cbn [length] in Hmax.
    destruct (erase_entry_spec b l m V id Ho Hm) as (b1 & E1 & Hg1 & Hi1); [lia|done|].
    destruct (IH b1 _ _ _ (go_open _ _ _ _ _ Hg1)) as (b2 & E2 & Hg2 & Hi2); [lia|lia|done| |].
    { rewrite Forall_forall in Hins |- *. intros id' Hid'.
      apply without_in; [by apply Hins|]. intros Heq. rewrite Heq in Hid'. exact (Hni Hid'). }
    exists b2. cbn [erase_each]. rewrite E1, bind_Ok_l. split; [done|]. split; [|cbn [length]; lia].
    eapply goes_trans; [|exact Hg1|].
    + intros v [Hv| ->]; [by left|right; by exists 1%nat].
    + destruct Hg2 as [Ho2 Hk2 Hd2]. cbn [without_all].
      assert (Hw : ∀ v, (V v ∨ v = without id l) ∨ some_erased ids (without id l) v → V v ∨ some_erased (id :: ids) l v).
      { intros v [[Hv| ->]|[k ->]]; [by left|right; by exists 1%nat|right; by exists (S k)]. }
      split; [exact (open_weaken _ _ _ _ _ Hw Ho2)|exact Hk2|]. eapply extends_weaken; [|exact Hd2]. intros d. by apply recoverable_weaken.
Qed.

(** ** Changing the key, closing *)

Lemma change_key_spec b l m V k f : open_log b l m V → main_file (now (fs_ b)) = Some f → content f ≠ [] ∨ l = [] →
  ∃ b', change_key k b = Ok b' ∧ open_log b' l m (λ v, v = l) ∧ db_key_ b' = k ∧ last_id_ b' = last_id_ b ∧
    extends (λ d, recoverable (db_key_ b) V d ∨ recoverable k (λ v, v = l) d) (fs_ b) (fs_ b').
Proof.
  intros Ho Hf Hne. destruct (reindex_from b k [] l m V f) as (b' & E & Ho' & [Hk Hi] & Hx); [done|by right; left|done|done|].
  by exists b'.
Qed.

Lemma close_spec b l m V : open_log b l m V →
  ∃ b', close true b = Ok b' ∧ fd_ b' = None ∧ recoverable (db_key_ b) (λ v, v = l) (now (fs_ b')) ∧
    extends (recoverable (db_key_ b) V) (fs_ b) (fs_ b').
Proof.
  intros Ho. pose proof Ho as (c & es & nd & f & es1 & es2 & Hr & _). unfold close. rewrite (run_fd _ _ _ _ _ _ _ _ Hr).
  destruct (sync_spec b l m V Ho) as (b' & E & Ho' & [Hk _] & Hx). rewrite E, bind_Ok_l.
  eexists. split; [done|]. split; [done|]. split; [|exact Hx]. rewrite <-Hk. exact (open_recoverable _ _ _ _ Ho').
Qed.
End ops.
