(* ===== verification/BinlogOpen.v ===== *)
(** * Opening a log

    [load_binlog] and [init] on the file of a log, which may have been cut off anywhere:
    the complete entries are read, what is left of the next one is dropped, and the log
    is open. *)
From S2P Require Import Prelude Bytes TlParsers TlParserFacts TlHelpers BinlogEvent BinlogEventsProcessor FileSystem BinlogState Binlog BinlogFormat BinlogLoad BinlogRun BinlogReindex BinlogOps.

Section opening.
Context `{CryptoLaws}.
#[local] Set Default Proof Using "Type*".

(** ** Where the file was cut *)

(** [l] holds the first [j] entries and not the next. *)
Definition cut_at (es : list entry) (j : nat) (l t : list Z) : Prop :=
  (j ≤ length es)%nat ∧ l = entries_bytes (take j es) ++ t ∧ torn t ∧
  (j < length es → length l < length (entries_bytes (take (S j) es)))%nat.

Lemma find_cut es l : Forall entry_ok es → Forall entry_small es → l `prefix_of` entries_bytes es → ∃ j t, cut_at es j l t.
Proof.
  intros Hok. revert l. induction Hok as [|e es He Hok IH]; intros l Hsm [k Hk].
  - destruct l; [|done]. exists 0%nat, []. split_and!; [done..|by left|]. cbn. lia.
  - apply Forall_cons in Hsm as [Hsm1 Hsm]. rewrite entries_bytes_cons in Hk.
    pose proof (length_event_bytes crc32 e) as Hlen.
    destruct (app_eq_inv _ _ _ _ Hk) as [(x & Hx & _)|(x & -> & Hx)].
    + destruct x as [|y x].
      { rewrite app_nil_r in Hx. exists 1%nat, []. subst l. split_and!; [cbn; lia| |by left|].
        - cbn [take]. rewrite entries_bytes_cons. cbn. by rewrite !app_nil_r.
        - cbn [take length]. intros Hl. destruct es as [|e' es]; [cbn in Hl; lia|]. cbn [take].
          rewrite !entries_bytes_cons, !length_app. apply Forall_cons in Hok as [He' _].
          pose proof (length_event_bytes crc32 e'). pose proof (entry_size_bounds e' He'). lia. }
      apply (f_equal length) in Hx as Hl. rewrite length_app in Hl. cbn [length] in Hl.
      exists 0%nat, l. split_and!; [cbn; lia|done| |].
      * right. exists e. split_and!; try done; [by exists (y :: x)|lia].
      * intros _. cbn [take]. rewrite entries_bytes_cons, length_app. lia.
    + destruct (IH x Hsm) as (j & t & Hj & Hxj & Ht & Hnext); [by exists k|].
      exists (S j), t. unfold cut_at. rewrite !firstn_cons, !entries_bytes_cons, <-app_assoc, <-Hxj.
      cbn [length]. split_and!; [lia|done..|].
      intros Hlt. rewrite !length_app. specialize (Hnext ltac:(lia)). lia.
Qed.
Lemma cut_least es j l t n : cut_at es j l t → (n ≤ length es)%nat →
  (length (entries_bytes (take n es)) ≤ length l)%nat → (n ≤ j)%nat.
Proof.
  intros (Hj & _ & _ & Hnext) Hn Hl. destruct (decide (n ≤ j)%nat) as [|Hgt]; [done|].
  specialize (Hnext ltac:(lia)).
  enough (length (entries_bytes (take (S j) es)) ≤ length (entries_bytes (take n es)))%nat by lia.
  apply prefix_length, entries_bytes_prefix. rewrite <-(Nat.min_l (S j) n), <-take_take by lia. apply prefix_take.
Qed.

Lemma entries_length es : Forall entry_ok es → (32 * length es ≤ length (entries_bytes es))%nat.
Proof.
  induction 1 as [|e es He _ IH]; [done|]. rewrite entries_bytes_cons, length_app. cbn [length].
  pose proof (length_event_bytes crc32 e). pose proof (entry_size_bounds e He). lia.
Qed.
Lemma log_entries s es : log_ok_from s es → Forall entry_ok es.
Proof. revert s. induction es as [|e es IH]; intros s; [done|]. intros [Hv Hl]. constructor; [apply Hv|by eapply IH]. Qed.

(** How many entries a file holds. *)
Record holds_entries (c : option cipher) (es : list entry) (j : nat) (f : file) : Prop := {
  he_some : (j ≤ length es)%nat;
  he_held : (0 < j → length (log_file c (take j es)) ≤ length (content f))%nat;
  he_most n : (n ≤ length es → length (log_file c (take n es)) ≤ length (content f) → n ≤ j)%nat;
}.
(** Even the head of the file may be incomplete. *)
Lemma cut_head (h l m x : list Z) : h ++ m = l ++ x →
  (∃ k, l = h ++ k ∧ k `prefix_of` m) ∨ (l `prefix_of` h ∧ length l < length h)%nat.
Proof.
  intros [(k & -> & Hk)|(k & -> & ->)]%app_eq_inv; [|left; exists k; split; [done|by exists x]].
  destruct k as [|z k]; [left; exists []; rewrite !app_nil_r; split; [done|apply prefix_nil]|right].
  split; [by exists (z :: k)|]. rewrite length_app. cbn [length]. lia.
Qed.
Lemma body_prefix c k l : k `prefix_of` cipher_body c l → ∃ k', k = cipher_body c k' ∧ k' `prefix_of` l.
Proof.
  destruct c as [c|]; intros Hk; [|by exists k]. exists (ctr_xor (c_start c) k). cbn. rewrite ctr_xor_involutive.
  split; [done|]. by apply ctr_xor_prefix.
Qed.
Lemma cut_holds c es f j l t : content f = cipher_head c ++ cipher_body c l → cut_at es j l t → holds_entries c es j f.
Proof.
  intros Hf Hcut. pose proof Hcut as (Hj & Hl & _). split; [done| |].
  - intros _. rewrite Hf, length_log_file, length_app, length_cipher_body, Hl, length_app. lia.
  - intros n Hn. rewrite Hf, length_log_file, length_app, length_cipher_body. intros Hle.
    apply (cut_least _ _ _ _ _ Hcut Hn). lia.
Qed.
Lemma cut_cases db_key c es nd f : file_log db_key c es nd f →
  ∃ j, holds_entries c es j f ∧
    ((∃ l t, content f = cipher_head c ++ cipher_body c l ∧ cut_at es j l t) ∨ (j = 0%nat ∧ c ≠ None ∧ torn (content f))).
Proof.
  intros [Hk [Hok Hsm] [x Hx] _]. apply log_entries in Hok.
  destruct (cut_head _ _ _ _ Hx) as [(k & Hf & (l & -> & Hl)%body_prefix)|[Hp Hlt]].
  - destruct (find_cut es l Hok Hsm Hl) as (j & t & Hcut). exists j. split; [by eapply cut_holds|]. left. by exists l, t.
  - exists 0%nat. split.
    { split; [lia|lia|]. intros n _ Hle. rewrite length_log_file in Hle. lia. }
    right. split_and!; [done|intros ->; cbn in Hlt; lia|]. destruct c as [c|]; [|cbn in Hlt; lia]. destruct Hk as [_ Hk].
    right. exists (encryption_entry c). split_and!; [by eapply encryption_entry_ok|by eapply encryption_small|done|].
    rewrite <-(length_event_bytes crc32). cbn [cipher_head] in Hlt. lia.
Qed.

(** ** The end of [load_binlog] *)

Lemma collect_events evs0 evs : ofold (λ a e, Ok (a ++ [e])) evs0 evs = Ok (evs0 ++ evs : list BinlogEvent).
Proof.
  revert evs0. induction evs as [|e evs IH]; intros evs0; cbn; [by rewrite app_nil_r|]. by rewrite IH, <-app_assoc.
Qed.

(** What the end keeps. *)
Record kept_loaded (b b' : Binlog) : Prop := {
  kl_flow : byte_flow_flag_ b' = byte_flow_flag_ b ∧ flow_state_ b' = flow_state_ b ∧ encryption_type_ b' = encryption_type_ b;
  kl_key : db_key_ b' = db_key_ b ∧ aes_ctr_key_salt_ b' = aes_ctr_key_salt_ b ∧ aes_ctr_key_ b' = aes_ctr_key_ b;
  kl_events : pending_events_ b' = pending_events_ b ∧ processor_ b' = processor_ b ∧ fd_size_ b' = fd_size_ b;
  kl_info : info_ b' = info_ b ∧ last_id_ b' = last_id_ b ∧ need_sync_ b' = need_sync_ b;
}.
Definition settled (f : file) : Prop := durable f = length (content f).

Lemma load_finish_spec b f st pos off : fd_ b = Some (Main, pos) → main_file (now (fs_ b)) = Some f → settled f →
  proc_ok crc32 (processor_ b) st → proc_offset_ (processor_ b) = Z.of_nat off → fd_size_ b = Z.of_nat off →
  (off ≤ length (content f))%nat →
  ∃ events f' b', finish_load b = Ok (start_writing b', events) ∧ Forall2 (is_event crc32) st.1 events ∧
    state_ b' = Run ∧ main_file (now (fs_ b')) = Some f' ∧ content f' = take off (content f) ∧ settled f' ∧
    kept_loaded b b' ∧ extends (λ d, main_file d = Some f') (fs_ b) (fs_ b') ∧
    (if decide (off = length (content f)) then fd_ b' = fd_ b ∧ db_key_used_ b' = db_key_used_ b
     else fd_ b' = Some (Main, Z.of_nat off) ∧ db_key_used_ b' = false).
Proof.
  intros Hfd Hf Hs Hp Ho Hsz Hle. unfold finish_load. rewrite Ho, (proj2 (Z.leb_le _ _)) by lia. cbn [cassert]. rewrite bind_Ok_l.
  destruct (for_each_spec crc32 (S := list BinlogEvent) (λ events event, Ok (events ++ [event])) _ _ Hp) as (evs & Hevs & Eeach).
  rewrite Eeach, collect_events, bind_Ok_l. unfold fd_path. rewrite Hfd. cbn [deref]. rewrite !bind_Ok_l.
  unfold file_size. cbn [file_at]. rewrite Hf. destruct (Z.eqb_spec (Z.of_nat off) (Z.of_nat (length (content f)))) as [Heq|Hne].
  - cbn [negb]. rewrite bind_Ok_l, Hsz, Z.eqb_refl. cbn [cassert]. rewrite bind_Ok_l.
    eexists _, f, _. split; [done|]. apply Nat2Z.inj in Heq. rewrite decide_True, Heq, firstn_all by done.
    split_and!; try done; apply extends_refl.
  - cbn [negb]. unfold fd_truncate, fd_path. rewrite Hfd. cbn [deref]. rewrite !bind_Ok_l. unfold truncate. cbn [file_at]. rewrite Hf.
    cbn [deref]. rewrite !bind_Ok_l, Nat2Z.id. replace (off - length (content f))%nat with 0%nat by lia. cbn [replicate].
    rewrite app_nil_r. cbn [fd_size_ set_db_key_used set_fs set_fd]. rewrite Hsz, Z.eqb_refl. cbn [cassert]. rewrite bind_Ok_l.
    eexists _, _, _. split; [done|]. rewrite decide_False by lia. split_and!; try done.
    + unfold settled in *. cbn. rewrite length_take. lia.
    + by apply extends_change.
Qed.

(** ** A file that is not encrypted *)

(** An object that has opened the file [f] and read nothing. *)
Record fresh (b : Binlog) (f : file) : Prop := {
  fr_fd : fd_ b = Some (Main, 0);
  fr_file : main_file (now (fs_ b)) = Some f;
  fr_plain : encryption_type_ b = NoEncryption ∧ aes_ctr_key_salt_ b = [] ∧ length (aes_ctr_key_ b) = 32%nat;
  fr_events : processor_ b = mk_BinlogEventsProcessor ∧ fd_size_ b = 0 ∧ pending_events_ b = [];
  fr_used : db_key_used_ b = false;
}.

(** After reading the entries [es]; [ready] if nothing had to be dropped that the cipher
    has passed over. *)
Record loaded_log (b b' : Binlog) (c : option cipher) (es : list entry) (f : file) (ready : bool) : Prop := {
  ll_state : state_ b' = Run ∧ pending_events_ b' = [];
  ll_proc : proc_ok crc32 (processor_ b') (replay es);
  ll_file : main_file (now (fs_ b')) = Some f ∧ content f = log_file c es ∧ settled f;
  ll_size : fd_size_ b' = Z.of_nat (length (content f));
  ll_kept : db_key_ b' = db_key_ b ∧ last_id_ b' = last_id_ b ∧ length (aes_ctr_key_ b') = 32%nat;
  ll_password : wrong_password (info_ b') = false;
  ll_used : db_key_used_ b' = ready && bool_decide (is_Some c);
  ll_type : encryption_type_ b' = match c with Some _ => AesCtr | None => NoEncryption end;
  ll_ready : ready = true → fd_ b' = Some (Main, Z.of_nat (length (content f))) ∧
    match c with
    | None => encryption_type_ b' = NoEncryption
    | Some c => encryption_type_ b' = AesCtr ∧ flow_state_ b' = Some (ctr_skip (length (entries_bytes es)) (c_start c)) ∧
        aes_ctr_key_salt_ b' = c_salt c ∧ aes_ctr_key_ b' = c_key c
    end;
}.

(** From the object that has read the entries, [t] being left over. *)
Record all_read (b b' : Binlog) (f : file) (c : option cipher) (es : list entry) (t : list Z) : Prop := {
  ar_loading : loading b' (replay es) (Z.of_nat (length (log_file c es)));
  ar_file : fs_ b' = fs_ b ∧ main_file (now (fs_ b)) = Some f ∧ settled f ∧ content f = log_file c es ++ t;
  ar_kept : db_key_ b' = db_key_ b ∧ last_id_ b' = last_id_ b ∧ length (aes_ctr_key_ b') = 32%nat;
  ar_used : db_key_used_ b' = bool_decide (is_Some c);
  ar_type : encryption_type_ b' = match c with Some _ => AesCtr | None => NoEncryption end;
  ar_fd : ∃ pos, fd_ b' = Some (Main, Z.of_nat pos) ∧ (t = [] → pos = length (content f));
  ar_cipher : match c with
    | None => True
    | Some c => aes_ctr_key_salt_ b' = c_salt c ∧ aes_ctr_key_ b' = c_key c ∧
        (t = [] → flow_state_ b' = Some (ctr_skip (length (entries_bytes es)) (c_start c)))
    end;
}.
Definition is_ready (c : option cipher) (t : list Z) : bool := bool_decide (c = None ∨ t = []).

Lemma finish_read b b1 f c es t : all_read b b1 f c es t →
  ∃ b' events f', finish_load b1 = Ok (start_writing b', events) ∧ Forall2 (is_event crc32) (replay es).1 events ∧
    loaded_log b b' c es f' (is_ready c t) ∧ extends (λ d, main_file d = Some f') (fs_ b) (fs_ b').
Proof.
  intros [[Hst Hpe Hw Hp Hsz Ho] (Hfs & Hf & Hs & Hc) (Hdk & Hid & Hks) Hus Hty (pos & Hfd & Hpos) Hci].
  assert (Hlen : length (content f) = (length (log_file c es) + length t)%nat) by by rewrite Hc, length_app.
  destruct (load_finish_spec b1 f (replay es) (Z.of_nat pos) (length (log_file c es)))
    as (events & f' & b' & E & Hev & Hst' & Hf' & Hc' & Hs' & Hk & Hx & Hcase); try done; [by rewrite Hfs|lia|].
  destruct Hk as [(K1 & K2 & K3) (K4 & K5 & K6) (K7 & K8 & K9) (K10 & K11 & K12)].
  rewrite Hc, take_app_length in Hc'. rewrite Hfs in Hx. exists b', events, f'. split_and!; [done..| |done].
  assert (Hend : t = [] → fd_ b' = Some (Main, Z.of_nat (length (content f'))) ∧ db_key_used_ b' = bool_decide (is_Some c)).
  { intros ->. rewrite decide_True in Hcase by (rewrite Hlen; cbn [length]; lia). destruct Hcase as [-> ->].
    rewrite Hfd, Hpos, Hus, Hc', Hlen by done. cbn [length]. by rewrite Nat.add_0_r. }
  assert (Htorn : t ≠ [] → fd_ b' = Some (Main, Z.of_nat (length (content f'))) ∧ db_key_used_ b' = false).
  { intros Ht. rewrite decide_False in Hcase; [by rewrite Hc'|]. destruct t; [done|]. rewrite Hlen. cbn [length]. lia. }
  assert (Hfd' : fd_ b' = Some (Main, Z.of_nat (length (content f')))).
  { destruct (decide (t = [])); [by apply Hend|by apply Htorn]. }
  split; [by rewrite K7|by rewrite K8|done|by rewrite K9, Hc'|by rewrite K4, K6, K11|by rewrite K10| |by rewrite K3|].
  - unfold is_ready. destruct (decide (t = [])) as [Ht|Ht].
    + rewrite (proj2 (Hend Ht)), (bool_decide_true (c = None ∨ t = [])) by by right. done.
    + rewrite (proj2 (Htorn Ht)). destruct c; [by rewrite bool_decide_false by (by intros [?|?])|].
      rewrite bool_decide_true by by left. symmetry. by rewrite bool_decide_false by (by intros [? ?]).
  - unfold is_ready. intros Hr%bool_decide_eq_true. split; [done|]. rewrite K2, K3, K5, K6. destruct c as [c|]; [|done].
    destruct Hr as [?|Ht]; [done|]. destruct Hci as (? & ? & Hfl). by rewrite Hfl.
Qed.

Definition start_load (b : Binlog) : Binlog :=
  set_info {| was_created := was_created (info_ b); info_last_event_id := info_last_event_id (info_ b);
    wrong_password := false; is_opened := is_opened (info_ b) |} (set_byte_flow_flag false (set_state Load b)).
Definition first_place (b : Binlog) : place := {| pl_pos := 0; pl_buf := []; pl_sink := []; pl_flow := flow_state_ b |}.
Lemma load_start b f : fresh b f → load_binlog b =
  '(b, finished) ← load_loop (load_fuel b) (at_place (start_load b) (first_place b) (reader_at InBuffer false 0 0));
  if negb finished then Ok (b, []) else finish_load b.
Proof.
  intros [Hfd _ [Hty _] _ _]. unfold load_binlog, update_read_encryption.
  generalize load_loop, finish_load. intros loop finish. destruct b. cbn in Hfd, Hty. by subst.
Qed.
Lemma start_loading b f : fresh b f → loading (start_load b) log_start 0.
Proof.
  intros [_ _ _ (Hp & Hs & Hpe) _]. split; try done.
  - cbn. rewrite Hp. apply proc_start_ok.
  - cbn. by rewrite Hp.
Qed.
Lemma first_good head start T b : good head start T InBuffer (first_place b).
Proof. split; [cbn; lia|done]. Qed.

Lemma loading_place b pl r s off : loading b s off → loading (at_place b pl r) s off.
Proof. intros []. by split. Qed.

Lemma load_plain b f es t : fresh b f → settled f → content f = entries_bytes es ++ t → ends t →
  log_ok es → Forall entry_small es →
  ∃ b' events f', load_binlog b = Ok (start_writing b', events) ∧ Forall2 (is_event crc32) (replay es).1 events ∧
    loaded_log b b' None es f' true ∧ extends (λ d, main_file d = Some f') (fs_ b) (fs_ b').
Proof.
  intros Hb Hs Hc Ht Hok Hsm. rewrite (load_start b f Hb).
  assert (HT : holds (content f) (start_load b)) by (exists f; split; [apply Hb|done]).
  set (start := {| ctr_key := []; ctr_iv := []; ctr_pos := 0 |}).
  destruct (load_entries 0 start (content f) InBuffer (start_load b) (first_place b) (reader_at InBuffer false 0 0)
    log_start es t) as (p & n & pl & r & E & Hg & Ha & Hl); [done|done|apply first_good|done|done|by eapply start_loading|done..|].
  cbn [rd_offset reader_at] in *. rewrite Z.add_0_l in *.
  assert (Hfuel : (3 * length es + 3 ≤ load_fuel b)%nat).
  { unfold load_fuel, file_size. cbn [file_at]. rewrite (fr_file _ _ Hb), Nat2Z.id, Hc, length_app.
    pose proof (entries_length es (log_entries _ _ Hok)). lia. }
  rewrite (load_loop_mono _ _ _ _ Hfuel E), bind_Ok_l. cbn [negb]. clear E.
  destruct (fr_plain _ _ Hb) as (Hty & Hsalt & Hks).
  set (b1 := at_place _ pl r).
  apply (finish_read b b1 f None es t). split.
  - by apply loading_place.
  - split_and!; [reflexivity|apply Hb|exact Hs|exact Hc].
  - split_and!; [reflexivity|reflexivity|exact Hks].
  - exact (fr_used _ _ Hb).
  - exact Hty.
  - exists (pl_pos pl). split; [reflexivity|]. intros ->. apply app_nil in Ha as [_ Ha]. apply (f_equal length) in Ha.
    rewrite length_drop in Ha. cbn in Ha. pose proof (good_pos _ _ _ _ _ Hg). lia.
  - exact I.
Qed.
End opening.
