(* ===== verification/BinlogDecrypt.v ===== *)
(** * Opening an encrypted log

    The first event of the file turns decryption on; with the right key the rest is read
    like a plain file. When the file was cut off inside an event, the cipher has passed
    over bytes that are dropped; the log is then written anew. *)
From S2P Require Import Prelude Bytes TlParsers TlParserFacts TlHelpers BinlogEvent BinlogEventsProcessor FileSystem BinlogState Binlog BinlogFormat BinlogLoad BinlogRun BinlogReindex BinlogOps BinlogOpen.

Section decrypt.
Context `{CryptoLaws}.
#[local] Set Default Proof Using "Type*".

(** ** The event *)

Definition turned_on (pl : place) (c : cipher) : place :=
  {| pl_pos := pl_pos pl; pl_buf := pl_buf pl; pl_sink := []; pl_flow := Some (c_start c) |}.

Lemma head_add b pl r s c off : loading b s 0 → db_key_ b ≠ EmptyKey → cipher_ok (db_key_ b) c →
  aes_ctr_key_salt_ b = [] → length (aes_ctr_key_ b) = 32%nat →
  ∃ p n, let b' := loaded (decrypting b c true false) p (entry_size (encryption_entry c)) n in
    do_add_event (event_of crc32 off (encryption_entry c)) (at_place b pl r) =
      Ok (at_place b' (turned_on pl c)
            {| input_ := Some InSink; reading_event := reading_event r; rd_size := rd_size r; rd_offset := rd_offset r |}) ∧
    proc_ok crc32 p s ∧ proc_offset_ p = off.
Proof.
  intros [Hst Hpe Hw Hp Hsz Ho] Hdk Hc Hsalt Hks.
  destruct (do_event_service crc32 (processor_ b) s (event_of crc32 off (encryption_entry c)) Hp) as (p' & E & Hp' & Ho'); [done..|].
  exists p', (u64 (fd_events_ b + 1)). split; [|done].
  unfold do_add_event. cbn [event_of flags_ encryption_entry e_flags]. change (negb (Z.land 0 Partial_flag =? 0)) with false. cbv iota.
  change (pending_events_ (at_place b pl r)) with (pending_events_ b). rewrite Hpe. cbn [do_events]. rewrite bind_Ok_l.
  replace (set_pending_events [] (at_place b pl r)) with (at_place b pl r)
    by (unfold set_pending_events, at_place; cbn; by rewrite Hpe).
  unfold do_event. change (state_ (at_place b pl r)) with (state_ b). rewrite Hst.
  rewrite bool_decide_false by naive_solver. rewrite bind_Ok_l.
  assert (Hen : (type_ (event_of crc32 off (encryption_entry c)) <? 0) &&
    (type_ (event_of crc32 off (encryption_entry c)) =? AesCtrEncryption_type) = true) by reflexivity.
  rewrite Hen, (do_encryption_load b pl r c off), bind_Ok_l, Hw by done.
  set (b2 := at_place _ _ _). assert (Hs2 : state_ b2 = Load) by exact Hst.
  assert (Hp2 : processor_ b2 = processor_ b) by reflexivity.
  rewrite Hs2, bool_decide_true, Hp2 by done. unfold proc_add_event. rewrite E, bind_Ok_l.
  change (fd_size_ (set_processor p' b2)) with (fd_size_ b). change (fd_events_ (set_processor p' b2)) with (fd_events_ b).
  rewrite Hsz, event_size_of, Z.add_0_l. reflexivity.
Qed.

(** ** Reading *)

(** What an object has that has read the head. *)
Record decrypted (b b' : Binlog) (c : cipher) : Prop := {
  dc_fs : fs_ b' = fs_ b;
  dc_kept : db_key_ b' = db_key_ b ∧ last_id_ b' = last_id_ b;
  dc_used : db_key_used_ b' = true ∧ wrong_password (info_ b') = false;
  dc_cipher : encryption_type_ b' = AesCtr ∧ aes_ctr_key_salt_ b' = c_salt c ∧ aes_ctr_key_ b' = c_key c;
  dc_flag : byte_flow_flag_ b' = true;
}.

Lemma load_head b f c A : fresh b f → db_key_ b ≠ EmptyKey → cipher_ok (db_key_ b) c →
  content f = cipher_head (Some c) ++ A →
  ∃ b1 pl r, (∀ fuel res, load_loop fuel (at_place b1 pl r) = Ok res →
      load_loop (3 + fuel) (at_place (start_load b) (first_place b) (reader_at InBuffer false 0 0)) = Ok res) ∧
    decrypted b b1 c ∧ loading b1 log_start 128 ∧ input_ r = Some InSink ∧ reading_event r = false ∧ rd_offset r = 128 ∧
    good 128 (c_start c) (content f) InSink pl ∧ ahead (content f) InSink pl = ctr_xor (c_start c) A.
Proof.
  intros Hb Hdk Hc HA.
  assert (HT : holds (content f) (start_load b)) by (exists f; split; [apply Hb|done]).
  pose proof (start_loading b f Hb) as Hl. destruct (fr_plain _ _ Hb) as (Hty & Hsalt & Hks).
  destruct (load_next 128 (c_start c) (content f) InBuffer (start_load b) (encryption_entry c) A HT) with (pl := first_place b) (r := reader_at InBuffer false 0 0) as (pl & Hg & Ha & Hz);
    [done|by eapply encryption_entry_ok|by eapply encryption_small|apply first_good|done..|].
  pose proof (encryption_size _ _ Hc) as Hsz.
  destruct (head_add (start_load b) pl (reader_at InBuffer false (entry_size (encryption_entry c)) (rd_offset (reader_at InBuffer false 0 0) + entry_size (encryption_entry c)))
    log_start c (rd_offset (reader_at InBuffer false 0 0) + entry_size (encryption_entry c)) Hl) as (p & n & E & Hp & Ho); [done..|].
  cbn [rd_offset reader_at reading_event rd_size] in *. rewrite Hsz, Z.add_0_l in *.
  assert (Hh : length (cipher_head (Some c)) = 128%nat).
  { pose proof (length_event_bytes crc32 (encryption_entry c)) as Hx. rewrite Hsz in Hx. cbn [cipher_head]. lia. }
  assert (Hpos : (pl_pos pl - length (pl_buf pl) = 128 ∧ 128 + length (pl_buf pl) ≤ pl_pos pl)%nat).
  { pose proof (f_equal length Ha) as Hx. cbn [ahead] in Hx. rewrite length_app, length_drop in Hx.
    apply (f_equal length) in HA. rewrite length_app, Hh in HA. pose proof (good_pos _ _ _ _ _ Hg). lia. }
  set (b1 := loaded (decrypting (start_load b) c true false) p 128 n) in *.
  exists b1, (turned_on pl c), (reader_at InSink false 128 128). split_and!; try done.
  - intros fuel res Eloop. apply Hz. unfold taken. cbn [rd_offset reader_at]. rewrite Hsz, Z.add_0_l, E, bind_Ok_l.
    exact Eloop.
  - destruct Hl as [? ? ? ? ? ?]. by split.
  - split; [apply Hg|]. intros _. cbn. destruct Hpos as [-> Hle]. split; [by rewrite Nat.sub_diag, ctr_skip_0|done].
  - cbn in Ha |- *. by rewrite Ha.
Qed.

Lemma head_length db_key c : cipher_ok db_key c → length (cipher_head (Some c)) = 128%nat.
Proof.
  intros Hc. pose proof (length_event_bytes crc32 (encryption_entry c)) as Hx.
  rewrite (encryption_size _ _ Hc) in Hx. cbn [cipher_head]. lia.
Qed.

Lemma all_decrypted b b1 f c es t pl r : fresh b f → settled f → cipher_ok (db_key_ b) c →
  content f = cipher_head (Some c) ++ ctr_xor (c_start c) (entries_bytes es ++ t) → decrypted b b1 c →
  loading (at_place b1 pl r) (replay es) (128 + Z.of_nat (length (entries_bytes es))) →
  good 128 (c_start c) (content f) InSink pl → ahead (content f) InSink pl = t →
  all_read b (at_place b1 pl r) f (Some c) es (ctr_xor (ctr_skip (length (entries_bytes es)) (c_start c)) t).
Proof.
  intros Hb Hs Hcok Hc [D1 [D2 D3] [D4 D5] (D6 & D7 & D8) D9] Hl Hg Ha. pose proof (head_length _ _ Hcok) as Hh.
  set (b2 := at_place _ pl r) in *. split.
  - rewrite length_log_file, Hh, Nat2Z.inj_add. exact Hl.
  - split_and!; [exact D1|apply Hb|exact Hs|]. rewrite Hc. unfold log_file. by rewrite ctr_xor_app, app_assoc.
  - split_and!; [exact D2|exact D3|]. change (aes_ctr_key_ b2) with (aes_ctr_key_ b1). by rewrite D8, (cok_key _ _ Hcok), pbkdf2_size.
  - change (db_key_used_ b2) with (db_key_used_ b1). by rewrite D4, bool_decide_true.
  - exact D6.
  - exists (pl_pos pl). split; [reflexivity|]. intros Hx%ctr_xor_nil. subst t. by apply (good_end _ _ _ _ Hg).
  - split_and!; [exact D7|exact D8|]. intros Hx%ctr_xor_nil. subst t.
    destruct (good_end _ _ _ _ Hg Hx) as [_ Hfl]. change (flow_state_ b2) with (pl_flow pl). rewrite Hfl, Hc.
    rewrite length_app, Hh, length_ctr_xor, length_app, Hx. do 2 f_equal. cbn [length]. lia.
Qed.

Lemma load_encrypted b f c es t : fresh b f → settled f → db_key_ b ≠ EmptyKey → cipher_ok (db_key_ b) c →
  content f = cipher_head (Some c) ++ ctr_xor (c_start c) (entries_bytes es ++ t) → ends t →
  log_ok es → Forall entry_small es →
  ∃ b' events f', load_binlog b = Ok (start_writing b', events) ∧ Forall2 (is_event crc32) (replay es).1 events ∧
    loaded_log b b' (Some c) es f' (bool_decide (t = [])) ∧ extends (λ d, main_file d = Some f') (fs_ b) (fs_ b').
Proof.
  intros Hb Hs Hdk Hcok Hc Ht Hok Hsm. rewrite (load_start b f Hb). pose proof (head_length _ _ Hcok) as Hh.
  destruct (load_head b f c _ Hb Hdk Hcok Hc) as (b1 & pl1 & r1 & Hloop & Hd & Hl1 & Hr1 & Hr2 & Hr3 & Hg1 & Ha1).
  rewrite ctr_xor_involutive in Ha1.
  assert (HT : holds (content f) b1) by (exists f; rewrite (dc_fs _ _ _ Hd); split; [apply Hb|done]).
  destruct (load_entries 128 (c_start c) (content f) InSink b1 pl1 r1 log_start es t) as (p & n & pl & r & E & Hg & Ha & Hl);
    [done|by rewrite (dc_flag _ _ _ Hd)|done|done|done|by rewrite Hr3|done..|].
  rewrite Hr3 in *.
  assert (Hlen : length (content f) = (128 + length (entries_bytes es) + length t)%nat).
  { rewrite Hc, length_app, Hh, length_ctr_xor, length_app. lia. }
  assert (Hfuel : (3 + (3 * length es + 3) ≤ load_fuel b)%nat).
  { unfold load_fuel, file_size. cbn [file_at]. rewrite (fr_file _ _ Hb), Nat2Z.id, Hlen.
    pose proof (entries_length es (log_entries _ _ Hok)). lia. }
  rewrite (load_loop_mono _ _ _ _ Hfuel (Hloop _ _ E)), bind_Ok_l. cbn [negb]. clear E Hloop.
  apply (loading_place _ pl r) in Hl.
  replace (bool_decide (t = [])) with (is_ready (Some c) (ctr_xor (ctr_skip (length (entries_bytes es)) (c_start c)) t)).
  2:{ unfold is_ready. apply bool_decide_ext. rewrite ctr_xor_nil. naive_solver. }
  apply (finish_read b _ f). apply all_decrypted; try done. by destruct Hd.
Qed.
End decrypt.

(** ** The wrong password

    A log that is encrypted with another key is left as it is, and nothing of it is
    passed on. *)

Section password.
Context `{CryptoLaws}.
#[local] Set Default Proof Using "Type*".

(** The key that [do_event] derives; without a password it is empty. *)
Definition derived_key (salt : list Z) (db_key : DbKey) : list Z :=
  if key_is_empty db_key then [] else pbkdf2_sha256 (key_data db_key) salt (key_iterations db_key).
Definition wrong_key (c : cipher) (db_key : DbKey) : Prop :=
  generate_hash (derived_key (c_salt c) db_key) ≠ generate_hash (c_key c).

Lemma derived_length salt db_key : (length (derived_key salt db_key) ≤ 32)%nat.
Proof. unfold derived_key. case_match; [cbn; lia|by rewrite pbkdf2_size]. Qed.
Lemma update_encryption_total b key iv : length (aes_ctr_key_ b) = 32%nat → (length key ≤ 32)%nat → length iv = iv_size →
  ∃ key' st, update_encryption key iv b = Ok (set_aes_ctr_state (Some st) (set_aes_ctr_key key' b)).
Proof.
  intros Hb Hk Hi. unfold update_encryption, copy_from. rewrite Hb, (proj2 (Nat.leb_le (length key) 32)) by done. cbn [cassert].
  rewrite !bind_Ok_l, Hi. cbn [iv_size Nat.leb Nat.ltb cassert]. rewrite bind_Ok_l. unfold ctr_init.
  rewrite Hi, length_app, length_drop, Hb. replace (length key + (32 - length key))%nat with 32%nat by lia.
  cbn [Nat.eqb iv_size cassert]. rewrite !bind_Ok_l. by eexists _, _.
Qed.

(** What the event leaves: the password is wrong, files are as they were. *)
Record refused (b b' : Binlog) : Prop := {
  rf_state : state_ b' = state_ b;
  rf_wrong : wrong_password (info_ b') = true;
  rf_fs : fs_ b' = fs_ b ∧ fd_ b' = fd_ b ∧ need_sync_ b' = need_sync_ b;
  rf_processor : processor_ b' = processor_ b;
}.

Lemma refuse_key real b r c off : state_ b = Load → binlog_reader_ b = Some r → cipher_ok real c →
  aes_ctr_key_salt_ b = [] → length (aes_ctr_key_ b) = 32%nat →
  wrong_key c (db_key_ b) → (old_db_key_ b ≠ EmptyKey → wrong_key c (old_db_key_ b)) →
  ∃ b', do_encryption_event (event_of crc32 off (encryption_entry c)) b = Ok b' ∧ refused b b'.
Proof.
  intros Hst Hr Hc Hsalt Hkey Hw Hold. unfold do_encryption_event.
  rewrite (encryption_data c real off Hc), bind_Ok_l.
  change (mk_TlParser ?l) with (parser_at l (Z.of_nat (length l))).
  rewrite (parse_encryption_event _ _ _ Hc), bind_Ok_l. cbn [encryption_event key_salt_ iv_ key_hash_].
  destruct Hc as [[Hs1 Hs2] [Hi1 Hi2] Hck]. rewrite Hsalt, (bool_decide_false ([] = c_salt c)) by (intros Heq; by rewrite <-Heq in Hs1).
  replace (if negb (key_is_empty (db_key_ b)) then generate_key (c_salt c) (db_key_ b) else Ok [])
    with (Ok (derived_key (c_salt c) (db_key_ b))).
  2:{ unfold derived_key. destruct (db_key_ b) eqn:Hd; [done|..]; by rewrite generate_key_spec. }
  rewrite bind_Ok_l, (bool_decide_false (generate_hash _ = _)) by done. cbn [negb]. rewrite bool_decide_true by done. cbn [cassert]. rewrite bind_Ok_l.
  set (res := if negb (key_is_empty (old_db_key_ b)) then _ else _).
  assert (∃ key, res = Ok (key, set_info {| was_created := was_created (info_ b); info_last_event_id := info_last_event_id (info_ b);
    wrong_password := true; is_opened := is_opened (info_ b) |} b) ∧ (length key ≤ 32)%nat) as (key & -> & Hlen).
  { unfold res. destruct (key_is_empty (old_db_key_ b)) eqn:Hoe; cbn [negb].
    - eexists. split; [done|]. apply derived_length.
    - assert (Hne : old_db_key_ b ≠ EmptyKey) by (intros Hx; by rewrite Hx in Hoe).
      rewrite generate_key_spec, bind_Ok_l by done. specialize (Hold Hne). unfold wrong_key, derived_key in Hold. rewrite Hoe in Hold.
      rewrite bool_decide_false by done. cbn [negb]. eexists. split; [done|]. by rewrite pbkdf2_size. }
  rewrite bind_Ok_l. cbv beta iota.
  set (b1 := set_aes_ctr_key_salt _ _).
  destruct (update_encryption_total b1 key (c_iv c)) as (key' & st & ->); [done|done|done|]. rewrite bind_Ok_l.
  set (b2 := set_aes_ctr_state _ _). assert (Hst2 : state_ b2 = Load) by exact Hst. rewrite Hst2, decide_True by done.
  unfold update_read_encryption. change (binlog_reader_ b2) with (binlog_reader_ b). rewrite Hr, bind_Ok_l.
  eexists. split; [done|]. by split.
Qed.

Lemma refuse_event real b r c off s : state_ b = Load → pending_events_ b = [] → binlog_reader_ b = Some r → cipher_ok real c →
  aes_ctr_key_salt_ b = [] → length (aes_ctr_key_ b) = 32%nat → proc_ok crc32 (processor_ b) s →
  wrong_key c (db_key_ b) → (old_db_key_ b ≠ EmptyKey → wrong_key c (old_db_key_ b)) →
  ∃ b', do_add_event (event_of crc32 off (encryption_entry c)) b = Ok b' ∧ wrong_password (info_ b') = true ∧
    state_ b' = Load ∧ fs_ b' = fs_ b ∧ fd_ b' = fd_ b ∧ need_sync_ b' = need_sync_ b.
Proof.
  intros Hst Hpe Hr Hc Hsalt Hkey Hp Hw Hold.
  destruct (do_event_service crc32 (processor_ b) s (event_of crc32 off (encryption_entry c)) Hp) as (p' & E & _); [done..|].
  unfold do_add_event. cbn [event_of flags_ encryption_entry e_flags]. change (negb (Z.land 0 Partial_flag =? 0)) with false. cbv iota.
  rewrite Hpe. cbn [do_events]. rewrite bind_Ok_l.
  assert (Hb : set_pending_events [] b = b) by (destruct b; cbn in Hpe; by subst). rewrite Hb.
  destruct (refuse_key real b r c off Hst Hr Hc Hsalt Hkey Hw Hold) as (b1 & E1 & [R1 R2 (R3 & R4 & R5) R6]).
  unfold do_event. rewrite Hst, bool_decide_false, bind_Ok_l by naive_solver.
  assert (Hen : (type_ (event_of crc32 off (encryption_entry c)) <? 0) &&
    (type_ (event_of crc32 off (encryption_entry c)) =? AesCtrEncryption_type) = true) by reflexivity.
  rewrite Hen, E1, bind_Ok_l, R1, Hst, bool_decide_true by done. unfold proc_add_event. rewrite R6, E, bind_Ok_l.
  eexists. split; [done|]. cbn. rewrite R1. by split_and!.
Qed.

Lemma load_refused real b f c rest : fresh b f → cipher_ok real c → content f = cipher_head (Some c) ++ rest →
  wrong_key c (db_key_ b) → (old_db_key_ b ≠ EmptyKey → wrong_key c (old_db_key_ b)) → 
  ∃ b', load_binlog b = Ok (b', []) ∧ wrong_password (info_ b') = true ∧ state_ b' = Load ∧ fs_ b' = fs_ b ∧
    need_sync_ b' = need_sync_ b ∧ is_Some (fd_ b').
Proof.
  intros Hb Hc HT Hw Hold. rewrite (load_start b f Hb).
  assert (Hh : holds (content f) (start_load b)) by (exists f; split; [apply Hb|done]).
  pose proof (start_loading b f Hb) as Hl. destruct (fr_plain _ _ Hb) as (Hty & Hsalt & Hks).
  destruct (load_next 128 (c_start c) (content f) InBuffer (start_load b) (encryption_entry c) rest Hh)
    with (pl := first_place b) (r := reader_at InBuffer false 0 0) as (pl & Hg & Ha & Hz);
    [done|by eapply encryption_entry_ok|by eapply encryption_small|apply first_good|done..|].
  set (off := rd_offset (reader_at InBuffer false 0 0) + entry_size (encryption_entry c)) in *.
  set (r1 := reader_at InBuffer false (entry_size (encryption_entry c)) off) in *.
  destruct (refuse_event real (at_place (start_load b) pl r1) r1 c off log_start)
    as (b1 & E & R1 & R2 & R3 & R4 & R5); [apply Hl|apply Hl|done|done|done|done|apply Hl|done|done|].
  assert (Hloop : load_loop (3 + 1) (at_place (start_load b) (first_place b) (reader_at InBuffer false 0 0)) = Ok (b1, false)).
  { apply Hz. unfold taken. fold off r1. by rewrite E, bind_Ok_l, R1. }
  assert (Hfuel : (3 + 1 ≤ load_fuel b)%nat).
  { unfold load_fuel, file_size. cbn [file_at]. rewrite (fr_file _ _ Hb), Nat2Z.id, HT, length_app, (head_length real) by done. lia. }
  rewrite (load_loop_mono _ _ _ _ Hfuel Hloop), bind_Ok_l. cbn [negb]. exists b1. split_and!; try done. by rewrite R4.
Qed.

Lemma finish_refused b : wrong_password (info_ b) = true → state_ b = Load → need_sync_ b = false → is_Some (fd_ b) →
  ∃ b', finish_init b [] = Ok (b', SError WrongPassword "Wrong password", []) ∧ fs_ b' = fs_ b ∧ fd_ b' = None.
Proof.
  intros Hw Hst Hns [fd Hfd]. unfold finish_init. cbv zeta. cbn [info_ set_last_id set_info wrong_password]. rewrite Hw.
  unfold close. cbn [fd_ set_last_id set_info]. rewrite Hfd. unfold sync, flush. cbn [state_ set_last_id set_info].
  rewrite decide_True, !bind_Ok_l by done. cbn [need_sync_ set_last_id set_info]. rewrite Hns, !bind_Ok_l.
  eexists. split; [done|]. by split.
Qed.
End password.
