(* ===== verification/BinlogInit.v ===== *)
(** * Opening a log after a crash

    Whatever a crash leaves of the disk, [init] finds the entries in force after one of
    the events of the log, no earlier than those that were synced. *)
From S2P Require Import Prelude Bytes TlParsers TlParserFacts TlHelpers BinlogEvent BinlogEventsProcessor FileSystem BinlogState Binlog BinlogFormat BinlogLoad BinlogRun BinlogReindex BinlogOps BinlogOpen BinlogDecrypt.

Section init.
Context `{CryptoLaws}.
#[local] Set Default Proof Using "Type*".

(** ** What a crash leaves *)

Lemma survives_holds c es nd j f : survives c es nd f → holds_entries c es j f → (nd ≤ j)%nat.
Proof. intros (Hn & Hd & [->|Hl]) Hh; [lia|]. apply (he_most _ _ _ _ Hh); lia. Qed.
Lemma holds_survives c es j f : settled f → holds_entries c es j f → survives c es j f.
Proof. intros Hs [Hj Hh _]. split_and!; [done|rewrite Hs; done|]. destruct j; [by left|right]. rewrite Hs. apply Hh. lia. Qed.

Lemma crash_found d d' f : crash d d' → found d f → ∃ f', found d' f' ∧ file_crash f f'.
Proof.
  intros [Hm Hn] [Hf|[Hno Hf]].
  - rewrite Hf in Hm. inversion Hm as [? f' Hc|]; subst. exists f'. split; [by left|done].
  - rewrite Hno in Hm. rewrite Hf in Hn. inversion Hm. inversion Hn as [? f' Hc|]; subst. exists f'. split; [by right|done].
Qed.

(** The log found on a settled disk [d] has the entries [l] in force. *)
Definition holds_log (db_key : DbKey) (l : list entry) (d : disk) : Prop :=
  ∃ f c es j, found d f ∧ settled f ∧ file_log db_key c es j f ∧ holds_entries c es j f ∧ (replay (take j es)).1 = l.

Lemma crash_holds db_key V d d' : recoverable db_key V d → crash d d' → ∃ l, V l ∧ holds_log db_key l d'.
Proof.
  intros (f & c & es & nd & Hf & Hlog & HV) Hcr.
  destruct (crash_found _ _ _ Hcr Hf) as (f' & Hf' & [Hp Hd Hs]).
  assert (Hlog' : file_log db_key c es nd f').
  { destruct Hlog as [Hk Hl Hpre (Hn & Hdur & Hsur)]. split; [done..|by etrans|]. split_and!; [done|by rewrite Hs|].
    destruct Hsur as [Hz|Hz]; [by left|right; rewrite Hs; lia]. }
  destruct (cut_cases _ _ _ _ _ Hlog') as (j & Hh & _).
  exists (replay (take j es)).1. split.
  - pose proof Hh as [Hj Hheld _]. apply HV; [split; [|done]; eapply survives_holds; [apply Hlog'|done]|].
    intros Hlt. apply prefix_length in Hp. specialize (Hheld ltac:(lia)). lia.
  - exists f', c, es, j. split_and!; try done. destruct Hlog'. split; try done. by apply holds_survives.
Qed.
Lemma holds_recoverable db_key l d : holds_log db_key l d → recoverable db_key (λ v, v = l) d.
Proof.
  intros (f & c & es & j & Hf & Hs & Hlog & Hh & <-). exists f, c, es, j. split_and!; [done..|].
  intros n Hn Hfit. destruct (decide (j < n)%nat) as [Hlt|]; [|by replace n with j by lia].
  pose proof (he_most _ _ _ _ Hh n). specialize (Hfit Hlt). lia.
Qed.

(** ** After the log is read *)

Definition settled_open (b : Binlog) (db_key : DbKey) (l : list entry) : Prop :=
  open_log b l (last_id_ b) (λ v, v = l) ∧ db_key_ b = db_key.

(** The object [init] ends with, before it may write the log anew. *)
Record read_log (b : Binlog) (db_key : DbKey) (c : option cipher) (es : list entry) (f : file) (ready : bool) : Prop := {
  rl_state : state_ b = Run ∧ pending_events_ b = [];
  rl_proc : proc_ok crc32 (processor_ b) (replay es) ∧ last_id_ b = (replay es).2;
  rl_file : main_file (now (fs_ b)) = Some f ∧ content f = log_file c es ∧ settled f;
  rl_size : fd_size_ b = Z.of_nat (length (content f));
  rl_key : db_key_ b = db_key ∧ length (aes_ctr_key_ b) = 32%nat;
  rl_used : db_key_used_ b = ready && bool_decide (is_Some c);
  rl_type : encryption_type_ b = match c with Some _ => AesCtr | None => NoEncryption end;
  rl_ready : ready = true → fd_ b = Some (Main, Z.of_nat (length (content f))) ∧
    writes_with b c (length (entries_bytes es)) ∧ buffer_ b = [] ∧ sink_ b = [];
}.

Lemma read_running b db_key c es f : read_log b db_key c es f true → key_fits db_key c → log_ok es → Forall entry_small es →
  running b c es (length es) (last_id_ b) f es [].
Proof.
  intros [[Hst Hpe] [Hp Hid] (Hf & Hc & Hs) Hsz [Hdk Hks] Hus Hty Hrd] Hk Hok Hsm.
  destruct (Hrd eq_refl) as (Hfd & Hw & Hbu & Hsi). split; try done.
  - by rewrite Hdk.
  - exists (replay es).2. rewrite <-surjective_pairing. split; [done|lia].
  - by rewrite Hsz, Hc.
  - by rewrite app_nil_r.
  - by apply settled_survives.
  - intros _. by left.
Qed.

Definition needs_reindex (b : Binlog) : bool :=
  (negb (key_is_empty (db_key_ b)) && negb (db_key_used_ b)) ||
  (key_is_empty (db_key_ b) && negb (bool_decide (encryption_type_ b = NoEncryption))).
Lemma read_ready b db_key c es f ready : read_log b db_key c es f ready → key_opens db_key c → (c = None → ready = true) →
  needs_reindex b = false → ready = true ∧ key_fits db_key c.
Proof.
  intros Hr Hk Hno. unfold needs_reindex. destruct (rl_key _ _ _ _ _ _ Hr) as [-> _].
  rewrite (rl_used _ _ _ _ _ _ Hr), (rl_type _ _ _ _ _ _ Hr). destruct c as [c|].
  - destruct Hk as [Hdk Hk]. replace (key_is_empty db_key) with false by by destruct db_key.
    rewrite bool_decide_true by done. destruct ready; [|done]. done.
  - rewrite Hno, bool_decide_false by (done || by intros [? ?]). by destruct db_key.
Qed.

Lemma read_reindex b db_key c es f ready : read_log b db_key c es f ready → log_ok es → Forall entry_small es →
  let l := (replay es).1 in
  ∃ b', do_reindex (set_aes_ctr_key_salt [] b) = Ok b' ∧ settled_open b' db_key l ∧ last_id_ b' = last_id_ b ∧
    extends (λ d, main_file d = Some f ∨ recoverable db_key (λ v, v = l) d) (fs_ b) (fs_ b').
Proof.
  intros [[Hst Hpe] [Hp Hid] (Hf & Hc & Hs) Hsz [Hdk Hks] Hus Hty Hrd] Hok Hsm l.
  pose proof (replay_view es Hok) as Hview. pose proof (proc_last crc32 (processor_ b) l (replay es).2) as Hl63.
  rewrite (surjective_pairing (replay es)) in Hp, Hview. destruct (view_log _ _ Hview) as [Hl' Hrep]. fold l in Hp, Hview, Hl', Hrep.
  destruct (do_reindex_spec (set_aes_ctr_key_salt [] b) l (replay es).2 (last_id_ b) f) as (b' & c' & f' & E & Hr & [Hk' Hi'] & Hx);
    [done..| |done|done|by apply replay_Forall|by right; left|done|cbn; lia|].
  { destruct es as [|e es]; [by right|left]. rewrite Hc. intros Hnil. apply app_nil in Hnil as [_ Hnil].
    apply (f_equal length) in Hnil. rewrite length_cipher_body in Hnil. apply length_zero_iff_nil, entries_bytes_nil in Hnil. done. }
  assert (Hsame : ∀ j, (length l ≤ j ≤ length l)%nat → (replay (take j l)).1 = l).
  { intros j Hj. by rewrite take_ge, Hrep by lia. }
  exists b'. split; [done|]. split; [|split; [exact Hi'|]].
  - split; [|by rewrite Hk']. exists c', l, (length l), f', l, []. change (last_id_ b') with (last_id_ b') in Hi'. rewrite Hi'. by rewrite Hrep.
  - eapply extends_weaken; [|exact Hx]. intros d [Hd|Hd]; [left; unfold same_main in Hd; cbn in Hd; congruence|right].
    change (db_key_ (set_aes_ctr_key_salt [] b)) with (db_key_ b) in Hd. rewrite Hdk in Hd. by eapply disk_recoverable.
Qed.

Lemma loaded_read b b' c es f ready info : loaded_log b b' c es f ready →
  read_log (set_last_id (last_event_id_ (processor_ (start_writing b'))) (set_info info (start_writing b')))
    (db_key_ b) c es f ready.
Proof.
  intros [[Hst Hpe] Hp Hf Hsz (Hdk & Hid & Hks) Hw Hus Hty Hrd].
  assert (Hwr : ready = true → writes_with (start_writing b') c (length (entries_bytes es))).
  { intros Hx. apply start_writing_spec. destruct (Hrd Hx) as [_ Hc]. destruct c; [apply Hc|done]. }
  destruct (start_writing_keeps b') as [[B1 B2] (B3 & B4 & B5) (B6 & B7 & B8 & B9) (B10 & B11 & B12 & B13 & B14) [B15 B16]].
  revert Hwr B1 B2 B3 B4 B5 B6 B7 B8 B9 B10 B11 B12 B13 B14 B15 B16. generalize (start_writing b'). intros b2.
  intros Hwr B1 B2 B3 B4 B5 B6 B7 B8 B9 B10 B11 B12 B13 B14 B15 B16.
  split; cbn.
  - by rewrite B3, B4.
  - rewrite B5. split; [done|]. by apply (proc_last_id crc32).
  - by rewrite B7.
  - by rewrite B8.
  - by rewrite B10, B11.
  - by rewrite B12.
  - by rewrite B13.
  - intros Hx. rewrite B6. destruct (Hrd Hx) as [? _]. split_and!; [done|by apply Hwr|done|done].
Qed.

Lemma open_set_info info b l m V : open_log b l m V → open_log (set_info info b) l m V.
Proof.
  intros (c & es & nd & f & es1 & es2 & Hr & Hl & HV). exists c, es, nd, f, es1, es2. split_and!; [|done..].
  by destruct Hr.
Qed.

Lemma finish_init_spec b b' c es f ready events : loaded_log b b' c es f ready → (c = None → ready = true) →
  key_opens (db_key_ b) c → log_ok es → Forall entry_small es → let l := (replay es).1 in
  ∃ b2, finish_init (start_writing b') events = Ok (b2, SOk, events) ∧ settled_open b2 (db_key_ b) l ∧
    last_id_ b2 = (replay es).2 ∧
    extends (λ d, main_file d = Some f ∨ recoverable (db_key_ b) (λ v, v = l) d) (fs_ b') (fs_ b2).
Proof.
  intros Hl Hno Hk Hok Hsm l. unfold finish_init. cbv zeta.
  set (info := {| was_created := _ |}).
  pose proof (loaded_read _ _ _ _ _ _ info Hl) as Hr.
  destruct (start_writing_keeps b') as [_ _ (_ & Hfs & _) _ [Hinfo _]].
  set (b3 := set_last_id _ _) in *.
  replace (wrong_password (info_ b3)) with false by (cbn; by rewrite Hinfo, (ll_password _ _ _ _ _ _ Hl)).
  change ((negb (key_is_empty (db_key_ b3)) && negb (db_key_used_ b3)) ||
    (key_is_empty (db_key_ b3) && negb (bool_decide (encryption_type_ b3 = NoEncryption)))) with (needs_reindex b3).
  assert (Hfs3 : fs_ b3 = fs_ b') by exact Hfs. revert Hr Hfs3. generalize b3. clear b3. intros b3 Hr Hfs3.
  destruct (needs_reindex b3) eqn:Hneed.
  - destruct (read_reindex _ _ _ _ _ _ Hr Hok Hsm) as (b4 & E & [Ho Hdk] & Hi4 & Hx).
    rewrite E, bind_Ok_l. rewrite Hfs3 in Hx. eexists. split; [done|].
    split; [|split; [cbn; rewrite Hi4; apply (rl_proc _ _ _ _ _ _ Hr)|exact Hx]]. split; [|done]. by apply open_set_info.
  - destruct (read_ready _ _ _ _ _ _ Hr Hk Hno Hneed) as [-> Hfit]. rewrite bind_Ok_l.
    eexists. split; [done|].
    split; [|split; [apply (rl_proc _ _ _ _ _ _ Hr)|cbn; rewrite Hfs3; apply extends_refl]].
    split; [|cbn; apply (rl_key _ _ _ _ _ _ Hr)].
    apply open_set_info. change (last_id_ (set_info _ b3)) with (last_id_ b3). exists c, es, (length es), f, es, []. split; [by eapply read_running|]. split; [done|].
    intros j Hj. by rewrite take_ge by lia.
Qed.

(** ** [init] *)

Lemma init_start drawn fs f db_key old : found (now fs) f ∨ (main_file (now fs) = None ∧ new_file (now fs) = None ∧ f = blank) →
  ∃ b1, init_binlog db_key old (new_Binlog drawn fs) = ('(b, events) ← load_binlog b1; finish_init b events) ∧
    fresh b1 f ∧ db_key_ b1 = db_key ∧ extends (λ d, main_file d = Some f) fs (fs_ b1) ∧
    (old_db_key_ b1 = old ∧ need_sync_ b1 = false ∧ (main_file (now fs) = Some f → fs_ b1 = fs)).
Proof.
  intros Hf. unfold init_binlog. change (close true (new_Binlog drawn fs)) with (Ok (new_Binlog drawn fs)).
  rewrite bind_Ok_l. cbv zeta. set (fs0 := if exists_file Main _ then _ else _).
  assert (Hfs0 : extends (λ d, main_file d = Some f) fs (open_create Main fs0) ∧
    main_file (now (open_create Main fs0)) = Some f ∧ (main_file (now fs) = Some f → open_create Main fs0 = fs)).
  { unfold fs0, open_create, rename, exists_file. cbn.
    destruct Hf as [[Hm|[Hm Hn]]|(Hm & Hn & ->)].
    - rewrite Hm. cbn. rewrite Hm. split; [apply extends_refl|done].
    - rewrite Hm, Hn. cbn. split; [by apply extends_change|done].
    - rewrite Hm, Hn. cbn. rewrite Hm. split; [by apply extends_change|done]. }
  destruct Hfs0 as (Hx & Hm & Hsame). clearbody fs0. eexists. split; [done|]. split; [by split|]. by split_and!.
Qed.

(** What [load_binlog] makes of the file. *)
Lemma load_holds b f c es j : fresh b f → settled f → file_log (db_key_ b) c es j f → holds_entries c es j f →
  ∃ b' events c' es' f' ready, load_binlog b = Ok (start_writing b', events) ∧ replay es' = replay (take j es) ∧
    Forall2 (is_event crc32) (replay es').1 events ∧ loaded_log b b' c' es' f' ready ∧ (c' = None → ready = true) ∧
    key_opens (db_key_ b) c' ∧ log_ok es' ∧ Forall entry_small es' ∧ extends (λ d, main_file d = Some f') (fs_ b) (fs_ b').
Proof.
  intros Hb Hs Hlog Hh. pose proof Hlog as [Hk [Hok Hsm] _ _].
  destruct (cut_cases _ _ _ _ _ Hlog) as (j' & Hh' & Hcase).
  assert (j' = j) as ->.
  { pose proof (he_some _ _ _ _ Hh). pose proof (he_some _ _ _ _ Hh').
    apply Nat.le_antisymm; [eapply survives_holds; [by apply (holds_survives _ _ _ _ Hs Hh')|done]|].
    eapply survives_holds; [by apply (holds_survives _ _ _ _ Hs Hh)|done]. }
  assert (Hok' : log_ok (take j es) ∧ Forall entry_small (take j es)).
  { split; [|by apply Forall_take]. unfold log_ok in *. rewrite <-(take_drop j es) in Hok. by apply log_ok_app in Hok as [? _]. }
  destruct Hok' as [Hok' Hsm'].
  destruct Hcase as [(l & t & Hc & _ & Hl & Htorn & _)|(-> & Hne & Htorn)]; pose proof (or_introl Htorn : ends _) as Ht.
  - rewrite Hl in Hc. destruct c as [c|].
    + destruct Hk as [Hdk Hk]. destruct (load_encrypted b f c (take j es) t) as (b' & events & f' & E & Hev & Hll & Hx); [done..|].
      by exists b', events, (Some c), (take j es), f', (bool_decide (t = [])).
    + destruct (load_plain b f (take j es) t) as (b' & events & f' & E & Hev & Hll & Hx); [done..|].
      by exists b', events, None, (take j es), f', true.
  - destruct (load_plain b f [] (content f)) as (b' & events & f' & E & Hev & Hll & Hx); [done..|by constructor|].
    by exists b', events, None, [], f', true.
Qed.

Lemma loaded_recoverable db_key c es f d : found d f → key_opens db_key c → log_ok es → Forall entry_small es →
  content f = log_file c es → settled f → recoverable db_key (λ v, v = (replay es).1) d.
Proof.
  intros Hf Hk Hok Hsm Hc Hs. apply (disk_recoverable _ es (length es)).
  - exists f, c. split; [done|]. split; [done|done|by rewrite Hc|by apply settled_survives].
  - intros j Hj. by rewrite take_ge by lia.
Qed.

(** The rest of [init], once the file [f] is open. *)
Lemma init_rest b c es j f : fresh b f → settled f → file_log (db_key_ b) c es j f → holds_entries c es j f →
  let l := (replay (take j es)).1 in
  ∃ b' events, ('(b, events) ← load_binlog b; finish_init b events) = Ok (b', SOk, events) ∧
    Forall2 (is_event crc32) l events ∧ settled_open b' (db_key_ b) l ∧ last_id_ b' = (replay (take j es)).2 ∧
    extends (recoverable (db_key_ b) (λ v, v = l)) (fs_ b) (fs_ b').
Proof.
  intros Hb Hs Hlog Hh l.
  destruct (load_holds b f c es j Hb Hs Hlog Hh) as (b2 & events & c' & es' & f' & ready & E2 & Hl & Hev & Hll & Hno & Hk & Hok & Hsm & Hx2).
  rewrite Hl in Hev. fold l in Hev.
  destruct (finish_init_spec _ _ _ _ _ _ events Hll Hno Hk Hok Hsm) as (b3 & E3 & Ho & Hi3 & Hx3). rewrite Hl in Ho, Hi3, Hx3.
  exists b3, events. rewrite E2, bind_Ok_l. split_and!; [done..|].
  assert (Hmain : ∀ d, main_file d = Some f' → recoverable (db_key_ b) (λ v, v = l) d).
  { intros d Hd. destruct (ll_file _ _ _ _ _ _ Hll) as (_ & Hc' & Hs'). unfold l. rewrite <-Hl.
    eapply loaded_recoverable; try done. by left. }
  eapply extends_trans.
  - eapply extends_weaken; [|exact Hx2]. done.
  - eapply extends_weaken; [|exact Hx3]. intros d [Hd|Hd]; [by apply Hmain|done].
Qed.

Lemma init_recovers drawn fs db_key old l : holds_log db_key l (now fs) →
  ∃ b events, init_binlog db_key old (new_Binlog drawn fs) = Ok (b, SOk, events) ∧ Forall2 (is_event crc32) l events ∧
    settled_open b db_key l ∧ extends (recoverable db_key (λ v, v = l)) fs (fs_ b).
Proof.
  intros (f & c & es & j & Hf & Hs & Hlog & Hh & <-).
  destruct (init_start drawn fs f db_key old (or_introl Hf)) as (b1 & E & Hb & <- & Hx1 & _).
  destruct (init_rest b1 c es j f Hb Hs Hlog Hh) as (b2 & events & E2 & Hev & Ho & _ & Hx2).
  exists b2, events. rewrite E. split_and!; [done..|]. eapply extends_trans; [|exact Hx2].
  eapply extends_weaken; [|exact Hx1]. intros d Hd. apply holds_recoverable. exists f, c, es, j.
  split_and!; try done. by left.
Qed.

(** Where there is no log, an empty one is created. *)
Lemma init_create drawn fs db_key old : main_file (now fs) = None → new_file (now fs) = None →
  ∃ b, init_binlog db_key old (new_Binlog drawn fs) = Ok (b, SOk, []) ∧ settled_open b db_key [] ∧ last_id_ b = 0 ∧
    extends (recoverable db_key (λ v, v = [])) fs (fs_ b).
Proof.
  intros Hm Hn. destruct (init_start drawn fs blank db_key old) as (b1 & E & Hb & <- & Hx1 & _); [by right|].
  assert (Hlog : file_log (db_key_ b1) None [] 0 blank).
  { split; [done|done|apply prefix_nil|]. split_and!; [done|done|by left]. }
  assert (Hh : holds_entries None [] 0 blank) by (split; [done|cbn; lia|cbn; lia]).
  destruct (init_rest b1 None [] 0 blank Hb eq_refl Hlog Hh) as (b2 & events & E2 & Hev & Ho & Hi & Hx2).
  apply Forall2_nil_inv_l in Hev as ->. exists b2. rewrite E. split_and!; [done..|]. eapply extends_trans; [|exact Hx2].
  eapply extends_weaken; [|exact Hx1]. intros d Hd. apply holds_recoverable. exists blank, None, [], 0%nat.
  split_and!; try done. by left.
Qed.

(** The file of an encrypted log, opened with a password that is not the one it was written with. *)
Lemma init_refused drawn fs f real c rest db_key old : main_file (now fs) = Some f → cipher_ok real c →
  content f = cipher_head (Some c) ++ rest → wrong_key c db_key → (old ≠ EmptyKey → wrong_key c old) →
  ∃ b, init_binlog db_key old (new_Binlog drawn fs) = Ok (b, SError WrongPassword "Wrong password", []) ∧
    fs_ b = fs ∧ fd_ b = None.
Proof.
  intros Hm Hc HT Hw Hold.
  destruct (init_start drawn fs f db_key old (or_introl (or_introl Hm))) as (b1 & E & Hb & <- & _ & <- & Hns & Hfs).
  destruct (load_refused real b1 f c rest Hb Hc HT Hw Hold) as (b2 & E2 & H1 & H2 & H3 & H4 & H5).
  rewrite Hns in H4. destruct (finish_refused b2 H1 H2 H4 H5) as (b3 & E3 & H6 & H7).
  exists b3. rewrite E, E2, bind_Ok_l. split_and!; [done| |done]. by rewrite H6, H3, Hfs.
Qed.

(** A file that has the events [es] and then something where the reader stops. *)
Lemma init_ends drawn fs f db_key old c es t : main_file (now fs) = Some f → settled f → key_opens db_key c →
  content f = cipher_head c ++ cipher_body c (entries_bytes es ++ t) → ends t → log_ok es → Forall entry_small es →
  ∃ b events, init_binlog db_key old (new_Binlog drawn fs) = Ok (b, SOk, events) ∧
    Forall2 (is_event crc32) (replay es).1 events ∧ settled_open b db_key (replay es).1.
Proof.
  intros Hm Hs Hk Hc Ht Hok Hsm.
  destruct (init_start drawn fs f db_key old (or_introl (or_introl Hm))) as (b1 & E & Hb & <- & _).
  assert (∃ b2 events f' ready, load_binlog b1 = Ok (start_writing b2, events) ∧ Forall2 (is_event crc32) (replay es).1 events ∧
    loaded_log b1 b2 c es f' ready ∧ (c = None → ready = true)) as (b2 & events & f' & ready & E2 & Hev & Hl & Hno).
  { destruct c as [c|].
    - destruct Hk as [Hdk Hk]. destruct (load_encrypted b1 f c es t) as (b2 & events & f' & E2 & Hev & Hll & _); [done..|].
      by exists b2, events, f', (bool_decide (t = [])).
    - destruct (load_plain b1 f es t) as (b2 & events & f' & E2 & Hev & Hll & _); [done..|].
      by exists b2, events, f', true. }
  destruct (finish_init_spec _ _ _ _ _ _ events Hl Hno Hk Hok Hsm) as (b3 & E3 & Ho & _).
  exists b3, events. by rewrite E, E2, bind_Ok_l.
Qed.
End init.
