(* ===== verification/BinlogCrash.v ===== *)
(** * Logs under crashes

    Sequences of operations on a log, what they mean for the list of entries in force,
    and what [init] finds after a crash at any moment. *)
From S2P Require Import Prelude Bytes TlParsers TlParserFacts TlHelpers BinlogEvent BinlogEventsProcessor FileSystem BinlogState Binlog BinlogFormat BinlogRun BinlogReindex BinlogOps BinlogOpen BinlogInit.

(** ** Operations *)

Inductive log_op := AddOp (type : Z) (data : list Z) | RewriteOp (id type : Z) (data : list Z) | EraseOp (id : Z).
(** What they mean for the entries in force and the last identifier that was given out. *)
Definition op_step (s : log_state) (o : log_op) : log_state :=
  match o with
  | AddOp type data => (s.1 ++ [{| e_id := s.2 + 1; e_type := type; e_flags := 0; e_data := data |}], s.2 + 1)
  | RewriteOp id type data => (rewritten {| e_id := id; e_type := type; e_flags := Rewrite_flag; e_data := data |} s.1, s.2 + 1)
  | EraseOp id => (without id s.1, s.2 + 1)
  end.
Definition op_steps (ops : list log_op) (s : log_state) : log_state := foldl op_step s ops.

(** Data that fits an event. *)
Record event_data_ok (type : Z) (data : list Z) : Prop := {
  ed_type : 0 ≤ type ≤ INT_MAX;
  ed_bytes : bytes_ok data;
  ed_size : Z.of_nat (length data) + MIN_SIZE ≤ MAX_SIZE ∧ (Z.of_nat (length data) + MIN_SIZE) mod 4 = 0;
}.
(** Only entries in force are rewritten and erased. *)
Definition log_op_ok (s : log_state) (o : log_op) : Prop :=
  match o with
  | AddOp type data => event_data_ok type data
  | RewriteOp id type data => id ∈ e_id <$> s.1 ∧ event_data_ok type data
  | EraseOp id => id ∈ e_id <$> s.1
  end.
Fixpoint log_ops_ok (s : log_state) (ops : list log_op) : Prop :=
  match ops with [] => True | o :: ops => log_op_ok s o ∧ log_ops_ok (op_step s o) ops end.

Lemma log_ops_ok_app s ops1 ops2 : log_ops_ok s (ops1 ++ ops2) ↔ log_ops_ok s ops1 ∧ log_ops_ok (op_steps ops1 s) ops2.
Proof. revert s. induction ops1 as [|o ops1 IH]; intros s; cbn; [naive_solver|]. rewrite IH. naive_solver. Qed.
Lemma op_steps_last ops s : (op_steps ops s).2 = s.2 + Z.of_nat (length ops).
Proof. revert s. induction ops as [|o ops IH]; intros s; cbn; [lia|]. fold (op_steps ops (op_step s o)). rewrite IH. destruct o; cbn; lia. Qed.

(** The states of the disk from [fs] on. *)
Definition disk_since (fs fs' : file_system) (d : disk) : Prop :=
  d = now fs ∨ ∃ ds, states fs' = ds ++ states fs ∧ d ∈ ds.
Lemma since_extends P fs fs' d : extends P fs fs' → P (now fs) → disk_since fs fs' d → P d.
Proof.
  intros (ds & E & Hds) Hnow [->|(ds' & E' & Hd)]; [done|]. rewrite E in E'. apply app_inv_tail in E' as <-.
  rewrite Forall_forall in Hds. auto.
Qed.

Section crash.
Context `{CryptoLaws}.
#[local] Set Default Proof Using "Type*".

Definition log_run (b : Binlog) (o : log_op) : outcome Binlog :=
  match o with
  | AddOp type data => '(b, _) ← add type (SliceStorer data) b; Ok b
  | RewriteOp id type data => '(b, _) ← rewrite id type (SliceStorer data) b; Ok b
  | EraseOp id => '(b, _) ← erase id b; Ok b
  end.
Definition log_runs (ops : list log_op) (b : Binlog) : outcome Binlog := ofold log_run b ops.

Lemma slice_data_ok type data : event_data_ok type data → data_ok type (SliceStorer data) data.
Proof. intros [H1 H2 H3]. split; [done|apply slice_stores|done|done]. Qed.

Lemma log_run_spec b l m V o : open_log b l m V → m ≤ last_id_ b → log_op_ok (l, last_id_ b) o → last_id_ b + 1 < 2 ^ 63 →
  let s' := op_step (l, last_id_ b) o in
  ∃ b', log_run b o = Ok b' ∧ goes_on b b' s'.1 (last_id_ b') (λ v, V v ∨ v = s'.1) ∧ last_id_ b' = s'.2.
Proof.
  intros Ho Hm Hok Hmax. destruct o as [type data|id type data|id]; cbn [log_op_ok op_step fst snd] in Hok |- *; unfold log_run.
  - destruct (add_entry_spec b l m V type (SliceStorer data) data Ho (slice_data_ok _ _ Hok) Hm Hmax) as (b' & E & Hg & Hi).
    exists b'. rewrite E, bind_Ok_l. exact (conj eq_refl (conj Hg Hi)).
  - destruct Hok as [Hin Hok].
    destruct (rewrite_entry_spec b l m V id type (SliceStorer data) data Ho (slice_data_ok _ _ Hok) Hm Hmax Hin) as (b' & E & Hg & Hi).
    exists b'. rewrite E, bind_Ok_l. exact (conj eq_refl (conj Hg Hi)).
  - destruct (erase_entry_spec b l m V id Ho Hm Hmax Hok) as (b' & E & Hg & Hi). exists b'. rewrite E, bind_Ok_l. exact (conj eq_refl (conj Hg Hi)).
Qed.

(** After a crash: [V] as before, or what is in force after some of the operations. *)
Definition some_steps (V : list entry → Prop) (ops : list log_op) (s : log_state) (v : list entry) : Prop :=
  V v ∨ ∃ k, v = (op_steps (take k ops) s).1.
Lemma log_runs_spec ops b l m V : open_log b l m V → m ≤ last_id_ b → log_ops_ok (l, last_id_ b) ops →
  last_id_ b + Z.of_nat (length ops) < 2 ^ 63 → let s' := op_steps ops (l, last_id_ b) in
  ∃ b' m', log_runs ops b = Ok b' ∧ goes_on b b' s'.1 m' (some_steps V ops (l, last_id_ b)) ∧ m' ≤ last_id_ b' ∧ last_id_ b' = s'.2.
Proof.
  revert b l m V. induction ops as [|o ops IH]; intros b l m V Ho Hm Hok Hmax.
  - exists b, m. split_and!; [done| |done|done]. apply goes_refl. eapply open_weaken; [|exact Ho]. by left.
  - destruct Hok as [Ho1 Hok]. cbn [length] in Hmax.
    destruct (log_run_spec b l m V o Ho Hm Ho1) as (b1 & E1 & Hg1 & Hi1); [lia|].
    assert (Hs : op_step (l, last_id_ b) o = ((op_step (l, last_id_ b) o).1, last_id_ b1)) by (rewrite Hi1; by destruct (op_step _ _)).
    rewrite Hs in Hok.
    destruct (IH b1 _ _ _ (go_open _ _ _ _ _ Hg1) (Z.le_refl _) Hok) as (b2 & m2 & E2 & Hg2 & Hm2 & Hi2).
    { rewrite Hi1. destruct o; cbn; lia. }
    rewrite <-Hs in Hg2, Hi2. exists b2, m2. unfold log_runs. cbn [ofold]. rewrite E1, bind_Ok_l. split_and!; [done| |done|done].
    assert (Hw : ∀ v, some_steps (λ v, V v ∨ v = (op_step (l, last_id_ b) o).1) ops (op_step (l, last_id_ b) o) v →
      some_steps V (o :: ops) (l, last_id_ b) v).
    { intros v [[Hv| ->]|[k ->]]; [by left|right; by exists 1%nat|right; by exists (S k)]. }
    eapply goes_trans; [|exact Hg1|].
    + intros v [Hv| ->]; [by left|right; by exists 1%nat].
    + destruct Hg2 as [Hx Hy Hz]. split; [exact (open_weaken _ _ _ _ _ Hw Hx)|exact Hy|].
      eapply extends_weaken; [|exact Hz]. intros d. by apply recoverable_weaken.
Qed.

(** A log made where there was none, changed, synced, changed again. *)
Lemma log_crash_safe drawn db_key fs ops1 ops2 : main_file (now fs) = None → new_file (now fs) = None →
  log_ops_ok log_start (ops1 ++ ops2) → Z.of_nat (length (ops1 ++ ops2)) < 2 ^ 62 →
  ∃ b0 b1 b2 b3, init_binlog db_key EmptyKey (new_Binlog drawn fs) = Ok (b0, SOk, []) ∧ log_runs ops1 b0 = Ok b1 ∧
    sync b1 = Ok b2 ∧ log_runs ops2 b2 = Ok b3 ∧
    ∀ d d' drawn' old, disk_since (fs_ b2) (fs_ b3) d → crash d d' →
      ∃ b events k, init_binlog db_key old (new_Binlog drawn' (after_crash d')) = Ok (b, SOk, events) ∧
        let l := (op_steps (ops1 ++ take k ops2) log_start).1 in
        Forall2 (is_event crc32) l events ∧ settled_open b db_key l.
Proof.
  intros Hm Hn Hok Hlen. apply log_ops_ok_app in Hok as [Hok1 Hok2]. rewrite length_app in Hlen.
  destruct (init_create drawn fs db_key EmptyKey Hm Hn) as (b0 & E0 & [Ho0 Hk0] & Hi0 & _).
  destruct (log_runs_spec ops1 b0 [] _ _ Ho0) as (b1 & m1 & E1 & Hg1 & Hm1 & Hi1); [done|by rewrite Hi0|lia|]. rewrite Hi0 in Hg1, Hi1.
  change ([], 0) with log_start in Hg1, Hi1.
  destruct (sync_spec b1 _ _ _ (go_open _ _ _ _ _ Hg1)) as (b2 & E2 & Ho2 & [Hk2 Hi2] & _).
  assert (Hs : ((op_steps ops1 log_start).1, last_id_ b2) = op_steps ops1 log_start) by (rewrite Hi2, Hi1; by destruct (op_steps _ _)).
  destruct (log_runs_spec ops2 b2 _ _ _ Ho2) as (b3 & m3 & E3 & Hg3 & _); [by rewrite Hi2|by rewrite Hs| |].
  { rewrite Hi2, Hi1, op_steps_last. cbn. lia. }
  rewrite Hs in Hg3. exists b0, b1, b2, b3. split_and!; [done..|]. intros d d' drawn' old Hd Hcr.
  assert (Hkey : db_key_ b2 = db_key) by (rewrite Hk2, (go_key _ _ _ _ _ Hg1); done).
  set (S := some_steps (λ v, v = (op_steps ops1 log_start).1) ops2 (op_steps ops1 log_start)) in *.
  assert (Hdisk : recoverable db_key S d).
  { rewrite <-Hkey. eapply since_extends; [exact (go_disks _ _ _ _ _ Hg3)| |exact Hd].
    eapply recoverable_weaken; [|by eapply open_recoverable]. intros v Hv. by left. }
  destruct (crash_holds _ _ _ _ Hdisk Hcr) as (l & Hl & Hh).
  destruct (init_recovers drawn' (after_crash d') db_key old l Hh) as (b & events & E & Hev & Hso & _).
  assert (∃ k, l = (op_steps (ops1 ++ take k ops2) log_start).1) as [k ->].
  { unfold op_steps. destruct Hl as [->|[k ->]]; [exists 0%nat; by rewrite app_nil_r|exists k; by rewrite foldl_app]. }
  by exists b, events, k.
Qed.

(** ** Changing the key *)

(** A log all of whose entries survive a crash has a file with something in it. *)
Lemma synced_file b l m : open_log b l m (λ v, v = l) → ∃ f, main_file (now (fs_ b)) = Some f ∧ (content f ≠ [] ∨ l = []).
Proof.
  intros (c & es & nd & f & es1 & es2 & Hr & Hl & HV). exists f. split; [apply (run_file _ _ _ _ _ _ _ _ Hr)|].
  destruct (decide (content f = [])) as [Hc|]; [right|by left]. symmetry.
  destruct (run_durable _ _ _ _ _ _ _ _ Hr) as (Hn & Hd & [->|Hlen]); [apply (HV 0%nat); lia|].
  rewrite Hc in Hd. cbn in Hd. rewrite length_log_file in Hlen.
  assert (entries_bytes (take nd es) = []) as He by (apply length_zero_iff_nil; lia).
  apply entries_bytes_nil in He. specialize (HV nd ltac:(lia)). by rewrite He in HV.
Qed.

(** A log made where there was none, changed and synced; then its key is changed. *)
Lemma change_key_safe drawn db_key k fs ops : main_file (now fs) = None → new_file (now fs) = None →
  log_ops_ok log_start ops → Z.of_nat (length ops) < 2 ^ 62 → let l := (op_steps ops log_start).1 in
  ∃ b0 b1 b2 b3, init_binlog db_key EmptyKey (new_Binlog drawn fs) = Ok (b0, SOk, []) ∧ log_runs ops b0 = Ok b1 ∧
    sync b1 = Ok b2 ∧ change_key k b2 = Ok b3 ∧
    ∀ d d' drawn' old, disk_since (fs_ b2) (fs_ b3) d → crash d d' →
      ∃ key b events, (key = k ∨ key = db_key ∧ d ≠ now (fs_ b3)) ∧
        init_binlog key old (new_Binlog drawn' (after_crash d')) = Ok (b, SOk, events) ∧
        Forall2 (is_event crc32) l events ∧ settled_open b key l.
Proof.
  intros Hm Hn Hok Hlen l.
  destruct (init_create drawn fs db_key EmptyKey Hm Hn) as (b0 & E0 & [Ho0 Hk0] & Hi0 & _).
  destruct (log_runs_spec ops b0 [] _ _ Ho0) as (b1 & m1 & E1 & Hg1 & Hm1 & Hi1); [done|by rewrite Hi0|lia|]. rewrite Hi0 in Hg1.
  change ([], 0) with log_start in Hg1. fold l in Hg1.
  destruct (sync_spec b1 _ _ _ (go_open _ _ _ _ _ Hg1)) as (b2 & E2 & Ho2 & [Hk2 _] & _).
  destruct (synced_file _ _ _ Ho2) as (f & Hf & Hne).
  destruct (change_key_spec b2 l m1 _ k f Ho2 Hf Hne) as (b3 & E3 & Ho3 & Hk3 & _ & Hx).
  exists b0, b1, b2, b3. split_and!; [done..|]. intros d d' drawn' old Hd Hcr.
  rewrite Hk2, (go_key _ _ _ _ _ Hg1), Hk0 in Hx.
  assert (∃ key, (key = k ∨ key = db_key ∧ d ≠ now (fs_ b3)) ∧ recoverable key (λ v, v = l) d) as (key & Hkey & Hrec).
  { destruct (decide (d = now (fs_ b3))) as [->|Hne'].
    - exists k. split; [by left|]. rewrite <-Hk3. by eapply open_recoverable.
    - assert (recoverable db_key (λ v, v = l) d ∨ recoverable k (λ v, v = l) d) as [Hr|Hr].
      + apply (since_extends _ _ _ _ Hx); [|done]. left.
        pose proof (open_recoverable _ _ _ _ Ho2) as Hr. by rewrite Hk2, (go_key _ _ _ _ _ Hg1), Hk0 in Hr.
      + exists db_key. split; [by right|done].
      + exists k. split; [by left|done]. }
  destruct (crash_holds _ _ _ _ Hrec Hcr) as (l' & -> & Hh).
  destruct (init_recovers drawn' (after_crash d') key old l Hh) as (b & events & E & Hev & Hso & _).
  by exists key, b, events.
Qed.
End crash.
