(* ===== verification/BinlogKeyValue.v ===== *)
(** * The key-value store on the log ([td/tddb/td/db/BinlogKeyValue.h])

    The class [BinlogKeyValue<Binlog>]. Keys and values are strings of bytes; the map is
    in memory, and every change is an event of the log. The locks are left out: every
    method holds the lock while it changes the map. *)
From S2P Require Import Prelude Bytes TlParsers TlParserFacts TlHelpers BinlogEvent BinlogEventsProcessor FileSystem BinlogState Binlog.

Definition MAGIC : Z := 0x2a280000.

(** [struct Event] *)
Record Event := { ev_key : list Z; ev_value : list Z }.
#[export] Instance tl_event : TlObject Event := {|
  tl_default := {| ev_key := []; ev_value := [] |};
  tl_store St _ x storer :=
    storer ← store (Str (ev_key x)) storer;
    store (Str (ev_value x)) storer;
  tl_parse x parser :=
    '(key, parser) ← parse (Str (ev_key x)) parser;
    '(value, parser) ← parse (Str (ev_value x)) parser;
    Ok ({| ev_key := get_str key; ev_value := get_str value |}, parser);
|}.

(** [map_] has the value of a key and the identifier of the event that set it. *)
Record BinlogKeyValue := mk_BinlogKeyValue {
  map_ : gmap (list Z) (list Z * Z);
  binlog_ : Binlog;
  magic_ : Z;
}.

Section key_value.
Context `{Crypto}.
(** The order in which the elements of a [FlatHashMap] are visited. *)
Context (visit : list (list Z * (list Z * Z)) → list (list Z * (list Z * Z))).

Definition elements (m : gmap (list Z) (list Z * Z)) : list (list Z * (list Z * Z)) := visit (map_to_list m).

(** [map_.emplace(key, value)]: an element that is there stays. *)
Definition emplace (key : list Z) (x : list Z * Z) (m : gmap (list Z) (list Z * Z)) : gmap (list Z) (list Z * Z) :=
  match m !! key with Some _ => m | None => <[key := x]> m end.

(** The callback of [init], and [external_init_handle]. *)
Definition external_init_handle (m : gmap (list Z) (list Z * Z)) (binlog_event : BinlogEvent) :
    outcome (gmap (list Z) (list Z * Z)) :=
  data ← get_data binlog_event;
  '(event, _) ← parse (tl_default : Event) (mk_TlParser data);
  Ok (if bool_decide (ev_key event = []) then m else emplace (ev_key event) (ev_value event, id_ binlog_event) m).

(** [init], in a process that finds the disk [fs]; on failure the map is as the events
    passed so far have left it. *)
Definition init_kv (drawn : nat) (fs : file_system) (db_key : DbKey) (override_magic : Z) :
    outcome (BinlogKeyValue * Status) :=
  let magic := if negb (override_magic =? 0) then override_magic else MAGIC in
  '(b, status, events) ← init_binlog db_key EmptyKey (new_Binlog drawn fs);
  m ← ofold external_init_handle ∅ events;
  Ok (mk_BinlogKeyValue m b magic, status).

Definition add_event (event : list Z) (kv : BinlogKeyValue) : outcome BinlogKeyValue :=
  b ← add_raw_event event (binlog_ kv); Ok (mk_BinlogKeyValue (map_ kv) b (magic_ kv)).

Definition set (key value : list Z) (kv : BinlogKeyValue) : outcome (BinlogKeyValue * Z) :=
  _ ← cassert (negb (bool_decide (key = [])));
  let found := map_ kv !! key in
  if match found with Some (old, _) => bool_decide (old = value) | None => false end then Ok (kv, 0)
  else
    let old_event_id := match found with Some (_, id) => id | None => 0 end in
    let '(b, seq_no) := next_event_id (binlog_ kv) in
    let rewrite := negb (old_event_id =? 0) in
    let event_id := if rewrite then old_event_id else seq_no in
    let kv := mk_BinlogKeyValue (<[key := (value, event_id)]> (map_ kv)) b (magic_ kv) in
    raw ← create_raw crc32 event_id (magic_ kv) (if rewrite then Rewrite_flag else 0)
            (DefaultStorer {| ev_key := key; ev_value := value |});
    kv ← add_event raw kv;
    Ok (kv, seq_no).

Definition erase (key : list Z) (kv : BinlogKeyValue) : outcome (BinlogKeyValue * Z) :=
  match map_ kv !! key with
  | None => Ok (kv, 0)
  | Some (_, event_id) =>
      let '(b, seq_no) := next_event_id (binlog_ kv) in
      let kv := mk_BinlogKeyValue (delete key (map_ kv)) b (magic_ kv) in
      raw ← create_raw crc32 event_id Empty_type Rewrite_flag EmptyStorer;
      kv ← add_event raw kv;
      Ok (kv, seq_no)
  end.

(** The loop of [erase_batch]: the map without the keys, and the events that set them. *)
Fixpoint erase_keys (keys : list (list Z)) (m : gmap (list Z) (list Z * Z)) : gmap (list Z) (list Z * Z) * list Z :=
  match keys with
  | [] => (m, [])
  | key :: keys =>
      match m !! key with
      | Some (_, id) => let '(m, ids) := erase_keys keys (delete key m) in (m, id :: ids)
      | None => erase_keys keys m
      end
  end.
Definition erase_batch (keys : list (list Z)) (kv : BinlogKeyValue) : outcome (BinlogKeyValue * Z) :=
  let '(m, log_event_ids) := erase_keys keys (map_ kv) in
  let kv := mk_BinlogKeyValue m (binlog_ kv) (magic_ kv) in
  if bool_decide (log_event_ids = []) then Ok (kv, 0)
  else
    '(b, seq_no) ← Binlog.erase_batch log_event_ids (binlog_ kv);
    Ok (mk_BinlogKeyValue (map_ kv) b (magic_ kv), seq_no).

Definition begins_with (l prefix : list Z) : bool := bool_decide (take (length prefix) l = prefix).

Fixpoint erase_events (ids : list Z) (kv : BinlogKeyValue) : outcome BinlogKeyValue :=
  match ids with
  | [] => Ok kv
  | id :: ids =>
      raw ← create_raw crc32 id Empty_type Rewrite_flag EmptyStorer;
      kv ← add_event raw kv;
      erase_events ids kv
  end.
Definition erase_by_prefix (prefix : list Z) (kv : BinlogKeyValue) : outcome BinlogKeyValue :=
  let event_ids := (λ x, x.2.2) <$> filter (λ x, begins_with x.1 prefix = true) (elements (map_ kv)) in
  let m := filter (λ x, begins_with x.1 prefix = false) (map_ kv) in
  n ← narrow_cast_int32 (Z.of_nat (length event_ids));
  let '(b, seq_no) := next_event_id_shift n (binlog_ kv) in
  erase_events event_ids (mk_BinlogKeyValue m b (magic_ kv)).

Definition isset (key : list Z) (kv : BinlogKeyValue) : bool := bool_decide (is_Some (map_ kv !! key)).
Definition get (key : list Z) (kv : BinlogKeyValue) : list Z :=
  match map_ kv !! key with Some (value, _) => value | None => [] end.
(** [force_sync], which fulfils its promise at once; [lazy_sync] is the same. *)
Definition force_sync (kv : BinlogKeyValue) : outcome BinlogKeyValue :=
  b ← sync (binlog_ kv); Ok (mk_BinlogKeyValue (map_ kv) b (magic_ kv)).
(** [for_each], with the calls it makes. *)
Definition for_each_kv (kv : BinlogKeyValue) : list (list Z * list Z) := (λ x, (x.1, x.2.1)) <$> elements (map_ kv).
Definition prefix_get (prefix : list Z) (kv : BinlogKeyValue) : gmap (list Z) (list Z) :=
  foldl (λ res x, if begins_with x.1 prefix
                  then match res !! drop (length prefix) x.1 with
                       | Some _ => res
                       | None => <[drop (length prefix) x.1 := x.2.1]> res
                       end
                  else res) ∅ (elements (map_ kv)).
Definition get_all (kv : BinlogKeyValue) : gmap (list Z) (list Z) :=
  foldl (λ res x, match res !! x.1 with Some _ => res | None => <[x.1 := x.2.1]> res end) ∅ (elements (map_ kv)).
(** [close()]: the log is closed when the last reference to it goes away. *)
Definition close_kv (kv : BinlogKeyValue) : outcome BinlogKeyValue :=
  b ← close true (binlog_ kv); Ok (mk_BinlogKeyValue ∅ b MAGIC).

(** [external_init_begin], [external_init_finish] and the [external_init_handle] that takes
    the map of another store, which is left without: a store that shares its log with
    others is filled by the caller of [init]. *)
Definition external_init_begin (override_magic : Z) (kv : BinlogKeyValue) : outcome BinlogKeyValue :=
  kv ← close_kv kv;
  Ok (mk_BinlogKeyValue (map_ kv) (binlog_ kv) (if negb (override_magic =? 0) then override_magic else magic_ kv)).
Definition external_init_handle_map (other kv : BinlogKeyValue) : BinlogKeyValue * BinlogKeyValue :=
  (mk_BinlogKeyValue (map_ other) (binlog_ kv) (magic_ kv), mk_BinlogKeyValue ∅ (binlog_ other) (magic_ other)).
Definition external_init_finish (binlog : Binlog) (kv : BinlogKeyValue) : BinlogKeyValue :=
  mk_BinlogKeyValue (map_ kv) binlog (magic_ kv).
End key_value.
