(* ===== verification/BinlogKeyValueFacts.v ===== *)
(** * The key-value store keeps its map in the log

    The entries in force are the elements of the map, so every operation changes both
    alike; [init] finds in the log the map that was written. *)
From S2P Require Import Prelude Bytes TlParsers TlParserFacts TlHelpers BinlogEvent BinlogEventsProcessor FileSystem BinlogState Binlog BinlogFormat BinlogRun BinlogReindex BinlogOps BinlogOpen BinlogInit BinlogKeyValue BinlogCrash.

(** ** The data of an event *)

Definition kv_bytes (key value : list Z) : list Z := tl_bytes (Str key, Str value).
(** A key and a value that fit an event. *)
Record kv_ok (key value : list Z) : Prop := {
  ok_key : key ≠ [] ∧ bytes_ok key;
  ok_value : bytes_ok value;
  ok_fits : Z.of_nat (length (kv_bytes key value)) + MIN_SIZE ≤ MAX_SIZE;
}.

Lemma kv_bytes_eq key value : kv_bytes key value = stored_string key ++ stored_string value.
Proof. done. Qed.
Lemma kv_valid key value : kv_ok key value → tl_valid (Str key, Str value).
Proof.
  intros [[_ Hk] Hv Hf]. rewrite kv_bytes_eq, length_app in Hf. unfold stored_string in Hf. rewrite !length_app in Hf.
  change MAX_SIZE with 16777216 in Hf. change MIN_SIZE with 32 in Hf.
  split; (split; [done|]); change (2 ^ 32) with 4294967296; cbn [get_str fst snd]; lia.
Qed.
Lemma event_stores key value : kv_ok key value → stores (DefaultStorer {| ev_key := key; ev_value := value |}) (kv_bytes key value).
Proof.
  intros Hok. apply (default_stores (Str key, Str value) (kv_valid _ _ Hok)). destruct Hok as [_ _ Hf].
  change MAX_SIZE with 16777216 in Hf. change MIN_SIZE with 32 in Hf. unfold two64. unfold kv_bytes in Hf. lia.
Qed.
Lemma stored_aligned str : Z.of_nat (length (stored_string str)) mod 4 = 0.
Proof. rewrite stored_string_length. apply Z.mod_mul. lia. Qed.
Lemma event_data_ok magic key value : 0 ≤ magic ≤ INT_MAX → kv_ok key value →
  data_ok magic (DefaultStorer {| ev_key := key; ev_value := value |}) (kv_bytes key value).
Proof.
  intros Hm Hok. split; [done|by apply event_stores|exact (proj1 (stored_ok _ (kv_valid _ _ Hok)))|].
  split; [apply Hok|]. rewrite kv_bytes_eq, length_app. change MIN_SIZE with 32.
  pose proof (stored_aligned key). pose proof (stored_aligned value).
  rewrite Nat2Z.inj_add. Z.to_euclidean_division_equations. lia.
Qed.
Lemma parse_as_pair (x : Event) (p : TlParser) :
  parse x p = '(t, p) ← parse (Str (ev_key x), Str (ev_value x)) p;
              Ok ({| ev_key := get_str t.1; ev_value := get_str t.2 |}, p).
Proof.
  change (parse (Str (ev_key x), Str (ev_value x)) p) with
    ('(k, p) ← parse (Str (ev_key x)) p; '(v, p) ← parse (Str (ev_value x)) p; Ok ((k, v), p)).
  unfold parse at 1. cbn [tl_parse tl_event].
  do 2 (match goal with |- context [mbind _ ?m] => destruct m as [[??]|] end; cbn [mbind outcome_bind]; [|done]).
  done.
Qed.
Lemma parse_event key value dl : kv_ok key value →
  parse (tl_default : Event) (parser_at (kv_bytes key value) dl) = Ok ({| ev_key := key; ev_value := value |}, parser_at [] dl).
Proof.
  intros Hok. rewrite parse_as_pair. rewrite <-(app_nil_r (kv_bytes key value)). unfold kv_bytes.
  rewrite parse_stored; [done|by apply kv_valid|done].
Qed.

(** ** Entries and maps *)

Notation element := (list Z * (list Z * Z))%type (only parsing).
Record element_of (x : element) (e : entry) : Prop := {
  eo_id : e_id e = x.2.2;
  eo_data : e_data e = kv_bytes x.1 x.2.1;
  eo_ok : kv_ok x.1 x.2.1;
  eo_pos : 0 < x.2.2;
}.
(** The entries [l] are the elements of the map [M]. *)
Definition view_map (l : list entry) (M : gmap (list Z) (list Z * Z)) : Prop :=
  ∃ xs, Forall2 element_of xs l ∧ NoDup xs.*1 ∧ M = list_to_map xs.
Definition contents (M : gmap (list Z) (list Z * Z)) : gmap (list Z) (list Z) := fst <$> M.

Lemma view_map_nil : view_map [] ∅.
Proof. exists []. split_and!; [constructor|constructor|done]. Qed.

Lemma insert_middle (xs1 xs2 : list element) key x : NoDup (xs1 ++ (key, x) :: xs2).*1 →
  (list_to_map (xs1 ++ (key, x) :: xs2) : gmap (list Z) (list Z * Z)) = <[key := x]> (list_to_map (xs1 ++ xs2)) ∧
  (list_to_map (xs1 ++ xs2) : gmap (list Z) (list Z * Z)) !! key = None ∧ NoDup (xs1 ++ xs2).*1.
Proof.
  intros Hnd. assert (Hp : (xs1 ++ (key, x) :: xs2).*1 ≡ₚ key :: (xs1 ++ xs2).*1).
  { rewrite <-fmap_cons with (f := fst) (x := (key, x)). apply fmap_Permutation. symmetry. apply Permutation_middle. }
  rewrite (list_to_map_proper _ ((key, x) :: xs1 ++ xs2) Hnd) by (symmetry; apply Permutation_middle).
  rewrite Hp in Hnd. apply NoDup_cons in Hnd as [Hni Hnd]. split_and!; [done| |done].
  by apply not_elem_of_list_to_map_1.
Qed.

Section maps.
Context (l : list entry) (M : gmap (list Z) (list Z * Z)) (HM : view_map l M).

Lemma view_new key x e : element_of (key, x) e → M !! key = None → view_map (l ++ [e]) (<[key := x]> M).
Proof using HM.
  destruct HM as (xs & Hxs & Hnd & ->). intros He Hk. exists (xs ++ [(key, x)]).
  apply not_elem_of_list_to_map_2 in Hk as Hni. rewrite fmap_app. split_and!.
  - apply Forall2_app; [done|]. apply Forall2_cons. by split.
  - apply NoDup_app. split_and!; [done| |by apply NoDup_singleton]. intros y Hy Hy2. set_solver.
  - symmetry. by apply list_to_map_snoc.
Qed.

(** Where an element is. *)
Lemma view_split key x : M !! key = Some x → ∃ l1 e l2, l = l1 ++ e :: l2 ∧ element_of (key, x) e ∧
  (∀ x' e', element_of (key, x') e' → view_map (l1 ++ e' :: l2) (<[key := x']> M)) ∧ view_map (l1 ++ l2) (delete key M).
Proof using HM.
  destruct HM as (xs & Hxs & Hnd & ->). intros Hx. apply elem_of_list_to_map_2, list_elem_of_split in Hx as (xs1 & xs2 & ->).
  apply Forall2_app_inv_l in Hxs as (l1 & l2' & Hl1 & Hl2 & ->). apply Forall2_cons_inv_l in Hl2 as (e & l2 & He & Hl2 & ->).
  destruct (insert_middle _ _ _ _ Hnd) as (Hm & Hnone & Hnd').
  exists l1, e, l2. split_and!; [done|done| |].
  - intros x' e' He'. exists (xs1 ++ (key, x') :: xs2). split_and!.
    + apply Forall2_app; [done|]. by constructor.
    + rewrite fmap_app in Hnd |- *. exact Hnd.
    + assert (Hnd2 : NoDup (xs1 ++ (key, x') :: xs2).*1) by (rewrite fmap_app in Hnd |- *; exact Hnd).
      destruct (insert_middle _ _ _ _ Hnd2) as (-> & _ & _). by rewrite Hm, insert_insert_eq.
  - exists (xs1 ++ xs2). split_and!; [by apply Forall2_app|done|]. by rewrite Hm, delete_insert_id.
Qed.
End maps.

Lemma rewritten_other e l : e_id e ∉ e_id <$> l → rewritten e l = l.
Proof.
  intros Hni. unfold rewritten. induction l as [|x l IH]; [done|]. cbn in *. apply not_elem_of_cons in Hni as [Hx Hni].
  rewrite (proj2 (Z.eqb_neq _ _)), IH by (done || congruence). done.
Qed.
Lemma without_other id l : id ∉ e_id <$> l → without id l = l.
Proof.
  intros Hni. unfold without. induction l as [|x l IH]; [done|]. apply not_elem_of_cons in Hni as [Hx Hni].
  rewrite filter_cons_True, IH by (done || congruence). done.
Qed.
Lemma middle_ids (l1 : list entry) e l2 : NoDup (e_id <$> (l1 ++ e :: l2)) → e_id e ∉ e_id <$> l1 ∧ e_id e ∉ e_id <$> l2.
Proof.
  rewrite fmap_app. cbn. intros (_ & H1 & [H2 _]%NoDup_cons)%NoDup_app. split; [|done]. intros Hin.
  apply (H1 _ Hin). by left.
Qed.
Lemma rewritten_middle l1 e0 l2 e : NoDup (e_id <$> (l1 ++ e0 :: l2)) → e_id e = e_id e0 →
  rewritten e (l1 ++ e0 :: l2) = l1 ++ e :: l2.
Proof.
  intros [H1 H2]%middle_ids He. rewrite <-He in H1, H2. unfold rewritten. rewrite fmap_app. cbn.
  rewrite <-He, Z.eqb_refl. f_equal; [by apply rewritten_other|]. f_equal. by apply rewritten_other.
Qed.
Lemma without_middle l1 e l2 : NoDup (e_id <$> (l1 ++ e :: l2)) → without (e_id e) (l1 ++ e :: l2) = l1 ++ l2.
Proof.
  intros [H1 H2]%middle_ids. unfold without. rewrite filter_app, filter_cons_False by naive_solver.
  fold (without (e_id e) l1) (without (e_id e) l2). by rewrite !without_other.
Qed.
Lemma view_ids_unique l n : view_ok (l, n) → NoDup (e_id <$> l).
Proof.
  intros [Hs _ _]. cbn in Hs. induction Hs as [|e l Hs IH He]; cbn; constructor; [|done].
  intros (x & Heq & Hx)%list_elem_of_fmap. rewrite Forall_forall in He. specialize (He x Hx). cbn in He. lia.
Qed.

(** ** The store *)

Section store.
Context `{CryptoLaws}.
#[local] Set Default Proof Using "Type*".

(** Every view of [V] is a map with contents in [S]. *)
Definition views (V : list entry → Prop) (S : gmap (list Z) (list Z) → Prop) : Prop :=
  ∀ v, V v → ∃ M, view_map v M ∧ S (contents M).
(** An open store whose contents after a crash are in [S]. *)
Record kv_running (kv : BinlogKeyValue) (S : gmap (list Z) (list Z) → Prop) : Prop := {
  kr_magic : 0 ≤ magic_ kv ≤ INT_MAX;
  kr_log : ∃ l m V, open_log (binlog_ kv) l m V ∧ m ≤ last_id_ (binlog_ kv) ∧ view_map l (map_ kv) ∧ views V S;
}.
Definition kv_disk (db_key : DbKey) (S : gmap (list Z) (list Z) → Prop) (d : disk) : Prop :=
  ∃ V, recoverable db_key V d ∧ views V S.

Record kv_goes (kv kv' : BinlogKeyValue) (S : gmap (list Z) (list Z) → Prop) : Prop := {
  kg_running : kv_running kv' S;
  kg_key : db_key_ (binlog_ kv') = db_key_ (binlog_ kv);
  kg_disks : extends (kv_disk (db_key_ (binlog_ kv)) S) (fs_ (binlog_ kv)) (fs_ (binlog_ kv'));
}.
Lemma kv_disk_weaken (db_key : DbKey) (S S' : gmap (list Z) (list Z) → Prop) (d : disk) : (∀ M, S M → S' M) → kv_disk db_key S d → kv_disk db_key S' d.
Proof. intros HS (V & Hd & HV). exists V. split; [done|]. intros v Hv. destruct (HV v Hv) as (M & HM & HSM). exists M. auto. Qed.
Lemma kv_running_weaken (kv : BinlogKeyValue) (S S' : gmap (list Z) (list Z) → Prop) : (∀ M, S M → S' M) → kv_running kv S → kv_running kv S'.
Proof.
  intros HS [Hm (l & m & V & Ho & Hml & Hl & HV)]. split; [done|]. exists l, m, V. split_and!; [done..|].
  intros v Hv. destruct (HV v Hv) as (M & HM & HSM). exists M. auto.
Qed.
Lemma kv_goes_weaken (kv kv' : BinlogKeyValue) (S S' : gmap (list Z) (list Z) → Prop) : (∀ M, S M → S' M) → kv_goes kv kv' S → kv_goes kv kv' S'.
Proof.
  intros HS [Hr Hk Hx]. split; [by eapply kv_running_weaken|done|]. eapply extends_weaken; [|exact Hx].
  intros d. by apply kv_disk_weaken.
Qed.
Lemma kv_goes_trans (kv1 kv2 kv3 : BinlogKeyValue) (S1 S2 : gmap (list Z) (list Z) → Prop) : (∀ M, S1 M → S2 M) →
  kv_goes kv1 kv2 S1 → kv_goes kv2 kv3 S2 → kv_goes kv1 kv3 S2.
Proof.
  intros HS [R1 K1 D1] [R2 K2 D2]. split; [done|congruence|]. rewrite K1 in D2.
  eapply extends_trans; [|exact D2]. eapply extends_weaken; [|exact D1]. intros d. by apply kv_disk_weaken.
Qed.
Lemma kv_goes_refl (kv : BinlogKeyValue) (S : gmap (list Z) (list Z) → Prop) : kv_running kv S → kv_goes kv kv S.
Proof. intros Hr. split; [done|done|apply extends_refl]. Qed.
Lemma kv_now (kv : BinlogKeyValue) (S : gmap (list Z) (list Z) → Prop) : kv_running kv S → kv_disk (db_key_ (binlog_ kv)) S (now (fs_ (binlog_ kv))).
Proof. intros [_ (l & m & V & Ho & _ & _ & HV)]. exists V. split; [by eapply open_recoverable|done]. Qed.

(** A step of the log that changes the view and the map alike. *)
Lemma kv_step (kv kv' : BinlogKeyValue) (S : gmap (list Z) (list Z) → Prop) l' m' V : goes_on (binlog_ kv) (binlog_ kv') l' m' (λ v, V v ∨ v = l') → views V S →
  m' ≤ last_id_ (binlog_ kv') → view_map l' (map_ kv') → 0 ≤ magic_ kv' ≤ INT_MAX →
  kv_goes kv kv' (λ M, S M ∨ M = contents (map_ kv')).
Proof.
  intros [Ho Hk Hx] HV Hml Hl Hm.
  assert (HV' : views (λ v, V v ∨ v = l') (λ M, S M ∨ M = contents (map_ kv'))).
  { intros v [Hv| ->]; [|by exists (map_ kv'); auto]. destruct (HV v Hv) as (M & HM & HSM). exists M. auto. }
  split; [|done|].
  - split; [done|]. by exists l', m', (λ v, V v ∨ v = l').
  - eapply extends_weaken; [|exact Hx]. intros d Hd. by exists (λ v, V v ∨ v = l').
Qed.

(** *** [set] and [erase] *)

Lemma map_entry kv S key x : kv_running kv S → map_ kv !! key = Some x →
  ∃ l m V l1 e l2, open_log (binlog_ kv) l m V ∧ m ≤ last_id_ (binlog_ kv) ∧ views V S ∧ l = l1 ++ e :: l2 ∧ element_of (key, x) e ∧
    NoDup (e_id <$> l) ∧ x.2 ∈ e_id <$> l ∧
    (∀ x' e', element_of (key, x') e' → view_map (l1 ++ e' :: l2) (<[key := x']> (map_ kv))) ∧
    view_map (l1 ++ l2) (delete key (map_ kv)).
Proof.
  intros [_ (l & m & V & Ho & Hml & Hl & HV)] Hx. destruct (view_split l _ Hl key x Hx) as (l1 & e & l2 & -> & He & Hset & Hdel).
  destruct (open_view _ _ _ _ Ho) as (n & _ & Hview). exists (l1 ++ e :: l2), m, V, l1, e, l2.
  split_and!; [done..|by eapply view_ids_unique| |done|done].
  apply list_elem_of_fmap. exists e. split; [symmetry; apply He|set_solver].
Qed.

Lemma contents_insert key value id M : contents (<[key := (value, id)]> M) = <[key := value]> (contents M).
Proof. apply fmap_insert. Qed.

Definition id_room (kv : BinlogKeyValue) : Prop := last_id_ (binlog_ kv) + 1 < 2 ^ 63.
Definition after_set (kv : BinlogKeyValue) (key value : list Z) : gmap (list Z) (list Z) := <[key := value]> (contents (map_ kv)).

Lemma set_new kv S key value : kv_running kv S → kv_ok key value → id_room kv → map_ kv !! key = None →
  ∃ kv' n, set key value kv = Ok (kv', n) ∧ contents (map_ kv') = after_set kv key value ∧
    kv_goes kv kv' (λ M, S M ∨ M = after_set kv key value) ∧
    last_id_ (binlog_ kv') ≤ last_id_ (binlog_ kv) + 1.
Proof.
  intros [Hm (l & m & V & Ho & Hml & Hl & HV)] Hok Hroom Hx.
  destruct (log_add _ _ _ _ _ _ _ Ho (event_data_ok _ _ _ Hm Hok) Hml Hroom) as (b' & b1 & raw & E1 & E2 & E3 & Hg & Hi).
  set (e := {| e_id := last_id_ (binlog_ kv) + 1; e_type := magic_ kv; e_flags := 0; e_data := kv_bytes key value |}) in *.
  pose proof (open_last _ _ _ _ Ho) as Hlast.
  set (kv' := mk_BinlogKeyValue (<[key := (value, last_id_ (binlog_ kv) + 1)]> (map_ kv)) b' (magic_ kv)).
  exists kv', (last_id_ (binlog_ kv) + 1). split_and!.
  - unfold set. rewrite Hx, (bool_decide_false (key = [])) by apply Hok. cbn [negb cassert]. rewrite bind_Ok_l, E1. cbn [negb Z.eqb magic_].
    rewrite E2, bind_Ok_l. unfold add_event. cbn [binlog_ map_ magic_]. by rewrite E3, !bind_Ok_l.
  - apply contents_insert.
  - unfold after_set. rewrite <-(contents_insert key value (last_id_ (binlog_ kv) + 1)).
    apply (kv_step kv kv' S _ _ V Hg HV (Z.le_refl _)); [|done]. apply view_new; [done| |done]. split; try done. cbn. lia.
  - cbn. lia.
Qed.

Lemma set_old kv S key value old id : kv_running kv S → kv_ok key value → id_room kv →
  map_ kv !! key = Some (old, id) → old ≠ value →
  ∃ kv' n, set key value kv = Ok (kv', n) ∧ contents (map_ kv') = after_set kv key value ∧
    kv_goes kv kv' (λ M, S M ∨ M = after_set kv key value) ∧
    last_id_ (binlog_ kv') ≤ last_id_ (binlog_ kv) + 1.
Proof.
  intros Hr Hok Hroom Hx Hne. pose proof (kr_magic _ _ Hr) as Hm.
  destruct (map_entry kv S key (old, id) Hr Hx) as (l & m & V & l1 & e0 & l2 & Ho & Hml & HV & Hl & He0 & Hnd & Hin & Hset & _).
  destruct (log_rewrite _ _ _ _ id _ _ _ Ho (event_data_ok _ _ _ Hm Hok) Hml Hroom Hin) as (b' & b1 & raw & E1 & E2 & E3 & Hg & Hi).
  set (e := {| e_id := id; e_type := magic_ kv; e_flags := Rewrite_flag; e_data := kv_bytes key value |}) in *.
  pose proof (eo_pos _ _ He0) as Hpos. cbn in Hpos.
  rewrite Hl, rewritten_middle in Hg; [|by rewrite <-Hl|by rewrite (eo_id _ _ He0)].
  set (kv' := mk_BinlogKeyValue (<[key := (value, id)]> (map_ kv)) b' (magic_ kv)).
  exists kv', (last_id_ (binlog_ kv) + 1). split_and!.
  - unfold set. rewrite Hx, (bool_decide_false (key = [])) by apply Hok. cbn [negb cassert]. rewrite bind_Ok_l, (bool_decide_false (old = value)) by done.
    rewrite E1. rewrite (proj2 (Z.eqb_neq _ _)) by lia. cbn [negb magic_].
    rewrite E2, bind_Ok_l. unfold add_event. cbn [binlog_ map_ magic_]. by rewrite E3, !bind_Ok_l.
  - apply contents_insert.
  - unfold after_set. rewrite <-(contents_insert key value id). apply (kv_step kv kv' S _ _ V Hg HV (Z.le_refl _)); [|done].
    apply Hset. by split.
  - cbn. lia.
Qed.

Lemma kv_set_spec kv S key value : kv_running kv S → kv_ok key value → id_room kv →
  ∃ kv' n, set key value kv = Ok (kv', n) ∧ contents (map_ kv') = after_set kv key value ∧
    kv_goes kv kv' (λ M, S M ∨ M = after_set kv key value) ∧
    last_id_ (binlog_ kv') ≤ last_id_ (binlog_ kv) + 1.
Proof.
  intros Hr Hok Hroom. destruct (map_ kv !! key) as [[old id]|] eqn:Hx; [|by apply set_new].
  destruct (decide (old = value)) as [->|Hne]; [|by eapply set_old].
  exists kv, 0. split_and!.
  - unfold set. rewrite Hx, (bool_decide_false (key = [])) by apply Hok. cbn [negb cassert]. by rewrite bind_Ok_l, bool_decide_true.
  - unfold after_set. rewrite insert_id; [done|]. unfold contents. by rewrite lookup_fmap, Hx.
  - apply kv_goes_refl. eapply kv_running_weaken; [|exact Hr]. by left.
  - lia.
Qed.

Lemma kv_erase_spec kv S key : kv_running kv S → id_room kv → let M' := delete key (contents (map_ kv)) in
  ∃ kv' n, erase key kv = Ok (kv', n) ∧ contents (map_ kv') = M' ∧ kv_goes kv kv' (λ M, S M ∨ M = M') ∧
    last_id_ (binlog_ kv') ≤ last_id_ (binlog_ kv) + 1.
Proof.
  intros Hr Hroom M'. destruct (map_ kv !! key) as [[value id]|] eqn:Hx.
  - destruct (map_entry kv S key (value, id) Hr Hx) as (l & m & V & l1 & e0 & l2 & Ho & Hml & HV & Hl & He0 & Hnd & Hin & _ & Hdel).
    destruct (log_erase _ _ _ _ id Ho Hml Hroom Hin) as (b' & b1 & raw & E1 & E2 & E3 & Hg & Hi).
    pose proof (eo_id _ _ He0) as Hid. cbn in Hid.
    rewrite Hl, <-Hid, without_middle in Hg by by rewrite <-Hl.
    set (kv' := mk_BinlogKeyValue (delete key (map_ kv)) b' (magic_ kv)).
    assert (HM' : contents (map_ kv') = M') by apply fmap_delete.
    exists kv', (last_id_ (binlog_ kv) + 1). split_and!; [|done| |cbn; lia].
    + unfold erase. rewrite Hx, E1, E2, bind_Ok_l. unfold add_event. cbn [binlog_ map_ magic_]. by rewrite E3, !bind_Ok_l.
    + rewrite <-HM'. apply (kv_step kv kv' S _ _ V Hg HV (Z.le_refl _) Hdel), Hr.
  - exists kv, 0. split_and!; [by unfold erase; rewrite Hx| | |lia].
    + symmetry. apply delete_id. unfold contents. by rewrite lookup_fmap, Hx.
    + apply kv_goes_refl. eapply kv_running_weaken; [|exact Hr]. by left.
Qed.

Lemma force_sync_spec kv S : kv_running kv S →
  ∃ kv', force_sync kv = Ok kv' ∧ map_ kv' = map_ kv ∧ kv_running kv' (λ M, M = contents (map_ kv)) ∧
    db_key_ (binlog_ kv') = db_key_ (binlog_ kv) ∧ last_id_ (binlog_ kv') = last_id_ (binlog_ kv) ∧
    extends (kv_disk (db_key_ (binlog_ kv)) S) (fs_ (binlog_ kv)) (fs_ (binlog_ kv')).
Proof.
  intros [Hm (l & m & V & Ho & Hml & Hl & HV)]. destruct (sync_spec _ _ _ _ Ho) as (b' & E & Ho' & [Hk Hi] & Hx).
  unfold force_sync. rewrite E, bind_Ok_l. eexists. split; [done|]. split_and!; [done| |done|done|].
  - split; [done|]. exists l, m, (λ v, v = l). split_and!; [done|by rewrite <-Hi in Hml|done|]. intros v ->. by exists (map_ kv).
  - eapply extends_weaken; [|exact Hx]. intros d Hd. by exists V.
Qed.

(** *** [init] *)

Lemma restore_event M x e off fl : element_of x e → entry_ok e →
  external_init_handle M (set_flags fl (event_of crc32 off e)) = Ok (emplace x.1 x.2 M).
Proof.
  intros [Hid Hdata Hok Hpos] He. unfold external_init_handle.
  change (get_data (set_flags fl (event_of crc32 off e))) with (get_data (event_of crc32 off e)).
  rewrite (get_data_spec crc32), bind_Ok_l, Hdata by done. change (mk_TlParser ?l) with (parser_at l (Z.of_nat (length l))).
  rewrite parse_event, bind_Ok_l by done. cbn [ev_key ev_value].
  rewrite bool_decide_false by apply Hok. destruct x as [key [value id]]. cbn in *. by rewrite Hid.
Qed.
Lemma restore xs l events M : Forall2 element_of xs l → Forall entry_ok l → Forall2 (is_event crc32) l events →
  NoDup xs.*1 → (∀ key, key ∈ xs.*1 → M !! key = None) →
  ∃ M', ofold external_init_handle M events = Ok M' ∧ M' = list_to_map xs ∪ M.
Proof.
  intros Hxs. revert events M. induction Hxs as [|x e xs l Hx Hxs IH]; intros events M Hok Hev Hnd Hnone.
  - apply Forall2_nil_inv_l in Hev as ->. exists M. split; [done|]. cbn. by rewrite map_empty_union.
  - apply Forall2_cons_inv_l in Hev as (ev & events' & (off & fl & ->) & Hev & ->).
    apply Forall_cons in Hok as [He Hok]. cbn [fmap list_fmap] in Hnd. apply NoDup_cons in Hnd as [Hni Hnd].
    cbn [ofold]. rewrite (restore_event M x e off fl Hx He), bind_Ok_l.
    assert (Hx0 : M !! x.1 = None) by (apply Hnone; by left). unfold emplace. rewrite Hx0.
    destruct (IH events' (<[x.1 := x.2]> M) Hok Hev Hnd) as (M' & E & ->).
    { intros key Hkey. rewrite lookup_insert_ne by (intros <-; done). apply Hnone. by right. }
    rewrite E. eexists. split; [done|]. destruct x as [key y]. cbn in *.
    rewrite <-insert_union_r, insert_union_l by by apply not_elem_of_list_to_map_1. done.
Qed.

Definition kv_opened (kv : BinlogKeyValue) (db_key : DbKey) : Prop :=
  kv_running kv (λ M, M = contents (map_ kv)) ∧ db_key_ (binlog_ kv) = db_key.

Lemma override_magic_ok n : 0 ≤ n ≤ INT_MAX → 0 ≤ (if negb (n =? 0) then n else MAGIC) ≤ INT_MAX.
Proof. intros Hn. case_match; [done|]. unfold MAGIC, INT_MAX. lia. Qed.

Lemma opened_running b db_key l M magic : settled_open b db_key l → view_map l M → 0 ≤ magic ≤ INT_MAX →
  kv_opened (mk_BinlogKeyValue M b magic) db_key.
Proof.
  intros [Ho Hk] Hl Hm. split; [|done]. split; [done|]. exists l, (last_id_ b), (λ v, v = l).
  split_and!; [done..|]. intros v ->. by exists M.
Qed.

(** After a crash the contents are among the possible ones. *)
Lemma kv_init_spec drawn db_key n S d d' : kv_disk db_key S d → crash d d' → 0 ≤ n ≤ INT_MAX →
  ∃ kv, init_kv drawn (after_crash d') db_key n = Ok (kv, SOk) ∧ S (contents (map_ kv)) ∧ kv_opened kv db_key ∧
    extends (kv_disk db_key (λ M, M = contents (map_ kv))) (after_crash d') (fs_ (binlog_ kv)).
Proof.
  intros (V & Hd & HV) Hcr Hn. destruct (crash_holds _ _ _ _ Hd Hcr) as (l & Hl & Hh).
  destruct (HV l Hl) as (M & Hview & HS).
  destruct (init_recovers drawn (after_crash d') db_key EmptyKey l Hh) as (b & events & E & Hev & Hso & Hx).
  pose proof Hview as (xs & Hxs & Hnd & ->). destruct (open_view _ _ _ _ (proj1 Hso)) as (k & _ & Hvok).
  destruct (restore xs l events ∅ Hxs) as (M' & E' & ->); [|done|done|done|].
  { eapply Forall_impl; [exact (vo_entries _ Hvok)|]. by intros e [? ? ? ?]. }
  rewrite map_union_empty in E'. unfold init_kv. rewrite E, bind_Ok_l, E', bind_Ok_l.
  eexists. split; [done|]. split; [done|]. split; [by apply (opened_running b db_key l), override_magic_ok|].
  eapply extends_weaken; [|exact Hx]. intros g Hg. exists (λ v, v = l). split; [done|]. intros v ->. by exists (list_to_map xs).
Qed.
Lemma kv_create drawn db_key n fs : main_file (now fs) = None → new_file (now fs) = None → 0 ≤ n ≤ INT_MAX →
  ∃ kv, init_kv drawn fs db_key n = Ok (kv, SOk) ∧ map_ kv = ∅ ∧ kv_opened kv db_key ∧ last_id_ (binlog_ kv) = 0.
Proof.
  intros Hm Hnew Hn. destruct (init_create drawn fs db_key EmptyKey Hm Hnew) as (b & E & Hso & Hi & _).
  unfold init_kv. rewrite E, bind_Ok_l. cbn [ofold]. rewrite bind_Ok_l. eexists. split; [done|]. split; [done|]. split; [|done].
  apply (opened_running b db_key []); [done|apply view_map_nil|by apply override_magic_ok].
Qed.
End store.

(** ** Crashes

    Sequences of operations on the store, what they mean for a finite map, and what is
    found after a crash at any moment. *)

(** *** Operations *)

Inductive kv_op := Set_ (key value : list Z) | Erase_ (key : list Z).
Definition kv_map : Type := gmap (list Z) (list Z).
(** What the operations mean. *)
Definition op_map (M : kv_map) (o : kv_op) : kv_map :=
  match o with Set_ key value => <[key := value]> M | Erase_ key => delete key M end.
Definition ops_map (ops : list kv_op) (M : kv_map) : kv_map := foldl op_map M ops.
Definition op_ok (o : kv_op) : Prop := match o with Set_ key value => kv_ok key value | Erase_ _ => True end.

Section crash.
Context `{CryptoLaws}.
#[local] Set Default Proof Using "Type*".

Definition op_run (kv : BinlogKeyValue) (o : kv_op) : outcome BinlogKeyValue :=
  match o with
  | Set_ key value => '(kv, _) ← set key value kv; Ok kv
  | Erase_ key => '(kv, _) ← erase key kv; Ok kv
  end.
Definition ops_run (ops : list kv_op) (kv : BinlogKeyValue) : outcome BinlogKeyValue := ofold op_run kv ops.

(** Identifiers do not run out. *)
Definition ids_room (kv : BinlogKeyValue) (n : nat) : Prop := last_id_ (binlog_ kv) + Z.of_nat n < 2 ^ 63.

Lemma op_spec kv S o : kv_running kv S → op_ok o → id_room kv → let M' := op_map (contents (map_ kv)) o in
  ∃ kv', op_run kv o = Ok kv' ∧ contents (map_ kv') = M' ∧ kv_goes kv kv' (λ M, S M ∨ M = M') ∧
    last_id_ (binlog_ kv') ≤ last_id_ (binlog_ kv) + 1.
Proof.
  intros Hr Hok Hroom M'. destruct o as [key value|key].
  - destruct (kv_set_spec kv S key value Hr Hok Hroom) as (kv' & n & E & HM & Hg & Hi). exists kv'. cbn. by rewrite E.
  - destruct (kv_erase_spec kv S key Hr Hroom) as (kv' & n & E & HM & Hg & Hi). exists kv'. cbn. by rewrite E.
Qed.

(** After a crash: [S] as before, or the contents after some of the operations. *)
Definition some_ops (S : kv_map → Prop) (ops : list kv_op) (C : kv_map) (M : kv_map) : Prop :=
  S M ∨ ∃ k, M = ops_map (take k ops) C.
Lemma ops_spec ops kv S : kv_running kv S → Forall op_ok ops → ids_room kv (length ops) →
  ∃ kv', ops_run ops kv = Ok kv' ∧ contents (map_ kv') = ops_map ops (contents (map_ kv)) ∧
    kv_goes kv kv' (some_ops S ops (contents (map_ kv))) ∧
    last_id_ (binlog_ kv') ≤ last_id_ (binlog_ kv) + Z.of_nat (length ops).
Proof.
  revert kv S. induction ops as [|o ops IH]; intros kv S Hr Hok Hroom.
  - exists kv. split_and!; [done|done| |cbn; lia]. apply kv_goes_refl. eapply kv_running_weaken; [|exact Hr]. by left.
  - apply Forall_cons in Hok as [Ho Hok]. unfold ids_room in Hroom. cbn [length] in Hroom.
    destruct (op_spec kv S o Hr Ho) as (kv1 & E1 & HM1 & Hg1 & Hi1); [unfold id_room; lia|].
    destruct (IH kv1 _ (kg_running _ _ _ Hg1) Hok) as (kv2 & E2 & HM2 & Hg2 & Hi2); [unfold ids_room; lia|].
    exists kv2. unfold ops_run in *. cbn [ofold]. rewrite E1, bind_Ok_l. split_and!; [done| | |cbn [length]; lia].
    + by rewrite HM2, HM1.
    + eapply kv_goes_trans; [|exact Hg1|eapply kv_goes_weaken; [|exact Hg2]].
      * intros M [HS| ->]; [by left|right]. by exists 1%nat.
      * rewrite HM1. intros M [[HS| ->]|[k ->]]; [by left|right; by exists 1%nat|right; by exists (Datatypes.S k)].
Qed.

(** A store made where there was none, changed, synced, changed again. *)
Lemma crash_safe drawn db_key n fs ops1 ops2 : main_file (now fs) = None → new_file (now fs) = None → 0 ≤ n ≤ INT_MAX →
  Forall op_ok (ops1 ++ ops2) → Z.of_nat (length (ops1 ++ ops2)) < 2 ^ 62 →
  ∃ kv0 kv1 kv2 kv3, init_kv drawn fs db_key n = Ok (kv0, SOk) ∧ ops_run ops1 kv0 = Ok kv1 ∧ force_sync kv1 = Ok kv2 ∧
    ops_run ops2 kv2 = Ok kv3 ∧ contents (map_ kv3) = ops_map (ops1 ++ ops2) ∅ ∧
    ∀ d d' drawn', disk_since (fs_ (binlog_ kv2)) (fs_ (binlog_ kv3)) d → crash d d' →
      ∃ kv k, init_kv drawn' (after_crash d') db_key n = Ok (kv, SOk) ∧
        contents (map_ kv) = ops_map (ops1 ++ take k ops2) ∅ ∧ kv_opened kv db_key.
Proof.
  intros Hm Hnew Hn Hok Hlen. apply Forall_app in Hok as [Hok1 Hok2]. rewrite length_app in Hlen.
  destruct (kv_create drawn db_key n fs Hm Hnew Hn) as (kv0 & E0 & HM0 & [Hr0 Hk0] & Hi0).
  destruct (ops_spec ops1 kv0 _ Hr0 Hok1) as (kv1 & E1 & HM1 & Hg1 & Hi1); [unfold ids_room; lia|].
  destruct (force_sync_spec kv1 _ (kg_running _ _ _ Hg1)) as (kv2 & E2 & HM2 & Hr2 & Hk2 & Hi2 & _).
  destruct (ops_spec ops2 kv2 _ Hr2 Hok2) as (kv3 & E3 & HM3 & Hg3 & Hi3); [unfold ids_room; lia|].
  assert (HC : contents (map_ kv1) = ops_map ops1 ∅) by (rewrite HM1, HM0; done).
  exists kv0, kv1, kv2, kv3. split_and!; [done..| |].
  { rewrite HM3, HM2, HC. unfold ops_map. by rewrite foldl_app. }
  intros d d' drawn' Hd Hcr.
  assert (Hkey : db_key_ (binlog_ kv2) = db_key) by (rewrite Hk2, (kg_key _ _ _ Hg1); done).
  assert (Hdisk : kv_disk db_key (some_ops (λ M, M = contents (map_ kv1)) ops2 (contents (map_ kv2))) d).
  { rewrite <-Hkey. eapply since_extends; [exact (kg_disks _ _ _ Hg3)| |exact Hd].
    eapply kv_disk_weaken; [|by apply kv_now]. intros M HM. by left. }
  destruct (kv_init_spec drawn' db_key n _ d d' Hdisk Hcr Hn) as (kv & E & HS & Hop & _).
  destruct HS as [HS|[k HS]]; [exists kv, 0%nat|exists kv, k]; (split; [done|]; split; [|done]).
  - by rewrite HS, HC, app_nil_r.
  - rewrite HS, HM2, HC. unfold ops_map. by rewrite foldl_app.
Qed.
End crash.
