(* ===== verification/BinlogKeyValueBatch.v ===== *)
(** * Erasing many keys at once

    [erase_batch] and [erase_by_prefix] write an event for every key; a crash can come
    between them. *)
From S2P Require Import Prelude Bytes TlParsers TlParserFacts TlHelpers BinlogEvent BinlogEventsProcessor FileSystem BinlogState Binlog BinlogFormat BinlogRun BinlogReindex BinlogOps BinlogOpen BinlogInit BinlogKeyValue BinlogKeyValueFacts.

Definition deleted (keys : list (list Z)) (C : gmap (list Z) (list Z)) : gmap (list Z) (list Z) :=
  foldl (λ C key, delete key C) C keys.
(** Some of the keys, in the order of the list. *)
Definition some_deleted (keys : list (list Z)) (C C' : gmap (list Z) (list Z)) : Prop :=
  ∃ k, C' = deleted (take k keys) C.

Lemma some_deleted_skip key keys C C' : C !! key = None → some_deleted keys C C' → some_deleted (key :: keys) C C'.
Proof. intros Hn [k ->]. exists (S k). unfold deleted. cbn. by rewrite delete_id. Qed.
Lemma some_deleted_next key keys C C' : some_deleted keys (delete key C) C' → some_deleted (key :: keys) C C'.
Proof. intros [k ->]. by exists (S k). Qed.
Lemma some_deleted_none keys C : some_deleted keys C C.
Proof. by exists 0%nat. Qed.

Lemma contents_none (key : list Z) (M : gmap (list Z) (list Z * Z)) : M !! key = None → contents M !! key = None.
Proof. intros Hn. unfold contents. by rewrite lookup_fmap, Hn. Qed.
Lemma contents_delete (key : list Z) (M : gmap (list Z) (list Z * Z)) : contents (delete key M) = delete key (contents M).
Proof. apply fmap_delete. Qed.

(** The entries that go, and what is left between any two of the events. *)
Record erases (l : list entry) (ids : list Z) (keys : list (list Z)) (M M' : gmap (list Z) (list Z * Z)) : Prop := {
  er_ids : NoDup ids ∧ Forall (λ id, id ∈ e_id <$> l) ids;
  er_view : view_map (without_all ids l) M';
  er_map : contents M' = deleted keys (contents M);
  er_some v : some_erased ids l v → ∃ Mv, view_map v Mv ∧ some_deleted keys (contents M) (contents Mv);
}.

Lemma erase_keys_spec keys l M : view_map l M → NoDup (e_id <$> l) →
  ∃ M' ids, erase_keys keys M = (M', ids) ∧ erases l ids keys M M'.
Proof.
  revert l M. induction keys as [|key keys IH]; intros l M HM Hnd; cbn [erase_keys].
  - exists M, []. split; [done|]. split; [by split; [constructor|]|done|done|].
    intros v [k ->]. rewrite take_nil. exists M. split; [done|apply some_deleted_none].
  - destruct (M !! key) as [[value id]|] eqn:Hx.
    + destruct (view_split l M HM key _ Hx) as (l1 & e & l2 & -> & He & _ & Hdel).
      pose proof (without_middle l1 e l2 Hnd) as Hwo. rewrite (eo_id _ _ He) in Hwo. cbn in Hwo.
      destruct (middle_ids _ _ _ Hnd) as [Hn1 Hn2]. rewrite (eo_id _ _ He) in Hn1, Hn2. cbn in Hn1, Hn2.
      assert (Hnd' : NoDup (e_id <$> (l1 ++ l2))).
      { rewrite fmap_app in Hnd |- *. cbn in Hnd. apply NoDup_app in Hnd as (H1 & H2 & [_ H3]%NoDup_cons). apply NoDup_app.
        split_and!; [done| |done]. intros x Hx1 Hx2. apply (H2 x Hx1). by right. }
      destruct (IH (l1 ++ l2) _ Hdel Hnd') as (M' & ids & E & [[Hid1 Hid2] Hv Hc Hs]). rewrite E. exists M', (id :: ids).
      split; [done|]. split.
      * split; [constructor; [|done]|constructor].
        -- intros Hin. rewrite Forall_forall in Hid2. specialize (Hid2 _ Hin). rewrite fmap_app in Hid2. set_solver.
        -- rewrite fmap_app. cbn. rewrite (eo_id _ _ He). cbn. set_solver.
        -- eapply Forall_impl; [exact Hid2|]. intros y Hy. rewrite fmap_app in Hy |- *. cbn. set_solver.
      * cbn [without_all]. by rewrite Hwo.
      * rewrite Hc, contents_delete. done.
      * intros v [[|k] ->].
        -- exists M. split; [done|apply some_deleted_none].
        -- cbn [take without_all]. rewrite Hwo. destruct (Hs _ (ex_intro _ k eq_refl)) as (Mv & HMv & Hd). exists Mv.
           split; [done|]. rewrite contents_delete in Hd. by apply some_deleted_next.
    + destruct (IH l M HM Hnd) as (M' & ids & E & [Hid Hv Hc Hs]). exists M', ids. split; [done|].
      pose proof (contents_none key M Hx) as Hn. split; [done|done| |].
      * rewrite Hc. unfold deleted at 2. cbn [foldl]. by rewrite (delete_id (contents M)).
      * intros v Hv'. destruct (Hs v Hv') as (Mv & HMv & Hd). exists Mv. split; [done|]. by apply some_deleted_skip.
Qed.

Section batch.
Context `{CryptoLaws}.
#[local] Set Default Proof Using "Type*".

Lemma erased_goes (kv kv' : BinlogKeyValue) (S : gmap (list Z) (list Z) → Prop) l ids keys m' V :
  goes_on (binlog_ kv) (binlog_ kv') (without_all ids l) m' (λ v, V v ∨ some_erased ids l v) → views V S →
  m' ≤ last_id_ (binlog_ kv') → erases l ids keys (map_ kv) (map_ kv') → 0 ≤ magic_ kv' ≤ INT_MAX →
  kv_goes kv kv' (λ M, S M ∨ some_deleted keys (contents (map_ kv)) M).
Proof.
  intros [Ho Hk Hx] HV Hml [_ Hv _ Hs] Hm.
  assert (HV' : views (λ v, V v ∨ some_erased ids l v) (λ M, S M ∨ some_deleted keys (contents (map_ kv)) M)).
  { intros v [Hv'|Hv']; [destruct (HV v Hv') as (M & HM & HSM)|destruct (Hs v Hv') as (M & HM & HSM)]; exists M; auto. }
  split; [|done|].
  - split; [done|]. by exists (without_all ids l), m', (λ v, V v ∨ some_erased ids l v).
  - eapply extends_weaken; [|exact Hx]. intros d Hd. by exists (λ v, V v ∨ some_erased ids l v).
Qed.

Lemma length_erase_keys keys M : (length (erase_keys keys M).2 ≤ length keys)%nat.
Proof.
  revert M. induction keys as [|key keys IH]; intros M; cbn; [lia|]. destruct (M !! key) as [[value id]|].
  - specialize (IH (delete key M)). destruct (erase_keys keys (delete key M)) as [M' ids]. cbn in *. lia.
  - specialize (IH M). lia.
Qed.

Lemma erase_batch_spec kv S keys : kv_running kv S → last_id_ (binlog_ kv) + Z.of_nat (length keys) + 1 < 2 ^ 63 →
  ∃ kv' n, erase_batch keys kv = Ok (kv', n) ∧ contents (map_ kv') = deleted keys (contents (map_ kv)) ∧
    kv_goes kv kv' (λ M, S M ∨ some_deleted keys (contents (map_ kv)) M) ∧
    last_id_ (binlog_ kv') ≤ last_id_ (binlog_ kv) + Z.of_nat (length keys).
Proof.
  intros [Hm (l & m & V & Ho & Hml & Hl & HV)] Hroom. destruct (open_view _ _ _ _ Ho) as (k & _ & Hvok).
  destruct (erase_keys_spec keys l _ Hl (view_ids_unique _ _ Hvok)) as (M' & ids & E & Her). pose proof Her as [[Hnd Hin] _ Hc _].
  pose proof (length_erase_keys keys (map_ kv)) as Hlen. rewrite E in Hlen. cbn in Hlen.
  pose proof (open_last _ _ _ _ Ho).
  destruct (erase_each_spec ids _ l m V Ho Hml) as (b' & E' & Hg & Hi); [lia|done|done|].
  set (kv' := mk_BinlogKeyValue M' b' (magic_ kv)).
  assert (Hg' : kv_goes kv kv' (λ M, S M ∨ some_deleted keys (contents (map_ kv)) M)) by (by apply (erased_goes kv kv' S l ids keys (last_id_ b') V Hg HV (Z.le_refl _))).
  unfold erase_batch. rewrite E. cbn [map_ binlog_ magic_].
  destruct (decide (ids = [])) as [->|Hne].
  - rewrite bool_decide_true by done. injection E' as <-. exists kv', 0. split_and!; [done|done|done|cbn; lia].
  - rewrite bool_decide_false by done. unfold Binlog.erase_batch. rewrite bool_decide_false by done.
    unfold next_event_id_shift. rewrite Z.add_0_r.
    assert (Hb : set_last_id (u64 (last_id_ (binlog_ kv))) (binlog_ kv) = binlog_ kv).
    { rewrite u64_small by (unfold two64; lia). by destruct (binlog_ kv). }
    rewrite Hb, E', !bind_Ok_l. exists kv', (u64 (last_id_ (binlog_ kv) + 1)). split_and!; [done|done|done|cbn; lia].
Qed.

(** ** By prefix *)

Lemma erase_keys_found (xs : list (list Z * (list Z * Z))) M : NoDup xs.*1 → Forall (λ x, M !! x.1 = Some x.2) xs →
  erase_keys xs.*1 M = (foldl (λ M key, delete key M) M xs.*1, (λ x, x.2.2) <$> xs).
Proof.
  revert M. induction xs as [|[key [value id]] xs IH]; intros M Hnd Hf; [done|].
  cbn [fmap list_fmap fst] in Hnd. apply NoDup_cons in Hnd as [Hni Hnd]. apply Forall_cons in Hf as [Hx Hf]. cbn in Hx.
  cbn [fmap list_fmap erase_keys fst snd foldl]. rewrite Hx, IH; [done|done|].
  rewrite Forall_forall in Hf |- *. intros y Hy. rewrite lookup_delete_ne; [by apply Hf|]. intros Heq. rewrite Heq in Hni.
  apply Hni, list_elem_of_fmap. by exists y.
Qed.
Lemma foldl_delete_lookup (keys : list (list Z)) (M : gmap (list Z) (list Z * Z)) key :
  foldl (λ M key, delete key M) M keys !! key = if decide (key ∈ keys) then None else M !! key.
Proof.
  revert M. induction keys as [|k keys IH]; intros M; cbn [foldl]; [by rewrite decide_False by apply not_elem_of_nil|].
  rewrite IH. destruct (decide (key ∈ keys)) as [Hin|Hin]; [by rewrite decide_True by by right|].
  destruct (decide (key = k)) as [->|Hne].
  - rewrite decide_True by by left. by rewrite lookup_delete_eq.
  - rewrite decide_False by (by intros [?|?]%elem_of_cons). by rewrite lookup_delete_ne.
Qed.

Lemma next_shift b l m V n : open_log b l m V → m ≤ last_id_ b → 0 ≤ n → last_id_ b + n < 2 ^ 63 →
  ∃ b', next_event_id_shift n b = (b', u64 (last_id_ b + 1)) ∧ goes_on b b' l m V ∧ last_id_ b' = last_id_ b + n.
Proof.
  intros Ho Hml Hn Hroom. pose proof (open_last _ _ _ _ Ho) as Hlast. destruct Ho as (c & es & nd & f & es1 & es2 & Hr & Hl & HV).
  unfold next_event_id_shift. rewrite (u64_small (last_id_ b + n)) by (unfold two64; lia).
  eexists. split; [done|]. split; [|done]. split; [|done|apply extends_refl].
  exists c, es, nd, f, es1, es2. split_and!; [|done..]. by destruct Hr.
Qed.

Lemma erase_events_spec ids kv l m V : open_log (binlog_ kv) l m V → m ≤ last_id_ (binlog_ kv) → NoDup ids → Forall (λ id, id ∈ e_id <$> l) ids →
  ∃ b', erase_events ids kv = Ok (mk_BinlogKeyValue (map_ kv) b' (magic_ kv)) ∧
    goes_on (binlog_ kv) b' (without_all ids l) (last_id_ b') (λ v, V v ∨ some_erased ids l v) ∧
    last_id_ b' = last_id_ (binlog_ kv).
Proof.
  revert kv l m V. induction ids as [|id ids IH]; intros kv l m V Ho Hml Hnd Hin; cbn [erase_events].
  - exists (binlog_ kv). split; [by destruct kv|]. split; [|done]. pose proof (open_last _ _ _ _ Ho).
    split; [|done|apply extends_refl]. eapply open_weaken; [|eapply open_later; [|exact Ho]; lia]. by left.
  - apply NoDup_cons in Hnd as [Hni Hnd]. apply Forall_cons in Hin as [Hin Hins].
    destruct (erase_event _ l m m V id Ho (Z.le_refl _) Hin) as (raw & b1 & E1 & E2 & Hg1 & Hi1). rewrite E1, bind_Ok_l. unfold add_event.
    rewrite E2, !bind_Ok_l. set (kv1 := mk_BinlogKeyValue (map_ kv) b1 (magic_ kv)).
    destruct (IH kv1 _ _ _ (go_open _ _ _ _ _ Hg1)) as (b2 & E & Hg2 & Hi2); [cbn; lia|done| |].
    { rewrite Forall_forall in Hins |- *. intros id' Hid'. apply without_in; [by apply Hins|]. intros Heq. rewrite Heq in Hid'. exact (Hni Hid'). }
    exists b2. split; [exact E|]. split; [|exact (eq_trans Hi2 Hi1)]. eapply goes_trans; [|exact Hg1|].
    + intros v [Hv| ->]; [by left|right; by exists 1%nat].
    + destruct Hg2 as [Ho2 Hk2 Hd2]. cbn [without_all].
      assert (Hw : ∀ v, (V v ∨ v = without id l) ∨ some_erased ids (without id l) v → V v ∨ some_erased (id :: ids) l v).
      { intros v [[Hv| ->]|[k ->]]; [by left|right; by exists 1%nat|right; by exists (Datatypes.S k)]. }
      split; [exact (open_weaken _ _ _ _ _ Hw Ho2)|exact Hk2|]. eapply extends_weaken; [|exact Hd2]. intros d. by apply recoverable_weaken.
Qed.

Section prefix.
Context (visit : list (list Z * (list Z * Z)) → list (list Z * (list Z * Z))) (Hvisit : ∀ xs, visit xs ≡ₚ xs).

(** The elements [erase_by_prefix] finds. *)
Definition with_prefix (prefix : list Z) (M : gmap (list Z) (list Z * Z)) : list (list Z * (list Z * Z)) :=
  filter (λ x, begins_with x.1 prefix = true) (elements visit M).
Lemma with_prefix_elem prefix M x : x ∈ with_prefix prefix M ↔ begins_with x.1 prefix = true ∧ M !! x.1 = Some x.2.
Proof using Hvisit.
  unfold with_prefix, elements. destruct x as [key y].
  rewrite list_elem_of_filter, (Hvisit (map_to_list M)). cbn. by rewrite elem_of_map_to_list.
Qed.
Lemma with_prefix_keys prefix M : NoDup (with_prefix prefix M).*1.
Proof using Hvisit.
  apply NoDup_fmap_fst.
  - intros key y1 y2 [_ H1]%with_prefix_elem [_ H2]%with_prefix_elem. cbn in *. congruence.
  - unfold with_prefix, elements. apply NoDup_filter. rewrite (Hvisit (map_to_list M)). apply NoDup_map_to_list.
Qed.

Lemma with_prefix_size prefix M : (length (with_prefix prefix M).*1 ≤ size M)%nat.
Proof using Hvisit.
  rewrite length_fmap. unfold with_prefix, elements. etrans; [apply length_filter|].
  by rewrite (Hvisit (map_to_list M)), length_map_to_list.
Qed.
Lemma for_each_contents kv : for_each_kv visit kv ≡ₚ map_to_list (contents (map_ kv)).
Proof using Hvisit.
  unfold for_each_kv, elements, contents. rewrite (Hvisit (map_to_list _)), map_to_list_fmap.
  apply reflexive_eq, list_fmap_ext. by intros ? [? ?] ?.
Qed.

Lemma in_prefix prefix M key y : M !! key = Some y →
  key ∈ (with_prefix prefix M).*1 ↔ begins_with key prefix = true.
Proof using Hvisit.
  intros Hy. rewrite list_elem_of_fmap. split.
  - intros ([key' y'] & -> & [Hb _]%with_prefix_elem). done.
  - intros Hb. exists (key, y). split; [done|]. by apply with_prefix_elem.
Qed.
Lemma without_prefix prefix M :
  foldl (λ M key, delete key M) M (with_prefix prefix M).*1 = filter (λ x, begins_with x.1 prefix = false) M.
Proof using Hvisit.
  apply map_eq. intros key. rewrite foldl_delete_lookup, map_lookup_filter. destruct (M !! key) as [y|] eqn:Hy; [|by case_decide].
  pose proof (in_prefix prefix M key y Hy) as Hin. cbn. destruct (begins_with key prefix) eqn:Hb.
  - rewrite decide_True by by apply Hin. done.
  - rewrite decide_False by (intros Hk; by apply Hin in Hk). done.
Qed.
Lemma contents_filter prefix M :
  contents (filter (λ x, begins_with x.1 prefix = false) M) = filter (λ x, begins_with x.1 prefix = false) (contents M).
Proof.
  unfold contents. apply map_eq. intros key. rewrite lookup_fmap, !map_lookup_filter, lookup_fmap.
  destruct (M !! key); [|done]. cbn. by destruct (begins_with key prefix).
Qed.

Lemma erase_by_prefix_spec kv S prefix : kv_running kv S → let keys := (with_prefix prefix (map_ kv)).*1 in
  Z.of_nat (length keys) ≤ INT_MAX → last_id_ (binlog_ kv) + Z.of_nat (length keys) < 2 ^ 63 →
  ∃ kv', erase_by_prefix visit prefix kv = Ok kv' ∧
    contents (map_ kv') = filter (λ x, begins_with x.1 prefix = false) (contents (map_ kv)) ∧
    kv_goes kv kv' (λ M, S M ∨ some_deleted keys (contents (map_ kv)) M) ∧
    last_id_ (binlog_ kv') = last_id_ (binlog_ kv) + Z.of_nat (length keys).
Proof using Type* Hvisit.
  intros [Hm (l & m & V & Ho & Hml & Hl & HV)] keys Hsmall Hroom. destruct (open_view _ _ _ _ Ho) as (k & _ & Hvok).
  destruct (erase_keys_spec keys l _ Hl (view_ids_unique _ _ Hvok)) as (M' & ids & E & Her).
  pose proof Her as [[Hnd Hin] _ _ _].
  assert (Hfound : Forall (λ x, map_ kv !! x.1 = Some x.2) (with_prefix prefix (map_ kv))).
  { rewrite Forall_forall. intros x Hx. by apply with_prefix_elem in Hx as [_ Hx]. }
  unfold keys in E. rewrite (erase_keys_found _ _ (with_prefix_keys prefix (map_ kv)) Hfound) in E.
  injection E as HM' Hids.
  rewrite without_prefix in HM'.
  unfold erase_by_prefix. fold (with_prefix prefix (map_ kv)). rewrite HM', Hids.
  assert (Hlen : length ids = length keys) by (by unfold keys; rewrite <-Hids, !length_fmap).
  rewrite narrow_cast_Ok, bind_Ok_l by lia.
  destruct (next_shift _ l m V (Z.of_nat (length ids)) Ho Hml) as (b1 & E1 & Hg1 & Hi1); [lia|rewrite Hlen; lia|]. rewrite E1.
  destruct (erase_events_spec ids (mk_BinlogKeyValue M' b1 (magic_ kv)) l m V (go_open _ _ _ _ _ Hg1) ltac:(cbn; lia) Hnd Hin) as (b2 & E2 & Hg2 & Hi2).
  rewrite E2. exists (mk_BinlogKeyValue M' b2 (magic_ kv)). split_and!; [done| | |cbn in *; lia].
  - cbn [map_]. rewrite <-HM'. apply contents_filter.
  - apply (erased_goes kv _ S l ids keys (last_id_ b2) V); [|done|cbn; lia|done|done].
    eapply goes_trans; [|exact Hg1|exact Hg2]. by left.
Qed.
End prefix.
End batch.
