(* ===== verification/ConcurrentBinlog.v ===== *)
(** * The concurrent log ([tddb/td/db/binlog/ConcurrentBinlog.cpp], [ConcurrentBinlog.h],
    [BinlogInterface.h])

    Several threads share one log. Each takes the number of its event from an atomic
    counter and sends the event to an actor; the actor gets the events in any order, passes
    them to the log in the order of their numbers, and answers promises when the log has
    been synced, which it does when its timer expires. *)
From S2P Require Import Prelude Bytes TlParsers TlParserFacts TlHelpers BinlogEvent BinlogEventsProcessor FileSystem BinlogState Binlog BinlogFormat BinlogRun BinlogReindex BinlogOps BinlogOpen BinlogInit BinlogCrash OrderedEvents.

(** ** [detail::BinlogActor] *)

Module BinlogActor.
(** Promises are told apart by numbers; an empty promise is [None]. What is only written
    to the log of messages ([debug_info], [source]) is left out. *)
Record Event := { raw_event : list Z; sync_promise : option Z }.
#[export] Instance Event_inhabited : Inhabited Event := populate {| raw_event := []; sync_promise := None |}.

(** The times are in nanoseconds. [flush_since] is what [Binlog::need_flush_since] returns:
    the model of the log has no times. *)
Record Clock := { now_cached : Z; flush_since : Z }.

Record BinlogActor := mk {
  binlog_ : Binlog;
  processor_ : OrderedEventsProcessor Event;
  immediate_sync_promises_ : list (Z * option Z);
  sync_promises_ : list Z;
  force_sync_flag_ : bool;
  lazy_sync_flag_ : bool;
  flush_flag_ : bool;
  wakeup_at_ : Z
}.
Definition mk_BinlogActor (binlog : Binlog) (seq_no : Z) : BinlogActor :=
  mk binlog (mk_OrderedEventsProcessor seq_no) [] [] false false false 0.

Definition set_binlog v a :=
  mk v (processor_ a) (immediate_sync_promises_ a) (sync_promises_ a) (force_sync_flag_ a) (lazy_sync_flag_ a) (flush_flag_ a) (wakeup_at_ a).
Definition set_processor v a :=
  mk (binlog_ a) v (immediate_sync_promises_ a) (sync_promises_ a) (force_sync_flag_ a) (lazy_sync_flag_ a) (flush_flag_ a) (wakeup_at_ a).
Definition set_immediate v a :=
  mk (binlog_ a) (processor_ a) v (sync_promises_ a) (force_sync_flag_ a) (lazy_sync_flag_ a) (flush_flag_ a) (wakeup_at_ a).
Definition set_sync_promises v a :=
  mk (binlog_ a) (processor_ a) (immediate_sync_promises_ a) v (force_sync_flag_ a) (lazy_sync_flag_ a) (flush_flag_ a) (wakeup_at_ a).
Definition set_force_sync_flag v a :=
  mk (binlog_ a) (processor_ a) (immediate_sync_promises_ a) (sync_promises_ a) v (lazy_sync_flag_ a) (flush_flag_ a) (wakeup_at_ a).
Definition set_lazy_sync_flag v a :=
  mk (binlog_ a) (processor_ a) (immediate_sync_promises_ a) (sync_promises_ a) (force_sync_flag_ a) v (flush_flag_ a) (wakeup_at_ a).
Definition set_flush_flag v a :=
  mk (binlog_ a) (processor_ a) (immediate_sync_promises_ a) (sync_promises_ a) (force_sync_flag_ a) (lazy_sync_flag_ a) v (wakeup_at_ a).
Definition set_wakeup_at v a :=
  mk (binlog_ a) (processor_ a) (immediate_sync_promises_ a) (sync_promises_ a) (force_sync_flag_ a) (lazy_sync_flag_ a) (flush_flag_ a) v.

Section actor.
Context `{Crypto}.

Definition FLUSH_TIMEOUT : Z := 1000000.

(** The timer of the actor is set to [wakeup_at_], and is not set when that is 0. *)
Definition wakeup_at (at_ : Z) (a : BinlogActor) : BinlogActor :=
  if (wakeup_at_ a =? 0) || (at_ <? wakeup_at_ a) then set_wakeup_at at_ a else a.
Definition wakeup_after (c : Clock) (after : Z) (a : BinlogActor) : BinlogActor :=
  wakeup_at (now_cached c + after) a.

Definition try_flush (c : Clock) (a : BinlogActor) : outcome BinlogActor :=
  if flush_since c + FLUSH_TIMEOUT - 1 <? now_cached c then
    b ← flush (binlog_ a); Ok (set_binlog b a)
  else if negb (force_sync_flag_ a) then
    Ok (wakeup_at (flush_since c + FLUSH_TIMEOUT) (set_flush_flag true a))
  else Ok a.

Definition do_immediate_sync (c : Clock) (promise : option Z) (a : BinlogActor) : BinlogActor :=
  let a := match promise with Some p => set_sync_promises (sync_promises_ a ++ [p]) a | None => a end in
  if negb (force_sync_flag_ a) then wakeup_after c 3000000 (set_force_sync_flag true a) else a.

Definition do_lazy_sync (c : Clock) (promise : option Z) (a : BinlogActor) : BinlogActor :=
  match promise with
  | None => a
  | Some p =>
      let a := set_sync_promises (sync_promises_ a ++ [p]) a in
      if negb (lazy_sync_flag_ a) && negb (force_sync_flag_ a)
      then set_lazy_sync_flag true (wakeup_after c 30000000000 a) else a
  end.

(** The loop of [flush_immediate_sync], over the promises from the first on. *)
Fixpoint flush_immediate (c : Clock) (seq_no : Z) (l : list (Z * option Z)) (a : BinlogActor) : BinlogActor :=
  match l with
  | (n, promise) :: l' =>
      if n <=? seq_no then flush_immediate c seq_no l' (do_immediate_sync c promise a)
      else set_immediate l a
  | [] => set_immediate [] a
  end.
Definition flush_immediate_sync (c : Clock) (a : BinlogActor) : BinlogActor :=
  flush_immediate c (max_finished_seq_no (processor_ a)) (immediate_sync_promises_ a) a.

(** The function that [add_raw_event] gives to the processor. *)
Definition process (c : Clock) (a : BinlogActor) (x : Z * Event) : outcome BinlogActor :=
  let event := x.2 in
  b ← (if negb (bool_decide (raw_event event = [])) then add_raw_event (raw_event event) (binlog_ a)
       else Ok (binlog_ a));
  Ok (do_lazy_sync c (sync_promise event) (set_binlog b a)).

Definition actor_add (c : Clock) (seq_no : Z) (event : Event) (a : BinlogActor) : outcome BinlogActor :=
  '(p, calls) ← OrderedEvents.add seq_no event (processor_ a);
  a ← ofold (process c) (set_processor p a) calls;
  try_flush c (flush_immediate_sync c a).

(** Between two events of a batch the times go on: [cs] has those for each event. *)
Fixpoint actor_erase_batch (cs : nat → Clock) (seq_no : Z) (event_ids : list Z) (a : BinlogActor) : outcome BinlogActor :=
  match event_ids with
  | [] => Ok a
  | event_id :: event_ids =>
      event ← create_raw crc32 event_id Empty_type Rewrite_flag EmptyStorer;
      a ← actor_add (cs 0%nat) seq_no {| raw_event := event; sync_promise := None |} a;
      actor_erase_batch (cs ∘ S) (u64 (seq_no + 1)) event_ids a
  end.

(** [multimap::emplace] *)
Fixpoint emplace (n : Z) (promise : option Z) (l : list (Z * option Z)) : list (Z * option Z) :=
  match l with
  | x :: l' => if x.1 <=? n then x :: emplace n promise l' else (n, promise) :: l
  | [] => [(n, promise)]
  end.
Definition force_sync (c : Clock) (promise : option Z) (a : BinlogActor) : BinlogActor :=
  let seq_no := max_unfinished_seq_no (processor_ a) in
  if max_finished_seq_no (processor_ a) =? seq_no then do_immediate_sync c promise a
  else set_immediate (emplace seq_no promise (immediate_sync_promises_ a)) a.

Definition force_flush (a : BinlogActor) : outcome BinlogActor :=
  b ← flush (binlog_ a); Ok (set_flush_flag false (set_binlog b a)).

(** With the promises that are answered. *)
Definition timeout_expired (c : Clock) (a : BinlogActor) : outcome (BinlogActor * list Z) :=
  let need_sync := lazy_sync_flag_ a || force_sync_flag_ a in
  let need_flush := flush_flag_ a in
  let a := set_wakeup_at 0 (set_flush_flag false (set_force_sync_flag false (set_lazy_sync_flag false a))) in
  if need_sync then
    b ← sync (binlog_ a);
    Ok (set_sync_promises [] (set_binlog b a), sync_promises_ a)
  else if need_flush then a ← try_flush c a; Ok (a, [])
  else Ok (a, []).

(** [change_key] answers its promise; so do [close] and [close_and_destroy], after which
    the actor is no more: what is left is the log. *)
Definition actor_change_key (db_key : DbKey) (promise : option Z) (a : BinlogActor) : outcome (BinlogActor * list Z) :=
  b ← change_key db_key (binlog_ a); Ok (set_binlog b a, option_list promise).
Definition actor_close (promise : option Z) (a : BinlogActor) : outcome (Binlog * list Z) :=
  b ← close true (binlog_ a); Ok (b, option_list promise).
Definition actor_close_and_destroy (promise : option Z) (a : BinlogActor) : outcome (Binlog * list Z) :=
  b ← close_and_destroy (binlog_ a); Ok (b, option_list promise).
End actor.
End BinlogActor.
Import BinlogActor.

(** ** [ConcurrentBinlog] *)

(** The messages with events that [send_closure] sends to the actor. The other messages
    change nothing until they arrive, so that sending them is no step of its own. *)
Inductive actor_message :=
  | AddRawEvent (seq_no : Z) (event : Event)
  | EraseBatch (seq_no : Z) (event_ids : list Z).
(** What threads ask of the log: an operation, or [lazy_sync]. *)
Inductive request := Operation (o : log_op) | LazySync.

(** [last_event_id_] is the counter, [sent_] are the messages that have not arrived. The
    rest is a record of what happened: the requests in the order of their numbers, the
    numbers of the events that have arrived, the promises with the numbers of the events
    each of them waits for, and the promises that have been answered. *)
Record system := mk_system {
  last_event_id_ : Z;
  sent_ : list actor_message;
  actor_ : BinlogActor;
  requests : list request;
  arrived : list Z;
  promises : list (Z * list Z);
  answered : list Z
}.
(** [init_impl] *)
Definition init_impl (binlog : Binlog) : system :=
  let last_event_id := u64 (last_id_ binlog + 1) in
  mk_system last_event_id [] (mk_BinlogActor binlog last_event_id) [] [] [] [].

(** [next_event_id(int32 shift)]; the other one adds 1. *)
Definition fetch_add (shift : Z) (s : system) : system * Z :=
  (mk_system (u64 (last_event_id_ s + shift)) (sent_ s) (actor_ s) (requests s) (arrived s) (promises s) (answered s),
   last_event_id_ s).
Definition send (m : actor_message) (s : system) : system :=
  mk_system (last_event_id_ s) (sent_ s ++ [m]) (actor_ s) (requests s) (arrived s) (promises s) (answered s).
Definition add_raw_event_impl (event_id : Z) (raw_event : list Z) (promise : option Z) (s : system) : system :=
  send (AddRawEvent event_id {| raw_event := raw_event; sync_promise := promise |}) s.

Section concurrent.
Context `{Crypto}.

(** [add], [rewrite], [erase] and [lazy_sync] of [BinlogInterface]. *)
Definition issue (r : request) (promise : option Z) (s : system) : outcome system :=
  let '(s, seq_no) := fetch_add 1 s in
  match r with
  | Operation (AddOp type data) =>
      raw ← create_raw crc32 seq_no type 0 (SliceStorer data); Ok (add_raw_event_impl seq_no raw promise s)
  | Operation (RewriteOp event_id type data) =>
      raw ← create_raw crc32 event_id type Rewrite_flag (SliceStorer data);
      Ok (add_raw_event_impl seq_no raw promise s)
  | Operation (EraseOp event_id) =>
      raw ← create_raw crc32 event_id Empty_type Rewrite_flag EmptyStorer;
      Ok (add_raw_event_impl seq_no raw promise s)
  | LazySync => Ok (add_raw_event_impl seq_no [] promise s)
  end.
Definition erase_batch_impl (event_ids : list Z) (s : system) : outcome (system * Z) :=
  shift ← narrow_cast_int32 (Z.of_nat (length event_ids));
  if shift =? 0 then Ok (s, 0)
  else
    let '(s, seq_no) := fetch_add shift s in
    Ok (send (EraseBatch seq_no event_ids) s, seq_no).

(** A message arrives at the actor. *)
Definition deliver (cs : nat → Clock) (m : actor_message) (a : BinlogActor) : outcome BinlogActor :=
  match m with
  | AddRawEvent seq_no event => actor_add (cs 0%nat) seq_no event a
  | EraseBatch seq_no event_ids => actor_erase_batch cs seq_no event_ids a
  end.
Definition numbers (m : actor_message) : list Z :=
  match m with
  | AddRawEvent seq_no _ => [seq_no]
  | EraseBatch seq_no event_ids => seqZ seq_no (Z.of_nat (length event_ids))
  end.
End concurrent.

(** *** The entries the requests stand for *)

Definition after_request (s : log_state) (r : request) : log_state :=
  match r with Operation o => op_step s o | LazySync => (s.1, s.2 + 1) end.
Definition state_of (rs : list request) : log_state := foldl after_request log_start rs.
Definition request_ok (s : log_state) (r : request) : Prop :=
  match r with Operation o => log_op_ok s o | LazySync => True end.
Fixpoint requests_ok (s : log_state) (rs : list request) : Prop :=
  match rs with [] => True | r :: rs => request_ok s r ∧ requests_ok (after_request s r) rs end.

Definition with_record (rs : list request) (ps : list (Z * list Z)) (s : system) : system :=
  mk_system (last_event_id_ s) (sent_ s) (actor_ s) (requests s ++ rs) (arrived s) (ps ++ promises s) (answered s).
Definition with_actor (a : BinlogActor) (s : system) : system :=
  mk_system (last_event_id_ s) (sent_ s) a (requests s) (arrived s) (promises s) (answered s).
Definition with_arrived (ms : list actor_message) (ns : list Z) (s : system) : system :=
  mk_system (last_event_id_ s) ms (actor_ s) (requests s) (ns ++ arrived s) (promises s) (answered s).
Definition with_answered (ps : list Z) (s : system) : system :=
  mk_system (last_event_id_ s) (sent_ s) (actor_ s) (requests s) (arrived s) (promises s) (ps ++ answered s).

(** *** The steps *)

Definition clock_ok (c : Clock) : Prop := 0 < now_cached c ∧ 0 ≤ flush_since c.
(** A promise is given once. *)
Definition new_promise (promise : option Z) (s : system) : Prop :=
  ∀ p, promise = Some p → p ∉ (promises s).*1.
(** What it waits for. *)
Definition waits_for (promise : option Z) (ns : list Z) : list (Z * list Z) :=
  (λ p, (p, ns)) <$> option_list promise.

Section steps.
Context `{Crypto}.

(** Threads make requests that fit the entries in force after all requests before; there
    is room for another number. Messages arrive in any order, and between them come
    [force_sync], [force_flush] and, when the timer is set, its expiry. *)
Inductive system_step : system → system → Prop :=
  | step_issue r promise s s' :
      last_event_id_ s < 2 ^ 62 → request_ok (state_of (requests s)) r → new_promise promise s →
      issue r promise s = Ok s' →
      system_step s (with_record [r] (waits_for promise [last_event_id_ s]) s')
  | step_erase_batch event_ids s s' n :
      last_event_id_ s + Z.of_nat (length event_ids) < 2 ^ 62 →
      requests_ok (state_of (requests s)) (Operation ∘ EraseOp <$> event_ids) →
      erase_batch_impl event_ids s = Ok (s', n) →
      system_step s (with_record (Operation ∘ EraseOp <$> event_ids) [] s')
  | step_deliver cs m ms1 ms2 s a :
      (∀ i, clock_ok (cs i)) → sent_ s = ms1 ++ m :: ms2 → deliver cs m (actor_ s) = Ok a →
      system_step s (with_actor a (with_arrived (ms1 ++ ms2) (numbers m) s))
  | step_force_sync c promise s :
      clock_ok c → new_promise promise s →
      system_step s (with_record [] (waits_for promise (arrived s)) (with_actor (force_sync c promise (actor_ s)) s))
  | step_force_flush s a :
      force_flush (actor_ s) = Ok a → system_step s (with_actor a s)
  | step_timeout c s a ps :
      clock_ok c → wakeup_at_ (actor_ s) ≠ 0 → timeout_expired c (actor_ s) = Ok (a, ps) →
      system_step s (with_answered ps (with_actor a s)).
End steps.

(** ** The requests, in the log *)

Lemma state_of_last rs : (state_of rs).2 = Z.of_nat (length rs).
Proof.
  unfold state_of. induction rs as [|r rs IH] using rev_ind; [done|].
  rewrite foldl_snoc, length_app. cbn [length]. destruct r as [[]|]; cbn; lia.
Qed.
Lemma state_of_take rs k r : rs !! k = Some r →
  state_of (take (S k) rs) = after_request (state_of (take k rs)) r.
Proof. intros Hr. unfold state_of. by rewrite (take_S_r _ _ r), foldl_snoc. Qed.
Lemma requests_ok_app s rs1 rs2 : requests_ok s (rs1 ++ rs2) ↔ requests_ok s rs1 ∧ requests_ok (foldl after_request s rs1) rs2.
Proof. revert s. induction rs1 as [|r rs1 IH]; intros s; cbn; [naive_solver|]. rewrite IH. naive_solver. Qed.
Lemma requests_ok_at rs k r : requests_ok log_start rs → rs !! k = Some r → request_ok (state_of (take k rs)) r.
Proof.
  intros Hok Hr. rewrite <-(take_drop_middle rs k r Hr), requests_ok_app in Hok. by destruct Hok as [_ [? _]].
Qed.
(** After some number from [j] to [k] of the requests. *)
Definition between (rs : list request) (j k : nat) (v : list entry) : Prop :=
  ∃ i, (j ≤ i ≤ k)%nat ∧ v = (state_of (take i rs)).1.
Lemma between_weaken rs rs' j j' k k' v : rs `prefix_of` rs' → (k ≤ length rs)%nat → (j' ≤ j)%nat → (k ≤ k')%nat →
  between rs j k v → between rs' j' k' v.
Proof.
  intros [rs2 ->] Hk Hj Hk' (i & Hi & ->). exists i. split; [lia|]. by rewrite take_app_le by lia.
Qed.

(** All events that [p] waits for have numbers up to [n]. *)
Definition covered (ps : list (Z * list Z)) (p n : Z) : Prop :=
  p ∈ ps.*1 ∧ ∀ ns, (p, ns) ∈ ps → Forall (λ x, x ≤ n) ns.
Lemma covered_mono ps p x y : x ≤ y → covered ps p x → covered ps p y.
Proof. intros Hxy [H1 H2]. split; [done|]. intros ns Hns. eapply Forall_impl; [by apply H2|]. cbn. lia. Qed.
Lemma covered_new ps qs p n : (∀ q, q ∈ qs.*1 → q ∉ ps.*1) → covered ps p n → covered (qs ++ ps) p n.
Proof.
  intros Hq [H1 H2]. split; [rewrite fmap_app; set_solver|]. intros ns [Hns|Hns]%elem_of_app; [|by apply H2].
  destruct (Hq p); [|done]. apply list_elem_of_fmap. by exists (p, ns).
Qed.
Lemma covered_first ps p ns n : p ∉ ps.*1 → Forall (λ x, x ≤ n) ns → covered ((p, ns) :: ps) p n.
Proof.
  intros Hp Hns. split; [by left|]. intros ns' [[= ->]|Hns']%elem_of_cons; [done|].
  destruct Hp. apply list_elem_of_fmap. by exists (p, ns').
Qed.

Section facts.
Context `{CryptoLaws}.
#[local] Set Default Proof Using "Type*".

Definition op_entry (n : Z) (o : log_op) : entry :=
  match o with
  | AddOp type data => {| e_id := n; e_type := type; e_flags := 0; e_data := data |}
  | RewriteOp id type data => {| e_id := id; e_type := type; e_flags := Rewrite_flag; e_data := data |}
  | EraseOp id => erasing id
  end.
Definition raw_of (n : Z) (r : request) : list Z :=
  match r with Operation o => event_bytes crc32 (op_entry n o) | LazySync => [] end.

Lemma op_valid b l m V n o : open_log b l m V → m ≤ n → n + 1 < 2 ^ 63 → log_op_ok (l, n) o →
  let e := op_entry (n + 1) o in
  log_valid (l, m) e ∧ entry_small e ∧ e_id e ≤ n + 1 ∧ (log_step (l, m) e).1 = (op_step (l, n) o).1.
Proof.
  intros Ho Hm Hmax Hok. pose proof (open_last _ _ _ _ Ho). destruct o as [type data|id type data|id]; cbn [log_op_ok op_entry op_step fst snd] in *.
  - destruct (data_entry type _ data (n + 1) 0 (slice_data_ok _ _ Hok)) as [He1 He2]; [lia|by left|].
    destruct Hok. split_and!; [|done|cbn; lia|].
    + split; [done|cbn; lia|by left|]. right. cbn. lia.
    + unfold log_step. by rewrite bool_decide_false by naive_solver.
  - destruct Hok as [Hin Hok]. destruct (open_id _ _ _ _ _ Ho Hin) as [Hid Hidm].
    destruct (data_entry type _ data id Rewrite_flag (slice_data_ok _ _ Hok)) as [He1 He2]; [done|by right|].
    destruct Hok as [[? ?] ? ?]. split_and!; [|done|cbn; lia|].
    + split; [done|done|by right|]. left. split_and!; [done..|by right].
    + unfold log_step. rewrite bool_decide_true, (proj2 (Z.eqb_neq _ _)); [done|cbn; unfold Empty_type; lia|done].
  - destruct (erasing_valid _ _ _ _ _ Ho Hok) as (Hv & Hs & Hidm & Hl'). split_and!; [done..|cbn; lia|done].
Qed.
Lemma raw_nonempty e : event_bytes crc32 e ≠ [].
Proof.
  intros Hx. apply (f_equal length) in Hx. pose proof (length_event_bytes crc32 e) as Hl. rewrite Hx in Hl.
  unfold entry_size, MIN_SIZE, HEADER_SIZE, TAIL_SIZE in Hl. cbn in Hl. lia.
Qed.

(** ** The actor *)

(** One event is passed on. *)
Lemma process_spec c a r n promise s V : open_log (binlog_ a) s.1 s.2 V → s.2 + 1 < 2 ^ 63 → request_ok s r →
  let s' := after_request s r in
  ∃ b', process c a (n, {| raw_event := raw_of (s.2 + 1) r; sync_promise := promise |}) =
      Ok (do_lazy_sync c promise (set_binlog b' a)) ∧
    goes_on (binlog_ a) b' s'.1 s'.2 (λ v, V v ∨ v = s'.1).
Proof.
  intros Ho Hmax Hok s'. unfold process. cbn [fst snd BinlogActor.raw_event sync_promise]. destruct r as [o|]; cbn [raw_of].
  - destruct s as [l n0]. cbn [fst snd] in *. destruct (op_valid _ l n0 V n0 o Ho (Z.le_refl _) Hmax Hok) as (Hv & Hs & Hid & Hl).
    rewrite bool_decide_false by apply raw_nonempty. cbn [negb]. unfold add_raw_event, mk_BinlogEvent.
    rewrite (init_spec crc32), bind_Ok_l by apply (lv_ok _ _ Hv).
    destruct (add_event_spec (binlog_ a) l n0 (n0 + 1) V _ (-1) Ho Hv Hs ltac:(lia) Hid) as (b' & E & Hg & _).
    change (BinlogEvent.offset_ new_event) with (-1). rewrite E, bind_Ok_l. exists b'. split; [done|]. rewrite Hl in Hg.
    unfold s'. by destruct o.
  - exists (binlog_ a). split; [done|]. split; [|done|apply extends_refl].
    eapply open_weaken; [|eapply open_later; [|exact Ho]; cbn; lia]. by left.
Qed.

Lemma lazy_sync_log c promise b a : do_lazy_sync c promise (set_binlog b a) = set_binlog b (do_lazy_sync c promise a).
Proof.
  destruct promise as [p|]; [|done]. unfold do_lazy_sync, wakeup_after, wakeup_at. destruct a. cbn.
  by repeat case_match.
Qed.
(** The events of some of the requests. *)
Definition event_matches (rs : list request) (x : Z * Event) : Prop :=
  ∃ r, 0 < x.1 ∧ rs !! Z.to_nat (x.1 - 1) = Some r ∧ raw_event x.2 = raw_of x.1 r.
Definition lazy_syncs (c : Clock) (calls : list (Z * Event)) (a : BinlogActor) : BinlogActor :=
  foldl (λ a x, do_lazy_sync c (sync_promise x.2) a) a calls.

Lemma lazy_syncs_log c calls b a : lazy_syncs c calls (set_binlog b a) = set_binlog b (lazy_syncs c calls a).
Proof. revert a. induction calls as [|x calls IH]; intros a; [done|]. unfold lazy_syncs in *. cbn. by rewrite lazy_sync_log, IH. Qed.
Lemma goes_weaken b b' l m (V V' : list entry → Prop) : (∀ v, V v → V' v) → goes_on b b' l m V → goes_on b b' l m V'.
Proof.
  intros HV [Ho Hk Hd]. split; [by eapply open_weaken|done|]. eapply extends_weaken; [|exact Hd]. intros d. by apply recoverable_weaken.
Qed.

(** A run of events is passed on. *)
Lemma run_calls c rs calls a k V : requests_ok log_start rs → Z.of_nat (length rs) < 2 ^ 62 →
  open_log (binlog_ a) (state_of (take k rs)).1 (Z.of_nat k) V →
  calls.*1 = seqZ (Z.of_nat k + 1) (Z.of_nat (length calls)) → Forall (event_matches rs) calls →
  let k' := (k + length calls)%nat in (k' ≤ length rs)%nat →
  ∃ b', ofold (process c) a calls = Ok (set_binlog b' (lazy_syncs c calls a)) ∧
    goes_on (binlog_ a) b' (state_of (take k' rs)).1 (Z.of_nat k') (λ v, V v ∨ between rs k k' v).
Proof.
  intros Hok Hmax. revert a k V. induction calls as [|[n ev] calls IH]; intros a k V Ho Hn Hev k' Hk.
  - exists (binlog_ a). split; [by destruct a|]. unfold k'. rewrite Nat.add_0_r. apply goes_refl.
    eapply open_weaken; [|exact Ho]. by left.
  - cbn [length fmap list_fmap] in Hn, Hk. rewrite Nat2Z.inj_succ, seqZ_cons' in Hn by lia. injection Hn as -> Hn. cbn [fst] in Hn.
    apply Forall_cons in Hev as [(r & _ & Hr & Hraw) Hev]. cbn [fst snd] in Hr, Hraw.
    replace (Z.to_nat (Z.of_nat k + 1 - 1)) with k in Hr by lia.
    apply lookup_lt_Some in Hr as Hlt. unfold k' in *. cbn [length] in Hk |- *. clear k'.
    pose proof (state_of_take rs k r Hr) as Hst. pose proof (state_of_last (take k rs)) as Hl. rewrite length_take, Nat.min_l in Hl by lia.
    destruct ev as [raw promise]. cbn [raw_event] in Hraw. rewrite <-Hl in Hraw, Ho |- *. subst raw.
    destruct (process_spec c a r ((state_of (take k rs)).2 + 1) promise (state_of (take k rs)) V Ho) as (b1 & E1 & Hg1); [lia|by apply requests_ok_at|].
    rewrite <-Hst in Hg1. pose proof (state_of_last (take (S k) rs)) as Hl1. rewrite length_take, Nat.min_l in Hl1 by lia.
    rewrite Hl1 in Hg1.
    set (a1 := do_lazy_sync c promise (set_binlog b1 a)) in *.
    assert (Ha1 : binlog_ a1 = b1) by (unfold a1; by rewrite lazy_sync_log).
    destruct (IH a1 (S k) (λ v, V v ∨ v = (state_of (take (S k) rs)).1)) as (b2 & E2 & Hg2).
    + rewrite Ha1. apply Hg1.
    + rewrite Hn. f_equal. lia.
    + done.
    + lia.
    + exists b2. cbn [ofold]. rewrite E1, bind_Ok_l, E2. split.
      * f_equal. unfold a1. rewrite lazy_sync_log, lazy_syncs_log. done.
      * rewrite <-Nat.add_succ_comm. rewrite Ha1 in Hg2.
        eapply goes_trans; [|exact Hg1|eapply goes_weaken; [|exact Hg2]].
        -- intros v [Hv| ->]; [by left|right]. exists (S k). split; [lia|done].
        -- intros v [[Hv| ->]|(i & Hi & ->)]; [by left|right; exists (S k); split; [lia|done]|right; exists i; split; [lia|done]].
Qed.
(** *** The promises and the timer *)

(** While a promise waits for the timer, the timer is set. *)
Record timer_ok (a : BinlogActor) : Prop := {
  tm_wakeup : 0 ≤ wakeup_at_ a;
  tm_set : lazy_sync_flag_ a || force_sync_flag_ a = true → wakeup_at_ a ≠ 0;
  tm_promises : sync_promises_ a ≠ [] → lazy_sync_flag_ a || force_sync_flag_ a = true;
}.
(** More promises wait for the timer; the log and the events are the same. *)
Record more_promises (ps : list Z) (a a' : BinlogActor) : Prop := {
  mp_promises : sync_promises_ a' = sync_promises_ a ++ ps;
  mp_same : binlog_ a' = binlog_ a ∧ processor_ a' = processor_ a;
  mp_timer : timer_ok a → timer_ok a';
}.
Lemma more_none a : more_promises [] a a.
Proof. split; [by rewrite app_nil_r|done|done]. Qed.
Lemma more_immediate l a : more_promises [] a (set_immediate l a).
Proof. split; [by cbn; rewrite app_nil_r|done|]. by intros []. Qed.
Lemma more_trans ps1 ps2 a1 a2 a3 : more_promises ps1 a1 a2 → more_promises ps2 a2 a3 → more_promises (ps1 ++ ps2) a1 a3.
Proof. intros [E1 [S1 T1] H1] [E2 [S2 T2] H2]. split; [by rewrite E2, E1, app_assoc|split; congruence|auto]. Qed.

(** The cases of the flags and the timer. *)
Ltac actor_cases :=
  unfold do_lazy_sync, do_immediate_sync, wakeup_after, wakeup_at, FLUSH_TIMEOUT in *;
  repeat match goal with
    | a : BinlogActor |- _ => let f := fresh "f" in let l := fresh "l" in destruct a as [? ? ? ? f l ? ?]; destruct f, l
    | p : option Z |- _ => destruct p
    end; cbn in *; repeat (case_match; cbn in *).
Ltac timer_cases :=
  intros [Hw Hs Hp]; actor_cases; try specialize (Hs eq_refl); split; cbn; intros; try done; auto; lia.
Lemma lazy_sync_spec c promise a : clock_ok c → let a' := do_lazy_sync c promise a in
  more_promises (option_list promise) a a' ∧ immediate_sync_promises_ a' = immediate_sync_promises_ a.
Proof.
  intros [Hc _] a'. unfold a'. clear a'. split; [|by actor_cases].
  split; [by actor_cases; rewrite ?app_nil_r|by actor_cases|timer_cases].
Qed.
Lemma immediate_sync_spec c promise a : clock_ok c → let a' := do_immediate_sync c promise a in
  more_promises (option_list promise) a a' ∧ immediate_sync_promises_ a' = immediate_sync_promises_ a.
Proof.
  intros [Hc _] a'. unfold a'. clear a'. split; [|by actor_cases].
  split; [by actor_cases; rewrite ?app_nil_r|by actor_cases|timer_cases].
Qed.
Lemma lazy_syncs_spec c calls a : clock_ok c → let a' := lazy_syncs c calls a in
  more_promises (omap (λ x, sync_promise x.2) calls) a a' ∧ immediate_sync_promises_ a' = immediate_sync_promises_ a.
Proof.
  intros Hc. revert a. induction calls as [|[n ev] calls IH]; intros a; [split; [apply more_none|done]|].
  destruct (lazy_sync_spec c (sync_promise ev) a Hc) as [H1 E1].
  destruct (IH (do_lazy_sync c (sync_promise ev) a)) as [H2 E2]. split; [|by etrans].
  pose proof (more_trans _ _ _ _ _ H1 H2) as Hm. cbn. by destruct (sync_promise ev).
Qed.

Definition by_number (x y : Z * option Z) : Prop := x.1 ≤ y.1.
Lemma flush_immediate_spec c seq_no l a : clock_ok c → StronglySorted by_number l →
  ∃ l1 l2, l = l1 ++ l2 ∧ Forall (λ x, x.1 ≤ seq_no) l1 ∧ Forall (λ x, seq_no < x.1) l2 ∧
    let a' := flush_immediate c seq_no l a in more_promises (omap snd l1) a a' ∧ immediate_sync_promises_ a' = l2.
Proof.
  intros Hc. revert a. induction l as [|[n promise] l IH]; intros a Hs.
  - exists [], []. do 3 (split; [done|]). split; [apply more_immediate|done].
  - apply StronglySorted_inv in Hs as [Hs Hn]. cbn [flush_immediate]. destruct (Z.leb_spec n seq_no).
    + destruct (immediate_sync_spec c promise a Hc) as [Hm1 _].
      destruct (IH (do_immediate_sync c promise a) Hs) as (l1 & l2 & -> & Hl1 & Hl2 & Hm2 & E2).
      exists ((n, promise) :: l1), l2. split; [done|]. split; [by constructor|]. split; [done|]. split; [|done].
      pose proof (more_trans _ _ _ _ _ Hm1 Hm2) as Hm. cbn. by destruct promise.
    + exists [], ((n, promise) :: l). do 2 (split; [done|]). split; [|split; [apply more_immediate|done]].
      constructor; [done|]. eapply Forall_impl; [exact Hn|]. unfold by_number. cbn. intros x ?. lia.
Qed.

Lemma emplace_spec n promise l : StronglySorted by_number l →
  StronglySorted by_number (emplace n promise l) ∧ emplace n promise l ≡ₚ (n, promise) :: l.
Proof.
  induction 1 as [|x l Hs [IH1 IH2] Hx]; cbn [emplace]; [by split; [repeat constructor|]|].
  destruct (Z.leb_spec x.1 n).
  - split.
    + constructor; [done|]. rewrite IH2. by constructor.
    + rewrite IH2. apply Permutation_swap.
  - split; [|done]. constructor; [by constructor|]. constructor; [unfold by_number; cbn; lia|].
    eapply Forall_impl; [exact Hx|]. unfold by_number. cbn. lia.
Qed.

Lemma try_flush_spec c a l m V : clock_ok c → open_log (binlog_ a) l m V →
  ∃ a', try_flush c a = Ok a' ∧ goes_on (binlog_ a) (binlog_ a') l m V ∧ processor_ a' = processor_ a ∧
    immediate_sync_promises_ a' = immediate_sync_promises_ a ∧ sync_promises_ a' = sync_promises_ a ∧ (timer_ok a → timer_ok a').
Proof.
  intros [Hc1 Hc2] Ho. unfold try_flush. destruct (flush_open _ _ _ _ Ho) as (b' & E & Hg & _).
  destruct (Z.ltb_spec (flush_since c + FLUSH_TIMEOUT - 1) (now_cached c)).
  - rewrite E, bind_Ok_l. eexists. split; [done|]. split_and!; [done..|]. by intros [].
  - apply goes_refl in Ho. case_match; (eexists; split; [done|]); [|by split_and!].
    split_and!; [by actor_cases..|timer_cases].
Qed.
(** *** The invariant *)

(** [C p n]: all events the promise [p] waits for have numbers up to [n]. *)
Section invariant.
Context (db_key : DbKey) (rs : list request) (C : Z → Z → Prop).

(** [k] of the requests [rs] have been passed to the log, and [j] survive a crash; the
    events of [m] wait for those before them. *)
Record actor_ok (a : BinlogActor) (j k : nat) (m : gmap Z Event) : Prop := {
  ao_count : (j ≤ k ≤ length rs)%nat;
  ao_log : open_log (binlog_ a) (state_of (take k rs)).1 (Z.of_nat k) (between rs j k) ∧ db_key_ (binlog_ a) = db_key;
  ao_ordered : ordered (processor_ a) (Z.of_nat k + 1) m;
  ao_end : end_ (processor_ a) ≤ Z.of_nat (length rs) + 1;
  ao_waiting n event : m !! n = Some event → event_matches rs (n, event) ∧ ∀ p, sync_promise event = Some p → C p n;
  ao_timer : timer_ok a;
  ao_promises : Forall (λ p, C p (Z.of_nat k)) (sync_promises_ a);
  ao_sorted : StronglySorted by_number (immediate_sync_promises_ a);
  ao_immediate : Forall (λ x, x.1 ≤ Z.of_nat (length rs) ∧ ∀ p, x.2 = Some p → C p x.1) (immediate_sync_promises_ a);
}.
(** The promises of [force_sync] that are kept wait for events that have not come. *)
Definition on_time (k : nat) (a : BinlogActor) : Prop :=
  Forall (λ x, Z.of_nat k < x.1) (immediate_sync_promises_ a).
(** Promises that have been given to the actor and not answered. *)
Definition holds_promise (a : BinlogActor) (m : gmap Z Event) (p : Z) : Prop :=
  p ∈ sync_promises_ a ∨ Some p ∈ (immediate_sync_promises_ a).*2 ∨ ∃ n event, m !! n = Some event ∧ sync_promise event = Some p.

(** The events [l] arrive. *)
Record actor_goes (l : list (Z * Event))
    (a : BinlogActor) (j k : nat) (m : gmap Z Event) (a' : BinlogActor) (k' : nat) (m' : gmap Z Event) : Prop := {
  ag_ok : actor_ok a' j k' m';
  ag_on_time : on_time k' a';
  ag_count : (k ≤ k')%nat;
  ag_disks : extends (recoverable db_key (between rs j k')) (fs_ (binlog_ a)) (fs_ (binlog_ a'));
  ag_numbers n : Z.of_nat k < n → n ∈ l.*1 ∨ is_Some (m !! n) ↔ n ≤ Z.of_nat k' ∨ is_Some (m' !! n);
  ag_promises p : holds_promise a m p ∨ Some p ∈ (λ x, sync_promise x.2) <$> l → holds_promise a' m' p;
}.
Lemma waiting_after a j k m n : actor_ok a j k m → is_Some (m !! n) → Z.of_nat k < n ∧ n < end_ (processor_ a).
Proof.
  intros Ha [event Hn]. destruct (or_waiting _ _ _ (ao_ordered _ _ _ _ Ha)) as [_ _ _ _ _ Hw].
  destruct (Hw n event Hn) as [? _]. lia.
Qed.
Lemma actor_goes_trans l1 l2 a1 a2 a3 j k1 k2 k3 m1 m2 m3 : (k3 ≤ length rs)%nat →
  actor_goes l1 a1 j k1 m1 a2 k2 m2 → actor_goes l2 a2 j k2 m2 a3 k3 m3 → actor_goes (l1 ++ l2) a1 j k1 m1 a3 k3 m3.
Proof.
  intros Hk3 [O1 T1 K1 D1 N1 P1] [O2 T2 K2 D2 N2 P2]. split; [done|done|lia| | |].
  - eapply extends_trans; [|exact D2]. eapply extends_weaken; [|exact D1]. intros d.
    apply recoverable_weaken. intros v. apply between_weaken; [done|lia|lia|lia].
  - intros n Hn. specialize (N1 n Hn). rewrite fmap_app, elem_of_app.
    destruct (Z.le_gt_cases n (Z.of_nat k2)) as [Hle|Hgt].
    + assert (n ≤ Z.of_nat k3) by lia. tauto.
    + specialize (N2 n Hgt). assert (¬ n ≤ Z.of_nat k2) by lia. tauto.
  - intros p. rewrite fmap_app, elem_of_app. specialize (P1 p). specialize (P2 p). tauto.
Qed.

Context (C_mono : ∀ p x y, x ≤ y → C p x → C p y).
Context (rs_ok : requests_ok log_start rs) (rs_small : Z.of_nat (length rs) < 2 ^ 62).
#[local] Set Default Proof Using "All".

(** Syncs that are due are asked for, and the buffer is flushed. *)
Lemma actor_settles c a j k m : clock_ok c →
  actor_ok a j k m →
  ∃ a', try_flush c (flush_immediate_sync c a) = Ok a' ∧ actor_ok a' j k m ∧ on_time k a' ∧
    extends (recoverable db_key (between rs j k)) (fs_ (binlog_ a)) (fs_ (binlog_ a')) ∧
    ∀ p, holds_promise a m p → holds_promise a' m p.
Proof.
  intros Hc [H1 [H2 Hk] H3 H4 H5 H6 H7 H8 H9]. unfold flush_immediate_sync.
  assert (Hf : max_finished_seq_no (processor_ a) = Z.of_nat k).
  { unfold max_finished_seq_no. rewrite (wt_next _ _ _ (or_waiting _ _ _ H3)), u64_small; [lia|]. unfold two64. lia. }
  rewrite Hf. destruct (flush_immediate_spec c (Z.of_nat k) _ a Hc H8) as (l1 & l2 & Hl & Hl1 & Hl2 & [Hp [Hb Hpr] Ht] & Hi).
  set (a1 := flush_immediate c (Z.of_nat k) (immediate_sync_promises_ a) a) in *.
  destruct (try_flush_spec c a1 (state_of (take k rs)).1 (Z.of_nat k) (between rs j k) Hc) as (a2 & E & [Ho2 Hk2 Hd2] & Hpr2 & Hi2 & Hp2 & Ht2).
  { by rewrite Hb. }
  rewrite Hb in Hk2, Hd2. rewrite Hk in Hd2. rewrite Hpr in Hpr2. rewrite Hi in Hi2. rewrite Hp in Hp2.
  rewrite Hl in H8, H9. apply Forall_app in H9 as [H9a H9b]. exists a2. split_and!; [done| | |done|].
  - split; [done|by rewrite Hk2|by rewrite Hpr2|by rewrite Hpr2|done|by apply Ht2, Ht| | |by rewrite Hi2].
    + rewrite Hp2. apply Forall_app. split; [done|]. rewrite Forall_forall. intros p (x & Hx & Hxp)%list_elem_of_omap.
      rewrite Forall_forall in Hl1. rewrite Forall_forall in H9a. eapply C_mono; [by apply Hl1|by apply (H9a x Hx)].
    + rewrite Hi2. eapply sublist_sorted; [|exact H8]. by apply sublist_inserts_l.
  - unfold on_time. by rewrite Hi2.
  - intros p [Hx|[Hx|Hx]]; [left; rewrite Hp2; set_solver| |by right; right].
    rewrite Hl, fmap_app, elem_of_app in Hx. destruct Hx as [Hx|Hx]; [left|right; left; by rewrite Hi2].
    rewrite Hp2. apply elem_of_app. right. apply list_elem_of_fmap in Hx as (x & Hx1 & Hx2). apply list_elem_of_omap. eauto.
Qed.

Definition event_ok (x : Z * Event) : Prop := event_matches rs x ∧ ∀ p, sync_promise x.2 = Some p → C p x.1.
Lemma event_number x : event_matches rs x → 0 < x.1 ≤ Z.of_nat (length rs).
Proof using Type. clear rs_ok C_mono. intros (r & Hx & Hr%lookup_lt_Some & _). lia. Qed.

(** The events that an arrival sets free, and what the processor keeps. *)
Lemma processor_add a j k m n event : actor_ok a j k m → Z.of_nat k < n → event_ok (n, event) →
  ∃ p calls m', let k' := (k + length calls)%nat in
    OrderedEvents.add n event (processor_ a) = Ok (p, calls) ∧ ordered p (Z.of_nat k' + 1) m' ∧ (k' ≤ length rs)%nat ∧
    calls.*1 = seqZ (Z.of_nat k + 1) (Z.of_nat (length calls)) ∧ Forall event_ok calls ∧
    end_ p ≤ Z.of_nat (length rs) + 1 ∧
    (∀ x d, <[n := event]> m !! x = Some d ↔ (x, d) ∈ calls ∨ m' !! x = Some d) ∧
    (∀ x, Z.of_nat k < x ≤ Z.of_nat k' → x ∈ calls.*1).
Proof.
  intros Ha Hn Hev. pose proof (event_number _ (proj1 Hev)) as Hr. cbn in Hr.
  destruct (add_spec (processor_ a) (Z.of_nat k + 1) m n event (ao_ordered _ _ _ _ Ha)) as (p & next & m' & calls & E & Ho & [Hd1 Hd2 Hd3 Hd4 Hd5]).
  { unfold two64. lia. }
  assert (Hall : ∀ x d, <[n := event]> m !! x = Some d → event_ok (x, d)).
  { intros x d [[<- <-]|[_ Hx]]%lookup_insert_Some; [done|]. apply (ao_waiting _ _ _ _ Ha x d Hx). }
  assert (Hcalls : Forall event_ok calls) by (rewrite Forall_forall; intros [x d] Hx; by apply Hall, Hd3).
  assert (Hin : ∀ x, Z.of_nat k < x ≤ Z.of_nat (k + length calls) → x ∈ calls.*1) by (intros x Hx; rewrite Hd2, elem_of_seqZ; lia).
  assert (Hlen : (k + length calls ≤ length rs)%nat).
  { destruct (decide (length calls = 0%nat)) as [Hz|Hz]; [pose proof (ao_count _ _ _ _ Ha); lia|].
    pose proof (Hin (Z.of_nat (k + length calls)) ltac:(lia)) as ([x d] & Hxe & Hx)%list_elem_of_fmap. cbn in Hxe. subst x.
    rewrite Forall_forall in Hcalls. pose proof (event_number _ (proj1 (Hcalls _ Hx))) as Hb. cbn in Hb. lia. }
  rewrite Hd1 in Ho. replace (Z.of_nat k + 1 + Z.of_nat (length calls)) with (Z.of_nat (k + length calls) + 1) in Ho by lia.
  exists p, calls, m'. cbn zeta. split_and!; [done..| | |done].
  - pose proof (wt_next _ _ _ (or_waiting _ _ _ Ho)). pose proof (ao_end _ _ _ _ Ha).
    destruct (add_end _ _ _ _ _ E) as [->|[->| ->]]; [done|lia|rewrite u64_small by (unfold two64; lia); lia].
  - intros x d. split.
    + intros Hx. destruct (Z.le_gt_cases next x); [right; by apply Hd4|left].
      assert (x ∈ calls.*1) as ([x' d'] & -> & Hx')%list_elem_of_fmap.
      { apply Hin. rewrite Hd1 in *. split; [|lia]. apply lookup_insert_Some in Hx as [[<- _]|[_ Hx]]; [done|].
        by apply (waiting_after _ _ _ _ x Ha). }
      cbn in *. apply Hd3 in Hx' as Hx''. congruence.
    + intros [Hx|Hx]; [by apply Hd3|by apply Hd4].
Qed.

(** The state after the events have been passed on, before syncs are asked for. *)
Lemma actor_processes c a j k m n event : clock_ok c → actor_ok a j k m → Z.of_nat k < n → event_ok (n, event) →
  ∃ p calls a' m', let k' := (k + length calls)%nat in
    OrderedEvents.add n event (processor_ a) = Ok (p, calls) ∧ ofold (process c) (set_processor p a) calls = Ok a' ∧
    actor_ok a' j k' m' ∧ extends (recoverable db_key (between rs j k')) (fs_ (binlog_ a)) (fs_ (binlog_ a')) ∧
    (∀ x d, <[n := event]> m !! x = Some d ↔ (x, d) ∈ calls ∨ m' !! x = Some d) ∧
    (∀ x, x ∈ calls.*1 ↔ Z.of_nat k < x ≤ Z.of_nat k') ∧
    sync_promises_ a' = sync_promises_ a ++ omap (λ x, sync_promise x.2) calls ∧
    immediate_sync_promises_ a' = immediate_sync_promises_ a.
Proof.
  intros Hc Ha Hn Hev. destruct (processor_add _ _ _ _ _ _ Ha Hn Hev) as (p & calls & m' & E & Ho & Hlen & Hnum & Hcalls & He & Hm & _).
  pose proof Ha as [Hj [Hlog Hkey] _ _ Hw Ht Hp Hs Hi].
  destruct (run_calls c rs calls (set_processor p a) k (between rs j k) rs_ok rs_small Hlog Hnum) as (b & Er & [Hb Hbk Hbd]); [|done|].
  { eapply Forall_impl; [exact Hcalls|]. by intros x [? _]. }
  destruct (lazy_syncs_spec c calls (set_processor p a) Hc) as [[Hlp [_ Hlpr] Hlt] Hli].
  set (a1 := lazy_syncs c calls (set_processor p a)) in *.
  assert (HV : ∀ v, between rs j k v ∨ between rs k (k + length calls) v → between rs j (k + length calls) v).
  { intros v [(i & Hi' & ->)|(i & Hi' & ->)]; exists i; (split; [lia|done]). }
  assert (Hin : ∀ x, x ∈ calls.*1 ↔ Z.of_nat k < x ≤ Z.of_nat (k + length calls)).
  { intros x. rewrite Hnum, elem_of_seqZ. lia. }
  exists p, calls, (set_binlog b a1), m'. cbn zeta. split_and!; [done|done| | |done|done|done|done].
  2:{ cbn [binlog_ set_binlog]. eapply extends_weaken; [|exact Hbd]. cbn [binlog_ set_processor]. rewrite Hkey. intros d. by apply recoverable_weaken. }
  split; cbn [binlog_ set_binlog processor_ sync_promises_ immediate_sync_promises_]; [lia| | | | | | | |].
  - split; [exact (open_weaken _ _ _ _ _ HV Hb)|exact (eq_trans Hbk Hkey)].
  - by rewrite Hlpr.
  - by rewrite Hlpr.
  - intros x d Hx. assert (<[n := event]> m !! x = Some d) as [[<- <-]|[_ Hx']]%lookup_insert_Some; [apply Hm; by right|done|by apply Hw].
  - cut (timer_ok a1); [by intros []|]. apply Hlt. by destruct Ht.
  - rewrite Hlp. apply Forall_app. split.
    + eapply Forall_impl; [exact Hp|]. intros q. apply C_mono. lia.
    + rewrite Forall_forall. intros q ([x d] & Hx & Hq)%list_elem_of_omap. rewrite Forall_forall in Hcalls.
      eapply C_mono; [|by apply (Hcalls _ Hx)]. apply Hin, list_elem_of_fmap. by exists (x, d).
  - by rewrite Hli.
  - by rewrite Hli.
Qed.

Lemma actor_add_spec c a j k m n event : clock_ok c → actor_ok a j k m → Z.of_nat k < n → m !! n = None → event_ok (n, event) →
  ∃ a' k' m', actor_add c n event a = Ok a' ∧ actor_goes [(n, event)] a j k m a' k' m'.
Proof.
  intros Hc Ha Hn Hnone Hev. unfold actor_add.
  destruct (actor_processes c _ _ _ _ _ _ Hc Ha Hn Hev) as (p & calls & a1 & m' & E & E1 & Ha1 & Hd1 & Hm & Hin & Hp1 & Hi1).
  destruct (actor_settles c _ _ _ _ Hc Ha1) as (a2 & E2 & Ha2 & Ht2 & Hd2 & Hp2).
  rewrite E, bind_Ok_l, E1, bind_Ok_l. exists a2, (k + length calls)%nat, m'. split; [done|].
  split; [done|done|lia|by eapply extends_trans| |].
  - intros x Hx. cbn [fmap list_fmap fst]. rewrite list_elem_of_singleton.
    assert (Hx' : x = n ∨ is_Some (m !! x) ↔ is_Some (<[n := event]> m !! x)).
    { destruct (decide (x = n)) as [->|Hne]; [rewrite lookup_insert_eq; by split; [|by left]|].
      rewrite lookup_insert_ne by done. tauto. }
    rewrite Hx'. split.
    + intros [d [Hd|Hd]%Hm]; [left|by right]. apply Hin. apply list_elem_of_fmap. by exists (x, d).
    + intros [Hle|[d Hd]]; [|exists d; apply Hm; by right].
      assert (x ∈ calls.*1) as ([x' d] & -> & Hd)%list_elem_of_fmap by (by apply Hin). exists d. apply Hm. by left.
  - intros q Hq. apply Hp2. unfold holds_promise in *. rewrite Hp1, Hi1, elem_of_app, list_elem_of_omap.
    assert (Hq' : q ∈ sync_promises_ a ∨ Some q ∈ (immediate_sync_promises_ a).*2 ∨ ∃ x d, <[n := event]> m !! x = Some d ∧ sync_promise d = Some q).
    { destruct Hq as [[Hq|[Hq|(x & d & Hx & Hq)]]|Hq%list_elem_of_singleton]; [by left|by right; left|right; right|right; right].
      - exists x, d. rewrite lookup_insert_ne by congruence. done.
      - exists n, event. by rewrite lookup_insert_eq. }
    destruct Hq' as [Hq'|[Hq'|(x & d & [Hx|Hx]%Hm & Hq')]]; [by left; left|by right; left|left; right; by exists (x, d)|right; right; eauto].
Qed.

(** Events arrive one after the other. *)
Fixpoint actor_adds (cs : nat → Clock) (l : list (Z * Event)) (a : BinlogActor) : outcome BinlogActor :=
  match l with
  | [] => Ok a
  | x :: l => a ← actor_add (cs 0%nat) x.1 x.2 a; actor_adds (cs ∘ S) l a
  end.
Lemma actor_adds_spec cs l a j k m : (∀ i, clock_ok (cs i)) → actor_ok a j k m → on_time k a → NoDup l.*1 →
  Forall (λ x, (Z.of_nat k < x.1 ∧ m !! x.1 = None) ∧ event_ok x) l →
  ∃ a' k' m', actor_adds cs l a = Ok a' ∧ actor_goes l a j k m a' k' m'.
Proof.
  intros Hc. revert cs Hc a k m. induction l as [|[n event] l IH]; intros cs Hc a k m Ha Ht Hnd Hl.
  - exists a, k, m. split; [done|]. split; [done|done|lia|apply extends_refl| |].
    + intros n Hn. cbn. rewrite elem_of_nil. assert (¬ n ≤ Z.of_nat k) by lia. tauto.
    + intros p [Hp|Hp%elem_of_nil]; done.
  - cbn [fmap list_fmap fst] in Hnd. apply NoDup_cons in Hnd as [Hni Hnd]. apply Forall_cons in Hl as [[[Hn Hm] Hev] Hl].
    destruct (actor_add_spec (cs 0%nat) a j k m n event (Hc 0%nat) Ha Hn Hm Hev) as (a1 & k1 & m1 & E1 & Hg1).
    destruct (IH (cs ∘ S) (λ i, Hc (S i)) a1 k1 m1 (ag_ok _ _ _ _ _ _ _ _ Hg1) (ag_on_time _ _ _ _ _ _ _ _ Hg1) Hnd) as (a2 & k2 & m2 & E2 & Hg2).
    { rewrite Forall_forall in Hl |- *. intros x Hx. destruct (Hl x Hx) as [[Hx1 Hx2] Hx3]. split; [|done].
      pose proof (ag_numbers _ _ _ _ _ _ _ _ Hg1 x.1 Hx1) as Hiff. cbn [fmap list_fmap fst] in Hiff.
      rewrite list_elem_of_singleton, Hx2, is_Some_alt in Hiff.
      assert (x.1 ≠ n). { intros <-. apply Hni. apply list_elem_of_fmap. by exists x. }
      split; [destruct (Z.le_gt_cases x.1 (Z.of_nat k1)); [tauto|lia]|].
      destruct (m1 !! x.1) as [d|]; [|done]. assert (is_Some (Some d)) by done. tauto. }
    exists a2, k2, m2. cbn [actor_adds fst snd]. rewrite E1, bind_Ok_l. split; [done|].
    change ((n, event) :: l) with ([(n, event)] ++ l). eapply actor_goes_trans; [|done|done].
    apply (ao_count _ _ _ _ (ag_ok _ _ _ _ _ _ _ _ Hg2)).
Qed.
End invariant.

(** *** The other messages *)

Section messages.
Context (db_key : DbKey) (rs : list request) (C : Z → Z → Prop).
Context (C_mono : ∀ p x y, x ≤ y → C p x → C p y) (rs_small : Z.of_nat (length rs) < 2 ^ 62).
Context (a : BinlogActor) (j k : nat) (m : gmap Z Event).
Context (Ha : actor_ok db_key rs C a j k m) (Ht : on_time k a).
#[local] Set Default Proof Using "All".

Lemma actor_force_sync c promise : clock_ok c → (∀ p, promise = Some p → C p (end_ (processor_ a) - 1)) →
  let a' := force_sync c promise a in
  actor_ok db_key rs C a' j k m ∧ on_time k a' ∧ binlog_ a' = binlog_ a ∧
    ∀ p, holds_promise a m p ∨ promise = Some p → holds_promise a' m p.
Proof.
  intros Hc Hp. destruct Ha as [H1 H2 H3 H4 H5 H6 H7 H8 H9]. pose proof (wt_next _ _ _ (or_waiting _ _ _ H3)) as Hb.
  pose proof (or_end _ _ _ H3) as He. unfold force_sync, max_finished_seq_no, max_unfinished_seq_no. rewrite Hb.
  rewrite (u64_small (Z.of_nat k + 1 - 1)), (u64_small (end_ (processor_ a) - 1)) by (unfold two64; lia).
  destruct (Z.eqb_spec (Z.of_nat k + 1 - 1) (end_ (processor_ a) - 1)) as [Heq|Hne].
  - destruct (immediate_sync_spec c promise a Hc) as [[Hsp [Hsb Hspr] Hst] Hsi]. set (a' := do_immediate_sync c promise a) in *.
    split_and!; [|by unfold on_time; rewrite Hsi|done|].
    + split; rewrite ?Hsb, ?Hspr, ?Hsi; try done; [by apply Hst|]. rewrite Hsp. apply Forall_app. split; [done|].
      destruct promise as [p|]; [|done]. constructor; [|done]. replace (Z.of_nat k) with (end_ (processor_ a) - 1) by lia. by apply Hp.
    + unfold holds_promise. rewrite Hsp, Hsi. intros p [[Hx|[Hx|Hx]]| ->]; [left; set_solver|by right; left|by right; right|left; set_solver].
  - destruct (emplace_spec (end_ (processor_ a) - 1) promise _ H8) as [Hs Hperm]. split_and!; [| |done|].
    + split; try done; cbn [immediate_sync_promises_ set_immediate]; [by destruct H6|]. rewrite Hperm. constructor; [|done]. cbn. split; [lia|done].
    + unfold on_time. cbn [immediate_sync_promises_ set_immediate]. rewrite Hperm. constructor; [cbn; lia|done].
    + unfold holds_promise. cbn [immediate_sync_promises_ set_immediate sync_promises_].
      intros p [[Hx|[Hx|Hx]]| ->]; [by left|right; left|by right; right|right; left]; rewrite Hperm; cbn; set_solver.
Qed.

Lemma actor_timeout c : clock_ok c →
  ∃ a' j', timeout_expired c a = Ok (a', sync_promises_ a) ∧ (j ≤ j')%nat ∧ actor_ok db_key rs C a' j' k m ∧ on_time k a' ∧
    Forall (λ p, C p (Z.of_nat j')) (sync_promises_ a) ∧
    extends (recoverable db_key (between rs j k)) (fs_ (binlog_ a)) (fs_ (binlog_ a')) ∧
    ∀ p, holds_promise a m p → p ∈ sync_promises_ a ∨ holds_promise a' m p.
Proof.
  intros Hc. destruct Ha as [H1 [H2 H2'] H3 H4 H5 H6 H7 H8 H9]. unfold timeout_expired.
  destruct (lazy_sync_flag_ a || force_sync_flag_ a) eqn:Hf.
  - cbn [binlog_ set_wakeup_at set_flush_flag set_force_sync_flag set_lazy_sync_flag].
    destruct (sync_spec _ _ _ _ H2) as (b' & E & Ho & [Hk _] & Hx). rewrite E, bind_Ok_l.
    eexists _, k. split; [done|]. split_and!; [lia| |done|done|cbn; by rewrite <-H2'|].
    + split; try done; [lia|split; [|by cbn; rewrite Hk]]. cbn. eapply open_weaken; [|exact Ho]. intros v ->. by exists k.
    + intros p [Hp|[Hp|Hp]]; [by left|right; by right; left|right; by right; right].
  - assert (Hnil : sync_promises_ a = []).
    { destruct (sync_promises_ a) as [|p l] eqn:Hp; [done|]. rewrite <-Hp in *. pose proof (tm_promises _ H6) as Hs. rewrite Hf in Hs.
      discriminate Hs. by rewrite Hp. }
    rewrite Hnil. set (a0 := set_wakeup_at 0 _).
    assert (Ht0 : timer_ok a0) by (split; cbn; [done|done|by rewrite Hnil]).
    destruct (flush_flag_ a).
    + destruct (try_flush_spec c a0 _ _ _ Hc H2) as (a' & E & [Ho Hk Hx] & Hpr & Hi & Hp & Htm). rewrite E, bind_Ok_l.
      exists a', j. split; [done|]. cbn in Hpr, Hi, Hp. split_and!; [done| |by unfold on_time; rewrite Hi|done|by rewrite <-H2'|].
      * split; rewrite ?Hpr, ?Hi, ?Hp; try done; [split; [done|by rewrite Hk]|by apply Htm].
      * unfold holds_promise. rewrite Hi, Hp. by right.
    + exists a0, j. split; [done|]. split_and!; [done|by split|done|done|apply extends_refl|by right].
Qed.

Lemma actor_force_flush : ∃ a', force_flush a = Ok a' ∧ actor_ok db_key rs C a' j k m ∧ on_time k a' ∧
  extends (recoverable db_key (between rs j k)) (fs_ (binlog_ a)) (fs_ (binlog_ a')) ∧ ∀ p, holds_promise a m p → holds_promise a' m p.
Proof.
  destruct Ha as [H1 [H2 H2'] H3 H4 H5 H6 H7 H8 H9]. unfold force_flush.
  destruct (flush_open _ _ _ _ H2) as (b' & E & [Ho Hk Hx] & _). rewrite E, bind_Ok_l. eexists. split; [done|].
  split_and!; [|done|by rewrite <-H2'|done]. split; try done; [split; [done|by cbn; rewrite Hk]|by destruct H6].
Qed.

(** Closing syncs what has been passed to the log; promises that wait are not answered. *)
Lemma actor_closes promise : ∃ b, actor_close promise a = Ok (b, option_list promise) ∧ fd_ b = None ∧
  recoverable db_key (λ v, v = (state_of (take k rs)).1) (now (fs_ b)) ∧
  extends (recoverable db_key (between rs j k)) (fs_ (binlog_ a)) (fs_ b).
Proof using H0 Ha.
  destruct Ha as [_ [H2 H2'] _ _ _ _ _ _ _]. unfold actor_close. destruct (close_spec _ _ _ _ H2) as (b & E & Hf & Hr & Hx).
  rewrite E, bind_Ok_l. exists b. by rewrite <-H2'.
Qed.
End messages.

(** *** Messages *)

Fixpoint erasing_events (n : Z) (ids : list Z) : list (Z * Event) :=
  match ids with
  | [] => []
  | id :: ids => (n, {| raw_event := event_bytes crc32 (erasing id); sync_promise := None |}) :: erasing_events (n + 1) ids
  end.
(** The events of a message. *)
Definition events_of (m : actor_message) : list (Z * Event) :=
  match m with AddRawEvent n event => [(n, event)] | EraseBatch n ids => erasing_events n ids end.
Definition message_ok (m : actor_message) : Prop :=
  match m with
  | AddRawEvent _ _ => True
  | EraseBatch n ids => 0 ≤ n ∧ n + Z.of_nat (length ids) < 2 ^ 63 ∧ Forall (λ id, 0 < id < 2 ^ 63) ids
  end.

Lemma events_numbers m : (events_of m).*1 = numbers m.
Proof.
  destruct m as [n event|n ids]; [done|]. cbn [events_of numbers]. revert n. induction ids as [|id ids IH]; intros n; [done|].
  cbn [length]. rewrite Nat2Z.inj_succ, seqZ_cons' by lia. cbn. by rewrite IH.
Qed.
Lemma erasing_ok id : 0 < id < 2 ^ 63 → entry_ok (erasing id).
Proof. intros Hid. split; cbn; try done; [unfold two64; lia|constructor]. Qed.
Lemma deliver_adds cs m a : message_ok m → deliver cs m a = actor_adds cs (events_of m) a.
Proof.
  destruct m as [n event|n ids]; intros Hok; cbn [deliver events_of].
  - cbn. by destruct (actor_add (cs 0%nat) n event a).
  - revert cs n a Hok. induction ids as [|id ids IH]; intros cs n a (Hn & Hmax & Hids); [done|].
    apply Forall_cons in Hids as [Hid Hids]. cbn [length] in Hmax. cbn [actor_erase_batch erasing_events actor_adds fst snd].
    rewrite (create_raw_spec crc32 (erasing id)), bind_Ok_l by (by apply erasing_ok || apply empty_stores).
    destruct (actor_add _ _ _ a) as [a1|]; [|done]. rewrite !bind_Ok_l, u64_small by (unfold two64; lia).
    apply IH. split_and!; [lia|lia|done].
Qed.

(** Identifiers in force are numbers that were given out. *)
Lemma ids_given rs : requests_ok log_start rs → Z.of_nat (length rs) < 2 ^ 62 → Forall (λ e, 0 < e_id e < 2 ^ 63) (state_of rs).1.
Proof.
  induction rs as [|r rs IH] using rev_ind; [constructor|]. rewrite requests_ok_app, length_app. cbn [length].
  intros [Hok [Hr _]] Hmax. specialize (IH Hok ltac:(lia)). fold (state_of rs) in Hr. pose proof (state_of_last rs) as Hl.
  unfold state_of in *. rewrite foldl_snoc. set (s := foldl after_request log_start rs) in *.
  destruct r as [[type data|id type data|id]|]; cbn [after_request op_step fst]; [| | |done].
  - apply Forall_app. split; [done|]. constructor; [cbn; lia|done].
  - destruct Hr as [Hin _]. unfold rewritten. apply Forall_fmap. eapply Forall_impl; [exact IH|]. cbn. intros e He.
    case_match; [|done]. cbn. apply Z.eqb_eq in H1. lia.
  - rewrite Forall_forall in IH |- *. intros e [_ He]%list_elem_of_filter. by apply IH.
Qed.
Lemma op_entry_ok rs o : requests_ok log_start rs → Z.of_nat (length rs) + 1 < 2 ^ 62 → log_op_ok (state_of rs) o →
  entry_ok (op_entry (Z.of_nat (length rs) + 1) o).
Proof.
  intros Hok Hmax Ho. pose proof (ids_given rs Hok ltac:(lia)) as Hids. rewrite Forall_forall in Hids.
  destruct o as [type data|id type data|id]; cbn [log_op_ok op_entry] in *.
  - apply (data_entry type _ data _ 0 (slice_data_ok _ _ Ho)); [lia|by left].
  - destruct Ho as [(e & -> & He)%list_elem_of_fmap Ho]. apply (data_entry type _ data _ Rewrite_flag (slice_data_ok _ _ Ho)); [by apply Hids|by right].
  - apply list_elem_of_fmap in Ho as (e & -> & He). by apply erasing_ok, Hids.
Qed.

(** ** The whole *)

Definition sent_events (s : system) : list (Z * Event) := sent_ s ≫= events_of.
Section system.
Context (db_key : DbKey).

Record system_ok (s : system) (j k : nat) (m : gmap Z Event) : Prop := {
  so_count : last_event_id_ s = Z.of_nat (length (requests s)) + 1 ∧ last_event_id_ s ≤ 2 ^ 62;
  so_requests : requests_ok log_start (requests s);
  so_actor : actor_ok db_key (requests s) (covered (promises s)) (actor_ s) j k m;
  so_on_time : on_time k (actor_ s);
  so_messages : Forall message_ok (sent_ s);
  so_sent : Forall (λ x, (Z.of_nat k < x.1 ∧ m !! x.1 = None) ∧ event_ok (requests s) (covered (promises s)) x) (sent_events s);
  so_unique : NoDup (sent_events s).*1;
  so_numbers n : Z.of_nat k < n ≤ Z.of_nat (length (requests s)) → n ∈ (sent_events s).*1 ∨ is_Some (m !! n);
  so_arrived n : n ∈ arrived s → n ≤ Z.of_nat k ∨ is_Some (m !! n);
  so_answered : Forall (λ p, covered (promises s) p (Z.of_nat j)) (answered s);
  so_promises p : p ∈ (promises s).*1 →
    p ∈ answered s ∨ holds_promise (actor_ s) m p ∨ Some p ∈ (λ x, sync_promise x.2) <$> sent_events s;
}.
(** From [s], at least [j] of the requests survive. *)
Record system_goes (s : system) (j : nat) (s' : system) : Prop := {
  sg_ok : ∃ j' k' m', (j ≤ j')%nat ∧ system_ok s' j' k' m';
  sg_requests : requests s `prefix_of` requests s';
  sg_disks : extends (recoverable db_key (between (requests s') j (length (requests s'))))
    (fs_ (binlog_ (actor_ s))) (fs_ (binlog_ (actor_ s')));
}.

Lemma actor_ok_grows rs rs' (C C' : Z → Z → Prop) a j k m : rs `prefix_of` rs' → (∀ p n, C p n → C' p n) →
  actor_ok db_key rs C a j k m → actor_ok db_key rs' C' a j k m.
Proof.
  intros Hrs HC [H1 [H2 H2'] H3 H4 H5 H6 H7 H8 H9]. pose proof (prefix_length _ _ Hrs) as Hlen. split; [lia| |done|lia| |done| |done|].
  - split; [|done]. destruct Hrs as [rs2 ->]. rewrite take_app_le by lia. eapply open_weaken; [|exact H2].
    intros v. apply between_weaken; [by apply prefix_app_r|lia|lia|lia].
  - intros n event Hn. destruct (H5 n event Hn) as [(r & Hr1 & Hr2 & Hr3) Hp]. split; [|auto]. exists r. split_and!; [done| |done].
    by eapply prefix_lookup_Some.
  - eapply Forall_impl; [exact H7|]. auto.
  - eapply Forall_impl; [exact H9|]. cbn. intros x [? ?]. split; [lia|auto].
Qed.
Lemma event_ok_grows rs rs' (C C' : Z → Z → Prop) x : rs `prefix_of` rs' → (∀ p n, C p n → C' p n) →
  event_ok rs C x → event_ok rs' C' x.
Proof.
  intros Hrs HC [(r & Hr1 & Hr2 & Hr3) Hp]. split; [|auto]. exists r. split_and!; [done| |done]. by eapply prefix_lookup_Some.
Qed.

Context (s : system) (j k : nat) (m : gmap Z Event) (Hs : system_ok s j k m).
#[local] Set Default Proof Using "All".

(** Requests are made; [qs] are the new promises. *)
Lemma system_sends m0 rs qs : message_ok m0 → last_event_id_ s + Z.of_nat (length rs) ≤ 2 ^ 62 →
  requests_ok (state_of (requests s)) rs → numbers m0 = seqZ (last_event_id_ s) (Z.of_nat (length rs)) →
  Forall (event_matches (requests s ++ rs)) (events_of m0) →
  (∀ q, q ∈ qs.*1 → q ∉ (promises s).*1 ∧ Some q ∈ (λ x, sync_promise x.2) <$> events_of m0) →
  (∀ x q, x ∈ events_of m0 → sync_promise x.2 = Some q → covered (qs ++ promises s) q x.1) →
  system_goes s j (mk_system (last_event_id_ s + Z.of_nat (length rs)) (sent_ s ++ [m0]) (actor_ s) (requests s ++ rs)
    (arrived s) (qs ++ promises s) (answered s)).
Proof.
  intros Hm0 Hmax Hrs Hnum Hev Hqs Hcov. destruct Hs as [[Hl1 Hl2] Hr Ha Ht Hms Hsent Hu Hn Harr Hans Hp].
  assert (Hpre : requests s `prefix_of` requests s ++ rs) by by apply prefix_app_r.
  assert (HC : ∀ p n, covered (promises s) p n → covered (qs ++ promises s) p n) by (intros p n; apply covered_new; naive_solver).
  assert (Hbind : (sent_ s ++ [m0]) ≫= events_of = sent_events s ++ events_of m0) by (rewrite bind_app; cbn; by rewrite app_nil_r).
  pose proof (ao_count _ _ _ _ _ _ _ Ha) as Hk.
  assert (Hnew : ∀ x, x ∈ events_of m0 → Z.of_nat (length (requests s)) < x.1).
  { intros x Hx. assert (x.1 ∈ numbers m0) as Hx'; [rewrite <-events_numbers; apply list_elem_of_fmap; by exists x|].
    rewrite Hnum, elem_of_seqZ in Hx'. lia. }
  assert (Hnone : ∀ n, Z.of_nat (length (requests s)) < n → m !! n = None).
  { intros n Hn'. destruct (m !! n) as [event|] eqn:E; [|done]. destruct (ao_waiting _ _ _ _ _ _ _ Ha n event E) as [Hme _].
    pose proof (event_number _ _ Hme). cbn in *. lia. }
  split; [|done|apply extends_refl].
  exists j, k, m. split; [done|]. split; cbn [last_event_id_ requests promises actor_ sent_ answered arrived]; unfold sent_events; cbn [sent_]; rewrite ?Hbind.
  - rewrite length_app. lia.
  - by apply requests_ok_app.
  - by eapply actor_ok_grows.
  - done.
  - apply Forall_app. by split; [|constructor].
  - apply Forall_app. split.
    + eapply Forall_impl; [exact Hsent|]. intros x [Hx1 Hx2]. split; [done|]. by eapply event_ok_grows.
    + rewrite Forall_forall in Hev |- *. intros x Hx. pose proof (Hnew x Hx). split; [split; [lia|by apply Hnone]|].
      split; [by apply Hev|]. intros q Hq. by apply Hcov.
  - rewrite fmap_app, events_numbers, Hnum. apply NoDup_app. split_and!; [done| |apply NoDup_seqZ].
    intros n (x & -> & Hx)%list_elem_of_fmap. rewrite Forall_forall in Hsent. destruct (Hsent x Hx) as [_ [Hme _]].
    pose proof (event_number _ _ Hme). rewrite elem_of_seqZ. lia.
  - intros n Hn'. rewrite fmap_app, events_numbers, Hnum, elem_of_app, elem_of_seqZ. rewrite length_app in Hn'.
    destruct (Z.le_gt_cases n (Z.of_nat (length (requests s)))); [destruct (Hn n); [lia|by left; left|by right]|left; right; lia].
  - done.
  - eapply Forall_impl; [exact Hans|]. auto.
  - intros p. rewrite fmap_app, fmap_app, !elem_of_app. intros [Hq|Hq]; [right; right; right; by apply Hqs|].
    destruct (Hp p Hq) as [?|[?|?]]; auto.
Qed.

(** A message arrives. *)
Lemma system_delivers cs m0 ms1 ms2 : (∀ i, clock_ok (cs i)) → sent_ s = ms1 ++ m0 :: ms2 →
  ∃ a, deliver cs m0 (actor_ s) = Ok a ∧ system_goes s j (with_actor a (with_arrived (ms1 ++ ms2) (numbers m0) s)).
Proof.
  intros Hc Hsent_. destruct Hs as [[Hl1 Hl2] Hr Ha Ht Hms Hsent Hu Hn Harr Hans Hp]. rewrite Hsent_ in Hms.
  apply Forall_app in Hms as [Hms1 [Hm0 Hms2]%Forall_cons].
  set (l := events_of m0) in *. set (rest := (ms1 ++ ms2) ≫= events_of).
  assert (Hperm : sent_events s ≡ₚ l ++ rest).
  { unfold sent_events, rest. rewrite Hsent_, !bind_app, bind_cons. apply Permutation_app_swap_app. }
  rewrite Hperm in Hsent, Hu. apply Forall_app in Hsent as [Hsl Hsr]. rewrite fmap_app in Hu. apply NoDup_app in Hu as (Hu1 & Hu2 & Hu3).
  destruct (actor_adds_spec db_key (requests s) (covered (promises s)) (covered_mono _) Hr ltac:(lia) cs l _ _ _ _ Hc Ha Ht Hu1 Hsl)
    as (a & k' & m' & E & [Ga Gt Gk Gd Gn Gp]).
  exists a. rewrite deliver_adds by done. split; [exact E|].
  pose proof (ao_count _ _ _ _ _ _ _ Ga) as Hk'. pose proof (ao_count _ _ _ _ _ _ _ Ha) as Hk.
  split; [|done|].
  2:{ eapply extends_weaken; [|exact Gd]. intros d. apply recoverable_weaken. intros v. cbn [requests with_actor with_arrived]. apply between_weaken; [done|lia|lia|lia]. }
  exists j, k', m'. split; [done|].
  split; cbn [last_event_id_ requests promises actor_ sent_ answered arrived with_actor with_arrived]; unfold sent_events; cbn [sent_ with_actor with_arrived]; fold rest; try done.
  - by apply Forall_app.
  - rewrite Forall_forall in Hsr |- *. intros x Hx. destruct (Hsr x Hx) as [[Hx1 Hx2] Hx3]. split; [|done].
    pose proof (Gn x.1 Hx1) as Hiff. rewrite Hx2, is_Some_alt in Hiff.
    assert (x.1 ∉ l.*1) by (intros Hxl; apply (Hu2 _ Hxl), list_elem_of_fmap; by exists x).
    split; [destruct (Z.le_gt_cases x.1 (Z.of_nat k')); [tauto|lia]|].
    destruct (m' !! x.1) as [d|]; [|done]. assert (is_Some (Some d)) by done. tauto.
  - intros n Hn'. specialize (Gn n ltac:(lia)). specialize (Hn n ltac:(lia)). rewrite Hperm, fmap_app, elem_of_app in Hn.
    assert (¬ n ≤ Z.of_nat k') by lia. tauto.
  - intros n [Hin|Hin]%elem_of_app.
    + rewrite <-events_numbers in Hin. apply Gn; [|by left]. apply list_elem_of_fmap in Hin as (x & -> & Hx).
      rewrite Forall_forall in Hsl. by apply (Hsl x).
    + destruct (Harr n Hin) as [Hle|Hsome]; [left; lia|]. apply Gn; [|by right]. by apply (waiting_after _ _ _ _ _ _ _ n Ha).
  - intros p Hin. destruct (Hp p Hin) as [?|[?|Hx]]; [auto|auto|].
    rewrite Hperm, fmap_app, elem_of_app in Hx. destruct Hx; auto.
Qed.

(** The actor does something else, and answers [ps]. *)
Lemma system_acts a' j' ps qs : (j ≤ j')%nat → actor_ok db_key (requests s) (covered (qs ++ promises s)) a' j' k m → on_time k a' →
  extends (recoverable db_key (between (requests s) j k)) (fs_ (binlog_ (actor_ s))) (fs_ (binlog_ a')) →
  (∀ q, q ∈ qs.*1 → q ∉ (promises s).*1 ∧ holds_promise a' m q) → Forall (λ p, covered (promises s) p (Z.of_nat j')) ps →
  (∀ p, holds_promise (actor_ s) m p → p ∈ ps ∨ holds_promise a' m p) →
  system_goes s j (mk_system (last_event_id_ s) (sent_ s) a' (requests s) (arrived s) (qs ++ promises s) (ps ++ answered s)).
Proof.
  intros Hj Ha' Ht' Hd Hqs Hps Hh. destruct Hs as [Hl Hr Ha Ht Hms Hsent Hu Hn Harr Hans Hp].
  assert (HC : ∀ p n, covered (promises s) p n → covered (qs ++ promises s) p n) by (intros p n; apply covered_new; naive_solver).
  pose proof (ao_count _ _ _ _ _ _ _ Ha) as Hk. split; [|done|].
  2:{ cbn [requests actor_]. eapply extends_weaken; [|exact Hd]. intros d. apply recoverable_weaken. intros v. apply between_weaken; [done|lia|lia|lia]. }
  exists j', k, m. split; [done|]. split; cbn [last_event_id_ requests promises actor_ sent_ answered arrived]; try done.
  - eapply Forall_impl; [exact Hsent|]. intros x [Hx1 Hx2]. split; [done|]. by eapply event_ok_grows.
  - apply Forall_app. split; (eapply Forall_impl; [eassumption|]); intros p Hp'; apply HC; [done|].
    eapply covered_mono; [|exact Hp']. lia.
  - intros p. rewrite fmap_app, !elem_of_app. intros [Hq|Hq]; [right; left; by apply Hqs|].
    destruct (Hp p Hq) as [?|[Hx|?]]; [auto| |auto]. destruct (Hh p Hx); auto.
Qed.

(** *** Each step *)

Lemma issue_spec r promise : last_event_id_ s < 2 ^ 62 → request_ok (state_of (requests s)) r →
  issue r promise s = Ok (mk_system (last_event_id_ s + 1) (sent_ s ++ [AddRawEvent (last_event_id_ s) {| raw_event := raw_of (last_event_id_ s) r; sync_promise := promise |}])
    (actor_ s) (requests s) (arrived s) (promises s) (answered s)).
Proof.
  intros Hmax Hok. destruct (so_count _ _ _ _ Hs) as [Hl _]. unfold issue, fetch_add. rewrite u64_small by (unfold two64; lia).
  destruct r as [o|]; [|done]. cbn [raw_of].
  pose proof (op_entry_ok (requests s) o (so_requests _ _ _ _ Hs) ltac:(lia) Hok) as He. rewrite <-Hl in He.
  assert (Hraw : ∀ storer, stores storer (e_data (op_entry (last_event_id_ s) o)) →
    create_raw crc32 (e_id (op_entry (last_event_id_ s) o)) (e_type (op_entry (last_event_id_ s) o)) (e_flags (op_entry (last_event_id_ s) o)) storer =
      Ok (event_bytes crc32 (op_entry (last_event_id_ s) o))) by (intros storer Hst; exact (create_raw_spec crc32 _ storer He Hst)).
  destruct o as [type data|id type data|id]; cbn [op_entry e_id e_type e_flags e_data erasing] in Hraw |- *;
    (rewrite Hraw, bind_Ok_l by (apply slice_stores || apply empty_stores)); done.
Qed.
Lemma step_issue_goes r promise s' : last_event_id_ s < 2 ^ 62 → request_ok (state_of (requests s)) r → new_promise promise s →
  issue r promise s = Ok s' → system_goes s j (with_record [r] (waits_for promise [last_event_id_ s]) s').
Proof.
  intros Hmax Hok Hnew. rewrite issue_spec by done. intros [= <-]. destruct (so_count _ _ _ _ Hs) as [Hl _].
  apply (system_sends (AddRawEvent _ _) [r]); cbn [message_ok length requests_ok numbers events_of]; [done|lia|done|done| | |].
  - constructor; [|done]. exists r. cbn [fst snd raw_event]. split_and!; [lia| |done]. rewrite lookup_app_r by lia.
    by replace (Z.to_nat (last_event_id_ s - 1) - length (requests s))%nat with 0%nat by lia.
  - intros q Hq. destruct promise as [p|]; [|by apply elem_of_nil in Hq]. apply list_elem_of_singleton in Hq. cbn in Hq. subst q.
    split; [by apply Hnew|by left].
  - intros x q ->%list_elem_of_singleton Hq. cbn in Hq. subst promise. apply covered_first; [by apply Hnew|]. constructor; [done|constructor].
Qed.

Lemma narrow_cast_value n x : 0 ≤ n < 2 ^ 62 → narrow_cast_int32 n = Ok x → x = n.
Proof using Type.
  intros Hn. unfold narrow_cast_int32. intros (? & Hu%cassert_Ok & E)%bind_Ok. apply bind_Ok in E as (? & _ & [= <-]).
  apply Z.eqb_eq in Hu. pose proof (i32_range n) as [? ?]. unfold INT_MIN, INT_MAX in *.
  destruct (Z.le_gt_cases 0 (i32 n)); [rewrite u64_small in Hu by (unfold two64; lia); done|].
  unfold u64, two64 in Hu. rewrite <-(Z_mod_plus _ 1), Z.mod_small in Hu by lia. lia.
Qed.
Lemma erase_requests_at ids i id : ids !! i = Some id →
  (requests s ++ (Operation ∘ EraseOp <$> ids)) !! (length (requests s) + i)%nat = Some (Operation (EraseOp id)).
Proof using Type. intros Hi. by rewrite lookup_app_r, Nat.add_comm, Nat.add_sub, list_lookup_fmap, Hi by lia. Qed.
Lemma erasing_events_match ids ids1 : requests_ok (state_of (requests s)) (Operation ∘ EraseOp <$> ids1 ++ ids) →
  Z.of_nat (length (requests s ++ (Operation ∘ EraseOp <$> ids1 ++ ids))) < 2 ^ 62 →
  let n := Z.of_nat (length (requests s) + length ids1) + 1 in
  Forall (event_matches (requests s ++ (Operation ∘ EraseOp <$> ids1 ++ ids))) (erasing_events n ids) ∧ Forall (λ id, 0 < id < 2 ^ 63) ids.
Proof.
  revert ids1. induction ids as [|id ids IH]; intros ids1 Hok Hmax n; [by split; constructor|].
  assert (Happ : ids1 ++ id :: ids = (ids1 ++ [id]) ++ ids) by by rewrite <-app_assoc.
  destruct (IH (ids1 ++ [id])) as [IH1 IH2]; [by rewrite <-Happ|by rewrite <-Happ|]. rewrite <-Happ in IH1.
  rewrite length_app in IH1. cbn [length] in IH1.
  replace (Z.of_nat (length (requests s) + (length ids1 + 1)) + 1) with (n + 1) in IH1 by (unfold n; lia).
  split; constructor; [|exact IH1| |exact IH2].
  - exists (Operation (EraseOp id)). cbn [fst snd raw_event raw_of op_entry]. split_and!; [unfold n; lia| |done].
    replace (Z.to_nat (n - 1)) with (length (requests s) + length ids1)%nat by (unfold n; lia). apply erase_requests_at.
    by apply list_lookup_middle.
  - rewrite fmap_app, requests_ok_app in Hok. destruct Hok as [Hok1 [Hid _]]. cbn in Hid.
    assert (Hall : requests_ok log_start (requests s ++ (Operation ∘ EraseOp <$> ids1))).
    { apply requests_ok_app. split; [apply (so_requests _ _ _ _ Hs)|done]. }
    apply ids_given in Hall; [|rewrite !length_app, !length_fmap, !length_app in *; cbn in *; lia].
    unfold state_of in Hall, Hid. rewrite foldl_app in Hall. apply list_elem_of_fmap in Hid as (e & -> & He).
    rewrite Forall_forall in Hall. by apply Hall.
Qed.
Lemma step_erase_goes ids s' n : last_event_id_ s + Z.of_nat (length ids) < 2 ^ 62 →
  requests_ok (state_of (requests s)) (Operation ∘ EraseOp <$> ids) → erase_batch_impl ids s = Ok (s', n) →
  system_goes s j (with_record (Operation ∘ EraseOp <$> ids) [] s').
Proof.
  intros Hmax Hok. unfold erase_batch_impl. destruct (so_count _ _ _ _ Hs) as [Hl _].
  intros (shift & ->%narrow_cast_value & E)%bind_Ok; [|lia]. destruct (Z.eqb_spec (Z.of_nat (length ids)) 0) as [Hz|Hz].
  - injection E as <- _. destruct ids; [|done]. unfold with_record. cbn. rewrite app_nil_r. destruct s. split; [by exists j, k, m|done|apply extends_refl].
  - unfold fetch_add in E. injection E as <- _. rewrite u64_small by (unfold two64; lia).
    destruct (erasing_events_match ids [] Hok) as [Hev Hids].
    { cbn [app]. rewrite length_app, length_fmap. lia. }
    cbn [app length] in Hev. rewrite Nat.add_0_r, <-Hl in Hev.
    pose proof (system_sends (EraseBatch (last_event_id_ s) ids) (Operation ∘ EraseOp <$> ids) []) as Hg.
    rewrite length_fmap in Hg. apply Hg; [split_and!; [lia|lia|done]|lia|done|done|exact Hev|by intros q Hq%elem_of_nil|].
    assert (Hno : Forall (λ x, sync_promise x.2 = None) (erasing_events (last_event_id_ s) ids)).
    { clear. generalize (last_event_id_ s). induction ids as [|id ids IH]; intros z; constructor; [done|apply IH]. }
    intros x q Hx Hq. rewrite Forall_forall in Hno. rewrite (Hno x Hx) in Hq. done.
Qed.

Lemma step_force_sync_goes c promise : clock_ok c → new_promise promise s →
  system_goes s j (with_record [] (waits_for promise (arrived s)) (with_actor (force_sync c promise (actor_ s)) s)).
Proof.
  intros Hc Hnew. pose proof Hs as [[Hl1 Hl2] Hr Ha Ht _ _ _ _ Harr _ _].
  set (qs := waits_for promise (arrived s)).
  assert (Hq : ∀ q, q ∈ qs.*1 → q ∉ (promises s).*1 ∧ promise = Some q).
  { intros q Hq. unfold qs in Hq. destruct promise as [p|]; [|by apply elem_of_nil in Hq]. apply list_elem_of_singleton in Hq. cbn in Hq. subst q.
    split; [by apply Hnew|done]. }
  assert (Ha' : actor_ok db_key (requests s) (covered (qs ++ promises s)) (actor_ s) j k m).
  { eapply actor_ok_grows; [done| |exact Ha]. intros p n. apply covered_new. intros q Hq'. by apply Hq. }
  destruct (actor_force_sync db_key (requests s) _ (covered_mono _) ltac:(lia) _ _ _ _ Ha' Ht c promise Hc) as (Ha2 & Ht2 & Hb & Hh).
  { intros p ->. apply covered_first; [by apply Hnew|]. rewrite Forall_forall. intros n Hn.
    destruct (Harr n Hn) as [Hle|Hsome].
    - pose proof (or_end _ _ _ (ao_ordered _ _ _ _ _ _ _ Ha)). lia.
    - pose proof (waiting_after _ _ _ _ _ _ _ n Ha Hsome). lia. }
  pose proof (system_acts _ j [] qs (Nat.le_refl _) Ha2 Ht2) as Hg. unfold with_record. cbn [requests with_actor]. rewrite app_nil_r.
  apply Hg; [rewrite Hb; apply extends_refl| |constructor|auto]. intros q Hq'. apply Hq in Hq' as [Hq1 Hq2]. auto.
Qed.
Lemma step_flush_goes : ∃ a, force_flush (actor_ s) = Ok a ∧ system_goes s j (with_actor a s).
Proof.
  pose proof Hs as [[Hl1 Hl2] Hr Ha Ht _ _ _ _ _ _ _].
  destruct (actor_force_flush db_key (requests s) _ (covered_mono _) ltac:(lia) _ _ _ _ Ha Ht) as (a & E & Ha' & Ht' & Hd & Hh).
  exists a. split; [done|]. apply (system_acts a j [] []); try done; [|auto]. by intros q Hq%elem_of_nil.
Qed.
Lemma step_timeout_goes c : clock_ok c → ∃ a, timeout_expired c (actor_ s) = Ok (a, sync_promises_ (actor_ s)) ∧
  system_goes s j (with_answered (sync_promises_ (actor_ s)) (with_actor a s)).
Proof.
  intros Hc. pose proof Hs as [[Hl1 Hl2] Hr Ha Ht _ _ _ _ _ _ _].
  destruct (actor_timeout db_key (requests s) _ (covered_mono _) ltac:(lia) _ _ _ _ Ha Ht c Hc) as (a & j' & E & Hj & Ha' & Ht' & Hp & Hd & Hh).
  exists a. split; [done|]. apply (system_acts a j' _ []); try done. by intros q Hq%elem_of_nil.
Qed.
End system.

(** ** Sequences of steps *)

Lemma step_goes db_key s s' j k m : system_ok db_key s j k m → system_step s s' → system_goes db_key s j s'.
Proof.
  intros Hs Hstep. destruct Hstep as [r promise s s' Hmax Hok Hnew E|ids s s' n Hmax Hok E|cs m0 ms1 ms2 s a Hc Hsent E|c promise s Hc Hnew|s a E|c s a ps Hc Hw E].
  - by eapply step_issue_goes.
  - by eapply step_erase_goes.
  - destruct (system_delivers db_key s j k m Hs cs m0 ms1 ms2 Hc Hsent) as (a' & E' & Hg). rewrite E in E'. by injection E' as <-.
  - by eapply step_force_sync_goes.
  - destruct (step_flush_goes db_key s j k m Hs) as (a' & E' & Hg). rewrite E in E'. by injection E' as <-.
  - destruct (step_timeout_goes db_key s j k m Hs c Hc) as (a' & E' & Hg). rewrite E in E'. by injection E' as <- ->.
Qed.
Lemma steps_go db_key s s' j k m : system_ok db_key s j k m → rtc system_step s s' → system_goes db_key s j s'.
Proof.
  intros Hs Hsteps. revert j k m Hs. induction Hsteps as [s|s1 s2 s3 Hstep Hsteps IH]; intros j k m Hs.
  - split; [by exists j, k, m|done|apply extends_refl].
  - destruct (step_goes _ _ _ _ _ _ Hs Hstep) as [(j' & k' & m' & Hj & Hs2) Hr1 Hd1].
    destruct (IH j' k' m' Hs2) as [(j3 & k3 & m3 & Hj3 & Hs3) Hr2 Hd2].
    pose proof (prefix_length _ _ Hr2) as Hlen. split; [exists j3, k3, m3; split; [lia|done]|by etrans|].
    eapply extends_trans; (eapply extends_weaken; [|eassumption]); intros d; apply recoverable_weaken; intros v.
    + by apply between_weaken.
    + by apply between_weaken.
Qed.

Lemma system_starts b db_key : settled_open b db_key [] → last_id_ b = 0 → system_ok db_key (init_impl b) 0 0 ∅.
Proof.
  intros [Ho Hk] Hi. rewrite Hi in Ho. unfold init_impl. rewrite Hi. change (u64 (0 + 1)) with 1.
  split; cbn [last_event_id_ sent_ actor_ requests arrived promises answered]; try done; try (intros ? []%elem_of_nil); try (intros; cbn in *; lia); try by constructor.
  split; cbn; try done; try lia.
  - split; [|done]. eapply open_weaken; [|exact Ho]. intros v ->. by exists 0%nat.
  - constructor.
Qed.

Lemma all_passed db_key s j k m : system_ok db_key s j k m → sent_ s = [] → k = length (requests s).
Proof.
  intros [_ _ Ha _ _ _ _ Hn _ _ _] Hnil. pose proof (ao_count _ _ _ _ _ _ _ Ha) as Hk.
  destruct (decide (k = length (requests s))) as [|Hne]; [done|]. destruct (Hn (Z.of_nat k + 1)) as [Hx|[d Hx]]; [lia| |].
  - unfold sent_events in Hx. rewrite Hnil in Hx. by apply elem_of_nil in Hx.
  - by rewrite (or_missing _ _ _ (ao_ordered _ _ _ _ _ _ _ Ha)) in Hx.
Qed.
(** When everything has arrived, what has not been answered waits for the timer. *)
Lemma nothing_sent db_key s j k m p : system_ok db_key s j k m → sent_ s = [] → p ∈ (promises s).*1 →
  p ∈ answered s ∨ p ∈ sync_promises_ (actor_ s) ∧ wakeup_at_ (actor_ s) ≠ 0.
Proof.
  intros Hs Hnil Hin. pose proof (all_passed _ _ _ _ _ Hs Hnil) as Hkl. destruct Hs as [_ _ Ha Ht _ _ _ _ _ _ Hp]. destruct Ha as [Hk _ Ho _ Hw Htm _ _ Hi].
  assert (He : sent_events s = []) by (unfold sent_events; by rewrite Hnil). rewrite He in Hp.
  destruct (Hp p Hin) as [Hx|[[Hx|[Hx|(n & d & Hx & _)]]|Hx%elem_of_nil]]; [by left| | | |done].
  - right. split; [done|]. apply (tm_set _ Htm), (tm_promises _ Htm). intros Hnil'. rewrite Hnil' in Hx. by apply elem_of_nil in Hx.
  - apply list_elem_of_fmap in Hx as (x & _ & Hx). unfold on_time in Ht. rewrite Forall_forall in Ht, Hi.
    specialize (Ht x Hx). destruct (Hi x Hx). lia.
  - destruct (Hw n d Hx) as [Hm _]. pose proof (event_number _ _ Hm). cbn in *.
    destruct (wt_waiting _ _ _ (or_waiting _ _ _ Ho) n d Hx). lia.
Qed.
End facts.
