(* ===== verification/BinlogProperties.v ===== *)
(** * What the log and the store promise

    The theorems of the write-ahead log and of the key-value store that is kept in it,
    each at work on a log with simple functions in place of the cryptographic ones. *)
From S2P Require Import Prelude Bytes TlParsers TlParserFacts TlHelpers BinlogEvent BinlogEventsProcessor FileSystem BinlogState Binlog BinlogFormat BinlogRun BinlogOps BinlogOpen BinlogDecrypt BinlogInit BinlogCrash BinlogKeyValue BinlogKeyValueFacts BinlogKeyValueBatch ConcurrentBinlog.

(** ** Simple functions that keep the laws *)

Definition sum_bytes (l : list Z) : Z := foldl Z.add 0 l.
(** The key stream; the theorems hold for any. *)
Definition simple_crypto (stream : nat → Z) : Crypto := {|
  crc32 l := foldl (λ a b, a * 31 + b) 7 l mod 2 ^ 32;
  pbkdf2_sha256 password salt n := replicate 32 ((sum_bytes password + sum_bytes salt + n) mod 256);
  hmac_sha256 key message := replicate 32 (sum_bytes key mod 256);
  aes_ctr key iv i := stream i mod 256;
  secure_bytes i n := replicate n (Z.of_nat (i + 1) mod 256) |}.
Lemma replicate_bytes n x : bytes_ok (replicate n (x mod 256)).
Proof. apply Forall_replicate. unfold byte. pose proof (Z.mod_pos_bound x 256). lia. Qed.
Lemma simple_laws stream : @CryptoLaws (simple_crypto stream).
Proof.
  split.
  - intros l. by apply Z.mod_pos_bound.
  - intros password salt n. exact (replicate_bytes 32 _).
  - intros password salt n. exact (length_replicate 32 _).
  - intros key message. exact (replicate_bytes 32 _).
  - intros key message. exact (length_replicate 32 _).
  - intros key iv i. cbn. unfold byte. pose proof (Z.mod_pos_bound (stream i) 256). lia.
  - intros i n. exact (replicate_bytes n _).
  - intros i n. exact (length_replicate n _).
Qed.
#[local] Instance simple : Crypto := simple_crypto (λ i, Z.of_nat i * 37 + 5).
#[local] Existing Instance simple_laws.
Definition no_files : file_system := after_crash {| main_file := None; new_file := None |}.

(** ** The store *)

(** C4. The key-value store survives crashes. In a store that was just made, with a magic
    number in [0 .. INT_MAX] as the type of its events, fewer than [2^62] operations set
    and erase keys; each pair that is set has a non-empty key and fits an event
    ([op_ok]: its stored form has at most [MAX_SIZE - MIN_SIZE] bytes; nothing checks this,
    and a longer pair would be accepted and then lost with everything after it, as
    [long_event_ends_the_log] shows). Then what they leave is in the store; and if the program or the machine stops at any moment
    after [force_sync], and some suffix of what was written since is lost, then the store
    opens again, and holds what it held after a prefix of the operations that contains
    all those before [force_sync]. This is so with and without a password. *)
Theorem store_survives_crash `{CryptoLaws} drawn (db_key : DbKey) n fs ops1 ops2 :
  main_file (now fs) = None → new_file (now fs) = None → 0 ≤ n ≤ INT_MAX →
  Forall op_ok (ops1 ++ ops2) → Z.of_nat (length (ops1 ++ ops2)) < 2 ^ 62 →
  ∃ kv0 kv1 kv2 kv3, init_kv drawn fs db_key n = Ok (kv0, SOk) ∧ ops_run ops1 kv0 = Ok kv1 ∧ force_sync kv1 = Ok kv2 ∧
    ops_run ops2 kv2 = Ok kv3 ∧ contents (map_ kv3) = ops_map (ops1 ++ ops2) ∅ ∧
    ∀ d d' drawn', disk_since (fs_ (binlog_ kv2)) (fs_ (binlog_ kv3)) d → crash d d' →
      ∃ kv k, init_kv drawn' (after_crash d') db_key n = Ok (kv, SOk) ∧
        contents (map_ kv) = ops_map (ops1 ++ take k ops2) ∅.
Proof.
  intros Hm Hnew Hn Hok Hlen.
  destruct (crash_safe drawn db_key n fs ops1 ops2) as (kv0 & kv1 & kv2 & kv3 & H1 & H2 & H3 & H4 & H5 & Hcr); [done..|].
  exists kv0, kv1, kv2, kv3. split_and!; [done..|]. intros d d' drawn' Hd Hc.
  destruct (Hcr d d' drawn' Hd Hc) as (kv & k & E & HM & _). by exists kv, k.
Qed.
Lemma store_survives_crash_witness :
  let ops1 := [Set_ [1] [10; 11]; Set_ [2] [20]] in let ops2 := [Set_ [1] [12]; Erase_ [2]] in
  ∃ kv0 kv1 kv2 kv3, init_kv 0 no_files (Password [1; 2]) 0 = Ok (kv0, SOk) ∧ ops_run ops1 kv0 = Ok kv1 ∧
    force_sync kv1 = Ok kv2 ∧ ops_run ops2 kv2 = Ok kv3 ∧ contents (map_ kv3) = ops_map (ops1 ++ ops2) ∅ ∧
    ∀ d d' drawn', disk_since (fs_ (binlog_ kv2)) (fs_ (binlog_ kv3)) d → crash d d' →
      ∃ kv k, init_kv drawn' (after_crash d') (Password [1; 2]) 0 = Ok (kv, SOk) ∧
        contents (map_ kv) = ops_map (ops1 ++ take k ops2) ∅.
Proof.
  apply (store_survives_crash 0 (Password [1; 2]) 0 no_files); [done|done|unfold INT_MAX; lia| |done].
  repeat constructor; done || (unfold byte; lia) || by vm_compute.
Defined.

(** C11. The store is a map, in every state of a running store whose map has at most
    [INT_MAX] entries and whose identifiers are below [2^62]. Reading finds what is in the
    map, iteration each entry once; [set] of a non-empty key with a pair that fits an
    event ([kv_ok]: an empty key fails a check, and a pair beyond [MAX_SIZE] would be
    accepted and not recovered), [erase] of any key, [erase_batch] of fewer than [2^62]
    keys and [erase_by_prefix] do not fail and leave what the operations on finite maps
    leave; and the log stays one from which the new map,
    or one of those before, is recovered. *)
Theorem store_refines_map `{CryptoLaws} (visit : list (list Z * (list Z * Z)) → list (list Z * (list Z * Z))) kv
    (old : kv_map → Prop) : (∀ xs, visit xs ≡ₚ xs) → kv_running kv old →
  Z.of_nat (size (map_ kv)) ≤ INT_MAX → last_id_ (binlog_ kv) < 2 ^ 62 →
  let M := contents (map_ kv) in
  (∀ key, isset key kv = bool_decide (is_Some (M !! key)) ∧ get key kv = default [] (M !! key)) ∧
  for_each_kv visit kv ≡ₚ map_to_list M ∧
  (∀ key value, kv_ok key value → ∃ kv' n, set key value kv = Ok (kv', n) ∧
    contents (map_ kv') = <[key := value]> M ∧ kv_running kv' (λ M', old M' ∨ M' = <[key := value]> M)) ∧
  (∀ key, ∃ kv' n, erase key kv = Ok (kv', n) ∧
    contents (map_ kv') = delete key M ∧ kv_running kv' (λ M', old M' ∨ M' = delete key M)) ∧
  (∀ keys, Z.of_nat (length keys) < 2 ^ 62 → ∃ kv' n, erase_batch keys kv = Ok (kv', n) ∧
    contents (map_ kv') = deleted keys M ∧ kv_running kv' (λ M', old M' ∨ some_deleted keys M M')) ∧
  (∀ prefix, ∃ kv' keys, erase_by_prefix visit prefix kv = Ok kv' ∧
    contents (map_ kv') = filter (λ x, begins_with x.1 prefix = false) M ∧
    kv_running kv' (λ M', old M' ∨ some_deleted keys M M')).
Proof.
  intros Hvisit Hr Hsize Hroom M. assert (2 ^ 62 + 2 ^ 62 = 2 ^ 63) by done. split_and!.
  - intros key. unfold M, isset, get, contents. rewrite lookup_fmap. by destruct (map_ kv !! key) as [[value id]|].
  - by apply for_each_contents.
  - intros key value Hok. destruct (kv_set_spec kv old key value Hr Hok) as (kv' & n & E & HM & [Hg _ _] & _); [unfold id_room; lia|].
    by exists kv', n.
  - intros key. destruct (kv_erase_spec kv old key Hr) as (kv' & n & E & HM & [Hg _ _] & _); [unfold id_room; lia|].
    by exists kv', n.
  - intros keys Hk. destruct (erase_batch_spec kv old keys Hr) as (kv' & n & E & HM & [Hg _ _] & _); [lia|]. by exists kv', n.
  - intros prefix. pose proof (with_prefix_size visit Hvisit prefix (map_ kv)).
    destruct (erase_by_prefix_spec visit Hvisit kv old prefix Hr) as (kv' & E & HM & [Hg _ _] & _); [lia|unfold INT_MAX in *; lia|].
    by eexists kv', _.
Qed.
Lemma store_refines_map_witness :
  ∃ kv kv' n, init_kv 0 no_files EmptyKey 0 = Ok (kv, SOk) ∧ set [1] [2; 3] kv = Ok (kv', n) ∧
    contents (map_ kv') = {[ [1] := [2; 3] ]}.
Proof.
  destruct (kv_create 0 EmptyKey 0 no_files eq_refl eq_refl ltac:(unfold INT_MAX; lia)) as (kv & E & HM & [Hr _] & Hi).
  destruct (store_refines_map id kv (λ M, M = contents (map_ kv))) as (_ & _ & Hset & _);
    [done|done|by rewrite HM|by rewrite Hi|].
  destruct (Hset [1] [2; 3]) as (kv' & n & E' & HM' & _).
  { repeat constructor; done || (unfold byte; lia) || by vm_compute. }
  exists kv, kv', n. split; [exact E|]. split; [exact E'|]. by rewrite HM', HM.
Defined.

(** ** The log *)

(** C6. The log survives crashes. Events are added, rewritten and erased in a log that was
    just made, fewer than [2^62] in all, and the log is synced in between. The data of
    each event is within [MAX_SIZE] and 4-aligned with its frame, its type in
    [0 .. INT_MAX], and only entries in force are rewritten or erased ([log_ops_ok]; a
    longer event would be accepted and lost with everything after it, see
    [long_event_ends_the_log]). If the program or the machine stops at
    any moment after the sync, even while the file is written anew, [init] opens what is left
    of the files: it succeeds and passes on the entries in force after a prefix of the
    operations that contains all those before [sync], and the log can be used again. *)
Theorem log_survives_crash `{CryptoLaws} drawn (db_key : DbKey) fs ops1 ops2 :
  main_file (now fs) = None → new_file (now fs) = None →
  log_ops_ok log_start (ops1 ++ ops2) → Z.of_nat (length (ops1 ++ ops2)) < 2 ^ 62 →
  ∃ b0 b1 b2 b3, init_binlog db_key EmptyKey (new_Binlog drawn fs) = Ok (b0, SOk, []) ∧ log_runs ops1 b0 = Ok b1 ∧
    sync b1 = Ok b2 ∧ log_runs ops2 b2 = Ok b3 ∧
    ∀ d d' drawn' old, disk_since (fs_ b2) (fs_ b3) d → crash d d' →
      ∃ b events k, init_binlog db_key old (new_Binlog drawn' (after_crash d')) = Ok (b, SOk, events) ∧
        let l := (op_steps (ops1 ++ take k ops2) log_start).1 in
        Forall2 (is_event crc32) l events ∧ open_log b l (last_id_ b) (λ v, v = l).
Proof.
  intros Hm Hn Hok Hlen.
  destruct (log_crash_safe drawn db_key fs ops1 ops2 Hm Hn Hok Hlen) as (b0 & b1 & b2 & b3 & H1 & H2 & H3 & H4 & Hcr).
  exists b0, b1, b2, b3. split_and!; [done..|]. intros d d' drawn' old Hd Hc.
  destruct (Hcr d d' drawn' old Hd Hc) as (b & events & k & E & Hev & Ho & _). by exists b, events, k.
Qed.
Lemma log_survives_crash_witness :
  let ops1 := [AddOp 5 [1; 2; 3; 4]; AddOp 6 []] in let ops2 := [RewriteOp 1 7 [5; 6; 7; 8]; EraseOp 2; AddOp 8 []] in
  (op_steps (ops1 ++ ops2) log_start).1 =
    [{| e_id := 1; e_type := 7; e_flags := 1; e_data := [5; 6; 7; 8] |};
     {| e_id := 5; e_type := 8; e_flags := 0; e_data := [] |}] ∧
  ∃ b0 b1 b2 b3, init_binlog (Password [1; 2]) EmptyKey (new_Binlog 0 no_files) = Ok (b0, SOk, []) ∧
    log_runs ops1 b0 = Ok b1 ∧ sync b1 = Ok b2 ∧ log_runs ops2 b2 = Ok b3 ∧
    ∀ d d' drawn' old, disk_since (fs_ b2) (fs_ b3) d → crash d d' →
      ∃ b events k, init_binlog (Password [1; 2]) old (new_Binlog drawn' (after_crash d')) = Ok (b, SOk, events) ∧
        let l := (op_steps (ops1 ++ take k ops2) log_start).1 in
        Forall2 (is_event crc32) l events ∧ open_log b l (last_id_ b) (λ v, v = l).
Proof.
  split; [reflexivity|]. apply (log_survives_crash 0 (Password [1; 2]) no_files); [done|done| |done].
  repeat split; try (unfold INT_MAX; cbn; lia); try (repeat constructor; unfold byte; lia); try (by vm_compute);
    apply (bool_decide_unpack _); by vm_compute.
Defined.

(** C12. Changing the key of a log that is synced loses nothing. In a log that was just made,
    events that fit are added, rewritten and erased ([log_ops_ok], as for
    [log_survives_crash]), the log is synced, and the key is changed right after. If the
    program or the machine stops at any moment of the change, the log opens with the old
    key or with the new one, and once the change is done with the new one, and [init]
    passes on all the entries in force. (Without the sync, entries can be lost:
    [change_key_drops_sync].) *)
Theorem change_key_survives_crash `{CryptoLaws} drawn (db_key k : DbKey) fs ops :
  main_file (now fs) = None → new_file (now fs) = None →
  log_ops_ok log_start ops → Z.of_nat (length ops) < 2 ^ 62 → let l := (op_steps ops log_start).1 in
  ∃ b0 b1 b2 b3, init_binlog db_key EmptyKey (new_Binlog drawn fs) = Ok (b0, SOk, []) ∧ log_runs ops b0 = Ok b1 ∧
    sync b1 = Ok b2 ∧ change_key k b2 = Ok b3 ∧
    ∀ d d' drawn' old, disk_since (fs_ b2) (fs_ b3) d → crash d d' →
      ∃ key b events, (key = k ∨ key = db_key ∧ d ≠ now (fs_ b3)) ∧
        init_binlog key old (new_Binlog drawn' (after_crash d')) = Ok (b, SOk, events) ∧
        Forall2 (is_event crc32) l events.
Proof.
  intros Hm Hn Hok Hlen l.
  destruct (change_key_safe drawn db_key k fs ops Hm Hn Hok Hlen) as (b0 & b1 & b2 & b3 & H1 & H2 & H3 & H4 & Hcr).
  exists b0, b1, b2, b3. split_and!; [done..|]. intros d d' drawn' old Hd Hc.
  destruct (Hcr d d' drawn' old Hd Hc) as (key & b & events & Hkey & E & Hev & _). by exists key, b, events.
Qed.
Lemma change_key_survives_crash_witness :
  let ops := [AddOp 5 [1; 2; 3; 4]; AddOp 6 []] in
  ∃ b0 b1 b2 b3, init_binlog EmptyKey EmptyKey (new_Binlog 0 no_files) = Ok (b0, SOk, []) ∧
    log_runs ops b0 = Ok b1 ∧ sync b1 = Ok b2 ∧ change_key (Password [1; 2]) b2 = Ok b3 ∧
    ∀ d d' drawn' old, disk_since (fs_ b2) (fs_ b3) d → crash d d' →
      ∃ key b events, (key = Password [1; 2] ∨ key = EmptyKey ∧ d ≠ now (fs_ b3)) ∧
        init_binlog key old (new_Binlog drawn' (after_crash d')) = Ok (b, SOk, events) ∧
        Forall2 (is_event crc32) (op_steps ops log_start).1 events.
Proof.
  apply (change_key_survives_crash 0 EmptyKey (Password [1; 2]) no_files); [done|done| |done].
  repeat split; try (unfold INT_MAX; cbn; lia); try (repeat constructor; unfold byte; lia); by vm_compute.
Defined.

(** C20. A wrong password is reported and costs nothing: when the key that is given does not
    have the hash that the file starts with, nor has the old key that may be given too,
    [init] returns the error, passes on no event, and leaves the files as they were,
    whatever follows in the file. *)
Theorem wrong_password_changes_nothing `{CryptoLaws} drawn fs f (real db_key old : DbKey) c rest :
  main_file (now fs) = Some f → cipher_ok real c → content f = cipher_head (Some c) ++ rest →
  wrong_key c db_key → (old ≠ EmptyKey → wrong_key c old) →
  ∃ b, init_binlog db_key old (new_Binlog drawn fs) = Ok (b, SError WrongPassword "Wrong password", []) ∧
    fs_ b = fs ∧ fd_ b = None.
Proof. apply init_refused. Qed.
Lemma wrong_password_changes_nothing_witness :
  let c := {| c_salt := replicate 32 3; c_iv := replicate 16 4;
              c_key := pbkdf2_sha256 [1; 2] (replicate 32 3) kdf_iteration_count |} in
  let fs := after_crash {| main_file := Some {| content := cipher_head (Some c) ++ [1; 2; 3]; durable := 0 |}; new_file := None |} in
  ∃ b, init_binlog (Password [1; 3]) EmptyKey (new_Binlog 0 fs) = Ok (b, SError WrongPassword "Wrong password", []) ∧
    fs_ b = fs ∧ fd_ b = None.
Proof.
  set (c := {| c_salt := replicate 32 3; c_iv := _; c_key := _ |}). intros c' fs.
  apply (wrong_password_changes_nothing 0 fs {| content := cipher_head (Some c) ++ [1; 2; 3]; durable := 0 |}
    (Password [1; 2]) (Password [1; 3]) EmptyKey c [1; 2; 3]); [done| |done| |done].
  - repeat split; repeat constructor; unfold byte; lia.
  - apply (bool_decide_unpack _). by vm_compute.
Defined.

(** ** The concurrent log *)

(** Two threads: the second event arrives first, and is forced to the disk. *)
Definition new_log : Binlog :=
  Eval vm_compute in match init_binlog EmptyKey EmptyKey (new_Binlog 0 no_files) with Ok (b, _, _) => b | Fault _ => new_Binlog 0 no_files end.
Definition at_time (t : Z) : BinlogActor.Clock := {| BinlogActor.now_cached := t; BinlogActor.flush_since := 0 |}.
Lemma two_threads : init_binlog EmptyKey EmptyKey (new_Binlog 0 no_files) = Ok (new_log, SOk, []) ∧
  ∃ s, rtc system_step (init_impl new_log) s ∧ answered s = [7; 8] ∧ promises s = [(8, [2]); (7, [1])] ∧ sent_ s = [] ∧
    requests s = [Operation (AddOp 5 [1; 2; 3; 4]); Operation (AddOp 6 [])] ∧ last_event_id_ s = 3.
Proof.
  split; [vm_compute; reflexivity|].
  assert (Hok : ∀ data, data = [1; 2; 3; 4] ∨ data = [] → ∀ s type, type = 5 ∨ type = 6 → request_ok s (Operation (AddOp type data))).
  { intros data Hd s type Ht. cbn. split; [unfold INT_MAX; naive_solver lia| |].
    - destruct Hd as [-> | ->]; repeat constructor; unfold byte; lia.
    - destruct Hd as [-> | ->]; by vm_compute. }
  assert (Hclock : ∀ t, 0 < t → clock_ok (at_time t)) by (intros t Ht; by split).
  eexists. split.
  - eapply rtc_l; [apply (step_issue (Operation (AddOp 5 [1; 2; 3; 4])) (Some 7)); [by vm_compute|apply Hok; auto|by intros p _ ?%elem_of_nil|vm_compute; reflexivity]|].
    eapply rtc_l; [apply (step_issue (Operation (AddOp 6 [])) None); [by vm_compute|apply Hok; auto|done|vm_compute; reflexivity]|].
    eapply rtc_l; [eapply (step_deliver (λ _, at_time 10) _ [_] []); [intros; by apply Hclock|vm_compute; reflexivity|vm_compute; reflexivity]|].
    eapply rtc_l; [eapply (step_force_sync (at_time 20) (Some 8)); [by apply Hclock|]|].
    { intros p [= <-]. apply (bool_decide_unpack _). by vm_compute. }
    eapply rtc_l; [eapply (step_deliver (λ _, at_time 30) _ [] []); [intros; by apply Hclock|vm_compute; reflexivity|vm_compute; reflexivity]|].
    eapply rtc_l; [eapply (step_timeout (at_time 40000000)); [by apply Hclock|by vm_compute|vm_compute; reflexivity]|].
    apply rtc_refl.
  - split_and!; vm_compute; reflexivity.
Qed.

(** C5. Promises that the concurrent log has answered are kept, for requests that fit: the data
    of an event is within [MAX_SIZE] and 4-aligned with its frame and its type in
    [0 .. INT_MAX] (a longer event would be accepted and lost with all after it, see
    [long_event_ends_the_log]), only entries in force after the requests before are
    rewritten or erased, fewer than [2^62] numbers are given out, and each promise is
    given once. Threads make such requests in a log that was made where there was none;
    their events arrive at the actor in any order, between syncs that are asked for,
    flushes and the timer (neither a change of the key nor closing is among the steps).
    After a crash at any moment
    from [s] on, [init] finds the entries in force after some number [k] of the requests,
    in the order of their numbers; and [k] reaches every event that a promise answered by
    [s] waited for: its own, or for [force_sync] all that had arrived. *)
Theorem answered_promises_survive_crash `{CryptoLaws} drawn (db_key : DbKey) fs : main_file (now fs) = None → new_file (now fs) = None →
  ∃ b, init_binlog db_key EmptyKey (new_Binlog drawn fs) = Ok (b, SOk, []) ∧
    ∀ s s', rtc system_step (init_impl b) s → rtc system_step s s' →
    ∀ d d' drawn' old, disk_since (fs_ (BinlogActor.binlog_ (actor_ s))) (fs_ (BinlogActor.binlog_ (actor_ s'))) d → crash d d' →
      ∃ b' events k, init_binlog db_key old (new_Binlog drawn' (after_crash d')) = Ok (b', SOk, events) ∧
        (k ≤ length (requests s'))%nat ∧ Forall2 (is_event crc32) (state_of (take k (requests s'))).1 events ∧
        ∀ p ns n, p ∈ answered s → (p, ns) ∈ promises s → n ∈ ns → n ≤ Z.of_nat k.
Proof.
  intros Hm Hn. destruct (init_create drawn fs db_key EmptyKey Hm Hn) as (b & E & Hb & Hi & _). exists b. split; [done|].
  intros s s' H1 H2 d d' drawn' old Hd Hcr.
  destruct (sg_ok _ _ _ _ (steps_go _ _ _ _ _ _ (system_starts _ _ Hb Hi) H1)) as (j & k & m & _ & Hs).
  pose proof (steps_go _ _ _ _ _ _ Hs H2) as [_ Hr Hx].
  pose proof (ao_count _ _ _ _ _ _ _ (so_actor _ _ _ _ _ Hs)) as Hk. pose proof (prefix_length _ _ Hr).
  assert (Hdisk : recoverable db_key (between (requests s') j (length (requests s'))) d).
  { destruct (ao_log _ _ _ _ _ _ _ (so_actor _ _ _ _ _ Hs)) as [Ho Hkey]. apply (since_extends _ _ _ _ Hx); [|done].
    rewrite <-Hkey. eapply recoverable_weaken; [|by eapply open_recoverable]. intros v. by apply between_weaken; [|lia|..|lia]. }
  destruct (crash_holds _ _ _ _ Hdisk Hcr) as (l & (i & Hij & ->) & Hh).
  destruct (init_recovers drawn' (after_crash d') db_key old _ Hh) as (b' & events & E' & Hev & _).
  exists b', events, i. split_and!; [done|lia|done|]. intros p ns n Hp Hns Hin. pose proof (so_answered _ _ _ _ _ Hs) as Hans.
  rewrite Forall_forall in Hans. destruct (Hans p Hp) as [_ Hc]. specialize (Hc ns Hns). rewrite Forall_forall in Hc.
  specialize (Hc n Hin). cbn in Hc. lia.
Qed.

Lemma answered_promises_survive_crash_witness :
  ∃ s, rtc system_step (init_impl new_log) s ∧ answered s = [7; 8] ∧ promises s = [(8, [2]); (7, [1])] ∧
    ∀ s', rtc system_step s s' → ∀ d d' drawn' old,
      disk_since (fs_ (BinlogActor.binlog_ (actor_ s))) (fs_ (BinlogActor.binlog_ (actor_ s'))) d → crash d d' →
      ∃ b' events k, init_binlog EmptyKey old (new_Binlog drawn' (after_crash d')) = Ok (b', SOk, events) ∧
        (k ≤ length (requests s'))%nat ∧ Forall2 (is_event crc32) (state_of (take k (requests s'))).1 events ∧
        ∀ p ns n, p ∈ answered s → (p, ns) ∈ promises s → n ∈ ns → n ≤ Z.of_nat k.
Proof.
  destruct (answered_promises_survive_crash 0 EmptyKey no_files eq_refl eq_refl) as (b & E & Hall).
  destruct two_threads as (E' & s & Hs & Ha & Hp & _). rewrite E in E'. injection E' as ->.
  exists s. split; [exact Hs|]. split; [exact Ha|]. split; [exact Hp|]. intros s' Hs'. exact (Hall s s' Hs Hs').
Defined.

(** C27. The concurrent log answers. Whatever steps were made, no check of the log or of the
    actor fails: any request that fits can be made, any message can arrive, and a flush or
    the timer is handled; when the timer expires, all promises that wait for it are
    answered. Once all messages have arrived, no promise waits for anything else, and the
    timer is set while one waits. *)
Theorem concurrent_log_answers `{CryptoLaws} drawn (db_key : DbKey) fs : main_file (now fs) = None → new_file (now fs) = None →
  ∃ b, init_binlog db_key EmptyKey (new_Binlog drawn fs) = Ok (b, SOk, []) ∧
    ∀ s c, rtc system_step (init_impl b) s → clock_ok c →
      (∀ r promise, last_event_id_ s < 2 ^ 62 → request_ok (state_of (requests s)) r → ∃ s', issue r promise s = Ok s') ∧
      (∀ cs ms1 m ms2, (∀ i, clock_ok (cs i)) → sent_ s = ms1 ++ m :: ms2 → ∃ a, deliver cs m (actor_ s) = Ok a) ∧
      (∃ a, BinlogActor.force_flush (actor_ s) = Ok a) ∧
      (∃ a, BinlogActor.timeout_expired c (actor_ s) = Ok (a, BinlogActor.sync_promises_ (actor_ s))) ∧
      (sent_ s = [] → ∀ p, p ∈ (promises s).*1 →
        p ∈ answered s ∨ p ∈ BinlogActor.sync_promises_ (actor_ s) ∧ BinlogActor.wakeup_at_ (actor_ s) ≠ 0).
Proof.
  intros Hm Hn. destruct (init_create drawn fs db_key EmptyKey Hm Hn) as (b & E & Hb & Hi & _). exists b. split; [done|].
  intros s c H1 Hc. destruct (sg_ok _ _ _ _ (steps_go _ _ _ _ _ _ (system_starts _ _ Hb Hi) H1)) as (j & k & m & _ & Hs). split_and!.
  - intros r promise Hmax Hok. eexists. by eapply issue_spec.
  - intros cs ms1 m0 ms2 Hcs Hsent. destruct (system_delivers _ _ _ _ _ Hs cs m0 ms1 ms2 Hcs Hsent) as (a & E' & _). by exists a.
  - destruct (step_flush_goes _ _ _ _ _ Hs) as (a & E' & _). by exists a.
  - destruct (step_timeout_goes _ _ _ _ _ Hs c Hc) as (a & E' & _). by exists a.
  - intros Hsent p. by eapply nothing_sent.
Qed.

Lemma concurrent_log_answers_witness :
  ∃ s, rtc system_step (init_impl new_log) s ∧ requests s = [Operation (AddOp 5 [1; 2; 3; 4]); Operation (AddOp 6 [])] ∧ sent_ s = [] ∧
    ∀ c, clock_ok c →
      (∃ s', issue (Operation (EraseOp 2)) (Some 9) s = Ok s') ∧
      (∃ a, BinlogActor.timeout_expired c (actor_ s) = Ok (a, BinlogActor.sync_promises_ (actor_ s))) ∧
      ∀ p, p ∈ [8; 7] → p ∈ answered s ∨ p ∈ BinlogActor.sync_promises_ (actor_ s) ∧ BinlogActor.wakeup_at_ (actor_ s) ≠ 0.
Proof.
  destruct (concurrent_log_answers 0 EmptyKey no_files eq_refl eq_refl) as (b & E & Hall).
  destruct two_threads as (E' & s & Hs & _ & Hp & Hsent & Hr & Hl). rewrite E in E'. injection E' as ->.
  exists s. split; [exact Hs|]. split; [exact Hr|]. split; [exact Hsent|]. intros c Hc.
  destruct (Hall s c Hs Hc) as (H1 & _ & _ & H4 & H5). split; [|split; [exact H4|]].
  - apply H1; [by rewrite Hl|]. rewrite Hr. cbn. right. by left.
  - intros p Hin. apply (H5 Hsent). rewrite Hp. exact Hin.
Defined.

(** Closing keeps everything that has arrived in order: when all messages have arrived, the
    next session finds the entries of all requests. *)
Lemma closing_keeps_all `{CryptoLaws} drawn (db_key : DbKey) fs : main_file (now fs) = None → new_file (now fs) = None →
  ∃ b, init_binlog db_key EmptyKey (new_Binlog drawn fs) = Ok (b, SOk, []) ∧
    ∀ s promise, rtc system_step (init_impl b) s → sent_ s = [] →
      ∃ b', BinlogActor.actor_close promise (actor_ s) = Ok (b', option_list promise) ∧
        ∀ d' drawn' old, crash (now (fs_ b')) d' →
          ∃ b2 events, init_binlog db_key old (new_Binlog drawn' (after_crash d')) = Ok (b2, SOk, events) ∧
            Forall2 (is_event crc32) (state_of (requests s)).1 events.
Proof.
  intros Hm Hn. destruct (init_create drawn fs db_key EmptyKey Hm Hn) as (b & E & Hb & Hi & _). exists b. split; [done|].
  intros s promise H1 Hsent. destruct (sg_ok _ _ _ _ (steps_go _ _ _ _ _ _ (system_starts _ _ Hb Hi) H1)) as (j & k & m & _ & Hs).
  destruct (actor_closes _ _ _ _ _ _ _ (so_actor _ _ _ _ _ Hs) promise) as (b' & E' & _ & Hr & _).
  exists b'. split; [done|]. intros d' drawn' old Hcr.
  destruct (crash_holds _ _ _ _ Hr Hcr) as (l & -> & Hh).
  destruct (init_recovers drawn' (after_crash d') db_key old _ Hh) as (b2 & events & E2 & Hev & _).
  exists b2, events. split; [done|]. rewrite (all_passed _ _ _ _ _ Hs Hsent), firstn_all in Hev. done.
Qed.

(** ** Events *)

(** C17. An event is read back as it was written: for an object of any type that can be
    serialized, [create_raw] makes bytes that [init] and [validate] accept, with the same
    identifier, type and flags, and whose data parses to the object. *)
Theorem event_read_back (crc32 : list Z → Z) `{Checksum crc32, TlLaws T} (x : T) id type flags :
  0 ≤ id < two64 → in_int type → in_int flags → tl_valid x → Z.of_nat (length (tl_bytes x)) + MIN_SIZE ≤ INT_MAX →
  ∃ raw event data, create_raw crc32 id type flags (DefaultStorer x) = Ok raw ∧ mk_BinlogEvent raw = Ok event ∧
    validate crc32 event = Ok SOk ∧ clone crc32 event = Ok event ∧
    (id_ event = id ∧ type_ event = type ∧ flags_ event = flags) ∧
    get_data event = Ok data ∧ unserialize tl_default data = Ok (x, None).
Proof.
  intros Hid Hty Hfl Hx Hs. set (e := {| e_id := id; e_type := type; e_flags := flags; e_data := tl_bytes x |}).
  assert (He : entry_ok e) by (split; try done; apply (stored_ok x Hx)).
  assert (Hlen : Z.of_nat (length (tl_bytes x)) < two64).
  { unfold MIN_SIZE, HEADER_SIZE, TAIL_SIZE, INT_MAX, two64 in *. lia. }
  exists (event_bytes crc32 e), (event_of crc32 (-1) e), (tl_bytes x).
  assert (Hin : mk_BinlogEvent (event_bytes crc32 e) = Ok (event_of crc32 (-1) e)) by by apply (BinlogEvent.init_spec crc32).
  split_and!; [|done|by apply (validate_spec crc32)| |done|done|done|by apply (get_data_spec crc32 e)|].
  - apply (create_raw_spec crc32 e); [done|]. by apply default_stores.
  - unfold clone. fold (mk_BinlogEvent (raw_event_ (event_of crc32 (-1) e))). cbn [event_of raw_event_].
    rewrite Hin, bind_Ok_l, (validate_spec crc32) by done. done.
  - unfold unserialize. change (mk_TlParser ?l) with (parser_at l (Z.of_nat (length l))).
    rewrite <-(app_nil_r (tl_bytes x)) at 1. rewrite parse_stored; [done|done|apply default_fresh].
Qed.
Lemma event_read_back_witness :
  ∃ raw event data, create_raw crc32 7 5 0 (DefaultStorer (Int32 (-5), Str [104; 105])) = Ok raw ∧
    mk_BinlogEvent raw = Ok event ∧ validate crc32 event = Ok SOk ∧ clone crc32 event = Ok event ∧
    (id_ event = 7 ∧ type_ event = 5 ∧ flags_ event = 0) ∧
    get_data event = Ok data ∧ unserialize tl_default data = Ok ((Int32 (-5), Str [104; 105]), None).
Proof.
  apply (event_read_back crc32 (Int32 (-5), Str [104; 105])); try done.
  repeat constructor; try (apply Z.leb_le; reflexivity); apply Z.ltb_lt; reflexivity.
Defined.

(** C16. The processor keeps the entries in force: fed with the events of a log in which only
    entries in force are rewritten and erased, it accepts all of them, and [for_each]
    passes over exactly the entries that a replay of the log leaves, in the order of
    their identifiers; the last identifier is that of the last entry added. Compaction
    of the vectors is never seen. *)
Theorem processor_replays_log (crc32 : list Z → Z) `{Checksum crc32} (log : list entry) : log_ok log →
  ∃ p events, add_entries crc32 log mk_BinlogEventsProcessor = Ok p ∧
    for_each (λ l event, Ok (l ++ [event])) p [] = Ok events ∧ Forall2 (is_event crc32) (replay log).1 events ∧
    BinlogEventsProcessor.last_event_id_ p = (replay log).2 ∧ total_raw_events_size_ p = total_size (replay log).1.
Proof.
  intros Hl. destruct (add_entries_spec crc32 log _ _ (proc_start_ok crc32) Hl) as (p & E & Hp).
  fold (replay log) in Hp. destruct (for_each_spec crc32 (λ l event, Ok (l ++ [event])) p _ Hp) as (events & Hev & Hfe).
  exists p, events. split_and!; [done| |done|by apply (proc_last_id crc32)|by destruct Hp as [z Hz]; apply Hz].
  by rewrite Hfe, collect_events.
Qed.
Lemma processor_replays_log_witness :
  let e id type flags data := {| e_id := id; e_type := type; e_flags := flags; e_data := data |} in
  let log := [e 1 5 0 [1; 2; 3; 4]; e 3 6 0 []; e 1 7 1 [5; 6; 7; 8]; e 3 (-2) 1 []; e 4 8 0 []] in
  replay log = ([e 1 7 1 [5; 6; 7; 8]; e 4 8 0 []], 4) ∧
  ∃ p events, add_entries crc32 log mk_BinlogEventsProcessor = Ok p ∧
    for_each (λ l event, Ok (l ++ [event])) p [] = Ok events ∧ Forall2 (is_event crc32) (replay log).1 events ∧
    BinlogEventsProcessor.last_event_id_ p = (replay log).2 ∧ total_raw_events_size_ p = total_size (replay log).1.
Proof.
  split; [by vm_compute|]. apply (processor_replays_log crc32).
  apply (bool_decide_unpack _). by vm_compute.
Defined.

(** ** What is lost *)

(** C36. Nothing checks the length of an event when it is written, but the reader takes only
    events of at most [MAX_SIZE] bytes: a longer one is made and validated without an
    error, and when the log is opened again it is dropped, with all that was written
    after it, and no error is reported. *)
Theorem long_event_ends_the_log `{CryptoLaws} drawn fs f (db_key old : DbKey) c es e rest :
  main_file (now fs) = Some f → settled f → key_opens db_key c →
  content f = cipher_head c ++ cipher_body c (entries_bytes es ++ event_bytes crc32 e ++ rest) →
  log_ok es → Forall entry_small es → entry_ok e → MAX_SIZE < entry_size e →
  create_raw crc32 (e_id e) (e_type e) (e_flags e) (SliceStorer (e_data e)) = Ok (event_bytes crc32 e) ∧
  mk_BinlogEvent (event_bytes crc32 e) = Ok (event_of crc32 (-1) e) ∧
  validate crc32 (event_of crc32 (-1) e) = Ok SOk ∧
  ∃ b events, init_binlog db_key old (new_Binlog drawn fs) = Ok (b, SOk, events) ∧
    Forall2 (is_event crc32) (replay es).1 events ∧ open_log b (replay es).1 (last_id_ b) (λ v, v = (replay es).1).
Proof.
  intros Hm Hs Hk Hc Hok Hsm He Hlong. split_and!.
  - apply (create_raw_spec crc32 e); [done|apply slice_stores].
  - by apply (BinlogEvent.init_spec crc32).
  - by apply (validate_spec crc32).
  - destruct (init_ends drawn fs f db_key old c es (event_bytes crc32 e ++ rest)) as (b & events & E & Hev & Ho & _); try done.
    { right. by exists e, rest. }
    by exists b, events.
Qed.
Lemma long_event_ends_the_log_witness :
  ∃ data, Z.of_nat (length data) = 16777216 ∧
  let e1 := {| e_id := 1; e_type := 5; e_flags := 0; e_data := [] |} in
  let e2 := {| e_id := 2; e_type := 5; e_flags := 0; e_data := data |} in
  let f := {| content := event_bytes crc32 e1 ++ event_bytes crc32 e2;
              durable := length (event_bytes crc32 e1 ++ event_bytes crc32 e2) |} in
  create_raw crc32 2 5 0 (SliceStorer data) = Ok (event_bytes crc32 e2) ∧
  mk_BinlogEvent (event_bytes crc32 e2) = Ok (event_of crc32 (-1) e2) ∧
  validate crc32 (event_of crc32 (-1) e2) = Ok SOk ∧
  ∃ b events, init_binlog EmptyKey EmptyKey (new_Binlog 0 (after_crash {| main_file := Some f; new_file := None |})) = Ok (b, SOk, events) ∧
    Forall2 (is_event crc32) (replay [e1]).1 events ∧ open_log b (replay [e1]).1 (last_id_ b) (λ v, v = (replay [e1]).1).
Proof.
  exists (replicate (Z.to_nat 16777216) 0).
  assert (Hlen : Z.of_nat (length (replicate (Z.to_nat 16777216) 0)) = 16777216).
  { rewrite length_replicate. apply Z2Nat.id. lia. }
  assert (Hb : bytes_ok (replicate (Z.to_nat 16777216) 0)) by (apply Forall_replicate; unfold byte; lia).
  revert Hlen Hb. generalize (replicate (Z.to_nat 16777216) 0). intros data Hlen Hb. split; [exact Hlen|].
  set (e1 := {| e_id := 1; e_type := 5; e_flags := 0; e_data := [] |}).
  set (e2 := {| e_id := 2; e_type := 5; e_flags := 0; e_data := data |}). intros e1' e2' f.
  apply (long_event_ends_the_log 0 (after_crash {| main_file := Some f; new_file := None |}) f EmptyKey EmptyKey None [e1] e2 []);
    [reflexivity|reflexivity|exact I| | | | |].
  - unfold f. cbn [content cipher_head cipher_body app]. by rewrite app_nil_r.
  - apply (bool_decide_unpack _). by vm_compute.
  - repeat constructor; by vm_compute.
  - split; [by vm_compute|by vm_compute|by vm_compute|exact Hb|]. cbn [e2 e_data]. rewrite Hlen. by vm_compute.
  - unfold entry_size. cbn [e2 e_data]. rewrite Hlen. by vm_compute.
Defined.

(** Zeros at the end of an encrypted file, which a machine that stops can leave behind,
    are meant to be dropped. But when they decrypt to a length that is not a multiple of
    four, the file is cut where the reader stopped while the cipher stays where it is,
    after the zeros: what is added from then on, and synced, cannot be read again. *)
Section zeros.
#[local] Instance zero_crypto : Crypto := simple_crypto (λ i, if (i mod 4 =? 0)%nat then 33 + Z.of_nat i else 0).
#[local] Existing Instance zero_crypto | 0.

(** The identifiers that [init] passes on. *)
Definition reopen (d : disk) : outcome (Binlog * list Z) :=
  '(b, _, events) ← init_binlog (Password [1; 2]) EmptyKey (new_Binlog 9 (after_crash d)); Ok (b, List.map id_ events).
Definition first_session : outcome disk :=
  '(b, _) ← reopen (now no_files);
  '(b, _) ← add 5 (SliceStorer [1; 2; 3; 4]) b;
  b ← close true b; Ok (now (fs_ b)).
Definition with_zeros (n : nat) (d : disk) : disk :=
  {| main_file := (λ f, {| content := content f ++ replicate n 0; durable := length (content f) + n |}) <$> main_file d;
     new_file := None |}.
(** What the second session finds, and what the third finds after the second has added
    an event and closed the log. *)
Definition later_sessions (d : disk) : outcome (list Z * list Z) :=
  '(b, found1) ← reopen d;
  '(b, _) ← add 6 (SliceStorer [5; 6; 7; 8]) b;
  b ← close true b;
  '(_, found2) ← reopen (now (fs_ b));
  Ok (found1, found2).

Lemma zeros_lose_later_events :
  ∃ d, first_session = Ok d ∧ later_sessions d = Ok ([1], [1; 2]) ∧ later_sessions (with_zeros 4 d) = Ok ([1], [1]).
Proof. eexists. split; [by vm_compute|]. split; by vm_compute. Qed.
End zeros.

(** A file that is still empty is written anew without being synced, and the log then
    takes itself for synced: events that were added, with the key changed and [sync]
    called, are not sure to survive. *)
Lemma change_key_drops_sync :
  ∃ b f, ('(b, _, _) ← init_binlog EmptyKey EmptyKey (new_Binlog 0 no_files);
          '(b, _) ← add 5 (SliceStorer [1; 2; 3; 4]) b;
          b ← change_key (Password [1; 2]) b;
          sync b) = Ok b ∧ main_file (now (fs_ b)) = Some f ∧ length (content f) = 164%nat ∧ durable f = 0%nat.
Proof. eexists _, _. split; [by vm_compute|]. by split_and!. Qed.
